(* ===== verification/_CoqProject ===== *)
-Q . S2P
Prelude.v
Text.v
Domain.v
Arena.v
Job.v
Inventory.v
Priority.v
ReadySet.v
Eligibility.v
Decay.v
FairShare.v
Pack.v
Backfill.v
Preempt.v
Scheduler.v
Cycle.v
Codec.v
LogRecord.v
Log.v
Snapshot.v
Store.v
Journal.v
Command.v
Frame.v
Engine.v
EngineInv.v
EngineSteps.v
EngineTick.v
EngineRun.v
Metrics.v
Order.v
EngineWal.v
EngineLive.v
Replay.v
Recovery.v
Restart.v
Daemon.v
Proto.v
Services.v
Process.v
Worker.v
Rejoin.v
Causes.v
Args.v
Sim.v
SimInv.v
SimRun.v
Scenario.v
SimLive.v
Bench.v
LoadGen.v
