(* ===== verification/Prelude.v ===== *)
(** * TaskerRT: a verification development

    TaskerRT is a batch scheduler in Rust.  A deterministic core
    ([crates/tasker-core]) owns the jobs, the cluster's slots, the queue of ready
    jobs, the dependency tracker and the fair-share ledgers, and decides in
    cycles which jobs to start where.  A write-ahead log ([crates/tasker-wal])
    makes its state survive a restart.  A daemon ([crates/taskerd]) drives both:
    an engine thread owns the core, clients and workers reach it through gRPC
    services ([crates/tasker-proto]) that push commands into a bounded inbox, and
    what it decides leaves through a bounded outbox to the workers
    ([crates/tasker-worker]).  A simulator ([crates/tasker-sim]) drives the core
    alone, in virtual time.  This development models the core, the log library,
    the daemon's engine, journal, metrics and services, the worker, the command
    lines and the simulator, composes them into a daemon whose threads interleave
    and which is started, killed and started again, and proves what makes each part
    and the whole correct.

    ** Conventions

    - Integers are [Z] values kept at their Rust width by the operations: what
      wraps in a release build is written with [wrap32]/[wrap64], what saturates
      with [sat_add]/[sat_sub].  Well-formedness predicates ([Job_wf],
      [Resources_wf], ...) say a value is within its width.
    - A computation that may panic (an index out of range, an [expect]) returns
      [exec]: [Done], [Panic], or [NoFuel] for a loop that ran out of the fuel
      it was given.  [Result] is [result].  [&mut] arguments are passed in and
      handed back.  Total-correctness theorems say [Done]; [m ⇓ Q] is [Done a]
      with [Q a].
    - Loops that are not structural take fuel: [sift_up] the starting position,
      [sift_down] one more than the size of the heap, [drain_ordered_into] one
      more than the number of entries, the failure cascade one more than the
      recorded edges ([cascade_fuel]), the walk of the
      free list one more than the vacant slots, [parse_log] one more than the
      bytes, a tick's retention loop one more than the queue it pops, the
      dispatcher one more than the outbox holds, the simulator's delivery loop
      one more than its queue holds.  The theorems about them conclude [Done], so
      the fuel is enough.
    - The unstable sorts are modelled by stdpp's merge sort; where the keys are
      distinct (candidates) the order is unique, and where ties are possible
      (completions) the theorems do not depend on their order.

    ** Files

    - [Prelude]: the [exec] and [result] types, vectors, folds, automation.
    - [Text]: the string operations of the standard library that the sources use:
      numerals, splitting, trimming.
    - [Domain] ([domain/time.rs], [domain/resource.rs]): virtual time and
      resource vectors.
    - [Arena] ([domain/arena.rs]): generational handles, insertion, removal, free
      list, snapshot and restore.  It refines a finite map; a removed handle
      stays stale; restoring a snapshot gives the same arena.
    - [Job] ([domain/job.rs]): the job record and its state machine.
    - [Inventory] ([cluster/slot.rs]): worker slots, allocation and release,
      first fit.  No sequence of operations overcommits a slot.
    - [Priority] ([policy/priority.rs]): scores and order keys.
    - [ReadySet] ([policy/ready_set.rs]): an indexed binary heap per class with
      its position table, refined to a multiset of entries.
    - [Eligibility] ([policy/eligibility.rs]): the dependency tracker.  Completion
      wakes exactly the jobs it was last to hold back; termination cascades over
      exactly the transitive dependents.
    - [Decay], [FairShare] ([policy/fairshare.rs]): the fixed-point decay table
      and the per-account ledgers.
    - [Pack], [Backfill], [Preempt] ([policy/pack.rs], [backfill.rs],
      [preempt.rs]): placement.  Backfilling never delays the head job past its
      reservation; a preemption plan is sound, minimal and best.
    - [Scheduler] ([engine/cycle.rs], the lifecycle calls): submission,
      completion, failure, cancellation, eviction.  One invariant ties the ready
      set and the tracker to the job states; every call returns, and keeps it for
      callers that keep to what the calls rely on.
    - [Cycle] ([engine/cycle.rs], [run_cycle]): the cycle never panics, keeps the
      invariant, and starts exactly the jobs its decisions name, in priority
      order, without overcommitting a slot.
    - [Codec], [LogRecord], [Log], [Snapshot], [Store] ([tasker-wal/src]): the byte
      formats and the data directory.  Records and snapshots round trip, decoding
      arbitrary bytes never panics, a log cut anywhere keeps its whole records,
      and a rotation interrupted anywhere leaves a loadable generation, but for
      one instant that [rotate_crash_atomic] names.
    - [Journal] ([taskerd/src/journal.rs]): batches of records and the writer
      thread.  Nothing is released before it is durable, and nothing that was
      durable is lost to a crash while a batch is written.

    - [Command] ([taskerd/src/command.rs], [inbox.rs], [outbox.rs]): the messages
      and the two bounded queues, over an interface for the array queue.
    - [Frame]: what each lifecycle call leaves alone.
    - [Engine] ([taskerd/src/engine.rs], [config.rs]): every command handler, the
      tick and its passes, the hand-over to the journal.  [EngineInv] states the
      invariant, [EngineSteps] and [EngineTick] that every handler and the tick
      return and keep it, [EngineRun] that every engine reachable without an empty
      request therefore never panics, accounts for its capacity and logs exactly
      what it did; a run may start from any engine with the invariant ([runs]), a new one or a
      recovered one.
    - [Metrics] ([taskerd/src/metrics.rs]): the metrics and every place of the
      engine that updates them, over an interface for the [prometheus] crate.  The
      tick with its metrics is the tick, and they show what the queries answer, up
      to the jobs the tick gives up waiting for.
    - [Order]: no job starts before its dependencies completed, and no blocked
      job waits for anything else, along every run of the engine.
    - [EngineWal]: no assignment, eviction order or acceptance leaves the engine
      ahead of its record.
    - [EngineLive]: while there is room for the ready jobs, a tick starts one.
    - [Replay], [Recovery] ([Engine::recover], [apply], [restore_snapshot]): from
      any prefix of what an engine logged before its first rotation, recovery
      rebuilds the same jobs in the same states; the window in which workers may
      claim their jobs closes.
    - [Restart]: restoring a snapshot of restorable jobs ([restorable]) rebuilds
      them, so that a snapshot and the records after it stand for the engine that
      wrote them ([represents]).
    - [Daemon] ([taskerd/src/daemon.rs]): what [serve] starts from and leaves
      behind.  Over any number of lives, each ended by a crash at any byte of any
      write, the next daemon starts with the jobs of the last, given restorable
      snapshots; an orderly stop loses nothing.
    - [Proto] ([tasker-proto]): the message types and their conversions; a
      request becomes exactly the job it asks for or is refused by name.
    - [Services] ([registry.rs], [control.rs], [worker_api.rs], [dispatcher.rs],
      [scaler.rs], [clock.rs]): the daemon's services as what they push and
      answer; no dispatch is lost on its way, and a submission is followed from
      the request to the arena and back.
    - [Process] ([daemon.rs], [Engine::run], [run_writer], [dispatcher::run]): the
      threads and tasks of a running daemon, interleaved step by step with the
      shutdown, clients and worker streams.  What has left the log writer is exactly
      what the log says, wherever it is on its way, and a daemon killed at any
      moment starts again knowing it.
    - [Worker] ([worker.rs], [executor.rs]): the worker's session as a step
      relation; no report of a task is lost or sent twice.
    - [Rejoin]: a worker that reconnects and the engine agree about its tasks once
      its Hello is answered.
    - [Causes]: the commands and passes that may take a job from one state to
      another; no job ends, or is lost, without one of them.
    - [Args] (the three [main.rs]): the sources' own parsers, the configuration
      of the daemon, the commands, requests and lines of the client.  What is typed is what
      runs.
    - [Sim], [SimInv], [SimRun], [Scenario] ([tasker-sim/src]): the event queue,
      the driver, its invariant checker, the generator and the scenarios.  The
      checker never fires and the driver never stops with an error on a generated
      scenario, and a quiescent one has finished every job.
    - [SimLive]: a generated scenario comes to rest within an explicit number of
      ticks; no job is starved.
    - [Bench] ([tasker-bench/src/lib.rs]): the synthetic workload and the measured
      cycle.
    - [LoadGen] ([tasker-bench/src/bin/loadgen.rs]): the load generator's command
      line, polls, payloads, submission loop and report.  The open loop skips no
      submission and stamps each with the time it was meant for.

    Components use each other through the lemmas that specify them: [Cycle]
    reasons with [pack_spec], [easy_backfill_spec], [drain_ordered_into_holds]
    and the invariant of [Scheduler], never with their bodies; the engine and the
    simulator reason with [cycle_starts] and the effects of the calls.  The
    checksum of the log, the array queue and the metrics library are parameters,
    with the classes [Checksum], [ArrayQueueLaws] and [PrometheusLaws] as their
    interfaces.

    ** What the theorems do not cover

    Several statements have a premise the code does not enforce, which the comment
    of the theorem names, and an [Example] beside them shows what happens without
    it.  A job that requests no resource at all is accepted and can panic a tick
    ([EngineRun.empty_request_panics_a_tick]), so the engine's invariant excludes
    it.  [Scheduler] keeps its invariant for callers that do not requeue a [Blocked]
    job and submit a job before another waits for it
    ([Scheduler.requeue_accepts_blocked]).  [Recovery] proper is shown up to the
    first snapshot, and [Daemon], [Process] and [Args] across snapshots that are
    restorable, because restoring one can strand or refuse a dependent, or leave a
    record that cannot be replayed ([Recovery]); a directory left at the instant of
    a rotation at which the new log has no magic is refused; the lives of a
    directory all have one configuration.  The weights of [--shares] hold on a new
    directory only ([Args.Taskerd.restart_ignores_shares]).  The simulator is shown
    clean without cancels or with eviction off
    ([Scenario.cancelled_eviction_leaks]) and comes to rest with eviction off.  A
    drain that does not end by its poll can lose reports
    ([Worker.drained_worker_drops_its_last_report]).  The services' races around a
    slot that changes hands are examples in [Services], the worker's in [Worker].

    ** What is not modelled

    Sockets, signals and timers appear as the order of the events they cause; the
    memory model of the threads is sequential consistency, each step of [Process]
    being one access to what they share.  The argument parser, the gRPC transport,
    the text format of the metrics, [crc32fast] and [crossbeam] are third party.
    Errors of the operating system are outside the model of the log.  Scratch
    buffers reused between calls hold no state across them and do not appear.  The
    timing loops of the benchmarks measure the program and are not part of it; the
    load generator's histogram is a class of operations. *)

From stdpp Require Import base list numbers option sorting.
From Stdlib Require Import ZArith Lia.

(** ** Machine-width bounds

    Rust integers are [Z] values; the maxima are notations, so that [lia]
    sees the literals. *)
Abbreviation u8_max := 255%Z.
Abbreviation u32_max := 4294967295%Z.
Abbreviation u64_max := 18446744073709551615%Z.
Abbreviation u128_max := 340282366920938463463374607431768211455%Z.

Definition is_u8 (z : Z) : Prop := (0 <= z <= u8_max)%Z.
Definition is_u32 (z : Z) : Prop := (0 <= z <= u32_max)%Z.
Definition is_u64 (z : Z) : Prop := (0 <= z <= u64_max)%Z.
Definition is_u128 (z : Z) : Prop := (0 <= z <= u128_max)%Z.

#[export] Instance is_u8_dec z : Decision (is_u8 z).
Proof. unfold is_u8. apply _. Defined.
#[export] Instance is_u32_dec z : Decision (is_u32 z).
Proof. unfold is_u32. apply _. Defined.
#[export] Instance is_u64_dec z : Decision (is_u64 z).
Proof. unfold is_u64. apply _. Defined.

(** Saturating and checked arithmetic of the standard library, at the width
    whose maximum is [mx]. *)
Definition sat_add (mx a b : Z) : Z := Z.min mx (a + b).
Definition sat_sub (a b : Z) : Z := Z.max 0 (a - b).
Definition sat_mul (mx a b : Z) : Z := Z.min mx (a * b).
Definition checked_add (mx a b : Z) : option Z :=
  if (a + b <=? mx)%Z then Some (a + b)%Z else None.
Definition wrap64 (z : Z) : Z := (z mod 18446744073709551616)%Z.
Definition wrap32 (z : Z) : Z := (z mod 4294967296)%Z.

(** ** Code that may panic

    [Done a] is a normal return, [Panic] an [expect], [unreachable!], failed
    [assert!] or out-of-range index, and [NoFuel] a loop that used up the fuel
    the model gave it: a theorem that a call is [Done] therefore also says
    that its loops terminate within that fuel. *)
Inductive exec (A : Type) : Type :=
| Done (a : A)
| Panic
| NoFuel.
Arguments Done {A} a.
Arguments Panic {A}.
Arguments NoFuel {A}.

Definition exec_bind {A B} (m : exec A) (k : A → exec B) : exec B :=
  match m with
  | Done a => k a
  | Panic => Panic
  | NoFuel => NoFuel
  end.

Declare Scope rt_scope.
Delimit Scope rt_scope with rt.
Notation "'let!' x ':=' m 'in' k" := (exec_bind m (fun x => k))
  (at level 10, x name, m at level 100, k at level 200) : rt_scope.
Notation "'let!' ' p ':=' m 'in' k" := (exec_bind m (fun x => match x with p => k end))
  (at level 10, p pattern, m at level 100, k at level 200) : rt_scope.

(** Total correctness of a panicking computation. *)
Definition returns {A} (m : exec A) (Q : A → Prop) : Prop :=
  match m with
  | Done a => Q a
  | _ => False
  end.
Notation "m ⇓ Q" := (returns m Q) (at level 70) : rt_scope.
Open Scope rt_scope.

Lemma returns_exists {A} (m : exec A) (Q : A → Prop) :
  m ⇓ Q ↔ ∃ a, m = Done a ∧ Q a.
Proof. destruct m; simpl; naive_solver. Qed.

Lemma returns_bind {A B} (m : exec A) (k : A → exec B) P Q :
  m ⇓ P → (∀ a, P a → k a ⇓ Q) → exec_bind m k ⇓ Q.
Proof. destruct m; simpl; naive_solver. Qed.

Lemma returns_mono {A} (m : exec A) (P Q : A → Prop) :
  m ⇓ P → (∀ a, P a → Q a) → m ⇓ Q.
Proof. destruct m; simpl; naive_solver. Qed.

Lemma exec_bind_Done {A B} (m : exec A) (k : A → exec B) b :
  exec_bind m k = Done b → ∃ a, m = Done a ∧ k a = Done b.
Proof. destruct m; simpl; naive_solver. Qed.

(** [Result<A, E>]: an error is an ordinary value of the program. *)
Inductive result (A E : Type) : Type :=
| Ok (a : A)
| Err (e : E).
Arguments Ok {A E} a.
Arguments Err {A E} e.

(** [Option::expect] and [Result::expect]. *)
Definition expect {A} (o : option A) : exec A :=
  match o with
  | Some a => Done a
  | None => Panic
  end.

(** ** Vectors

    [vec_get v i] is [v.get(i as usize)] for an integer index; the range test
    comes first so that evaluation never builds a large unary number.
    [vec_at] and [vec_put] are [v[i]] and [v[i] = x], which panic out of
    range. *)
Definition in_range {A} (v : list A) (i : Z) : bool :=
  ((0 <=? i) && (i <? Z.of_nat (length v)))%Z.

Definition vec_get {A} (v : list A) (i : Z) : option A :=
  if in_range v i then v !! Z.to_nat i else None.

Definition vec_at {A} (v : list A) (i : Z) : exec A := expect (vec_get v i).

Definition vec_put {A} (v : list A) (i : Z) (x : A) : exec (list A) :=
  if in_range v i then Done (<[Z.to_nat i := x]> v) else Panic.

(** The same for a [usize] index. *)
Definition nth_at {A} (v : list A) (i : nat) : exec A := expect (v !! i).

Definition nth_put {A} (v : list A) (i : nat) (x : A) : exec (list A) :=
  match v !! i with
  | Some _ => Done (<[i := x]> v)
  | None => Panic
  end.

(** [v.swap(a, b)]. *)
Definition list_swap {A} (v : list A) (a b : nat) : list A :=
  match v !! a, v !! b with
  | Some x, Some y => <[a := y]> (<[b := x]> v)
  | _, _ => v
  end.

Definition vec_swap {A} (v : list A) (a b : nat) : exec (list A) :=
  match v !! a, v !! b with
  | Some _, Some _ => Done (list_swap v a b)
  | _, _ => Panic
  end.

(** [v.resize(n, x)] when it can only grow. *)
Definition vec_grow {A} (v : list A) (n : nat) (x : A) : list A :=
  v ++ replicate (n - length v) x.

(** [v.swap_remove(i)]: the last element takes the place of the removed one. *)
Definition swap_remove {A} (v : list A) (i : nat) : exec (A * list A) :=
  match v !! i, v !! (length v - 1)%nat with
  | Some x, Some y => Done (x, take (length v - 1) (<[i := y]> v))
  | _, _ => Panic
  end.

(** [u32::try_from(n).expect(..)] for a [usize] [n]. *)
Definition u32_from_usize (n : nat) : exec Z :=
  if (Z.of_nat n <=? u32_max)%Z then Done (Z.of_nat n) else Panic.

Lemma in_range_spec {A} (v : list A) i :
  in_range v i = true ↔ (0 <= i < Z.of_nat (length v))%Z.
Proof. unfold in_range. rewrite andb_true_iff, Z.leb_le, Z.ltb_lt. lia. Qed.

Lemma vec_get_lookup {A} (v : list A) i :
  (0 <= i)%Z → vec_get v i = v !! Z.to_nat i.
Proof.
  intros Hi. unfold vec_get. destruct (in_range v i) eqn:E; [done|].
  symmetry. apply lookup_ge_None.
  destruct (decide (i < Z.of_nat (length v))%Z) as [Hlt|]; [|lia].
  assert (in_range v i = true) by (apply in_range_spec; lia). congruence.
Qed.

Lemma vec_get_Some {A} (v : list A) i x :
  vec_get v i = Some x ↔ (0 <= i)%Z ∧ v !! Z.to_nat i = Some x.
Proof.
  split.
  - intros H. assert (0 <= i)%Z as Hi.
    { unfold vec_get in H. destruct (in_range v i) eqn:E; [|done].
      apply in_range_spec in E. lia. }
    by rewrite vec_get_lookup in H.
  - intros [Hi H]. by rewrite vec_get_lookup.
Qed.

Lemma vec_at_Done {A} (v : list A) i x :
  vec_get v i = Some x → vec_at v i = Done x.
Proof. unfold vec_at. by intros ->. Qed.

Lemma vec_put_Done {A} (v : list A) i x :
  (0 <= i < Z.of_nat (length v))%Z → vec_put v i x = Done (<[Z.to_nat i := x]> v).
Proof. intros H%in_range_spec. unfold vec_put. by rewrite H. Qed.

Lemma vec_get_insert {A} (v : list A) i j x :
  (0 <= i < Z.of_nat (length v))%Z →
  vec_get (<[Z.to_nat i := x]> v) j = if decide (i = j) then Some x else vec_get v j.
Proof.
  intros Hi. unfold vec_get, in_range. rewrite length_insert.
  destruct (decide (i = j)) as [<-|Hne].
  - replace (0 <=? i)%Z with true by lia.
    replace (i <? Z.of_nat (length v))%Z with true by lia. simpl.
    apply list_lookup_insert_eq. lia.
  - destruct (_ && _) eqn:E; [|done].
    apply andb_true_iff in E as [?%Z.leb_le ?%Z.ltb_lt].
    apply list_lookup_insert_ne. lia.
Qed.

Lemma vec_get_snoc {A} (v : list A) j x :
  vec_get (v ++ [x]) j = if decide (j = Z.of_nat (length v)) then Some x else vec_get v j.
Proof.
  destruct (decide (0 <= j)%Z).
  - rewrite !vec_get_lookup by done. destruct (decide _) as [->|].
    + rewrite Nat2Z.id. rewrite lookup_app_r, Nat.sub_diag by lia. done.
    + destruct (decide (j < Z.of_nat (length v))%Z).
      * rewrite lookup_app_l by lia. done.
      * rewrite !lookup_ge_None_2; [done|lia|rewrite length_app; simpl; lia].
  - unfold vec_get, in_range. replace (0 <=? j)%Z with false by lia. simpl.
    by case_decide; [lia|].
Qed.

Lemma vec_get_range {A} (v : list A) i x :
  vec_get v i = Some x → (0 <= i < Z.of_nat (length v))%Z.
Proof. intros [? H]%vec_get_Some. apply lookup_lt_Some in H. lia. Qed.

Lemma vec_get_map {A B} (f : A → B) (v : list A) i : vec_get (map f v) i = f <$> vec_get v i.
Proof.
  unfold vec_get, in_range. rewrite List.length_map. destruct (_ && _); [|done].
  by rewrite list_lookup_fmap.
Qed.

(** Counting the elements of a vector that satisfy a boolean predicate. *)
Definition count_if {A} (f : A → bool) (v : list A) : nat := length (List.filter f v).

Lemma count_if_insert {A} (f : A → bool) (v : list A) i x y :
  v !! i = Some y →
  (count_if f (<[i := x]> v) + Nat.b2n (f y) = count_if f v + Nat.b2n (f x))%nat.
Proof.
  unfold count_if. revert i. induction v as [|z v IH]; intros [|i] Hi; simplify_eq/=.
  - destruct (f x), (f y); simpl; lia.
  - specialize (IH i Hi). destruct (f z); simpl; lia.
Qed.

Lemma count_if_app {A} (f : A → bool) (v w : list A) :
  count_if f (v ++ w) = (count_if f v + count_if f w)%nat.
Proof. unfold count_if. by rewrite List.filter_app, length_app. Qed.

(** The positions, counted from [k], of the elements that satisfy [f]. *)
Fixpoint indices_if {A} (f : A → bool) (k : Z) (v : list A) : list Z :=
  match v with
  | [] => []
  | x :: v' => if f x then k :: indices_if f (k + 1) v' else indices_if f (k + 1) v'
  end.

Lemma length_indices_if {A} (f : A → bool) k v : length (indices_if f k v) = count_if f v.
Proof.
  unfold count_if. revert k. induction v as [|x v IH]; intros k; [done|]. simpl.
  destruct (f x); simpl; by rewrite IH.
Qed.

Lemma elem_of_indices_if {A} (f : A → bool) k v i :
  i ∈ indices_if f k v ↔ ∃ x, vec_get v (i - k) = Some x ∧ f x = true.
Proof.
  revert k. induction v as [|y v IH]; intros k; simpl.
  { rewrite elem_of_nil. split; [done|]. by intros (x & ?%vec_get_range & _); simpl in *; lia. }
  assert (vec_get (y :: v) (i - k) =
          if decide (i = k) then Some y else vec_get v (i - (k + 1))) as E.
  { destruct (decide (0 <= i - k)%Z).
    - rewrite vec_get_lookup by done. case_decide.
      + by replace (Z.to_nat (i - k)) with 0%nat by lia.
      + rewrite vec_get_lookup by lia.
        by replace (Z.to_nat (i - k)) with (S (Z.to_nat (i - (k + 1)))) by lia.
    - rewrite decide_False by lia. unfold vec_get, in_range.
      by replace (0 <=? i - k)%Z with false by lia; replace (0 <=? i - (k + 1))%Z with false by lia. }
  rewrite E. destruct (f y) eqn:Ef; rewrite ?elem_of_cons, IH; case_decide; subst.
  - split; [intros _; eauto|by left].
  - split; [intros [?|?]; [done|done]|by right].
  - split.
    + intros (x & ?%vec_get_range & _). lia.
    + intros (x & [= ->] & ?). congruence.
  - done.
Qed.

Lemma NoDup_indices_if {A} (f : A → bool) k v : NoDup (indices_if f k v).
Proof.
  revert k. induction v as [|x v IH]; intros k; simpl; [constructor|].
  destruct (f x); [|done]. constructor; [|done].
  rewrite elem_of_indices_if. intros (y & ?%vec_get_range & _). lia.
Qed.

Lemma length_vec_grow {A} (v : list A) n x :
  length (vec_grow v n x) = length v `max` n.
Proof. unfold vec_grow. rewrite length_app, length_replicate. lia. Qed.

Lemma lookup_vec_grow_l {A} (v : list A) n x i :
  i < length v → vec_grow v n x !! i = v !! i.
Proof. intros. unfold vec_grow. by apply lookup_app_l. Qed.

Lemma lookup_vec_grow {A} (v : list A) n x i y :
  vec_grow v n x !! i = Some y ↔
  v !! i = Some y ∨ (length v ≤ i < n ∧ y = x).
Proof.
  unfold vec_grow. rewrite lookup_app_Some, lookup_replicate.
  split; intros [?|(?&?)]; naive_solver lia.
Qed.

Lemma u32_from_usize_Done n :
  (Z.of_nat n <= u32_max)%Z → u32_from_usize n = Done (Z.of_nat n).
Proof. intros H%Z.leb_le. unfold u32_from_usize. by rewrite H. Qed.

(** [Iterator::position]: the index of the first element accepted. *)
Fixpoint position {A} (f : A → bool) (l : list A) : option nat :=
  match l with
  | [] => None
  | x :: l' => if f x then Some 0%nat else S <$> position f l'
  end.

Lemma position_Some {A} (f : A → bool) l i :
  position f l = Some i →
  ∃ x, l !! i = Some x ∧ f x = true ∧
       ∀ j y, (j < i)%nat → l !! j = Some y → f y = false.
Proof.
  revert i. induction l as [|a l IH]; intros i H; simpl in H; [done|].
  destruct (f a) eqn:Ea; simplify_eq.
  - exists a. split; [done|]. split; [done|]. lia.
  - destruct (position f l) as [k|]; simplify_eq/=.
    destruct (IH k eq_refl) as (x & Hx & Hfx & Hmin).
    exists x. split; [done|]. split; [done|].
    intros [|j] y Hj Hy; simplify_eq/=; [done|]. eapply Hmin; [|done]. lia.
Qed.

Lemma position_None {A} (f : A → bool) l :
  position f l = None ↔ ∀ x, x ∈ l → f x = false.
Proof.
  induction l as [|a l IH]; simpl.
  { split; [by intros _ x ?%elem_of_nil|done]. }
  destruct (f a) eqn:Ea.
  - split; [done|]. intros H. rewrite (H a) in Ea; [done|by left].
  - rewrite fmap_None, IH. split; intros H x.
    + intros [->|?]%elem_of_cons; auto.
    + intros Hx. apply H. by right.
Qed.

(** ** Swapping *)

Lemma nth_at_Done {A} (v : list A) i x : v !! i = Some x → nth_at v i = Done x.
Proof. unfold nth_at. by intros ->. Qed.

Lemma nth_put_Done {A} (v : list A) i x :
  (i < length v)%nat → nth_put v i x = Done (<[i := x]> v).
Proof. intros [y Hy]%lookup_lt_is_Some. unfold nth_put. by rewrite Hy. Qed.

Lemma vec_swap_Done {A} (v : list A) a b :
  (a < length v)%nat → (b < length v)%nat → vec_swap v a b = Done (list_swap v a b).
Proof.
  intros [x Hx]%lookup_lt_is_Some [y Hy]%lookup_lt_is_Some. unfold vec_swap. by rewrite Hx, Hy.
Qed.

Lemma insert_Permutation_swap {A} (w : list A) i x y :
  w !! i = Some x → x :: <[i := y]> w ≡ₚ y :: w.
Proof.
  intros Hi. rewrite <-(take_drop_middle w i x Hi) at 2.
  rewrite insert_take_drop by (by eapply lookup_lt_Some).
  rewrite <-!Permutation_middle. by rewrite Permutation_swap.
Qed.

Lemma swap_remove_Done {A} (v : list A) i x :
  v !! i = Some x → ∃ v', swap_remove v i = Done (x, v') ∧ v ≡ₚ x :: v'.
Proof.
  intros Hi. unfold swap_remove. rewrite Hi.
  destruct v as [|y w _] using rev_ind; [done|]. rewrite length_app, Nat.add_sub, list_lookup_middle by done.
  eexists. split; [done|]. apply lookup_app_Some in Hi as [Hi|[Hle Hi]].
  - rewrite insert_app_l by (by eapply lookup_lt_Some). rewrite take_app_length' by (by rewrite length_insert).
    by rewrite insert_Permutation_swap, Permutation_app_comm.
  - destruct (i - length w)%nat as [|n] eqn:E; [|done]. injection Hi as ->.
    replace i with (length w) by lia. rewrite insert_app_r_alt, Nat.sub_diag by lia. simpl.
    rewrite take_app_length. by rewrite Permutation_app_comm.
Qed.

Lemma length_list_swap {A} (v : list A) a b : length (list_swap v a b) = length v.
Proof. unfold list_swap. repeat case_match; by rewrite ?length_insert. Qed.

Lemma list_swap_lookup {A} (v : list A) a b i :
  (a < length v)%nat → (b < length v)%nat →
  list_swap v a b !! i = if decide (i = a) then v !! b else if decide (i = b) then v !! a else v !! i.
Proof.
  intros [x Hx]%lookup_lt_is_Some [y Hy]%lookup_lt_is_Some. unfold list_swap. rewrite Hx, Hy.
  pose proof (lookup_lt_Some _ _ _ Hx). pose proof (lookup_lt_Some _ _ _ Hy).
  destruct (decide (i = a)) as [->|].
  - rewrite list_lookup_insert_eq; [done|]. by rewrite length_insert.
  - rewrite list_lookup_insert_ne by done. case_decide; subst.
    + by rewrite list_lookup_insert_eq.
    + by rewrite list_lookup_insert_ne.
Qed.

Lemma list_swap_fmap {A B} (f : A → B) v a b : f <$> list_swap v a b = list_swap (f <$> v) a b.
Proof.
  unfold list_swap. rewrite !list_lookup_fmap.
  destruct (v !! a), (v !! b); simpl; by rewrite ?list_fmap_insert.
Qed.

Lemma list_swap_Permutation {A} (v : list A) a b : list_swap v a b ≡ₚ v.
Proof.
  unfold list_swap. destruct (v !! a) as [x|] eqn:Ea; [|done].
  destruct (v !! b) as [y|] eqn:Eb; [|done].
  destruct (decide (a = b)) as [->|Hne].
  { simplify_eq. by rewrite list_insert_insert_eq, list_insert_id. }
  apply Permutation_inj. split; [by rewrite !length_insert|].
  exists (fun i => if decide (i = a) then b else if decide (i = b) then a else i).
  split.
  - intros i j. repeat case_decide; congruence.
  - intros i. pose proof (lookup_lt_Some _ _ _ Ea). pose proof (lookup_lt_Some _ _ _ Eb).
    destruct (decide (i = a)) as [->|].
    + rewrite list_lookup_insert_eq; [done|]. by rewrite length_insert.
    + rewrite list_lookup_insert_ne by done. case_decide; subst.
      * by rewrite list_lookup_insert_eq.
      * by rewrite list_lookup_insert_ne.
Qed.

(** ** Folds that may panic *)
Fixpoint exec_fold {A S} (f : S → A → exec S) (s : S) (l : list A) : exec S :=
  match l with
  | [] => Done s
  | a :: l' => let! s' := f s a in exec_fold f s' l'
  end.

Lemma exec_fold_inv {A S} (f : S → A → exec S) (I : list A → S → Prop) (l : list A) (s : S) :
  I [] s →
  (∀ done a rest s, l = done ++ a :: rest → I done s → f s a ⇓ I (done ++ [a])) →
  exec_fold f s l ⇓ I l.
Proof.
  intros H0 Hstep.
  assert (∀ rest done s, l = done ++ rest → I done s → exec_fold f s rest ⇓ I l) as Hgen.
  { induction rest as [|a rest IH]; intros done s' Hl HI; simpl.
    - rewrite app_nil_r in Hl. by subst.
    - eapply returns_bind; [by eapply Hstep|]. intros s'' HI'.
      eapply IH; [|exact HI']. by rewrite <-app_assoc. }
  by eapply (Hgen l []).
Qed.

(** ** The development's automation *)
Create HintDb rt discriminated.
#[export] Hint Resolve vec_at_Done vec_put_Done nth_at_Done nth_put_Done vec_swap_Done
  u32_from_usize_Done : rt.

(** Splits a hypothesis that a monadic computation returned. *)
Ltac exec_inv :=
  repeat match goal with
  | H : exec_bind _ _ = Done _ |- _ =>
      let a := fresh "r" in let E := fresh "E" in
      apply exec_bind_Done in H; destruct H as (a & E & H)
  | H : Done _ = Done _ |- _ => injection H as H; subst
  | H : Panic = Done _ |- _ => discriminate H
  | H : NoFuel = Done _ |- _ => discriminate H
  end.

(** Turns boolean integer tests in the context and the goal into propositions. *)
Ltac bool_prop :=
  repeat match goal with
  | H : (_ <? _)%Z = true |- _ => apply Z.ltb_lt in H
  | H : (_ <? _)%Z = false |- _ => apply Z.ltb_ge in H
  | H : (_ <=? _)%Z = true |- _ => apply Z.leb_le in H
  | H : (_ <=? _)%Z = false |- _ => apply Z.leb_gt in H
  | H : (_ =? _)%Z = true |- _ => apply Z.eqb_eq in H
  | H : (_ =? _)%Z = false |- _ => apply Z.eqb_neq in H
  | H : _ && _ = true |- _ => apply andb_true_iff in H; destruct H
  | H : _ && _ = false |- _ => apply andb_false_iff in H
  | H : _ || _ = true |- _ => apply orb_true_iff in H
  | H : _ || _ = false |- _ => apply orb_false_iff in H; destruct H
  | H : negb _ = true |- _ => apply negb_true_iff in H
  | H : negb _ = false |- _ => apply negb_false_iff in H
  | |- _ && _ = true => apply andb_true_iff; split
  | |- (_ <? _)%Z = true => apply Z.ltb_lt
  | |- (_ <=? _)%Z = true => apply Z.leb_le
  | |- (_ =? _)%Z = true => apply Z.eqb_eq
  end.

(** Linear arithmetic with [/] and [mod] by constants. *)
Ltac zdiv := Z.to_euclidean_division_equations; lia.

(** ** Filters *)

Lemma elem_of_List_filter {A} (p : A → bool) l x : x ∈ List.filter p l ↔ x ∈ l ∧ p x = true.
Proof. by rewrite !list_elem_of_In, List.filter_In. Qed.

Lemma filter_sublist {A} (f : A → bool) l : List.filter f l `sublist_of` l.
Proof. induction l as [|a l IH]; cbn; [done|]. destruct (f a); by constructor. Qed.

Lemma filter_perm {A} (f : A → bool) l l' : l ≡ₚ l' → List.filter f l ≡ₚ List.filter f l'.
Proof.
  induction 1 as [|a l l' _ IH|a b l|l l' l'' _ IH _ IH']; cbn; [done| | |by etrans].
  - destruct (f a); by rewrite IH.
  - destruct (f a), (f b); try done. apply Permutation_swap.
Qed.

Lemma filter_all {A} (f : A → bool) l : Forall (fun a => f a = true) l → List.filter f l = l.
Proof. induction 1 as [|a l Ha _ IH]; cbn; [done|]. by rewrite Ha, IH. Qed.

Lemma filter_none {A} (f : A → bool) l : Forall (fun a => f a = false) l → List.filter f l = [].
Proof. induction 1 as [|a l Ha _ IH]; cbn; [done|]. by rewrite Ha. Qed.

Lemma sublist_filter {A} (f : A → bool) m l : m `sublist_of` l → Forall (fun a => f a = true) m → m `sublist_of` List.filter f l.
Proof.
  induction 1 as [|a m l _ IH|a m l _ IH]; cbn; [done| |].
  - intros [Ha Hm]%Forall_cons. rewrite Ha. constructor. by apply IH.
  - intros Hm. destruct (f a); [constructor|]; by apply IH.
Qed.

(** A part of a list, in its order, with all that satisfies [f] and nothing else
    is the filtered list. *)
Lemma partition_filter {A} (f : A → bool) may others (l : list A) :
  l ≡ₚ may ++ others → may `sublist_of` l → Forall (fun a => f a = true) may → Forall (fun a => f a = false) others →
  may = List.filter f l.
Proof.
  intros Hl Hsub Hm Ho. apply sublist_filter with (f := f) in Hsub; [|done].
  apply (filter_perm f) in Hl. rewrite List.filter_app, (filter_all f may Hm), (filter_none f others Ho), app_nil_r in Hl.
  apply Permutation_length in Hl. clear Hm Ho. revert Hl Hsub. generalize (List.filter f l). intros k Hl Hsub. induction Hsub as [|a m k Hs IH|a m k Hs IH]; cbn in Hl; [done| |].
  - f_equal. apply IH. lia.
  - apply sublist_length in Hs. lia.
Qed.
