(* ===== verification/Text.v ===== *)
(** * Text

    What the sources use of Rust's strings.  A [&str] is the list of its
    characters, as code points; [String::split], [str::trim], [split_once] and
    [from_str] of the unsigned integers, with the facts their users need. *)

From Stdlib Require Import ZArith Lia Ascii.
From stdpp Require Import base list numbers option strings.
From S2P Require Import Prelude.
Open Scope Z_scope.
Open Scope list_scope.

(** ** Operations *)

(** The characters of a string literal. *)
Fixpoint str (s : string) : list Z :=
  match s with
  | EmptyString => []
  | String c s' => Z.of_nat (nat_of_ascii c) :: str s'
  end.

(** The decimal digits, most significant first; twenty hold a [u64]. *)
Fixpoint dec_digits (fuel : nat) (n : Z) (acc : list Z) : list Z :=
  match fuel with
  | O => acc
  | S fuel' =>
      let acc := (48 + n mod 10) :: acc in
      if n / 10 =? 0 then acc else dec_digits fuel' (n / 10) acc
  end.

(** [Display] of an unsigned integer. *)
Definition dec (n : Z) : list Z := dec_digits 20 n [].

Inductive IntErrorKind : Type := Empty | InvalidDigit | PosOverflow.

(** The digits, checked one by one: a character that is none is reported before
    the overflow it would cause. *)
Fixpoint parse_digits (mx : Z) (s : list Z) (acc : Z) : result Z IntErrorKind :=
  match s with
  | [] => Ok acc
  | c :: s' =>
      if (48 <=? c) && (c <=? 57) then
        let v := acc * 10 + (c - 48) in
        if mx <? v then Err PosOverflow else parse_digits mx s' v
      else Err InvalidDigit
  end.

(** [from_str] of the unsigned type whose largest value is [mx]: digits after an
    optional plus. *)
Definition from_str (mx : Z) (s : list Z) : result Z IntErrorKind :=
  match s with
  | [] => Err Empty
  | c :: s' =>
      if c =? 43 then (match s' with [] => Err InvalidDigit | _ => parse_digits mx s' 0 end) else parse_digits mx s 0
  end.

(** [split] at a character: never empty, one part more than there are separators. *)
Fixpoint split_on (sep : Z) (s : list Z) : list (list Z) :=
  match s with
  | [] => [[]]
  | c :: s =>
      let parts := split_on sep s in
      if c =? sep then [] :: parts
      else match parts with
           | [] => [[c]]
           | p :: parts => (c :: p) :: parts
           end
  end.

Fixpoint join_on (sep : Z) (parts : list (list Z)) : list Z :=
  match parts with
  | [] => []
  | [p] => p
  | p :: parts => p ++ [sep] ++ join_on sep parts
  end.

Fixpoint split_once (sep : Z) (s : list Z) : option (list Z * list Z) :=
  match s with
  | [] => None
  | c :: s =>
      if c =? sep then Some ([], s)
      else match split_once sep s with Some (a, b) => Some (c :: a, b) | None => None end
  end.

(** [char::is_whitespace]: the Unicode property [White_Space]. *)
Definition is_whitespace (c : Z) : bool :=
  ((9 <=? c) && (c <=? 13)) || (c =? 32) || (c =? 133) || (c =? 160) || (c =? 5760) ||
  ((8192 <=? c) && (c <=? 8202)) || (c =? 8232) || (c =? 8233) || (c =? 8239) || (c =? 8287) || (c =? 12288).

Fixpoint trim_start (s : list Z) : list Z :=
  match s with
  | [] => []
  | c :: s' => if is_whitespace c then trim_start s' else s
  end.

Definition trim (s : list Z) : list Z := rev (trim_start (rev (trim_start s))).

(** [to_ascii_lowercase]. *)
Definition to_ascii_lowercase (s : list Z) : list Z := map (fun c => if (65 <=? c) && (c <=? 90) then c + 32 else c) s.

(** ** Numerals *)

Definition digit (c : Z) : Prop := 48 <= c <= 57.

Definition digits_value (a : Z) (ds : list Z) : Z := fold_left (fun a c => a * 10 + (c - 48)) ds a.

(** A numeral of [n]: digits, leading zeros allowed, after an optional plus. *)
Definition numeral (s : list Z) (n : Z) : Prop :=
  ∃ ds, (s = ds ∨ s = 43 :: ds) ∧ ds ≠ [] ∧ Forall digit ds ∧ digits_value 0 ds = n.

Lemma digits_value_ge a ds : 0 <= a → Forall digit ds → a <= digits_value a ds.
Proof.
  intros Ha Hd. revert a Ha. induction Hd as [|c ds Hc _ IH]; intros a Ha; simpl; [lia|].
  unfold digit in Hc. specialize (IH (a * 10 + (c - 48))). lia.
Qed.

Lemma parse_digits_Ok mx ds a n :
  0 <= a <= mx → parse_digits mx ds a = Ok n ↔ Forall digit ds ∧ digits_value a ds = n ∧ n <= mx.
Proof.
  revert a. induction ds as [|c ds IH]; intros a Ha; cbn [parse_digits].
  { unfold digits_value. cbn. split; [intros [= <-]; repeat split; [constructor|lia]|by intros (_ & -> & _)]. }
  change (digits_value a (c :: ds)) with (digits_value (a * 10 + (c - 48)) ds). rewrite Forall_cons. unfold digit at 1.
  destruct (Z.leb_spec 48 c), (Z.leb_spec c 57); cbn [andb]; try (split; [done|lia]).
  destruct (Z.ltb_spec mx (a * 10 + (c - 48))); [split; [done|]|rewrite IH by lia; naive_solver].
  intros [[_ Hd] [E Hm]]. pose proof (digits_value_ge (a * 10 + (c - 48)) ds ltac:(lia) Hd). lia.
Qed.

Lemma from_str_Ok mx s n : 0 <= mx → from_str mx s = Ok n ↔ numeral s n ∧ n <= mx.
Proof.
  intros Hm. unfold numeral. destruct s as [|c s]; cbn [from_str].
  { split; [done|]. intros [(ds & [<-|?] & ? & _) _]; done. }
  destruct (Z.eqb_spec c 43) as [->|Hc].
  - destruct s as [|c s].
    { split; [done|]. intros [(ds & [<-|[= <-]] & Hne & Hd & _) _]; [|done]. apply Forall_cons in Hd as [Hd _]. unfold digit in Hd. lia. }
    rewrite parse_digits_Ok by lia. split; [intros (? & ? & ?); split; [|done]; exists (c :: s); eauto|].
    intros [(ds & [<-|[= <-]] & Hne & Hd & Hv) Hn]; [|done]. apply Forall_cons in Hd as [Hd _]. unfold digit in Hd. lia.
  - rewrite parse_digits_Ok by lia. split; [intros (? & ? & ?); split; [|done]; exists (c :: s); eauto|].
    intros [(ds & [<-|[= ? ?]] & Hne & Hd & Hv) Hn]; done.
Qed.

Lemma dec_digits_spec fuel n acc :
  (0 < fuel)%nat → 0 <= n < 10 ^ Z.of_nat fuel →
  ∃ ds, dec_digits fuel n acc = ds ++ acc ∧ ds ≠ [] ∧ Forall digit ds ∧ digits_value 0 ds = n.
Proof.
  revert n acc. induction fuel as [|fuel IH]; intros n acc Hf Hn; [lia|]. cbn [dec_digits].
  assert (digit (48 + n mod 10)) as Hd by (unfold digit; pose proof (Z.mod_pos_bound n 10); lia).
  pose proof (Z.div_mod n 10 ltac:(lia)) as Hdm.
  destruct (Z.eqb_spec (n / 10) 0) as [E|E].
  - exists [48 + n mod 10]. split; [done|]. split; [done|]. split; [by constructor|].
    unfold digits_value. simpl. lia.
  - rewrite Nat2Z.inj_succ, Z.pow_succ_r in Hn by lia.
    destruct (IH (n / 10) ((48 + n mod 10) :: acc)) as (ds & -> & _ & Hds & Hv).
    { destruct fuel; [|lia]. simpl in Hn. rewrite Z.div_small in E by lia. done. }
    { split; [apply Z.div_pos; lia|apply Z.div_lt_upper_bound; lia]. }
    exists (ds ++ [48 + n mod 10]). split; [by rewrite <-app_assoc|]. split; [by destruct ds|].
    split; [apply Forall_app; split; [done|by constructor]|].
    unfold digits_value in *. rewrite fold_left_app, Hv. simpl. lia.
Qed.

Lemma dec_spec n : is_u64 n → dec n ≠ [] ∧ Forall digit (dec n) ∧ digits_value 0 (dec n) = n.
Proof.
  intros Hn. unfold is_u64, dec in *.
  destruct (dec_digits_spec 20 n []) as (ds & -> & ?); [lia|change (10 ^ Z.of_nat 20) with 100000000000000000000; lia|].
  by rewrite app_nil_r.
Qed.

Lemma digits_value_zeros k ds : digits_value 0 (replicate k 48 ++ ds) = digits_value 0 ds.
Proof.
  unfold digits_value. rewrite fold_left_app.
  assert (fold_left (fun a c => a * 10 + (c - 48)) (replicate k 48) 0 = 0) as -> by (by induction k).
  done.
Qed.

(** Padding with zeros keeps the value. *)
Lemma padded_numeral k n : is_u64 n → numeral (replicate k 48 ++ dec n) n.
Proof.
  intros (Hne & Hd & Hv)%dec_spec. exists (replicate k 48 ++ dec n). split; [by left|]. split; [by intros [_ ?]%app_eq_nil|].
  split; [|by rewrite digits_value_zeros]. apply Forall_app. split; [|done]. apply Forall_replicate. unfold digit. lia.
Qed.

Lemma dec_numeral n : is_u64 n → numeral (dec n) n.
Proof. apply (padded_numeral 0). Qed.

Lemma numeral_range s n : numeral s n → 0 <= n.
Proof. intros (ds & _ & _ & Hd & <-). by apply digits_value_ge. Qed.

(** The characters of a numeral. *)
Lemma numeral_chars s n : numeral s n → Forall (fun c => c = 43 ∨ digit c) s ∧ s ≠ [].
Proof.
  intros (ds & Hs & Hne & Hd & _). assert (Forall (fun c => c = 43 ∨ digit c) ds) as Hf.
  { eapply Forall_impl; [exact Hd|]. by right. }
  destruct Hs as [->| ->]; [done|]. split; [|done]. constructor; [by left|done].
Qed.

(** ** Splitting *)

Definition free_of (sep : Z) (p : list Z) : Prop := sep ∉ p.

Lemma split_on_cons sep s : ∃ p ps, split_on sep s = p :: ps.
Proof. destruct s as [|c s]; [by eexists _, _|]. cbn. destruct (c =? sep); [by eexists _, _|]. destruct (split_on sep s); by eexists _, _. Qed.

Lemma split_on_app sep p s :
  free_of sep p → split_on sep (p ++ sep :: s) = p :: split_on sep s.
Proof.
  unfold free_of. induction p as [|c p IH]; intros Hp; cbn.
  { by rewrite Z.eqb_refl. }
  rewrite not_elem_of_cons in Hp. destruct Hp as [Hc Hp]. rewrite IH by done. by destruct (Z.eqb_spec c sep).
Qed.

Lemma split_on_free sep p : free_of sep p → split_on sep p = [p].
Proof.
  unfold free_of. induction p as [|c p IH]; intros Hp; [done|]. rewrite not_elem_of_cons in Hp. destruct Hp as [Hc Hp]. cbn.
  rewrite IH by done. by destruct (Z.eqb_spec c sep).
Qed.

Lemma split_join sep parts : parts ≠ [] → Forall (free_of sep) parts → split_on sep (join_on sep parts) = parts.
Proof.
  intros Hne Hf. induction Hf as [|p parts Hp Hf IH]; [done|]. destruct parts as [|q parts].
  { by apply split_on_free. }
  change (join_on sep (p :: q :: parts)) with (p ++ sep :: join_on sep (q :: parts)). by rewrite split_on_app, IH.
Qed.

Lemma join_split sep s : join_on sep (split_on sep s) = s ∧ Forall (free_of sep) (split_on sep s).
Proof.
  unfold free_of. induction s as [|c s [IH Hf]]; cbn.
  { split; [done|]. constructor; [by intros ?%elem_of_nil|constructor]. }
  destruct (split_on_cons sep s) as (p & ps & E). rewrite E in *. destruct (Z.eqb_spec c sep) as [->|Hc].
  - split; [by rewrite <-IH|]. constructor; [by intros ?%elem_of_nil|done].
  - apply Forall_cons in Hf as [Hp Hf]. split; [rewrite <-IH; by destruct ps|]. constructor; [|done]. by rewrite not_elem_of_cons.
Qed.

Lemma split_once_Some sep s a b : split_once sep s = Some (a, b) ↔ s = a ++ sep :: b ∧ free_of sep a.
Proof.
  unfold free_of. revert a. induction s as [|c s IH]; intros a; cbn; [split; [done|]; intros [E _]; by destruct a|].
  destruct (Z.eqb_spec c sep) as [->|Hc].
  - split; [intros [= <- <-]; split; [done|by intros ?%elem_of_nil]|]. intros [E Ha]. destruct a as [|x a]; [by injection E as ->|].
    injection E as -> _. by rewrite not_elem_of_cons in Ha; destruct Ha.
  - split.
    + destruct (split_once sep s) as [[x y]|]; [|done]. intros [= <- <-]. destruct (proj1 (IH x) eq_refl) as [-> Hx].
      split; [done|]. by rewrite not_elem_of_cons.
    + intros [E Ha]. destruct a as [|x a]; [by injection E|]. injection E as -> ->. rewrite not_elem_of_cons in Ha.
      destruct Ha as [_ Ha]. by rewrite (proj2 (IH a) (conj eq_refl Ha)).
Qed.

(** ** Trimming *)

Definition blank (s : list Z) : Prop := Forall (fun c => is_whitespace c = true) s.

(** No blank at either end. *)
Definition tidy (s : list Z) : Prop :=
  (∀ c s', s = c :: s' → is_whitespace c = false) ∧ (∀ c s', s = s' ++ [c] → is_whitespace c = false).

Lemma blank_rev s : blank s → blank (rev s).
Proof. apply List.Forall_rev. Qed.

Lemma trim_start_blank w s : blank w → trim_start (w ++ s) = trim_start s.
Proof. induction 1 as [|c w Hc _ IH]; [done|]. cbn. by rewrite Hc. Qed.

Lemma trim_start_stop s : (∀ c s', s = c :: s' → is_whitespace c = false) → trim_start s = s.
Proof. destruct s as [|c s]; [done|]. intros Hs. cbn. by rewrite (Hs c s). Qed.

Lemma trim_start_spec s :
  ∃ w, blank w ∧ s = w ++ trim_start s ∧ (∀ c s', trim_start s = c :: s' → is_whitespace c = false).
Proof.
  induction s as [|c s (w & Hw & E & Hs)]; [exists []; split; [constructor|done]|]. cbn. destruct (is_whitespace c) eqn:Ec.
  - exists (c :: w). split; [by constructor|]. split; [cbn; by f_equal|done].
  - exists []. split; [constructor|]. split; [done|]. by intros ? ? [= <- _].
Qed.

Lemma trim_tidy w s v : blank w → blank v → tidy s → trim (w ++ s ++ v) = s.
Proof.
  intros Hw Hv [H1 H2]. unfold trim. rewrite trim_start_blank by done. destruct s as [|c s].
  { cbn. rewrite <-(app_nil_r v), trim_start_blank by done. done. }
  rewrite (trim_start_stop ((c :: s) ++ v)) by (intros ? ? [= <- _]; by eapply H1).
  rewrite rev_app_distr, trim_start_blank by (by apply blank_rev). rewrite trim_start_stop, rev_involutive; [done|].
  intros x s' E. apply (H2 x (rev s')). apply (f_equal (@rev Z)) in E. by rewrite rev_involutive in E.
Qed.

Lemma trim_spec s : ∃ w v, blank w ∧ blank v ∧ s = w ++ trim s ++ v ∧ tidy (trim s).
Proof.
  destruct (trim_start_spec s) as (w & Hw & E & H1). destruct (trim_start_spec (rev (trim_start s))) as (v & Hv & E' & H2).
  exists w, (rev v). apply (f_equal (@rev Z)) in E'. rewrite rev_involutive, rev_app_distr in E'. fold (trim s) in E'.
  split; [done|]. split; [by apply blank_rev|]. split; [by rewrite <-E'|]. split.
  - intros c s' Ec. apply (H1 c (s' ++ rev v)). by rewrite E', Ec.
  - intros c s' Ec. apply (H2 c (rev s')). unfold trim in Ec. apply (f_equal (@rev Z)) in Ec.
    by rewrite rev_involutive, rev_app_distr in Ec.
Qed.

Lemma trim_blank s : trim s = [] ↔ blank s.
Proof.
  split.
  - intros E. destruct (trim_spec s) as (w & v & Hw & Hv & Hs & _). rewrite E in Hs. subst s. by apply Forall_app.
  - intros Hs. pose proof (trim_tidy s [] [] Hs) as E. rewrite app_nil_r in E. apply E; [constructor|]. split; [done|]. by intros ? [].
Qed.
