(* ===== verification/Domain.v ===== *)
(** * Virtual time and resource vectors

    [crates/tasker-core/src/domain/time.rs] and [.../domain/resource.rs]:
    saturating nanosecond arithmetic, the three-dimensional resource vector,
    and the facts about "fits" that every placement decision rests on. *)

From stdpp Require Import base list numbers option.
From Stdlib Require Import ZArith Lia.
From S2P Require Import Prelude.
Open Scope Z_scope.

(** ** Virtual time ([time.rs]) *)

(** Nanosecond counts: both newtypes wrap a [u64]. *)
Abbreviation VirtualTime := Z (only parsing).
Abbreviation VirtualDuration := Z (only parsing).

Definition time_saturating_add (t : VirtualTime) (delta : VirtualDuration) : VirtualTime :=
  sat_add u64_max t delta.

Definition time_saturating_sub_time (t earlier : VirtualTime) : VirtualDuration :=
  sat_sub t earlier.

Definition duration_from_secs (secs : Z) : VirtualDuration :=
  sat_mul u64_max secs 1000000000.

Lemma time_saturating_add_u64 t d :
  is_u64 t → is_u64 d → is_u64 (time_saturating_add t d).
Proof. unfold is_u64, time_saturating_add, sat_add. lia. Qed.

Lemma time_saturating_add_le t d : is_u64 t → 0 <= d → t <= time_saturating_add t d.
Proof. unfold is_u64, time_saturating_add, sat_add. lia. Qed.

(** ** Resource vectors ([resource.rs]) *)

Record Resources := MkResources {
  cpu_millis : Z;
  mem_bytes : Z;
  gpus : Z;
}.

#[export] Instance Resources_eq_dec : EqDecision Resources.
Proof. solve_decision. Defined.

(** The field widths: [u32], [u64], [u8]. *)
Definition Resources_wf (r : Resources) : Prop :=
  is_u32 (cpu_millis r) ∧ is_u64 (mem_bytes r) ∧ is_u8 (gpus r).

#[export] Instance Resources_wf_dec r : Decision (Resources_wf r).
Proof. unfold Resources_wf. apply _. Defined.

Definition Resources_ZERO : Resources := MkResources 0 0 0.

Definition fits_within (self capacity : Resources) : bool :=
  (cpu_millis self <=? cpu_millis capacity) &&
  (mem_bytes self <=? mem_bytes capacity) &&
  (gpus self <=? gpus capacity).

Definition Resources_checked_add (self other : Resources) : option Resources :=
  match checked_add u32_max (cpu_millis self) (cpu_millis other) with
  | None => None
  | Some c =>
      match checked_add u64_max (mem_bytes self) (mem_bytes other) with
      | None => None
      | Some m =>
          match checked_add u8_max (gpus self) (gpus other) with
          | None => None
          | Some g => Some (MkResources c m g)
          end
      end
  end.

Definition Resources_saturating_add (self other : Resources) : Resources :=
  MkResources (sat_add u32_max (cpu_millis self) (cpu_millis other))
              (sat_add u64_max (mem_bytes self) (mem_bytes other))
              (sat_add u8_max (gpus self) (gpus other)).

Definition Resources_saturating_sub (self other : Resources) : Resources :=
  MkResources (sat_sub (cpu_millis self) (cpu_millis other))
              (sat_sub (mem_bytes self) (mem_bytes other))
              (sat_sub (gpus self) (gpus other)).

(** *** "Fits" as a relation *)

(** The componentwise order that [fits_within] decides. *)
Definition Resources_le (a b : Resources) : Prop :=
  cpu_millis a <= cpu_millis b ∧ mem_bytes a <= mem_bytes b ∧ gpus a <= gpus b.

Lemma fits_within_spec a b : fits_within a b = true ↔ Resources_le a b.
Proof. unfold fits_within, Resources_le. rewrite !andb_true_iff, !Z.leb_le. tauto. Qed.

Lemma fits_within_false a b : fits_within a b = false ↔ ¬ Resources_le a b.
Proof. rewrite <-fits_within_spec. by destruct (fits_within a b). Qed.

#[export] Instance Resources_le_dec a b : Decision (Resources_le a b).
Proof. unfold Resources_le. apply _. Defined.

#[export] Instance Resources_le_partial_order : PartialOrder Resources_le.
Proof.
  unfold Resources_le. split; [split|].
  - intros []; simpl; lia.
  - intros [] [] []; simpl; lia.
  - intros [] [] (?&?&?) (?&?&?); simpl in *; f_equal; lia.
Qed.

(** Exact (unbounded) componentwise sum: the specification the saturating and
    checked operations are compared with. *)
Definition Resources_plus (a b : Resources) : Resources :=
  MkResources (cpu_millis a + cpu_millis b) (mem_bytes a + mem_bytes b) (gpus a + gpus b).

(** Destructs every resource vector in sight and leaves integer goals. *)
Ltac res_crush :=
  unfold Resources_wf, Resources_le, Resources_plus, Resources_saturating_add,
    Resources_saturating_sub, Resources_ZERO, sat_add, sat_sub, is_u8, is_u32, is_u64 in *;
  repeat match goal with r : Resources |- _ => destruct r end;
  simpl in *;
  repeat match goal with H : _ ∧ _ |- _ => destruct H end;
  repeat match goal with H : MkResources _ _ _ = MkResources _ _ _ |- _ =>
    injection H as ? ? ?; subst end;
  repeat split; try f_equal; try lia.

Lemma Resources_ZERO_wf : Resources_wf Resources_ZERO.
Proof. res_crush. Qed.

Lemma Resources_checked_add_Some a b c :
  Resources_checked_add a b = Some c ↔
  c = Resources_plus a b ∧
  cpu_millis c <= u32_max ∧ mem_bytes c <= u64_max ∧ gpus c <= u8_max.
Proof.
  unfold Resources_checked_add, checked_add, Resources_plus.
  repeat case_match; bool_prop; simplify_eq; simpl; split; intros H;
    repeat match goal with H : _ ∧ _ |- _ => destruct H end;
    simplify_eq; simpl in *; naive_solver lia.
Qed.

Lemma Resources_saturating_add_wf a b :
  Resources_wf a → Resources_wf b → Resources_wf (Resources_saturating_add a b).
Proof. res_crush. Qed.

Lemma Resources_saturating_sub_wf a b :
  Resources_wf a → Resources_wf b → Resources_wf (Resources_saturating_sub a b).
Proof. res_crush. Qed.

(** A request that is itself representable fits a saturated sum exactly when
    it fits the exact sum: saturation never changes a placement decision. *)
Lemma fits_saturating_add r a b :
  Resources_wf r →
  Resources_le r (Resources_saturating_add a b) ↔ Resources_le r (Resources_plus a b).
Proof. split; res_crush. Qed.

Lemma Resources_saturating_sub_exact a b :
  Resources_le b a → Resources_plus (Resources_saturating_sub a b) b = a.
Proof. intros. res_crush. Qed.

#[export] Hint Resolve Resources_ZERO_wf Resources_saturating_add_wf
  Resources_saturating_sub_wf time_saturating_add_u64 : rt.
