(* ===== verification/Arena.v ===== *)
(** * The generational arena

    [crates/tasker-core/src/domain/arena.rs]: packed job handles, slot storage
    with an intrusive free list, snapshots and restore.  The arena is shown to
    refine a finite map keyed by handle, to hand out stale-proof handles, and
    to survive a snapshot/restore round trip unchanged. *)

From stdpp Require Import base list numbers option gmap.
From Stdlib Require Import ZArith Lia.
From S2P Require Import Prelude.
Open Scope Z_scope.

(** ** Handles *)

(** A handle is a packed [u64]: 32-bit index low, 32-bit generation high. *)
Abbreviation JobId := Z (only parsing).

Definition INDEX_BITS : Z := 32.
Definition INDEX_MASK : Z := Z.shiftl 1 INDEX_BITS - 1.

Definition JobId_new (index generation : Z) : JobId :=
  Z.lor (Z.shiftl generation INDEX_BITS) index.

Definition JobId_index (id : JobId) : Z := Z.land id INDEX_MASK.

(** The shifted [u64] is already below [2^32], so the cast to [u32] keeps it. *)
Definition JobId_generation (id : JobId) : Z := Z.shiftr id INDEX_BITS.

(** ** Storage *)

Module Slot.
Inductive Slot (T : Type) : Type :=
| Occupied (generation : Z) (value : T)
| Vacant (generation : Z) (next_free : option Z).
Arguments Occupied {T} generation value.
Arguments Vacant {T} generation next_free.
End Slot.

Module SlotState.
Inductive SlotState (T : Type) : Type :=
| Occupied (generation : Z) (value : T)
| Vacant (generation : Z) (next_free : option Z).
Arguments Occupied {T} generation value.
Arguments Vacant {T} generation next_free.
End SlotState.

Abbreviation Slot := Slot.Slot.
Abbreviation SlotState := SlotState.SlotState.

Module ArenaRestoreError.
Inductive ArenaRestoreError : Type :=
| BadFreeLink (index : Z)
| FreeListIncomplete (reachable vacant : nat).
End ArenaRestoreError.
Abbreviation ArenaRestoreError := ArenaRestoreError.ArenaRestoreError.

Record Arena (T : Type) : Type := MkArena {
  slots : list (Slot T);
  free_head : option Z;
  arena_len : Z;
}.
Arguments MkArena {T} slots free_head arena_len.
Arguments slots {T} a : rename.
Arguments free_head {T} a : rename.
Arguments arena_len {T} a : rename.

Section Operations.
Context {T : Type}.

Definition Arena_new : Arena T := MkArena [] None 0.

(** [next_id]: the handle the next [insert] will return. *)
Definition Arena_next_id (a : Arena T) : exec JobId :=
  match free_head a with
  | Some index =>
      let! slot := vec_at (slots a) index in
      match slot with
      | Slot.Vacant generation _ => Done (JobId_new index generation)
      | Slot.Occupied _ _ => Panic
      end
  | None =>
      let! index := u32_from_usize (length (slots a)) in
      Done (JobId_new index 0)
  end.

Definition Arena_insert (a : Arena T) (value : T) : exec (Arena T * JobId) :=
  let len := arena_len a + 1 in
  match free_head a with
  | Some index =>
      let! slot := vec_at (slots a) index in
      match slot with
      | Slot.Vacant generation next_free =>
          let! slots' := vec_put (slots a) index (Slot.Occupied generation value) in
          Done (MkArena slots' next_free len, JobId_new index generation)
      | Slot.Occupied _ _ => Panic
      end
  | None =>
      let! index := u32_from_usize (length (slots a)) in
      Done (MkArena (slots a ++ [Slot.Occupied 0 value]) None len, JobId_new index 0)
  end.

Definition Arena_get (a : Arena T) (id : JobId) : option T :=
  match vec_get (slots a) (JobId_index id) with
  | Some (Slot.Occupied generation value) =>
      if generation =? JobId_generation id then Some value else None
  | _ => None
  end.

(** [get_mut] followed by a write of the whole value through the reference;
    nothing happens when the handle is stale. *)
Definition Arena_set (a : Arena T) (id : JobId) (value : T) : Arena T :=
  match vec_get (slots a) (JobId_index id) with
  | Some (Slot.Occupied generation _) =>
      if generation =? JobId_generation id then
        MkArena (<[Z.to_nat (JobId_index id) := Slot.Occupied generation value]> (slots a))
                (free_head a) (arena_len a)
      else a
  | _ => a
  end.

Definition Arena_contains (a : Arena T) (id : JobId) : bool :=
  match Arena_get a id with Some _ => true | None => false end.

(** [remove]: the slot's generation is bumped with [wrapping_add]. *)
Definition Arena_remove (a : Arena T) (id : JobId) : Arena T * option T :=
  let index := JobId_index id in
  match vec_get (slots a) index with
  | Some (Slot.Occupied generation value) =>
      if negb (generation =? JobId_generation id) then (a, None)
      else
        let next_generation := wrap32 (generation + 1) in
        (MkArena (<[Z.to_nat index := Slot.Vacant next_generation (free_head a)]> (slots a))
                 (Some index) (arena_len a - 1),
         Some value)
  | _ => (a, None)
  end.

Definition slot_entry (index : nat) (s : Slot T) : option (JobId * T) :=
  match s with
  | Slot.Occupied generation value => Some (JobId_new (Z.of_nat index) generation, value)
  | Slot.Vacant _ _ => None
  end.

(** [iter]: live entries in slot order. *)
Definition Arena_iter (a : Arena T) : list (JobId * T) :=
  omap id (imap slot_entry (slots a)).

Definition slot_to_state (s : Slot T) : SlotState T :=
  match s with
  | Slot.Occupied generation value => SlotState.Occupied generation value
  | Slot.Vacant generation next_free => SlotState.Vacant generation next_free
  end.

Definition state_to_slot (s : SlotState T) : Slot T :=
  match s with
  | SlotState.Occupied generation value => Slot.Occupied generation value
  | SlotState.Vacant generation next_free => Slot.Vacant generation next_free
  end.

(** [slots]: every slot as a snapshot sees it. *)
Definition Arena_slots (a : Arena T) : list (SlotState T) := map slot_to_state (slots a).

Definition is_vacant (s : SlotState T) : bool :=
  match s with SlotState.Vacant _ _ => true | SlotState.Occupied _ _ => false end.

(** The free-list walk of [from_parts]. *)
Fixpoint walk_free_list (fuel : nat) (slots : list (SlotState T)) (vacant : nat)
    (cursor : option Z) (reachable : nat) : exec (result nat ArenaRestoreError) :=
  match cursor with
  | None => Done (Ok reachable)
  | Some index =>
      match fuel with
      | O => NoFuel
      | S fuel' =>
          match vec_get slots index with
          | Some (SlotState.Vacant _ next_free) =>
              if (reachable <? vacant)%nat
              then walk_free_list fuel' slots vacant next_free (S reachable)
              else Done (Err (ArenaRestoreError.BadFreeLink index))
          | _ => Done (Err (ArenaRestoreError.BadFreeLink index))
          end
      end
  end.

Definition Arena_from_parts (slots : list (SlotState T)) (free_head : option Z)
  : exec (result (Arena T) ArenaRestoreError) :=
  let vacant := length (List.filter is_vacant slots) in
  let! walked := walk_free_list (S vacant) slots vacant free_head 0 in
  match walked with
  | Err e => Done (Err e)
  | Ok reachable =>
      if negb (reachable =? vacant)%nat
      then Done (Err (ArenaRestoreError.FreeListIncomplete reachable vacant))
      else
        let len := Z.of_nat (length slots - vacant) in
        Done (Ok (MkArena (map state_to_slot slots) free_head len))
  end.

End Operations.

(** ** Handle arithmetic *)

Lemma INDEX_MASK_ones : INDEX_MASK = Z.ones 32.
Proof. reflexivity. Qed.

Lemma JobId_index_range id : 0 <= JobId_index id <= u32_max.
Proof.
  unfold JobId_index. rewrite INDEX_MASK_ones, Z.land_ones by lia.
  pose proof (Z.mod_pos_bound id (2 ^ 32)). lia.
Qed.

Lemma JobId_new_arith i g : 0 <= i <= u32_max → JobId_new i g = g * 4294967296 + i.
Proof.
  intros Hi. unfold JobId_new, INDEX_BITS.
  change 4294967296 with (2 ^ 32).
  rewrite <-(Z.shiftl_mul_pow2 g 32), <-Z.add_lor_land by lia.
  enough (Z.land (Z.shiftl g 32) i = 0) by lia.
  apply Z.bits_inj'. intros n Hn. rewrite Z.land_spec, Z.bits_0.
  destruct (decide (n < 32)).
  - by rewrite Z.shiftl_spec_low.
  - rewrite (Z.bits_above_log2 i n), andb_false_r; [done|lia|].
    destruct (decide (i = 0)) as [->|]; [simpl; lia|].
    apply Z.log2_lt_pow2; [lia|]. apply Z.lt_le_trans with (2 ^ 32); [lia|].
    apply Z.pow_le_mono_r; lia.
Qed.

Lemma JobId_index_arith id : JobId_index id = id mod 4294967296.
Proof. unfold JobId_index. by rewrite INDEX_MASK_ones, Z.land_ones by lia. Qed.

Lemma JobId_generation_arith id : JobId_generation id = id / 4294967296.
Proof. unfold JobId_generation, INDEX_BITS. by rewrite Z.shiftr_div_pow2 by lia. Qed.

Lemma JobId_index_new i g : 0 <= i <= u32_max → JobId_index (JobId_new i g) = i.
Proof. intros. rewrite JobId_index_arith, JobId_new_arith by done. zdiv. Qed.

Lemma JobId_generation_new i g : 0 <= i <= u32_max → JobId_generation (JobId_new i g) = g.
Proof. intros. rewrite JobId_generation_arith, JobId_new_arith by done. zdiv. Qed.

Lemma JobId_new_eta id : JobId_new (JobId_index id) (JobId_generation id) = id.
Proof.
  rewrite JobId_new_arith by apply JobId_index_range.
  rewrite JobId_index_arith, JobId_generation_arith. zdiv.
Qed.

Lemma JobId_ext id id' :
  JobId_index id = JobId_index id' → JobId_generation id = JobId_generation id' → id = id'.
Proof. intros E1 E2. by rewrite <-(JobId_new_eta id), <-(JobId_new_eta id'), E1, E2. Qed.

Lemma JobId_new_u64 i g : is_u32 i → is_u32 g → is_u64 (JobId_new i g).
Proof. unfold is_u32, is_u64. intros. rewrite JobId_new_arith by done. lia. Qed.

(** ** The arena invariant *)

Section Invariant.
Context {T : Type}.
Implicit Types (a : Arena T) (ss : list (Slot T)).

Definition slot_generation (s : Slot T) : Z :=
  match s with Slot.Occupied g _ | Slot.Vacant g _ => g end.

Definition is_occupied (s : Slot T) : bool :=
  match s with Slot.Occupied _ _ => true | Slot.Vacant _ _ => false end.

(** [free_chain ss h l]: following the links from [h] visits exactly [l]. *)
Inductive free_chain ss : option Z → list Z → Prop :=
| free_chain_nil : free_chain ss None []
| free_chain_cons i g nx l :
    vec_get ss i = Some (Slot.Vacant g nx) →
    free_chain ss nx l →
    free_chain ss (Some i) (i :: l).

(** The free list is exactly the vacant slots, once each; [len] counts the
    live ones; indices and generations fit [u32]. *)
Record Arena_wf a : Prop := {
  wf_free : ∃ fl, free_chain (slots a) (free_head a) fl ∧ NoDup fl ∧
    ∀ i g nx, vec_get (slots a) i = Some (Slot.Vacant g nx) → i ∈ fl;
  wf_len : arena_len a = Z.of_nat (count_if is_occupied (slots a));
  wf_bound : Z.of_nat (length (slots a)) <= u32_max + 1;
  wf_gens : ∀ i s, vec_get (slots a) i = Some s → is_u32 (slot_generation s);
}.

Lemma free_chain_vacant ss h l i :
  free_chain ss h l → i ∈ l → ∃ g nx, vec_get ss i = Some (Slot.Vacant g nx).
Proof. induction 1; [by intros ?%elem_of_nil|]. intros [->|]%elem_of_cons; eauto. Qed.

Lemma free_chain_insert ss h l i s :
  0 <= i < Z.of_nat (length ss) → i ∉ l →
  free_chain ss h l → free_chain (<[Z.to_nat i := s]> ss) h l.
Proof.
  intros Hr Hi Hc. induction Hc as [|j g nx l Hj Hc IH]; [constructor|].
  apply not_elem_of_cons in Hi as [? ?]. econstructor; [|by apply IH].
  rewrite vec_get_insert by done. rewrite decide_False by done. exact Hj.
Qed.

Lemma free_chain_det ss h l l' : free_chain ss h l → free_chain ss h l' → l = l'.
Proof.
  intros H. revert l'. induction H; intros l' H'; inversion H'; simplify_eq; [done|].
  f_equal. naive_solver.
Qed.

Lemma free_chain_suffix ss h l1 i l2 :
  free_chain ss h (l1 ++ i :: l2) → free_chain ss (Some i) (i :: l2).
Proof.
  revert h. induction l1 as [|j l1 IH]; intros h H; simpl in *.
  - inversion H; subst. exact H.
  - inversion H; subst. eauto.
Qed.

(** A chain that ends cannot revisit a slot. *)
Lemma free_chain_NoDup ss h l : free_chain ss h l → NoDup l.
Proof.
  intros Hc. induction Hc as [|i g nx l Hi Hc IH]; [constructor|]. constructor; [|done].
  intros (l1 & l2 & ->)%list_elem_of_split.
  assert (free_chain ss (Some i) (i :: l1 ++ i :: l2)) as H1 by by econstructor.
  pose proof (free_chain_suffix ss _ (i :: l1) i l2 H1) as H2.
  pose proof (free_chain_det _ _ _ _ H1 H2) as E.
  apply (f_equal length) in E. simpl in E. rewrite length_app in E. simpl in E. lia.
Qed.

Lemma Arena_wf_new : Arena_wf (@Arena_new T).
Proof.
  split; simpl; [|done|lia|].
  - exists []. split; [constructor|]. split; [constructor|].
    intros i g nx ?%vec_get_range. simpl in *. lia.
  - intros i s ?%vec_get_range. simpl in *. lia.
Qed.

(** ** Lookup after each operation *)

Lemma Arena_get_Some a id v :
  Arena_get a id = Some v ↔
  vec_get (slots a) (JobId_index id) = Some (Slot.Occupied (JobId_generation id) v).
Proof.
  unfold Arena_get. destruct (vec_get _ _) as [[g w|g nx]|]; [|naive_solver..].
  destruct (Z.eqb_spec g (JobId_generation id)); naive_solver.
Qed.

(** Two arenas whose slots agree at [id]'s index agree on [id]. *)
Lemma Arena_get_ext a a' id :
  vec_get (slots a) (JobId_index id) = vec_get (slots a') (JobId_index id) →
  Arena_get a id = Arena_get a' id.
Proof. unfold Arena_get. by intros ->. Qed.

Lemma Arena_get_u64 a id v : Arena_wf a → Arena_get a id = Some v → is_u64 id.
Proof.
  intros Hwf H%Arena_get_Some. apply (wf_gens _ Hwf) in H. simpl in H.
  rewrite <-(JobId_new_eta id). apply JobId_new_u64; [apply JobId_index_range|done].
Qed.

(** Occupying a slot that held no live value adds exactly one handle. *)
Lemma Arena_get_occupy a a' i g v :
  0 <= i <= u32_max →
  (∀ j, vec_get (slots a') j =
        if decide (i = j) then Some (Slot.Occupied g v) else vec_get (slots a) j) →
  (∀ g' w, vec_get (slots a) i ≠ Some (Slot.Occupied g' w)) →
  Arena_get a (JobId_new i g) = None ∧
  ∀ id', Arena_get a' id' = if decide (JobId_new i g = id') then Some v else Arena_get a id'.
Proof.
  intros Hi Hs Hv. split.
  { destruct (Arena_get a _) as [w|] eqn:E; [|done].
    apply Arena_get_Some in E. rewrite JobId_index_new in E by done. naive_solver. }
  intros id'. unfold Arena_get at 1. rewrite Hs.
  destruct (decide (JobId_new i g = id')) as [<-|Hne].
  - rewrite JobId_index_new, JobId_generation_new, decide_True, Z.eqb_refl by done. done.
  - case_decide as Ei; [|done]. subst i. case (Z.eqb_spec g (JobId_generation id')) as [->|].
    { by rewrite JobId_new_eta in Hne. }
    destruct (Arena_get a id') as [w|] eqn:E; [|done]. apply Arena_get_Some in E. naive_solver.
Qed.

(** The two branches of [insert] preserve the invariant. *)
Lemma Arena_wf_reuse a i g nx v fl :
  Arena_wf a → free_head a = Some i → vec_get (slots a) i = Some (Slot.Vacant g nx) →
  free_chain (slots a) nx fl →
  Arena_wf (MkArena (<[Z.to_nat i := Slot.Occupied g v]> (slots a)) nx (arena_len a + 1)).
Proof.
  intros [(fl' & Hc & Hnd & Hall) Hlen Hb Hg] Eh Hi Hc'.
  rewrite Eh in Hc. pose proof (free_chain_cons _ _ _ _ _ Hi Hc') as Hc2.
  pose proof (free_chain_det _ _ _ _ Hc Hc2) as ->. apply NoDup_cons in Hnd as [Hnl Hnd].
  pose proof (vec_get_range _ _ _ Hi) as Hr. split; simpl.
  - exists fl. split; [by apply free_chain_insert|]. split; [done|].
    intros j g' nx'. rewrite vec_get_insert by done. case_decide; [done|].
    intros Hj%Hall. apply elem_of_cons in Hj. naive_solver.
  - apply vec_get_Some in Hi as [? Hi].
    pose proof (count_if_insert is_occupied _ _ (Slot.Occupied g v) _ Hi). simpl in *. lia.
  - by rewrite length_insert.
  - intros j s. rewrite vec_get_insert by done. case_decide; [|by apply Hg].
    intros [= <-]. apply (Hg _ _ Hi).
Qed.

Lemma Arena_wf_push a v :
  Arena_wf a → free_head a = None → Z.of_nat (length (slots a)) <= u32_max →
  Arena_wf (MkArena (slots a ++ [Slot.Occupied 0 v]) None (arena_len a + 1)).
Proof.
  intros [(fl & Hc & Hnd & Hall) Hlen Hb Hg] Eh Hroom.
  rewrite Eh in Hc. inversion Hc; subst. split; simpl.
  - exists []. split; [constructor|]. split; [constructor|].
    intros j g nx. rewrite vec_get_snoc. case_decide; [done|]. apply Hall.
  - rewrite count_if_app. unfold count_if at 2. simpl. lia.
  - rewrite length_app. simpl. lia.
  - intros j s. rewrite vec_get_snoc. case_decide; [|by apply Hg].
    intros [= <-]. unfold is_u32. simpl. lia.
Qed.

(** There is room for one more job: a vacant slot, or fewer than [2^32]. *)
Definition Arena_has_room a : Prop :=
  free_head a ≠ None ∨ Z.of_nat (length (slots a)) <= u32_max.

Lemma Arena_insert_spec a v :
  Arena_wf a → Arena_has_room a →
  ∃ a' id, Arena_insert a v = Done (a', id) ∧ Arena_next_id a = Done id ∧
    Arena_wf a' ∧ Arena_get a id = None ∧
    ∀ id', Arena_get a' id' = if decide (id = id') then Some v else Arena_get a id'.
Proof.
  intros Hwf Hroom. unfold Arena_insert, Arena_next_id.
  destruct (free_head a) as [i|] eqn:Eh.
  - destruct (wf_free _ Hwf) as (fl & Hc & _). rewrite Eh in Hc.
    inversion Hc as [|i' g nx l Hi Hc']; subst. pose proof (vec_get_range _ _ _ Hi) as Hr.
    pose proof (wf_bound _ Hwf).
    rewrite (vec_at_Done _ _ _ Hi). simpl. rewrite (vec_put_Done _ _ _ Hr). simpl.
    eexists _, _. do 2 (split; [done|]). split; [by eapply Arena_wf_reuse|].
    apply Arena_get_occupy; simpl; [lia| |naive_solver].
    intros j. by rewrite vec_get_insert.
  - destruct Hroom as [|Hroom]; [congruence|].
    rewrite (u32_from_usize_Done _ Hroom). simpl.
    eexists _, _. do 2 (split; [done|]). split; [by apply Arena_wf_push|].
    apply Arena_get_occupy; simpl; [lia| |].
    + intros j. rewrite vec_get_snoc. repeat case_decide; congruence.
    + intros g' w ?%vec_get_range. lia.
Qed.

Lemma Arena_set_get a id v w id' :
  Arena_get a id = Some w →
  Arena_get (Arena_set a id v) id' = if decide (id = id') then Some v else Arena_get a id'.
Proof.
  intros Hid. pose proof Hid as Hs%Arena_get_Some. unfold Arena_set. rewrite Hs, Z.eqb_refl.
  unfold Arena_get at 1. simpl. rewrite vec_get_insert by by eapply vec_get_range.
  destruct (decide (id = id')) as [<-|Hne]; [by rewrite decide_True, Z.eqb_refl|].
  case_decide as Ei; [|done].
  case (Z.eqb_spec (JobId_generation id) (JobId_generation id')) as [E|E].
  { by destruct (Hne (JobId_ext _ _ Ei E)). }
  destruct (Arena_get a id') as [u|] eqn:E'; [|done].
  apply Arena_get_Some in E'. rewrite <-Ei in E'. congruence.
Qed.

Lemma Arena_set_stale a id v : Arena_get a id = None → Arena_set a id v = a.
Proof.
  unfold Arena_get, Arena_set. destruct (vec_get _ _) as [[g w|g nx]|]; [|done..].
  by destruct (g =? _).
Qed.

Lemma Arena_set_wf a id v : Arena_wf a → Arena_wf (Arena_set a id v).
Proof.
  intros Hwf. unfold Arena_set.
  destruct (vec_get _ _) as [[g w|g nx]|] eqn:E; [|done..].
  destruct (g =? _); [|done]. destruct Hwf as [(fl & Hc & Hnd & Hall) Hlen Hb Hg].
  pose proof (vec_get_range _ _ _ E) as Hr. split; simpl.
  - exists fl. split; [|split; [done|]].
    + apply free_chain_insert; [done| |done]. intros (g' & nx & ?)%(free_chain_vacant _ _ _ _ Hc).
      congruence.
    + intros j g' nx. rewrite vec_get_insert by done. case_decide; [done|]. apply Hall.
  - apply vec_get_Some in E as [? E].
    pose proof (count_if_insert is_occupied _ _ (Slot.Occupied g v) _ E). simpl in *. lia.
  - by rewrite length_insert.
  - intros j s. rewrite vec_get_insert by done. case_decide; [|by apply Hg].
    intros [= <-]. apply (Hg _ _ E).
Qed.

Lemma Arena_wf_vacate a i g v :
  Arena_wf a → vec_get (slots a) i = Some (Slot.Occupied g v) →
  Arena_wf (MkArena (<[Z.to_nat i := Slot.Vacant (wrap32 (g + 1)) (free_head a)]> (slots a))
                    (Some i) (arena_len a - 1)).
Proof.
  intros [(fl & Hc & Hnd & Hall) Hlen Hb Hg] Hs. pose proof (vec_get_range _ _ _ Hs) as Hr.
  assert (i ∉ fl) as Hni.
  { intros (g' & nx & ?)%(free_chain_vacant _ _ _ _ Hc). congruence. }
  split; simpl.
  - exists (i :: fl). split; [|split; [by constructor|]].
    { econstructor; [by rewrite vec_get_insert, decide_True|by apply free_chain_insert]. }
    intros j g' nx. rewrite vec_get_insert by done. case_decide; [subst; left|].
    intros ?%Hall. by right.
  - apply vec_get_Some in Hs as [? Hs].
    pose proof (count_if_insert is_occupied _ _ (Slot.Vacant (wrap32 (g + 1)) (free_head a)) _ Hs).
    simpl in *. lia.
  - by rewrite length_insert.
  - intros j s. rewrite vec_get_insert by done. case_decide; [|by apply Hg].
    intros [= <-]. unfold is_u32, wrap32. simpl. zdiv.
Qed.

(** [remove] on a live handle and on a stale one. *)
Lemma Arena_remove_live a id v :
  Arena_get a id = Some v →
  Arena_remove a id =
    (MkArena (<[Z.to_nat (JobId_index id) :=
                Slot.Vacant (wrap32 (JobId_generation id + 1)) (free_head a)]> (slots a))
             (Some (JobId_index id)) (arena_len a - 1), Some v).
Proof. intros H%Arena_get_Some. unfold Arena_remove. by rewrite H, Z.eqb_refl. Qed.

Lemma Arena_remove_stale a id : Arena_get a id = None → Arena_remove a id = (a, None).
Proof.
  unfold Arena_get, Arena_remove. destruct (vec_get _ _) as [[g w|g nx]|]; [|done..].
  by destruct (g =? _).
Qed.

Lemma Arena_remove_spec a id :
  Arena_wf a →
  (Arena_remove a id).2 = Arena_get a id ∧ Arena_wf (Arena_remove a id).1 ∧
  ∀ id', Arena_get (Arena_remove a id).1 id' =
         if decide (id = id') then None else Arena_get a id'.
Proof.
  intros Hwf. destruct (Arena_get a id) as [w|] eqn:Eg.
  - rewrite (Arena_remove_live _ _ _ Eg). pose proof Eg as Hs%Arena_get_Some. simpl.
    pose proof (vec_get_range _ _ _ Hs) as Hr.
    split; [done|]. split; [by eapply Arena_wf_vacate|].
    intros id'. unfold Arena_get at 1. simpl. rewrite vec_get_insert by done.
    case_decide as Ei; [|rewrite decide_False by congruence; done].
    destruct (decide (id = id')) as [|Hne]; [done|].
    destruct (Arena_get a id') as [u|] eqn:E'; [|done].
    apply Arena_get_Some in E'. rewrite <-Ei in E'.
    destruct Hne. apply JobId_ext; congruence.
  - rewrite (Arena_remove_stale _ _ Eg). simpl. split; [done|]. split; [done|].
    intros id'. case_decide; congruence.
Qed.

(** ** The arena as a finite map *)

(** The abstract state: live values by handle. *)
Definition Arena_map a : gmap Z T := list_to_map (Arena_iter a).

Lemma Arena_iter_elem a id v :
  Arena_wf a → (id, v) ∈ Arena_iter a ↔ Arena_get a id = Some v.
Proof.
  intros Hwf. pose proof (wf_bound _ Hwf) as Hb. unfold Arena_iter.
  rewrite list_elem_of_omap, Arena_get_Some. split.
  - intros (o & Ho & E). simpl in E. subst o. apply elem_of_lookup_imap in Ho as (i & s & E & Hi).
    destruct s as [g w|]; simplify_eq/=. pose proof (lookup_lt_Some _ _ _ Hi).
    rewrite JobId_index_new, JobId_generation_new by lia.
    apply vec_get_Some. split; [lia|]. by rewrite Nat2Z.id.
  - intros [Hi E]%vec_get_Some. eexists. split; [|done].
    apply elem_of_lookup_imap. eexists _, _. split; [|exact E].
    simpl. by rewrite Z2Nat.id, JobId_new_eta by lia.
Qed.

Lemma Arena_map_lookup a id : Arena_wf a → Arena_map a !! id = Arena_get a id.
Proof.
  intros Hwf. apply option_eq. intros v. unfold Arena_map.
  rewrite <-elem_of_list_to_map', Arena_iter_elem; [done..|].
  intros y. rewrite !Arena_iter_elem by done. congruence.
Qed.

Lemma slot_entries_NoDup ss k :
  Z.of_nat k + Z.of_nat (length ss) <= u32_max + 1 →
  NoDup (omap id (imap (fun i => slot_entry (k + i)) ss)).*1 ∧
  (∀ x, x ∈ (omap id (imap (fun i => slot_entry (k + i)) ss)).*1 → Z.of_nat k <= JobId_index x).
Proof.
  revert k. induction ss as [|s ss IH]; intros k Hk; simpl in *.
  { split; [constructor|]. by intros x ?%elem_of_nil. }
  destruct (IH (S k)) as [IH1 IH2]; [lia|].
  replace (imap ((fun i => slot_entry (k + i)) ∘ S) ss)
    with (imap (fun i => slot_entry (S k + i)) ss)
    by (apply imap_ext; intros; simpl; by rewrite Nat.add_succ_r).
  rewrite Nat.add_0_r. destruct s as [g v|g nx]; simpl.
  - split.
    + constructor; [|done]. intros H%IH2. rewrite JobId_index_new in H by lia. lia.
    + intros x [->|H%IH2]%elem_of_cons; [rewrite JobId_index_new|]; lia.
  - split; [done|]. intros x H%IH2. lia.
Qed.

Lemma Arena_iter_length a : length (Arena_iter a) = count_if is_occupied (slots a).
Proof.
  unfold Arena_iter, count_if. generalize 0%nat as k.
  assert (∀ ss k, length (omap id (imap (fun i => slot_entry (k + i)) ss))
                  = length (List.filter is_occupied ss)) as H.
  { induction ss as [|s ss IH]; intros k; [done|]. simpl. rewrite Nat.add_0_r.
    replace (imap ((fun i => slot_entry (k + i)) ∘ S) ss)
      with (imap (fun i => slot_entry (S k + i)) ss)
      by (apply imap_ext; intros; simpl; by rewrite Nat.add_succ_r).
    destruct s; simpl; [f_equal|]; apply (IH (S k)). }
  intros _. apply (H (slots a) 0%nat).
Qed.

Lemma Arena_map_size a : Arena_wf a → Z.of_nat (size (Arena_map a)) = arena_len a.
Proof.
  intros Hwf. rewrite (wf_len _ Hwf), <-Arena_iter_length. unfold Arena_map.
  rewrite map_size_list_to_map; [done|].
  apply (slot_entries_NoDup (slots a) 0). pose proof (wf_bound _ Hwf). lia.
Qed.

(** ** Restoring an arena from its parts *)

Lemma walk_free_list_chain (ss : list (SlotState T)) fuel vacant cursor l reachable :
  free_chain (map state_to_slot ss) cursor l →
  (reachable + length l <= vacant)%nat → (length l <= fuel)%nat →
  walk_free_list fuel ss vacant cursor reachable = Done (Ok (reachable + length l)%nat).
Proof.
  intros Hc. revert fuel reachable. induction Hc as [|i g nx l Hi Hc IH]; intros fuel r Hr Hf.
  - rewrite Nat.add_0_r. by destruct fuel.
  - simpl in *. destruct fuel as [|fuel]; [lia|]. simpl.
    rewrite vec_get_map in Hi. destruct (vec_get ss i) as [[|g' nx']|]; simplify_eq/=.
    destruct (Nat.ltb_spec r vacant); [|lia]. rewrite IH by lia. do 2 f_equal. lia.
Qed.

Lemma walk_free_list_Ok (ss : list (SlotState T)) fuel vacant cursor reachable n :
  walk_free_list fuel ss vacant cursor reachable = Done (Ok n) →
  ∃ l, free_chain (map state_to_slot ss) cursor l ∧ n = (reachable + length l)%nat.
Proof.
  revert cursor reachable. induction fuel as [|fuel IH]; intros [i|] r H; simpl in H; simplify_eq.
  - exists []. split; [constructor|simpl; lia].
  - destruct (vec_get ss i) as [[|g nx]|] eqn:Ei; simplify_eq.
    destruct (r <? vacant)%nat; [|done]. apply IH in H as (l & Hc & ->).
    exists (i :: l). split; [|simpl; lia].
    econstructor; [|done]. by rewrite vec_get_map, Ei.
  - exists []. split; [constructor|simpl; lia].
Qed.

(** The walk stops within one step more than the vacant slots, whatever the
    links say: a cyclic or dangling list is an error, never a hang. *)
Lemma walk_free_list_total (ss : list (SlotState T)) fuel vacant cursor reachable :
  (reachable <= vacant)%nat → (vacant - reachable < fuel)%nat →
  ∃ r, walk_free_list fuel ss vacant cursor reachable = Done r.
Proof.
  revert cursor reachable. induction fuel as [|fuel IH]; intros [i|] r Hr Hf; simpl; eauto; [lia|].
  destruct (vec_get ss i) as [[|g nx]|]; eauto.
  destruct (Nat.ltb_spec r vacant); eauto. apply IH; lia.
Qed.

Lemma state_to_slot_to_state ss : map state_to_slot (map slot_to_state ss) = ss.
Proof. rewrite map_map. etrans; [|apply map_id]. apply map_ext. by intros []. Qed.

Definition slot_vacant (s : Slot T) : bool := negb (is_occupied s).

Lemma count_vacant_states (ss : list (SlotState T)) :
  count_if slot_vacant (map state_to_slot ss) = length (List.filter is_vacant ss).
Proof. unfold count_if. induction ss as [|[] ss IH]; simpl; by rewrite ?IH. Qed.

Lemma count_occupied_vacant ss :
  (count_if is_occupied ss + count_if slot_vacant ss = length ss)%nat.
Proof. unfold count_if. induction ss as [|[] ss IH]; simpl; lia. Qed.

(** In a chain, every entry is vacant, so it has at most as many entries as
    there are vacant slots, and as many exactly when it reaches them all. *)
Lemma free_chain_length ss h l :
  free_chain ss h l →
  (length l <= count_if slot_vacant ss)%nat ∧
  (length l = count_if slot_vacant ss ↔
   ∀ i g nx, vec_get ss i = Some (Slot.Vacant g nx) → i ∈ l).
Proof.
  intros Hc. pose proof (free_chain_NoDup _ _ _ Hc) as Hnd.
  assert (l ⊆+ indices_if slot_vacant 0 ss) as Hsub.
  { apply NoDup_submseteq; [done|]. intros i (g & nx & Hi)%(free_chain_vacant _ _ _ _ Hc).
    apply elem_of_indices_if. rewrite Z.sub_0_r. eauto. }
  rewrite <-(length_indices_if slot_vacant 0 ss).
  split; [by apply submseteq_length|]. split.
  - intros Hl i g nx Hi.
    apply submseteq_length_Permutation in Hsub as ->; [|lia].
    apply elem_of_indices_if. rewrite Z.sub_0_r. eauto.
  - intros Hall. apply Nat.le_antisymm; [by apply submseteq_length|].
    apply submseteq_length, NoDup_submseteq; [apply NoDup_indices_if|].
    intros i ([|g nx] & Hi & Hv)%elem_of_indices_if; [done|].
    rewrite Z.sub_0_r in Hi. eauto.
Qed.

Lemma Arena_from_parts_slots a :
  Arena_wf a → Arena_from_parts (Arena_slots a) (free_head a) = Done (Ok a).
Proof.
  intros Hwf. destruct (wf_free _ Hwf) as (fl & Hc & Hnd & Hall).
  unfold Arena_from_parts, Arena_slots.
  pose proof (proj2 (proj2 (free_chain_length _ _ _ Hc)) Hall) as Hl.
  rewrite <-count_vacant_states, state_to_slot_to_state.
  rewrite (walk_free_list_chain _ _ _ _ fl); [|by rewrite state_to_slot_to_state|lia..].
  simpl. rewrite Hl, Nat.eqb_refl. simpl. rewrite List.length_map.
  pose proof (count_occupied_vacant (slots a)).
  destruct a as [ss h n]. pose proof (wf_len _ Hwf) as Hn. simpl in *. do 3 f_equal. lia.
Qed.

Lemma Arena_from_parts_wf (ss : list (SlotState T)) h a :
  Z.of_nat (length ss) <= u32_max + 1 →
  (∀ i s, vec_get (map state_to_slot ss) i = Some s → is_u32 (slot_generation s)) →
  Arena_from_parts ss h = Done (Ok a) → Arena_wf a ∧ Arena_slots a = ss ∧ free_head a = h.
Proof.
  intros Hb Hg H. unfold Arena_from_parts in H. exec_inv.
  destruct r as [n|]; [|done]. apply walk_free_list_Ok in E as (l & Hc & E).
  destruct (Nat.eqb_spec n (length (List.filter is_vacant ss))) as [En|]; simpl in H; [|done].
  injection H as <-. rewrite E, <-count_vacant_states in En. simpl in En.
  assert (Arena_slots (MkArena (map state_to_slot ss) h
            (Z.of_nat (length ss - length (List.filter is_vacant ss)))) = ss) as Hss.
  { unfold Arena_slots. simpl. rewrite map_map. etrans; [|apply map_id]. apply map_ext.
    by intros []. }
  split; [|done]. split; simpl; [|..|done].
  - exists l. split; [done|]. split; [by eapply free_chain_NoDup|].
    by apply (free_chain_length _ _ _ Hc).
  - pose proof (count_occupied_vacant (map state_to_slot ss)).
    rewrite List.length_map, count_vacant_states in *. lia.
  - by rewrite List.length_map.
Qed.

Lemma Arena_from_parts_total (ss : list (SlotState T)) h :
  ∃ r, Arena_from_parts ss h = Done r.
Proof.
  unfold Arena_from_parts.
  destruct (walk_free_list_total ss (S (length (List.filter is_vacant ss)))
              (length (List.filter is_vacant ss)) h 0) as (r & ->); [lia..|].
  simpl. destruct r; [|eauto]. destruct (negb _); eauto.
Qed.

(** ** Stale handles *)

(** One mutation of an arena; the number counts vacated slots. *)
Inductive arena_step a : nat → Arena T → Prop :=
| arena_step_insert v a' id : Arena_insert a v = Done (a', id) → arena_step a 0 a'
| arena_step_set id v : arena_step a 0 (Arena_set a id v)
| arena_step_remove id : arena_step a 1 (Arena_remove a id).1.

Inductive arena_run a : nat → Arena T → Prop :=
| arena_run_refl : arena_run a 0 a
| arena_run_step m n b c : arena_run a m b → arena_step b n c → arena_run a (m + n) c.

(** No slot disappears, and no generation advances by more than [n]
    (modulo [2^32]). *)
Definition generations_advance (n : nat) a a' : Prop :=
  ∀ i s, vec_get (slots a) i = Some s →
  ∃ s' k, vec_get (slots a') i = Some s' ∧ 0 <= k <= Z.of_nat n ∧
          slot_generation s' mod 4294967296 = (slot_generation s + k) mod 4294967296.

Lemma generations_advance_refl n a : generations_advance n a a.
Proof. intros i s Hi. exists s, 0. rewrite Z.add_0_r. split; [done|]. split; [lia|done]. Qed.

Lemma generations_advance_trans m n a b c :
  generations_advance m a b → generations_advance n b c → generations_advance (m + n) a c.
Proof.
  intros H1 H2 i s Hi. destruct (H1 i s Hi) as (s1 & k1 & Hi1 & Hk1 & E1).
  destruct (H2 i s1 Hi1) as (s2 & k2 & Hi2 & Hk2 & E2).
  exists s2, (k1 + k2). split; [done|]. split; [lia|].
  rewrite E2, Z.add_assoc, <-(Z.add_mod_idemp_l (_ + k1)), <-E1, Z.add_mod_idemp_l; lia.
Qed.

(** Rewriting one slot with a generation at most [n] further on. *)
Lemma generations_advance_update n a j old new h l k :
  vec_get (slots a) j = Some old → 0 <= k <= Z.of_nat n →
  slot_generation new mod 4294967296 = (slot_generation old + k) mod 4294967296 →
  generations_advance n a (MkArena (<[Z.to_nat j := new]> (slots a)) h l).
Proof.
  intros Hj Hk Hg i s Hi. simpl. rewrite vec_get_insert by by eapply vec_get_range.
  case_decide; subst; [|by apply generations_advance_refl].
  simplify_eq. exists new, k. done.
Qed.

Lemma arena_step_generation a n a' : arena_step a n a' → generations_advance n a a'.
Proof.
  destruct 1 as [v a' id H|id v|id].
  - unfold Arena_insert in H. destruct (free_head a) as [j|]; exec_inv.
    + unfold vec_at, expect in E. destruct (vec_get (slots a) j) as [r'|] eqn:Ej; simplify_eq.
      destruct r as [|g nx]; [done|]. exec_inv. unfold vec_put in E.
      destruct (in_range _ j); simplify_eq.
      eapply (generations_advance_update _ _ _ _ _ _ _ 0); [done|lia|]. simpl. by rewrite Z.add_0_r.
    + simplify_eq. intros i s Hi. simpl. rewrite vec_get_snoc.
      pose proof (vec_get_range _ _ _ Hi). rewrite decide_False by lia.
      by apply (generations_advance_refl 0 a).
  - unfold Arena_set. destruct (vec_get _ _) as [[g w|]|] eqn:E;
      [|apply generations_advance_refl..].
    destruct (g =? _); [|apply generations_advance_refl].
    eapply (generations_advance_update _ _ _ _ _ _ _ 0); [done|lia|]. simpl. by rewrite Z.add_0_r.
  - destruct (Arena_get a id) as [v|] eqn:Eg.
    + rewrite (Arena_remove_live _ _ _ Eg). apply Arena_get_Some in Eg.
      eapply (generations_advance_update _ _ _ _ _ _ _ 1); [done|lia|].
      simpl. unfold wrap32. by rewrite Z.mod_mod.
    + rewrite (Arena_remove_stale _ _ Eg). apply generations_advance_refl.
Qed.

Lemma arena_run_generation a n a' : arena_run a n a' → generations_advance n a a'.
Proof.
  induction 1; [apply generations_advance_refl|].
  eauto using generations_advance_trans, arena_step_generation.
Qed.

End Invariant.

(** ** What the arena promises *)

(** C38: the arena refines a finite map from handles to values.  In a
    well-formed arena [get] is map lookup and [len] the map's size; [insert]
    (when a slot is left) does not panic, returns exactly the handle [next_id]
    announced, that handle was not live, and the map gains that one binding;
    [remove] returns what was bound and deletes that one binding, and a write
    through [get_mut] replaces one live binding.  Every operation keeps the
    arena well formed. *)
Theorem arena_refines_map {T} (a : Arena T) :
  Arena_wf a →
  (∀ id, Arena_get a id = Arena_map a !! id) ∧
  Z.of_nat (size (Arena_map a)) = arena_len a ∧
  (∀ v, Arena_has_room a → ∃ a' id,
    Arena_insert a v = Done (a', id) ∧ Arena_next_id a = Done id ∧ Arena_wf a' ∧
    Arena_map a !! id = None ∧ Arena_map a' = <[id := v]> (Arena_map a)) ∧
  (∀ id, (Arena_remove a id).2 = Arena_map a !! id ∧ Arena_wf (Arena_remove a id).1 ∧
    Arena_map (Arena_remove a id).1 = delete id (Arena_map a)) ∧
  (∀ id v, is_Some (Arena_map a !! id) → Arena_wf (Arena_set a id v) ∧
    Arena_map (Arena_set a id v) = <[id := v]> (Arena_map a)).
Proof.
  intros Hwf. split; [intros; by rewrite Arena_map_lookup|].
  split; [by apply Arena_map_size|]. split; [|split].
  - intros v Hroom. destruct (Arena_insert_spec a v Hwf Hroom) as (a' & id & Hi & Hn & Hwf' & Hf & Hg).
    exists a', id. rewrite Arena_map_lookup by done. repeat (split; [done|]).
    apply map_eq. intros id'. rewrite lookup_insert, !Arena_map_lookup by done. apply Hg.
  - intros id. destruct (Arena_remove_spec a id Hwf) as (Hr & Hwf' & Hg).
    rewrite Arena_map_lookup by done. repeat (split; [done|]).
    apply map_eq. intros id'. rewrite lookup_delete, !Arena_map_lookup by done. apply Hg.
  - intros id v [w Hw]. rewrite Arena_map_lookup in Hw by done.
    pose proof (Arena_set_wf a id v Hwf). split; [done|].
    apply map_eq. intros id'. rewrite lookup_insert, !Arena_map_lookup by done.
    by eapply Arena_set_get.
Qed.

(** A small arena with one vacant slot, built by the operations themselves. *)
Definition demo_arena : Arena nat :=
  MkArena [Slot.Occupied 0 7%nat; Slot.Vacant 1 None] (Some 1) 1.

Lemma demo_arena_wf : Arena_wf demo_arena.
Proof.
  assert (Arena_from_parts (Arena_slots demo_arena) (Some 1) = Done (Ok demo_arena)) as H
    by reflexivity.
  eapply Arena_from_parts_wf in H as [H _]; [exact H|simpl; lia|].
  intros i s [Hi Hs]%vec_get_Some. apply list_elem_of_lookup_2 in Hs.
  repeat (apply elem_of_cons in Hs as [->|Hs]; [unfold is_u32; simpl; lia|]).
  by apply elem_of_nil in Hs.
Qed.

Lemma arena_refines_map_witness :
  Arena_wf demo_arena ∧ Arena_map (Arena_remove demo_arena 0).1 = delete 0 (Arena_map demo_arena).
Proof.
  split; [apply demo_arena_wf|].
  apply (arena_refines_map demo_arena demo_arena_wf).
Defined.

(** a handle that has been removed stays stale.  After [remove id], no
    sequence of inserts, writes and removes makes [id] resolve again as long
    as fewer than [2^32 - 1] slots are vacated on the way (the generation
    counter wraps after that many). *)
Theorem arena_removed_handle_stays_stale {T} (a b : Arena T) (id : JobId) (v : T) (n : nat) :
  Arena_get a id = Some v →
  arena_run (Arena_remove a id).1 n b →
  Z.of_nat n < u32_max →
  Arena_get b id = None.
Proof.
  intros Hid Hrun Hn. rewrite (Arena_remove_live _ _ _ Hid) in Hrun.
  apply Arena_get_Some in Hid. pose proof (vec_get_range _ _ _ Hid) as Hr.
  destruct (arena_run_generation _ _ _ Hrun (JobId_index id)
              (Slot.Vacant (wrap32 (JobId_generation id + 1)) (free_head a)))
    as (s & k & Hs & Hk & Hg).
  { simpl. by rewrite vec_get_insert, decide_True. }
  destruct (Arena_get b id) as [w|] eqn:E; [|done]. apply Arena_get_Some in E.
  simplify_eq/=. unfold wrap32 in Hg. rewrite Z.add_mod_idemp_l in Hg by lia. zdiv.
Qed.

Lemma arena_removed_handle_stays_stale_witness :
  Arena_get demo_arena 0 = Some 7%nat ∧
  arena_run (Arena_remove demo_arena 0).1 0
    (MkArena [Slot.Occupied 1 9%nat; Slot.Vacant 1 None] (Some 1) 1) ∧
  Arena_get (MkArena [Slot.Occupied 1 9%nat; Slot.Vacant 1 None] (Some 1) 1) 0 = None.
Proof.
  assert (arena_run (Arena_remove demo_arena 0).1 0
    (MkArena [Slot.Occupied 1 9%nat; Slot.Vacant 1 None] (Some 1) 1)) as Hrun.
  { apply (arena_run_step _ 0 0 (Arena_remove demo_arena 0).1); [constructor|].
    apply (arena_step_insert _ 9%nat _ 4294967296). vm_compute. reflexivity. }
  split; [reflexivity|]. split; [exact Hrun|].
  apply (arena_removed_handle_stays_stale demo_arena _ 0 7%nat 0); [reflexivity|exact Hrun|lia].
Defined.

(** snapshot and restore.  [from_parts] always returns, whatever the
    links of its input; on the parts of a well-formed arena it rebuilds that
    very arena (so later inserts yield the ids the original would have); and
    whatever it accepts, at [u32] widths, is a well-formed arena with exactly
    those parts. *)
Theorem arena_snapshot_restore {T} :
  (∀ a : Arena T, Arena_wf a →
     Arena_from_parts (Arena_slots a) (free_head a) = Done (Ok a)) ∧
  (∀ (ss : list (SlotState T)) h, ∃ r, Arena_from_parts ss h = Done r ∧
     ∀ a, r = Ok a → Z.of_nat (length ss) <= u32_max + 1 →
       (∀ i s, vec_get (map state_to_slot ss) i = Some s → is_u32 (slot_generation s)) →
       Arena_wf a ∧ Arena_slots a = ss ∧ free_head a = h).
Proof.
  split; [apply Arena_from_parts_slots|].
  intros ss h. destruct (Arena_from_parts_total ss h) as (r & Hr). exists r. split; [done|].
  intros a -> Hb Hg. by apply Arena_from_parts_wf.
Qed.

Lemma arena_snapshot_restore_witness :
  Arena_from_parts (Arena_slots demo_arena) (free_head demo_arena) = Done (Ok demo_arena).
Proof. apply (proj1 (@arena_snapshot_restore nat)). exact demo_arena_wf. Defined.
