(* ===== verification/Job.v ===== *)
(** * Jobs and their state machine

    [crates/tasker-core/src/domain/job.rs]: priority classes, the lifecycle
    diagram, the job record and [try_transition]. *)

From stdpp Require Import base list numbers option.
From Stdlib Require Import ZArith Lia.
From S2P Require Import Prelude Domain Arena.
Open Scope Z_scope.

(** The raw account number, a [u32]. *)
Abbreviation AccountId := Z (only parsing).

Module PriorityClass.
Inductive PriorityClass : Type := Low | Normal | High | Urgent.
End PriorityClass.
Abbreviation PriorityClass := PriorityClass.PriorityClass.

#[export] Instance PriorityClass_eq_dec : EqDecision PriorityClass.
Proof. solve_decision. Defined.

Definition PriorityClass_COUNT : nat := 4.

Definition PriorityClass_ALL : list PriorityClass :=
  [PriorityClass.Low; PriorityClass.Normal; PriorityClass.High; PriorityClass.Urgent].

(** The [repr(u8)] discriminant. *)
Definition ordinal (c : PriorityClass) : Z :=
  match c with
  | PriorityClass.Low => 0
  | PriorityClass.Normal => 1
  | PriorityClass.High => 2
  | PriorityClass.Urgent => 3
  end.

Module JobState.
Inductive JobState : Type :=
| Submitted | Blocked | Ready | Running | Completed | Failed | Preempted | Cancelled.
End JobState.
Abbreviation JobState := JobState.JobState.

#[export] Instance JobState_eq_dec : EqDecision JobState.
Proof. solve_decision. Defined.

Definition JobState_ALL : list JobState :=
  [JobState.Submitted; JobState.Blocked; JobState.Ready; JobState.Running;
   JobState.Completed; JobState.Failed; JobState.Preempted; JobState.Cancelled].

Definition is_terminal (s : JobState) : bool :=
  match s with
  | JobState.Completed | JobState.Failed | JobState.Cancelled => true
  | _ => false
  end.

Definition can_transition_to (self next : JobState) : bool :=
  match self, next with
  | JobState.Submitted, (JobState.Blocked | JobState.Ready | JobState.Cancelled)
  | JobState.Blocked, (JobState.Ready | JobState.Cancelled)
  | JobState.Ready, (JobState.Running | JobState.Cancelled)
  | JobState.Running,
      (JobState.Completed | JobState.Failed | JobState.Preempted | JobState.Cancelled)
  | JobState.Preempted,
      (JobState.Ready | JobState.Completed | JobState.Failed | JobState.Cancelled) => true
  | _, _ => false
  end.

Record TransitionError : Type := MkTransitionError {
  te_from : JobState;
  te_to : JobState;
}.

Record Job : Type := MkJob {
  account : AccountId;
  priority_class : PriorityClass;
  submit_time : VirtualTime;
  request : Resources;
  walltime_limit : VirtualDuration;
  deps : list JobId;
  payload : list Z;
  state : JobState;
  preemptions : Z;
}.

Definition Job_new (account : AccountId) (priority_class : PriorityClass)
    (submit_time : VirtualTime) (request : Resources) (walltime_limit : VirtualDuration) : Job :=
  MkJob account priority_class submit_time request walltime_limit [] [] JobState.Submitted 0.

(** Field writes through [&mut Job]. *)
Definition job_with_state (j : Job) (s : JobState) : Job :=
  MkJob (account j) (priority_class j) (submit_time j) (request j) (walltime_limit j)
        (deps j) (payload j) s (preemptions j).

Definition job_with_preemptions (j : Job) (n : Z) : Job :=
  MkJob (account j) (priority_class j) (submit_time j) (request j) (walltime_limit j)
        (deps j) (payload j) (state j) n.

Definition try_transition (j : Job) (next : JobState) : result Job TransitionError :=
  if can_transition_to (state j) next
  then Ok (job_with_state j next)
  else Err (MkTransitionError (state j) next).

(** The widths of the job's fields. *)
Definition Job_wf (j : Job) : Prop :=
  is_u32 (account j) ∧ is_u64 (submit_time j) ∧ Resources_wf (request j) ∧
  is_u64 (walltime_limit j) ∧ Forall is_u64 (deps j) ∧ Forall is_u8 (payload j) ∧
  is_u8 (preemptions j).

Lemma ordinal_range c : 0 <= ordinal c <= 3.
Proof. destruct c; simpl; lia. Qed.

Lemma ordinal_inj c d : ordinal c = ordinal d → c = d.
Proof. by destruct c, d. Qed.

Lemma try_transition_Ok j next j' :
  try_transition j next = Ok j' ↔
  can_transition_to (state j) next = true ∧ j' = job_with_state j next.
Proof. unfold try_transition. destruct (can_transition_to _ _); naive_solver. Qed.

Lemma job_with_state_wf j s : Job_wf j → Job_wf (job_with_state j s).
Proof. done. Qed.

(** ** The lifecycle as a step relation *)

Inductive job_step : JobState → JobState → Prop :=
| job_step_intro s s' : can_transition_to s s' = true → job_step s s'.

(** States in which a job holds its capacity on a slot. *)
Definition occupies_slot (s : JobState) : bool :=
  match s with JobState.Running | JobState.Preempted => true | _ => false end.

Lemma job_step_into_slot s s' :
  job_step s s' → occupies_slot s' = true → s = JobState.Ready ∨ s = JobState.Running.
Proof. destruct 1 as [s s' H]. destruct s, s'; simpl in *; naive_solver. Qed.

(** [job_path s l t]: a history that starts in [s], visits the states [l]
    after it, and ends in [t]. *)
Inductive job_path : JobState → list JobState → JobState → Prop :=
| job_path_nil s : job_path s [] s
| job_path_cons s t l u : job_step s t → job_path t l u → job_path s (t :: l) u.

(** A history that ends occupying a slot starts there already, or starts in
    [Ready], or goes through [Ready]. *)
Lemma job_path_through_ready s l t :
  job_path s l t → occupies_slot t = true →
  occupies_slot s = true ∨ s = JobState.Ready ∨ JobState.Ready ∈ l.
Proof.
  induction 1 as [s|s t l u Hst Htu IH]; intros Hs; [by left|].
  destruct (IH Hs) as [Ht|[->|Ht]]; [|right; right; by left|right; right; by right].
  destruct (job_step_into_slot _ _ Hst Ht) as [->| ->]; auto.
Qed.

(** the lifecycle diagram.  [try_transition] moves along exactly the
    edges of the diagram and otherwise reports the rejected pair, changing
    nothing; a state is terminal exactly when no edge leaves it; a job reaches
    [Completed] or [Failed] only from a state in which it occupies a slot, and
    every history from submission to such a state goes through [Ready]. *)
Theorem job_lifecycle (j : Job) (s s' : JobState) (l : list JobState) :
  (try_transition j s = Ok (job_with_state j s) ∧ job_step (state j) s ∨
   try_transition j s = Err (MkTransitionError (state j) s) ∧ ¬ job_step (state j) s) ∧
  (is_terminal s = true ↔ ∀ t, ¬ job_step s t) ∧
  (job_step s s' → s' = JobState.Completed ∨ s' = JobState.Failed → occupies_slot s = true) ∧
  (job_path JobState.Submitted l s → occupies_slot s = true → JobState.Ready ∈ l).
Proof.
  split; [|split; [|split]].
  - unfold try_transition. destruct (can_transition_to (state j) s) eqn:E.
    + left. split; [done|by constructor].
    + right. split; [done|]. destruct 1. congruence.
  - split; [intros Hs t Hst; inversion Hst as [? ? H]; subst; by destruct s, t|].
    intros Hn. destruct s; try done; exfalso.
    all: by apply (Hn JobState.Cancelled).
  - destruct 1 as [s s' H]. destruct s, s'; simpl in *; naive_solver.
  - intros H Hs. by destruct (job_path_through_ready _ _ _ H Hs) as [?|[?|?]].
Qed.

Lemma job_lifecycle_witness :
  JobState.Ready ∈ [JobState.Blocked; JobState.Ready; JobState.Running].
Proof.
  apply (job_lifecycle (Job_new 0 PriorityClass.Low 0 Resources_ZERO 1)
           JobState.Running JobState.Completed); [|reflexivity].
  repeat (eapply job_path_cons; [by constructor|]). constructor.
Defined.
