(* ===== verification/Inventory.v ===== *)
(** * Cluster capacity

    [crates/tasker-core/src/cluster/slot.rs]: worker slots, first-fit,
    allocation and release, slot churn.  The theorems: no sequence of
    allocations and releases overcommits a slot, first-fit is exact on slots
    that are not overcommitted, and a release undoes an allocation. *)

From stdpp Require Import base list numbers option.
From Stdlib Require Import ZArith Lia.
From S2P Require Import Prelude Domain.
Open Scope Z_scope.

(** Dense index into an inventory, a [u32]. *)
Abbreviation SlotIndex := Z (only parsing).

Module CapacityError.
Inductive CapacityError : Type :=
| NoSuchSlot (slot : SlotIndex)
| WouldExceed (slot : SlotIndex).
End CapacityError.
Abbreviation CapacityError := CapacityError.CapacityError.

Record WorkerSlot : Type := MkWorkerSlot {
  capacity : Resources;
  allocated : Resources;
}.

Definition WorkerSlot_new (capacity : Resources) : WorkerSlot :=
  MkWorkerSlot capacity Resources_ZERO.

Definition WorkerSlot_free (s : WorkerSlot) : Resources :=
  Resources_saturating_sub (capacity s) (allocated s).

Record SlotInventory : Type := MkSlotInventory {
  worker_slots : list WorkerSlot;
  max_capacity : Resources;
}.

(** Componentwise maximum, written out in [from_capacities], [add_slot] and
    [push_slot]. *)
Definition Resources_max (a b : Resources) : Resources :=
  MkResources (Z.max (cpu_millis a) (cpu_millis b)) (Z.max (mem_bytes a) (mem_bytes b))
              (Z.max (gpus a) (gpus b)).

Definition from_uniform (count : Z) (capacity : Resources) : SlotInventory :=
  MkSlotInventory (replicate (Z.to_nat count) (WorkerSlot_new capacity)) capacity.

Definition from_capacities (capacities : list Resources) : SlotInventory :=
  let max_capacity := foldl Resources_max Resources_ZERO capacities in
  MkSlotInventory (map WorkerSlot_new capacities) max_capacity.

Definition inventory_len (inv : SlotInventory) : exec SlotIndex :=
  u32_from_usize (length (worker_slots inv)).

Definition inventory_is_empty (inv : SlotInventory) : bool :=
  (length (worker_slots inv) =? 0)%nat.

Definition inventory_slot (inv : SlotInventory) (slot : SlotIndex) : option WorkerSlot :=
  vec_get (worker_slots inv) slot.

Definition inventory_free (inv : SlotInventory) (slot : SlotIndex) : option Resources :=
  WorkerSlot_free <$> vec_get (worker_slots inv) slot.

Definition first_fit (inv : SlotInventory) (request : Resources) : exec (option SlotIndex) :=
  match position (fun s => fits_within request (WorkerSlot_free s)) (worker_slots inv) with
  | Some i => let! slot := u32_from_usize i in Done (Some slot)
  | None => Done None
  end.

(** Writes one slot; the index has just been read, so it is in range. *)
Definition set_slot (inv : SlotInventory) (slot : SlotIndex) (s : WorkerSlot) : SlotInventory :=
  MkSlotInventory (<[Z.to_nat slot := s]> (worker_slots inv)) (max_capacity inv).

Definition try_allocate (inv : SlotInventory) (slot : SlotIndex) (request : Resources)
  : SlotInventory * result unit CapacityError :=
  match vec_get (worker_slots inv) slot with
  | None => (inv, Err (CapacityError.NoSuchSlot slot))
  | Some entry =>
      match Resources_checked_add (allocated entry) request with
      | None => (inv, Err (CapacityError.WouldExceed slot))
      | Some next =>
          if negb (fits_within next (capacity entry))
          then (inv, Err (CapacityError.WouldExceed slot))
          else (set_slot inv slot (MkWorkerSlot (capacity entry) next), Ok tt)
      end
  end.

Definition release (inv : SlotInventory) (slot : SlotIndex) (request : Resources)
  : SlotInventory * result unit CapacityError :=
  match vec_get (worker_slots inv) slot with
  | None => (inv, Err (CapacityError.NoSuchSlot slot))
  | Some entry =>
      (set_slot inv slot
         (MkWorkerSlot (capacity entry) (Resources_saturating_sub (allocated entry) request)),
       Ok tt)
  end.

Definition can_ever_fit (inv : SlotInventory) (request : Resources) : bool :=
  if negb (fits_within request (max_capacity inv)) then false
  else existsb (fun s => fits_within request (capacity s)) (worker_slots inv).

Definition total_free (inv : SlotInventory) : Resources :=
  foldl (fun acc s => Resources_saturating_add acc (WorkerSlot_free s)) Resources_ZERO
        (worker_slots inv).

Definition add_slot (inv : SlotInventory) (capacity' : Resources)
  : exec (SlotInventory * SlotIndex) :=
  let '(slots', index) :=
    match position (fun s => bool_decide (capacity s = Resources_ZERO)) (worker_slots inv) with
    | Some i => (<[i := WorkerSlot_new capacity']> (worker_slots inv), i)
    | None => (worker_slots inv ++ [WorkerSlot_new capacity'], length (worker_slots inv))
    end in
  let inv' := MkSlotInventory slots' (Resources_max (max_capacity inv) capacity') in
  let! slot := u32_from_usize index in Done (inv', slot).

Definition push_slot (inv : SlotInventory) (capacity' : Resources)
  : exec (SlotInventory * SlotIndex) :=
  let slots' := worker_slots inv ++ [WorkerSlot_new capacity'] in
  let inv' := MkSlotInventory slots' (Resources_max (max_capacity inv) capacity') in
  let! slot := u32_from_usize (length slots' - 1) in Done (inv', slot).

Definition set_capacity (inv : SlotInventory) (slot : SlotIndex) (capacity' : Resources)
  : SlotInventory * result unit CapacityError :=
  match vec_get (worker_slots inv) slot with
  | None => (inv, Err (CapacityError.NoSuchSlot slot))
  | Some entry => (set_slot inv slot (MkWorkerSlot capacity' (allocated entry)), Ok tt)
  end.

Definition clear_allocation (inv : SlotInventory) (slot : SlotIndex)
  : SlotInventory * result unit CapacityError :=
  match vec_get (worker_slots inv) slot with
  | None => (inv, Err (CapacityError.NoSuchSlot slot))
  | Some entry => (set_slot inv slot (MkWorkerSlot (capacity entry) Resources_ZERO), Ok tt)
  end.

Definition inventory_reset (inv : SlotInventory) : SlotInventory :=
  MkSlotInventory (map (fun s => MkWorkerSlot (capacity s) Resources_ZERO) (worker_slots inv))
                  (max_capacity inv).

(** ** Invariants *)

(** Field widths, and a slot count that fits [u32]. *)
Record Inventory_wf (inv : SlotInventory) : Prop := {
  inv_len : Z.of_nat (length (worker_slots inv)) <= u32_max;
  inv_widths : ∀ i s, vec_get (worker_slots inv) i = Some s →
    Resources_wf (capacity s) ∧ Resources_wf (allocated s);
}.

(** No slot is overcommitted. *)
Definition within_capacity (inv : SlotInventory) : Prop :=
  ∀ i s, vec_get (worker_slots inv) i = Some s → Resources_le (allocated s) (capacity s).

Lemma set_slot_get inv i s s' j :
  vec_get (worker_slots inv) i = Some s →
  vec_get (worker_slots (set_slot inv i s')) j =
  if decide (i = j) then Some s' else vec_get (worker_slots inv) j.
Proof. intros H%vec_get_range. simpl. by rewrite vec_get_insert. Qed.

Lemma set_slot_wf inv i s s' :
  Inventory_wf inv → vec_get (worker_slots inv) i = Some s →
  Resources_wf (capacity s') → Resources_wf (allocated s') →
  Inventory_wf (set_slot inv i s').
Proof.
  intros [Hl Hw] Hi Hc Ha. split; [simpl; by rewrite length_insert|].
  intros j t. rewrite (set_slot_get _ _ _ _ _ Hi). case_decide; [by intros [= <-]|apply Hw].
Qed.

Lemma set_slot_within inv i s s' :
  within_capacity inv → vec_get (worker_slots inv) i = Some s →
  Resources_le (allocated s') (capacity s') → within_capacity (set_slot inv i s').
Proof.
  intros Hw Hi Hle j t. rewrite (set_slot_get _ _ _ _ _ Hi).
  case_decide; [by intros [= <-]|apply Hw].
Qed.

(** ** Allocation *)

(** What a successful allocation does: the request fits next to what is
    already allocated, and only this slot's allocation grows, by the request. *)
Lemma try_allocate_Ok inv slot request inv' :
  try_allocate inv slot request = (inv', Ok tt) ↔
  ∃ s, vec_get (worker_slots inv) slot = Some s ∧
    Resources_le (Resources_plus (allocated s) request) (capacity s) ∧
    Resources_checked_add (allocated s) request = Some (Resources_plus (allocated s) request) ∧
    inv' = set_slot inv slot
             (MkWorkerSlot (capacity s) (Resources_plus (allocated s) request)).
Proof.
  unfold try_allocate. destruct (vec_get _ _) as [s|]; [|naive_solver].
  destruct (Resources_checked_add _ _) as [n|] eqn:E.
  - pose proof E as (-> & _)%Resources_checked_add_Some.
    destruct (fits_within _ _) eqn:Ef; simpl.
    + apply fits_within_spec in Ef. naive_solver.
    + apply fits_within_false in Ef. naive_solver.
  - naive_solver.
Qed.

Lemma try_allocate_preserves inv slot request inv' r :
  Inventory_wf inv → Resources_wf request → try_allocate inv slot request = (inv', r) →
  Inventory_wf inv' ∧ (within_capacity inv → within_capacity inv').
Proof.
  intros Hwf Hr H. destruct r as [[]|e].
  - apply try_allocate_Ok in H as (s & Hs & Hle & Hc & ->).
    destruct (inv_widths _ Hwf _ _ Hs) as [Hcap Hal].
    apply Resources_checked_add_Some in Hc as (_ & Hb).
    split; [|by intros; eapply set_slot_within].
    eapply set_slot_wf; eauto. simpl. clear Hs Hle. destruct (allocated s), request. res_crush.
  - assert (inv' = inv) as ->; [|done].
    unfold try_allocate in H. repeat case_match; simplify_eq; done.
Qed.

Lemma release_preserves inv slot request inv' r :
  Inventory_wf inv → Resources_wf request → release inv slot request = (inv', r) →
  Inventory_wf inv' ∧ (within_capacity inv → within_capacity inv').
Proof.
  intros Hwf Hr H. unfold release in H. destruct (vec_get _ _) as [s|] eqn:Hs; simplify_eq; [|done].
  destruct (inv_widths _ Hwf _ _ Hs) as [Hcap Hal]. split.
  - eapply set_slot_wf; eauto with rt.
  - intros Hw. eapply set_slot_within; eauto. simpl. specialize (Hw _ _ Hs).
    destruct s as [[] []], request. res_crush.
Qed.

(** A fitting request on a slot that is not overcommitted is allocated. *)
Lemma fits_free_allocates inv slot s request :
  Inventory_wf inv → vec_get (worker_slots inv) slot = Some s →
  Resources_le (allocated s) (capacity s) → Resources_wf request →
  Resources_le request (WorkerSlot_free s) →
  try_allocate inv slot request =
    (set_slot inv slot (MkWorkerSlot (capacity s) (Resources_plus (allocated s) request)), Ok tt).
Proof.
  intros Hwf Hs Hle Hr Hfit. apply try_allocate_Ok. exists s. split; [done|].
  destruct (inv_widths _ Hwf _ _ Hs) as [Hc Ha].
  unfold WorkerSlot_free in Hfit. rewrite Resources_checked_add_Some.
  clear Hs. destruct s as [[] []], request. res_crush.
Qed.

(** ** First fit *)

Lemma first_fit_Done inv request :
  Inventory_wf inv →
  ∃ o, first_fit inv request = Done o ∧
  match o with
  | Some slot => ∃ s, vec_get (worker_slots inv) slot = Some s ∧
      Resources_le request (WorkerSlot_free s) ∧
      ∀ j t, j < slot → vec_get (worker_slots inv) j = Some t →
             ¬ Resources_le request (WorkerSlot_free t)
  | None => ∀ j t, vec_get (worker_slots inv) j = Some t →
             ¬ Resources_le request (WorkerSlot_free t)
  end.
Proof.
  intros Hwf. unfold first_fit. destruct (position _ _) as [i|] eqn:E.
  - apply position_Some in E as (s & Hs & Hfit & Hmin).
    pose proof (lookup_lt_Some _ _ _ Hs). pose proof (inv_len _ Hwf).
    rewrite u32_from_usize_Done by lia. eexists. split; [done|].
    exists s. split; [by rewrite vec_get_lookup, Nat2Z.id by lia|].
    split; [by apply fits_within_spec|].
    intros j t Hj [? Ht]%vec_get_Some. apply fits_within_false. eapply Hmin; [|done]. lia.
  - eexists. split; [done|]. intros j t [? Ht]%vec_get_Some. apply fits_within_false.
    rewrite position_None in E. apply E. eapply list_elem_of_lookup_2; eauto.
Qed.

#[export] Hint Resolve set_slot_wf set_slot_within : rt.

(** ** What the inventory promises *)

(** The mutations the scheduler makes between slot changes. *)
Inductive inventory_op : Type :=
| OpAllocate (slot : SlotIndex) (request : Resources)
| OpRelease (slot : SlotIndex) (request : Resources).

Definition op_request (o : inventory_op) : Resources :=
  match o with OpAllocate _ r | OpRelease _ r => r end.

(** Applies one operation, ignoring its result as a caller may. *)
Definition apply_op (inv : SlotInventory) (o : inventory_op) : SlotInventory :=
  match o with
  | OpAllocate slot r => (try_allocate inv slot r).1
  | OpRelease slot r => (release inv slot r).1
  end.

(** no overcommit.  Starting from an inventory in which no slot is
    overcommitted, no sequence of [try_allocate] and [release] calls, on any
    slots and with any representable requests, ever leaves a slot with more
    allocated than its capacity in any dimension. *)
Theorem inventory_never_overcommits (ops : list inventory_op) (inv : SlotInventory) :
  Inventory_wf inv → within_capacity inv → Forall (fun o => Resources_wf (op_request o)) ops →
  Inventory_wf (foldl apply_op inv ops) ∧ within_capacity (foldl apply_op inv ops).
Proof.
  revert inv. induction ops as [|o ops IH]; intros inv Hwf Hw Hops; [done|].
  apply Forall_cons_1 in Hops as [Ho Hops]. simpl.
  assert (Inventory_wf (apply_op inv o) ∧ within_capacity (apply_op inv o)) as [? ?].
  { destruct o as [slot r|slot r]; simpl in *.
    - destruct (try_allocate inv slot r) as [inv' res] eqn:E.
      apply try_allocate_preserves in E as [? ?]; auto.
    - destruct (release inv slot r) as [inv' res] eqn:E.
      apply release_preserves in E as [? ?]; auto. }
  by apply IH.
Qed.

Lemma from_uniform_wf count c :
  0 <= count <= u32_max → Resources_wf c →
  Inventory_wf (from_uniform count c) ∧ within_capacity (from_uniform count c).
Proof.
  intros Hn Hc. split; [split|]; simpl.
  - rewrite length_replicate. lia.
  - intros i s [_ [-> _]%lookup_replicate]%vec_get_Some. simpl. split; [done|res_crush].
  - intros i s [_ [-> _]%lookup_replicate]%vec_get_Some. simpl. destruct c. res_crush.
Qed.

Definition demo_inventory : SlotInventory := from_uniform 2 (MkResources 4000 1000 1).

Lemma demo_inventory_wf : Inventory_wf demo_inventory ∧ within_capacity demo_inventory.
Proof. apply from_uniform_wf; [lia|]. res_crush. Qed.

Lemma inventory_never_overcommits_witness :
  within_capacity (foldl apply_op demo_inventory
    [OpAllocate 0 (MkResources 3000 10 1); OpAllocate 0 (MkResources 3000 10 0);
     OpRelease 1 (MkResources 5 5 0)]).
Proof.
  apply (inventory_never_overcommits
    [OpAllocate 0 (MkResources 3000 10 1); OpAllocate 0 (MkResources 3000 10 0);
     OpRelease 1 (MkResources 5 5 0)] demo_inventory);
    [apply demo_inventory_wf|apply demo_inventory_wf|].
  repeat (constructor; [res_crush|]). constructor.
Defined.

(** first fit is exact.  On an inventory without overcommitted slots,
    [first_fit] returns (the slot count fits its index type); a slot it names
    accepts the allocation and no lower-numbered slot would; and when it names
    none, [try_allocate] is rejected on every slot. *)
Theorem first_fit_exact (inv : SlotInventory) (request : Resources) :
  Inventory_wf inv → within_capacity inv → Resources_wf request →
  ∃ o, first_fit inv request = Done o ∧
  match o with
  | Some slot =>
      (∃ inv', try_allocate inv slot request = (inv', Ok tt)) ∧
      ∀ j, 0 <= j < slot → try_allocate inv j request = (inv, Err (CapacityError.WouldExceed j))
  | None => ∀ j, ∃ e, try_allocate inv j request = (inv, Err e)
  end.
Proof.
  intros Hwf Hw Hr. destruct (first_fit_Done inv request Hwf) as (o & Ho & Hspec).
  assert (∀ j t, vec_get (worker_slots inv) j = Some t →
    ¬ Resources_le request (WorkerSlot_free t) →
    try_allocate inv j request = (inv, Err (CapacityError.WouldExceed j))) as Hrej.
  { intros j t Ht Hn. unfold try_allocate. rewrite Ht.
    destruct (Resources_checked_add _ _) as [n|] eqn:E; [|done].
    apply Resources_checked_add_Some in E as (-> & _).
    destruct (fits_within _ _) eqn:Ef; [|done]. exfalso. apply Hn.
    apply fits_within_spec in Ef. unfold WorkerSlot_free. clear Ht Hn.
    destruct t as [[] []], request. res_crush. }
  exists o. split; [done|]. destruct o as [slot|].
  - destruct Hspec as (s & Hs & Hfit & Hmin). split.
    + eexists. eapply fits_free_allocates; eauto.
    + intros j Hj. destruct (vec_get (worker_slots inv) j) as [t|] eqn:Ht.
      * eapply Hrej; [done|]. eapply Hmin; [|done]. lia.
      * pose proof (vec_get_range _ _ _ Hs). rewrite vec_get_lookup in Ht by lia.
        apply lookup_ge_None in Ht. lia.
  - intros j. destruct (vec_get (worker_slots inv) j) as [t|] eqn:Ht.
    + eexists. eapply Hrej; [done|]. by eapply Hspec.
    + eexists. unfold try_allocate. by rewrite Ht.
Qed.

Lemma first_fit_exact_witness :
  ∃ o, first_fit demo_inventory (MkResources 4000 0 1) = Done o ∧ o = Some 0.
Proof.
  destruct (first_fit_exact demo_inventory (MkResources 4000 0 1)) as (o & Ho & _);
    [apply demo_inventory_wf|apply demo_inventory_wf|res_crush|].
  exists o. split; [exact Ho|]. vm_compute in Ho. congruence.
Defined.

Lemma release_of_allocate (inv inv' : SlotInventory) (slot : SlotIndex) (request : Resources) :
  Inventory_wf inv → Resources_wf request →
  try_allocate inv slot request = (inv', Ok tt) →
  release inv' slot request = (inv, Ok tt).
Proof.
  intros Hwf Hr (s & Hs & Hle & Hc & ->)%try_allocate_Ok. unfold release.
  rewrite (set_slot_get _ _ _ _ _ Hs), decide_True by done. simpl.
  destruct (inv_widths _ Hwf _ _ Hs) as [_ Hwa].
  replace (Resources_saturating_sub (Resources_plus (allocated s) request) request)
    with (allocated s) by (clear Hs Hle Hc; destruct (allocated s), request; res_crush).
  unfold set_slot. simpl. rewrite list_insert_insert_eq. destruct inv as [ss m], s as [c a].
  simpl in *. f_equal. f_equal. apply vec_get_Some in Hs as [? Hs]. by apply list_insert_id.
Qed.

(** a release undoes an allocation.  If [try_allocate] succeeds, giving
    the same request back to the same slot restores the inventory exactly. *)
Theorem release_undoes_allocate (inv inv' : SlotInventory) (slot : SlotIndex) (request : Resources) :
  Inventory_wf inv → Resources_wf request →
  try_allocate inv slot request = (inv', Ok tt) →
  release inv' slot request = (inv, Ok tt).
Proof. apply release_of_allocate. Qed.

Lemma release_undoes_allocate_witness :
  release (try_allocate demo_inventory 1 (MkResources 100 0 0)).1 1 (MkResources 100 0 0)
  = (demo_inventory, Ok tt).
Proof.
  apply (release_undoes_allocate demo_inventory); [apply demo_inventory_wf|res_crush|].
  reflexivity.
Defined.

(** ** Capacity that could ever fit *)

(** [max_capacity] bounds every declared capacity. *)
Definition max_bounds (inv : SlotInventory) : Prop :=
  ∀ i s, vec_get (worker_slots inv) i = Some s → Resources_le (capacity s) (max_capacity inv).

Lemma Resources_max_le a b : Resources_le a (Resources_max a b) ∧ Resources_le b (Resources_max a b).
Proof. destruct a, b. unfold Resources_max. res_crush. Qed.

Lemma foldl_max_le cs acc :
  Resources_le acc (foldl Resources_max acc cs) ∧
  ∀ c, c ∈ cs → Resources_le c (foldl Resources_max acc cs).
Proof.
  revert acc. induction cs as [|d cs IH]; intros acc; simpl.
  { split; [done|]. by intros c ?%elem_of_nil. }
  destruct (IH (Resources_max acc d)) as [IH1 IH2]. destruct (Resources_max_le acc d).
  split; [by etrans|]. intros c [->|?]%elem_of_cons; [by etrans|auto].
Qed.

Lemma from_capacities_bounds cs : max_bounds (from_capacities cs).
Proof.
  intros i s [_ Hs]%vec_get_Some. simpl in *. apply list_lookup_fmap_Some in Hs as (c & -> & Hc).
  apply foldl_max_le. by eapply list_elem_of_lookup_2.
Qed.

Lemma push_slot_bounds inv c inv' slot :
  max_bounds inv → push_slot inv c = Done (inv', slot) → max_bounds inv'.
Proof.
  intros Hb H. unfold push_slot in H. exec_inv. simplify_eq.
  destruct (Resources_max_le (max_capacity inv) c) as [Hm Hc].
  intros i s. simpl. rewrite vec_get_snoc. case_decide; [by intros [= <-]|].
  intros Hs. etrans; [by eapply Hb|done].
Qed.

Lemma add_slot_bounds inv c inv' slot :
  max_bounds inv → add_slot inv c = Done (inv', slot) → max_bounds inv'.
Proof.
  intros Hb H. unfold add_slot in H.
  destruct (Resources_max_le (max_capacity inv) c) as [Hm Hc].
  destruct (position _ _) as [i|] eqn:E; exec_inv; simplify_eq; intros j s; simpl.
  - apply position_Some in E as (t & Ht & _ & _). apply lookup_lt_Some in Ht.
    rewrite <-(Nat2Z.id i), vec_get_insert by lia. case_decide; [by intros [= <-]|].
    intros Hs. etrans; [by eapply Hb|done].
  - rewrite vec_get_snoc. case_decide; [by intros [= <-]|].
    intros Hs. etrans; [by eapply Hb|done].
Qed.

(** while [max_capacity] bounds the declared capacities, the fast
    pre-check of [can_ever_fit] never changes its answer: it holds exactly
    when some slot, if empty, could hold the request.  [from_capacities],
    [push_slot] and [add_slot] establish and keep the bound. *)
Theorem can_ever_fit_exact :
  (∀ inv request, max_bounds inv →
     can_ever_fit inv request = true ↔
     ∃ i s, vec_get (worker_slots inv) i = Some s ∧ Resources_le request (capacity s)) ∧
  (∀ cs, max_bounds (from_capacities cs)) ∧
  (∀ inv c inv' slot, max_bounds inv →
     push_slot inv c = Done (inv', slot) ∨ add_slot inv c = Done (inv', slot) → max_bounds inv').
Proof.
  split; [|split; [apply from_capacities_bounds|]].
  - intros inv request Hb. unfold can_ever_fit. split.
    + destruct (fits_within request (max_capacity inv)); simpl; [|done].
      intros (s & Hs & Hfit)%existsb_exists. apply list_elem_of_In in Hs.
      apply list_elem_of_lookup in Hs as (i & Hi).
      exists (Z.of_nat i), s. rewrite vec_get_lookup, Nat2Z.id by lia.
      split; [done|by apply fits_within_spec].
    + intros (i & s & Hs & Hle). pose proof (Hb _ _ Hs).
      assert (fits_within request (max_capacity inv) = true) as ->
        by (apply fits_within_spec; by etrans).
      simpl. apply existsb_exists. exists s. split; [|by apply fits_within_spec].
      apply vec_get_Some in Hs as [_ Hs]. apply list_elem_of_In. by eapply list_elem_of_lookup_2.
  - intros inv c inv' slot Hb [H|H]; [by eapply push_slot_bounds|by eapply add_slot_bounds].
Qed.

Lemma can_ever_fit_exact_witness :
  can_ever_fit (from_capacities [MkResources 10 0 0; MkResources 0 5 1]) (MkResources 0 4 1) = true.
Proof.
  apply (proj1 can_ever_fit_exact); [apply from_capacities_bounds|].
  exists 1, (WorkerSlot_new (MkResources 0 5 1)). split; [reflexivity|]. res_crush.
Defined.

(** [set_capacity] can raise a slot above the stored maximum, which it does
    not update: the pre-check of [can_ever_fit] then rejects a request that a
    slot could hold. *)
Example set_capacity_raise_hides_a_slot :
  let inv := (set_capacity (from_capacities [MkResources 0 0 0]) 0 (MkResources 8000 0 0)).1 in
  can_ever_fit inv (MkResources 8000 0 0) = false ∧
  first_fit inv (MkResources 8000 0 0) = Done (Some 0).
Proof. vm_compute. done. Qed.

(** Draining a busy slot sets its capacity to zero under its allocation: the
    slot is overcommitted, so first fit still offers it to an empty request,
    and the allocation is then refused. *)
Example drained_slot_offered_to_empty_request :
  let inv := (set_capacity (try_allocate demo_inventory 0 (MkResources 100 0 0)).1 0
                Resources_ZERO).1 in
  first_fit inv Resources_ZERO = Done (Some 0) ∧
  (try_allocate inv 0 Resources_ZERO).2 = Err (CapacityError.WouldExceed 0).
Proof. vm_compute. done. Qed.
