(* ===== verification/Priority.v ===== *)
(** * Multifactor priority

    [crates/tasker-core/src/policy/priority.rs]: the fixed-point score and the
    total order the ready set sorts by.  Multiplications and additions wrap at
    64 bits, as they do in a release build; the theorems show where they
    cannot. *)

From stdpp Require Import base list numbers option.
From Stdlib Require Import ZArith Lia.
From S2P Require Import Prelude Domain Arena Job.
Open Scope Z_scope.

(** A priority score, a [u64]. *)
Abbreviation Score := Z (only parsing).

Definition FACTOR_SCALE : Z := 1000000.

Record PriorityWeights : Type := MkPriorityWeights {
  w_age : Z;
  w_qos : Z;
  w_fairshare : Z;
  w_size : Z;
}.

Definition PriorityWeights_default : PriorityWeights := MkPriorityWeights 1000 1000 1000 100.

Record PriorityConfig : Type := MkPriorityConfig {
  weights : PriorityWeights;
  age_horizon : VirtualDuration;
  largest_request : Resources;
}.

Definition age_quantum (c : PriorityConfig) : VirtualDuration := age_horizon c / FACTOR_SCALE.

Definition mul64 (a b : Z) : Z := wrap64 (a * b).
Definition add64 (a b : Z) : Z := wrap64 (a + b).

Definition factor (value max : Z) : Z :=
  if max =? 0 then 0
  else
    let clamped := if max <? value then max else value in
    mul64 clamped FACTOR_SCALE / max.

Definition score (job : Job) (now : VirtualTime) (config : PriorityConfig)
    (fairshare_factor : Z) : Score :=
  let age := time_saturating_sub_time now (submit_time job) in
  let age_factor := factor age (age_horizon config) in
  let qos_factor := factor (ordinal (priority_class job)) (Z.of_nat (PriorityClass_COUNT - 1)) in
  let fairshare_factor := Z.min fairshare_factor FACTOR_SCALE in
  let size_factor :=
    factor (cpu_millis (request job)) (cpu_millis (largest_request config)) in
  add64 (add64 (add64 (mul64 age_factor (w_age (weights config)))
                      (mul64 qos_factor (w_qos (weights config))))
               (mul64 fairshare_factor (w_fairshare (weights config))))
        (mul64 size_factor (w_size (weights config))).

(** [OrderKey]: score, then the reversed handle. *)
Record OrderKey : Type := MkOrderKey {
  key_score : Score;
  key_tiebreak : Z;
}.

Definition OrderKey_new (score : Score) (id : JobId) : OrderKey := MkOrderKey score id.

(** The derived lexicographic [Ord], with [Reverse] on the handle. *)
Definition OrderKey_cmp (a b : OrderKey) : comparison :=
  match key_score a ?= key_score b with
  | Eq => key_tiebreak b ?= key_tiebreak a
  | c => c
  end.

(** The operator [a > b]. *)
Definition OrderKey_gt (a b : OrderKey) : bool :=
  match OrderKey_cmp a b with Gt => true | _ => false end.

(** ** Factors *)

Lemma wrap64_small z : is_u64 z → wrap64 z = z.
Proof. unfold is_u64, wrap64. intros. apply Z.mod_small. lia. Qed.

Lemma wrap64_le z : 0 <= z → 0 <= wrap64 z <= z.
Proof. intros. unfold wrap64. split; [zdiv|]. apply Z.mod_le; lia. Qed.

Lemma factor_range value max : 0 <= value → 0 <= max → 0 <= factor value max <= FACTOR_SCALE.
Proof.
  intros Hv Hm. unfold factor. destruct (Z.eqb_spec max 0); [unfold FACTOR_SCALE; lia|].
  set (c := if max <? value then max else value).
  assert (0 <= c <= max) as Hc by (subst c; destruct (Z.ltb_spec max value); lia).
  unfold mul64. destruct (wrap64_le (c * FACTOR_SCALE)) as [H1 H2]; [unfold FACTOR_SCALE; lia|].
  split; [apply Z.div_pos; lia|].
  apply Z.div_le_upper_bound; [lia|]. unfold FACTOR_SCALE in *. nia.
Qed.

(** Below this bound the product in [factor] does not wrap. *)
Definition factor_exact_max : Z := u64_max / FACTOR_SCALE.

Lemma factor_exact value max :
  0 <= value → 0 < max <= factor_exact_max →
  factor value max = Z.min value max * FACTOR_SCALE / max.
Proof.
  intros Hv Hm. unfold factor. destruct (Z.eqb_spec max 0); [lia|].
  replace (if max <? value then max else value) with (Z.min value max)
    by (destruct (Z.ltb_spec max value); lia).
  unfold mul64. rewrite wrap64_small; [done|].
  unfold factor_exact_max in Hm. unfold is_u64, FACTOR_SCALE in *.
  change (u64_max / 1000000) with 18446744073709 in Hm. nia.
Qed.

Lemma factor_mono v v' max :
  0 <= v <= v' → 0 <= max <= factor_exact_max → factor v max <= factor v' max.
Proof.
  intros Hv Hm. destruct (decide (max = 0)) as [->|]; [unfold factor; simpl; lia|].
  rewrite !factor_exact by lia. apply Z.div_le_mono; [lia|]. unfold FACTOR_SCALE. lia.
Qed.

(** ** Scores *)

Definition PriorityConfig_wf (c : PriorityConfig) : Prop :=
  is_u32 (w_age (weights c)) ∧ is_u32 (w_qos (weights c)) ∧ is_u32 (w_fairshare (weights c)) ∧
  is_u32 (w_size (weights c)) ∧ is_u64 (age_horizon c) ∧ Resources_wf (largest_request c).

(** The weighted sum over unbounded integers: the specification of [score]. *)
Definition score_spec (job : Job) (now : VirtualTime) (config : PriorityConfig) (fs : Z) : Z :=
  factor (Z.max 0 (now - submit_time job)) (age_horizon config) * w_age (weights config) +
  factor (ordinal (priority_class job)) 3 * w_qos (weights config) +
  Z.min fs FACTOR_SCALE * w_fairshare (weights config) +
  factor (cpu_millis (request job)) (cpu_millis (largest_request config)) *
    w_size (weights config).

Lemma weighted_range f w : 0 <= f <= FACTOR_SCALE → is_u32 w →
  0 <= f * w <= 4294967295000000.
Proof. unfold FACTOR_SCALE, is_u32. nia. Qed.

Lemma score_exact job now config fs :
  Job_wf job → PriorityConfig_wf config → 0 <= fs →
  score job now config fs = score_spec job now config fs ∧
  0 <= score_spec job now config fs <= 4 * (FACTOR_SCALE * u32_max).
Proof.
  intros (_ & _ & Hreq & _) (Ha & Hq & Hf & Hs & Hh & Hl) Hfs. unfold score, score_spec.
  change (Z.of_nat (PriorityClass_COUNT - 1)) with 3.
  unfold time_saturating_sub_time, sat_sub.
  pose proof (ordinal_range (priority_class job)).
  unfold Resources_wf, is_u64, is_u32 in Hreq, Hl, Hh.
  pose proof (weighted_range (factor (Z.max 0 (now - submit_time job)) (age_horizon config))
    (w_age (weights config)) ltac:(apply factor_range; lia) Ha) as W1.
  pose proof (weighted_range (factor (ordinal (priority_class job)) 3)
    (w_qos (weights config)) ltac:(apply factor_range; lia) Hq) as W2.
  pose proof (weighted_range (Z.min fs FACTOR_SCALE)
    (w_fairshare (weights config)) ltac:(unfold FACTOR_SCALE; lia) Hf) as W3.
  pose proof (weighted_range
    (factor (cpu_millis (request job)) (cpu_millis (largest_request config)))
    (w_size (weights config)) ltac:(apply factor_range; lia) Hs) as W4.
  revert W1 W2 W3 W4. unfold add64, mul64. generalize (factor (Z.max 0 (now - submit_time job))
    (age_horizon config) * w_age (weights config)) as A.
  generalize (factor (ordinal (priority_class job)) 3 * w_qos (weights config)) as B.
  generalize (Z.min fs FACTOR_SCALE * w_fairshare (weights config)) as C.
  generalize (factor (cpu_millis (request job)) (cpu_millis (largest_request config)) *
    w_size (weights config)) as D. intros. unfold FACTOR_SCALE.
  rewrite (wrap64_small A), (wrap64_small B), (wrap64_small C), (wrap64_small D),
    (wrap64_small (A + B)), (wrap64_small (A + B + C)), (wrap64_small (A + B + C + D));
    unfold is_u64; lia.
Qed.

(** scoring.  For every job and configuration at their declared widths the
    64-bit score equals the weighted sum over unbounded integers (no
    intermediate product or sum wraps), it is at most [4 * 10^6 * (2^32 - 1)],
    and while the age horizon is at most [u64::MAX / 10^6] ns it never drops
    as a job waits or as its account's fair-share factor rises. *)
Theorem score_exact_and_monotone (job : Job) (config : PriorityConfig) (now : VirtualTime) (fs : Z) :
  Job_wf job → PriorityConfig_wf config → 0 <= fs →
  score job now config fs = score_spec job now config fs ∧
  0 <= score job now config fs <= 4 * (FACTOR_SCALE * u32_max) ∧
  (∀ now' fs', age_horizon config <= factor_exact_max → now <= now' → fs <= fs' →
     score job now config fs <= score job now' config fs').
Proof.
  intros Hj Hc Hfs. destruct (score_exact job now config fs Hj Hc Hfs) as [E B].
  split; [done|]. split; [by rewrite E|]. intros now' fs' Hh Hn Hf.
  destruct (score_exact job now' config fs' Hj Hc ltac:(lia)) as [E' _].
  rewrite E, E'. unfold score_spec. destruct Hc as (Ha & Hq & Hfw & Hs & Hhz & _).
  unfold is_u64, is_u32 in *.
  assert (factor (Z.max 0 (now - submit_time job)) (age_horizon config) <=
          factor (Z.max 0 (now' - submit_time job)) (age_horizon config))
    by (apply factor_mono; lia).
  nia.
Qed.

Definition demo_priority : PriorityConfig :=
  MkPriorityConfig PriorityWeights_default (duration_from_secs 3600)
    (MkResources u32_max u64_max u8_max).

Lemma score_exact_and_monotone_witness :
  score (Job_new 0 PriorityClass.High 0 (MkResources 500 0 0) 10) 5 demo_priority FACTOR_SCALE <=
  score (Job_new 0 PriorityClass.High 0 (MkResources 500 0 0) 10) 7200000000000 demo_priority
    FACTOR_SCALE.
Proof.
  apply (score_exact_and_monotone (Job_new 0 PriorityClass.High 0 (MkResources 500 0 0) 10)
           demo_priority 5 FACTOR_SCALE).
  - repeat split; simpl; try lia; constructor.
  - repeat split; simpl; unfold duration_from_secs, sat_mul; lia.
  - unfold FACTOR_SCALE. lia.
  - vm_compute. done.
  - lia.
  - lia.
Defined.

(** A horizon of six hours is beyond that bound: the age factor of a job that
    has waited six hours is lower than that of one that has waited five. *)
Example age_factor_wraps :
  let horizon := duration_from_secs 21600 in
  factor (duration_from_secs 21600) horizon < factor (duration_from_secs 18000) horizon.
Proof. vm_compute. done. Qed.

(** ** The order *)

(** [a] sorts strictly after [b]: the proposition behind [a > b]. *)
Definition key_gt (a b : OrderKey) : Prop :=
  key_score b < key_score a ∨ (key_score a = key_score b ∧ key_tiebreak a < key_tiebreak b).

Lemma OrderKey_gt_spec a b : OrderKey_gt a b = true ↔ key_gt a b.
Proof.
  unfold OrderKey_gt, OrderKey_cmp, key_gt.
  destruct (Z.compare_spec (key_score a) (key_score b));
    [destruct (Z.compare_spec (key_tiebreak b) (key_tiebreak a))|..]; split; try done; lia.
Qed.

Lemma OrderKey_gt_false a b : OrderKey_gt a b = false ↔ ¬ key_gt a b.
Proof. rewrite <-OrderKey_gt_spec. by destruct (OrderKey_gt a b). Qed.

#[export] Instance key_gt_dec a b : Decision (key_gt a b).
Proof. unfold key_gt. apply _. Defined.

(** [OrderKey] is a strict total order: it is irreflexive, transitive and
    total on distinct keys; a higher score always sorts first, and equal
    scores fall back to the older (smaller) handle. *)
Theorem order_key_total (a b c : OrderKey) :
  OrderKey_gt a a = false ∧
  (OrderKey_gt a b = true → OrderKey_gt b c = true → OrderKey_gt a c = true) ∧
  (OrderKey_gt a b = true ∨ a = b ∨ OrderKey_gt b a = true) ∧
  (∀ s i s' i', OrderKey_gt (OrderKey_new s i) (OrderKey_new s' i') = true ↔
                s' < s ∨ (s = s' ∧ i < i')).
Proof.
  rewrite !OrderKey_gt_spec, OrderKey_gt_false. unfold key_gt.
  split; [lia|]. split; [lia|]. split.
  - destruct a as [s i], b as [s' i']. simpl.
    destruct (Z.lt_trichotomy s s') as [?|[->|?]]; [lia| |lia].
    destruct (Z.lt_trichotomy i i') as [?|[->|?]]; [lia|auto|lia].
  - intros. rewrite OrderKey_gt_spec. done.
Qed.

Lemma order_key_total_witness :
  OrderKey_gt (OrderKey_new 9 4) (OrderKey_new 9 7) = true ∧
  OrderKey_gt (OrderKey_new 9 4) (OrderKey_new 3 0) = true.
Proof.
  split; [reflexivity|].
  apply (proj1 (proj2 (order_key_total (OrderKey_new 9 4) (OrderKey_new 9 7) (OrderKey_new 3 0))));
    reflexivity.
Defined.
