(* ===== verification/ReadySet.v ===== *)
(** * The ready set

    [crates/tasker-core/src/policy/ready_set.rs]: an indexed binary heap per
    priority class.  The heap keeps scores and ids in parallel arrays and a
    dense position table; every index expression of the code panics out of
    range here too.  The theorems: the operations never panic, keep the
    representation and the heap order, and drain the entries in strict
    priority order. *)

From stdpp Require Import base list numbers option sorting sets.
From Stdlib Require Import ZArith Lia.
From S2P Require Import Prelude Domain Arena Job Priority.
Open Scope Z_scope.

Definition ABSENT : Z := u32_max.

Record ReadyEntry : Type := MkReadyEntry {
  re_class : PriorityClass;
  re_job : JobId;
  re_score : Score;
}.

#[export] Instance ReadyEntry_eq_dec : EqDecision ReadyEntry.
Proof. solve_decision. Defined.

Record PriorityHeap : Type := MkPriorityHeap {
  scores : list Score;
  ids : list JobId;
  positions : list Z;
}.

Definition heap_new : PriorityHeap := MkPriorityHeap [] [] [].

(** The capacity hints of [reserve_slots] leave no trace in the model. *)
Definition heap_reserve_slots (h : PriorityHeap) (slots : Z) : PriorityHeap :=
  if Z.of_nat (length (positions h)) <? slots
  then MkPriorityHeap (scores h) (ids h) (vec_grow (positions h) (Z.to_nat slots) ABSENT)
  else h.

Definition heap_with_slots (slots : Z) : PriorityHeap := heap_reserve_slots heap_new slots.

Definition heap_len (h : PriorityHeap) : nat := length (ids h).

Definition heap_is_empty (h : PriorityHeap) : bool := (length (ids h) =? 0)%nat.

Definition heap_clear (h : PriorityHeap) : exec PriorityHeap :=
  let! positions' := exec_fold (fun ps id => vec_put ps (JobId_index id) ABSENT)
                               (positions h) (ids h) in
  Done (MkPriorityHeap [] [] positions').

Definition slot_of (h : PriorityHeap) (job : JobId) : option nat :=
  match vec_get (positions h) (JobId_index job) with
  | None => None
  | Some position =>
      if position =? ABSENT then None
      else
        match vec_get (ids h) position with
        | Some id => if id =? job then Some (Z.to_nat position) else None
        | None => None
        end
  end.

Definition heap_contains (h : PriorityHeap) (job : JobId) : bool :=
  match slot_of h job with Some _ => true | None => false end.

Definition key_at (h : PriorityHeap) (position : nat) : exec OrderKey :=
  let! s := nth_at (scores h) position in
  let! id := nth_at (ids h) position in
  Done (OrderKey_new s id).

Definition heap_swap (h : PriorityHeap) (a b : nat) : exec PriorityHeap :=
  let! scores' := vec_swap (scores h) a b in
  let! ids' := vec_swap (ids h) a b in
  let! ida := nth_at ids' a in
  let! pa := u32_from_usize a in
  let! positions1 := vec_put (positions h) (JobId_index ida) pa in
  let! idb := nth_at ids' b in
  let! pb := u32_from_usize b in
  let! positions2 := vec_put positions1 (JobId_index idb) pb in
  Done (MkPriorityHeap scores' ids' positions2).

Fixpoint sift_up_loop (fuel : nat) (h : PriorityHeap) (position : nat) : exec PriorityHeap :=
  match position with
  | O => Done h
  | S _ =>
      match fuel with
      | O => NoFuel
      | S fuel' =>
          let parent := ((position - 1) / 2)%nat in
          let! k := key_at h position in
          let! kp := key_at h parent in
          if OrderKey_gt k kp then
            let! h' := heap_swap h position parent in
            sift_up_loop fuel' h' parent
          else Done h
      end
  end.

(** The position decreases, so it is fuel enough. *)
Definition sift_up (h : PriorityHeap) (position : nat) : exec PriorityHeap :=
  sift_up_loop position h position.

(** [x < len && key_at(x) > key_at(largest)], with its short circuit. *)
Definition child_outranks (h : PriorityHeap) (len x largest : nat) : exec bool :=
  if (x <? len)%nat then
    let! kx := key_at h x in
    let! kl := key_at h largest in
    Done (OrderKey_gt kx kl)
  else Done false.

Fixpoint sift_down_loop (fuel : nat) (len : nat) (h : PriorityHeap) (position : nat)
  : exec PriorityHeap :=
  match fuel with
  | O => NoFuel
  | S fuel' =>
      let left := (position * 2 + 1)%nat in
      let right := (left + 1)%nat in
      let! lgt := child_outranks h len left position in
      let largest := if lgt then left else position in
      let! rgt := child_outranks h len right largest in
      let largest := if rgt then right else largest in
      if (largest =? position)%nat then Done h
      else
        let! h' := heap_swap h position largest in
        sift_down_loop fuel' len h' largest
  end.

(** The position grows and stays below the length: [len + 1] rounds suffice. *)
Definition sift_down (h : PriorityHeap) (position : nat) : exec PriorityHeap :=
  let len := length (ids h) in
  sift_down_loop (S len) len h position.

Definition heap_update (h : PriorityHeap) (job : JobId) (score : Score)
  : exec (PriorityHeap * bool) :=
  match slot_of h job with
  | None => Done (h, false)
  | Some position =>
      let! previous := nth_at (scores h) position in
      let! scores' := nth_put (scores h) position score in
      let h' := MkPriorityHeap scores' (ids h) (positions h) in
      if previous <? score then
        let! h'' := sift_up h' position in Done (h'', true)
      else if score <? previous then
        let! h'' := sift_down h' position in Done (h'', true)
      else Done (h', true)
  end.

Definition heap_push (h : PriorityHeap) (job : JobId) (score : Score) : exec PriorityHeap :=
  let! '(h, updated) := heap_update h job score in
  if (updated : bool) then Done h
  else
    let h := heap_reserve_slots h (JobId_index job + 1) in
    let position := length (ids h) in
    let! p := u32_from_usize position in
    let! positions' := vec_put (positions h) (JobId_index job) p in
    sift_up (MkPriorityHeap (scores h ++ [score]) (ids h ++ [job]) positions') position.

Definition peek_max (h : PriorityHeap) : exec (option (JobId * Score)) :=
  match ids h with
  | [] => Done None
  | job :: _ => let! s := nth_at (scores h) 0 in Done (Some (job, s))
  end.

(** [Vec::pop] with its result dropped. *)
Definition vec_pop {A} (v : list A) : list A := take (length v - 1) v.

Definition remove_at (h : PriorityHeap) (position : nat) : exec PriorityHeap :=
  let last := (length (ids h) - 1)%nat in
  let! id := nth_at (ids h) position in
  let! positions1 := vec_put (positions h) (JobId_index id) ABSENT in
  if (position =? last)%nat
  then Done (MkPriorityHeap (vec_pop (scores h)) (vec_pop (ids h)) positions1)
  else
    let! scores1 := vec_swap (scores h) position last in
    let! ids1 := vec_swap (ids h) position last in
    let scores2 := vec_pop scores1 in
    let ids2 := vec_pop ids1 in
    let! moved := nth_at ids2 position in
    let! p := u32_from_usize position in
    let! positions2 := vec_put positions1 (JobId_index moved) p in
    let! h1 := sift_down (MkPriorityHeap scores2 ids2 positions2) position in
    sift_up h1 position.

Definition pop_max (h : PriorityHeap) : exec (PriorityHeap * option (JobId * Score)) :=
  match ids h with
  | [] => Done (h, None)
  | job :: _ =>
      let! s := nth_at (scores h) 0 in
      let! h' := remove_at h 0 in
      Done (h', Some (job, s))
  end.

Definition heap_remove (h : PriorityHeap) (job : JobId) : exec (PriorityHeap * bool) :=
  match slot_of h job with
  | None => Done (h, false)
  | Some position => let! h' := remove_at h position in Done (h', true)
  end.

(** ** One heap per class *)

Record ReadySet : Type := MkReadySet { buckets : list PriorityHeap }.

Definition ready_new : ReadySet := MkReadySet (replicate PriorityClass_COUNT heap_new).

Definition ready_reserve_slots (rs : ReadySet) (slots : Z) : ReadySet :=
  MkReadySet (map (fun b => heap_reserve_slots b slots) (buckets rs)).

Definition ready_with_slots (slots : Z) : ReadySet := ready_reserve_slots ready_new slots.

Definition ready_insert (rs : ReadySet) (class : PriorityClass) (job : JobId) (score : Score)
  : exec ReadySet :=
  let! b := vec_at (buckets rs) (ordinal class) in
  let! b' := heap_push b job score in
  let! bs := vec_put (buckets rs) (ordinal class) b' in
  Done (MkReadySet bs).

Definition ready_remove (rs : ReadySet) (class : PriorityClass) (job : JobId)
  : exec (ReadySet * bool) :=
  let! b := vec_at (buckets rs) (ordinal class) in
  let! '(b', removed) := heap_remove b job in
  let! bs := vec_put (buckets rs) (ordinal class) b' in
  Done (MkReadySet bs, removed).

Definition ready_len (rs : ReadySet) : nat := sum_list (map heap_len (buckets rs)).

Definition ready_is_empty (rs : ReadySet) : bool := forallb heap_is_empty (buckets rs).

Definition ready_clear (rs : ReadySet) : exec ReadySet :=
  let! bs := exec_fold (fun acc b => let! b' := heap_clear b in Done (acc ++ [b'])) []
                       (buckets rs) in
  Done (MkReadySet bs).

(** The loop of [peek_next] over the classes, highest first. *)
Fixpoint peek_classes (rs : ReadySet) (classes : list PriorityClass) : exec (option ReadyEntry) :=
  match classes with
  | [] => Done None
  | class :: rest =>
      let! b := vec_at (buckets rs) (ordinal class) in
      let! o := peek_max b in
      match o with
      | Some (job, s) => Done (Some (MkReadyEntry class job s))
      | None => peek_classes rs rest
      end
  end.

Definition peek_next (rs : ReadySet) : exec (option ReadyEntry) :=
  peek_classes rs (rev PriorityClass_ALL).

(** The loop of [pop_next]. *)
Fixpoint pop_classes (rs : ReadySet) (classes : list PriorityClass)
  : exec (ReadySet * option ReadyEntry) :=
  match classes with
  | [] => Done (rs, None)
  | class :: rest =>
      let! b := vec_at (buckets rs) (ordinal class) in
      let! '(b', o) := pop_max b in
      let! bs := vec_put (buckets rs) (ordinal class) b' in
      match o with
      | Some (job, s) => Done (MkReadySet bs, Some (MkReadyEntry class job s))
      | None => pop_classes (MkReadySet bs) rest
      end
  end.

Definition pop_next (rs : ReadySet) : exec (ReadySet * option ReadyEntry) :=
  pop_classes rs (rev PriorityClass_ALL).

(** [for _ in 0..limit] with its early [break]; [limit] is a [usize], so the
    loop is bounded by fuel and counts the limit down. *)
Fixpoint drain_loop (fuel : nat) (rs : ReadySet) (limit : Z) (out : list ReadyEntry)
  : exec (ReadySet * list ReadyEntry) :=
  if limit <=? 0 then Done (rs, out)
  else
    match fuel with
    | O => NoFuel
    | S fuel' =>
        let! '(rs', o) := pop_next rs in
        match o with
        | Some entry => drain_loop fuel' rs' (limit - 1) (out ++ [entry])
        | None => Done (rs', out)
        end
    end.

(** Each round but the last removes an entry: [len + 1] rounds suffice. *)
Definition drain_ordered_into (rs : ReadySet) (limit : Z) : exec (ReadySet * list ReadyEntry) :=
  drain_loop (S (ready_len rs)) rs limit [].

Definition reinsert (rs : ReadySet) (entry : ReadyEntry) : exec ReadySet :=
  ready_insert rs (re_class entry) (re_job entry) (re_score entry).

(** ** Representation of one heap *)

(** The heap read as one array of (score, id) pairs. *)
Abbreviation HeapArray := (list (Score * JobId)) (only parsing).

Definition entry_key (e : Score * JobId) : OrderKey := OrderKey_new e.1 e.2.

(** [a] outranks [b]. *)
Definition outranks (a b : Score * JobId) : Prop := key_gt (entry_key a) (entry_key b).

(** The position table records exactly the array. *)
Record positions_ok (ps : list Z) (L : HeapArray) : Prop := {
  pos_fwd : ∀ i e, L !! i = Some e → vec_get ps (JobId_index e.2) = Some (Z.of_nat i);
  pos_bwd : ∀ k p, vec_get ps k = Some p → p ≠ ABSENT →
    ∃ i e, L !! i = Some e ∧ p = Z.of_nat i ∧ JobId_index e.2 = k;
}.

(** [h] stores the array [L]; positions fit [u32] and differ from [ABSENT]. *)
Record heap_rep (h : PriorityHeap) (L : HeapArray) : Prop := {
  rep_scores : scores h = L.*1;
  rep_ids : ids h = L.*2;
  rep_pos : positions_ok (positions h) L;
  rep_len : Z.of_nat (length L) <= u32_max;
}.

Lemma pos_inj ps L i j e f :
  positions_ok ps L → L !! i = Some e → L !! j = Some f →
  JobId_index e.2 = JobId_index f.2 → i = j.
Proof.
  intros Hp Hi Hj E. apply (pos_fwd _ _ Hp) in Hi, Hj. rewrite E in Hi. simplify_eq. lia.
Qed.

Lemma key_at_Done h L i e : heap_rep h L → L !! i = Some e → key_at h i = Done (entry_key e).
Proof.
  intros Hr Hi. unfold key_at. rewrite (rep_scores _ _ Hr), (rep_ids _ _ Hr).
  rewrite (nth_at_Done _ _ e.1) by by rewrite list_lookup_fmap, Hi.
  rewrite (nth_at_Done _ _ e.2) by by rewrite list_lookup_fmap, Hi. done.
Qed.

Lemma slot_of_spec h L job i :
  heap_rep h L → slot_of h job = Some i ↔ ∃ s, L !! i = Some (s, job).
Proof.
  intros Hr. unfold slot_of. split.
  - destruct (vec_get (positions h) _) as [p|] eqn:Ep; [|done].
    destruct (Z.eqb_spec p ABSENT); [done|].
    destruct (vec_get (ids h) p) as [id|] eqn:Ei; [|done].
    destruct (Z.eqb_spec id job) as [->|]; [|done]. intros [= <-].
    apply vec_get_Some in Ei as [_ Ei]. rewrite (rep_ids _ _ Hr), list_lookup_fmap in Ei.
    destruct (L !! Z.to_nat p) as [[s id']|]; simplify_eq/=. by exists s.
  - intros (s & Hi). pose proof (pos_fwd _ _ (rep_pos _ _ Hr) _ _ Hi) as Hp. simpl in Hp.
    rewrite Hp.
    pose proof (lookup_lt_Some _ _ _ Hi). pose proof (rep_len _ _ Hr).
    destruct (Z.eqb_spec (Z.of_nat i) ABSENT) as [E|]; [unfold ABSENT in E; lia|].
    rewrite vec_get_lookup, Nat2Z.id, (rep_ids _ _ Hr), list_lookup_fmap, Hi by lia. simpl.
    by rewrite Z.eqb_refl.
Qed.

Lemma slot_of_None h L job :
  heap_rep h L → slot_of h job = None ↔ job ∉ L.*2.
Proof.
  intros Hr. split.
  - intros Hn ([s j] & -> & Hin)%list_elem_of_fmap. apply list_elem_of_lookup in Hin as (i & Hi).
    simpl in Hn. assert (slot_of h j = Some i) by (eapply slot_of_spec; eauto). congruence.
  - intros Hn. destruct (slot_of h job) as [i|] eqn:E; [|done].
    apply (slot_of_spec _ _ _ _ Hr) in E as (s & Hi). destruct Hn.
    apply list_elem_of_fmap. exists (s, job). split; [done|]. by eapply list_elem_of_lookup_2.
Qed.

(** Writing positions [a] and [b] of an array whose other positions stand. *)
Lemma positions_ok_swap ps L a b x y :
  positions_ok ps L → L !! a = Some x → L !! b = Some y →
  positions_ok (<[Z.to_nat (JobId_index x.2) := Z.of_nat b]>
                 (<[Z.to_nat (JobId_index y.2) := Z.of_nat a]> ps)) (list_swap L a b).
Proof.
  intros Hp Ha Hb. pose proof (lookup_lt_Some _ _ _ Ha). pose proof (lookup_lt_Some _ _ _ Hb).
  pose proof (vec_get_range _ _ _ (pos_fwd _ _ Hp _ _ Ha)).
  pose proof (vec_get_range _ _ _ (pos_fwd _ _ Hp _ _ Hb)).
  assert (∀ k, vec_get (<[Z.to_nat (JobId_index x.2) := Z.of_nat b]>
                 (<[Z.to_nat (JobId_index y.2) := Z.of_nat a]> ps)) k =
     if decide (JobId_index x.2 = k) then Some (Z.of_nat b)
     else if decide (JobId_index y.2 = k) then Some (Z.of_nat a) else vec_get ps k) as Hget.
  { intros k. rewrite vec_get_insert by by rewrite length_insert. by rewrite vec_get_insert. }
  split.
  - intros i e. rewrite list_swap_lookup, Hget by done. intros Hi.
    assert (∀ j f, L !! j = Some f → JobId_index f.2 = JobId_index e.2 → f = e) as Hu.
    { intros j f Hj E. repeat case_decide; subst;
        rewrite (pos_inj _ _ _ _ _ _ Hp Hj Hi E) in Hj; congruence. }
    repeat case_decide; subst; simplify_eq; try done.
    + by rewrite (pos_inj _ _ _ _ _ _ Hp Ha Hb).
    + by destruct (pos_inj _ _ _ _ _ _ Hp Ha Hi).
    + by destruct (pos_inj _ _ _ _ _ _ Hp Hb Hi).
    + by apply (pos_fwd _ _ Hp).
  - intros k p. rewrite Hget. intros Hk Hne.
    repeat case_decide; simplify_eq.
    + exists b, x. rewrite list_swap_lookup by done. split; [|done].
      repeat case_decide; congruence.
    + exists a, y. rewrite list_swap_lookup by done. split; [|done].
      by rewrite decide_True.
    + destruct (pos_bwd _ _ Hp _ _ Hk Hne) as (i & e & Hi & -> & <-).
      exists i, e. rewrite list_swap_lookup by done. split; [|done].
      repeat case_decide; congruence.
Qed.

Lemma heap_swap_Done h L a b :
  heap_rep h L → (a < length L)%nat → (b < length L)%nat →
  ∃ h', heap_swap h a b = Done h' ∧ heap_rep h' (list_swap L a b).
Proof.
  intros Hr Ha Hb. pose proof (rep_len _ _ Hr).
  destruct (lookup_lt_is_Some_2 _ _ Ha) as [x Hx], (lookup_lt_is_Some_2 _ _ Hb) as [y Hy].
  pose proof (vec_get_range _ _ _ (pos_fwd _ _ (rep_pos _ _ Hr) _ _ Hx)).
  pose proof (vec_get_range _ _ _ (pos_fwd _ _ (rep_pos _ _ Hr) _ _ Hy)).
  unfold heap_swap. rewrite (rep_scores _ _ Hr), (rep_ids _ _ Hr).
  rewrite (vec_swap_Done L.*1) by by rewrite length_fmap. simpl.
  rewrite (vec_swap_Done L.*2) by by rewrite length_fmap. simpl. rewrite <-!list_swap_fmap.
  rewrite (nth_at_Done _ a y.2)
    by (rewrite list_lookup_fmap, list_swap_lookup, decide_True, Hy by done; done). simpl.
  rewrite u32_from_usize_Done by lia. simpl. rewrite vec_put_Done by done. simpl.
  rewrite (nth_at_Done _ b x.2).
  2:{ rewrite list_lookup_fmap, list_swap_lookup by done. repeat case_decide; subst; simplify_eq;
      by rewrite ?Hx, ?Hy. }
  simpl. rewrite u32_from_usize_Done by lia. simpl.
  rewrite vec_put_Done by by rewrite length_insert. simpl.
  eexists. split; [done|]. split; simpl; [done..| |by rewrite length_list_swap].
  apply positions_ok_swap; [apply Hr|done|done].
Qed.

(** ** Heap order *)

Definition heap_parent (j : nat) : nat := ((j - 1) / 2)%nat.

Lemma heap_parent_lt j : (0 < j)%nat → (heap_parent j < j)%nat.
Proof. unfold heap_parent. intros. apply Nat.Div0.div_lt_upper_bound; lia. Qed.

Lemma heap_parent_child c i :
  (0 < c)%nat → heap_parent c = i ↔ (c = i * 2 + 1 ∨ c = i * 2 + 1 + 1)%nat.
Proof.
  unfold heap_parent. intros Hc. pose proof (Nat.div_mod_eq (c - 1) 2).
  pose proof (Nat.mod_upper_bound (c - 1) 2). lia.
Qed.

(** Solves goals about the order once the entries at hand are compared. *)
Ltac order_crush := unfold outranks, key_gt, entry_key, OrderKey_new in *; simpl in *; lia.

(** The entry at [j] does not outrank its parent. *)
Definition ordered_at (L : HeapArray) (j : nat) : Prop :=
  ∀ x p, (0 < j)%nat → L !! j = Some x → L !! heap_parent j = Some p → ¬ outranks x p.

(** The children of [i] do not outrank the parent of [i]. *)
Definition grand_ok (L : HeapArray) (i : nat) : Prop :=
  ∀ c x p, (0 < i)%nat → (0 < c)%nat → heap_parent c = i →
    L !! c = Some x → L !! heap_parent i = Some p → ¬ outranks x p.

Definition heap_ordered (L : HeapArray) : Prop := ∀ j, ordered_at L j.

(** Ordered except possibly between [i] and its parent. *)
Definition up_ok (L : HeapArray) (i : nat) : Prop :=
  (∀ j, j ≠ i → ordered_at L j) ∧ grand_ok L i.

(** Ordered except possibly between [i] and its children. *)
Definition down_ok (L : HeapArray) (i : nat) : Prop :=
  (∀ j, heap_parent j ≠ i ∨ j = 0%nat → ordered_at L j) ∧ grand_ok L i.

(** Ordered except possibly around [i], on either side. *)
Definition around_ok (L : HeapArray) (i : nat) : Prop :=
  (∀ j, j ≠ i → heap_parent j ≠ i → ordered_at L j) ∧ grand_ok L i.

Lemma heap_ordered_grand L i : heap_ordered L → grand_ok L i.
Proof.
  intros Ho c x p Hi Hc <- Hx Hp.
  destruct (L !! heap_parent c) as [q|] eqn:Hq.
  - pose proof (Ho c x q Hc Hx Hq). pose proof (Ho (heap_parent c) q p Hi Hq Hp). order_crush.
  - apply lookup_ge_None in Hq. pose proof (lookup_lt_Some _ _ _ Hx).
    pose proof (heap_parent_lt c Hc). lia.
Qed.

Lemma heap_ordered_up L i : heap_ordered L → up_ok L i.
Proof. intros Ho. split; [intros j _; apply Ho|by apply heap_ordered_grand]. Qed.

Lemma up_ok_stop L i :
  up_ok L i → ordered_at L i → heap_ordered L.
Proof. intros [Ho _] Hi j. destruct (decide (j = i)) as [->|]; auto. Qed.

Lemma up_ok_root L : up_ok L 0 → heap_ordered L.
Proof. intros H. eapply up_ok_stop; [done|]. intros x p Hpos. lia. Qed.

Lemma up_ok_swap L i x p :
  up_ok L i → (0 < i)%nat → L !! i = Some x → L !! heap_parent i = Some p → outranks x p →
  up_ok (list_swap L i (heap_parent i)) (heap_parent i).
Proof.
  intros [Ho Hg] Hi Hx Hp Hgt. pose proof (heap_parent_lt i Hi) as Hlt.
  pose proof (lookup_lt_Some _ _ _ Hx). pose proof (lookup_lt_Some _ _ _ Hp).
  split.
  - intros j Hj y q Hpos. rewrite !list_swap_lookup by done. intros Hy Hq.
    pose proof (heap_parent_lt j Hpos).
    destruct (decide (j = i)) as [->|]; [|rewrite decide_False in Hy by done].
    + rewrite decide_False in Hq by lia. rewrite decide_True in Hq by done.
      simplify_eq. order_crush.
    + destruct (decide (heap_parent j = i)) as [E|].
      * simplify_eq. by apply (Hg j).
      * case_decide as E; simplify_eq.
        -- rewrite <-E in Hp. pose proof (Ho j ltac:(done) y p Hpos Hy Hp). order_crush.
        -- by apply (Ho j).
  - intros c y q Hpos Hc Ec. rewrite !list_swap_lookup by done. intros Hy Hq.
    pose proof (heap_parent_lt _ Hpos). pose proof (heap_parent_lt _ Hc).
    rewrite !decide_False in Hq by lia.
    pose proof (Ho (heap_parent i) ltac:(lia) p q Hpos Hp Hq).
    destruct (decide (c = i)) as [->|]; [by simplify_eq|].
    rewrite decide_False in Hy by lia.
    rewrite <-Ec in Hp. pose proof (Ho c ltac:(done) y p Hc Hy Hp). order_crush.
Qed.

Lemma sift_up_loop_spec fuel h L i :
  heap_rep h L → (i < length L)%nat → (i <= fuel)%nat → up_ok L i →
  ∃ h' L', sift_up_loop fuel h i = Done h' ∧ heap_rep h' L' ∧ L' ≡ₚ L ∧ heap_ordered L'.
Proof.
  revert h L i. induction fuel as [|fuel IH]; intros h L i Hr Hi Hf Hup.
  { replace i with 0%nat in * by lia. exists h, L. simpl. eauto using up_ok_root. }
  destruct i as [|i']; [exists h, L; simpl; eauto using up_ok_root|].
  set (i := S i') in *. pose proof (heap_parent_lt i ltac:(lia)).
  destruct (lookup_lt_is_Some_2 _ _ Hi) as [x Hx].
  destruct (lookup_lt_is_Some_2 L (heap_parent i)) as [p Hp]; [lia|].
  cbn [sift_up_loop]. fold i. change ((i - 1) / 2)%nat with (heap_parent i).
  rewrite (key_at_Done _ _ _ _ Hr Hx), (key_at_Done _ _ _ _ Hr Hp). simpl.
  destruct (OrderKey_gt _ _) eqn:E.
  - apply OrderKey_gt_spec in E.
    destruct (heap_swap_Done h L i (heap_parent i) Hr) as (h1 & -> & Hr1); [lia..|]. simpl.
    destruct (IH h1 _ (heap_parent i) Hr1) as (h' & L' & -> & Hr' & Hperm & Ho).
    { rewrite length_list_swap. lia. }
    { lia. }
    { eapply up_ok_swap; eauto. lia. }
    exists h', L'. split; [done|]. split; [done|]. split; [|done].
    by rewrite Hperm, list_swap_Permutation.
  - apply OrderKey_gt_false in E. exists h, L. split; [done|]. split; [done|].
    split; [done|]. eapply up_ok_stop; [done|]. intros y q _ Hy Hq. by simplify_eq.
Qed.

Lemma sift_up_spec h L i :
  heap_rep h L → (i < length L)%nat → up_ok L i →
  ∃ h' L', sift_up h i = Done h' ∧ heap_rep h' L' ∧ L' ≡ₚ L ∧ heap_ordered L'.
Proof. intros. by apply sift_up_loop_spec. Qed.

(** ** Sifting down *)

Lemma child_outranks_Done h L x l el :
  heap_rep h L → L !! l = Some el →
  ∃ b, child_outranks h (length L) x l = Done b ∧
    (b = true ↔ ∃ ex, L !! x = Some ex ∧ outranks ex el).
Proof.
  intros Hr Hl. unfold child_outranks. destruct (Nat.ltb_spec x (length L)) as [Hx|Hx].
  - destruct (lookup_lt_is_Some_2 _ _ Hx) as [ex Hex].
    rewrite (key_at_Done _ _ _ _ Hr Hex), (key_at_Done _ _ _ _ Hr Hl). simpl.
    eexists. split; [done|]. rewrite OrderKey_gt_spec. unfold outranks. naive_solver.
  - exists false. split; [done|]. split; [done|]. intros (ex & ?%lookup_lt_Some & _). lia.
Qed.

(** The body of the loop finds the largest of an entry and its children. *)
Lemma sift_down_largest h L i x :
  heap_rep h L → L !! i = Some x →
  ∃ lgt rgt m y,
    child_outranks h (length L) (i * 2 + 1) i = Done lgt ∧
    child_outranks h (length L) (i * 2 + 1 + 1) (if lgt then i * 2 + 1 else i)%nat = Done rgt ∧
    m = (if rgt then i * 2 + 1 + 1 else if lgt then i * 2 + 1 else i)%nat ∧
    L !! m = Some y ∧ (m = i ∨ (outranks y x ∧ heap_parent m = i ∧ (i < m)%nat)) ∧
    (∀ c z, (0 < c)%nat → heap_parent c = i → L !! c = Some z → ¬ outranks z y).
Proof.
  intros Hr Hx.
  destruct (child_outranks_Done h L (i * 2 + 1) i x Hr Hx) as (lgt & El & Hl).
  assert (∃ yl, L !! (if lgt then i * 2 + 1 else i)%nat = Some yl ∧
                (if lgt then outranks yl x else yl = x)) as (yl & Hyl & Hyx).
  { destruct lgt; [|eauto]. destruct (proj1 Hl eq_refl) as (ex & ? & ?). eauto. }
  destruct (child_outranks_Done h L (i * 2 + 1 + 1) _ yl Hr Hyl) as (rgt & Er & Hrr).
  set (m := (if rgt then i * 2 + 1 + 1 else if lgt then i * 2 + 1 else i)%nat).
  assert (∃ y, L !! m = Some y ∧ (if rgt then outranks y yl else y = yl)) as (y & Hy & Hyy).
  { subst m. destruct rgt; [|eauto]. destruct (proj1 Hrr eq_refl) as (ex & ? & ?). eauto. }
  exists lgt, rgt, m, y. split; [done|]. split; [done|]. split; [done|]. split; [done|].
  pose proof (heap_parent_child (i * 2 + 1) i ltac:(lia)) as P1.
  pose proof (heap_parent_child (i * 2 + 1 + 1) i ltac:(lia)) as P2.
  split.
  - subst m. destruct rgt.
    + right. split; [destruct lgt; subst; order_crush|]. split; [tauto|lia].
    + destruct lgt; [|by left]. right. subst. split; [done|]. split; [tauto|lia].
  - intros c z Hc Hpc Hz. apply heap_parent_child in Hpc as [->| ->]; [| |done].
    + assert (¬ outranks z yl) as Hzl.
      { destruct lgt; simplify_eq.
        - order_crush.
        - intros Hgt. assert (false = true) by (apply Hl; eauto). done. }
      destruct rgt; simplify_eq; order_crush.
    + subst m. destruct rgt; simplify_eq; [order_crush|].
      intros Hgt. assert (false = true) by (apply Hrr; eauto). done.
Qed.

Lemma down_ok_stop L i x :
  down_ok L i → L !! i = Some x →
  (∀ c z, (0 < c)%nat → heap_parent c = i → L !! c = Some z → ¬ outranks z x) →
  heap_ordered L.
Proof.
  intros [Ho _] Hx Hc j. destruct (decide (heap_parent j = i ∧ j ≠ 0%nat)) as [[E Hj]|].
  - intros y p Hpos Hy Hp. rewrite E in Hp. simplify_eq. eauto.
  - apply Ho. destruct (decide (j = 0%nat)); naive_solver.
Qed.

Lemma down_ok_swap L i m x y :
  down_ok L i → L !! i = Some x → L !! m = Some y → outranks y x → heap_parent m = i →
  (i < m)%nat →
  (∀ c z, (0 < c)%nat → heap_parent c = i → L !! c = Some z → ¬ outranks z y) →
  down_ok (list_swap L i m) m.
Proof.
  intros [Ho Hg] Hx Hy Hgt Hpm Him Hmax.
  pose proof (lookup_lt_Some _ _ _ Hx). pose proof (lookup_lt_Some _ _ _ Hy).
  split.
  - intros j Hj z p Hpos. rewrite !list_swap_lookup by done. intros Hz Hp.
    pose proof (heap_parent_lt j Hpos). destruct Hj as [Hj|]; [|lia].
    destruct (decide (heap_parent j = i)) as [E|].
    + simplify_eq. rewrite decide_False in Hz by lia.
      case_decide; simplify_eq; [order_crush|by apply (Hmax j)].
    + rewrite decide_False in Hp by done.
      destruct (decide (j = i)) as [->|].
      * simplify_eq. by apply (Hg m y p Hpos ltac:(lia)).
      * rewrite decide_False in Hz by congruence. apply (Ho j); auto.
  - intros c z p Hpos Hc Ec. rewrite !list_swap_lookup by done. intros Hz Hp.
    pose proof (heap_parent_lt _ Hc). rewrite Hpm, decide_True in Hp by done.
    rewrite !decide_False in Hz by lia. simplify_eq.
    apply (Ho c); [left; lia|done|done|done].
Qed.

Lemma sift_down_loop_spec fuel h L i :
  heap_rep h L → (i < length L)%nat → (length L - i < fuel)%nat → down_ok L i →
  ∃ h' L', sift_down_loop fuel (length L) h i = Done h' ∧ heap_rep h' L' ∧ L' ≡ₚ L ∧
           heap_ordered L'.
Proof.
  revert h L i. induction fuel as [|fuel IH]; intros h L i Hr Hi Hf Hd; [lia|].
  destruct (lookup_lt_is_Some_2 _ _ Hi) as [x Hx]. cbn [sift_down_loop].
  destruct (sift_down_largest h L i x Hr Hx) as (lgt & rgt & m & y & -> & Er & Em & Hy & Hm & Hmax).
  cbn [exec_bind]. rewrite Er. cbn [exec_bind]. rewrite <-Em.
  destruct (Nat.eqb_spec m i) as [->|Hne].
  - simplify_eq. exists h, L. repeat (split; [done|]). by eapply down_ok_stop.
  - destruct Hm as [|(Hgt & Hpm & Him)]; [done|].
    pose proof (lookup_lt_Some _ _ _ Hy).
    destruct (heap_swap_Done h L i m Hr) as (h1 & -> & Hr1); [lia..|]. cbn [exec_bind].
    destruct (IH h1 _ m Hr1) as (h' & L' & E & Hr' & Hperm & Ho);
      rewrite ?length_list_swap in *; [lia|lia|by eapply down_ok_swap|].
    exists h', L'. split; [done|]. split; [done|]. split; [|done].
    by rewrite Hperm, list_swap_Permutation.
Qed.

Lemma sift_down_spec h L i :
  heap_rep h L → (i < length L)%nat → down_ok L i →
  ∃ h' L', sift_down h i = Done h' ∧ heap_rep h' L' ∧ L' ≡ₚ L ∧ heap_ordered L'.
Proof.
  intros Hr Hi Hd. unfold sift_down. rewrite (rep_ids _ _ Hr), length_fmap.
  apply sift_down_loop_spec; [done|done|lia|done].
Qed.

(** ** The heap operations *)

(** The invariant of a heap: it stores the array [L], and [L] is ordered. *)
Definition heap_wf (h : PriorityHeap) (L : HeapArray) : Prop := heap_rep h L ∧ heap_ordered L.

Lemma heap_new_wf : heap_wf heap_new [].
Proof.
  split; [split; simpl; [done|done| |lia]|].
  - split; [done|]. intros k p ?%vec_get_range. simpl in *. lia.
  - intros j x p _ ?. done.
Qed.

Lemma positions_ok_ids ps L L' : L.*2 = L'.*2 → positions_ok ps L → positions_ok ps L'.
Proof.
  intros E Hp.
  assert (∀ i e, L' !! i = Some e → ∃ e', L !! i = Some e' ∧ e'.2 = e.2) as Hto.
  { intros i e He. apply (f_equal (lookup i)) in E. rewrite !list_lookup_fmap, He in E.
    destruct (L !! i) as [e'|]; simplify_eq/=. eauto. }
  assert (∀ i e, L !! i = Some e → ∃ e', L' !! i = Some e' ∧ e'.2 = e.2) as Hfrom.
  { intros i e He. apply (f_equal (lookup i)) in E. rewrite !list_lookup_fmap, He in E.
    destruct (L' !! i) as [e'|]; simplify_eq/=. eauto. }
  split.
  - intros i e (e' & He & <-)%Hto. by apply (pos_fwd _ _ Hp).
  - intros k p Hk Hne. destruct (pos_bwd _ _ Hp _ _ Hk Hne) as (i & e & Hi & -> & <-).
    destruct (Hfrom _ _ Hi) as (e' & ? & <-). eauto.
Qed.

Lemma heap_rep_set_score h L i s job sc :
  heap_rep h L → L !! i = Some (s, job) →
  heap_rep (MkPriorityHeap (<[i := sc]> (scores h)) (ids h) (positions h)) (<[i := (sc, job)]> L).
Proof.
  intros [Hs Hi Hp Hl] HL.
  assert (L.*2 = (<[i := (sc, job)]> L).*2) as E.
  { rewrite list_fmap_insert. simpl. rewrite list_insert_id; [done|].
    by rewrite list_lookup_fmap, HL. }
  split; simpl.
  - by rewrite Hs, list_fmap_insert.
  - by rewrite <-E.
  - by eapply positions_ok_ids.
  - by rewrite length_insert.
Qed.

(** Raising a score breaks the order only upwards, lowering it only downwards. *)
Lemma ordered_raise L i s sc job :
  heap_ordered L → L !! i = Some (s, job) → s <= sc → up_ok (<[i := (sc, job)]> L) i.
Proof.
  intros Ho Hi Hle. pose proof (lookup_lt_Some _ _ _ Hi). split.
  - intros j Hj x p Hpos. rewrite list_lookup_insert_ne by done. intros Hx Hp.
    destruct (decide (heap_parent j = i)) as [E|].
    + rewrite E, list_lookup_insert_eq in Hp by done. rewrite <-E in Hi.
      pose proof (Ho j x (s, job) Hpos Hx Hi). simplify_eq. order_crush.
    + rewrite list_lookup_insert_ne in Hp by done. by apply (Ho j).
  - intros c x p Hpos Hc Ec. pose proof (heap_parent_lt _ Hpos). pose proof (heap_parent_lt _ Hc).
    rewrite !list_lookup_insert_ne by lia. intros Hx Hp.
    by apply (heap_ordered_grand L i Ho c).
Qed.

Lemma ordered_lower L i s sc job :
  heap_ordered L → L !! i = Some (s, job) → sc <= s → down_ok (<[i := (sc, job)]> L) i.
Proof.
  intros Ho Hi Hle. pose proof (lookup_lt_Some _ _ _ Hi). split.
  - intros j Hj x p Hpos. destruct Hj as [Hj|]; [|lia].
    rewrite (list_lookup_insert_ne _ _ (heap_parent j)) by done. intros Hx Hp.
    destruct (decide (j = i)) as [->|].
    + rewrite list_lookup_insert_eq in Hx by done. simplify_eq.
      pose proof (Ho i (s, job) p Hpos Hi Hp). order_crush.
    + rewrite list_lookup_insert_ne in Hx by done. by apply (Ho j).
  - intros c x p Hpos Hc Ec. pose proof (heap_parent_lt _ Hpos). pose proof (heap_parent_lt _ Hc).
    rewrite !list_lookup_insert_ne by lia. intros Hx Hp.
    by apply (heap_ordered_grand L i Ho c).
Qed.

Lemma heap_update_absent h L job sc :
  heap_wf h L → job ∉ L.*2 → heap_update h job sc = Done (h, false).
Proof. intros [Hr _] Hn. unfold heap_update. by rewrite (proj2 (slot_of_None _ _ _ Hr) Hn). Qed.

Lemma heap_update_spec h L i s job sc :
  heap_wf h L → L !! i = Some (s, job) →
  ∃ h' L', heap_update h job sc = Done (h', true) ∧ heap_wf h' L' ∧ L' ≡ₚ <[i := (sc, job)]> L.
Proof.
  intros [Hr Ho] Hi. pose proof (lookup_lt_Some _ _ _ Hi) as Hlt. unfold heap_update.
  rewrite (proj2 (slot_of_spec _ _ _ _ Hr) (ex_intro _ s Hi)).
  pose proof (heap_rep_set_score _ _ _ _ _ sc Hr Hi) as Hr'.
  rewrite (nth_at_Done _ i s) by (by rewrite (rep_scores _ _ Hr), list_lookup_fmap, Hi). cbn [exec_bind].
  rewrite nth_put_Done by (by rewrite (rep_scores _ _ Hr), length_fmap). cbn [exec_bind].
  destruct (Z.ltb_spec s sc).
  { destruct (sift_up_spec _ _ i Hr') as (h' & L' & -> & Hr2 & Hperm & Ho2).
    - by rewrite length_insert.
    - eapply ordered_raise; eauto with lia.
    - exists h', L'. done. }
  destruct (Z.ltb_spec sc s).
  { destruct (sift_down_spec _ _ i Hr') as (h' & L' & -> & Hr2 & Hperm & Ho2).
    - by rewrite length_insert.
    - eapply ordered_lower; eauto with lia.
    - exists h', L'. done. }
  replace sc with s in * by lia.
  eexists _, _. split; [done|]. split; [|done]. split; [done|]. by rewrite list_insert_id.
Qed.

(** *** Insertion *)

(** No other handle of [job]'s arena index is in the heap. *)
Definition index_free (L : HeapArray) (job : JobId) : Prop :=
  ∀ e, e ∈ L → JobId_index e.2 = JobId_index job → e.2 = job.

Lemma heap_rep_reserve h L n : heap_rep h L → heap_rep (heap_reserve_slots h n) L.
Proof.
  intros [Hs Hi Hp Hl]. unfold heap_reserve_slots. destruct (_ <? n); [|done].
  split; simpl; [done..| |done].
  assert (∀ k p, vec_get (vec_grow (positions h) (Z.to_nat n) ABSENT) k = Some p →
            vec_get (positions h) k = Some p ∨ p = ABSENT) as Hg.
  { intros k p [? H]%vec_get_Some. apply lookup_vec_grow in H as [?|[_ ->]]; [left|by right].
    by apply vec_get_Some. }
  split.
  - intros i e He. apply (pos_fwd _ _ Hp) in He. apply vec_get_Some in He as [? He].
    apply vec_get_Some. split; [done|]. apply lookup_vec_grow. by left.
  - intros k p [Hk|]%Hg Hne; [|done]. by apply (pos_bwd _ _ Hp).
Qed.

Lemma heap_reserve_length h n : n <= Z.of_nat (length (positions (heap_reserve_slots h n))).
Proof.
  unfold heap_reserve_slots. destruct (Z.ltb_spec (Z.of_nat (length (positions h))) n); [|done].
  simpl. rewrite length_vec_grow. lia.
Qed.

Lemma positions_ok_snoc ps L s job :
  positions_ok ps L → index_free L job → job ∉ L.*2 →
  JobId_index job < Z.of_nat (length ps) →
  positions_ok (<[Z.to_nat (JobId_index job) := Z.of_nat (length L)]> ps) (L ++ [(s, job)]).
Proof.
  intros Hp Hf Hn Hr. pose proof (JobId_index_range job). split.
  - intros i e He. rewrite vec_get_insert by lia.
    apply lookup_app_Some in He as [He|[? He]].
    + rewrite decide_False; [by apply (pos_fwd _ _ Hp)|]. intros E. apply Hn.
      apply list_elem_of_fmap. exists e. split; [|by eapply list_elem_of_lookup_2].
      symmetry. apply Hf; [by eapply list_elem_of_lookup_2|done].
    + apply list_lookup_singleton_Some in He as [? <-]. simpl. rewrite decide_True by done.
      f_equal. lia.
  - intros k p. rewrite vec_get_insert by lia. case_decide as Ek; intros Hk Hne.
    + simplify_eq. exists (length L), (s, job). split; [|done].
      by rewrite lookup_app_r, Nat.sub_diag by lia.
    + destruct (pos_bwd _ _ Hp _ _ Hk Hne) as (i & e & Hi & -> & <-).
      exists i, e. split; [|done]. by apply lookup_app_l_Some.
Qed.

Lemma heap_ordered_snoc L e : heap_ordered L → up_ok (L ++ [e]) (length L).
Proof.
  intros Ho. split.
  - intros j Hj x p Hpos Hx Hp. pose proof (heap_parent_lt j Hpos).
    pose proof (lookup_lt_Some _ _ _ Hx) as Hlt. rewrite length_app in Hlt. simpl in Hlt.
    rewrite lookup_app_l in Hx, Hp by lia. by apply (Ho j).
  - intros c x p _ Hc Ec Hx _. pose proof (heap_parent_lt c Hc).
    apply lookup_lt_Some in Hx. rewrite length_app in Hx. simpl in Hx. lia.
Qed.

Lemma heap_push_new h L job sc :
  heap_wf h L → job ∉ L.*2 → index_free L job → Z.of_nat (length L) < u32_max →
  ∃ h' L', heap_push h job sc = Done h' ∧ heap_wf h' L' ∧ L' ≡ₚ (sc, job) :: L.
Proof.
  intros Hwf Hn Hf Hl. pose proof Hwf as [Hr Ho].
  unfold heap_push. rewrite (heap_update_absent _ _ _ _ Hwf Hn). cbn [exec_bind].
  pose proof (heap_rep_reserve _ _ (JobId_index job + 1) Hr) as Hr1.
  pose proof (heap_reserve_length h (JobId_index job + 1)). pose proof (JobId_index_range job).
  set (h1 := heap_reserve_slots h (JobId_index job + 1)) in *.
  rewrite (rep_ids _ _ Hr1), length_fmap, u32_from_usize_Done by lia. cbn [exec_bind].
  rewrite vec_put_Done by lia. cbn [exec_bind].
  destruct (sift_up_spec (MkPriorityHeap (scores h1 ++ [sc]) (ids h1 ++ [job])
     (<[Z.to_nat (JobId_index job) := Z.of_nat (length L)]> (positions h1)))
     (L ++ [(sc, job)]) (length L)) as (h' & L' & E & Hr' & Hperm & Ho').
  - split; simpl.
    + by rewrite (rep_scores _ _ Hr1), fmap_app.
    + by rewrite (rep_ids _ _ Hr1), fmap_app.
    + apply positions_ok_snoc; [apply Hr1|done|done|lia].
    + rewrite length_app. simpl. lia.
  - rewrite length_app. simpl. lia.
  - by apply heap_ordered_snoc.
  - rewrite <-(rep_ids _ _ Hr1). exists h', L'. split; [done|]. split; [done|].
    rewrite Hperm. symmetry. apply Permutation_cons_append.
Qed.

Lemma heap_push_update h L i s job sc :
  heap_wf h L → L !! i = Some (s, job) →
  ∃ h' L', heap_push h job sc = Done h' ∧ heap_wf h' L' ∧ L' ≡ₚ <[i := (sc, job)]> L.
Proof.
  intros Hwf Hi. destruct (heap_update_spec h L i s job sc Hwf Hi) as (h' & L' & E & ? & ?).
  exists h', L'. unfold heap_push. by rewrite E.
Qed.

(** *** Removal *)

(** The array after [remove_at i]: the last entry moves to [i]. *)
Definition array_remove (L : HeapArray) (i : nat) : HeapArray :=
  take (length L - 1) (list_swap L i (length L - 1)).

Lemma length_array_remove L i : length (array_remove L i) = (length L - 1)%nat.
Proof. unfold array_remove. rewrite length_take, length_list_swap. lia. Qed.

Lemma array_remove_lookup L i j :
  (i < length L)%nat →
  array_remove L i !! j =
    if decide (j < length L - 1)%nat
    then if decide (j = i) then L !! (length L - 1)%nat else L !! j else None.
Proof.
  intros Hi. unfold array_remove. case_decide.
  - rewrite lookup_take_lt, list_swap_lookup by lia. case_decide; [done|].
    by rewrite decide_False by lia.
  - apply lookup_ge_None. rewrite length_take, length_list_swap. lia.
Qed.

Lemma array_remove_Permutation L i e : L !! i = Some e → e :: array_remove L i ≡ₚ L.
Proof.
  intros Hi. pose proof (lookup_lt_Some _ _ _ Hi).
  rewrite <-(list_swap_Permutation L i (length L - 1)) at 2.
  rewrite <-(take_drop (length L - 1) (list_swap L i (length L - 1))).
  change (take _ _) with (array_remove L i).
  rewrite (drop_S _ e), drop_ge by
    (first [rewrite length_list_swap; lia
           |rewrite list_swap_lookup by lia; repeat case_decide; congruence]).
  apply Permutation_cons_append.
Qed.

Lemma positions_ok_remove ps L i e m :
  positions_ok ps L → L !! i = Some e → (i < length L - 1)%nat →
  L !! (length L - 1)%nat = Some m →
  positions_ok (<[Z.to_nat (JobId_index m.2) := Z.of_nat i]>
                 (<[Z.to_nat (JobId_index e.2) := ABSENT]> ps)) (array_remove L i).
Proof.
  intros Hp He Hi Hm.
  pose proof (vec_get_range _ _ _ (pos_fwd _ _ Hp _ _ He)).
  pose proof (vec_get_range _ _ _ (pos_fwd _ _ Hp _ _ Hm)).
  assert (∀ k, vec_get (<[Z.to_nat (JobId_index m.2) := Z.of_nat i]>
                 (<[Z.to_nat (JobId_index e.2) := ABSENT]> ps)) k =
     if decide (JobId_index m.2 = k) then Some (Z.of_nat i)
     else if decide (JobId_index e.2 = k) then Some ABSENT else vec_get ps k) as Hget.
  { intros k. rewrite vec_get_insert by by rewrite length_insert. by rewrite vec_get_insert. }
  split.
  - intros j f. rewrite array_remove_lookup, Hget by lia. intros Hj.
    destruct (decide (j < length L - 1)%nat); [|done]. destruct (decide (j = i)) as [->|].
    + simplify_eq. by rewrite decide_True.
    + rewrite !decide_False; [by apply (pos_fwd _ _ Hp)|..]; intros E.
      * pose proof (pos_inj _ _ _ _ _ _ Hp He Hj E). lia.
      * pose proof (pos_inj _ _ _ _ _ _ Hp Hm Hj E). lia.
  - intros k p. rewrite Hget. intros Hk Hne. repeat case_decide; simplify_eq.
    + exists i, m. rewrite array_remove_lookup by lia. by rewrite !decide_True.
    + destruct (pos_bwd _ _ Hp _ _ Hk Hne) as (j & f & Hj & -> & <-).
      exists j, f. split; [|done]. pose proof (lookup_lt_Some _ _ _ Hj).
      assert (j ≠ (length L - 1)%nat) by congruence.
      rewrite array_remove_lookup, decide_True, decide_False by (lia || congruence). done.
Qed.

Lemma positions_ok_pop ps L e :
  positions_ok ps L → L !! (length L - 1)%nat = Some e →
  positions_ok (<[Z.to_nat (JobId_index e.2) := ABSENT]> ps) (take (length L - 1) L).
Proof.
  intros Hp He. pose proof (vec_get_range _ _ _ (pos_fwd _ _ Hp _ _ He)). split.
  - intros j f Hj. rewrite vec_get_insert by done.
    assert (j < length L - 1)%nat by (apply lookup_lt_Some in Hj; rewrite length_take in Hj; lia).
    rewrite lookup_take_lt in Hj by done.
    rewrite decide_False; [by apply (pos_fwd _ _ Hp)|]. intros E.
    pose proof (pos_inj _ _ _ _ _ _ Hp He Hj E). lia.
  - intros k p. rewrite vec_get_insert by done. case_decide; [naive_solver|]. intros Hk Hne.
    destruct (pos_bwd _ _ Hp _ _ Hk Hne) as (j & f & Hj & -> & <-).
    exists j, f. split; [|done]. pose proof (lookup_lt_Some _ _ _ Hj).
    assert (j ≠ (length L - 1)%nat) by congruence. rewrite lookup_take_lt by lia. done.
Qed.

Lemma heap_ordered_remove L i :
  heap_ordered L → (i < length L - 1)%nat → around_ok (array_remove L i) i.
Proof.
  intros Ho Hi. split.
  - intros j Hj Hpj x p Hpos. rewrite !array_remove_lookup by lia. intros Hx Hp.
    repeat case_decide; simplify_eq. by apply (Ho j).
  - intros c x p Hpos Hc Ec. pose proof (heap_parent_lt _ Hpos). pose proof (heap_parent_lt _ Hc).
    rewrite !array_remove_lookup by lia. intros Hx Hp. repeat case_decide; simplify_eq; [lia..|].
    by apply (heap_ordered_grand L (heap_parent c) Ho c).
Qed.

(** [sift_down] then [sift_up] repair an array that is wrong on either side of
    one position: only one of the two calls moves anything. *)
Lemma sift_both_spec h L i :
  heap_rep h L → (i < length L)%nat → around_ok L i →
  ∃ h' L', (let! h1 := sift_down h i in sift_up h1 i) = Done h' ∧ heap_wf h' L' ∧ L' ≡ₚ L.
Proof.
  intros Hr Hi [Ho Hg]. destruct (lookup_lt_is_Some_2 _ _ Hi) as [x Hx].
  assert (∃ h1 L1, sift_down h i = Done h1 ∧ heap_rep h1 L1 ∧ L1 ≡ₚ L ∧ up_ok L1 i)
    as (h1 & L1 & -> & Hr1 & Hp1 & Hup).
  { destruct (sift_down_largest h L i x Hr Hx) as (lgt & rgt & m & y & El & Er & Em & Hy & Hm & Hmax).
    destruct Hm as [->|(Hgt & Hpm & Him)].
    - exists h, L. simplify_eq. unfold sift_down. rewrite (rep_ids _ _ Hr), length_fmap.
      cbn [sift_down_loop]. rewrite El. cbn [exec_bind]. rewrite Er. cbn [exec_bind].
      rewrite <-Em, Nat.eqb_refl. repeat (split; [done|]). split; [|done].
      intros j Hj. destruct (decide (heap_parent j = i)) as [E|]; [|by apply Ho].
      intros z p Hpos Hz Hp. rewrite E in Hp. simplify_eq. eauto.
    - destruct (sift_down_spec h L i Hr Hi) as (h1 & L1 & ? & ? & ? & Ho1).
      { split; [|done]. intros j Hj. destruct (decide (j = i)) as [->|]; [|by apply Ho; naive_solver lia].
        intros z p Hpos Hz Hp. assert (z = x) as -> by congruence.
        pose proof (Hg m y p Hpos ltac:(lia) Hpm Hy Hp). clear Em. order_crush. }
      exists h1, L1. eauto using heap_ordered_up. }
  cbn [exec_bind]. destruct (sift_up_spec h1 L1 i Hr1) as (h' & L' & E & Hr' & Hp' & Ho').
  { by rewrite Hp1. }
  { done. }
  exists h', L'. split; [done|]. split; [done|]. by rewrite Hp'.
Qed.

Lemma remove_at_spec h L i e :
  heap_wf h L → L !! i = Some e →
  ∃ h' L', remove_at h i = Done h' ∧ heap_wf h' L' ∧ e :: L' ≡ₚ L.
Proof.
  intros [Hr Ho] He. pose proof (lookup_lt_Some _ _ _ He) as Hi. pose proof (rep_len _ _ Hr).
  pose proof (vec_get_range _ _ _ (pos_fwd _ _ (rep_pos _ _ Hr) _ _ He)) as Hre.
  unfold remove_at. rewrite (rep_ids _ _ Hr), length_fmap, (rep_scores _ _ Hr).
  rewrite (nth_at_Done _ i e.2) by (by rewrite list_lookup_fmap, He). cbn [exec_bind].
  rewrite vec_put_Done by done. cbn [exec_bind].
  destruct (Nat.eqb_spec i (length L - 1)) as [->|Hne].
  - eexists _, (take (length L - 1) L). split; [done|]. split.
    + split; [split; simpl|].
      * unfold vec_pop. by rewrite length_fmap, fmap_take.
      * unfold vec_pop. by rewrite length_fmap, fmap_take.
      * apply positions_ok_pop; [apply Hr|done].
      * rewrite length_take. lia.
      * intros j x p Hpos Hx Hp. pose proof (heap_parent_lt j Hpos).
        pose proof (lookup_lt_Some _ _ _ Hx) as Hj. rewrite length_take in Hj.
        rewrite lookup_take_lt in Hx, Hp by lia. by apply (Ho j).
    + rewrite <-(take_drop (length L - 1) L) at 3. rewrite (drop_S _ e), drop_ge by (done || lia).
      apply Permutation_cons_append.
  - destruct (lookup_lt_is_Some_2 L (length L - 1)) as [m Hm]; [lia|].
    pose proof (vec_get_range _ _ _ (pos_fwd _ _ (rep_pos _ _ Hr) _ _ Hm)) as Hrm.
    rewrite (vec_swap_Done L.*1) by (rewrite length_fmap; lia). cbn [exec_bind].
    rewrite (vec_swap_Done L.*2) by (rewrite length_fmap; lia). cbn [exec_bind].
    rewrite <-!list_swap_fmap. unfold vec_pop. rewrite !length_fmap, !length_list_swap, <-!fmap_take.
    change (take (length L - 1) (list_swap L i (length L - 1))) with (array_remove L i).
    rewrite (nth_at_Done _ i m.2)
      by (rewrite list_lookup_fmap, array_remove_lookup, !decide_True, Hm by lia; done).
    cbn [exec_bind]. rewrite u32_from_usize_Done by lia. cbn [exec_bind].
    rewrite vec_put_Done by (by rewrite length_insert). cbn [exec_bind].
    destruct (sift_both_spec (MkPriorityHeap (array_remove L i).*1 (array_remove L i).*2
      (<[Z.to_nat (JobId_index m.2):=Z.of_nat i]>
        (<[Z.to_nat (JobId_index e.2):=ABSENT]> (positions h)))) (array_remove L i) i)
      as (h' & L' & E & Hwf & Hperm).
    + split; simpl; [done|done| |rewrite length_array_remove; lia].
      apply positions_ok_remove; [apply Hr|done|lia|done].
    + rewrite length_array_remove. lia.
    + apply heap_ordered_remove; [done|lia].
    + exists h', L'. split; [done|]. split; [done|].
      rewrite Hperm. by apply array_remove_Permutation.
Qed.

Lemma heap_remove_spec h L job :
  heap_wf h L →
  ∃ h' L' b, heap_remove h job = Done (h', b) ∧ heap_wf h' L' ∧
    (if b then (∃ s, (s, job) :: L' ≡ₚ L) else ((job ∉ L.*2) ∧ h' = h ∧ L' = L)).
Proof.
  intros Hwf. pose proof Hwf as [Hr _]. unfold heap_remove. destruct (slot_of h job) as [i|] eqn:E.
  - apply (slot_of_spec _ _ _ _ Hr) in E as (s & Hi).
    destruct (remove_at_spec h L i _ Hwf Hi) as (h' & L' & -> & Hwf' & Hp).
    exists h', L', true. eauto.
  - apply (slot_of_None _ _ _ Hr) in E. by exists h, L, false.
Qed.

(** The root is the maximum. *)
Lemma heap_ordered_root L r e : heap_ordered L → L !! 0%nat = Some r → e ∈ L → ¬ outranks e r.
Proof.
  intros Ho Hroot (i & Hi)%list_elem_of_lookup. revert e Hi.
  induction i as [i IH] using lt_wf_ind. intros e Hi.
  destruct (decide (i = 0%nat)) as [->|]; [simplify_eq; order_crush|].
  pose proof (heap_parent_lt i ltac:(lia)).
  destruct (lookup_lt_is_Some_2 L (heap_parent i)) as [p Hp].
  { apply lookup_lt_Some in Hi. lia. }
  pose proof (IH _ ltac:(done) p Hp). pose proof (Ho i e p ltac:(lia) Hi Hp). order_crush.
Qed.

Lemma pop_max_spec h L :
  heap_wf h L →
  ∃ h' o, pop_max h = Done (h', o) ∧
  match o with
  | None => L = [] ∧ h' = h
  | Some (job, s) => ∃ L', heap_wf h' L' ∧ (s, job) :: L' ≡ₚ L ∧
      ∀ e, e ∈ L → ¬ outranks e (s, job)
  end.
Proof.
  intros Hwf. pose proof Hwf as [Hr Ho]. unfold pop_max.
  rewrite (rep_ids _ _ Hr), (rep_scores _ _ Hr).
  destruct L as [|[s job] L]; simpl; [by eexists _, _|].
  destruct (remove_at_spec h _ 0 (s, job) Hwf eq_refl) as (h' & L' & -> & Hwf' & Hp).
  eexists _, _. split; [done|]. exists L'. split; [done|]. split; [done|].
  intros e He. by eapply heap_ordered_root.
Qed.

(** ** Representation of the ready set *)

(** The abstract contents: one array per class. *)
Abbreviation ReadyMap := (PriorityClass → list (Score * JobId)) (only parsing).

Definition class_upd (A : ReadyMap) (c : PriorityClass) (L : HeapArray) : ReadyMap :=
  fun c' => if decide (c = c') then L else A c'.

Definition ready_rep (rs : ReadySet) (A : ReadyMap) : Prop :=
  length (buckets rs) = PriorityClass_COUNT ∧
  ∀ c, ∃ h, vec_get (buckets rs) (ordinal c) = Some h ∧ heap_wf h (A c).

Definition class_entries (A : ReadyMap) (c : PriorityClass) : list ReadyEntry :=
  (fun e => MkReadyEntry c e.2 e.1) <$> A c.

(** Every entry, highest class first. *)
Definition entries (A : ReadyMap) : list ReadyEntry :=
  class_entries A PriorityClass.Urgent ++ class_entries A PriorityClass.High ++
  class_entries A PriorityClass.Normal ++ class_entries A PriorityClass.Low.

Lemma entries_elem A e : e ∈ entries A ↔ (re_score e, re_job e) ∈ A (re_class e).
Proof.
  assert (∀ c, e ∈ class_entries A c ↔ c = re_class e ∧ (re_score e, re_job e) ∈ A c) as H.
  { intros c. unfold class_entries. rewrite list_elem_of_fmap. split.
    - by intros ([s j] & -> & ?).
    - intros [-> ?]. exists (re_score e, re_job e). by destruct e. }
  unfold entries. rewrite !elem_of_app, !H. destruct e as [[] j s]; simpl; naive_solver.
Qed.

Lemma entries_perm A A' : (∀ c, A c ≡ₚ A' c) → entries A ≡ₚ entries A'.
Proof. intros H. unfold entries, class_entries. by rewrite !H. Qed.

Lemma entries_cons A c s j L :
  (s, j) :: L ≡ₚ A c → MkReadyEntry c j s :: entries (class_upd A c L) ≡ₚ entries A.
Proof.
  intros H. unfold entries, class_entries, class_upd.
  destruct c; simpl; rewrite <-H; simpl; rewrite <-?Permutation_middle; done.
Qed.

Lemma entries_upd A c s j L :
  L ≡ₚ (s, j) :: A c → entries (class_upd A c L) ≡ₚ MkReadyEntry c j s :: entries A.
Proof.
  intros H. unfold entries, class_entries, class_upd.
  destruct c; simpl; rewrite H; simpl; rewrite <-?Permutation_middle; done.
Qed.

Lemma ready_rep_put rs A c h L :
  ready_rep rs A → heap_wf h L →
  ready_rep (MkReadySet (<[Z.to_nat (ordinal c) := h]> (buckets rs))) (class_upd A c L).
Proof.
  intros Hr Hwf. split; [simpl; rewrite length_insert; apply Hr|].
  intros c'. destruct (proj2 Hr c) as (hc & Hc & _). simpl.
  rewrite vec_get_insert by by eapply vec_get_range. unfold class_upd.
  destruct (decide (c = c')) as [->|Hne]; [rewrite decide_True by done; eauto|].
  rewrite decide_False; [apply (proj2 Hr)|]. by intros ?%ordinal_inj.
Qed.

Lemma ready_new_rep : ready_rep ready_new (fun _ => []).
Proof.
  split; [done|]. intros c. exists heap_new. split; [|apply heap_new_wf]. by destruct c.
Qed.

(** [with_slots] only preallocates. *)
Lemma ready_with_slots_rep n : ready_rep (ready_with_slots n) (fun _ => []).
Proof.
  split; [done|]. intros c. exists (heap_reserve_slots heap_new n). split; [by destruct c|].
  destruct heap_new_wf as [Hr Ho]. split; [by apply heap_rep_reserve|done].
Qed.

(** The class dominates, then the order key. *)
Definition ready_before (a b : ReadyEntry) : Prop :=
  ordinal (re_class b) < ordinal (re_class a) ∨
  (re_class a = re_class b ∧ outranks (re_score a, re_job a) (re_score b, re_job b)).

Lemma ready_insert_spec rs A c job s :
  ready_rep rs A → job ∉ (A c).*2 → index_free (A c) job → Z.of_nat (length (A c)) < u32_max →
  ∃ rs' L, ready_insert rs c job s = Done rs' ∧ ready_rep rs' (class_upd A c L) ∧
           L ≡ₚ (s, job) :: A c.
Proof.
  intros Hr Hn Hf Hl. destruct (proj2 Hr c) as (h & Hh & Hwf). unfold ready_insert.
  rewrite (vec_at_Done _ _ _ Hh). cbn [exec_bind].
  destruct (heap_push_new h (A c) job s Hwf Hn Hf Hl) as (h' & L & -> & Hwf' & Hp). cbn [exec_bind].
  rewrite vec_put_Done by by eapply vec_get_range. cbn [exec_bind].
  eexists _, L. split; [done|]. split; [by apply ready_rep_put|done].
Qed.

Lemma ready_update_spec rs A c job s i s0 :
  ready_rep rs A → A c !! i = Some (s0, job) →
  ∃ rs' L, ready_insert rs c job s = Done rs' ∧ ready_rep rs' (class_upd A c L) ∧
           L ≡ₚ <[i := (s, job)]> (A c).
Proof.
  intros Hr Hi. destruct (proj2 Hr c) as (h & Hh & Hwf). unfold ready_insert.
  rewrite (vec_at_Done _ _ _ Hh). cbn [exec_bind].
  destruct (heap_push_update h (A c) i s0 job s Hwf Hi) as (h' & L & -> & Hwf' & Hp). cbn [exec_bind].
  rewrite vec_put_Done by by eapply vec_get_range. cbn [exec_bind].
  eexists _, L. split; [done|]. split; [by apply ready_rep_put|done].
Qed.

Lemma ready_remove_spec rs A c job :
  ready_rep rs A →
  ∃ rs' L b, ready_remove rs c job = Done (rs', b) ∧ ready_rep rs' (class_upd A c L) ∧
    (if b then (∃ s, (s, job) :: L ≡ₚ A c) else ((job ∉ (A c).*2) ∧ L = A c)).
Proof.
  intros Hr. destruct (proj2 Hr c) as (h & Hh & Hwf). unfold ready_remove.
  rewrite (vec_at_Done _ _ _ Hh). cbn [exec_bind].
  destruct (heap_remove_spec h (A c) job Hwf) as (h' & L & b & -> & Hwf' & Hb). cbn [exec_bind].
  rewrite vec_put_Done by by eapply vec_get_range. cbn [exec_bind].
  eexists _, L, b. split; [done|]. split; [by apply ready_rep_put|].
  destruct b; [done|]. by destruct Hb as (? & _ & ?).
Qed.

Lemma pop_classes_spec cs rs A :
  ready_rep rs A →
  ∃ rs' o, pop_classes rs cs = Done (rs', o) ∧
  match o with
  | None => rs' = rs ∧ ∀ c, c ∈ cs → A c = []
  | Some e => ∃ pre post L, cs = pre ++ re_class e :: post ∧ (∀ c, c ∈ pre → A c = []) ∧
      ready_rep rs' (class_upd A (re_class e) L) ∧
      (re_score e, re_job e) :: L ≡ₚ A (re_class e) ∧
      ∀ x, x ∈ A (re_class e) → ¬ outranks x (re_score e, re_job e)
  end.
Proof.
  intros Hr. induction cs as [|c cs IH]; simpl.
  { eexists _, _. split; [done|]. split; [done|]. by intros c ?%elem_of_nil. }
  destruct (proj2 Hr c) as (h & Hh & Hwf). rewrite (vec_at_Done _ _ _ Hh). cbn [exec_bind].
  destruct (pop_max_spec h (A c) Hwf) as (h' & o & -> & Ho). cbn [exec_bind].
  rewrite vec_put_Done by by eapply vec_get_range. cbn [exec_bind].
  destruct o as [[job s]|].
  - destruct Ho as (L & Hwf' & Hp & Hmax). eexists _, _. split; [done|].
    exists [], cs, L. simpl. split; [done|]. split; [by intros ? ?%elem_of_nil|].
    split; [by apply ready_rep_put|done].
  - destruct Ho as [Hnil ->].
    replace (MkReadySet (<[Z.to_nat (ordinal c) := h]> (buckets rs))) with rs.
    2:{ destruct rs as [bs]. simpl in *. f_equal. apply vec_get_Some in Hh as [_ Hh].
        by rewrite list_insert_id. }
    destruct IH as (rs' & o & -> & Ho). eexists _, _. split; [done|]. destruct o as [e|].
    + destruct Ho as (pre & post & L & -> & Hpre & ?). exists (c :: pre), post, L.
      split; [done|]. split; [|done]. intros c' [->|?]%elem_of_cons; auto.
    + destruct Ho as [-> Hcs]. split; [done|]. intros c' [->|?]%elem_of_cons; auto.
Qed.

(** Popping takes the highest entry of the whole set. *)
Lemma pop_next_spec rs A :
  ready_rep rs A →
  ∃ rs' o, pop_next rs = Done (rs', o) ∧
  match o with
  | None => rs' = rs ∧ entries A = []
  | Some e => ∃ A', ready_rep rs' A' ∧ e :: entries A' ≡ₚ entries A ∧
      (∀ x, x ∈ entries A → ¬ ready_before x e)
  end.
Proof.
  intros Hr. destruct (pop_classes_spec (rev PriorityClass_ALL) rs A Hr) as (rs' & o & E & Ho).
  exists rs', o. split; [done|]. destruct o as [e|].
  - destruct Ho as (pre & post & L & Hcs & Hpre & Hr' & Hp & Hmax).
    exists (class_upd A (re_class e) L). split; [done|]. split.
    { destruct e as [c j s]. by apply entries_cons. }
    intros x Hx%entries_elem [Hlt|[Ec Hgt]].
    + assert (re_class x ∈ pre) as Hin.
      { simpl in Hcs. destruct e as [[] j s], x as [[] j' s']; simpl in *; try lia;
        destruct pre as [|? [|? [|? [|? ?]]]]; simplify_eq/=; set_solver. }
      rewrite (Hpre _ Hin) in Hx. by apply elem_of_nil in Hx.
    + rewrite Ec in Hx. by eapply Hmax.
  - destruct Ho as [-> Hall]. split; [done|]. unfold entries, class_entries.
    rewrite !Hall by (simpl; set_solver). done.
Qed.

Lemma peek_classes_pop cs rs A :
  ready_rep rs A →
  ∃ rs' o, pop_classes rs cs = Done (rs', o) ∧ peek_classes rs cs = Done o.
Proof.
  intros Hr. induction cs as [|c cs IH]; simpl; [by eexists _, _|].
  destruct (proj2 Hr c) as (h & Hh & Hwf). rewrite (vec_at_Done _ _ _ Hh). cbn [exec_bind].
  destruct (pop_max_spec h (A c) Hwf) as (h' & o & Ep & Ho). rewrite Ep. cbn [exec_bind].
  rewrite vec_put_Done by by eapply vec_get_range. cbn [exec_bind].
  assert (peek_max h = Done o) as ->.
  { unfold pop_max, peek_max in *. destruct (ids h); [naive_solver|].
    destruct (nth_at (scores h) 0); simpl in *; [|done..].
    destruct (remove_at h 0); simpl in *; naive_solver. }
  cbn [exec_bind]. destruct o as [[job s]|]; [by eexists _, _|].
  destruct Ho as [_ ->].
  replace (MkReadySet (<[Z.to_nat (ordinal c) := h]> (buckets rs))) with rs; [done|].
  destruct rs as [bs]. simpl in *. f_equal. apply vec_get_Some in Hh as [_ Hh].
  by rewrite list_insert_id.
Qed.

(** Clearing a heap resets exactly the positions it used. *)
Lemma heap_clear_spec h L : heap_wf h L → ∃ h', heap_clear h = Done h' ∧ heap_wf h' [].
Proof.
  intros [Hr Ho]. unfold heap_clear.
  pose proof (exec_fold_inv (fun ps id => vec_put ps (JobId_index id) ABSENT)
    (fun seen ps => length ps = length (positions h) ∧
       ∀ k p, vec_get ps k = Some p → p = ABSENT ∨
         (vec_get (positions h) k = Some p ∧ k ∉ JobId_index <$> seen))
    (ids h) (positions h)) as Hf.
  apply returns_exists in Hf as (ps & -> & Hlen & Hps); cbn [exec_bind].
  - eexists. split; [done|]. split; [split; simpl; [done|done| |done]|].
    + split; [by intros i e Hi|]. intros k p Hk Hne. exfalso.
      destruct (Hps k p Hk) as [?|[Hk' Hnin]]; [done|].
      destruct (pos_bwd _ _ (rep_pos _ _ Hr) _ _ Hk' Hne) as (i & e & Hi & -> & <-).
      apply Hnin. rewrite (rep_ids _ _ Hr). apply list_elem_of_fmap. exists e.2. split; [done|].
      apply list_elem_of_fmap. exists e. split; [done|]. by eapply list_elem_of_lookup_2.
    + by intros j x p _ Hx.
  - split; [done|]. intros k p ?. right. split; [done|]. apply not_elem_of_nil.
  - intros seen id rest ps Eids [Hlen Hps].
    assert (JobId_index id < Z.of_nat (length (positions h))).
    { rewrite (rep_ids _ _ Hr) in Eids. assert (id ∈ L.*2) as Hin by (rewrite Eids; set_solver).
      apply list_elem_of_fmap in Hin as (e & -> & (i & Hi)%list_elem_of_lookup).
      apply (pos_fwd _ _ (rep_pos _ _ Hr)), vec_get_range in Hi. simpl in *. lia. }
    pose proof (JobId_index_range id).
    rewrite vec_put_Done by lia. simpl. rewrite length_insert. split; [done|].
    intros k p. rewrite vec_get_insert by lia. case_decide as Ek; [naive_solver|].
    intros [?|[? Hn]]%Hps; [by left|]. right. split; [done|]. rewrite fmap_app. set_solver.
Qed.

(** ** The abstract ready set

    What the scheduler relies on: the set holds the entries [E], in no
    particular order. *)
Definition ready_holds (rs : ReadySet) (E : list ReadyEntry) : Prop :=
  ∃ A, ready_rep rs A ∧ entries A ≡ₚ E.

#[export] Instance ready_holds_Proper rs : Proper ((≡ₚ) ==> iff) (ready_holds rs).
Proof.
  intros E E' HE. unfold ready_holds. split; intros (A & ? & HA); exists A; (split; [done|]);
    by rewrite HA, HE.
Qed.

(** No entry of [E] in class [c] uses the arena index of [job]. *)
Definition index_unused (E : list ReadyEntry) (c : PriorityClass) (job : JobId) : Prop :=
  ∀ e, e ∈ E → re_class e = c → JobId_index (re_job e) ≠ JobId_index job.

Lemma class_length_le A c : (length (A c) <= length (entries A))%nat.
Proof.
  unfold entries, class_entries. rewrite !length_app, !length_fmap. destruct c; lia.
Qed.

Lemma ready_holds_new n : ready_holds (ready_with_slots n) [].
Proof. exists (fun _ => []). split; [apply ready_with_slots_rep|done]. Qed.

Lemma ready_insert_holds rs E c job s :
  ready_holds rs E → index_unused E c job → Z.of_nat (length E) < u32_max →
  ∃ rs', ready_insert rs c job s = Done rs' ∧ ready_holds rs' (MkReadyEntry c job s :: E).
Proof.
  intros (A & Hr & HE) Hfree Hlen.
  assert (∀ e, e ∈ A c → JobId_index e.2 ≠ JobId_index job) as Hne.
  { intros [s' j'] He. apply (Hfree (MkReadyEntry c j' s')); [|done]. rewrite <-HE.
    by apply entries_elem. }
  destruct (ready_insert_spec rs A c job s Hr) as (rs' & L & Ei & Hr' & Hp).
  - intros (e & -> & He)%list_elem_of_fmap. by apply (Hne e).
  - intros e He Ee. by apply Hne in He.
  - pose proof (class_length_le A c) as Hl. rewrite HE in Hl. lia.
  - exists rs'. split; [done|]. exists (class_upd A c L). split; [done|].
    by rewrite (entries_upd A c s job L Hp), HE.
Qed.

Lemma ready_remove_holds rs E c job :
  ready_holds rs E →
  ∃ rs' b E', ready_remove rs c job = Done (rs', b) ∧ ready_holds rs' E' ∧
    (if (b : bool) then (∃ s, E ≡ₚ MkReadyEntry c job s :: E')
     else (E' = E ∧ ∀ s, MkReadyEntry c job s ∉ E)).
Proof.
  intros (A & Hr & HE). destruct (ready_remove_spec rs A c job Hr) as (rs' & L & b & Er & Hr' & Hb).
  exists rs', b. destruct b.
  - destruct Hb as [s Hs]. exists (entries (class_upd A c L)). split; [done|].
    split; [by exists (class_upd A c L)|]. exists s. by rewrite (entries_cons A c s job L Hs), HE.
  - destruct Hb as [Hn ->]. exists E. split; [done|]. split.
    + exists (class_upd A c (A c)). split; [done|]. rewrite <-HE. apply entries_perm.
      intros c'. unfold class_upd. by destruct (decide (c = c')) as [->|].
    + split; [done|]. intros s Hin. rewrite <-HE in Hin. apply entries_elem in Hin. simpl in Hin.
      apply Hn. apply list_elem_of_fmap. by exists (s, job).
Qed.

Lemma pop_next_holds rs E :
  ready_holds rs E →
  ∃ rs' o, pop_next rs = Done (rs', o) ∧
  match o with
  | None => E = [] ∧ ready_holds rs' []
  | Some e => ∃ E', ready_holds rs' E' ∧ E ≡ₚ e :: E' ∧ (∀ x, x ∈ E → ¬ ready_before x e)
  end.
Proof.
  intros (A & Hr & HE). destruct (pop_next_spec rs A Hr) as (rs' & o & Ep & Ho).
  exists rs', o. split; [done|]. destruct o as [e|].
  - destruct Ho as (A' & Hr' & Hp & Hmax). exists (entries A'). split; [by exists A'|].
    split; [by rewrite <-HE|]. intros x. rewrite <-HE. apply Hmax.
  - destruct Ho as [-> Hnil]. rewrite Hnil in HE. apply Permutation_nil_l in HE.
    split; [done|]. exists A. by rewrite Hnil.
Qed.

Lemma ready_len_rep rs A :
  ready_rep rs A → ready_len rs = length (entries A).
Proof.
  intros [Hlen Hr]. unfold ready_len, PriorityClass_COUNT in *. destruct rs as [bs]. simpl in *.
  destruct bs as [|b0 [|b1 [|b2 [|b3 [|]]]]]; try done.
  assert (∀ c h, vec_get [b0; b1; b2; b3] (ordinal c) = Some h → heap_len h = length (A c)) as H.
  { intros c h Hh. destruct (Hr c) as (h' & Hh' & [Hrep _]). simpl in Hh'. simplify_eq.
    unfold heap_len. by rewrite (rep_ids _ _ Hrep), length_fmap. }
  simpl. rewrite (H PriorityClass.Low b0), (H PriorityClass.Normal b1),
    (H PriorityClass.High b2), (H PriorityClass.Urgent b3) by done.
  unfold entries, class_entries. rewrite !length_app, !length_fmap. lia.
Qed.

Lemma ready_before_irrefl a : ¬ ready_before a a.
Proof. intros [?|[_ ?]]; [lia|order_crush]. Qed.

Lemma ready_before_trans a b c : ready_before a b → ready_before b c → ready_before a c.
Proof.
  intros [?|[Eab ?]] [?|[Ebc ?]]; unfold ready_before; rewrite ?Eab, ?Ebc in *;
    [left; lia|left; lia|left; lia|right]. split; [done|]. order_crush.
Qed.

(** Entries that do not outrank each other are of one class, score and job. *)
Lemma ready_before_total a b : ready_before a b ∨ a = b ∨ ready_before b a.
Proof.
  destruct a as [ca ja sa], b as [cb jb sb]. unfold ready_before. simpl.
  destruct (Z.lt_trichotomy (ordinal ca) (ordinal cb)) as [?|[?%ordinal_inj|?]]; [auto| |auto].
  subst cb. destruct (decide (outranks (sa, ja) (sb, jb))); [by left; right|].
  destruct (decide (outranks (sb, jb) (sa, ja))); [by right; right; right|].
  right. left. assert (sa = sb ∧ ja = jb) as [-> ->] by order_crush. done.
Qed.

Lemma drain_loop_spec fuel rs E limit out :
  ready_holds rs E → NoDup E → (length E < fuel)%nat →
  ∃ rs' more E', drain_loop fuel rs limit out = Done (rs', out ++ more) ∧ ready_holds rs' E' ∧
    E ≡ₚ more ++ E' ∧ StronglySorted ready_before more ∧
    (∀ a b, a ∈ more → b ∈ E' → ready_before a b) ∧
    Z.of_nat (length more) = Z.max 0 (Z.min limit (Z.of_nat (length E))).
Proof.
  revert rs E limit out. induction fuel as [|fuel IH]; intros rs E limit out Hr Hnd Hf; [lia|].
  simpl. destruct (Z.leb_spec limit 0) as [Hl|Hl].
  { exists rs, [], E. rewrite app_nil_r. split; [done|]. repeat (split; [done|]).
    split; [constructor|]. split; [by intros a b ?%elem_of_nil|]. simpl. lia. }
  destruct (pop_next_holds rs E Hr) as (rs1 & o & -> & Ho). cbn [exec_bind]. destruct o as [e|].
  - destruct Ho as (E1 & Hr1 & HE & Hmax). pose proof Hnd as Hnd1. rewrite HE in Hnd1.
    apply NoDup_cons in Hnd1 as [Hnin Hnd1]. pose proof (Permutation_length HE) as Hlen. simpl in Hlen.
    destruct (IH rs1 E1 (limit - 1) (out ++ [e]) Hr1 Hnd1 ltac:(lia))
      as (rs' & more & E' & -> & Hr' & HE1 & Hs & Hout & Hm).
    exists rs', (e :: more), E'. rewrite <-app_assoc. split; [done|]. split; [done|].
    assert (∀ b, b ∈ E1 → ready_before e b) as He.
    { intros b Hb. destruct (ready_before_total e b) as [?|[->|Hbe]]; [done|done|].
      exfalso. eapply Hmax, Hbe. rewrite HE. by right. }
    split; [by rewrite HE, HE1|]. split; [|split].
    + constructor; [done|]. apply Forall_forall. intros b Hb. apply He. rewrite HE1. set_solver.
    + intros a b [->|Ha]%elem_of_cons Hb; [|by apply Hout]. apply He. rewrite HE1. set_solver.
    + simpl. lia.
  - destruct Ho as [-> Hr']. exists rs1, [], []. rewrite app_nil_r.
    repeat (split; [done|]). split; [constructor|]. split; [by intros a b ?%elem_of_nil|]. simpl. lia.
Qed.

Lemma drain_ordered_into_holds rs E limit :
  ready_holds rs E → NoDup E →
  ∃ rs' out E', drain_ordered_into rs limit = Done (rs', out) ∧ ready_holds rs' E' ∧
    E ≡ₚ out ++ E' ∧ StronglySorted ready_before out ∧
    (∀ a b, a ∈ out → b ∈ E' → ready_before a b) ∧
    Z.of_nat (length out) = Z.max 0 (Z.min limit (Z.of_nat (length E))).
Proof.
  intros Hr Hnd. unfold drain_ordered_into. apply (drain_loop_spec _ rs E limit []); [done..|].
  destruct Hr as (A & Hr & HE). rewrite (ready_len_rep _ _ Hr), HE. lia.
Qed.

Lemma ready_clear_holds rs E :
  ready_holds rs E → ∃ rs', ready_clear rs = Done rs' ∧ ready_holds rs' [].
Proof.
  intros (A & [Hlen Hr] & _). unfold ready_clear, PriorityClass_COUNT in *.
  destruct rs as [bs]. simpl in *. destruct bs as [|b0 [|b1 [|b2 [|b3 [|]]]]]; try done.
  assert (∀ c h, vec_get [b0; b1; b2; b3] (ordinal c) = Some h →
          ∃ h', heap_clear h = Done h' ∧ heap_wf h' []) as H.
  { intros c h Hh. destruct (Hr c) as (h1 & Hh1 & Hwf). simpl in Hh1. simplify_eq.
    by eapply heap_clear_spec. }
  destruct (H PriorityClass.Low b0) as (h0 & E0 & ?); [done|].
  destruct (H PriorityClass.Normal b1) as (h1 & E1 & ?); [done|].
  destruct (H PriorityClass.High b2) as (h2 & E2 & ?); [done|].
  destruct (H PriorityClass.Urgent b3) as (h3 & E3 & ?); [done|].
  simpl. rewrite E0; cbn [exec_bind]. rewrite E1; cbn [exec_bind]. rewrite E2; cbn [exec_bind].
  rewrite E3; cbn [exec_bind]. eexists. split; [done|]. exists (fun _ => []). split; [|done].
  split; [done|]. intros []; eexists; (split; [done|done]).
Qed.

Lemma ready_rescore_holds rs E E' c job s0 s :
  ready_holds rs E → E ≡ₚ MkReadyEntry c job s0 :: E' →
  ∃ rs', ready_insert rs c job s = Done rs' ∧ ready_holds rs' (MkReadyEntry c job s :: E').
Proof.
  intros (A & Hr & HE) Hin.
  assert ((s0, job) ∈ A c) as (i & Hi)%list_elem_of_lookup.
  { apply (entries_elem A (MkReadyEntry c job s0)). rewrite HE, Hin. by left. }
  destruct (ready_update_spec rs A c job s i s0 Hr Hi) as (rs' & L & Ei & Hr' & Hp).
  exists rs'. split; [done|]. exists (class_upd A c L). split; [done|].
  pose proof (delete_Permutation _ _ _ Hi) as Hd.
  assert (L ≡ₚ (s, job) :: delete i (A c)) as Hp'.
  { rewrite Hp. rewrite (delete_Permutation (<[i := (s, job)]> (A c)) i (s, job)).
    - by rewrite !delete_take_drop, take_insert_ge, drop_insert_lt by lia.
    - apply list_lookup_insert_eq. by eapply lookup_lt_Some. }
  rewrite <-(entries_cons (class_upd A c L) c s job (delete i (A c))).
  2:{ unfold class_upd. rewrite decide_True by done. by rewrite Hp'. }
  constructor. apply (Permutation_cons_inv (a := MkReadyEntry c job s0)). rewrite <-Hin, <-HE.
  rewrite <-(entries_cons A c s0 job (delete i (A c))) by by rewrite <-Hd.
  constructor. apply entries_perm. intros c'. unfold class_upd. by destruct (decide (c = c')).
Qed.

(** ** Properties *)

(** [insert] adds a job that is not in the set, or moves one that is to its
    new score, and changes no other entry; it never panics while the
    arena-index precondition of [push] holds and the set has fewer than
    [u32::MAX] entries. *)
Theorem ready_insert_exact rs E E' c job s :
  ready_holds rs E →
  (index_unused E c job ∧ Z.of_nat (length E) < u32_max ∧ E' ≡ₚ E) ∨
  (∃ s0, E ≡ₚ MkReadyEntry c job s0 :: E') →
  ∃ rs', ready_insert rs c job s = Done rs' ∧ ready_holds rs' (MkReadyEntry c job s :: E').
Proof.
  intros Hr [(Hu & Hl & HE)|[s0 HE]].
  - destruct (ready_insert_holds rs E c job s Hr Hu Hl) as (rs' & ? & H). exists rs'.
    by rewrite HE.
  - by eapply ready_rescore_holds.
Qed.

(** Three jobs over two classes. *)
Definition demo_entries : list ReadyEntry :=
  [MkReadyEntry PriorityClass.Normal 7 500; MkReadyEntry PriorityClass.Low 1 900;
   MkReadyEntry PriorityClass.Normal 3 100].

Definition demo_set : ReadySet :=
  match exec_fold reinsert (ready_with_slots 8) (rev demo_entries) with
  | Done rs => rs
  | _ => ready_new
  end.

Lemma demo_set_holds : ready_holds demo_set demo_entries.
Proof.
  pose proof (ready_holds_new 8) as H0.
  destruct (ready_insert_holds _ _ PriorityClass.Normal 3 100 H0) as (r1 & E1 & H1); [set_solver|done|].
  destruct (ready_insert_holds _ _ PriorityClass.Low 1 900 H1) as (r2 & E2 & H2); [|done|].
  { intros e [->|?%elem_of_nil]%elem_of_cons; [done|done]. }
  destruct (ready_insert_holds _ _ PriorityClass.Normal 7 500 H2) as (r3 & E3 & H3); [|done|].
  { intros e [->|[->|?%elem_of_nil]%elem_of_cons]%elem_of_cons; done. }
  assert (demo_set = r3) as ->; [|done].
  vm_compute in E1. injection E1 as <-. vm_compute in E2. injection E2 as <-.
  vm_compute in E3. injection E3 as <-. by vm_compute.
Qed.

Lemma ready_insert_exact_witness :
  ∃ rs', ready_insert demo_set PriorityClass.Normal 3 800 = Done rs' ∧
    ready_holds rs' [MkReadyEntry PriorityClass.Normal 3 800;
      MkReadyEntry PriorityClass.Normal 7 500; MkReadyEntry PriorityClass.Low 1 900].
Proof.
  apply (ready_insert_exact demo_set demo_entries); [apply demo_set_holds|].
  right. exists 100. symmetry.
  exact (Permutation_cons_append [MkReadyEntry PriorityClass.Normal 7 500;
    MkReadyEntry PriorityClass.Low 1 900] _).
Defined.

(** [remove] takes exactly the entry of the given class and job out of the
    set, and reports false, changing nothing, exactly when there is none; it
    never panics. *)
Theorem ready_remove_exact rs E c job :
  ready_holds rs E →
  ∃ rs' b E', ready_remove rs c job = Done (rs', b) ∧ ready_holds rs' E' ∧
    (if (b : bool) then (∃ s, E ≡ₚ MkReadyEntry c job s :: E')
     else (E' = E ∧ ∀ s, MkReadyEntry c job s ∉ E)).
Proof. apply ready_remove_holds. Qed.

Lemma ready_remove_exact_witness :
  ∃ rs' b E', ready_remove demo_set PriorityClass.Normal 3 = Done (rs', b) ∧ ready_holds rs' E' ∧
    (if (b : bool) then (∃ s, demo_entries ≡ₚ MkReadyEntry PriorityClass.Normal 3 s :: E')
     else (E' = demo_entries ∧ ∀ s, MkReadyEntry PriorityClass.Normal 3 s ∉ demo_entries)).
Proof. apply (ready_remove_exact demo_set demo_entries), demo_set_holds. Defined.

(** [drain_ordered_into] returns, within its fuel and without a panic, the
    [min(limit, len)] highest entries in strictly decreasing order (class
    first, then score, then the older id); each outranks everything left. *)
Theorem ready_drain_in_order rs E limit :
  ready_holds rs E → NoDup E →
  ∃ rs' out E', drain_ordered_into rs limit = Done (rs', out) ∧ ready_holds rs' E' ∧
    E ≡ₚ out ++ E' ∧ StronglySorted ready_before out ∧
    (∀ a b, a ∈ out → b ∈ E' → ready_before a b) ∧
    Z.of_nat (length out) = Z.max 0 (Z.min limit (Z.of_nat (length E))).
Proof. apply drain_ordered_into_holds. Qed.

Lemma ready_drain_in_order_witness :
  (drain_ordered_into demo_set 2 ⇓ fun r =>
     r.2 = [MkReadyEntry PriorityClass.Normal 7 500; MkReadyEntry PriorityClass.Normal 3 100]) ∧
  ∃ rs' out E', drain_ordered_into demo_set 2 = Done (rs', out) ∧ ready_holds rs' E' ∧
    demo_entries ≡ₚ out ++ E' ∧ StronglySorted ready_before out ∧
    (∀ a b, a ∈ out → b ∈ E' → ready_before a b) ∧
    Z.of_nat (length out) = Z.max 0 (Z.min 2 (Z.of_nat (length demo_entries))).
Proof.
  split; [by vm_compute|]. apply ready_drain_in_order; [apply demo_set_holds|].
  apply (bool_decide_unpack _). by vm_compute.
Defined.
