(* ===== verification/Eligibility.v ===== *)
(** * Dependency eligibility

    [crates/tasker-core/src/policy/eligibility.rs]: the reverse dependency
    index.  The invariant ties every tracked job's unsatisfied count to the
    edges that still point at it; completion promotes exactly the jobs whose
    last edges it removes, and termination retires exactly the transitive
    dependents. *)

From stdpp Require Import base list numbers option sorting sets relations.
From Stdlib Require Import ZArith Lia.
From S2P Require Import Prelude Domain Arena Job.
Open Scope Z_scope.

Definition NO_OWNER : JobId := u64_max.

Module Readiness.
Inductive Readiness : Type := Ready | Blocked | Cancelled.
End Readiness.
Abbreviation Readiness := Readiness.Readiness.

Record DependencyError : Type := MkDependencyError {
  de_job : JobId;
  de_dependency : JobId;
}.

(** The reusable work stack of [on_terminated] is local to the call: it is
    cleared on entry and empty on exit. *)
Record DependencyTracker : Type := MkTracker {
  owner : list JobId;
  unsatisfied : list Z;
  dependents : list (list JobId);
}.

Definition Tracker_new : DependencyTracker := MkTracker [] [] [].

Definition tracker_reserve_slots (t : DependencyTracker) (slots : Z) : DependencyTracker :=
  if Z.of_nat (length (owner t)) <? slots
  then MkTracker (vec_grow (owner t) (Z.to_nat slots) NO_OWNER)
                 (vec_grow (unsatisfied t) (Z.to_nat slots) 0)
                 (vec_grow (dependents t) (Z.to_nat slots) [])
  else t.

Definition Tracker_with_slots (slots : Z) : DependencyTracker :=
  tracker_reserve_slots Tracker_new slots.

Definition is_tracked (t : DependencyTracker) (id : JobId) : bool :=
  match vec_get (owner t) (JobId_index id) with
  | Some o => o =? id
  | None => false
  end.

Definition tracker_unsatisfied (t : DependencyTracker) (id : JobId) : exec (option Z) :=
  if is_tracked t id
  then let! n := vec_at (unsatisfied t) (JobId_index id) in Done (Some n)
  else Done None.

Definition clear_index (t : DependencyTracker) (index : Z) : exec DependencyTracker :=
  let! owner' := vec_put (owner t) index NO_OWNER in
  let! unsatisfied' := vec_put (unsatisfied t) index 0 in
  let! dependents' := vec_put (dependents t) index [] in
  Done (MkTracker owner' unsatisfied' dependents').

(** The loop of [classify] over the dependencies. *)
Fixpoint classify_loop (id : JobId) (jobs : Arena Job) (ds : list JobId) (pending : Z)
  : result Readiness DependencyError :=
  match ds with
  | [] => Ok (if pending =? 0 then Readiness.Ready else Readiness.Blocked)
  | dep :: ds' =>
      if dep =? id then Err (MkDependencyError id dep)
      else
        match Arena_get jobs dep with
        | None => Err (MkDependencyError id dep)
        | Some target =>
            match state target with
            | JobState.Completed => classify_loop id jobs ds' pending
            | JobState.Failed | JobState.Cancelled => Ok Readiness.Cancelled
            | _ => classify_loop id jobs ds' (wrap32 (pending + 1))
            end
        end
  end.

Definition classify (id : JobId) (job : Job) (jobs : Arena Job)
  : result Readiness DependencyError :=
  classify_loop id jobs (deps job) 0.

(** The [is_pending] closure of [register]. *)
Definition is_pending (jobs : Arena Job) (dep : JobId) : bool :=
  match Arena_get jobs dep with
  | Some t => negb (is_terminal (state t))
  | None => false
  end.

(** One dependency of the commit pass. *)
Definition register_dep (jobs : Arena Job) (id : JobId) (acc : DependencyTracker * Z) (dep : JobId)
  : exec (DependencyTracker * Z) :=
  let '(t, pending) := acc in
  if negb (is_pending jobs dep) then Done (t, pending)
  else
    let t := tracker_reserve_slots t (JobId_index dep + 1) in
    let dep_index := JobId_index dep in
    let! o := vec_at (owner t) dep_index in
    let! t :=
      (if negb (o =? dep) then
         let! t := clear_index t dep_index in
         let! owner' := vec_put (owner t) dep_index dep in
         Done (MkTracker owner' (unsatisfied t) (dependents t))
       else Done t) in
    let! ds := vec_at (dependents t) dep_index in
    let! dependents' := vec_put (dependents t) dep_index (ds ++ [id]) in
    Done (MkTracker (owner t) (unsatisfied t) dependents', wrap32 (pending + 1)).

Definition register (t : DependencyTracker) (id : JobId) (job : Job) (jobs : Arena Job)
  : exec (DependencyTracker * result Readiness DependencyError) :=
  match classify id job jobs with
  | Err e => Done (t, Err e)
  | Ok Readiness.Cancelled => Done (t, Ok Readiness.Cancelled)
  | Ok readiness =>
      let t := tracker_reserve_slots t (JobId_index id + 1) in
      let index := JobId_index id in
      let! t := clear_index t index in
      let! owner' := vec_put (owner t) index id in
      let! '(t, pending) :=
        exec_fold (register_dep jobs id) (MkTracker owner' (unsatisfied t) (dependents t), 0)
                  (deps job) in
      let! unsatisfied' := vec_put (unsatisfied t) index pending in
      Done (MkTracker (owner t) unsatisfied' (dependents t), Ok readiness)
  end.

(** One dependent of a completed job. *)
Definition satisfy (acc : DependencyTracker * list JobId) (dependent : JobId)
  : exec (DependencyTracker * list JobId) :=
  let '(t, promoted) := acc in
  let d := JobId_index dependent in
  let! o := vec_at (owner t) d in
  if negb (o =? dependent) then Done (t, promoted)
  else
    let! n := vec_at (unsatisfied t) d in
    if 0 <? n then
      let! unsatisfied' := vec_put (unsatisfied t) d (n - 1) in
      let t := MkTracker (owner t) unsatisfied' (dependents t) in
      Done (t, if n - 1 =? 0 then promoted ++ [dependent] else promoted)
    else Done (t, promoted).

Definition tracker_on_completed (t : DependencyTracker) (id : JobId) (promoted : list JobId)
  : exec (DependencyTracker * list JobId) :=
  let index := JobId_index id in
  if negb (is_tracked t id) then Done (t, promoted)
  else
    let! ds := vec_at (dependents t) index in
    let! '(t, promoted) := exec_fold satisfy (t, promoted) ds in
    let! t := clear_index t index in
    Done (t, promoted).

(** The [while let Some(current) = stack.pop()] loop; the head of the list is
    the top of the stack. *)
Fixpoint cascade_loop (fuel : nat) (t : DependencyTracker) (id : JobId) (stack cascade : list JobId)
  : exec (DependencyTracker * list JobId) :=
  match stack with
  | [] => Done (t, cascade)
  | current :: stack' =>
      match fuel with
      | O => NoFuel
      | S fuel' =>
          let index := JobId_index current in
          if negb (is_tracked t current) then cascade_loop fuel' t id stack' cascade
          else
            let cascade := if negb (current =? id) then cascade ++ [current] else cascade in
            let! ds := vec_at (dependents t) index in
            let! t := clear_index t index in
            cascade_loop fuel' t id (rev ds ++ stack') cascade
      end
  end.

(** Every popped entry was pushed once, and each edge is pushed at most once. *)
Definition cascade_fuel (t : DependencyTracker) : nat := S (length (concat (dependents t))).

Definition tracker_on_terminated (t : DependencyTracker) (id : JobId) (cascade : list JobId)
  : exec (DependencyTracker * list JobId) :=
  cascade_loop (cascade_fuel t) t id [id] cascade.

Definition tracker_retire (t : DependencyTracker) (id : JobId) : exec DependencyTracker :=
  if is_tracked t id then clear_index t (JobId_index id) else Done t.

(** ** Edges and the invariant *)

Definition edges (t : DependencyTracker) : list JobId := concat (dependents t).

Definition count_id (d : JobId) (l : list JobId) : Z := Z.of_nat (count_if (Z.eqb d) l).

(** The edges that still point at [d], with multiplicity. *)
Definition edge_count (t : DependencyTracker) (d : JobId) : Z := count_id d (edges t).

Definition deps_of (t : DependencyTracker) (id : JobId) : list JobId :=
  default [] (vec_get (dependents t) (JobId_index id)).

(** The live jobs of the tracker. *)
Definition tracked (t : DependencyTracker) (id : JobId) : Prop :=
  id ≠ NO_OWNER ∧ vec_get (owner t) (JobId_index id) = Some id.

#[export] Instance tracked_dec t id : Decision (tracked t id).
Proof. unfold tracked. apply _. Defined.

Record Tracker_tables (t : DependencyTracker) : Prop := {
  tt_unsat : length (unsatisfied t) = length (owner t);
  tt_deps : length (dependents t) = length (owner t);
  tt_place : ∀ k o, vec_get (owner t) k = Some o → o ≠ NO_OWNER → JobId_index o = k;
  tt_range : ∀ d, d ∈ edges t →
    d ≠ NO_OWNER ∧ JobId_index d < Z.of_nat (length (owner t));
}.

Record Tracker_wf (t : DependencyTracker) : Prop := {
  tw_tables : Tracker_tables t;
  tw_vacant : ∀ k, vec_get (owner t) k = Some NO_OWNER → vec_get (dependents t) k = Some [];
  tw_count : ∀ d, tracked t d →
    vec_get (unsatisfied t) (JobId_index d) = Some (edge_count t d);
}.

Lemma is_tracked_spec t id : id ≠ NO_OWNER → is_tracked t id = true ↔ tracked t id.
Proof.
  intros Hne. unfold is_tracked, tracked. destruct (vec_get _ _) as [o|]; [|naive_solver].
  rewrite Z.eqb_eq. naive_solver.
Qed.

Lemma is_tracked_false t id : id ≠ NO_OWNER → is_tracked t id = false ↔ ¬ tracked t id.
Proof. intros Hne. rewrite <-(is_tracked_spec t id Hne). by destruct (is_tracked t id). Qed.

(** *** Counting *)

Lemma count_id_app d l l' : count_id d (l ++ l') = count_id d l + count_id d l'.
Proof. unfold count_id. rewrite count_if_app. lia. Qed.

Lemma count_id_cons d x l : count_id d (x :: l) = (if d =? x then 1 else 0) + count_id d l.
Proof. unfold count_id, count_if. simpl. destruct (d =? x); simpl; lia. Qed.

Lemma count_id_nonneg d l : 0 <= count_id d l.
Proof. unfold count_id. lia. Qed.

Lemma count_id_elem d l : d ∈ l ↔ 0 < count_id d l.
Proof.
  induction l as [|x l IH]; [rewrite elem_of_nil; split; [done|by vm_compute]|].
  rewrite count_id_cons, elem_of_cons, IH. pose proof (count_id_nonneg d l).
  destruct (Z.eqb_spec d x); naive_solver lia.
Qed.

Lemma count_id_absent d l : d ∉ l → count_id d l = 0.
Proof. rewrite count_id_elem. pose proof (count_id_nonneg d l). lia. Qed.

Lemma concat_insert_count d (L : list (list JobId)) k l l' :
  vec_get L k = Some l →
  count_id d (concat (<[Z.to_nat k := l']> L)) = count_id d (concat L) - count_id d l + count_id d l'.
Proof.
  intros [_ H]%vec_get_Some. revert H. generalize (Z.to_nat k) as i. intros i.
  revert i. induction L as [|x L IH]; intros [|i] H; simplify_eq/=; rewrite !count_id_app; [lia|].
  rewrite (IH i H). lia.
Qed.

Lemma concat_insert_elem (L : list (list JobId)) k l l' d :
  vec_get L k = Some l → d ∈ concat (<[Z.to_nat k := l']> L) → d ∈ concat L ∨ d ∈ l'.
Proof.
  intros H. rewrite !count_id_elem, (concat_insert_count d L k l l' H).
  pose proof (count_id_nonneg d l). lia.
Qed.

Lemma length_concat_clear (L : list (list JobId)) k l :
  vec_get L k = Some l →
  (length (concat (<[Z.to_nat k := []]> L)) + length l)%nat = length (concat L).
Proof.
  intros [_ H]%vec_get_Some. revert H. generalize (Z.to_nat k) as i. intros i.
  revert i. induction L as [|x L IH]; intros [|i] H; simplify_eq/=; rewrite !length_app; [lia|].
  rewrite <-(IH i H). lia.
Qed.

Lemma deps_of_edges t id d : d ∈ deps_of t id → d ∈ edges t.
Proof.
  unfold deps_of, edges. destruct (vec_get _ _) as [l|] eqn:E; simpl; [|by intros ?%elem_of_nil].
  intros Hd. apply vec_get_Some in E as [_ E]. apply list_elem_of_In, in_concat.
  exists l. split; [|by apply list_elem_of_In]. apply list_elem_of_In. by eapply list_elem_of_lookup_2.
Qed.

Lemma count_deps_le t id d : count_id d (deps_of t id) <= edge_count t d.
Proof.
  unfold deps_of, edge_count, edges. destruct (vec_get _ _) as [l|] eqn:E; simpl.
  - pose proof (concat_insert_count d _ _ _ [] E) as H.
    pose proof (count_id_nonneg d (concat (<[Z.to_nat (JobId_index id) := []]> (dependents t)))).
    change (count_id d []) with 0 in H. lia.
  - apply count_id_nonneg.
Qed.

(** *** The primitives on the tables *)

Lemma vec_get_total {A} (v : list A) k :
  0 <= k < Z.of_nat (length v) → ∃ x, vec_get v k = Some x.
Proof.
  intros Hk. rewrite vec_get_lookup by lia. apply lookup_lt_is_Some. lia.
Qed.

Definition cleared (t : DependencyTracker) (k : Z) : DependencyTracker :=
  MkTracker (<[Z.to_nat k := NO_OWNER]> (owner t)) (<[Z.to_nat k := 0]> (unsatisfied t))
            (<[Z.to_nat k := []]> (dependents t)).

Lemma clear_index_Done t k :
  Tracker_tables t → 0 <= k < Z.of_nat (length (owner t)) → clear_index t k = Done (cleared t k).
Proof.
  intros Ht Hk. unfold clear_index. rewrite vec_put_Done by done. cbn [exec_bind].
  rewrite vec_put_Done by (rewrite (tt_unsat _ Ht); done). cbn [exec_bind].
  rewrite vec_put_Done by (rewrite (tt_deps _ Ht); done). done.
Qed.

Lemma cleared_tables t k :
  Tracker_tables t → 0 <= k < Z.of_nat (length (owner t)) → Tracker_tables (cleared t k).
Proof.
  intros Ht Hk. destruct (vec_get_total (dependents t) k) as [l Hl]; [by rewrite (tt_deps _ Ht)|].
  split; simpl; rewrite ?length_insert; [apply Ht..| |].
  { intros k' o. rewrite vec_get_insert by done. case_decide; [naive_solver|]. apply Ht. }
  intros d Hd. apply (concat_insert_elem _ _ _ _ _ Hl) in Hd as [?|?%elem_of_nil]; [|done].
  by apply (tt_range _ Ht).
Qed.

Lemma cleared_tracked t k d :
  0 <= k < Z.of_nat (length (owner t)) →
  tracked (cleared t k) d ↔ tracked t d ∧ JobId_index d ≠ k.
Proof.
  intros Hk. unfold tracked. simpl. rewrite vec_get_insert by done. case_decide; naive_solver.
Qed.

Lemma tracked_range t id : tracked t id → 0 <= JobId_index id < Z.of_nat (length (owner t)).
Proof. intros [_ H]. by eapply vec_get_range. Qed.

Lemma tracked_index_inj t a b : tracked t a → tracked t b → JobId_index a = JobId_index b → a = b.
Proof. intros [_ Ha] [_ Hb] E. rewrite E in Ha. congruence. Qed.

Lemma cleared_deps_of t id d :
  0 <= JobId_index id < Z.of_nat (length (owner t)) → Tracker_tables t →
  deps_of (cleared t (JobId_index id)) d =
    if decide (JobId_index id = JobId_index d) then [] else deps_of t d.
Proof.
  intros Hk Ht. unfold deps_of. simpl. rewrite vec_get_insert by (rewrite (tt_deps _ Ht); done).
  by case_decide.
Qed.

Lemma deps_of_get t id :
  Tracker_tables t → 0 <= JobId_index id < Z.of_nat (length (owner t)) →
  vec_get (dependents t) (JobId_index id) = Some (deps_of t id).
Proof.
  intros Ht Hk. unfold deps_of.
  destruct (vec_get_total (dependents t) (JobId_index id)) as [l Hl]; [by rewrite (tt_deps _ Ht)|].
  by rewrite Hl.
Qed.

Lemma cleared_edge_count t id d :
  Tracker_tables t → 0 <= JobId_index id < Z.of_nat (length (owner t)) →
  edge_count (cleared t (JobId_index id)) d = edge_count t d - count_id d (deps_of t id).
Proof.
  intros Ht Hk. unfold edge_count, edges. simpl.
  rewrite (concat_insert_count d _ _ _ [] (deps_of_get t id Ht Hk)).
  change (count_id d []) with 0. lia.
Qed.

(** ** Completion *)

(** The tracker after the counts of [seen] have been decremented. *)
Record satisfied_by (t : DependencyTracker) (seen : list JobId) (t' : DependencyTracker)
    (fired : list JobId) : Prop := {
  sb_owner : owner t' = owner t;
  sb_deps : dependents t' = dependents t;
  sb_len : length (unsatisfied t') = length (unsatisfied t);
  sb_count : ∀ d, tracked t d →
    vec_get (unsatisfied t') (JobId_index d) = Some (edge_count t d - count_id d seen);
  sb_fired : ∀ d, d ∈ fired ↔ tracked t d ∧ d ∈ seen ∧ edge_count t d = count_id d seen;
  sb_nodup : NoDup fired;
}.

Lemma satisfy_step t seen rest d t' fired promoted :
  Tracker_wf t → (∀ x, count_id x (seen ++ d :: rest) <= edge_count t x) →
  d ∈ edges t → satisfied_by t seen t' fired →
  ∃ t'' fired', satisfy (t', promoted ++ fired) d = Done (t'', promoted ++ fired') ∧
    satisfied_by t (seen ++ [d]) t'' fired'.
Proof.
  intros Hwf Hle Hd Hs. pose proof (tw_tables _ Hwf) as Ht.
  destruct (tt_range _ Ht d Hd) as [Hne Hr]. pose proof (JobId_index_range d).
  destruct (vec_get_total (owner t) (JobId_index d)) as [o Ho]; [lia|].
  unfold satisfy. rewrite (sb_owner _ _ _ _ Hs), (vec_at_Done _ _ _ Ho). cbn [exec_bind].
  destruct (Z.eqb_spec o d) as [->|Hod]; simpl.
  - assert (tracked t d) as Htr by done.
    rewrite (vec_at_Done _ _ _ (sb_count _ _ _ _ Hs d Htr)). cbn [exec_bind].
    pose proof (Hle d) as Hled. rewrite count_id_app, count_id_cons, Z.eqb_refl in Hled.
    pose proof (count_id_nonneg d rest).
    destruct (Z.ltb_spec 0 (edge_count t d - count_id d seen)); [|lia].
    rewrite vec_put_Done by (rewrite (sb_len _ _ _ _ Hs), (tt_unsat _ Ht); lia). cbn [exec_bind].
    set (n := edge_count t d - count_id d seen) in *.
    exists (MkTracker (owner t) (<[Z.to_nat (JobId_index d) := n - 1]> (unsatisfied t')) (dependents t')),
      (if n - 1 =? 0 then fired ++ [d] else fired).
    split; [destruct (n - 1 =? 0); rewrite ?app_assoc; done|]. split; simpl.
    + done.
    + apply Hs.
    + rewrite length_insert. apply Hs.
    + intros x Hx. rewrite vec_get_insert by (rewrite (sb_len _ _ _ _ Hs), (tt_unsat _ Ht); lia).
      rewrite count_id_app, count_id_cons. change (count_id x []) with 0. case_decide as Ex.
      * apply (tracked_index_inj t d x Htr Hx) in Ex as ->. rewrite Z.eqb_refl. f_equal. lia.
      * rewrite (sb_count _ _ _ _ Hs x Hx). destruct (Z.eqb_spec x d) as [->|]; [done|]. f_equal. lia.
    + intros x. rewrite count_id_app, count_id_cons, elem_of_app, list_elem_of_singleton.
      change (count_id x []) with 0. destruct (Z.eqb_spec x d) as [->|Hxd].
      * destruct (Z.eqb_spec (n - 1) 0); [rewrite elem_of_app, list_elem_of_singleton|];
          rewrite (sb_fired _ _ _ _ Hs d); naive_solver lia.
      * destruct (n - 1 =? 0); [rewrite elem_of_app, list_elem_of_singleton|];
          rewrite (sb_fired _ _ _ _ Hs x); naive_solver lia.
    + destruct (Z.eqb_spec (n - 1) 0); [|apply Hs]. apply NoDup_app. split; [apply Hs|].
      split; [|apply NoDup_singleton]. intros x Hx ->%list_elem_of_singleton.
      apply (sb_fired _ _ _ _ Hs d) in Hx as (_ & _ & ?). lia.
  - exists t', fired. split; [done|]. split; [apply Hs..| | |apply Hs].
    + intros x Hx. rewrite (sb_count _ _ _ _ Hs x Hx), count_id_app, count_id_cons.
      change (count_id x []) with 0. destruct (Z.eqb_spec x d) as [->|]; [|f_equal; lia].
      destruct Hx; congruence.
    + intros x. rewrite (sb_fired _ _ _ _ Hs x), count_id_app, count_id_cons, elem_of_app,
        list_elem_of_singleton. change (count_id x []) with 0.
      destruct (Z.eqb_spec x d) as [->|]; [|naive_solver lia].
      split; intros [[_ ?] _]; congruence.
Qed.

Lemma satisfy_fold t l rest seen t' fired promoted :
  Tracker_wf t → l = seen ++ rest → (∀ x, count_id x l <= edge_count t x) →
  (∀ x, x ∈ l → x ∈ edges t) → satisfied_by t seen t' fired →
  ∃ t'' fired', exec_fold satisfy (t', promoted ++ fired) rest = Done (t'', promoted ++ fired') ∧
    satisfied_by t l t'' fired'.
Proof.
  intros Hwf. revert seen t' fired. induction rest as [|d rest IH]; intros seen t' fired Hl Hle Hin Hs.
  { rewrite app_nil_r in Hl. subst. by exists t', fired. }
  cbn [exec_fold]. destruct (satisfy_step t seen rest d t' fired promoted) as (t1 & f1 & -> & Hs1);
    [done|by rewrite <-Hl|apply Hin; rewrite Hl; set_solver|done|].
  cbn [exec_bind]. apply (IH (seen ++ [d])); [by rewrite <-app_assoc|done..].
Qed.

Lemma satisfied_by_refl t : Tracker_wf t → satisfied_by t [] t [].
Proof.
  intros Hwf. split; [done..| | |constructor].
  - intros d Hd. rewrite (tw_count _ Hwf d Hd). change (count_id d []) with 0. f_equal. lia.
  - intros d. rewrite !elem_of_nil. naive_solver.
Qed.

(** Clearing [id] after its dependents were served restores the invariant. *)
Lemma satisfied_cleared_wf t id t' fired :
  Tracker_wf t → tracked t id → satisfied_by t (deps_of t id) t' fired →
  Tracker_tables t' ∧ Tracker_wf (cleared t' (JobId_index id)).
Proof.
  intros Hwf Hid Hs. pose proof (tw_tables _ Hwf) as Ht. pose proof (tracked_range _ _ Hid) as Hr.
  destruct t' as [ow un de]. pose proof Hs as [E1 E2 E3 Hc _ _]. simpl in *. subst ow de.
  assert (Tracker_tables (MkTracker (owner t) un (dependents t))) as Ht'.
  { split; simpl; [by rewrite E3; apply Ht|apply Ht|apply Ht|apply Ht]. }
  split; [done|]. split; [by apply cleared_tables|..].
  - intros k. simpl. rewrite !vec_get_insert by (rewrite ?(tt_deps _ Ht); done).
    case_decide; [done|]. apply Hwf.
  - intros d [Hd Hne]%cleared_tracked; [|done].
    rewrite (cleared_edge_count (MkTracker (owner t) un (dependents t)) id) by done. simpl.
    rewrite vec_get_insert by (rewrite E3, (tt_unsat _ Ht); done).
    rewrite decide_False by done. by apply Hc.
Qed.

Lemma tracker_on_completed_spec t id promoted :
  Tracker_wf t → id ≠ NO_OWNER →
  ∃ t' fired, tracker_on_completed t id promoted = Done (t', promoted ++ fired) ∧ Tracker_wf t' ∧
    NoDup fired ∧
    (∀ d, d ∈ fired ↔ tracked t id ∧ tracked t d ∧ d ∈ deps_of t id ∧
                      edge_count t d = count_id d (deps_of t id)) ∧
    (∀ d, tracked t' d ↔ tracked t d ∧ d ≠ id) ∧
    (∀ d, tracked t id → edge_count t' d = edge_count t d - count_id d (deps_of t id)) ∧
    (¬ tracked t id → t' = t).
Proof.
  intros Hwf Hne. unfold tracker_on_completed. destruct (is_tracked t id) eqn:E; simpl.
  - apply is_tracked_spec in E; [|done]. pose proof (tracked_range _ _ E) as Hr.
    pose proof (tw_tables _ Hwf) as Ht.
    rewrite (vec_at_Done _ _ _ (deps_of_get t id Ht Hr)). cbn [exec_bind].
    destruct (satisfy_fold t (deps_of t id) (deps_of t id) [] t [] promoted) as (t1 & fired & Ef & Hs);
      [done|done|apply count_deps_le|apply deps_of_edges|by apply satisfied_by_refl|].
    rewrite app_nil_r in Ef. rewrite Ef. cbn [exec_bind].
    destruct (satisfied_cleared_wf t id t1 fired Hwf E Hs) as [Ht1 Hwf1].
    rewrite clear_index_Done by (rewrite ?(sb_owner _ _ _ _ Hs); done). cbn [exec_bind].
    eexists _, fired. split; [done|]. split; [done|]. split; [apply Hs|].
    split; [intros d; rewrite (sb_fired _ _ _ _ Hs d); naive_solver|]. split; [|split; [|done]].
    + intros d. rewrite cleared_tracked by (rewrite (sb_owner _ _ _ _ Hs); done).
      unfold tracked. rewrite (sb_owner _ _ _ _ Hs). split; intros [Hd Hn]; (split; [done|]).
      * naive_solver.
      * intros Ei. apply Hn. symmetry. by apply (tracked_index_inj t).
    + intros d _. rewrite cleared_edge_count; [|done|rewrite (sb_owner _ _ _ _ Hs); done].
      unfold edge_count, edges, deps_of. by rewrite (sb_deps _ _ _ _ Hs).
  - apply is_tracked_false in E; [|done]. exists t, []. rewrite app_nil_r.
    split; [done|]. split; [done|]. split; [constructor|]. split; [|split; [|by split]].
    + intros d. rewrite elem_of_nil. naive_solver.
    + naive_solver.
Qed.

(** ** Termination cascades *)

(** [b] waits for [a], both live. *)
Definition dep_edge (t : DependencyTracker) (a b : JobId) : Prop :=
  tracked t a ∧ tracked t b ∧ b ∈ deps_of t a.

(** The cascade loop from [t0]: [V] the visited jobs in order, [R] the edges
    removed so far. *)
Record cascade_inv (t0 : DependencyTracker) (id : JobId) (t : DependencyTracker)
    (stack V R : list JobId) : Prop := {
  ci_tables : Tracker_tables t;
  ci_tracked : ∀ d, tracked t d ↔ tracked t0 d ∧ d ∉ V;
  ci_vacant : ∀ k, vec_get (owner t) k = Some NO_OWNER → vec_get (dependents t) k = Some [];
  ci_keep : ∀ d, tracked t d → deps_of t d = deps_of t0 d ∧
    vec_get (unsatisfied t) (JobId_index d) = vec_get (unsatisfied t0) (JobId_index d);
  ci_count : ∀ d, edge_count t d = edge_count t0 d - count_id d R;
  ci_visited : ∀ x, x ∈ V → tracked t0 x ∧ rtc (dep_edge t0) id x;
  ci_nodup : NoDup V;
  ci_stack : ∀ x, x ∈ stack → x ≠ NO_OWNER ∧ (tracked t0 x → rtc (dep_edge t0) id x);
  ci_edges : ∀ a b, a ∈ V → b ∈ deps_of t0 a → b ∈ R;
  ci_frontier : ∀ b, b ∈ R → tracked t0 b → b ∈ V ∨ b ∈ stack;
  ci_start : tracked t0 id → id ∈ V ∨ id ∈ stack;
}.

Lemma cascade_inv_skip t0 id t x stack V R :
  cascade_inv t0 id t (x :: stack) V R → ¬ tracked t x → cascade_inv t0 id t stack V R.
Proof.
  intros [H1 H2 H3 H4 H5 H6 H7 H8 H9 H10 H11] Hx. split; try done.
  - intros y Hy. apply H8. by right.
  - intros b Hb Ht. destruct (H10 b Hb Ht) as [?|[->|?]%elem_of_cons]; [by left| |by right].
    left. destruct (decide (x ∈ V)); [done|]. destruct Hx. by apply H2.
  - intros Ht. destruct (H11 Ht) as [?|[->|?]%elem_of_cons]; [by left| |by right].
    left. destruct (decide (x ∈ V)); [done|]. destruct Hx. by apply H2.
Qed.

Lemma cascade_inv_visit t0 id t x stack V R :
  cascade_inv t0 id t (x :: stack) V R → tracked t x →
  cascade_inv t0 id (cleared t (JobId_index x)) (rev (deps_of t x) ++ stack) (V ++ [x])
              (R ++ deps_of t x).
Proof.
  intros [H1 H2 H3 H4 H5 H6 H7 H8 H9 H10 H11] Hx.
  pose proof (tracked_range _ _ Hx) as Hr. pose proof (proj1 (H2 x) Hx) as [Hx0 HxV].
  destruct (H4 x Hx) as [Edeps _].
  assert (rtc (dep_edge t0) id x) as Hreach by (apply H8; [by left|done]).
  assert (∀ d, d ∈ rev (deps_of t x) ↔ d ∈ deps_of t x) as Hrev.
  { intros d. by rewrite !list_elem_of_In, <-in_rev. }
  split.
  - by apply cleared_tables.
  - intros d. rewrite cleared_tracked, H2, not_elem_of_app, not_elem_of_cons by done. split.
    + intros [[? ?] Hn]. split; [done|]. split; [done|]. split; [naive_solver|apply not_elem_of_nil].
    + intros (? & ? & ? & _). split; [done|]. intros Ei. by apply (tracked_index_inj t0) in Ei.
  - intros k. simpl. rewrite !vec_get_insert by (rewrite ?(tt_deps _ H1); done).
    case_decide; [done|]. apply H3.
  - intros d [Hd Hne]%cleared_tracked; [|done]. rewrite cleared_deps_of by done.
    rewrite decide_False by done. simpl.
    rewrite vec_get_insert by (rewrite (tt_unsat _ H1); done). rewrite decide_False by done.
    by apply H4.
  - intros d. rewrite cleared_edge_count, H5, count_id_app by done. lia.
  - intros y [?|Hy%list_elem_of_singleton]%elem_of_app; [auto|]. by subst.
  - apply NoDup_app. split; [done|]. split; [|apply NoDup_singleton].
    by intros y ? ->%list_elem_of_singleton.
  - intros y [Hy%Hrev|?]%elem_of_app; [|apply H8; by right]. split.
    + by apply deps_of_edges, (tt_range _ H1) in Hy as [? _].
    + intros Hty. eapply rtc_r; [exact Hreach|]. split; [done|]. split; [done|]. by rewrite <-Edeps.
  - intros a b [Ha|Ha%list_elem_of_singleton]%elem_of_app Hb; apply elem_of_app.
    + left. by eapply H9.
    + subst a. right. by rewrite Edeps.
  - intros b [Hb|Hb]%elem_of_app Ht; rewrite !elem_of_app, Hrev, list_elem_of_singleton; [|tauto].
    destruct (H10 b Hb Ht) as [?|[->|?]%elem_of_cons]; tauto.
  - intros Ht. rewrite !elem_of_app, list_elem_of_singleton.
    destruct (H11 Ht) as [?|[->|?]%elem_of_cons]; tauto.
Qed.

Lemma cascade_loop_spec fuel t0 id t stack V R casc :
  cascade_inv t0 id t stack V R → (length stack + length (edges t) <= fuel)%nat →
  ∃ t' V' R', cascade_loop fuel t id stack (casc ++ filter (.≠ id) V) =
                Done (t', casc ++ filter (.≠ id) V') ∧
    cascade_inv t0 id t' [] V' R'.
Proof.
  revert t stack V R. induction fuel as [|fuel IH]; intros t [|x stack] V R Hi Hf;
    [by eexists _, _, _|simpl in Hf; lia|by eexists _, _, _|].
  cbn [cascade_loop]. destruct (ci_stack _ _ _ _ _ _ Hi x) as [Hne _]; [by left|].
  destruct (is_tracked t x) eqn:E; simpl.
  - apply is_tracked_spec in E; [|done]. pose proof (ci_tables _ _ _ _ _ _ Hi) as Ht.
    pose proof (tracked_range _ _ E) as Hr.
    rewrite (vec_at_Done _ _ _ (deps_of_get t x Ht Hr)). cbn [exec_bind].
    rewrite clear_index_Done by done. cbn [exec_bind].
    replace (if negb (x =? id) then (casc ++ filter (.≠ id) V) ++ [x] else casc ++ filter (.≠ id) V)
      with (casc ++ filter (.≠ id) (V ++ [x])).
    2:{ rewrite filter_app, filter_cons, filter_nil. destruct (Z.eqb_spec x id); simpl.
        - rewrite decide_False by (intros ?; done). by rewrite app_nil_r.
        - rewrite decide_True by done. by rewrite app_assoc. }
    eapply IH; [by eapply cascade_inv_visit|].
    pose proof (length_concat_clear _ _ _ (deps_of_get t x Ht Hr)). unfold edges in *. simpl in *.
    rewrite length_app, length_rev. lia.
  - apply is_tracked_false in E; [|done]. eapply IH; [by eapply cascade_inv_skip|].
    simpl in Hf. lia.
Qed.

(** Exhausted, the loop has visited exactly what [id] reaches. *)
Lemma cascade_inv_done t0 id t V R d :
  cascade_inv t0 id t [] V R → d ∈ V ↔ tracked t0 id ∧ rtc (dep_edge t0) id d.
Proof.
  intros Hi. split.
  - intros Hd. apply (ci_visited _ _ _ _ _ _ Hi) in Hd as [Hd Hr]. split; [|done].
    apply rtc_inv in Hr as [->|(y & [? _] & _)]; done.
  - intros [Hid Hr]. revert Hr. apply (rtc_ind_r (fun x => x ∈ V)).
    + destruct (ci_start _ _ _ _ _ _ Hi Hid) as [?|?%elem_of_nil]; done.
    + intros a b _ (_ & Hb & Hab) Ha.
      destruct (ci_frontier _ _ _ _ _ _ Hi b) as [?|?%elem_of_nil]; [|done|done|done].
      by eapply ci_edges.
Qed.

Lemma tracker_on_terminated_spec t id cascade :
  Tracker_wf t → id ≠ NO_OWNER →
  ∃ t' C, tracker_on_terminated t id cascade = Done (t', cascade ++ C) ∧ Tracker_wf t' ∧
    NoDup C ∧ (∀ d, d ∈ C ↔ d ≠ id ∧ rtc (dep_edge t) id d) ∧
    (∀ d, tracked t' d ↔ tracked t d ∧ ¬ rtc (dep_edge t) id d) ∧
    (∀ d, edge_count t' d <= edge_count t d) ∧
    (∀ d, tracked t' d → edge_count t' d = edge_count t d).
Proof.
  intros Hwf Hne.
  destruct (cascade_loop_spec (cascade_fuel t) t id t [id] [] [] cascade)
    as (t' & V & R & E & Hi); [|unfold cascade_fuel, edges; simpl; lia|].
  { split; try done.
    - apply Hwf.
    - intros d. pose proof (not_elem_of_nil d). tauto.
    - apply Hwf.
    - intros d. change (count_id d []) with 0. lia.
    - by intros x ?%elem_of_nil.
    - constructor.
    - intros x ->%list_elem_of_singleton. split; [done|]. intros _. constructor.
    - by intros a b ?%elem_of_nil.
    - by intros b ?%elem_of_nil.
    - intros _. right. by left. }
  unfold tracker_on_terminated. rewrite filter_nil, app_nil_r in E.
  exists t', (filter (.≠ id) V). split; [done|].
  assert (∀ d, tracked t' d ↔ tracked t d ∧ ¬ rtc (dep_edge t) id d) as Htr.
  { intros d. rewrite (ci_tracked _ _ _ _ _ _ Hi), (cascade_inv_done _ _ _ _ _ d Hi).
    split; intros [? Hn]; (split; [done|]); [|tauto]. intros Hr. apply Hn. split; [|done].
    apply rtc_inv in Hr as [->|(y & [? _] & _)]; done. }
  assert (∀ d, tracked t' d → edge_count t' d = edge_count t d) as Hkeep.
  { intros d Hd. apply (ci_tracked _ _ _ _ _ _ Hi) in Hd as [Hd HdV].
    rewrite (ci_count _ _ _ _ _ _ Hi), (count_id_absent d R); [lia|]. intros HR.
    destruct (ci_frontier _ _ _ _ _ _ Hi d HR Hd) as [?|?%elem_of_nil]; done. }
  split; [|split; [|split; [|split; [done|split; [|done]]]]].
  - split; [apply Hi|apply Hi|]. intros d Hd. destruct (ci_keep _ _ _ _ _ _ Hi d Hd) as [_ ->].
    rewrite (Hkeep d Hd). apply (ci_tracked _ _ _ _ _ _ Hi) in Hd as [Hd HdV]. by apply (tw_count _ Hwf).
  - apply NoDup_filter, Hi.
  - intros d. rewrite list_elem_of_filter, (cascade_inv_done _ _ _ _ _ d Hi).
    split; [tauto|]. intros [Hd Hr]. split; [done|]. split; [|done].
    apply rtc_inv in Hr as [->|(y & [? _] & _)]; done.
  - intros d. rewrite (ci_count _ _ _ _ _ _ Hi). pose proof (count_id_nonneg d R). lia.
Qed.

Lemma tracker_retire_spec t id :
  Tracker_wf t → id ≠ NO_OWNER →
  ∃ t', tracker_retire t id = Done t' ∧ Tracker_tables t' ∧
    (∀ d, tracked t' d ↔ tracked t d ∧ d ≠ id).
Proof.
  intros Hwf Hne. unfold tracker_retire. destruct (is_tracked t id) eqn:E.
  - apply is_tracked_spec in E; [|done]. pose proof (tracked_range _ _ E).
    rewrite clear_index_Done by (done || apply Hwf). eexists. split; [done|].
    split; [apply cleared_tables; [apply Hwf|done]|]. intros d. rewrite cleared_tracked by done.
    split; intros [? Hn]; (split; [done|]); [naive_solver|]. intros Ei.
    by apply (tracked_index_inj t) in Ei.
  - apply is_tracked_false in E; [|done]. exists t. split; [done|]. split; [apply Hwf|]. naive_solver.
Qed.

(** ** Registration *)

(** Tracked jobs are live and unfinished, and a stale edge never points at a
    live, unfinished job. *)
Record tracker_arena (t : DependencyTracker) (jobs : Arena Job) : Prop := {
  ta_live : ∀ d, tracked t d → is_pending jobs d = true;
  ta_edges : ∀ d, d ∈ edges t → is_pending jobs d = true → tracked t d;
  ta_sentinel : is_pending jobs NO_OWNER = false;
}.

Lemma is_pending_live jobs d :
  is_pending jobs d = true ↔ ∃ j, Arena_get jobs d = Some j ∧ is_terminal (state j) = false.
Proof.
  unfold is_pending. destruct (Arena_get jobs d) as [j|]; [|naive_solver].
  rewrite negb_true_iff. naive_solver.
Qed.

Lemma is_pending_index_inj jobs a b :
  is_pending jobs a = true → is_pending jobs b = true → JobId_index a = JobId_index b → a = b.
Proof.
  intros (ja & Ha%Arena_get_Some & _)%is_pending_live (jb & Hb%Arena_get_Some & _)%is_pending_live E.
  apply JobId_ext; [done|]. rewrite E in Ha. congruence.
Qed.

Lemma edge_count_absent t d : edge_count t d = 0 ↔ d ∉ edges t.
Proof. rewrite count_id_elem. unfold edge_count. pose proof (count_id_nonneg d (edges t)). lia. Qed.

(** Growing the tables changes no view of them. *)
Record same_tracker (t t' : DependencyTracker) : Prop := {
  st_tables : Tracker_tables t';
  st_tracked : ∀ d, tracked t' d ↔ tracked t d;
  st_deps : ∀ d, deps_of t' d = deps_of t d;
  st_edges : edges t' = edges t;
  st_unsat : ∀ d, tracked t d →
    vec_get (unsatisfied t') (JobId_index d) = vec_get (unsatisfied t) (JobId_index d);
  st_vacant : (∀ k, vec_get (owner t) k = Some NO_OWNER → vec_get (dependents t) k = Some []) →
    ∀ k, vec_get (owner t') k = Some NO_OWNER → vec_get (dependents t') k = Some [];
}.

Lemma vec_get_grow {A} (v : list A) n x k y :
  vec_get (vec_grow v n x) k = Some y ↔
  vec_get v k = Some y ∨ (Z.of_nat (length v) <= k < Z.of_nat n ∧ y = x).
Proof. rewrite !vec_get_Some, lookup_vec_grow. naive_solver lia. Qed.

Lemma vec_get_grow_l {A} (v : list A) n x k :
  0 <= k < Z.of_nat (length v) → vec_get (vec_grow v n x) k = vec_get v k.
Proof. intros. rewrite !vec_get_lookup by lia. apply lookup_vec_grow_l. lia. Qed.

Lemma concat_grow (L : list (list JobId)) n : concat (vec_grow L n []) = concat L.
Proof.
  unfold vec_grow. rewrite concat_app. replace (concat (replicate _ _)) with (@nil JobId).
  - apply app_nil_r.
  - induction (n - length L)%nat as [|m IH]; [done|]. simpl. by rewrite <-IH.
Qed.

Lemma reserve_same t n :
  Tracker_tables t → same_tracker t (tracker_reserve_slots t n) ∧
  n <= Z.of_nat (length (owner (tracker_reserve_slots t n))).
Proof.
  intros Ht. unfold tracker_reserve_slots.
  destruct (Z.ltb_spec (Z.of_nat (length (owner t))) n) as [Hlt|]; [|split; [by split|done]].
  split; [|simpl; rewrite length_vec_grow; lia]. split; simpl.
  - split; simpl.
    + rewrite !length_vec_grow, (tt_unsat _ Ht). done.
    + rewrite !length_vec_grow, (tt_deps _ Ht). done.
    + intros k o [?|[_ ->]]%vec_get_grow ?; [|done]. by apply (tt_place _ Ht).
    + intros d. unfold edges. simpl. rewrite concat_grow, length_vec_grow.
      intros [? ?]%(tt_range _ Ht). split; [done|lia].
  - intros d. unfold tracked. simpl. rewrite vec_get_grow. unfold NO_OWNER. naive_solver.
  - intros d. unfold deps_of. simpl. destruct (vec_get (dependents t) (JobId_index d)) as [l|] eqn:E.
    + by rewrite vec_get_grow_l, E by (by eapply vec_get_range).
    + simpl. destruct (vec_get (vec_grow _ _ _) _) as [l|] eqn:E'; [|done].
      apply vec_get_grow in E' as [?|[_ ->]]; [congruence|done].
  - unfold edges. simpl. apply concat_grow.
  - intros d Hd%tracked_range. apply vec_get_grow_l. rewrite (tt_unsat _ Ht). done.
  - intros Hv k. rewrite !vec_get_grow, (tt_deps _ Ht). intros [?|[? _]]; [left; auto|by right].
Qed.

(** A vacant index taken by [x]. *)
Definition occupied_by (t : DependencyTracker) (x : JobId) : DependencyTracker :=
  let c := cleared t (JobId_index x) in
  MkTracker (<[Z.to_nat (JobId_index x) := x]> (owner c)) (unsatisfied c) (dependents c).

Lemma occupied_by_spec t x :
  Tracker_tables t → vec_get (owner t) (JobId_index x) = Some NO_OWNER →
  vec_get (dependents t) (JobId_index x) = Some [] → x ≠ NO_OWNER →
  Tracker_tables (occupied_by t x) ∧
  (∀ d, tracked (occupied_by t x) d ↔ tracked t d ∨ d = x) ∧
  (∀ d, deps_of (occupied_by t x) d = deps_of t d) ∧
  (∀ d, edge_count (occupied_by t x) d = edge_count t d) ∧
  (∀ k, vec_get (unsatisfied (occupied_by t x)) k =
        if decide (JobId_index x = k) then Some 0 else vec_get (unsatisfied t) k) ∧
  (∀ k, vec_get (owner (occupied_by t x)) k =
        if decide (JobId_index x = k) then Some x else vec_get (owner t) k).
Proof.
  intros Ht Ho Hd Hx. pose proof (vec_get_range _ _ _ Ho) as Hr.
  assert (∀ d, deps_of (occupied_by t x) d = deps_of t d) as Hdeps.
  { intros d. change (deps_of (occupied_by t x) d) with (deps_of (cleared t (JobId_index x)) d).
    rewrite cleared_deps_of by done. case_decide as E; [|done].
    unfold deps_of. by rewrite <-E, Hd. }
  assert (∀ k, vec_get (owner (occupied_by t x)) k =
        if decide (JobId_index x = k) then Some x else vec_get (owner t) k) as Hown.
  { intros k. simpl. rewrite vec_get_insert by (rewrite length_insert; done).
    case_decide; [done|]. rewrite vec_get_insert by done. by rewrite decide_False. }
  split; [|split; [|split; [done|split; [|split; [|done]]]]].
  - destruct (cleared_tables t _ Ht Hr) as [H1 H2 _ H4]. split.
    + simpl. rewrite !length_insert. apply Ht.
    + simpl. rewrite !length_insert. apply Ht.
    + intros k o. rewrite Hown. case_decide; [naive_solver|]. apply Ht.
    + intros d Hin. apply H4 in Hin. simpl in *. by rewrite !length_insert in *.
  - intros d. unfold tracked. rewrite Hown. case_decide as E; [|naive_solver].
    rewrite <-E, Ho. naive_solver.
  - intros d. change (edge_count (cleared t (JobId_index x)) d = edge_count t d).
    rewrite cleared_edge_count by done. unfold deps_of. rewrite Hd. simpl.
    change (count_id d []) with 0. lia.
  - intros k. simpl. rewrite vec_get_insert by (rewrite (tt_unsat _ Ht); done). done.
Qed.

(** One more dependent of a tracked job. *)
Definition edge_added (t : DependencyTracker) (a b : JobId) : DependencyTracker :=
  MkTracker (owner t) (unsatisfied t)
            (<[Z.to_nat (JobId_index a) := deps_of t a ++ [b]]> (dependents t)).

Lemma edge_added_spec t a b :
  Tracker_tables t → tracked t a → b ≠ NO_OWNER → JobId_index b < Z.of_nat (length (owner t)) →
  Tracker_tables (edge_added t a b) ∧
  (∀ d, deps_of (edge_added t a b) d =
        if decide (JobId_index a = JobId_index d) then deps_of t a ++ [b] else deps_of t d) ∧
  (∀ d, edge_count (edge_added t a b) d = edge_count t d + if d =? b then 1 else 0).
Proof.
  intros Ht Ha Hb Hrb. pose proof (tracked_range _ _ Ha) as Hr.
  pose proof (deps_of_get t a Ht Hr) as Hg. split; [|split].
  - split; simpl; rewrite ?length_insert; [apply Ht..|].
    intros d Hd. apply (concat_insert_elem _ _ _ _ _ Hg) in Hd as [?|[Hd|Hd]%elem_of_app].
    + by apply (tt_range _ Ht).
    + by apply (tt_range _ Ht), (deps_of_edges t a).
    + apply list_elem_of_singleton in Hd as ->. done.
  - intros d. unfold deps_of at 1. simpl.
    rewrite vec_get_insert by (rewrite (tt_deps _ Ht); done). by case_decide.
  - intros d. unfold edge_count, edges. simpl. rewrite (concat_insert_count d _ _ _ _ Hg).
    rewrite count_id_app, count_id_cons. change (count_id d []) with 0. lia.
Qed.

(** The commit pass from [t0], after the dependencies [seen]. *)
Record register_inv (t0 : DependencyTracker) (jobs : Arena Job) (id : JobId)
    (seen : list JobId) (t : DependencyTracker) (pending : Z) : Prop := {
  ri_tables : Tracker_tables t;
  ri_vacant : ∀ k, vec_get (owner t) k = Some NO_OWNER → vec_get (dependents t) k = Some [];
  ri_tracked : ∀ d, tracked t d ↔
    tracked t0 d ∨ d = id ∨ (d ∈ seen ∧ is_pending jobs d = true);
  ri_deps : ∀ a b, tracked t a → b ∈ deps_of t a ↔
    (tracked t0 a ∧ b ∈ deps_of t0 a) ∨ (b = id ∧ a ∈ seen ∧ is_pending jobs a = true);
  ri_count : ∀ d, edge_count t d = edge_count t0 d + if d =? id then pending else 0;
  ri_unsat : ∀ d, tracked t d → d ≠ id →
    vec_get (unsatisfied t) (JobId_index d) = Some (edge_count t0 d);
  ri_pending : pending = Z.of_nat (count_if (is_pending jobs) seen);
}.

Lemma register_inv_skip t0 jobs id seen t pending dep :
  register_inv t0 jobs id seen t pending → is_pending jobs dep = false →
  register_inv t0 jobs id (seen ++ [dep]) t pending.
Proof.
  intros [H1 H2 H3 H4 H5 H6 H7] Hp. split; try done.
  - intros d. rewrite H3, elem_of_app, list_elem_of_singleton. naive_solver congruence.
  - intros a b Ha. rewrite (H4 a b Ha), elem_of_app, list_elem_of_singleton. naive_solver congruence.
  - rewrite count_if_app. unfold count_if at 2. simpl. rewrite Hp. simpl. lia.
Qed.

Lemma register_inv_same t0 jobs id seen t t' pending :
  register_inv t0 jobs id seen t pending → same_tracker t t' →
  register_inv t0 jobs id seen t' pending.
Proof.
  intros [H1 H2 H3 H4 H5 H6 H7] [S1 S2 S3 S4 S5 S6]. split; try done; auto.
  - intros d. by rewrite S2.
  - intros a b. rewrite S2, S3. apply H4.
  - intros d. unfold edge_count. rewrite S4. apply H5.
  - intros d Hd%S2 Hne. rewrite S5 by done. by apply H6.
Qed.

(** [t1] is [t] with [dep] adopted if it was not tracked. *)
Record adopts (t : DependencyTracker) (dep : JobId) (t1 : DependencyTracker) : Prop := {
  ad_tables : Tracker_tables t1;
  ad_vacant : ∀ k, vec_get (owner t1) k = Some NO_OWNER → vec_get (dependents t1) k = Some [];
  ad_tracked : ∀ d, tracked t1 d ↔ tracked t d ∨ d = dep;
  ad_deps : ∀ d, deps_of t1 d = deps_of t d;
  ad_count : ∀ d, edge_count t1 d = edge_count t d;
  ad_unsat : ∀ d, tracked t d →
    vec_get (unsatisfied t1) (JobId_index d) = vec_get (unsatisfied t) (JobId_index d);
  ad_new : tracked t dep ∨
    (deps_of t dep = [] ∧ vec_get (unsatisfied t1) (JobId_index dep) = Some 0);
  ad_len : length (owner t1) = length (owner t);
}.

Lemma adopts_vacant t dep :
  Tracker_tables t → (∀ k, vec_get (owner t) k = Some NO_OWNER → vec_get (dependents t) k = Some []) →
  vec_get (owner t) (JobId_index dep) = Some NO_OWNER → dep ≠ NO_OWNER →
  adopts t dep (occupied_by t dep).
Proof.
  intros Ht Hv Ho Hne. pose proof (vec_get_range _ _ _ Ho).
  destruct (occupied_by_spec t dep Ht Ho (Hv _ Ho) Hne) as (H1 & H2 & H3 & H4 & H5 & H6).
  split; try done.
  - intros k. rewrite H6. case_decide as E; [naive_solver|]. intros Hk%Hv.
    simpl. rewrite vec_get_insert by (rewrite (tt_deps _ Ht); done). by rewrite decide_False.
  - intros d Hd. rewrite H5, decide_False; [done|]. intros E. destruct Hd as [Hd1 Hd2].
    rewrite <-E, Ho in Hd2. congruence.
  - right. rewrite H5, decide_True by done. split; [|done]. unfold deps_of. by rewrite (Hv _ Ho).
  - simpl. by rewrite !length_insert.
Qed.

Lemma adopts_tracked t dep :
  Tracker_tables t → (∀ k, vec_get (owner t) k = Some NO_OWNER → vec_get (dependents t) k = Some []) →
  tracked t dep → adopts t dep t.
Proof. intros Ht Hv Hd. split; try done; [naive_solver|by left]. Qed.

Lemma register_inv_edge t0 jobs id seen t t1 pending dep :
  register_inv t0 jobs id seen t pending → tracker_arena t0 jobs →
  is_pending jobs dep = true → dep ≠ id → adopts t dep t1 →
  register_inv t0 jobs id (seen ++ [dep]) (edge_added t1 dep id) (pending + 1).
Proof.
  intros [H1 H2 H3 H4 H5 H6 H7] Ha Hp Hne [A1 A2 A3 A4 A5 A6 A7 A8].
  assert (tracked t id) as Hid by (apply H3; tauto).
  assert (tracked t1 dep) as Hdep by (apply A3; tauto).
  destruct (edge_added_spec t1 dep id A1 Hdep) as (E1 & E2 & E3);
    [apply Hid|apply tracked_range in Hid; lia|].
  assert (∀ d, tracked (edge_added t1 dep id) d ↔ tracked t d ∨ d = dep) as Htr by apply A3.
  split; try done.
  - intros k Hk. simpl in *. rewrite vec_get_insert
      by (rewrite (tt_deps _ A1); by apply tracked_range). rewrite decide_False; [by apply A2|].
    intros <-. destruct Hdep. congruence.
  - intros d. rewrite Htr, H3, elem_of_app, list_elem_of_singleton. naive_solver.
  - intros a b [Hta| ->]%Htr; rewrite E2, !A4.
    + case_decide as Ei.
      * apply (tracked_index_inj t1) in Ei as ->; [|done|apply A3; tauto].
        rewrite elem_of_app, list_elem_of_singleton, (H4 _ b Hta), elem_of_app, list_elem_of_singleton.
        naive_solver.
      * rewrite (H4 a b Hta), elem_of_app, list_elem_of_singleton. naive_solver.
    + rewrite decide_True by done. rewrite !elem_of_app, !list_elem_of_singleton.
      destruct (decide (tracked t dep)) as [Hdt|Hnt].
      { rewrite (H4 _ b Hdt). pose proof (eq_refl dep). tauto. }
      destruct A7 as [?|[-> _]]; [done|]. rewrite elem_of_nil.
      assert (¬ tracked t0 dep) by (intros ?; apply Hnt, H3; tauto).
      pose proof (eq_refl dep). tauto.
  - intros d. rewrite E3, A5, H5. destruct (d =? id); lia.
  - intros d Hd Hdn. simpl. destruct (decide (tracked t d)) as [Htd|Hntd].
    + rewrite A6 by done. by apply H6.
    + apply Htr in Hd as [?| ->]; [done|]. destruct A7 as [?|[_ ->]]; [done|]. f_equal. symmetry.
      apply edge_count_absent. intros He. apply Hntd, H3. left. by apply (ta_edges _ _ Ha).
  - rewrite count_if_app. unfold count_if at 2. simpl. rewrite Hp. simpl. lia.
Qed.

Section Register.
Context (t0 : DependencyTracker) (jobs : Arena Job) (id : JobId).
Hypothesis Hwf : Tracker_wf t0.
Hypothesis Harena : tracker_arena t0 jobs.
Hypothesis Hid : is_pending jobs id = true.
Hypothesis Hfresh : ¬ tracked t0 id.

Lemma pending_not_sentinel d : is_pending jobs d = true → d ≠ NO_OWNER.
Proof. intros H ->. by rewrite (ta_sentinel _ _ Harena) in H. Qed.

Lemma register_dep_step seen t pending dep :
  register_inv t0 jobs id seen t pending → dep ≠ id → Z.of_nat (length seen) < u32_max →
  ∃ t' pending', register_dep jobs id (t, pending) dep = Done (t', pending') ∧
    register_inv t0 jobs id (seen ++ [dep]) t' pending'.
Proof.
  intros Hi Hne Hlen. unfold register_dep.
  destruct (is_pending jobs dep) eqn:Hp; simpl; [|by eauto using register_inv_skip].
  destruct (reserve_same t (JobId_index dep + 1) (ri_tables _ _ _ _ _ _ Hi)) as [Hs Hlt].
  apply (register_inv_same _ _ _ _ _ _ _ Hi) in Hs as Hi1.
  set (t1 := tracker_reserve_slots t (JobId_index dep + 1)) in *.
  pose proof (JobId_index_range dep). pose proof (ri_tables _ _ _ _ _ _ Hi1) as Ht1.
  destruct (vec_get_total (owner t1) (JobId_index dep)) as [o Ho]; [lia|].
  rewrite (vec_at_Done _ _ _ Ho). cbn [exec_bind].
  replace (wrap32 (pending + 1)) with (pending + 1).
  2:{ rewrite (ri_pending _ _ _ _ _ _ Hi). unfold wrap32, count_if.
      pose proof (List.filter_length_le (is_pending jobs) seen). zdiv. }
  assert (∀ t2, adopts t1 dep t2 →
    (let! ds := vec_at (dependents t2) (JobId_index dep) in
     let! dependents' := vec_put (dependents t2) (JobId_index dep) (ds ++ [id]) in
     Done (MkTracker (owner t2) (unsatisfied t2) dependents', pending + 1)) =
    Done (edge_added t2 dep id, pending + 1)) as Hadd.
  { intros t2 Had. pose proof (ad_tables _ _ _ Had) as Ht2.
    rewrite (vec_at_Done _ _ (deps_of t2 dep)).
    - cbn [exec_bind]. rewrite vec_put_Done by (rewrite (tt_deps _ Ht2), (ad_len _ _ _ Had); lia). done.
    - apply deps_of_get; [done|]. rewrite (ad_len _ _ _ Had). lia. }
  destruct (Z.eqb_spec o dep) as [->|Hod]; simpl.
  - assert (adopts t1 dep t1) as Had.
    { apply adopts_tracked; [done|apply Hi1|]. split; [by apply pending_not_sentinel|done]. }
    rewrite (Hadd t1 Had). eexists _, _. split; [done|]. by eapply register_inv_edge.
  - assert (o = NO_OWNER) as ->.
    { destruct (decide (o = NO_OWNER)) as [|Hoo]; [done|]. destruct Hod.
      pose proof (tt_place _ Ht1 _ _ Ho Hoo) as Ei. apply (is_pending_index_inj jobs); [|done|done].
      assert (tracked t1 o) as [?|[->|[_ ?]]]%(ri_tracked _ _ _ _ _ _ Hi1);
        [split; [done|by rewrite Ei]| |done|done]. by apply (ta_live _ _ Harena). }
    rewrite clear_index_Done by (done || lia). cbn [exec_bind].
    rewrite vec_put_Done by (simpl; rewrite length_insert; lia). cbn [exec_bind].
    assert (adopts t1 dep (occupied_by t1 dep)) as Had.
    { apply adopts_vacant; [done|apply Hi1|done|by apply pending_not_sentinel]. }
    eexists _, _. split; [exact (Hadd (occupied_by t1 dep) Had)|]. by eapply register_inv_edge.
Qed.

Lemma register_fold rest seen t pending :
  register_inv t0 jobs id seen t pending → id ∉ rest →
  Z.of_nat (length seen + length rest) <= u32_max →
  ∃ t' pending', exec_fold (register_dep jobs id) (t, pending) rest = Done (t', pending') ∧
    register_inv t0 jobs id (seen ++ rest) t' pending'.
Proof.
  revert seen t pending. induction rest as [|dep rest IH]; intros seen t pending Hi Hn Hl.
  { rewrite app_nil_r. by eexists _, _. }
  apply not_elem_of_cons in Hn as [Hne Hn]. cbn [exec_fold]. simpl in Hl.
  destruct (register_dep_step seen t pending dep Hi) as (t1 & p1 & -> & Hi1); [done|lia|].
  cbn [exec_bind]. destruct (IH _ _ _ Hi1 Hn) as (t2 & p2 & -> & Hi2).
  { rewrite length_app. simpl. lia. }
  rewrite <-app_assoc in Hi2. by eexists _, _.
Qed.

(** The state the commit pass starts from. *)
Lemma register_start :
  ∃ t1, (let t := tracker_reserve_slots t0 (JobId_index id + 1) in
         let! t := clear_index t (JobId_index id) in
         let! owner' := vec_put (owner t) (JobId_index id) id in
         Done (MkTracker owner' (unsatisfied t) (dependents t))) = Done t1 ∧
    register_inv t0 jobs id [] t1 0.
Proof.
  destruct (reserve_same t0 (JobId_index id + 1) (tw_tables _ Hwf)) as [Hs Hlt]. cbv zeta.
  set (t := tracker_reserve_slots t0 (JobId_index id + 1)) in *. pose proof (JobId_index_range id).
  rewrite clear_index_Done by (apply Hs || lia). cbn [exec_bind].
  rewrite vec_put_Done by (simpl; rewrite length_insert; lia). cbn [exec_bind].
  exists (occupied_by t id). split; [done|].
  assert (vec_get (owner t) (JobId_index id) = Some NO_OWNER) as Ho.
  { destruct (vec_get_total (owner t) (JobId_index id)) as [o Ho]; [lia|]. rewrite Ho. f_equal.
    destruct (decide (o = NO_OWNER)) as [|Hoo]; [done|].
    pose proof (tt_place _ (st_tables _ _ Hs) _ _ Ho Hoo) as Ei.
    assert (tracked t0 o) as Hto.
    { apply (st_tracked _ _ Hs). split; [done|]. by rewrite Ei. }
    apply (is_pending_index_inj jobs) in Ei; [|by apply (ta_live _ _ Harena)|done]. by subst. }
  destruct (adopts_vacant t id) as [A1 A2 A3 A4 A5 A6 A7 A8];
    [apply Hs|apply (st_vacant _ _ Hs), Hwf|done|by apply pending_not_sentinel|].
  split; try done.
  - intros d. rewrite A3, (st_tracked _ _ Hs), elem_of_nil. tauto.
  - intros a b Ha. rewrite A4, elem_of_nil. apply A3 in Ha as [Ha%(st_tracked _ _ Hs)| ->].
    + rewrite (st_deps _ _ Hs). tauto.
    + destruct A7 as [?%(st_tracked _ _ Hs)|[-> _]]; [done|]. rewrite elem_of_nil. tauto.
  - intros d. rewrite A5. unfold edge_count. rewrite (st_edges _ _ Hs). destruct (d =? id); lia.
  - intros d Hd Hne. apply A3 in Hd as [Hd|]; [|done]. rewrite A6 by done.
    rewrite (st_unsat _ _ Hs) by (by apply Hs). by apply (tw_count _ Hwf), (st_tracked _ _ Hs).
Qed.
End Register.

(** ** Classification *)

Definition is_dead (s : JobState) : bool :=
  match s with JobState.Failed | JobState.Cancelled => true | _ => false end.

(** A dependency [classify] walks past. *)
Definition dep_ok (id : JobId) (jobs : Arena Job) (d : JobId) : Prop :=
  d ≠ id ∧ ∃ j, Arena_get jobs d = Some j ∧ is_dead (state j) = false.

Definition count_pending (jobs : Arena Job) (ds : list JobId) : Z :=
  Z.of_nat (count_if (is_pending jobs) ds).

(** What each answer of [classify] says of the dependencies. *)
Definition classified (id : JobId) (jobs : Arena Job) (ds : list JobId)
    (r : result Readiness DependencyError) : Prop :=
  match r with
  | Ok Readiness.Ready => Forall (dep_ok id jobs) ds ∧ count_pending jobs ds = 0
  | Ok Readiness.Blocked => Forall (dep_ok id jobs) ds ∧ 0 < count_pending jobs ds
  | Ok Readiness.Cancelled =>
      ∃ pre d post j, ds = pre ++ d :: post ∧ Forall (dep_ok id jobs) pre ∧ d ≠ id ∧
        Arena_get jobs d = Some j ∧ is_dead (state j) = true
  | Err e =>
      ∃ pre d post, ds = pre ++ d :: post ∧ Forall (dep_ok id jobs) pre ∧
        (d = id ∨ Arena_get jobs d = None) ∧ e = MkDependencyError id d
  end.

Lemma count_pending_snoc jobs ds d :
  count_pending jobs (ds ++ [d]) = count_pending jobs ds + Z.b2z (is_pending jobs d).
Proof.
  unfold count_pending. rewrite count_if_app. unfold count_if at 2. simpl.
  destruct (is_pending jobs d); simpl; lia.
Qed.

Lemma count_pending_bound jobs ds : 0 <= count_pending jobs ds <= Z.of_nat (length ds).
Proof. unfold count_pending, count_if. pose proof (List.filter_length_le (is_pending jobs) ds). lia. Qed.

Lemma classify_loop_spec id jobs seen rest :
  Z.of_nat (length (seen ++ rest)) <= u32_max → Forall (dep_ok id jobs) seen →
  classified id jobs (seen ++ rest) (classify_loop id jobs rest (count_pending jobs seen)).
Proof.
  revert seen. induction rest as [|d rest IH]; intros seen Hl Hs; simpl.
  { rewrite app_nil_r. pose proof (count_pending_bound jobs seen).
    destruct (Z.eqb_spec (count_pending jobs seen) 0); simpl; (split; [done|lia]). }
  destruct (Z.eqb_spec d id) as [->|Hne]; [simpl; eauto 10|].
  destruct (Arena_get jobs d) as [j|] eqn:Eg; [|simpl; eauto 10].
  assert (is_dead (state j) = false →
    classified id jobs (seen ++ d :: rest)
      (classify_loop id jobs rest (count_pending jobs (seen ++ [d])))) as Hstep.
  { intros Hd. rewrite cons_middle, app_assoc. apply IH; [by rewrite <-app_assoc|].
    apply Forall_app. split; [done|]. constructor; [|done]. split; [done|eauto]. }
  rewrite count_pending_snoc in Hstep. unfold is_pending in Hstep. rewrite Eg in Hstep.
  pose proof (count_pending_bound jobs seen). rewrite length_app in Hl. simpl in Hl.
  assert (wrap32 (count_pending jobs seen + 1) = count_pending jobs seen + 1) as Hw
    by (unfold wrap32; zdiv).
  destruct (state j) eqn:Es; simpl in Hstep; rewrite ?Hw; rewrite ?Z.add_0_r in Hstep; auto;
    (exists seen, d, rest, j; rewrite Es; auto).
Qed.

Lemma classify_spec id job jobs :
  Z.of_nat (length (deps job)) <= u32_max → classified id jobs (deps job) (classify id job jobs).
Proof. intros Hl. apply (classify_loop_spec id jobs []); [done|constructor]. Qed.

(** What [register] leaves behind for a job that is not doomed. *)
Record registered (t0 : DependencyTracker) (jobs : Arena Job) (id : JobId) (ds : list JobId)
    (t : DependencyTracker) : Prop := {
  rg_wf : Tracker_wf t;
  rg_arena : tracker_arena t jobs;
  rg_tracked : ∀ d, tracked t d ↔
    tracked t0 d ∨ d = id ∨ (d ∈ ds ∧ is_pending jobs d = true);
  rg_edge : ∀ a b, dep_edge t a b ↔ dep_edge t0 a b ∨ (b = id ∧ a ∈ ds ∧ is_pending jobs a = true);
  rg_count : ∀ d, d ≠ id → edge_count t d = edge_count t0 d;
  rg_self : edge_count t id = count_pending jobs ds;
}.

(** The commit pass ends by writing the count. *)
Lemma registered_commit t0 jobs id ds t p :
  tracker_arena t0 jobs → is_pending jobs id = true → id ∉ edges t0 →
  register_inv t0 jobs id ds t p →
  registered t0 jobs id ds
    (MkTracker (owner t) (<[Z.to_nat (JobId_index id) := p]> (unsatisfied t)) (dependents t)).
Proof.
  intros Ha Hid Hne0 [H1 H2 H3 H4 H5 H6 H7].
  pose proof (proj2 (edge_count_absent t0 id) Hne0) as Hz.
  assert (tracked t id) as Hid2 by (apply H3; tauto). pose proof (tracked_range _ _ Hid2).
  split.
  - split; [split; simpl; rewrite ?length_insert; apply H1|apply H2|]. intros d Hd. simpl.
    rewrite vec_get_insert by (rewrite (tt_unsat _ H1); done).
    change (edge_count (MkTracker _ _ _) d) with (edge_count t d). rewrite H5. case_decide as Ei.
    + apply (tracked_index_inj t) in Ei as ->; [|done|exact Hd]. by rewrite Z.eqb_refl, Hz.
    + destruct (Z.eqb_spec d id); [naive_solver|]. rewrite H6 by done. f_equal. lia.
  - split; [| |apply Ha].
    + intros d [?|[->|[_ ?]]]%H3; [by apply (ta_live _ _ Ha)|done|done].
    + intros d Hd Hpd. apply H3. change (d ∈ edges t) in Hd.
      destruct (decide (d = id)) as [|Hdid]; [tauto|]. left. apply (ta_edges _ _ Ha); [|done].
      revert Hd. rewrite !count_id_elem. fold (edge_count t d) (edge_count t0 d). rewrite H5.
      destruct (Z.eqb_spec d id); [done|lia].
  - apply H3.
  - intros a b. unfold dep_edge. change (tracked (MkTracker _ _ _)) with (tracked t).
    change (deps_of (MkTracker _ _ _)) with (deps_of t). split.
    + intros (Hta & Htb & Hb). apply (H4 a b Hta) in Hb as [[Ht0 Hb]|Hb]; [|by right]. left.
      pose proof (deps_of_edges _ _ _ Hb). split; [done|]. split; [|done].
      apply H3 in Htb as [?|[->|[? Hpb]]]; [done|done|]. by apply (ta_edges _ _ Ha).
    + intros [(Hta & Htb & Hb)|(-> & Hin & Hpa)];
        (assert (tracked t a) by (apply H3; tauto); split; [done|]).
      * split; [apply H3; tauto|]. apply H4; tauto.
      * split; [done|]. apply H4; tauto.
  - intros d Hd. change (edge_count t d = edge_count t0 d). rewrite H5.
    destruct (Z.eqb_spec d id); [done|lia].
  - change (edge_count t id = count_pending jobs ds). rewrite H5, Z.eqb_refl. unfold count_pending. lia.
Qed.

Lemma register_spec t0 jobs id job :
  Tracker_wf t0 → tracker_arena t0 jobs → is_pending jobs id = true → ¬ tracked t0 id →
  Z.of_nat (length (deps job)) <= u32_max →
  ∃ t r, register t0 id job jobs = Done (t, r) ∧ r = classify id job jobs ∧
    match r with
    | Ok Readiness.Ready | Ok Readiness.Blocked => registered t0 jobs id (deps job) t
    | _ => t = t0
    end.
Proof.
  intros Hwf Ha Hid Hfresh Hl. pose proof (classify_spec id job jobs Hl) as Hc. unfold register.
  assert (id ∉ edges t0) as Hne0 by (intros ?; by apply Hfresh, (ta_edges _ _ Ha)).
  destruct (register_start t0 jobs id Hwf Ha Hid Hfresh) as (t1 & E1 & Hi1). cbv zeta in E1 |- *.
  destruct (clear_index (tracker_reserve_slots _ _) _) as [tc| |]; simpl in E1 |- *; [|done..].
  destruct (vec_put (owner tc) _ _) as [ow| |]; simpl in E1 |- *; [|done..]. injection E1 as ->.
  destruct (classify id job jobs) as [readiness|e]; [|by eauto 10].
  destruct (decide (id ∈ deps job)) as [Hin|Hnin].
  { destruct readiness; simpl in Hc; [| |by eauto 10];
      destruct Hc as [Hok _]; rewrite Forall_forall in Hok; by destruct (Hok _ Hin). }
  destruct (register_fold t0 jobs id Ha Hid (deps job) [] t1 0 Hi1 Hnin) as (t2 & p & -> & Hi2);
    [simpl; lia|].
  cbn [exec_bind]. simpl in Hi2. rewrite vec_put_Done.
  2:{ rewrite (tt_unsat _ (ri_tables _ _ _ _ _ _ Hi2)). apply tracked_range, (ri_tracked _ _ _ _ _ _ Hi2).
      tauto. }
  pose proof (registered_commit _ _ _ _ _ _ Ha Hid Hne0 Hi2). destruct readiness; simpl; by eauto 10.
Qed.

(** Whatever the tables hold, registering does not run off their ends. *)
Definition aligned (t : DependencyTracker) : Prop :=
  length (unsatisfied t) = length (owner t) ∧ length (dependents t) = length (owner t).

Lemma reserve_aligned t n :
  aligned t → aligned (tracker_reserve_slots t n) ∧ n <= Z.of_nat (length (owner (tracker_reserve_slots t n))) ∧
  Z.of_nat (length (owner t)) <= Z.of_nat (length (owner (tracker_reserve_slots t n))).
Proof.
  unfold aligned, tracker_reserve_slots. intros [H1 H2].
  destruct (Z.ltb_spec (Z.of_nat (length (owner t))) n); cbn; [|by split_and!; try lia]. rewrite !length_vec_grow. lia.
Qed.

Lemma clear_aligned t k :
  aligned t → 0 <= k < Z.of_nat (length (owner t)) →
  ∃ t', clear_index t k = Done t' ∧ aligned t' ∧ length (owner t') = length (owner t).
Proof.
  intros [H1 H2] Hk. unfold clear_index. rewrite !vec_put_Done by lia. cbn [exec_bind]. eexists. split; [done|].
  unfold aligned. cbn. by rewrite !length_insert.
Qed.

Lemma register_dep_total jobs id t pending dep :
  aligned t → ∃ t' pending', register_dep jobs id (t, pending) dep = Done (t', pending') ∧ aligned t' ∧
    Z.of_nat (length (owner t)) <= Z.of_nat (length (owner t')).
Proof.
  intros Ht. unfold register_dep. destruct (is_pending jobs dep); cbn [negb]; [|by eexists _, _].
  destruct (reserve_aligned t (JobId_index dep + 1) Ht) as (Ht1 & Hlen & Hge).
  set (t1 := tracker_reserve_slots t (JobId_index dep + 1)) in *. pose proof (JobId_index_range dep) as Hr.
  destruct (vec_get_total (owner t1) (JobId_index dep)) as [o Ho]; [lia|]. rewrite (vec_at_Done _ _ _ Ho). cbn [exec_bind].
  assert (∃ t2, (if negb (o =? dep) then
      let! t := clear_index t1 (JobId_index dep) in
      let! owner' := vec_put (owner t) (JobId_index dep) dep in Done (MkTracker owner' (unsatisfied t) (dependents t))
    else Done t1) = Done t2 ∧ aligned t2 ∧ length (owner t2) = length (owner t1)) as (t2 & -> & Ht2 & Hl2).
  { destruct (o =? dep); cbn [negb]; [by eexists|].
    destruct (clear_aligned t1 (JobId_index dep) Ht1) as (t2 & -> & [A1 A2] & Hl2); [lia|]. cbn [exec_bind].
    rewrite vec_put_Done by lia. eexists. split; [done|]. unfold aligned. cbn. by rewrite !length_insert. }
  cbn [exec_bind]. destruct Ht2 as [B1 B2].
  destruct (vec_get_total (dependents t2) (JobId_index dep)) as [ds Hds]; [lia|]. rewrite (vec_at_Done _ _ _ Hds). cbn [exec_bind].
  rewrite vec_put_Done by lia. cbn [exec_bind]. eexists _, _. split; [done|]. unfold aligned. cbn. rewrite !length_insert. lia.
Qed.

Lemma register_total t id job jobs :
  aligned t → ∃ t', register t id job jobs = Done (t', classify id job jobs).
Proof.
  intros Ht. unfold register. destruct (classify id job jobs) as [rd|e] eqn:Ec; [|by eexists].
  assert (∃ t', (let! t := clear_index (tracker_reserve_slots t (JobId_index id + 1)) (JobId_index id) in
    let! owner' := vec_put (owner t) (JobId_index id) id in
    let! '(t, pending) := exec_fold (register_dep jobs id) (MkTracker owner' (unsatisfied t) (dependents t), 0) (deps job) in
    let! unsatisfied' := vec_put (unsatisfied t) (JobId_index id) pending in
    Done (MkTracker (owner t) unsatisfied' (dependents t), Ok rd : result Readiness DependencyError)) = Done (t', Ok rd)) as [t' E].
  { destruct (reserve_aligned t (JobId_index id + 1) Ht) as (Ht1 & Hlen & _). pose proof (JobId_index_range id) as Hr.
    destruct (clear_aligned _ (JobId_index id) Ht1) as (t2 & -> & [A1 A2] & Hl2); [lia|]. cbn [exec_bind].
    rewrite vec_put_Done by lia. cbn [exec_bind].
    assert (∀ ds t0 p, aligned t0 → JobId_index id < Z.of_nat (length (owner t0)) →
      ∃ t' p', exec_fold (register_dep jobs id) (t0, p) ds = Done (t', p') ∧ aligned t' ∧ JobId_index id < Z.of_nat (length (owner t'))) as Hf.
    { induction ds as [|d ds IH]; intros t0 p H0 H1; [by eexists _, _|]. cbn [exec_fold].
      destruct (register_dep_total jobs id t0 p d H0) as (t3 & p3 & -> & H3 & Hl3). cbn [exec_bind]. apply IH; [done|lia]. }
    destruct (Hf (deps job) (MkTracker (<[Z.to_nat (JobId_index id) := id]> (owner t2)) (unsatisfied t2) (dependents t2)) 0)
      as (t4 & p4 & -> & [B1 B2] & Hl4); [unfold aligned; cbn; by rewrite length_insert|cbn; rewrite length_insert; lia|].
    cbn [exec_bind]. rewrite vec_put_Done by lia. by eexists. }
  exists (match rd with Readiness.Cancelled => t | _ => t' end). by destruct rd.
Qed.

(** ** Properties *)

(** [register] on a fresh, unregistered job never panics, returns exactly
    [classify]'s verdict, which is the one the dependencies' states dictate
    (an error names the first dependency that is the job itself or not live,
    unless a failed or cancelled one comes before it), leaves the tracker
    untouched when the job is refused or doomed, and otherwise adds exactly one
    edge per unfinished dependency, with the count equal to their number,
    preserving the tracker invariant. *)
Theorem register_exact t jobs id job :
  Tracker_wf t → tracker_arena t jobs → is_pending jobs id = true → ¬ tracked t id →
  Z.of_nat (length (deps job)) <= u32_max →
  ∃ t' r, register t id job jobs = Done (t', r) ∧ r = classify id job jobs ∧
    classified id jobs (deps job) r ∧
    match r with
    | Ok Readiness.Ready | Ok Readiness.Blocked => registered t jobs id (deps job) t'
    | _ => t' = t
    end.
Proof.
  intros Hwf Ha Hid Hf Hl. destruct (register_spec t jobs id job Hwf Ha Hid Hf Hl) as (t' & r & ? & -> & ?).
  eexists _, _. split; [done|]. split; [done|]. split; [by apply classify_spec|done].
Qed.

(** Four jobs: 1 and 3 wait for 0, 2 and 3 wait for 1. *)
Definition demo_job (s : JobState) (ds : list JobId) : Job :=
  MkJob 1 PriorityClass.Normal 0 (MkResources 100 0 0) 1000 ds [] s 0.

Definition demo_jobs : Arena Job :=
  MkArena [Slot.Occupied 0 (demo_job JobState.Running []);
           Slot.Occupied 0 (demo_job JobState.Blocked [0]);
           Slot.Occupied 0 (demo_job JobState.Blocked [1]);
           Slot.Occupied 0 (demo_job JobState.Blocked [0; 1]);
           Slot.Occupied 0 (demo_job JobState.Submitted [3; 0])] None 5.

Definition demo_tracker : DependencyTracker :=
  MkTracker [0; 1; 2; 3] [0; 1; 1; 2] [[1; 3]; [2; 3]; []; []].

Lemma tracked_owner t d : tracked t d → d ∈ owner t.
Proof. intros [_ [_ H]%vec_get_Some]. by eapply list_elem_of_lookup_2. Qed.

Lemma demo_tracked d : tracked demo_tracker d ↔ d = 0 ∨ d = 1 ∨ d = 2 ∨ d = 3.
Proof.
  split; [intros H%tracked_owner; simpl in H; set_solver|]. intros [->|[->|[->| ->]]]; done.
Qed.

Lemma demo_tracker_wf : Tracker_wf demo_tracker.
Proof.
  split; [split; [done|done| |]|..].
  - intros k o [Hk H]%vec_get_Some Hne. simpl in H.
    destruct (Z.to_nat k) as [|[|[|[|n]]]] eqn:E; simplify_eq/=; rewrite JobId_index_arith; zdiv.
  - intros d Hd. assert (d = 1 ∨ d = 2 ∨ d = 3) as [->|[->| ->]] by (cbn in Hd; set_solver); done.
  - intros k [Hk H]%vec_get_Some. simpl in H.
    by destruct (Z.to_nat k) as [|[|[|[|n]]]] eqn:E; simplify_eq/=.
  - intros d [->|[->|[->| ->]]]%demo_tracked; by vm_compute.
Qed.

Lemma demo_tracker_arena : tracker_arena demo_tracker demo_jobs.
Proof.
  split.
  - intros d [->|[->|[->| ->]]]%demo_tracked; by vm_compute.
  - intros d Hd _. apply demo_tracked. cbn in Hd. set_solver.
  - by vm_compute.
Qed.

Lemma register_exact_witness :
  ∃ t' r, register demo_tracker 4 (demo_job JobState.Submitted [3; 0]) demo_jobs = Done (t', r) ∧
    r = classify 4 (demo_job JobState.Submitted [3; 0]) demo_jobs ∧
    classified 4 demo_jobs [3; 0] r ∧
    match r with
    | Ok Readiness.Ready | Ok Readiness.Blocked => registered demo_tracker demo_jobs 4 [3; 0] t'
    | _ => t' = demo_tracker
    end.
Proof.
  apply (register_exact demo_tracker demo_jobs 4 (demo_job JobState.Submitted [3; 0]));
    [apply demo_tracker_wf|apply demo_tracker_arena|by vm_compute| |by vm_compute].
  intros H%demo_tracked. lia.
Defined.

(** Completing a job promotes, once each, exactly the live dependents all of
    whose outstanding edges came from it; it retires that job alone, removes
    exactly its edges, keeps every other count equal to the edges that remain,
    and never panics. *)
Theorem completion_promotes_exactly t id promoted :
  Tracker_wf t → id ≠ NO_OWNER →
  ∃ t' fired, tracker_on_completed t id promoted = Done (t', promoted ++ fired) ∧ Tracker_wf t' ∧
    NoDup fired ∧
    (∀ d, d ∈ fired ↔ dep_edge t id d ∧ edge_count t d = count_id d (deps_of t id)) ∧
    (∀ d, tracked t' d ↔ tracked t d ∧ d ≠ id) ∧
    (∀ d, tracked t id → edge_count t' d = edge_count t d - count_id d (deps_of t id)).
Proof.
  intros Hwf Hne. destruct (tracker_on_completed_spec t id promoted Hwf Hne)
    as (t' & fired & E & Hwf' & Hn & Hf & Ht & He & _).
  exists t', fired. do 3 (split; [done|]). split; [|done]. intros d. rewrite Hf. unfold dep_edge. tauto.
Qed.

Lemma completion_promotes_exactly_witness :
  (tracker_on_completed demo_tracker 0 [] ⇓ fun r => r.2 = [1]) ∧
  ∃ t' fired, tracker_on_completed demo_tracker 0 [] = Done (t', [] ++ fired) ∧ Tracker_wf t' ∧
    NoDup fired ∧
    (∀ d, d ∈ fired ↔ dep_edge demo_tracker 0 d ∧
                      edge_count demo_tracker d = count_id d (deps_of demo_tracker 0)) ∧
    (∀ d, tracked t' d ↔ tracked demo_tracker d ∧ d ≠ 0) ∧
    (∀ d, tracked demo_tracker 0 →
       edge_count t' d = edge_count demo_tracker d - count_id d (deps_of demo_tracker 0)).
Proof. split; [by vm_compute|]. apply completion_promotes_exactly; [apply demo_tracker_wf|done]. Defined.

(** Terminating a job terminates itself: the cascade ends within its fuel,
    lists exactly the live transitive dependents, each once, retires exactly
    them and the job, and leaves the invariant intact for everyone else. *)
Theorem termination_cascades_exactly t id cascade :
  Tracker_wf t → id ≠ NO_OWNER →
  ∃ t' C, tracker_on_terminated t id cascade = Done (t', cascade ++ C) ∧ Tracker_wf t' ∧
    NoDup C ∧ (∀ d, d ∈ C ↔ d ≠ id ∧ rtc (dep_edge t) id d) ∧
    (∀ d, tracked t' d ↔ tracked t d ∧ ¬ rtc (dep_edge t) id d).
Proof.
  intros Hwf Hne. destruct (tracker_on_terminated_spec t id cascade Hwf Hne)
    as (t' & C & E & Hwf' & Hn & HC & Ht & _).
  by exists t', C.
Qed.

Lemma termination_cascades_exactly_witness :
  (tracker_on_terminated demo_tracker 0 [] ⇓ fun r => r.2 = [3; 1; 2]) ∧
  ∃ t' C, tracker_on_terminated demo_tracker 0 [] = Done (t', [] ++ C) ∧ Tracker_wf t' ∧
    NoDup C ∧ (∀ d, d ∈ C ↔ d ≠ 0 ∧ rtc (dep_edge demo_tracker) 0 d) ∧
    (∀ d, tracked t' d ↔ tracked demo_tracker d ∧ ¬ rtc (dep_edge demo_tracker) 0 d).
Proof. split; [by vm_compute|]. apply termination_cascades_exactly; [apply demo_tracker_wf|done]. Defined.

(** Job 0 depends on job 1 and is registered first, so 1 is adopted; when 1
    is then registered itself, [clear_index] drops the edge the adoption
    recorded: 1 completes, and 0 keeps waiting for a dependency that no edge
    names.  The freshness hypothesis of [register_exact] excludes this order;
    restoring a snapshot by arena index can produce it. *)
Example late_registration_loses_edges :
  let jobs := MkArena [Slot.Occupied 0 (demo_job JobState.Submitted [1]);
                       Slot.Occupied 0 (demo_job JobState.Submitted [])] None 2 in
  (let! '(t, _) := register Tracker_new 0 (demo_job JobState.Submitted [1]) jobs in
   let! '(t, _) := register t 1 (demo_job JobState.Submitted []) jobs in
   let! '(t, promoted) := tracker_on_completed t 1 [] in
   let! n := tracker_unsatisfied t 0 in
   Done (promoted, n)) = Done ([], Some 1).
Proof. by vm_compute. Qed.
