(* ===== verification/Decay.v ===== *)
(** * Fixed-point decay

    The Q48 arithmetic of [crates/tasker-core/src/policy/fairshare.rs]: the
    [const fn]s that build the decay table, the table itself, evaluated by the
    kernel, and the decay of a factor or a usage value by a number of steps. *)

From stdpp Require Import base list numbers option.
From Stdlib Require Import ZArith Lia.
From S2P Require Import Prelude.
Open Scope Z_scope.

(** ** Fixed point *)

Definition DECAY_STEPS : Z := 1024.
Definition DECAY_ONE : Z := Z.shiftl 1 48.
Definition TABLE_LEN : nat := 1024.

Definition mul_q48 (a b : Z) : Z := wrap64 (Z.shiftr (a * b) 48).

Fixpoint pow_q48_loop (fuel : nat) (acc base exp : Z) : exec Z :=
  if 0 <? exp then
    match fuel with
    | O => NoFuel
    | S fuel' =>
        let acc := if Z.land exp 1 =? 1 then mul_q48 acc base else acc in
        pow_q48_loop fuel' acc (mul_q48 base base) (Z.shiftr exp 1)
    end
  else Done acc.

(** A [u64] exponent is shifted to zero in 64 rounds. *)
Definition pow_q48 (base exp : Z) : exec Z := pow_q48_loop 64 DECAY_ONE base exp.

(** The binary search for the root; the interval halves every round. *)
Fixpoint root_search (fuel : nat) (lo hi : Z) : exec Z :=
  if lo + 1 <? hi then
    match fuel with
    | O => NoFuel
    | S fuel' =>
        let mid := lo + (hi - lo) / 2 in
        let! p := pow_q48 mid DECAY_STEPS in
        if p <=? DECAY_ONE / 2 then root_search fuel' mid hi else root_search fuel' lo mid
    end
  else Done lo.

Definition build_decay_table : exec (list Z) :=
  let! root := root_search 64 (DECAY_ONE / 2) DECAY_ONE in
  exec_fold (fun table k => let! p := pow_q48 root (Z.of_nat k) in Done (table ++ [p]))
            [] (seq 0 TABLE_LEN).

(** The [static], evaluated. *)
Definition DECAY_TABLE : list Z :=
  Eval vm_compute in match build_decay_table with Done t => t | _ => [] end.

Definition decay_factor (steps : Z) : exec Z :=
  let halvings := steps / DECAY_STEPS in
  if 48 <=? halvings then Done 0
  else
    let! fine := vec_at DECAY_TABLE (steps mod DECAY_STEPS) in
    Done (Z.shiftr fine halvings).

Definition decay (usage steps : Z) : exec Z :=
  let halvings := steps / DECAY_STEPS in
  if 64 <=? halvings then Done 0
  else
    let! fine := vec_at DECAY_TABLE (steps mod DECAY_STEPS) in
    Done (mul_q48 (Z.shiftr usage halvings) fine).

(** ** The table *)

Lemma DECAY_ONE_val : DECAY_ONE = 281474976710656.
Proof. done. Qed.

Lemma build_decay_table_Done : build_decay_table = Done DECAY_TABLE.
Proof. by vm_compute. Qed.

Fixpoint strictly_descending (l : list Z) : bool :=
  match l with
  | x :: (y :: _) as l' => (y <? x) && strictly_descending l'
  | _ => true
  end.

Lemma strictly_descending_lookup l i j x y :
  strictly_descending l = true → (i < j)%nat → l !! i = Some x → l !! j = Some y → y < x.
Proof.
  revert i j x y. induction l as [|a l IH]; intros i j x y Hd Hij Hi Hj; [done|].
  destruct j as [|j]; [lia|]. destruct l as [|b l]; [done|].
  cbn [strictly_descending] in Hd. apply andb_true_iff in Hd as [Hba%Z.ltb_lt Hd].
  destruct i as [|i]; [|eapply (IH i j); [done|lia|done|done]]. simplify_eq/=.
  destruct j as [|j]; [by simplify_eq/=|].
  pose proof (IH 0%nat (S j) b y Hd ltac:(lia) eq_refl Hj). lia.
Qed.

Lemma DECAY_TABLE_check :
  length DECAY_TABLE = TABLE_LEN ∧ strictly_descending DECAY_TABLE = true ∧
  vec_get DECAY_TABLE 0 = Some DECAY_ONE ∧ forallb (Z.ltb (DECAY_ONE / 2)) DECAY_TABLE = true.
Proof. by vm_compute. Qed.

#[global] Opaque DECAY_TABLE.

Lemma DECAY_TABLE_get k :
  0 <= k < DECAY_STEPS →
  ∃ f, vec_get DECAY_TABLE k = Some f ∧ DECAY_ONE < 2 * f ∧ f <= DECAY_ONE.
Proof.
  destruct DECAY_TABLE_check as (Hl & Hd & H0 & Hall). intros Hk.
  destruct (lookup_lt_is_Some_2 DECAY_TABLE (Z.to_nat k)) as [f Hf].
  { rewrite Hl. unfold TABLE_LEN, DECAY_STEPS in *. lia. }
  exists f. split; [apply vec_get_Some; split; [lia|done]|]. split.
  - assert (DECAY_ONE / 2 < f); [|rewrite DECAY_ONE_val in *; zdiv].
    apply Z.ltb_lt. rewrite forallb_forall in Hall. apply Hall, list_elem_of_In.
    by eapply list_elem_of_lookup_2.
  - apply vec_get_Some in H0 as [_ H0]. destruct (decide (k = 0)) as [->|]; [by simplify_eq|].
    pose proof (strictly_descending_lookup _ 0 (Z.to_nat k) _ _ Hd ltac:(lia) H0 Hf). lia.
Qed.

Lemma DECAY_TABLE_antitone j k x y :
  j <= k → vec_get DECAY_TABLE j = Some x → vec_get DECAY_TABLE k = Some y → y <= x.
Proof.
  intros Hjk [? Hx]%vec_get_Some [? Hy]%vec_get_Some.
  destruct (decide (j = k)) as [->|]; [by simplify_eq|].
  destruct DECAY_TABLE_check as (_ & Hd & _).
  pose proof (strictly_descending_lookup _ (Z.to_nat j) (Z.to_nat k) x y Hd ltac:(lia) Hx Hy). lia.
Qed.

(** ** Fixed-point products and decay *)

Lemma mul_q48_exact a b :
  0 <= a <= u64_max → 0 <= b <= DECAY_ONE → mul_q48 a b = a * b / DECAY_ONE.
Proof.
  intros Ha Hb. unfold mul_q48, wrap64. rewrite Z.shiftr_div_pow2 by lia.
  change (2 ^ 48) with DECAY_ONE. apply Z.mod_small. rewrite DECAY_ONE_val in *. split.
  - apply Z.div_pos; nia.
  - apply Z.div_lt_upper_bound; nia.
Qed.

Lemma mul_q48_le a b :
  0 <= a <= u64_max → 0 <= b <= DECAY_ONE → 0 <= mul_q48 a b <= a.
Proof.
  intros Ha Hb. rewrite mul_q48_exact by done. rewrite DECAY_ONE_val in *. split.
  - apply Z.div_pos; nia.
  - apply Z.div_le_upper_bound; nia.
Qed.

Lemma mul_q48_mono a a' b b' :
  0 <= a <= a' → a' <= u64_max → 0 <= b <= b' → b' <= DECAY_ONE → mul_q48 a b <= mul_q48 a' b'.
Proof.
  intros. rewrite !mul_q48_exact by lia. apply Z.div_le_mono; [by rewrite DECAY_ONE_val|nia].
Qed.

Lemma steps_split s : 0 <= s → 0 <= s / DECAY_STEPS ∧ 0 <= s mod DECAY_STEPS < DECAY_STEPS.
Proof. unfold DECAY_STEPS. zdiv. Qed.

Lemma pow2_pos h : 0 <= h → 0 < 2 ^ h.
Proof. intros. apply Z.pow_pos_nonneg; lia. Qed.

Lemma decay_factor_Done s :
  0 <= s → ∃ f, decay_factor s = Done f ∧ 0 <= f <= DECAY_ONE.
Proof.
  intros Hs. destruct (steps_split s Hs) as [Hh Hm]. unfold decay_factor.
  destruct (Z.leb_spec 48 (s / DECAY_STEPS)); [exists 0; by rewrite DECAY_ONE_val|].
  destruct (DECAY_TABLE_get _ Hm) as (f & Hf & Hr). rewrite (vec_at_Done _ _ _ Hf). cbn [exec_bind].
  eexists. split; [done|]. rewrite Z.shiftr_div_pow2 by lia.
  pose proof (pow2_pos (s / DECAY_STEPS) Hh). rewrite DECAY_ONE_val in *.
  split; [apply Z.div_pos; lia|]. apply Z.div_le_upper_bound; nia.
Qed.

(** Shifted table entries fall with the number of steps, across the halvings. *)
Lemma table_shift_antitone a b x y :
  0 <= a <= b → vec_get DECAY_TABLE (a mod DECAY_STEPS) = Some x →
  vec_get DECAY_TABLE (b mod DECAY_STEPS) = Some y →
  a / DECAY_STEPS = b / DECAY_STEPS ∧ y <= x ∨
  a / DECAY_STEPS + 1 <= b / DECAY_STEPS ∧ y <= 2 * x.
Proof.
  intros Hab Hx Hy. destruct (steps_split a ltac:(lia)) as [_ Ha].
  destruct (steps_split b ltac:(lia)) as [_ Hb].
  destruct (DECAY_TABLE_get _ Ha) as (x' & Hx' & ?). destruct (DECAY_TABLE_get _ Hb) as (y' & Hy' & ?).
  simplify_eq. assert (a / DECAY_STEPS <= b / DECAY_STEPS) by (unfold DECAY_STEPS; zdiv).
  destruct (decide (a / DECAY_STEPS = b / DECAY_STEPS)).
  - left. split; [done|]. eapply (DECAY_TABLE_antitone (a mod DECAY_STEPS)); [|done|done].
    unfold DECAY_STEPS in *. zdiv.
  - right. lia.
Qed.

Lemma decay_factor_antitone a b x y :
  0 <= a <= b → decay_factor a = Done x → decay_factor b = Done y → y <= x.
Proof.
  intros Hab Hx Hy. assert (0 <= x).
  { destruct (decay_factor_Done a) as (x' & Ex & ?); [lia|]. rewrite Hx in Ex. injection Ex as <-. lia. }
  unfold decay_factor in Hx, Hy. destruct (steps_split a ltac:(lia)) as [Hha Ha].
  destruct (steps_split b ltac:(lia)) as [Hhb Hb].
  destruct (Z.leb_spec 48 (b / DECAY_STEPS)); [injection Hy as <-; lia|].
  assert (a / DECAY_STEPS <= b / DECAY_STEPS) by (unfold DECAY_STEPS; zdiv).
  destruct (Z.leb_spec 48 (a / DECAY_STEPS)); [lia|].
  destruct (DECAY_TABLE_get _ Ha) as (u & Hu & ?). destruct (DECAY_TABLE_get _ Hb) as (v & Hv & ?).
  rewrite (vec_at_Done _ _ _ Hu) in Hx. rewrite (vec_at_Done _ _ _ Hv) in Hy. cbn [exec_bind] in *.
  simplify_eq. rewrite !Z.shiftr_div_pow2 by lia.
  pose proof (pow2_pos _ Hha). pose proof (pow2_pos _ Hhb).
  assert (0 <= v) by (rewrite DECAY_ONE_val in *; lia).
  destruct (table_shift_antitone a b u v Hab Hu Hv) as [[-> ?]|[? ?]].
  - by apply Z.div_le_mono.
  - transitivity (v / 2 ^ (a / DECAY_STEPS + 1)).
    + apply Z.div_le_compat_l; [lia|]. split; [by apply pow2_pos; lia|]. apply Z.pow_le_mono_r; lia.
    + rewrite Z.pow_add_r, Z.mul_comm, <-Z.div_div by lia. apply Z.div_le_mono; [done|].
      apply Z.div_le_upper_bound; lia.
Qed.

Lemma shiftr_bound u h : 0 <= u → 0 <= h → 0 <= Z.shiftr u h <= u.
Proof.
  intros Hu Hh. rewrite Z.shiftr_div_pow2 by done. pose proof (pow2_pos h Hh).
  split; [apply Z.div_pos; lia|]. apply Z.div_le_upper_bound; nia.
Qed.

(** [decay] in closed form, below 64 halvings. *)
Lemma decay_exact u s :
  0 <= u <= u64_max → 0 <= s → s / DECAY_STEPS < 64 →
  ∃ f, vec_get DECAY_TABLE (s mod DECAY_STEPS) = Some f ∧ DECAY_ONE < 2 * f ∧ f <= DECAY_ONE ∧
    decay u s = Done (Z.shiftr u (s / DECAY_STEPS) * f / DECAY_ONE).
Proof.
  intros Hu Hs Hh. destruct (steps_split s Hs) as [Hq Hm].
  destruct (DECAY_TABLE_get _ Hm) as (f & Hf & ? & ?). exists f. do 3 (split; [done|]).
  unfold decay. destruct (Z.leb_spec 64 (s / DECAY_STEPS)); [lia|].
  rewrite (vec_at_Done _ _ _ Hf). cbn [exec_bind]. f_equal.
  pose proof (shiftr_bound u _ (proj1 Hu) Hq). apply mul_q48_exact; [lia|].
  rewrite DECAY_ONE_val in *. lia.
Qed.

Lemma decay_forgets u s : 64 <= s / DECAY_STEPS → decay u s = Done 0.
Proof. intros H%Z.leb_le. unfold decay. by rewrite H. Qed.

Lemma decay_Done u s :
  0 <= u <= u64_max → 0 <= s → ∃ v, decay u s = Done v ∧ 0 <= v <= u.
Proof.
  intros Hu Hs. destruct (decide (s / DECAY_STEPS < 64)) as [Hh|].
  - destruct (decay_exact u s Hu Hs Hh) as (f & _ & ? & ? & ->). eexists. split; [done|].
    destruct (steps_split s Hs) as [Hq _]. pose proof (shiftr_bound u _ (proj1 Hu) Hq).
    rewrite DECAY_ONE_val in *. split; [apply Z.div_pos; nia|]. apply Z.div_le_upper_bound; nia.
  - rewrite decay_forgets by lia. eexists. split; [done|]. lia.
Qed.

Lemma decay_mono u u' s x y :
  0 <= u <= u' → u' <= u64_max → 0 <= s → decay u s = Done x → decay u' s = Done y → x <= y.
Proof.
  intros Hu Hu' Hs Hx Hy. destruct (decide (s / DECAY_STEPS < 64)) as [Hh|].
  - destruct (decay_exact u s ltac:(lia) Hs Hh) as (f & Hf & ? & ? & E).
    destruct (decay_exact u' s ltac:(lia) Hs Hh) as (f' & Hf' & ? & ? & E').
    rewrite Hf in Hf'. injection Hf' as <-. rewrite Hx in E. rewrite Hy in E'.
    injection E as ->. injection E' as ->. destruct (steps_split s Hs) as [Hq _].
    apply Z.div_le_mono; [by rewrite DECAY_ONE_val|]. apply Z.mul_le_mono_nonneg_r.
    { rewrite DECAY_ONE_val in *. lia. }
    rewrite !Z.shiftr_div_pow2 by done. apply Z.div_le_mono; [by apply pow2_pos|lia].
  - rewrite decay_forgets in Hx, Hy by lia. injection Hx as <-. injection Hy as <-. done.
Qed.

Lemma decay_antitone u a b x y :
  0 <= u <= u64_max → 0 <= a <= b → decay u a = Done x → decay u b = Done y → y <= x.
Proof.
  intros Hu Hab Hx Hy. destruct (decide (b / DECAY_STEPS < 64)) as [Hb|].
  2:{ rewrite decay_forgets in Hy by lia. injection Hy as <-.
      destruct (decay_Done u a Hu ltac:(lia)) as (v & E & ?). rewrite Hx in E. injection E as ->. lia. }
  assert (a / DECAY_STEPS <= b / DECAY_STEPS) by (unfold DECAY_STEPS; zdiv).
  destruct (decay_exact u a Hu ltac:(lia) ltac:(lia)) as (f & Hf & ? & ? & E).
  destruct (decay_exact u b Hu ltac:(lia) ltac:(lia)) as (g & Hg & ? & ? & E').
  rewrite Hx in E. rewrite Hy in E'. injection E as ->. injection E' as ->.
  destruct (steps_split a ltac:(lia)) as [Ha _]. destruct (steps_split b ltac:(lia)) as [Hbq _].
  apply Z.div_le_mono; [by rewrite DECAY_ONE_val|]. rewrite DECAY_ONE_val in *.
  pose proof (shiftr_bound u _ (proj1 Hu) Ha). pose proof (shiftr_bound u _ (proj1 Hu) Hbq).
  destruct (table_shift_antitone a b f g Hab Hf Hg) as [[<- ?]|[Hlt ?]]; [nia|].
  assert (2 * Z.shiftr u (b / DECAY_STEPS) <= Z.shiftr u (a / DECAY_STEPS)); [|nia].
  rewrite !Z.shiftr_div_pow2 by lia. pose proof (pow2_pos _ Ha).
  pose proof (pow2_pos (b / DECAY_STEPS - a / DECAY_STEPS - 1) ltac:(lia)).
  replace (b / DECAY_STEPS) with (a / DECAY_STEPS + (1 + (b / DECAY_STEPS - a / DECAY_STEPS - 1))) by lia.
  rewrite !Z.pow_add_r, <-Z.div_div by lia. rewrite Z.pow_1_r.
  etrans; [|apply (Z.mul_div_le _ 2); lia]. apply Z.mul_le_mono_nonneg_l; [lia|].
  apply Z.div_le_compat_l; [apply Z.div_pos; lia|]. lia.
Qed.

(** A whole number of half-lives is an exact shift. *)
Lemma decay_halvings u h :
  0 <= u <= u64_max → 0 <= h < 64 → decay u (h * DECAY_STEPS) = Done (Z.shiftr u h).
Proof.
  intros Hu Hh. destruct (decay_exact u (h * DECAY_STEPS)) as (f & Hf & _ & _ & E);
    [done|unfold DECAY_STEPS; lia|unfold DECAY_STEPS; rewrite Z.div_mul by lia; lia|].
  rewrite E. rewrite Z.mod_mul in Hf by done. rewrite Z.div_mul by done.
  destruct DECAY_TABLE_check as (_ & _ & H0 & _). rewrite H0 in Hf. injection Hf as <-.
  by rewrite Z.div_mul by done.
Qed.

(** ** Properties *)

(** The decay table is what [build_decay_table] computes, which terminates:
    1024 strictly decreasing Q48 values from 1.0 down to above 0.5, powers of
    the largest root whose 1024th Q48 power is at most one half. *)
Theorem decay_table_sound :
  ∃ root, root_search 64 (DECAY_ONE / 2) DECAY_ONE = Done root ∧
    pow_q48 root DECAY_STEPS ⇓ (fun p => p <= DECAY_ONE / 2) ∧
    pow_q48 (root + 1) DECAY_STEPS ⇓ (fun p => DECAY_ONE / 2 < p) ∧
    build_decay_table = Done DECAY_TABLE ∧ length DECAY_TABLE = TABLE_LEN ∧
    vec_get DECAY_TABLE 0 = Some DECAY_ONE ∧
    (∀ k f, vec_get DECAY_TABLE k = Some f → DECAY_ONE < 2 * f ∧ f <= DECAY_ONE) ∧
    (∀ j k x y, j < k → vec_get DECAY_TABLE j = Some x → vec_get DECAY_TABLE k = Some y → y < x).
Proof.
  eexists. split; [by vm_compute|]. split; [by vm_compute|]. split; [by vm_compute|].
  split; [apply build_decay_table_Done|]. pose proof DECAY_TABLE_check as (Hl & Hd & H0 & _).
  split; [done|]. split; [done|]. split.
  - intros k f Hk. pose proof (vec_get_range _ _ _ Hk) as Hr. rewrite Hl in Hr.
    destruct (DECAY_TABLE_get k) as (f' & Hf' & ? & ?); [unfold TABLE_LEN, DECAY_STEPS in *; lia|].
    rewrite Hk in Hf'. by injection Hf' as <-.
  - intros j k x y Hjk [? Hx]%vec_get_Some [? Hy]%vec_get_Some.
    exact (strictly_descending_lookup _ (Z.to_nat j) (Z.to_nat k) x y Hd ltac:(lia) Hx Hy).
Qed.

(** Decaying a usage value never panics, never increases it, is monotone in
    the usage and antitone in the number of steps, and a whole number of
    half-lives below 64 is exactly a right shift. *)
Theorem decay_laws u u' a b :
  0 <= u <= u' → u' <= u64_max → 0 <= a <= b →
  ∃ x y z, decay u a = Done x ∧ decay u' a = Done y ∧ decay u b = Done z ∧
    0 <= z <= x ∧ x <= u ∧ x <= y ∧
    ∀ h, 0 <= h < 64 → decay u (h * DECAY_STEPS) = Done (Z.shiftr u h).
Proof.
  intros Hu Hu' Hab. destruct (decay_Done u a) as (x & Hx & ?); [lia..|].
  destruct (decay_Done u' a) as (y & Hy & ?); [lia..|]. destruct (decay_Done u b) as (z & Hz & ?); [lia..|].
  exists x, y, z. do 3 (split; [done|]).
  pose proof (decay_mono u u' a x y Hu Hu' ltac:(lia) Hx Hy).
  pose proof (decay_antitone u a b x z ltac:(lia) Hab Hx Hz).
  do 3 (split; [lia|]). intros h Hh. apply decay_halvings; lia.
Qed.

Lemma decay_laws_witness :
  decay 1000000 1024 = Done 500000 ∧
  ∃ x y z, decay 1000000 100 = Done x ∧ decay 2000000 100 = Done y ∧ decay 1000000 3000 = Done z ∧
    0 <= z <= x ∧ x <= 1000000 ∧ x <= y ∧
    ∀ h, 0 <= h < 64 → decay 1000000 (h * DECAY_STEPS) = Done (Z.shiftr 1000000 h).
Proof. split; [by vm_compute|]. apply decay_laws; lia. Defined.
