(* ===== verification/FairShare.v ===== *)
(** * Fair-share ledgers

    The rest of [crates/tasker-core/src/policy/fairshare.rs]: the ledger's
    decay-then-charge [touch], the factor each account earns and the table of
    accounts.  Arithmetic is at [u64] or [u128] width. *)

From stdpp Require Import base list numbers option.
From Stdlib Require Import ZArith Lia.
From S2P Require Import Prelude Domain Arena Job Priority Decay.
Open Scope Z_scope.

Definition MAX_ACCOUNTS : Z := 1024.
Definition NANOS_PER_MILLI : Z := 1000000.

(** ** Ledgers *)

Record FairShareConfig : Type := MkFairShareConfig { half_life : VirtualDuration }.

Definition FairShareConfig_default : FairShareConfig :=
  MkFairShareConfig (duration_from_secs 3600).

Definition quantum_nanos (c : FairShareConfig) : Z :=
  let q := half_life c / DECAY_STEPS in
  if q =? 0 then 1 else q.

Record Ledger : Type := MkLedger {
  usage : Z;
  running_cpu : Z;
  shares : Z;
  accrued_to : VirtualTime;
  decayed_to : VirtualTime;
}.

Definition Ledger_default : Ledger := MkLedger 0 0 1 0 0.

Definition Ledger_from_parts (usage running_cpu shares : Z) (accrued_to decayed_to : VirtualTime)
  : Ledger := MkLedger usage running_cpu shares accrued_to decayed_to.

(** The decay half of [touch]. *)
Definition touch_decay (l : Ledger) (now : VirtualTime) (config : FairShareConfig) : exec Ledger :=
  let quantum := quantum_nanos config in
  let steps := time_saturating_sub_time now (decayed_to l) / quantum in
  if 0 <? steps then
    let! u := decay (usage l) steps in
    let consumed := sat_mul u64_max steps quantum in
    Done (MkLedger u (running_cpu l) (shares l) (accrued_to l)
                   (time_saturating_add (decayed_to l) consumed))
  else Done l.

(** The charging half. *)
Definition touch_accrue (l : Ledger) (now : VirtualTime) : Ledger :=
  let held_ms := time_saturating_sub_time now (accrued_to l) / NANOS_PER_MILLI in
  if 0 <? held_ms then
    let u := sat_add u64_max (usage l) (sat_mul u64_max (running_cpu l) held_ms) in
    let consumed := wrap64 (held_ms * NANOS_PER_MILLI) in
    MkLedger u (running_cpu l) (shares l) (time_saturating_add (accrued_to l) consumed) (decayed_to l)
  else l.

Definition touch (l : Ledger) (now : VirtualTime) (config : FairShareConfig) : exec Ledger :=
  let! l := touch_decay l now config in
  Done (touch_accrue l now).

Definition factor_for (usage shares usage_total shares_total : Z) : exec Z :=
  if usage_total =? 0 then Done FACTOR_SCALE
  else if shares =? 0 then Done 0
  else
    let num := usage * shares_total * DECAY_STEPS in
    let den := usage_total * shares in
    let x := Z.min u64_max (num / den) in
    let! f := decay_factor x in
    Done (mul_q48 FACTOR_SCALE f).

(** ** All accounts *)

Record FairShare : Type := MkFairShare {
  ledgers : list Ledger;
  factors : list Z;
  shares_total : Z;
}.

Definition FairShare_new : FairShare := MkFairShare [] [] 0.

Record AccountError : Type := MkAccountError { ae_account : AccountId }.

Definition ensure (fs : FairShare) (account : AccountId) : FairShare * result () AccountError :=
  if MAX_ACCOUNTS <=? account then (fs, Err (MkAccountError account))
  else
    let len := Z.of_nat (length (ledgers fs)) in
    if len <=? account then
      let added := account + 1 - len in
      (MkFairShare (vec_grow (ledgers fs) (Z.to_nat (account + 1)) Ledger_default)
                   (vec_grow (factors fs) (Z.to_nat (account + 1)) FACTOR_SCALE)
                   (wrap64 (shares_total fs + added)), Ok tt)
    else (fs, Ok tt).

Definition ledger_with_shares (l : Ledger) (s : Z) : Ledger :=
  MkLedger (usage l) (running_cpu l) s (accrued_to l) (decayed_to l).

Definition ledger_with_running (l : Ledger) (c : Z) : Ledger :=
  MkLedger (usage l) c (shares l) (accrued_to l) (decayed_to l).

Definition set_shares (fs : FairShare) (account : AccountId) (s : Z)
  : exec (FairShare * result () AccountError) :=
  match ensure fs account with
  | (fs, Err e) => Done (fs, Err e)
  | (fs, Ok tt) =>
      let! ledger := vec_at (ledgers fs) account in
      let! ls := vec_put (ledgers fs) account (ledger_with_shares ledger s) in
      Done (MkFairShare ls (factors fs)
              (wrap64 (wrap64 (shares_total fs - shares ledger) + s)), Ok tt)
  end.

Definition sum_shares (ls : list Ledger) : Z := foldr (fun l acc => shares l + acc) 0 ls.

Definition fairshare_restore (fs : FairShare) (ls : list Ledger)
  : FairShare * result () AccountError :=
  if MAX_ACCOUNTS <? Z.of_nat (length ls) then (fs, Err (MkAccountError MAX_ACCOUNTS))
  else (MkFairShare ls (replicate (length ls) FACTOR_SCALE) (wrap64 (sum_shares ls)), Ok tt).

(** [ledgers.get_mut(..)] then [touch] and an update of the running cpu. *)
Definition with_ledger (fs : FairShare) (account : AccountId) (f : Ledger → exec Ledger)
  : exec FairShare :=
  match vec_get (ledgers fs) account with
  | Some ledger =>
      let! ledger' := f ledger in
      let! ls := vec_put (ledgers fs) account ledger' in
      Done (MkFairShare ls (factors fs) (shares_total fs))
  | None => Done fs
  end.

Definition on_dispatch (fs : FairShare) (account : AccountId) (cpu_millis : Z)
    (now : VirtualTime) (config : FairShareConfig) : exec FairShare :=
  with_ledger fs account (fun ledger =>
    let! l := touch ledger now config in
    Done (ledger_with_running l (sat_add u64_max (running_cpu l) cpu_millis))).

Definition on_release (fs : FairShare) (account : AccountId) (cpu_millis : Z)
    (now : VirtualTime) (config : FairShareConfig) : exec FairShare :=
  with_ledger fs account (fun ledger =>
    let! l := touch ledger now config in
    Done (ledger_with_running l (sat_sub (running_cpu l) cpu_millis))).

(** The second loop of [refresh]: both vectors in lockstep. *)
Fixpoint refresh_factors (ls : list Ledger) (fs : list Z) (total shares_total : Z)
  : exec (list Z) :=
  match ls, fs with
  | l :: ls', _ :: fs' =>
      let! f := factor_for (usage l) (shares l) total shares_total in
      let! rest := refresh_factors ls' fs' total shares_total in
      Done (f :: rest)
  | _, _ => Done fs
  end.

Definition refresh (fs : FairShare) (now : VirtualTime) (config : FairShareConfig)
  : exec FairShare :=
  let! '(ls, total) :=
    exec_fold (fun '(ls, total) l =>
                 let! l' := touch l now config in
                 Done (ls ++ [l'], total + usage l')) ([], 0) (ledgers fs) in
  let! fc := refresh_factors ls (factors fs) total (shares_total fs) in
  Done (MkFairShare ls fc (shares_total fs)).

Definition fairshare_factor (fs : FairShare) (account : AccountId) : Z :=
  default FACTOR_SCALE (vec_get (factors fs) account).

Definition fairshare_ledger (fs : FairShare) (account : AccountId) : option Ledger :=
  vec_get (ledgers fs) account.


(** ** Touching a ledger *)

Definition Ledger_wf (l : Ledger) : Prop :=
  is_u64 (usage l) ∧ is_u64 (running_cpu l) ∧ is_u32 (shares l) ∧
  is_u64 (accrued_to l) ∧ is_u64 (decayed_to l).

(** [from] moved towards [now] by whole multiples of [q]. *)
Definition advance (from now q : Z) : Z := from + q * (Z.max 0 (now - from) / q).

Lemma advance_bounds from now q : 0 < q → from <= advance from now q <= Z.max from now.
Proof.
  intros Hq. unfold advance.
  pose proof (Z.div_pos (Z.max 0 (now - from)) q ltac:(lia) Hq).
  pose proof (Z.mul_div_le (Z.max 0 (now - from)) q Hq). nia.
Qed.

Lemma advance_gap from now q : 0 < q → now - advance from now q < q.
Proof.
  intros Hq. unfold advance. pose proof (Z.div_mod (Z.max 0 (now - from)) q ltac:(lia)).
  pose proof (Z.mod_pos_bound (Z.max 0 (now - from)) q Hq). lia.
Qed.

(** The remainder waits: stopping on the way loses nothing. *)
Lemma advance_advance from t1 t2 q :
  0 < q → t1 <= t2 → advance (advance from t1 q) t2 q = advance from t2 q.
Proof.
  intros Hq Ht. set (d1 := Z.max 0 (t1 - from) / q).
  assert (advance from t1 q = from + q * d1) as E by done. rewrite E. unfold advance.
  pose proof (Z.div_pos (Z.max 0 (t1 - from)) q ltac:(lia) Hq) as Hd. fold d1 in Hd.
  pose proof (Z.mul_div_le (Z.max 0 (t1 - from)) q Hq) as Hle. fold d1 in Hle.
  destruct (decide (t1 <= from)) as [Hl|Hl].
  { assert (d1 = 0) as ->. { unfold d1. replace (Z.max 0 (t1 - from)) with 0 by lia. by rewrite Z.div_0_l by lia. }
    rewrite Z.mul_0_r, Z.add_0_r. done. }
  replace (Z.max 0 (t2 - from)) with ((t2 - from - q * d1) + d1 * q) by lia.
  rewrite Z.div_add by lia. rewrite Z.max_r by lia.
  replace (t2 - (from + q * d1)) with (t2 - from - q * d1) by lia. lia.
Qed.

Lemma quantum_pos c : 0 <= half_life c → 0 < quantum_nanos c.
Proof.
  intros H. unfold quantum_nanos. pose proof (Z.div_pos (half_life c) DECAY_STEPS H eq_refl).
  destruct (Z.eqb_spec (half_life c / DECAY_STEPS) 0); lia.
Qed.

(** The decay half, in closed form. *)
Lemma touch_decay_spec l now c :
  Ledger_wf l → is_u64 now → is_u64 (half_life c) →
  ∃ u, touch_decay l now c = Done (MkLedger u (running_cpu l) (shares l) (accrued_to l)
         (advance (decayed_to l) now (quantum_nanos c))) ∧
    0 <= u <= usage l ∧ (now - decayed_to l < quantum_nanos c → u = usage l).
Proof.
  intros (Hu & _ & _ & _ & Hd) Hn Hh. pose proof (quantum_pos c (proj1 Hh)) as Hq.
  unfold touch_decay, time_saturating_sub_time, sat_sub. set (q := quantum_nanos c) in *.
  set (s := Z.max 0 (now - decayed_to l) / q).
  pose proof (advance_bounds (decayed_to l) now q Hq) as Hab.
  assert (advance (decayed_to l) now q = decayed_to l + q * s) as Ea by done.
  destruct (Z.ltb_spec 0 s) as [Hs|Hs].
  - destruct (decay_Done (usage l) s Hu ltac:(lia)) as (v & -> & Hv). cbn [exec_bind].
    exists v. unfold sat_mul, time_saturating_add, sat_add, is_u64 in *.
    split; [|split; [done|]].
    + do 2 f_equal. rewrite Ea. lia.
    + intros Hlt. assert (s = 0); [|lia]. apply Z.div_small. lia.
  - exists (usage l). assert (s = 0) as Hs0.
    { pose proof (Z.div_pos (Z.max 0 (now - decayed_to l)) q ltac:(lia) Hq). lia. }
    rewrite Ea, Hs0, Z.mul_0_r, Z.add_0_r. destruct l; simpl in *. unfold is_u64 in Hu. split_and!; (done || lia).
Qed.

(** The charging half, in closed form. *)
Lemma touch_accrue_spec l now :
  Ledger_wf l → is_u64 now →
  touch_accrue l now =
    MkLedger (Z.min u64_max (usage l + running_cpu l * (Z.max 0 (now - accrued_to l) / NANOS_PER_MILLI)))
      (running_cpu l) (shares l) (advance (accrued_to l) now NANOS_PER_MILLI) (decayed_to l).
Proof.
  intros (Hu & Hr & _ & Ha & _) Hn. unfold touch_accrue, time_saturating_sub_time, sat_sub.
  set (h := Z.max 0 (now - accrued_to l) / NANOS_PER_MILLI).
  assert (advance (accrued_to l) now NANOS_PER_MILLI = accrued_to l + NANOS_PER_MILLI * h) as Ea by done.
  assert (0 <= h) by (apply Z.div_pos; [lia|done]).
  pose proof (Z.mul_div_le (Z.max 0 (now - accrued_to l)) NANOS_PER_MILLI eq_refl) as Hle.
  fold h in Hle. rewrite Ea. clearbody h. unfold is_u64, NANOS_PER_MILLI in *. destruct (Z.ltb_spec 0 h) as [Hh|Hh].
  - unfold sat_add, sat_mul, time_saturating_add, wrap64. rewrite Z.mod_small by lia.
    f_equal; unfold sat_add; nia.
  - replace h with 0 by lia. destruct l; simpl in *. f_equal; lia.
Qed.

Lemma touch_spec l now c :
  Ledger_wf l → is_u64 now → is_u64 (half_life c) →
  ∃ u, touch l now c = Done (MkLedger
         (Z.min u64_max (u + running_cpu l * (Z.max 0 (now - accrued_to l) / NANOS_PER_MILLI)))
         (running_cpu l) (shares l) (advance (accrued_to l) now NANOS_PER_MILLI)
         (advance (decayed_to l) now (quantum_nanos c))) ∧
    0 <= u <= usage l ∧ (now - decayed_to l < quantum_nanos c → u = usage l).
Proof.
  intros Hl Hn Hh. destruct (touch_decay_spec l now c Hl Hn Hh) as (u & E & Hu & Hu').
  exists u. split; [|done]. unfold touch. rewrite E. cbn [exec_bind].
  rewrite touch_accrue_spec; [done| |done]. destruct Hl as (H1 & H2 & H3 & H4 & H5).
  pose proof (advance_bounds (decayed_to l) now (quantum_nanos c) (quantum_pos c (proj1 Hh))).
  unfold Ledger_wf, is_u64, is_u32 in *. simpl. split_and!; lia.
Qed.

Lemma touch_wf l now c :
  Ledger_wf l → is_u64 now → is_u64 (half_life c) →
  ∃ l', touch l now c = Done l' ∧ Ledger_wf l' ∧ shares l' = shares l ∧ running_cpu l' = running_cpu l.
Proof.
  intros Hl Hn Hh. destruct (touch_spec l now c Hl Hn Hh) as (u & -> & Hu & _).
  eexists. split; [done|]. simpl. split; [|done]. destruct Hl as (H1 & H2 & H3 & H4 & H5).
  pose proof (advance_bounds (decayed_to l) now (quantum_nanos c) (quantum_pos c (proj1 Hh))).
  pose proof (advance_bounds (accrued_to l) now NANOS_PER_MILLI eq_refl).
  pose proof (Z.div_pos (Z.max 0 (now - accrued_to l)) NANOS_PER_MILLI ltac:(lia) eq_refl).
  unfold Ledger_wf, is_u64, is_u32 in *. simpl. split_and!; nia.
Qed.

(** ** The factor *)

Lemma factor_for_Done u s ut st :
  0 <= u → 0 <= s → 0 <= ut → 0 <= st →
  ∃ f, factor_for u s ut st = Done f ∧ 0 <= f <= FACTOR_SCALE.
Proof.
  intros Hu Hs Hut Hst. unfold factor_for. destruct (Z.eqb_spec ut 0); [exists FACTOR_SCALE; unfold FACTOR_SCALE; split; [done|lia]|].
  destruct (Z.eqb_spec s 0); [exists 0; unfold FACTOR_SCALE; split; [done|lia]|].
  assert (0 <= u * st * DECAY_STEPS / (ut * s)) by (apply Z.div_pos; unfold DECAY_STEPS; nia).
  destruct (decay_factor_Done (Z.min u64_max (u * st * DECAY_STEPS / (ut * s)))) as (f & -> & Hf); [lia|].
  cbn [exec_bind]. eexists. split; [done|]. apply mul_q48_le; [unfold FACTOR_SCALE; lia|done].
Qed.

(** One exponent no smaller than another earns no larger a factor. *)
Lemma factor_exponent_antitone x y f g :
  0 <= x <= y →
  (let! r := decay_factor (Z.min u64_max x) in Done (mul_q48 FACTOR_SCALE r)) = Done f →
  (let! r := decay_factor (Z.min u64_max y) in Done (mul_q48 FACTOR_SCALE r)) = Done g →
  g <= f.
Proof.
  intros Hxy. destruct (decay_factor_Done (Z.min u64_max x)) as (a & Ea & ?); [lia|].
  destruct (decay_factor_Done (Z.min u64_max y)) as (b & Eb & ?); [lia|].
  pose proof (decay_factor_antitone (Z.min u64_max x) (Z.min u64_max y) a b ltac:(lia) Ea Eb).
  rewrite Ea, Eb. cbn [exec_bind]. intros [= <-] [= <-]. apply mul_q48_mono; unfold FACTOR_SCALE; lia.
Qed.

Lemma factor_usage_antitone u u' s ut st f g :
  0 <= u <= u' → 0 <= s → 0 <= ut → 0 <= st →
  factor_for u s ut st = Done f → factor_for u' s ut st = Done g → g <= f.
Proof.
  intros Hu Hs Hut Hst. unfold factor_for. destruct (Z.eqb_spec ut 0); [intros [= <-] [= <-]; done|].
  destruct (Z.eqb_spec s 0); [intros [= <-] [= <-]; done|]. apply factor_exponent_antitone.
  split; [apply Z.div_pos; unfold DECAY_STEPS; nia|].
  apply Z.div_le_mono; [nia|]. unfold DECAY_STEPS. nia.
Qed.

Lemma factor_shares_mono u s s' ut st f g :
  0 <= u → 0 <= s <= s' → 0 <= ut → 0 <= st →
  factor_for u s ut st = Done f → factor_for u s' ut st = Done g → f <= g.
Proof.
  intros Hu Hs Hut Hst Ef Eg.
  destruct (factor_for_Done u s' ut st) as (g' & E' & ?); [lia..|]. rewrite Eg in E'.
  injection E' as <-. revert Ef Eg. unfold factor_for.
  destruct (Z.eqb_spec ut 0); [intros [= <-] [= <-]; done|].
  destruct (Z.eqb_spec s 0); [intros [= <-] _; lia|]. destruct (Z.eqb_spec s' 0); [lia|].
  intros Ef Eg. eapply factor_exponent_antitone; [|exact Eg|exact Ef].
  split; [apply Z.div_pos; unfold DECAY_STEPS; nia|].
  apply Z.div_le_compat_l; [unfold DECAY_STEPS; nia|nia].
Qed.

(** Usage exactly proportional to shares earns exactly half. *)
Lemma factor_fair_half u s ut st :
  0 < s → 0 < ut → u * st = ut * s → factor_for u s ut st = Done (FACTOR_SCALE / 2).
Proof.
  intros Hs Hut E. unfold factor_for. destruct (Z.eqb_spec ut 0); [lia|].
  destruct (Z.eqb_spec s 0); [lia|]. rewrite E, Z.mul_comm, Z.div_mul by nia.
  by vm_compute.
Qed.

(** ** The invariant *)

Record FairShare_wf (fs : FairShare) : Prop := {
  fw_ledgers : Forall Ledger_wf (ledgers fs);
  fw_len : length (factors fs) = length (ledgers fs);
  fw_max : Z.of_nat (length (ledgers fs)) <= MAX_ACCOUNTS;
  fw_total : shares_total fs = sum_shares (ledgers fs);
  fw_factors : Forall (fun f => 0 <= f <= FACTOR_SCALE) (factors fs);
}.

Lemma sum_shares_app l l' : sum_shares (l ++ l') = sum_shares l + sum_shares l'.
Proof. induction l as [|a l IH]; simpl; [done|]. lia. Qed.

Lemma sum_shares_insert ls i l l' :
  ls !! i = Some l → sum_shares (<[i := l']> ls) = sum_shares ls - shares l + shares l'.
Proof.
  revert i. induction ls as [|a ls IH]; intros [|i] H; simplify_eq/=; [lia|].
  rewrite (IH i H). lia.
Qed.

Lemma sum_shares_replicate n l : sum_shares (replicate n l) = Z.of_nat n * shares l.
Proof. induction n as [|n IH]; [done|]. cbn [replicate sum_shares foldr]. fold sum_shares.
  change (foldr _ 0 (replicate n l)) with (sum_shares (replicate n l)). lia. Qed.

Lemma sum_shares_bound ls :
  Forall Ledger_wf ls → 0 <= sum_shares ls <= Z.of_nat (length ls) * u32_max.
Proof.
  induction 1 as [|l ls (_ & _ & Hs & _) _ IH]; [done|]. unfold is_u32 in Hs.
  change (sum_shares (l :: ls)) with (shares l + sum_shares ls). cbn [length]. lia.
Qed.

Lemma Ledger_default_wf : Ledger_wf Ledger_default.
Proof. by repeat split. Qed.

Lemma FairShare_new_wf : FairShare_wf FairShare_new.
Proof. by split. Qed.

Lemma wrap64_id z : 0 <= z <= u64_max → wrap64 z = z.
Proof. intros. unfold wrap64. apply Z.mod_small. lia. Qed.

Lemma ensure_spec fs a :
  FairShare_wf fs → 0 <= a →
  ∃ fs' r, ensure fs a = (fs', r) ∧ FairShare_wf fs' ∧
  (if decide (MAX_ACCOUNTS <= a) then fs' = fs ∧ r = Err (MkAccountError a)
   else r = Ok tt ∧ a < Z.of_nat (length (ledgers fs')) ∧
        (length (ledgers fs) <= length (ledgers fs'))%nat ∧
        ∀ b, vec_get (ledgers fs') b = vec_get (ledgers fs) b ∨
             (vec_get (ledgers fs) b = None ∧ vec_get (ledgers fs') b = Some Ledger_default)).
Proof.
  intros Hwf Ha. unfold ensure.
  destruct (decide (MAX_ACCOUNTS <= a)), (Z.leb_spec MAX_ACCOUNTS a); [|lia|lia|].
  { by exists fs, (Err (MkAccountError a)). }
  destruct (Z.leb_spec (Z.of_nat (length (ledgers fs))) a).
  2:{ exists fs, (Ok tt). split; [done|]. split; [done|]. split; [done|]. split; [lia|]. split; [done|]. by left. }
  eexists _, _. split; [done|]. pose proof Hwf as [H1 H2 H3 H4 H5].
  pose proof (sum_shares_bound _ H1) as Hb. unfold MAX_ACCOUNTS in *. split.
  - split; simpl.
    + unfold vec_grow. apply Forall_app. split; [done|]. apply Forall_replicate, Ledger_default_wf.
    + by rewrite !length_vec_grow, H2.
    + rewrite length_vec_grow. unfold MAX_ACCOUNTS. lia.
    + unfold vec_grow. rewrite sum_shares_app, sum_shares_replicate, H4. simpl.
      rewrite wrap64_id by lia. lia.
    + unfold vec_grow. apply Forall_app. split; [done|]. by apply Forall_replicate.
  - split; [done|]. simpl. rewrite length_vec_grow. split; [lia|]. split; [lia|]. intros b.
    destruct (vec_get (ledgers fs) b) as [l|] eqn:Eb.
    + left. pose proof (vec_get_range _ _ _ Eb). rewrite vec_get_lookup, lookup_vec_grow_l by lia.
      by rewrite <-vec_get_lookup by lia.
    + destruct (vec_get (vec_grow _ _ _) b) as [l|] eqn:Eg; [|by left]. right.
      apply vec_get_Some in Eg as [Hb0 Hg]. apply lookup_vec_grow in Hg as [Hg|[_ ->]]; [|done].
      rewrite vec_get_lookup in Eb by done. congruence.
Qed.

Lemma ledger_put_wf fs a l l' :
  FairShare_wf fs → vec_get (ledgers fs) a = Some l → Ledger_wf l' → shares l' = shares l →
  FairShare_wf (MkFairShare (<[Z.to_nat a := l']> (ledgers fs)) (factors fs) (shares_total fs)).
Proof.
  intros [H1 H2 H3 H4 H5] [_ Hl]%vec_get_Some Hwf Hs. split; simpl; rewrite ?length_insert; try done.
  - by apply Forall_insert.
  - rewrite (sum_shares_insert _ _ _ _ Hl), H4. lia.
Qed.

Lemma fw_get fs a l : FairShare_wf fs → vec_get (ledgers fs) a = Some l → Ledger_wf l.
Proof. intros [H1 _ _ _ _] [_ H]%vec_get_Some. by eapply Forall_lookup_1. Qed.

Lemma set_shares_spec fs a s :
  FairShare_wf fs → 0 <= a → is_u32 s →
  ∃ fs' r, set_shares fs a s = Done (fs', r) ∧ FairShare_wf fs' ∧
    (if decide (MAX_ACCOUNTS <= a) then fs' = fs ∧ r = Err (MkAccountError a)
     else r = Ok tt ∧ ∃ l, vec_get (ledgers fs') a = Some l ∧ shares l = s).
Proof.
  intros Hwf Ha Hs. unfold set_shares.
  destruct (ensure_spec fs a Hwf Ha) as (fs1 & r & -> & Hwf1 & Hr).
  destruct (decide (MAX_ACCOUNTS <= a)).
  { destruct Hr as [-> ->]. by eexists _, _. }
  destruct Hr as (-> & Hlt & _). pose proof Hwf1 as [H1 H2 H3 H4 H5].
  destruct (lookup_lt_is_Some_2 (ledgers fs1) (Z.to_nat a)) as [l Hl]; [lia|].
  assert (vec_get (ledgers fs1) a = Some l) as Hg by (by apply vec_get_Some).
  rewrite (vec_at_Done _ _ _ Hg). cbn [exec_bind]. rewrite vec_put_Done by lia. cbn [exec_bind].
  pose proof (fw_get _ _ _ Hwf1 Hg) as Hwl. eexists _, _. split; [done|].
  assert (Ledger_wf (ledger_with_shares l s)) as Hws.
  { destruct Hwl as (? & ? & ? & ? & ?). unfold Ledger_wf. by split_and!. }
  pose proof (sum_shares_insert _ _ _ (ledger_with_shares l s) Hl) as Hsum. simpl in Hsum.
  assert (Forall Ledger_wf (<[Z.to_nat a := ledger_with_shares l s]> (ledgers fs1))) as Hall
    by (by apply Forall_insert).
  pose proof (sum_shares_bound _ Hall) as Hb. rewrite length_insert in Hb. unfold MAX_ACCOUNTS in *.
  pose proof (sum_shares_insert _ _ _ (ledger_with_shares l 0) Hl) as Hsum0. simpl in Hsum0.
  assert (0 <= shares_total fs1 - shares l <= u64_max).
  { assert (Forall Ledger_wf (<[Z.to_nat a := ledger_with_shares l 0]> (ledgers fs1))) as Hall0.
    { apply Forall_insert; [done|]. destruct Hwl as (? & ? & ? & ? & ?). unfold Ledger_wf. by split_and!. }
    pose proof (sum_shares_bound _ Hall0) as Hb0. rewrite length_insert in Hb0. lia. }
  split.
  - split; simpl; rewrite ?length_insert; try done.
    rewrite (wrap64_id (_ - _)), wrap64_id by lia. lia.
  - split; [done|]. exists (ledger_with_shares l s). split; [|done]. simpl.
    rewrite vec_get_insert by lia. by rewrite decide_True.
Qed.

Lemma fairshare_restore_spec fs ls :
  FairShare_wf fs → Forall Ledger_wf ls →
  ∃ fs' r, fairshare_restore fs ls = (fs', r) ∧ FairShare_wf fs' ∧
    (if decide (Z.of_nat (length ls) <= MAX_ACCOUNTS) then r = Ok tt ∧ ledgers fs' = ls
     else r = Err (MkAccountError MAX_ACCOUNTS) ∧ fs' = fs).
Proof.
  intros Hwf Hls. unfold fairshare_restore. pose proof (sum_shares_bound _ Hls).
  destruct (decide (Z.of_nat (length ls) <= MAX_ACCOUNTS)),
    (Z.ltb_spec MAX_ACCOUNTS (Z.of_nat (length ls))); [lia| | |lia]; eexists _, _; (split; [done|]).
  - split; [|done]. split; simpl; try done.
    + apply length_replicate.
    + unfold MAX_ACCOUNTS in *. rewrite wrap64_id; lia.
    + by apply Forall_replicate.
  - done.
Qed.

(** Both running-cpu updates: a touch, then a write of [running_cpu]. *)
Lemma with_ledger_spec fs a now c (g : Z → Z) :
  FairShare_wf fs → is_u64 now → is_u64 (half_life c) → (∀ z, is_u64 z → is_u64 (g z)) →
  ∃ fs', with_ledger fs a (fun ledger =>
           let! l := touch ledger now c in Done (ledger_with_running l (g (running_cpu l)))) = Done fs' ∧
    FairShare_wf fs' ∧ length (ledgers fs') = length (ledgers fs) ∧ factors fs' = factors fs ∧
    ∀ b, running_cpu <$> vec_get (ledgers fs') b =
         if decide (b = a) then g ∘ running_cpu <$> vec_get (ledgers fs) b
         else running_cpu <$> vec_get (ledgers fs) b.
Proof.
  intros Hwf Hn Hh Hg. unfold with_ledger. destruct (vec_get (ledgers fs) a) as [l|] eqn:E.
  - destruct (touch_wf l now c) as (l' & -> & Hl' & Hs & Hr); [by eapply fw_get|done|done|].
    cbn [exec_bind]. rewrite vec_put_Done by (by eapply vec_get_range). cbn [exec_bind].
    eexists. split; [done|]. destruct Hl' as (? & ? & ? & ? & ?). split; [|split; [|split; [done|]]].
    + eapply ledger_put_wf; [done|done| |done]. unfold Ledger_wf. simpl. split_and!; auto.
    + simpl. by rewrite length_insert.
    + intros b. simpl. rewrite vec_get_insert by (by eapply vec_get_range).
      destruct (decide (b = a)) as [->|]; [|by rewrite decide_False].
      rewrite decide_True, E by done. simpl. by rewrite Hr.
  - exists fs. do 4 (split; [done|]). intros b. case_decide; [|done]. subst. by rewrite E.
Qed.

Lemma on_dispatch_spec fs a cpu now c :
  FairShare_wf fs → is_u64 now → is_u64 (half_life c) → 0 <= cpu →
  ∃ fs', on_dispatch fs a cpu now c = Done fs' ∧ FairShare_wf fs' ∧
    length (ledgers fs') = length (ledgers fs) ∧ factors fs' = factors fs ∧
    ∀ b, running_cpu <$> vec_get (ledgers fs') b =
         if decide (b = a) then (fun l => sat_add u64_max (running_cpu l) cpu) <$> vec_get (ledgers fs) b
         else running_cpu <$> vec_get (ledgers fs) b.
Proof.
  intros Hwf Hn Hh Hc. apply (with_ledger_spec fs a now c (fun z => sat_add u64_max z cpu)); [done..|].
  intros z. unfold is_u64, sat_add. lia.
Qed.

Lemma on_release_spec fs a cpu now c :
  FairShare_wf fs → is_u64 now → is_u64 (half_life c) → 0 <= cpu →
  ∃ fs', on_release fs a cpu now c = Done fs' ∧ FairShare_wf fs' ∧
    length (ledgers fs') = length (ledgers fs) ∧ factors fs' = factors fs ∧
    ∀ b, running_cpu <$> vec_get (ledgers fs') b =
         if decide (b = a) then (fun l => sat_sub (running_cpu l) cpu) <$> vec_get (ledgers fs) b
         else running_cpu <$> vec_get (ledgers fs) b.
Proof.
  intros Hwf Hn Hh Hc. apply (with_ledger_spec fs a now c (fun z => sat_sub z cpu)); [done..|].
  intros z. unfold is_u64, sat_sub. lia.
Qed.

Definition sum_usage (ls : list Ledger) : Z := foldr (fun l acc => usage l + acc) 0 ls.

Lemma sum_usage_app l l' : sum_usage (l ++ l') = sum_usage l + sum_usage l'.
Proof. induction l as [|a l IH]; simpl; [done|]. lia. Qed.

Lemma sum_usage_bound ls :
  Forall Ledger_wf ls → 0 <= sum_usage ls <= Z.of_nat (length ls) * u64_max.
Proof.
  induction 1 as [|l ls (Hu & _) _ IH]; [done|]. unfold is_u64 in Hu.
  change (sum_usage (l :: ls)) with (usage l + sum_usage ls). cbn [length]. lia.
Qed.

(** [touch] applied to every ledger. *)
Definition touched (now : VirtualTime) (c : FairShareConfig) (l l' : Ledger) : Prop :=
  touch l now c = Done l' ∧ Ledger_wf l' ∧ shares l' = shares l ∧ running_cpu l' = running_cpu l.

Lemma refresh_touches now c ls done total :
  is_u64 now → is_u64 (half_life c) → Forall Ledger_wf ls →
  ∃ ls', exec_fold (fun '(ls, total) l =>
                      let! l' := touch l now c in Done (ls ++ [l'], total + usage l'))
           (done, total) ls = Done (done ++ ls', total + sum_usage ls') ∧
    Forall2 (touched now c) ls ls'.
Proof.
  intros Hn Hh Hls. revert done total. induction Hls as [|l ls Hl Hls IH]; intros done total; simpl.
  { exists []. rewrite app_nil_r. simpl. rewrite Z.add_0_r. split; [done|constructor]. }
  destruct (touch_wf l now c Hl Hn Hh) as (l' & E & Ht). rewrite E. cbn [exec_bind].
  destruct (IH (done ++ [l']) (total + usage l')) as (ls' & -> & H2).
  exists (l' :: ls'). rewrite <-app_assoc. simpl. split; [do 2 f_equal; lia|].
  constructor; [|done]. by split.
Qed.

Lemma refresh_factors_spec ls fs total st :
  Forall Ledger_wf ls → length fs = length ls → 0 <= total → 0 <= st →
  ∃ fs', refresh_factors ls fs total st = Done fs' ∧
    Forall2 (fun l f => factor_for (usage l) (shares l) total st = Done f ∧
                        0 <= f <= FACTOR_SCALE) ls fs'.
Proof.
  intros Hls. revert fs. induction Hls as [|l ls Hl Hls IH]; intros [|f fs] Hlen Ht Hst; try done.
  { exists []. split; [done|constructor]. }
  injection Hlen as Hlen. destruct (IH fs Hlen Ht Hst) as (fs' & E & H2). simpl.
  destruct Hl as (Hu & _ & Hs & _). unfold is_u64, is_u32 in *.
  destruct (factor_for_Done (usage l) (shares l) total st) as (g & Eg & Hg); [lia..|].
  rewrite Eg. cbn [exec_bind]. rewrite E. cbn [exec_bind]. exists (g :: fs'). split; [done|].
  by constructor.
Qed.

Lemma touched_shares now c ls ls' : Forall2 (touched now c) ls ls' → sum_shares ls' = sum_shares ls.
Proof.
  induction 1 as [|l l' ls ls' (_ & _ & E & _) _ IH]; [done|].
  change (sum_shares (l' :: ls')) with (shares l' + sum_shares ls').
  change (sum_shares (l :: ls)) with (shares l + sum_shares ls). lia.
Qed.

Lemma refresh_spec fs now c :
  FairShare_wf fs → is_u64 now → is_u64 (half_life c) →
  ∃ fs', refresh fs now c = Done fs' ∧ FairShare_wf fs' ∧
    Forall2 (touched now c) (ledgers fs) (ledgers fs') ∧ shares_total fs' = shares_total fs ∧
    Forall2 (fun l f => factor_for (usage l) (shares l) (sum_usage (ledgers fs')) (shares_total fs)
                        = Done f) (ledgers fs') (factors fs').
Proof.
  intros [H1 H2 H3 H4 H5] Hn Hh. unfold refresh.
  destruct (refresh_touches now c (ledgers fs) [] 0 Hn Hh H1) as (ls' & -> & Ht). cbn [exec_bind app].
  assert (Forall Ledger_wf ls') as Hwf'.
  { eapply Forall2_Forall_r; [exact Ht|]. apply Forall_forall. by intros l _ l' (_ & ? & _). }
  pose proof (Forall2_length Ht) as Hlen.
  destruct (refresh_factors_spec ls' (factors fs) (sum_usage ls') (shares_total fs)) as (fc & E & Hf).
  { done. } { by rewrite H2. } { by apply sum_usage_bound. }
  { rewrite H4. by apply sum_shares_bound. }
  rewrite Z.add_0_l, E. cbn [exec_bind]. eexists. split; [done|]. simpl.
  split; [|split; [done|split; [done|]]].
  - split; simpl; try done.
    + symmetry. by eapply Forall2_length.
    + by rewrite <-Hlen.
    + by rewrite (touched_shares _ _ _ _ Ht).
    + eapply Forall2_Forall_r; [exact Hf|]. apply Forall_forall. by intros l _ f [_ ?].
  - eapply Forall2_impl; [|exact Hf]. by intros l f [? _].
Qed.

Lemma fairshare_factor_range fs a : FairShare_wf fs → 0 <= fairshare_factor fs a <= FACTOR_SCALE.
Proof.
  intros Hwf. unfold fairshare_factor. destruct (vec_get _ _) as [f|] eqn:E; simpl; [|done].
  apply vec_get_Some in E as [_ E]. eapply (Forall_lookup_1 _ _ _ _ (fw_factors _ Hwf) E).
Qed.

(** ** Properties *)

(** [touch] never panics; it advances each timestamp to within one quantum
    (one millisecond) of [now] and never past it, by whole quanta, so that
    touching a ledger on the way loses neither decay steps nor charged time,
    and while no whole quantum has passed the usage itself is the same however
    often the ledger was touched. *)
Theorem touch_carries_remainders l t1 t2 c :
  Ledger_wf l → is_u64 t1 → is_u64 t2 → is_u64 (half_life c) → t1 <= t2 →
  ∃ l1 l2 l12, touch l t1 c = Done l1 ∧ touch l t2 c = Done l2 ∧ touch l1 t2 c = Done l12 ∧
    Ledger_wf l12 ∧
    decayed_to l12 = decayed_to l2 ∧ accrued_to l12 = accrued_to l2 ∧
    decayed_to l <= decayed_to l2 <= Z.max (decayed_to l) t2 ∧
    t2 - decayed_to l2 < quantum_nanos c ∧ t2 - accrued_to l2 < NANOS_PER_MILLI ∧
    (t2 - decayed_to l < quantum_nanos c → l12 = l2).
Proof.
  intros Hl H1 H2 Hh Ht. pose proof (quantum_pos c (proj1 Hh)) as Hq.
  destruct (touch_wf l t1 c Hl H1 Hh) as (l1 & E1 & Hl1 & _).
  destruct (touch_spec l t1 c Hl H1 Hh) as (u1 & E1' & Hu1 & Hk1). rewrite E1 in E1'.
  destruct (touch_spec l t2 c Hl H2 Hh) as (u2 & E2 & Hu2 & Hk2).
  destruct (touch_wf l1 t2 c Hl1 H2 Hh) as (l12 & E12 & Hl12 & _).
  destruct (touch_spec l1 t2 c Hl1 H2 Hh) as (u12 & E12' & Hu12 & Hk12). rewrite E12 in E12'.
  injection E1' as ->. injection E12' as ->. simpl in *.
  eexists _, _, _. split; [done|]. split; [done|]. split; [exact E12|]. split; [done|]. simpl.
  rewrite !advance_advance by done. do 2 (split; [done|]).
  split; [by apply advance_bounds|]. split; [by apply advance_gap|]. split; [by apply advance_gap|].
  intros Hlt. f_equal. rewrite Hk12, Hk1, Hk2.
  - destruct Hl as (Hu & Hr & _). unfold is_u64 in *.
    set (a := advance (accrued_to l) t1 NANOS_PER_MILLI) in *.
    assert (a + NANOS_PER_MILLI * (Z.max 0 (t2 - a) / NANOS_PER_MILLI) =
            accrued_to l + NANOS_PER_MILLI * (Z.max 0 (t2 - accrued_to l) / NANOS_PER_MILLI)) as Hadd.
    { exact (advance_advance (accrued_to l) t1 t2 NANOS_PER_MILLI eq_refl Ht). }
    assert (a = accrued_to l + NANOS_PER_MILLI * (Z.max 0 (t1 - accrued_to l) / NANOS_PER_MILLI)) as Ea
      by done.
    set (n1 := Z.max 0 (t1 - accrued_to l) / NANOS_PER_MILLI) in *.
    set (n2 := Z.max 0 (t2 - a) / NANOS_PER_MILLI) in *.
    set (n := Z.max 0 (t2 - accrued_to l) / NANOS_PER_MILLI) in *.
    assert (0 <= n1) by (apply Z.div_pos; [lia|done]). assert (0 <= n2) by (apply Z.div_pos; [lia|done]).
    assert (n = n1 + n2) as -> by (unfold NANOS_PER_MILLI in *; lia). nia.
  - done.
  - lia.
  - pose proof (advance_bounds (decayed_to l) t1 (quantum_nanos c) Hq). lia.
Qed.

Lemma touch_carries_remainders_witness :
  ∃ l1 l2 l12,
    touch (MkLedger 5000 200 1 0 0) 1500000 FairShareConfig_default = Done l1 ∧
    touch (MkLedger 5000 200 1 0 0) 9999999 FairShareConfig_default = Done l2 ∧
    touch l1 9999999 FairShareConfig_default = Done l12 ∧ Ledger_wf l12 ∧
    decayed_to l12 = decayed_to l2 ∧ accrued_to l12 = accrued_to l2 ∧
    0 <= decayed_to l2 <= Z.max 0 9999999 ∧
    9999999 - decayed_to l2 < quantum_nanos FairShareConfig_default ∧
    9999999 - accrued_to l2 < NANOS_PER_MILLI ∧
    (9999999 - 0 < quantum_nanos FairShareConfig_default → l12 = l2).
Proof.
  apply (touch_carries_remainders (MkLedger 5000 200 1 0 0) 1500000 9999999 FairShareConfig_default);
    [|by vm_compute..]. unfold Ledger_wf. by vm_compute.
Defined.

(** C40: The factor an account earns is computed without a panic and without
    overflowing the [u128] intermediates, lies in [0..=FACTOR_SCALE], falls with
    its usage, rises with its shares, and is exactly half when its part of the
    usage equals its part of the shares. *)
Theorem factor_is_fair u u' s s' ut st :
  0 <= u <= u' → u' <= u64_max → 0 <= s <= s' → s' <= u32_max →
  0 <= ut <= MAX_ACCOUNTS * u64_max → 0 <= st <= MAX_ACCOUNTS * u32_max →
  (u' * st * DECAY_STEPS <= u128_max ∧ ut * s' <= u128_max) ∧
  ∃ f g h, factor_for u s ut st = Done f ∧ factor_for u' s ut st = Done g ∧
    factor_for u s' ut st = Done h ∧ 0 <= g <= f ∧ f <= h <= FACTOR_SCALE ∧
    (0 < s → 0 < ut → u * st = ut * s → f = FACTOR_SCALE / 2).
Proof.
  intros Hu Hu' Hs Hs' Hut Hst. unfold MAX_ACCOUNTS, DECAY_STEPS in *. split.
  { pose proof (Z.mul_le_mono_nonneg u' u64_max st (1024 * u32_max)).
    pose proof (Z.mul_le_mono_nonneg ut (1024 * u64_max) s' u32_max). lia. }
  destruct (factor_for_Done u s ut st) as (f & Ef & ?); [lia..|].
  destruct (factor_for_Done u' s ut st) as (g & Eg & ?); [lia..|].
  destruct (factor_for_Done u s' ut st) as (h & Eh & ?); [lia..|].
  exists f, g, h. do 3 (split; [done|]).
  pose proof (factor_usage_antitone u u' s ut st f g Hu ltac:(lia) ltac:(lia) ltac:(lia) Ef Eg).
  pose proof (factor_shares_mono u s s' ut st f h ltac:(lia) Hs ltac:(lia) ltac:(lia) Ef Eh).
  split; [lia|]. split; [lia|]. intros Hp Hp' E. pose proof (factor_fair_half u s ut st Hp Hp' E) as Eq.
  congruence.
Qed.

Lemma factor_is_fair_witness :
  (300 * 4 * DECAY_STEPS <= u128_max ∧ 400 * 2 <= u128_max) ∧
  ∃ f g h, factor_for 100 1 400 4 = Done f ∧ factor_for 300 1 400 4 = Done g ∧
    factor_for 100 2 400 4 = Done h ∧ 0 <= g <= f ∧ f <= h <= FACTOR_SCALE ∧
    (0 < 1 → 0 < 400 → 100 * 4 = 400 * 1 → f = FACTOR_SCALE / 2).
Proof. apply factor_is_fair; unfold MAX_ACCOUNTS; lia. Defined.

(** Every operation on the fair-share table keeps its invariant: at most
    [MAX_ACCOUNTS] well-formed ledgers, as many factors, each within
    [0..=FACTOR_SCALE], and [shares_total] equal to the sum of the shares (so
    its [u64] arithmetic never wraps); accounts at or above [MAX_ACCOUNTS] are
    refused with an error and change nothing. *)
Theorem fairshare_invariant fs a s cpu now c ls :
  FairShare_wf fs → 0 <= a → is_u32 s → 0 <= cpu → is_u64 now → is_u64 (half_life c) →
  Forall Ledger_wf ls →
  (∃ fs' r, ensure fs a = (fs', r) ∧ FairShare_wf fs' ∧
     (r = Err (MkAccountError a) ∧ fs' = fs ↔ MAX_ACCOUNTS <= a)) ∧
  (∃ fs' r, set_shares fs a s = Done (fs', r) ∧ FairShare_wf fs' ∧
     (if decide (MAX_ACCOUNTS <= a) then fs' = fs ∧ r = Err (MkAccountError a)
      else r = Ok tt ∧ ∃ l, vec_get (ledgers fs') a = Some l ∧ shares l = s)) ∧
  (∃ fs' r, fairshare_restore fs ls = (fs', r) ∧ FairShare_wf fs') ∧
  on_dispatch fs a cpu now c ⇓ FairShare_wf ∧
  on_release fs a cpu now c ⇓ FairShare_wf ∧
  refresh fs now c ⇓ (fun fs' => FairShare_wf fs' ∧ shares_total fs' = shares_total fs).
Proof.
  intros Hwf Ha Hs Hc Hn Hh Hls. split_and!.
  - destruct (ensure_spec fs a Hwf Ha) as (fs' & r & E & Hwf' & Hr). exists fs', r.
    do 2 (split; [done|]). destruct (decide (MAX_ACCOUNTS <= a)); naive_solver.
  - by apply set_shares_spec.
  - destruct (fairshare_restore_spec fs ls Hwf Hls) as (fs' & r & ? & ? & _). by eexists _, _.
  - destruct (on_dispatch_spec fs a cpu now c) as (fs' & -> & ? & _); done.
  - destruct (on_release_spec fs a cpu now c) as (fs' & -> & ? & _); done.
  - destruct (refresh_spec fs now c) as (fs' & -> & ? & _ & ? & _); done.
Qed.

Lemma fairshare_invariant_witness :
  (∃ fs' r, ensure FairShare_new 3 = (fs', r) ∧ FairShare_wf fs' ∧
     (r = Err (MkAccountError 3) ∧ fs' = FairShare_new ↔ MAX_ACCOUNTS <= 3)) ∧
  (∃ fs' r, set_shares FairShare_new 3 7 = Done (fs', r) ∧ FairShare_wf fs' ∧
     (if decide (MAX_ACCOUNTS <= 3) then fs' = FairShare_new ∧ r = Err (MkAccountError 3)
      else r = Ok tt ∧ ∃ l, vec_get (ledgers fs') 3 = Some l ∧ shares l = 7)) ∧
  (∃ fs' r, fairshare_restore FairShare_new [Ledger_default] = (fs', r) ∧ FairShare_wf fs') ∧
  on_dispatch FairShare_new 3 50 1000 FairShareConfig_default ⇓ FairShare_wf ∧
  on_release FairShare_new 3 50 1000 FairShareConfig_default ⇓ FairShare_wf ∧
  refresh FairShare_new 1000 FairShareConfig_default ⇓
    (fun fs' => FairShare_wf fs' ∧ shares_total fs' = shares_total FairShare_new).
Proof.
  apply fairshare_invariant; [apply FairShare_new_wf|by vm_compute..|].
  constructor; [apply Ledger_default_wf|constructor].
Defined.
