(* ===== verification/Pack.v ===== *)
(** * Greedy packing

    [crates/tasker-core/src/policy/pack.rs]: candidates are placed in priority
    order until one does not fit anywhere.  The pass is shown never to panic
    on an inventory whose overcommitted slots hold no request, to dispatch exactly
    the live candidates before its stopping point, and to change the inventory by
    exactly the allocations its decisions name. *)

From stdpp Require Import base list numbers option.
From Stdlib Require Import ZArith Lia.
From S2P Require Import Prelude Domain Arena Job Inventory Priority ReadySet.
Open Scope Z_scope.

Record DispatchDecision : Type := MkDecision {
  dd_job : JobId;
  dd_slot : SlotIndex;
}.

Module Disposition.
Inductive Disposition : Type := Pending | Dispatched | Dropped.
End Disposition.
Abbreviation Disposition := Disposition.Disposition.

#[export] Instance Disposition_eq_dec : EqDecision Disposition.
Proof. solve_decision. Defined.

(** The limits are [usize] values. *)
Record PackBudget : Type := MkPackBudget {
  max_decisions : Z;
  max_scanned : Z;
}.

Definition PackBudget_default : PackBudget := MkPackBudget u64_max u64_max.

Record PackOutcome : Type := MkPackOutcome {
  scanned : Z;
  dispatched : Z;
  head : option nat;
  budget_exhausted : bool;
}.

Definition PackOutcome_default : PackOutcome := MkPackOutcome 0 0 None false.

(** What a placement pass mutates: the inventory, the disposition buffer and
    the decision list. *)
Record Placement : Type := MkPlacement {
  pl_inventory : SlotInventory;
  pl_disposition : list Disposition;
  pl_decisions : list DispatchDecision;
}.

(** [inventory.try_allocate(..).expect(..)]. *)
Definition allocate_or_panic (inv : SlotInventory) (slot : SlotIndex) (r : Resources)
  : exec SlotInventory :=
  match try_allocate inv slot r with
  | (inv', Ok _) => Done inv'
  | (_, Err _) => Panic
  end.

(** Push the decision and mark the candidate. *)
Definition place (p : Placement) (inv : SlotInventory) (index : nat) (job : JobId) (slot : SlotIndex)
  : exec Placement :=
  let decisions := pl_decisions p ++ [MkDecision job slot] in
  let! disposition := nth_put (pl_disposition p) index Disposition.Dispatched in
  Done (MkPlacement inv disposition decisions).

Definition drop_candidate (p : Placement) (index : nat) : exec Placement :=
  let! disposition := nth_put (pl_disposition p) index Disposition.Dropped in
  Done (MkPlacement (pl_inventory p) disposition (pl_decisions p)).

(** The loop of [pack]; [index] counts the candidates already walked. *)
Fixpoint pack_loop (jobs : Arena Job) (budget : PackBudget) (index : nat)
    (candidates : list ReadyEntry) (p : Placement) (out : PackOutcome)
  : exec (Placement * PackOutcome) :=
  match candidates with
  | [] => Done (p, out)
  | entry :: rest =>
      if (max_decisions budget <=? dispatched out) || (max_scanned budget <=? scanned out)
      then Done (p, MkPackOutcome (scanned out) (dispatched out) (head out) true)
      else
        match Arena_get jobs (re_job entry) with
        | None =>
            let! p := drop_candidate p index in
            pack_loop jobs budget (S index) rest p out
        | Some job =>
            let out := MkPackOutcome (scanned out + 1) (dispatched out) (head out)
                                     (budget_exhausted out) in
            let! fit := first_fit (pl_inventory p) (request job) in
            match fit with
            | None =>
                Done (p, MkPackOutcome (scanned out) (dispatched out) (Some index)
                                       (budget_exhausted out))
            | Some slot =>
                let! inv := allocate_or_panic (pl_inventory p) slot (request job) in
                let! p := place p inv index (re_job entry) slot in
                pack_loop jobs budget (S index) rest p
                  (MkPackOutcome (scanned out) (dispatched out + 1) (head out)
                                 (budget_exhausted out))
            end
        end
  end.

Definition pack (candidates : list ReadyEntry) (jobs : Arena Job) (budget : PackBudget)
    (p : Placement) : exec (Placement * PackOutcome) :=
  if (length candidates <=? length (pl_disposition p))%nat
  then pack_loop jobs budget 0 candidates p PackOutcome_default
  else Panic.

(** ** Specification *)

(** Every live job requests representable resources. *)
Definition requests_wf (jobs : Arena Job) : Prop :=
  ∀ id j, Arena_get jobs id = Some j → Resources_wf (request j).

(** The decisions, replayed as allocations that must all succeed. *)
Fixpoint allocate_all (jobs : Arena Job) (inv : SlotInventory) (ds : list DispatchDecision)
  : option SlotInventory :=
  match ds with
  | [] => Some inv
  | d :: ds' =>
      match Arena_get jobs (dd_job d) with
      | Some j =>
          match try_allocate inv (dd_slot d) (request j) with
          | (inv', Ok _) => allocate_all jobs inv' ds'
          | (_, Err _) => None
          end
      | None => None
      end
  end.

(** A request that fits in what a slot reports free can be given it.  Only an
    overcommitted slot breaks this: it reports nothing free, and an empty
    request fits in nothing. *)
Definition offers_hold (inv : SlotInventory) (r : Resources) : Prop :=
  ∀ i s, vec_get (worker_slots inv) i = Some s → Resources_le r (WorkerSlot_free s) →
         Resources_le (allocated s) (capacity s).

Definition inventory_ok (jobs : Arena Job) (inv : SlotInventory) : Prop :=
  Inventory_wf inv ∧ ∀ id j, Arena_get jobs id = Some j → offers_hold inv (request j).

(** A slot that is drained while it is busy is overcommitted, with no capacity. *)
Definition drained_or_within (inv : SlotInventory) : Prop :=
  ∀ i s, vec_get (worker_slots inv) i = Some s →
         Resources_le (allocated s) (capacity s) ∨ capacity s = Resources_ZERO.

Lemma within_inventory_ok jobs inv : Inventory_wf inv → within_capacity inv → inventory_ok jobs inv.
Proof. intros Hwf Hw. split; [done|]. intros id j _ i s Hs _. by eapply Hw. Qed.

Lemma drained_inventory_ok jobs inv :
  Inventory_wf inv → drained_or_within inv → requests_wf jobs →
  (∀ id j, Arena_get jobs id = Some j → request j ≠ Resources_ZERO) → inventory_ok jobs inv.
Proof.
  intros Hwf Hd Hr Hz. split; [done|]. intros id j Hj i s Hs Hle.
  destruct (Hd _ _ Hs) as [?|Hc]; [done|]. destruct (Hz _ _ Hj).
  specialize (Hr _ _ Hj). destruct (inv_widths _ Hwf _ _ Hs) as [_ Ha]. clear Hs Hj.
  unfold WorkerSlot_free in Hle. rewrite Hc in Hle. destruct (allocated s), (request j) as [a b c].
  enough (a = 0 ∧ b = 0 ∧ c = 0) as (-> & -> & ->) by done. res_crush.
Qed.

(** Allocations leave every capacity alone, and overcommit no slot. *)
Definition slots_kept (inv inv' : SlotInventory) : Prop :=
  ∀ i s', vec_get (worker_slots inv') i = Some s' →
  ∃ s, vec_get (worker_slots inv) i = Some s ∧ capacity s' = capacity s ∧
    (Resources_le (allocated s) (capacity s) → Resources_le (allocated s') (capacity s')) .

#[export] Instance slots_kept_refl : Reflexive slots_kept.
Proof. intros inv i s Hs. by exists s. Qed.

#[export] Instance slots_kept_trans : Transitive slots_kept.
Proof.
  intros a b c Hab Hbc i s Hs. destruct (Hbc i s Hs) as (t & Ht & Ec & Hc).
  destruct (Hab i t Ht) as (u & Hu & Eb & Hb). exists u. split; [done|]. split; [congruence|auto].
Qed.

Lemma slots_kept_within inv inv' : slots_kept inv inv' → within_capacity inv → within_capacity inv'.
Proof. intros Hk Hw i s Hs. destruct (Hk i s Hs) as (t & Ht & _ & H). by eapply H, Hw. Qed.

(** What one allocation keeps. *)
Lemma allocate_ok jobs inv slot r inv' :
  inventory_ok jobs inv → Resources_wf r → try_allocate inv slot r = (inv', Ok tt) →
  inventory_ok jobs inv' ∧ slots_kept inv inv'.
Proof.
  intros [Hwf Ho] Hr Ha. destruct (try_allocate_preserves _ _ _ _ _ Hwf Hr Ha) as [Hwf' _].
  apply try_allocate_Ok in Ha as (s & Hs & Hle & _ & ->). split; [split; [done|]|].
  - intros id j Hj i t. rewrite (set_slot_get _ _ _ _ _ Hs). case_decide; [by intros [= <-]|by eapply Ho].
  - intros i t. rewrite (set_slot_get _ _ _ _ _ Hs). case_decide as E; [intros [= <-]; subst i|]; eauto.
Qed.

Lemma allocate_all_app jobs inv ds ds' :
  allocate_all jobs inv (ds ++ ds') =
  match allocate_all jobs inv ds with Some inv' => allocate_all jobs inv' ds' | None => None end.
Proof.
  revert inv. induction ds as [|d ds IH]; intros inv; simpl; [done|].
  destruct (Arena_get jobs (dd_job d)); [|done]. destruct (try_allocate _ _ _) as [? []]; [apply IH|done].
Qed.

Lemma allocate_all_ok jobs inv ds inv' :
  requests_wf jobs → inventory_ok jobs inv → allocate_all jobs inv ds = Some inv' →
  inventory_ok jobs inv' ∧ slots_kept inv inv'.
Proof.
  intros Hj. revert inv. induction ds as [|d ds IH]; intros inv Hi H; simpl in H; [by simplify_eq|].
  destruct (Arena_get jobs (dd_job d)) as [j|] eqn:Ej; [|done].
  destruct (try_allocate inv (dd_slot d) (request j)) as [inv1 [[]|]] eqn:Ea; [|done].
  destruct (allocate_ok _ _ _ _ _ Hi (Hj _ _ Ej) Ea) as [Hi1 Hk]. destruct (IH _ Hi1 H) as [? ?].
  split; [done|by etrans].
Qed.

(** The single place where both passes rely on [first_fit]'s answer. *)
Lemma first_fit_allocates jobs inv id j :
  let r := request j in
  inventory_ok jobs inv → Arena_get jobs id = Some j → Resources_wf r →
  ∃ o, first_fit inv r = Done o ∧
  match o with
  | None => ∀ i s, vec_get (worker_slots inv) i = Some s → ¬ Resources_le r (WorkerSlot_free s)
  | Some slot => ∃ s inv', vec_get (worker_slots inv) slot = Some s ∧
      Resources_le r (WorkerSlot_free s) ∧ Resources_le (allocated s) (capacity s) ∧
      try_allocate inv slot r = (inv', Ok tt) ∧
      inv' = set_slot inv slot (MkWorkerSlot (capacity s) (Resources_plus (allocated s) r)) ∧
      inventory_ok jobs inv'
  end.
Proof.
  intros r Hi Hj Hr. pose proof Hi as [Hwf Hc]. destruct (first_fit_Done inv r Hwf) as ([slot|] & E & Ho).
  - exists (Some slot). split; [done|]. destruct Ho as (s & Hs & Hle & _).
    pose proof (Hc _ _ Hj _ _ Hs Hle) as Hw.
    pose proof (fits_free_allocates inv slot s r Hwf Hs Hw Hr Hle) as Ea.
    eexists _, _. do 4 (split; [done|]). split; [done|].
    apply (allocate_ok _ _ _ _ _ Hi Hr Ea).
  - by exists None.
Qed.

Definition live (jobs : Arena Job) (e : ReadyEntry) : bool := Arena_contains jobs (re_job e).

(** The disposition the pass gives a candidate it walked past. *)
Definition walked (jobs : Arena Job) (e : ReadyEntry) : Disposition :=
  if live jobs e then Disposition.Dispatched else Disposition.Dropped.

(** After the candidates [seen]: each was dispatched or dropped, and the
    decisions [new] account for the inventory. *)
Record pack_inv (jobs : Arena Job) (p0 : Placement) (seen : list ReadyEntry)
    (p : Placement) (new : list DispatchDecision) : Prop := {
  pi_alloc : allocate_all jobs (pl_inventory p0) new = Some (pl_inventory p);
  pi_decs : pl_decisions p = pl_decisions p0 ++ new;
  pi_jobs : dd_job <$> new = re_job <$> List.filter (live jobs) seen;
  pi_disp : pl_disposition p = (walked jobs <$> seen) ++ drop (length seen) (pl_disposition p0);
}.

Lemma disposition_put {A} (l seen : list A) x :
  (length seen < length l)%nat →
  nth_put (seen ++ drop (length seen) l) (length seen) x =
  Done ((seen ++ [x]) ++ drop (S (length seen)) l).
Proof.
  intros Hl. destruct (lookup_lt_is_Some_2 l (length seen) Hl) as [y Hy].
  rewrite nth_put_Done by (rewrite length_app, length_drop; lia). f_equal.
  rewrite (drop_S _ _ _ Hy), insert_app_r_alt, Nat.sub_diag by lia. simpl. by rewrite <-app_assoc.
Qed.

Lemma pack_inv_drop jobs p0 seen p new e :
  pack_inv jobs p0 seen p new → (length seen < length (pl_disposition p0))%nat →
  Arena_get jobs (re_job e) = None →
  ∃ p', drop_candidate p (length seen) = Done p' ∧ pack_inv jobs p0 (seen ++ [e]) p' new.
Proof.
  intros [H1 H2 H3 H4] Hl He. unfold drop_candidate. rewrite H4.
  pose proof (disposition_put (pl_disposition p0) (walked jobs <$> seen) Disposition.Dropped) as Hp.
  rewrite length_fmap in Hp. rewrite Hp by done. cbn [exec_bind]. eexists. split; [done|].
  assert (live jobs e = false) as Hlive by (unfold live, Arena_contains; by rewrite He).
  split; simpl; [done|done| |].
  - rewrite List.filter_app, H3. simpl. rewrite Hlive. by rewrite app_nil_r.
  - rewrite fmap_app, length_app, Nat.add_1_r. simpl. do 3 f_equal. unfold walked. by rewrite Hlive.
Qed.

Lemma pack_inv_place jobs p0 seen p new e j slot inv' :
  pack_inv jobs p0 seen p new → (length seen < length (pl_disposition p0))%nat →
  Arena_get jobs (re_job e) = Some j →
  try_allocate (pl_inventory p) slot (request j) = (inv', Ok tt) →
  ∃ p', place p inv' (length seen) (re_job e) slot = Done p' ∧ pl_inventory p' = inv' ∧
    pack_inv jobs p0 (seen ++ [e]) p' (new ++ [MkDecision (re_job e) slot]).
Proof.
  intros [H1 H2 H3 H4] Hl He Ha. unfold place. rewrite H4.
  pose proof (disposition_put (pl_disposition p0) (walked jobs <$> seen) Disposition.Dispatched) as Hp.
  rewrite length_fmap in Hp. rewrite Hp by done. cbn [exec_bind]. eexists. split; [done|]. split; [done|].
  assert (live jobs e = true) as Hlive by (unfold live, Arena_contains; by rewrite He).
  split; simpl.
  - rewrite allocate_all_app, H1. simpl. by rewrite He, Ha.
  - by rewrite H2, app_assoc.
  - rewrite List.filter_app, !fmap_app, H3. simpl. by rewrite Hlive.
  - rewrite fmap_app, length_app, Nat.add_1_r. simpl. do 3 f_equal. unfold walked. by rewrite Hlive.
Qed.

Section Loop.
Context (jobs : Arena Job) (budget : PackBudget) (p0 : Placement) (candidates : list ReadyEntry).
Hypothesis Hjobs : requests_wf jobs.
Hypothesis Hinv : inventory_ok jobs (pl_inventory p0).
Hypothesis Hlen : (length candidates <= length (pl_disposition p0))%nat.

(** What a pass that stopped after [seen], with [rest] left, reports. *)
Definition pack_stop (seen rest : list ReadyEntry) (p : Placement) (new : list DispatchDecision)
    (out : PackOutcome) : Prop :=
  dispatched out = Z.of_nat (length new) ∧
  match head out with
  | Some h => h = length seen ∧ budget_exhausted out = false ∧
      ∃ e rest' j, rest = e :: rest' ∧ Arena_get jobs (re_job e) = Some j ∧
        ∀ i s, vec_get (worker_slots (pl_inventory p)) i = Some s →
               ¬ Resources_le (request j) (WorkerSlot_free s)
  | None =>
      if budget_exhausted out
      then rest ≠ [] ∧ scanned out <= Z.of_nat (length seen) ∧
           (max_decisions budget <= dispatched out ∨ max_scanned budget <= scanned out)
      else rest = []
  end.

Lemma pack_loop_spec rest seen p new out :
  candidates = seen ++ rest → pack_inv jobs p0 seen p new →
  dispatched out = Z.of_nat (length new) → scanned out <= Z.of_nat (length seen) → head out = None → budget_exhausted out = false →
  ∃ p' out' seen' rest' new', pack_loop jobs budget (length seen) rest p out = Done (p', out') ∧
    candidates = seen' ++ rest' ∧ pack_inv jobs p0 seen' p' new' ∧ pack_stop seen' rest' p' new' out'.
Proof.
  revert seen p new out. induction rest as [|e rest IH]; intros seen p new out Hc Hp Hd Hsc Hh Hb.
  { exists p, out, seen, [], new. unfold pack_stop. rewrite Hh, Hb. done. }
  assert (length seen < length (pl_disposition p0))%nat as Hl.
  { rewrite Hc, length_app in Hlen. simpl in Hlen. lia. }
  cbn [pack_loop]. destruct (_ || _) eqn:Eb.
  { eexists _, _, seen, (e :: rest), new. split; [done|]. split; [done|]. split; [done|].
    unfold pack_stop. simpl. rewrite Hh. split; [done|]. split; [done|]. split; [done|]. apply orb_true_iff in Eb.
    rewrite !Z.leb_le in Eb. done. }
  destruct (Arena_get jobs (re_job e)) as [j|] eqn:Ej.
  - destruct (allocate_all_ok _ _ _ _ Hjobs Hinv (pi_alloc _ _ _ _ _ Hp)) as [Hok _].
    destruct (first_fit_allocates _ _ _ _ Hok Ej (Hjobs _ _ Ej)) as (o & -> & Ho). cbn [exec_bind].
    destruct o as [slot|].
    + destruct Ho as (s & inv' & _ & _ & _ & Ea & _ & _). unfold allocate_or_panic. rewrite Ea. cbn [exec_bind].
      destruct (pack_inv_place _ _ _ _ _ _ _ _ _ Hp Hl Ej Ea) as (p' & -> & _ & Hp'). cbn [exec_bind].
      replace (S (length seen)) with (length (seen ++ [e])) by (rewrite length_app; simpl; lia).
      eapply IH; [by rewrite <-app_assoc|done|..]; simpl;
        [| |done|done]; rewrite length_app; simpl; lia.
    + eexists _, _, seen, (e :: rest), new. split; [done|]. split; [done|]. split; [done|].
      unfold pack_stop. simpl. split; [done|]. split; [done|]. split; [done|].
      by exists e, rest, j.
  - destruct (pack_inv_drop _ _ _ _ _ _ Hp Hl Ej) as (p' & -> & Hp'). cbn [exec_bind].
    replace (S (length seen)) with (length (seen ++ [e])) by (rewrite length_app; simpl; lia).
    eapply IH; [by rewrite <-app_assoc|done|done| |done..]. rewrite length_app. simpl. lia.
Qed.

Lemma pack_spec :
  ∃ p' out seen rest new, pack candidates jobs budget p0 = Done (p', out) ∧
    candidates = seen ++ rest ∧ pack_inv jobs p0 seen p' new ∧ pack_stop seen rest p' new out.
Proof.
  unfold pack. destruct (Nat.leb_spec (length candidates) (length (pl_disposition p0))); [|lia].
  apply (pack_loop_spec candidates [] p0 []); [done| |done..].
  split; simpl; [done|by rewrite app_nil_r|done|done].
Qed.
End Loop.

(** ** Properties *)

(** Packing never panics on an inventory that can give every live job what
    it reports free (no slot is overcommitted, or only drained ones are and no
    job requests nothing); it splits
    the candidates at a stopping point, dispatches exactly the live ones before
    it in order and drops the stale ones, leaves every later disposition alone,
    changes the inventory by exactly its decisions and overcommits no slot, and
    stops only at the end, at a spent budget, or at a head job
    that fits on no slot as packed. *)
Theorem pack_correct candidates jobs budget p0 :
  requests_wf jobs → inventory_ok jobs (pl_inventory p0) →
  (length candidates <= length (pl_disposition p0))%nat →
  ∃ p out seen rest new, pack candidates jobs budget p0 = Done (p, out) ∧
    candidates = seen ++ rest ∧
    allocate_all jobs (pl_inventory p0) new = Some (pl_inventory p) ∧
    inventory_ok jobs (pl_inventory p) ∧ slots_kept (pl_inventory p0) (pl_inventory p) ∧
    pl_decisions p = pl_decisions p0 ++ new ∧
    dd_job <$> new = re_job <$> List.filter (live jobs) seen ∧
    pl_disposition p = (walked jobs <$> seen) ++ drop (length seen) (pl_disposition p0) ∧
    pack_stop jobs budget seen rest p new out.
Proof.
  intros Hj Hi Hl. destruct (pack_spec jobs budget p0 candidates Hj Hi Hl)
    as (p & out & seen & rest & new & E & Hc & Hp & Hs).
  exists p, out, seen, rest, new. destruct Hp as [H1 H2 H3 H4]. do 3 (split; [done|]).
  destruct (allocate_all_ok _ _ _ _ Hj Hi H1) as [? ?]. done.
Qed.

(** Two slots; the third job is too big for what is left. *)
Definition demo_pack_job (cpu : Z) : Job :=
  MkJob 1 PriorityClass.Normal 0 (MkResources cpu 0 0) 1000 [] [] JobState.Ready 0.

Definition demo_pack_jobs : Arena Job :=
  MkArena [Slot.Occupied 0 (demo_pack_job 600); Slot.Occupied 0 (demo_pack_job 700);
           Slot.Occupied 0 (demo_pack_job 500); Slot.Occupied 0 (demo_pack_job 300)] None 4.

Definition demo_candidates : list ReadyEntry :=
  [MkReadyEntry PriorityClass.Normal 0 90; MkReadyEntry PriorityClass.Normal 9 85;
   MkReadyEntry PriorityClass.Normal 1 80; MkReadyEntry PriorityClass.Normal 2 70;
   MkReadyEntry PriorityClass.Normal 3 60].

Definition demo_placement : Placement :=
  MkPlacement (from_uniform 2 (MkResources 1000 1000 0)) (replicate 5 Disposition.Pending) [].

Lemma demo_requests_wf : requests_wf demo_pack_jobs.
Proof.
  intros id j [_ Hl]%Arena_get_Some%vec_get_Some. simpl in Hl.
  destruct (Z.to_nat (JobId_index id)) as [|[|[|[|n]]]]; simplify_eq/=; res_crush.
Qed.

Lemma demo_inventory_ok jobs : inventory_ok jobs (pl_inventory demo_placement).
Proof.
  apply within_inventory_ok; [split; [done|]|]; intros i s [_ H]%vec_get_Some; simpl in H;
    destruct (Z.to_nat i) as [|[|n]]; simplify_eq/=; res_crush.
Qed.

Lemma pack_correct_witness :
  (pack demo_candidates demo_pack_jobs PackBudget_default demo_placement ⇓ fun r =>
     pl_decisions r.1 = [MkDecision 0 0; MkDecision 1 1] ∧ head r.2 = Some 3%nat) ∧
  ∃ p out seen rest new,
    pack demo_candidates demo_pack_jobs PackBudget_default demo_placement = Done (p, out) ∧
    demo_candidates = seen ++ rest ∧
    allocate_all demo_pack_jobs (pl_inventory demo_placement) new = Some (pl_inventory p) ∧
    inventory_ok demo_pack_jobs (pl_inventory p) ∧
    slots_kept (pl_inventory demo_placement) (pl_inventory p) ∧
    pl_decisions p = pl_decisions demo_placement ++ new ∧
    dd_job <$> new = re_job <$> List.filter (live demo_pack_jobs) seen ∧
    pl_disposition p =
      (walked demo_pack_jobs <$> seen) ++ drop (length seen) (pl_disposition demo_placement) ∧
    pack_stop demo_pack_jobs PackBudget_default seen rest p new out.
Proof.
  split; [by vm_compute|]. apply pack_correct; [apply demo_requests_wf|apply demo_inventory_ok|].
  by vm_compute.
Defined.
