(* ===== verification/Backfill.v ===== *)
(** * EASY backfill

    [crates/tasker-core/src/policy/backfill.rs]: the head job's reservation and
    the lower-priority jobs run in the gap before it.  The main theorem is the
    promise EASY makes: with the backfilled jobs running, the head can still
    start no later than its reservation.  The reusable scratch buffers hold no
    state between calls and are not modelled. *)

From stdpp Require Import base list numbers option sorting.
From Stdlib Require Import ZArith Lia.
From S2P Require Import Prelude Domain Arena Job Inventory Priority ReadySet Pack.
Open Scope Z_scope.

Record RunningJob : Type := MkRunningJob {
  rj_job : JobId;
  rj_slot : SlotIndex;
  rj_resources : Resources;
  ends_at : VirtualTime;
}.

(** The sort key of the completion list. *)
Definition earlier (a b : VirtualTime * Resources) : Prop := a.1 <= b.1.

#[export] Instance earlier_dec a b : Decision (earlier a b).
Proof. unfold earlier. apply _. Defined.

(** One slot's completions; [sort_unstable_by_key] may order ties freely, and
    the stable merge sort is one such order. *)
Definition completions (running : list RunningJob) (slot : SlotIndex)
  : list (VirtualTime * Resources) :=
  merge_sort earlier
    (map (fun r => (ends_at r, rj_resources r))
         (List.filter (fun r => rj_slot r =? slot) running)).

(** The inner loop: capacity freed until the request fits. *)
Fixpoint replay_completions (request free : Resources) (cs : list (VirtualTime * Resources))
  : option VirtualTime :=
  match cs with
  | [] => None
  | (at_, resources) :: cs' =>
      let free := Resources_saturating_add free resources in
      if fits_within request free then Some at_ else replay_completions request free cs'
  end.

Definition earliest_of (earliest : option VirtualTime) (at_ : VirtualTime) : option VirtualTime :=
  Some (match earliest with Some current => Z.min current at_ | None => at_ end).

(** The loop over the slots, with its early returns. *)
Fixpoint reservation_loop (request : Resources) (inv : SlotInventory) (running : list RunningJob)
    (now : VirtualTime) (slots : list SlotIndex) (earliest : option VirtualTime)
  : option VirtualTime :=
  match slots with
  | [] => earliest
  | i :: slots' =>
      match inventory_slot inv i with
      | None => None
      | Some slot =>
          if negb (fits_within request (capacity slot))
          then reservation_loop request inv running now slots' earliest
          else if fits_within request (WorkerSlot_free slot) then Some now
          else
            let earliest :=
              match replay_completions request (WorkerSlot_free slot) (completions running i) with
              | Some at_ => earliest_of earliest at_
              | None => earliest
              end in
            reservation_loop request inv running now slots' earliest
      end
  end.

Definition reservation_time (request : Resources) (inv : SlotInventory) (running : list RunningJob)
    (now : VirtualTime) : exec (option VirtualTime) :=
  let! len := inventory_len inv in
  Done (reservation_loop request inv running now (Z.of_nat <$> seq 0 (Z.to_nat len)) None).

Record BackfillOutcome : Type := MkBackfillOutcome {
  considered : Z;
  backfilled : Z;
  reservation : option VirtualTime;
}.

Definition BackfillOutcome_default : BackfillOutcome := MkBackfillOutcome 0 0 None.

(** [inventory.release(..).expect(..)]. *)
Definition release_or_panic (inv : SlotInventory) (slot : SlotIndex) (r : Resources)
  : exec SlotInventory :=
  match release inv slot r with
  | (inv', Ok _) => Done inv'
  | (_, Err _) => Panic
  end.

(** Branch 2: allocate, recompute, roll back if the reservation slipped. *)
Definition try_behind (head_request : Resources) (running : list RunningJob) (now res : VirtualTime)
    (inv : SlotInventory) (id : JobId) (slot : SlotIndex) (r : Resources) (ends : VirtualTime)
  : exec (SlotInventory * bool) :=
  let! inv := allocate_or_panic inv slot r in
  let simulated := running ++ [MkRunningJob id slot r ends] in
  let! recomputed := reservation_time head_request inv simulated now in
  let ok := match recomputed with Some at_ => at_ <=? res | None => false end in
  if (ok : bool) then Done (inv, true)
  else let! inv := release_or_panic inv slot r in Done (inv, false).

(** The loop over the candidates after the head. *)
Fixpoint backfill_loop (jobs : Arena Job) (running : list RunningJob) (now : VirtualTime)
    (budget : PackBudget) (head_request : Resources) (res : VirtualTime) (index : nat)
    (rest : list ReadyEntry) (p : Placement) (out : BackfillOutcome)
  : exec (Placement * BackfillOutcome) :=
  match rest with
  | [] => Done (p, out)
  | entry :: rest' =>
      if (max_decisions budget <=? backfilled out) || (max_scanned budget <=? considered out)
      then Done (p, out)
      else
        match Arena_get jobs (re_job entry) with
        | None =>
            let! p := drop_candidate p index in
            backfill_loop jobs running now budget head_request res (S index) rest' p out
        | Some job =>
            let out := MkBackfillOutcome (considered out + 1) (backfilled out) (reservation out) in
            let! fit := first_fit (pl_inventory p) (request job) in
            match fit with
            | None => backfill_loop jobs running now budget head_request res (S index) rest' p out
            | Some slot =>
                let ends := time_saturating_add now (walltime_limit job) in
                let! '(inv, harmless) :=
                  (if ends <=? res then Done (pl_inventory p, true)
                   else try_behind head_request running now res (pl_inventory p)
                                   (re_job entry) slot (request job) ends) in
                if negb harmless then
                  backfill_loop jobs running now budget head_request res (S index) rest'
                    (MkPlacement inv (pl_disposition p) (pl_decisions p)) out
                else
                  let! inv := (if ends <=? res then allocate_or_panic inv slot (request job)
                               else Done inv) in
                  let! p := place p inv index (re_job entry) slot in
                  backfill_loop jobs running now budget head_request res (S index) rest' p
                    (MkBackfillOutcome (considered out) (backfilled out + 1) (reservation out))
            end
        end
  end.

Definition easy_backfill (candidates : list ReadyEntry) (head_index : nat) (jobs : Arena Job)
    (running : list RunningJob) (now : VirtualTime) (budget : PackBudget) (p : Placement)
  : exec (Placement * BackfillOutcome) :=
  if negb (length candidates <=? length (pl_disposition p))%nat then Panic
  else if negb (head_index <? length candidates)%nat then Panic
  else
    let! entry := nth_at candidates head_index in
    match Arena_get jobs (re_job entry) with
    | None => Done (p, BackfillOutcome_default)
    | Some head_job =>
        let head_request := request head_job in
        let! res := reservation_time head_request (pl_inventory p) running now in
        let out := MkBackfillOutcome 0 0 res in
        match res with
        | None => Done (p, out)
        | Some r =>
            backfill_loop jobs running now budget head_request r (S head_index)
              (drop (S head_index) candidates) p out
        end
    end.

(** ** Reservations *)

Definition sum_res (l : list Resources) : Resources := foldr Resources_plus Resources_ZERO l.

Definition res_nonneg (r : Resources) : Prop := Resources_le Resources_ZERO r.

Lemma sum_res_cons x l : sum_res (x :: l) = Resources_plus x (sum_res l).
Proof. done. Qed.

Lemma sum_res_app l l' : sum_res (l ++ l') = Resources_plus (sum_res l) (sum_res l').
Proof.
  induction l as [|x l IH]; simpl; [by destruct (sum_res l')|]. rewrite IH.
  unfold Resources_plus. simpl. f_equal; lia.
Qed.

Lemma sum_res_nonneg l : Forall res_nonneg l → res_nonneg (sum_res l).
Proof.
  induction 1 as [|x l Hx _ IH]; [unfold res_nonneg; done|]. simpl. unfold res_nonneg in *.
  destruct x, (sum_res l). res_crush.
Qed.

#[export] Instance sum_res_Proper : Proper ((≡ₚ) ==> (=)) sum_res.
Proof.
  intros l l' H. induction H as [|x l l' _ IH|x y l|l l' l'' _ IH1 _ IH2]; simpl; [done| | |congruence].
  - by rewrite IH.
  - unfold Resources_plus. simpl. f_equal; lia.
Qed.

(** What completes by [R]. *)
Definition done_by (R : VirtualTime) (cs : list (VirtualTime * Resources)) : list Resources :=
  (List.filter (fun c => c.1 <=? R) cs).*2.

Lemma done_by_cons R c cs :
  done_by R (c :: cs) = if c.1 <=? R then c.2 :: done_by R cs else done_by R cs.
Proof. unfold done_by. simpl. by destruct (c.1 <=? R). Qed.

Lemma done_by_app R cs cs' : done_by R (cs ++ cs') = done_by R cs ++ done_by R cs'.
Proof. unfold done_by. by rewrite List.filter_app, fmap_app. Qed.

Lemma done_by_late R cs : (∀ c, c ∈ cs → R < c.1) → done_by R cs = [].
Proof.
  induction cs as [|c cs IH]; intros H; [done|]. rewrite done_by_cons.
  destruct (Z.leb_spec c.1 R); [|by apply IH; intros; apply H; right].
  specialize (H c ltac:(by left)). lia.
Qed.

#[export] Instance done_by_Proper R : Proper ((≡ₚ) ==> (≡ₚ)) (done_by R).
Proof.
  intros l l' H. induction H as [|x l l' _ IH|x y l|l l' l'' _ IH1 _ IH2].
  - done.
  - rewrite !done_by_cons. destruct (x.1 <=? R); by rewrite IH.
  - rewrite !done_by_cons. destruct (x.1 <=? R), (y.1 <=? R); try done. apply Permutation_swap.
  - by etrans.
Qed.

(** Replaying a sorted completion list finds a time by [R] exactly when the
    request fits what is free plus everything that completes by [R]. *)
Lemma replay_le r free cs R :
  Resources_wf r → Sorted earlier cs → Forall (fun c => res_nonneg c.2) cs →
  ¬ Resources_le r free →
  (∃ t, replay_completions r free cs = Some t ∧ t <= R) ↔
  Resources_le r (Resources_plus free (sum_res (done_by R cs))).
Proof.
  intros Hr Hs. apply Sorted_StronglySorted in Hs; [|intros ???; unfold earlier; lia].
  revert free. induction Hs as [|[t x] cs Hs IH Hall]; intros free Hn Hf; simpl.
  { split; [naive_solver|]. intros H. destruct Hf. destruct free. res_crush. }
  apply Forall_cons in Hn as [Hx Hn]. simpl in Hx. rewrite Forall_forall in Hall.
  pose proof (sum_res_nonneg (done_by R cs)) as Hpos.
  assert (res_nonneg (sum_res (done_by R cs))) as Hp.
  { apply Hpos. unfold done_by. apply Forall_fmap, Forall_forall. intros c Hc.
    rewrite Forall_forall in Hn. apply Hn. apply list_elem_of_In, List.filter_In in Hc as [Hc _].
    by apply list_elem_of_In. }
  clear Hpos. rewrite done_by_cons. simpl.
  destruct (Z.leb_spec t R) as [Ht|Ht].
  - rewrite sum_res_cons. destruct (fits_within _ _) eqn:Ef.
    + apply fits_within_spec in Ef. split; [|naive_solver]. intros _.
      set (q := sum_res _) in *. clearbody q. clear IH Hall Hn. unfold res_nonneg in *.
      destruct r, free, x, q. res_crush.
    + apply fits_within_false in Ef. rewrite IH by done.
      set (q := sum_res _) in *. clearbody q. clear IH Hall Hn Ef Hf. unfold res_nonneg in *.
      destruct r, free, x, q. split; res_crush.
  - assert (done_by R cs = []) as Hnil.
    { apply done_by_late. intros c Hc. specialize (Hall c Hc). unfold earlier in Hall. simpl in Hall. lia. }
    rewrite Hnil. simpl. split.
    + intros (t' & E & Hle). exfalso. destruct (fits_within _ _); [simplify_eq; lia|].
      assert (∃ c, c ∈ cs ∧ c.1 = t') as (c & Hc & <-); [|specialize (Hall c Hc); unfold earlier in *; simpl in *; lia].
      clear -E. revert E. generalize (Resources_saturating_add free x) as f. induction cs as [|[u y] cs IH]; [done|].
      intros f. simpl. destruct (fits_within _ _); [intros [= <-]; exists (u, y); split; [by left|done]|].
      intros (c & ? & ?)%IH. exists c. split; [by right|done].
    + intros H. destruct Hf. destruct free. res_crush.
Qed.

Definition slot_completions (running : list RunningJob) (i : SlotIndex)
  : list (VirtualTime * Resources) :=
  map (fun r => (ends_at r, rj_resources r)) (List.filter (fun r => rj_slot r =? i) running).

(** What slot [i] offers by [R]. *)
Definition avail (s : WorkerSlot) (running : list RunningJob) (i : SlotIndex) (R : VirtualTime)
  : Resources :=
  Resources_plus (WorkerSlot_free s) (sum_res (done_by R (slot_completions running i))).

Definition running_ok (running : list RunningJob) : Prop :=
  Forall (fun r => res_nonneg (rj_resources r)) running.

Definition fits_now (r : Resources) (inv : SlotInventory) : Prop :=
  ∃ i s, vec_get (worker_slots inv) i = Some s ∧ Resources_le r (WorkerSlot_free s).

(** Some slot can hold the request by [R]. *)
Definition fits_by (r : Resources) (inv : SlotInventory) (running : list RunningJob)
    (R : VirtualTime) : Prop :=
  ∃ i s, vec_get (worker_slots inv) i = Some s ∧ Resources_le r (capacity s) ∧
    Resources_le r (avail s running i R).

Lemma slot_completions_nonneg running i :
  running_ok running → Forall (fun c => res_nonneg c.2) (slot_completions running i).
Proof.
  unfold running_ok, slot_completions. rewrite !Forall_forall. intros H c Hc.
  apply list_elem_of_fmap in Hc as (r & -> & Hr). simpl.
  apply list_elem_of_In, List.filter_In in Hr as [Hr _]. apply H. by apply list_elem_of_In.
Qed.

Lemma done_by_nonneg R cs :
  Forall (fun c => res_nonneg c.2) cs → res_nonneg (sum_res (done_by R cs)).
Proof.
  intros H. apply sum_res_nonneg. unfold done_by. apply Forall_fmap, Forall_forall. intros c Hc.
  rewrite Forall_forall in H. apply H. apply list_elem_of_In, List.filter_In in Hc as [Hc _].
  by apply list_elem_of_In.
Qed.

Lemma replay_slot r s running i R :
  Resources_wf r → running_ok running → ¬ Resources_le r (WorkerSlot_free s) →
  (∃ t, replay_completions r (WorkerSlot_free s) (completions running i) = Some t ∧ t <= R) ↔
  Resources_le r (avail s running i R).
Proof.
  intros Hr Hok Hn. unfold avail, completions.
  assert (Total earlier) by (intros ??; unfold earlier; lia).
  fold (slot_completions running i).
  pose proof (merge_sort_Permutation earlier (slot_completions running i)) as Hp.
  rewrite replay_le; [by rewrite Hp|done| | |done].
  - by apply (Sorted_merge_sort earlier).
  - rewrite Hp. by apply slot_completions_nonneg.
Qed.

Lemma earliest_of_le o t R :
  (∃ u, earliest_of o t = Some u ∧ u <= R) ↔ (∃ u, o = Some u ∧ u <= R) ∨ t <= R.
Proof.
  unfold earliest_of. destruct o as [u|]; split.
  - intros (v & [= <-] & ?). destruct (decide (u <= R)); [left; eauto|right; lia].
  - intros [(v & [= ->] & ?)|?]; eexists; (split; [done|]); lia.
  - intros (v & [= <-] & ?). by right.
  - intros [(v & ? & ?)|?]; [done|]. eauto.
Qed.

(** While nothing fits at once, the loop takes the minimum over the slots. *)
Lemma reservation_loop_wait r inv running now idxs earliest R :
  Resources_wf r → running_ok running → ¬ fits_now r inv →
  (∀ i, i ∈ idxs → ∃ s, vec_get (worker_slots inv) i = Some s) →
  (∃ t, reservation_loop r inv running now idxs earliest = Some t ∧ t <= R) ↔
  (∃ t, earliest = Some t ∧ t <= R) ∨
  ∃ i s, i ∈ idxs ∧ vec_get (worker_slots inv) i = Some s ∧ Resources_le r (capacity s) ∧
    Resources_le r (avail s running i R).
Proof.
  intros Hr Hok Hn. revert earliest. induction idxs as [|i idxs IH]; intros earliest His; simpl.
  { split; [by left|]. intros [?|(i & s & ?%elem_of_nil & _)]; done. }
  destruct (His i) as [s Hs]; [by left|]. unfold inventory_slot. rewrite Hs.
  assert (¬ Resources_le r (WorkerSlot_free s)) as Hns by (intros ?; apply Hn; by exists i, s).
  assert (∀ j, j ∈ idxs → ∃ t, vec_get (worker_slots inv) j = Some t) as His' by (intros; apply His; by right).
  pose proof (replay_slot r s running i R Hr Hok Hns) as Hrep.
  destruct (fits_within r (capacity s)) eqn:Ec; simpl.
  - apply fits_within_spec in Ec. destruct (fits_within r (WorkerSlot_free s)) eqn:Ef.
    { by apply fits_within_spec in Ef. }
    rewrite IH by done.
    destruct (replay_completions _ _ _) as [t|]; [rewrite earliest_of_le|]; split.
    + intros [[?|Ht]|(j & s' & ? & ?)]; [by left| |right; exists j, s'; split; [by right|done]].
      right. exists i, s. split; [by left|]. split; [done|]. split; [done|]. apply Hrep. eauto.
    + intros [?|(j & s' & [->|Hj]%elem_of_cons & Hs' & Hcap & Hav)]; [tauto| |right; eauto 10].
      left. right. rewrite Hs in Hs'. injection Hs' as <-. apply Hrep in Hav as (t' & [= <-] & ?). done.
    + intros [?|(j & s' & ? & ?)]; [by left|right; exists j, s'; split; [by right|done]].
    + intros [?|(j & s' & [->|Hj]%elem_of_cons & Hs' & Hcap & Hav)]; [by left| |right; eauto 10].
      rewrite Hs in Hs'. injection Hs' as <-. apply Hrep in Hav as (t' & ? & ?). done.
  - apply fits_within_false in Ec. rewrite IH by done. split.
    + intros [?|(j & s' & ? & ?)]; [by left|right; exists j, s'; split; [by right|done]].
    + intros [?|(j & s' & [->|Hj]%elem_of_cons & Hs' & Hcap & Hav)]; [by left| |right; eauto 10].
      rewrite Hs in Hs'. by injection Hs' as <-.
Qed.

Lemma reservation_loop_now r inv running now idxs earliest i s :
  Inventory_wf inv → Resources_wf r →
  (∀ j, j ∈ idxs → ∃ t, vec_get (worker_slots inv) j = Some t) →
  i ∈ idxs → vec_get (worker_slots inv) i = Some s → Resources_le r (WorkerSlot_free s) →
  reservation_loop r inv running now idxs earliest = Some now.
Proof.
  intros Hwf Hr. revert earliest. induction idxs as [|j idxs IH]; intros earliest His Hi Hs Hf;
    [by apply elem_of_nil in Hi|]. simpl. destruct (His j) as [t Ht]; [by left|].
  unfold inventory_slot. rewrite Ht.
  assert (∀ k, k ∈ idxs → ∃ t, vec_get (worker_slots inv) k = Some t) as His' by (intros; apply His; by right).
  destruct (fits_within r (capacity t)) eqn:Ec; simpl.
  - destruct (fits_within r (WorkerSlot_free t)) eqn:Ef; [done|].
    apply elem_of_cons in Hi as [->|Hi]; [|by apply IH].
    apply fits_within_false in Ef. rewrite Hs in Ht. by injection Ht as ->.
  - apply elem_of_cons in Hi as [->|Hi]; [|by apply IH].
    rewrite Hs in Ht. injection Ht as ->. apply fits_within_false in Ec. destruct Ec.
    destruct (inv_widths _ Hwf _ _ Hs) as [? ?]. unfold WorkerSlot_free in *. clear Hs.
    destruct t as [[] []], r. res_crush.
Qed.

Lemma free_le_capacity inv i s :
  Inventory_wf inv → vec_get (worker_slots inv) i = Some s →
  Resources_le (WorkerSlot_free s) (capacity s) ∧ res_nonneg (WorkerSlot_free s).
Proof.
  intros Hwf Hs. destruct (inv_widths _ Hwf _ _ Hs) as [? ?]. clear Hs.
  unfold WorkerSlot_free, res_nonneg. destruct s as [[] []]. split; res_crush.
Qed.

#[export] Instance fits_now_dec r inv : Decision (fits_now r inv).
Proof.
  destruct (decide (Exists (fun s => Resources_le r (WorkerSlot_free s)) (worker_slots inv))) as [H|H].
  - left. apply Exists_exists in H as (s & (k & Hk)%list_elem_of_lookup & Hf).
    exists (Z.of_nat k), s. split; [|done]. by rewrite vec_get_lookup, Nat2Z.id by lia.
  - right. intros (i & s & [_ Hs]%vec_get_Some & ?). apply H, Exists_exists. exists s.
    split; [|done]. by eapply list_elem_of_lookup_2.
Defined.

(** The slots the loop visits are those of the inventory. *)
Lemma slot_indices (inv : SlotInventory) i :
  i ∈ Z.of_nat <$> seq 0 (length (worker_slots inv)) ↔ ∃ s, vec_get (worker_slots inv) i = Some s.
Proof.
  rewrite list_elem_of_fmap. setoid_rewrite elem_of_seq. split.
  - intros (k & -> & ?). rewrite vec_get_lookup, Nat2Z.id by lia. apply lookup_lt_is_Some. lia.
  - intros (s & Hs%vec_get_range). exists (Z.to_nat i). lia.
Qed.

Lemma reservation_time_loop r inv running now :
  Inventory_wf inv →
  reservation_time r inv running now =
  Done (reservation_loop r inv running now (Z.of_nat <$> seq 0 (length (worker_slots inv))) None).
Proof.
  intros Hwf. pose proof (inv_len _ Hwf). unfold reservation_time, inventory_len.
  rewrite u32_from_usize_Done by done. cbn [exec_bind]. by rewrite Nat2Z.id.
Qed.

Lemma reservation_time_now r inv running now :
  Resources_wf r → Inventory_wf inv → fits_now r inv →
  reservation_time r inv running now = Done (Some now).
Proof.
  intros Hr Hwf (i & s & Hs & Hf). rewrite reservation_time_loop by done. f_equal.
  eapply (reservation_loop_now _ _ _ _ _ _ i s); try done.
  - intros j. apply slot_indices.
  - apply slot_indices. eauto.
Qed.

(** The reservation is at most [R] exactly when some slot can hold the request
    by [R]. *)
Lemma reservation_time_le r inv running now R :
  Resources_wf r → running_ok running → Inventory_wf inv → now <= R ∨ ¬ fits_now r inv →
  ∃ o, reservation_time r inv running now = Done o ∧
    ((∃ t, o = Some t ∧ t <= R) ↔ fits_by r inv running R).
Proof.
  intros Hr Hok Hinv HR. destruct (decide (fits_now r inv)) as [Hnow|Hnow].
  - exists (Some now). split; [by apply reservation_time_now|].
    assert (now <= R) by (by destruct HR). split; [|eauto]. intros _. destruct Hnow as (i & s & Hs & Hf).
    destruct (free_le_capacity inv _ s Hinv Hs) as [H1 H2].
    exists i, s. split; [done|]. split; [by etrans|]. unfold avail.
    pose proof (done_by_nonneg R _ (slot_completions_nonneg running i Hok)) as Hp.
    set (q := sum_res _) in *. clearbody q. unfold res_nonneg in *. clear Hs.
    destruct (WorkerSlot_free s), q, r. res_crush.
  - rewrite reservation_time_loop by done. eexists. split; [done|].
    rewrite reservation_loop_wait by (done || intros i; apply slot_indices). split.
    + intros [(t & ? & ?)|(i & s & ? & ?)]; [done|]. by exists i, s.
    + intros (i & s & Hs & ?). right. exists i, s. split; [apply slot_indices; eauto|done].
Qed.

(** The computed reservation is one the slots can honour. *)
Lemma reservation_time_sound r inv running now :
  Resources_wf r → running_ok running → Inventory_wf inv →
  ∃ o, reservation_time r inv running now = Done o ∧
    ∀ R, o = Some R → (now <= R ∨ ¬ fits_now r inv) ∧ fits_by r inv running R.
Proof.
  intros Hr Hok Hinv.
  destruct (decide (fits_now r inv)) as [Hnow|Hnow].
  - exists (Some now). split; [by apply reservation_time_now|]. intros R [= <-]. split; [by left|].
    destruct (reservation_time_le r inv running now now) as (o & E & Ho); [done..|by left|].
    rewrite reservation_time_now in E by done. injection E as <-. apply Ho. exists now. split; [done|lia].
  - destruct (reservation_time_le r inv running now now) as (o & E & _); [done..|by right|].
    exists o. split; [done|]. intros R ->. split; [by right|].
    destruct (reservation_time_le r inv running now R) as (o' & E' & Ho); [done..|by right|].
    rewrite E in E'. injection E' as <-. apply Ho. exists R. split; [done|lia].
Qed.

(** ** The effect of one more running job *)

Lemma slot_completions_app l l' i :
  slot_completions (l ++ l') i = slot_completions l i ++ slot_completions l' i.
Proof. unfold slot_completions. by rewrite List.filter_app, map_app. Qed.

Lemma slot_completions_one b i :
  slot_completions [b] i = if rj_slot b =? i then [(ends_at b, rj_resources b)] else [].
Proof. unfold slot_completions. simpl. by destruct (rj_slot b =? i). Qed.

(** More running jobs only free more. *)
Lemma fits_by_more r inv l1 l2 extra R :
  running_ok extra → fits_by r inv (l1 ++ l2) R → fits_by r inv ((l1 ++ extra) ++ l2) R.
Proof.
  intros Hx (i & s & Hs & Hc & Ha). exists i, s. split; [done|]. split; [done|]. etrans; [exact Ha|].
  unfold avail. rewrite !slot_completions_app, !done_by_app, !sum_res_app.
  pose proof (done_by_nonneg R _ (slot_completions_nonneg extra i Hx)) as Hp.
  set (q := sum_res (done_by R (slot_completions extra i))) in *.
  set (a := sum_res (done_by R (slot_completions l1 i))).
  set (b := sum_res (done_by R (slot_completions l2 i))). clearbody q a b.
  unfold res_nonneg in Hp. clear Hs Hc Ha. destruct (WorkerSlot_free s), a, b, q. res_crush.
Qed.

Lemma free_split cap al r :
  Resources_le al cap → Resources_wf r → Resources_le r (Resources_saturating_sub cap al) →
  Resources_saturating_sub cap al =
  Resources_plus (Resources_saturating_sub cap (Resources_plus al r)) r.
Proof.
  destruct cap, al, r. unfold Resources_le, Resources_wf, Resources_plus, Resources_saturating_sub,
    sat_sub, is_u32, is_u64, is_u8. simpl. intros (?&?&?) (?&?&?) (?&?&?). f_equal; lia.
Qed.

Lemma Resources_le_plus a b : res_nonneg b → Resources_le a (Resources_plus a b).
Proof. unfold res_nonneg. destruct a, b. intros. res_crush. Qed.

Lemma Resources_plus_shuffle a b c :
  Resources_plus (Resources_plus a b) c = Resources_plus a (Resources_plus c (Resources_plus b Resources_ZERO)).
Proof. destruct a, b, c. unfold Resources_plus. simpl. f_equal; lia. Qed.

Lemma Resources_wf_nonneg r : Resources_wf r → res_nonneg r.
Proof. unfold res_nonneg. destruct r. intros. res_crush. Qed.

Section Allocation.
Context (inv : SlotInventory) (slot : SlotIndex) (s : WorkerSlot) (r : Resources).
Hypothesis Hw : Resources_le (allocated s) (capacity s).
Hypothesis Hs : vec_get (worker_slots inv) slot = Some s.
Hypothesis Hr : Resources_wf r.
Hypothesis Hfit : Resources_le r (WorkerSlot_free s).

Let inv' := set_slot inv slot (MkWorkerSlot (capacity s) (Resources_plus (allocated s) r)).

Lemma allocated_free :
  WorkerSlot_free s =
  Resources_plus (WorkerSlot_free (MkWorkerSlot (capacity s) (Resources_plus (allocated s) r))) r.
Proof. by apply free_split. Qed.

Lemma allocated_fits_now q : fits_now q inv' → fits_now q inv.
Proof.
  intros (i & t & Ht & Hq). unfold inv' in Ht. rewrite (set_slot_get _ _ _ _ _ Hs) in Ht.
  case_decide; [|by exists i, t]. injection Ht as <-. exists slot, s. split; [done|]. etrans; [exact Hq|].
  rewrite allocated_free. by apply Resources_le_plus, Resources_wf_nonneg.
Qed.

(** A job that ends by [R] gives back by [R] what it takes now. *)
Lemma allocated_fits_by q running id ends R :
  ends <= R → fits_by q inv running R →
  fits_by q inv' (running ++ [MkRunningJob id slot r ends]) R.
Proof.
  intros Hends (i & t & Ht & Hc & Ha). destruct (decide (slot = i)) as [<-|Hne].
  - exists slot. eexists. unfold inv'. rewrite (set_slot_get _ _ _ _ _ Hs), decide_True by done.
    split; [done|]. rewrite Hs in Ht. injection Ht as <-. split; [done|]. etrans; [exact Ha|].
    unfold avail. rewrite allocated_free at 1.
    rewrite slot_completions_app, slot_completions_one, done_by_app. simpl.
    rewrite Z.eqb_refl, done_by_cons. simpl. destruct (Z.leb_spec ends R); [|lia].
    rewrite sum_res_app. simpl. by rewrite Resources_plus_shuffle.
  - exists i, t. unfold inv'. rewrite (set_slot_get _ _ _ _ _ Hs), decide_False by done.
    split; [done|]. split; [done|]. unfold avail.
    rewrite slot_completions_app, slot_completions_one. simpl.
    destruct (Z.eqb_spec slot i); [done|]. by rewrite app_nil_r.
Qed.
End Allocation.

(** ** The pass *)

(** The dispositions either pass may give a candidate, and the jobs it chose. *)
Definition disposed (jobs : Arena Job) (e : ReadyEntry) (d : Disposition) : Prop :=
  match d with
  | Disposition.Dispatched => live jobs e = true
  | Disposition.Dropped => live jobs e = false
  | Disposition.Pending => True
  end.

Fixpoint chosen (es : list ReadyEntry) (ds : list Disposition) : list JobId :=
  match es, ds with
  | e :: es', Disposition.Dispatched :: ds' => re_job e :: chosen es' ds'
  | _ :: es', _ :: ds' => chosen es' ds'
  | _, _ => []
  end.

Lemma chosen_app es es' ds ds' :
  length es = length ds → chosen (es ++ es') (ds ++ ds') = chosen es ds ++ chosen es' ds'.
Proof.
  revert ds. induction es as [|e es IH]; intros [|d ds] Hl; simplify_eq/=; [done|].
  by destruct d; simpl; rewrite IH by lia.
Qed.

Section Pass.
Context (jobs : Arena Job) (running : list RunningJob) (now : VirtualTime) (budget : PackBudget).
Context (hr : Resources) (R : VirtualTime) (p0 : Placement) (base : nat).
Hypothesis Hjobs : requests_wf jobs.
Hypothesis Hinv : inventory_ok jobs (pl_inventory p0).
Hypothesis Hrun : running_ok running.
Hypothesis Hhr : Resources_wf hr.

(** The job a decision starts. *)
Definition started (d : DispatchDecision) (b : RunningJob) : Prop :=
  ∃ j, Arena_get jobs (dd_job d) = Some j ∧
    b = MkRunningJob (dd_job d) (dd_slot d) (request j)
          (time_saturating_add now (walltime_limit j)).

Record easy_inv (seen : list ReadyEntry) (p : Placement) (new : list DispatchDecision)
    (B : list RunningJob) (ds : list Disposition) : Prop := {
  ei_alloc : allocate_all jobs (pl_inventory p0) new = Some (pl_inventory p);
  ei_decs : pl_decisions p = pl_decisions p0 ++ new;
  ei_started : Forall2 started new B;
  ei_ds : Forall2 (disposed jobs) seen ds;
  ei_chosen : dd_job <$> new = chosen seen ds;
  ei_disp : pl_disposition p =
    (take base (pl_disposition p0) ++ ds) ++ drop (base + length seen) (pl_disposition p0);
  ei_wait : now <= R ∨ ¬ fits_now hr (pl_inventory p);
  ei_fits : fits_by hr (pl_inventory p) (running ++ B) R;
}.

Lemma started_nonneg new B : Forall2 started new B → running_ok B.
Proof.
  induction 1 as [|d b new B (j & Hj & ->) _ IH]; [constructor|]. constructor; [|done]. simpl.
  eauto using Resources_wf_nonneg.
Qed.

Lemma easy_inv_ok seen p new B ds : easy_inv seen p new B ds → inventory_ok jobs (pl_inventory p).
Proof. intros H. eapply allocate_all_ok; [done|exact Hinv|apply H]. Qed.

Hypothesis Hbase : (base <= length (pl_disposition p0))%nat.
Hypothesis Hpending : ∀ i d, (base <= i)%nat → pl_disposition p0 !! i = Some d → d = Disposition.Pending.

Lemma easy_put (seen : list ReadyEntry) ds d :
  length ds = length seen → (base + length seen < length (pl_disposition p0))%nat →
  nth_put ((take base (pl_disposition p0) ++ ds) ++ drop (base + length seen) (pl_disposition p0))
          (base + length seen) d =
  Done ((take base (pl_disposition p0) ++ (ds ++ [d])) ++
        drop (base + S (length seen)) (pl_disposition p0)).
Proof.
  intros Hds Hl. pose proof (disposition_put (pl_disposition p0) (take base (pl_disposition p0) ++ ds) d) as H.
  rewrite length_app, length_take, Nat.min_l, Hds in H by lia. rewrite H by done.
  by rewrite (app_assoc _ ds [d]), Nat.add_succ_r.
Qed.

Lemma easy_inv_skip seen p new B ds e :
  easy_inv seen p new B ds → (base + length seen < length (pl_disposition p0))%nat →
  easy_inv (seen ++ [e]) p new B (ds ++ [Disposition.Pending]).
Proof.
  intros [H1 H2 H3 H4 H5 H6 H7 H8] Hl. split; try done.
  - apply Forall2_app; [done|]. by constructor.
  - rewrite chosen_app by (by eapply Forall2_length). simpl. by rewrite app_nil_r.
  - rewrite H6. destruct (lookup_lt_is_Some_2 (pl_disposition p0) (base + length seen) Hl) as [d Hd].
    rewrite (drop_S _ _ _ Hd). rewrite (Hpending (base + length seen) d ltac:(lia) Hd).
    rewrite length_app, Nat.add_1_r, <-plus_n_Sm, <-!app_assoc. done.
Qed.

Lemma easy_inv_drop seen p new B ds e :
  easy_inv seen p new B ds → (base + length seen < length (pl_disposition p0))%nat →
  Arena_get jobs (re_job e) = None →
  ∃ p', drop_candidate p (base + length seen) = Done p' ∧
    easy_inv (seen ++ [e]) p' new B (ds ++ [Disposition.Dropped]).
Proof.
  intros [H1 H2 H3 H4 H5 H6 H7 H8] Hl He. unfold drop_candidate.
  rewrite H6, easy_put by (done || symmetry; by eapply Forall2_length). cbn [exec_bind].
  eexists. split; [done|]. split; simpl; try done.
  - apply Forall2_app; [done|]. constructor; [|done]. simpl. unfold live, Arena_contains. by rewrite He.
  - rewrite chosen_app by (by eapply Forall2_length). simpl. by rewrite app_nil_r.
  - by rewrite length_app, Nat.add_1_r.
Qed.

Lemma easy_inv_place seen p new B ds e j slot inv' :
  easy_inv seen p new B ds → (base + length seen < length (pl_disposition p0))%nat →
  Arena_get jobs (re_job e) = Some j →
  try_allocate (pl_inventory p) slot (request j) = (inv', Ok tt) →
  (now <= R ∨ ¬ fits_now hr inv') →
  fits_by hr inv' ((running ++ B) ++
    [MkRunningJob (re_job e) slot (request j) (time_saturating_add now (walltime_limit j))]) R →
  ∃ p' B', place p inv' (base + length seen) (re_job e) slot = Done p' ∧
    easy_inv (seen ++ [e]) p' (new ++ [MkDecision (re_job e) slot]) B' (ds ++ [Disposition.Dispatched]).
Proof.
  intros [H1 H2 H3 H4 H5 H6 H7 H8] Hl He Ha Hw Hf. unfold place.
  rewrite H6, easy_put by (done || symmetry; by eapply Forall2_length). cbn [exec_bind].
  eexists _, (B ++ [_]). split; [done|]. split; simpl.
  - rewrite allocate_all_app, H1. simpl. by rewrite He, Ha.
  - by rewrite H2, app_assoc.
  - apply Forall2_app; [done|]. constructor; [|constructor]. exists j. split; [done|]. reflexivity.
  - apply Forall2_app; [done|]. constructor; [|done]. simpl. unfold live, Arena_contains. by rewrite He.
  - rewrite chosen_app by (by eapply Forall2_length). by rewrite fmap_app, H5.
  - by rewrite length_app, Nat.add_1_r.
  - done.
  - by rewrite app_assoc.
Qed.

(** One candidate that fits now: admitted with the promise kept, or rolled back. *)
Lemma easy_decide seen p new B ds e j slot s :
  easy_inv seen p new B ds → Arena_get jobs (re_job e) = Some j →
  vec_get (worker_slots (pl_inventory p)) slot = Some s →
  Resources_le (request j) (WorkerSlot_free s) → Resources_le (allocated s) (capacity s) →
  let inv' := set_slot (pl_inventory p) slot
                (MkWorkerSlot (capacity s) (Resources_plus (allocated s) (request j))) in
  let ends := time_saturating_add now (walltime_limit j) in
  try_allocate (pl_inventory p) slot (request j) = (inv', Ok tt) →
  Inventory_wf inv' →
  ∃ inv1 harmless,
    (if ends <=? R then Done (pl_inventory p, true)
     else try_behind hr running now R (pl_inventory p) (re_job e) slot (request j) ends)
    = Done (inv1, harmless) ∧
    if (harmless : bool)
    then (if ends <=? R then allocate_or_panic inv1 slot (request j) else Done inv1) = Done inv' ∧
         (now <= R ∨ ¬ fits_now hr inv') ∧
         fits_by hr inv' ((running ++ B) ++ [MkRunningJob (re_job e) slot (request j) ends]) R
    else inv1 = pl_inventory p.
Proof.
  intros Hi Ej Hs Hle Hcap inv' ends Ea Hok'. pose proof (easy_inv_ok _ _ _ _ _ Hi) as Hok.
  pose proof (Hjobs _ _ Ej) as Hr.
  assert (now <= R ∨ ¬ fits_now hr inv') as Hw.
  { destruct (ei_wait _ _ _ _ _ Hi) as [?|Hn]; [by left|right]. intros Hf. apply Hn.
    by apply (allocated_fits_now _ slot s (request j) Hcap Hs Hr Hle). }
  destruct (Z.leb_spec ends R) as [He|He].
  - exists (pl_inventory p), true. split; [done|]. unfold allocate_or_panic. rewrite Ea.
    split; [done|]. split; [done|]. by apply allocated_fits_by, Hi.
  - unfold try_behind, allocate_or_panic. rewrite Ea. cbn [exec_bind].
    assert (running_ok (running ++ [MkRunningJob (re_job e) slot (request j) ends])) as Hrun'.
    { apply Forall_app. split; [done|]. constructor; [|done]. by apply Resources_wf_nonneg. }
    destruct (reservation_time_le hr inv' (running ++ [MkRunningJob (re_job e) slot (request j) ends])
      now R Hhr Hrun' Hok' Hw) as (o & -> & Ho). cbn [exec_bind].
    destruct (match o with Some at_ => at_ <=? R | None => false end) eqn:Eo.
    + exists inv', true. split; [done|]. split; [done|]. split; [done|].
      apply fits_by_more; [by eapply started_nonneg, Hi|]. apply Ho. destruct o as [t|]; [|done].
      apply Z.leb_le in Eo. eauto.
    + unfold release_or_panic. rewrite (release_of_allocate _ _ _ _ (proj1 Hok) Hr Ea). cbn [exec_bind].
      by eexists _, _.
Qed.

Lemma backfill_loop_spec rest seen p new B ds out :
  easy_inv seen p new B ds →
  (base + length (seen ++ rest) <= length (pl_disposition p0))%nat →
  backfilled out = Z.of_nat (length new) → reservation out = Some R →
  ∃ p' out' seen' rest' new' B' ds',
    backfill_loop jobs running now budget hr R (base + length seen) rest p out = Done (p', out') ∧
    seen ++ rest = seen' ++ rest' ∧ easy_inv seen' p' new' B' ds' ∧
    backfilled out' = Z.of_nat (length new') ∧ reservation out' = Some R.
Proof.
  revert seen p new B ds out. induction rest as [|e rest IH]; intros seen p new B ds out Hi Hl Hb Hres.
  { by exists p, out, seen, [], new, B, ds. }
  assert (base + length seen < length (pl_disposition p0))%nat as Hlt.
  { rewrite length_app in Hl. simpl in Hl. lia. }
  assert (seen ++ e :: rest = (seen ++ [e]) ++ rest) as Eapp by by rewrite <-app_assoc.
  assert (S (base + length seen) = base + length (seen ++ [e]))%nat as Eidx
    by (rewrite length_app; simpl; lia).
  cbn [backfill_loop]. destruct (_ || _); [by exists p, out, seen, (e :: rest), new, B, ds|].
  rewrite Eidx, Eapp. rewrite Eapp in Hl.
  destruct (Arena_get jobs (re_job e)) as [j|] eqn:Ej.
  - destruct (first_fit_allocates _ _ _ _ (easy_inv_ok _ _ _ _ _ Hi) Ej (Hjobs _ _ Ej)) as (o & -> & Ho).
    cbn [exec_bind]. destruct o as [slot|].
    2:{ eapply IH; [by apply easy_inv_skip|done..]. }
    destruct Ho as (s & inv' & Hs & Hle & Hcap & Ea & Einv & [Hok' _]). rewrite Einv in Ea, Hok'.
    destruct (easy_decide _ _ _ _ _ _ _ _ _ Hi Ej Hs Hle Hcap Ea Hok') as (inv1 & h & -> & Hh).
    cbn [exec_bind]. destruct h; cbn [negb].
    + destruct Hh as (-> & Hw & Hf). cbn [exec_bind].
      destruct (easy_inv_place _ _ _ _ _ _ _ _ _ Hi Hlt Ej Ea Hw Hf) as (p' & B' & -> & Hi').
      cbn [exec_bind]. eapply IH; [exact Hi'|done| |done]. simpl. rewrite length_app. simpl. lia.
    + subst inv1. eapply IH; [|done..]. apply (easy_inv_skip _ _ _ _ _ e) in Hi; [|done].
      by destruct p.
  - destruct (easy_inv_drop _ _ _ _ _ _ Hi Hlt Ej) as (p' & -> & Hi'). cbn [exec_bind].
    eapply IH; [exact Hi'|done..].
Qed.
End Pass.

(** What a backfill pass over the candidates after the head leaves. *)
Record backfill_post (jobs : Arena Job) (running : list RunningJob) (now : VirtualTime)
    (after : list ReadyEntry) (base : nat) (p0 p : Placement) (new : list DispatchDecision)
    (B : list RunningJob) : Prop := {
  bp_alloc : allocate_all jobs (pl_inventory p0) new = Some (pl_inventory p);
  bp_ok : inventory_ok jobs (pl_inventory p);
  bp_slots : slots_kept (pl_inventory p0) (pl_inventory p);
  bp_decs : pl_decisions p = pl_decisions p0 ++ new;
  bp_started : Forall2 (started jobs now) new B;
  bp_disp : ∃ ds, pl_disposition p = take base (pl_disposition p0) ++ ds ++
                                     drop (base + length after) (pl_disposition p0) ∧
    Forall2 (disposed jobs) after ds ∧ dd_job <$> new = chosen after ds;
}.

Lemma chosen_pending es n : chosen es (replicate n Disposition.Pending) = [].
Proof. revert n. induction es as [|e es IH]; intros [|n]; simpl; auto. Qed.

Lemma disposed_pending jobs es :
  Forall2 (disposed jobs) es (replicate (length es) Disposition.Pending).
Proof. induction es as [|e es IH]; simpl; by constructor. Qed.

(** The dispositions of the candidates not yet reached are still [Pending]. *)
Lemma pending_tail (D : list Disposition) base n :
  (∀ i d, (base <= i)%nat → D !! i = Some d → d = Disposition.Pending) →
  (base + n <= length D)%nat →
  drop base D = replicate n Disposition.Pending ++ drop (base + n) D.
Proof.
  intros Hp. revert base Hp. induction n as [|n IH]; intros base Hp Hl; simpl.
  { by rewrite Nat.add_0_r. }
  destruct (lookup_lt_is_Some_2 D base) as [d Hd]; [lia|].
  rewrite (drop_S _ _ _ Hd), (Hp base d ltac:(lia) Hd). f_equal.
  rewrite (IH (S base)) by (first [lia|intros i d' ?; apply Hp; lia]). by rewrite Nat.add_succ_r.
Qed.

Lemma easy_inv_post jobs running now hr R p0 base seen rest p new B ds :
  requests_wf jobs → inventory_ok jobs (pl_inventory p0) →
  (base + length (seen ++ rest) <= length (pl_disposition p0))%nat →
  (∀ i d, (base <= i)%nat → pl_disposition p0 !! i = Some d → d = Disposition.Pending) →
  easy_inv jobs running now hr R p0 base seen p new B ds →
  backfill_post jobs running now (seen ++ rest) base p0 p new B.
Proof.
  intros Hj Hinv Hl Hp [H1 H2 H3 H4 H5 H6 _ _]. destruct (allocate_all_ok _ _ _ _ Hj Hinv H1). split; try done.
  exists (ds ++ replicate (length rest) Disposition.Pending). rewrite length_app in *. split_and!.
  - rewrite H6, (pending_tail _ (base + length seen) (length rest)).
    + rewrite <-!app_assoc. by rewrite Nat.add_assoc.
    + intros i d ?. apply Hp. lia.
    + lia.
  - apply Forall2_app; [done|apply disposed_pending].
  - rewrite chosen_app, chosen_pending, app_nil_r by (by eapply Forall2_length). done.
Qed.

Lemma backfill_post_refl jobs running now after base p0 :
  inventory_ok jobs (pl_inventory p0) → (base + length after <= length (pl_disposition p0))%nat →
  (∀ i d, (base <= i)%nat → pl_disposition p0 !! i = Some d → d = Disposition.Pending) →
  backfill_post jobs running now after base p0 p0 [] [].
Proof.
  intros Hinv Hl Hp. split; [done|done|done|by rewrite app_nil_r|constructor|].
  exists (replicate (length after) Disposition.Pending). split_and!.
  - rewrite <-(pending_tail _ base (length after)) by done. by rewrite take_drop.
  - apply disposed_pending.
  - by rewrite chosen_pending.
Qed.

(** The head can still start by its reservation with [B] running as well. *)
Definition reservation_kept (jobs : Arena Job) (head : ReadyEntry) (running B : list RunningJob)
    (now : VirtualTime) (inv : SlotInventory) (out : BackfillOutcome) : Prop :=
  match reservation out, Arena_get jobs (re_job head) with
  | Some R, Some j => ∃ t, reservation_time (request j) inv (running ++ B) now = Done (Some t) ∧ t <= R
  | _, _ => B = []
  end.

Lemma easy_backfill_spec candidates head_index head jobs running now budget p0 :
  requests_wf jobs → inventory_ok jobs (pl_inventory p0) → running_ok running →
  candidates !! head_index = Some head →
  (length candidates <= length (pl_disposition p0))%nat →
  (∀ i d, (S head_index <= i)%nat → pl_disposition p0 !! i = Some d → d = Disposition.Pending) →
  ∃ p out new B, easy_backfill candidates head_index jobs running now budget p0 = Done (p, out) ∧
    backfill_post jobs running now (drop (S head_index) candidates) (S head_index) p0 p new B ∧
    backfilled out = Z.of_nat (length new) ∧
    reservation_kept jobs head running B now (pl_inventory p) out.
Proof.
  intros Hj Hinv Hrun Hhead Hlen Hp. pose proof (lookup_lt_Some _ _ _ Hhead) as Hlt.
  unfold easy_backfill. destruct (Nat.leb_spec (length candidates) (length (pl_disposition p0))); [|lia].
  destruct (Nat.ltb_spec head_index (length candidates)); [|lia]. cbn [negb].
  rewrite (nth_at_Done _ _ _ Hhead). cbn [exec_bind].
  assert (S head_index + length (drop (S head_index) candidates) <= length (pl_disposition p0))%nat as Hl
    by (rewrite length_drop; lia).
  pose proof (backfill_post_refl jobs running now _ _ _ Hinv Hl Hp) as Hrefl.
  destruct (Arena_get jobs (re_job head)) as [j|] eqn:Ej.
  2:{ exists p0, BackfillOutcome_default, [], []. split; [done|]. split; [done|]. split; [done|]. done. }
  pose proof (Hj _ _ Ej) as Hr.
  destruct (reservation_time_sound (request j) (pl_inventory p0) running now Hr Hrun (proj1 Hinv)) as (o & -> & Ho).
  cbn [exec_bind]. destruct o as [R|].
  2:{ exists p0, (MkBackfillOutcome 0 0 None), [], []. done. }
  destruct (Ho R eq_refl) as [Hw Hf].
  destruct (backfill_loop_spec jobs running now budget (request j) R p0 (S head_index) Hj Hinv Hrun Hr
    ltac:(lia) Hp (drop (S head_index) candidates) [] p0 [] [] [] (MkBackfillOutcome 0 0 (Some R)))
    as (p & out & seen & rest & new & B & ds & E & Hs & Hi & Hb & Hres); [|done..|].
  { split; simpl; try done; try constructor; [by rewrite app_nil_r| |by rewrite app_nil_r].
    rewrite app_nil_r, Nat.add_0_r. symmetry. apply take_drop. }
  simpl in E. rewrite Nat.add_0_r in E. exists p, out, new, B. split; [done|]. simpl in Hs. rewrite Hs.
  split; [eapply easy_inv_post; [done|done|by rewrite <-Hs|done|exact Hi]|]. split; [done|].
  unfold reservation_kept. rewrite Hres, Ej.
  destruct (reservation_time_le (request j) (pl_inventory p) (running ++ B) now R) as (o & Eo & Ho');
    [done| |by eapply easy_inv_ok, Hi|apply Hi|].
  { apply Forall_app. split; [done|]. eapply started_nonneg; [done|apply Hi]. }
  destruct (proj2 Ho' (ei_fits _ _ _ _ _ _ _ _ _ _ _ _ Hi)) as (t & -> & ?). eauto.
Qed.

(** ** Properties *)

(** C25: The EASY promise.  Backfilling never panics on an inventory that can
    give every live job what it reports free; it changes the inventory by
    exactly its decisions and overcommits no slot, touches only the candidates after the head, marks
    exactly the ones it started or found stale, and with every backfilled job
    running until its deadline the head's recomputed reservation is no later
    than the one it was promised (nothing is backfilled when the head has no
    reservation). *)
Theorem easy_backfill_keeps_reservation candidates head_index head jobs running now budget p0 :
  requests_wf jobs → inventory_ok jobs (pl_inventory p0) → running_ok running →
  candidates !! head_index = Some head →
  (length candidates <= length (pl_disposition p0))%nat →
  (∀ i d, (S head_index <= i)%nat → pl_disposition p0 !! i = Some d → d = Disposition.Pending) →
  ∃ p out new B, easy_backfill candidates head_index jobs running now budget p0 = Done (p, out) ∧
    backfill_post jobs running now (drop (S head_index) candidates) (S head_index) p0 p new B ∧
    backfilled out = Z.of_nat (length new) ∧
    reservation_kept jobs head running B now (pl_inventory p) out.
Proof. apply easy_backfill_spec. Qed.

(** The head is job 2, which needs 500 of the 400 and 300 left. *)
Definition demo_packed : Placement :=
  match pack demo_candidates demo_pack_jobs PackBudget_default demo_placement with
  | Done (p, _) => p
  | _ => demo_placement
  end.

Definition demo_running : list RunningJob :=
  [MkRunningJob 0 0 (MkResources 600 0 0) 5000; MkRunningJob 1 1 (MkResources 700 0 0) 400].

Lemma demo_packed_ok jobs : inventory_ok jobs (pl_inventory demo_packed).
Proof.
  apply within_inventory_ok; [split; [by vm_compute|]|]; intros i s [_ H]%vec_get_Some;
    destruct (Z.to_nat i) as [|[|n]]; vm_compute in H; simplify_eq; res_crush.
Qed.

Lemma demo_running_ok : running_ok demo_running.
Proof. repeat constructor; simpl; lia. Qed.

Lemma easy_backfill_keeps_reservation_witness :
  (easy_backfill demo_candidates 3 demo_pack_jobs demo_running 0 PackBudget_default demo_packed ⇓
     fun r => reservation r.2 = Some 400 ∧
              pl_decisions r.1 = [MkDecision 0 0; MkDecision 1 1; MkDecision 3 0]) ∧
  ∃ p out new B,
    easy_backfill demo_candidates 3 demo_pack_jobs demo_running 0 PackBudget_default demo_packed
      = Done (p, out) ∧
    backfill_post demo_pack_jobs demo_running 0 (drop 4 demo_candidates) 4 demo_packed p new B ∧
    backfilled out = Z.of_nat (length new) ∧
    reservation_kept demo_pack_jobs (MkReadyEntry PriorityClass.Normal 2 70) demo_running B 0
      (pl_inventory p) out.
Proof.
  split; [by vm_compute|].
  apply easy_backfill_keeps_reservation; [apply demo_requests_wf|apply demo_packed_ok
    |apply demo_running_ok|done|by vm_compute|].
  intros i d Hi Hd. do 4 (destruct i as [|i]; [lia|]). vm_compute in Hd. destruct i; by simplify_eq.
Defined.

(** The reservation is the earliest the running set allows: it is at most
    [R] exactly when some slot whose capacity holds the request has room for it
    once everything on that slot due by [R] has ended.  It is [now] exactly
    when the request fits at once, and the computation never panics. *)
Theorem reservation_is_earliest r inv running now R :
  Resources_wf r → running_ok running → Inventory_wf inv → now <= R →
  ∃ o, reservation_time r inv running now = Done o ∧
    ((∃ t, o = Some t ∧ t <= R) ↔ fits_by r inv running R) ∧ (fits_now r inv → o = Some now).
Proof.
  intros Hr Hok Hinv HR.
  destruct (reservation_time_le r inv running now R) as (o & E & Ho); [done..|by left|].
  exists o. split; [done|]. split; [done|]. intros Hn. rewrite reservation_time_now in E by done. congruence.
Qed.

Lemma reservation_is_earliest_witness :
  ∃ o, reservation_time (MkResources 500 0 0) (pl_inventory demo_packed) demo_running 0 = Done o ∧
    ((∃ t, o = Some t ∧ t <= 400) ↔
     fits_by (MkResources 500 0 0) (pl_inventory demo_packed) demo_running 400) ∧
    (fits_now (MkResources 500 0 0) (pl_inventory demo_packed) → o = Some 0).
Proof.
  apply reservation_is_earliest; [res_crush|apply demo_running_ok|apply (demo_packed_ok demo_pack_jobs)|lia].
Defined.

(** The reservation only counts the jobs it is told about.  A slot filled by a
    decision of the same cycle, not yet in [running], yields no reservation at
    all, although its capacity holds the request. *)
Example reservation_ignores_this_cycle :
  let inv := MkSlotInventory [MkWorkerSlot (MkResources 1000 0 0) (MkResources 1000 0 0)]
                             (MkResources 1000 0 0) in
  reservation_time (MkResources 500 0 0) inv [] 0 = Done None ∧
  can_ever_fit inv (MkResources 500 0 0) = true.
Proof. by vm_compute. Qed.
