(* ===== verification/Preempt.v ===== *)
(** * Preemption

    [crates/tasker-core/src/policy/preempt.rs]: the victims evicted so that a
    head job fits.  The evictions returned are shown to be the first entries of
    one slot in the eviction order, enough and no more than enough for the head to
    fit, the cheapest over all slots, and none only when no collection of entries
    that may be evicted from one slot would do; the order and the room are
    specified over the running set and the inventory, apart from the code. *)

From stdpp Require Import base list numbers option sorting sets.
From Stdlib Require Import ZArith Lia.
From S2P Require Import Prelude Domain Arena Job Inventory Priority ReadySet Pack Backfill.
Open Scope Z_scope.

Record PreemptConfig : Type := MkPreemptConfig {
  min_class : option PriorityClass;
  max_preemptions : Z;
  grace : VirtualDuration;
}.

Definition PreemptConfig_default : PreemptConfig :=
  MkPreemptConfig None 3 (duration_from_secs 5).

Record Eviction : Type := MkEviction {
  ev_job : JobId;
  ev_slot : SlotIndex;
}.

Record Victim : Type := MkVictim {
  v_class : PriorityClass;
  v_started : VirtualTime;
  v_job : JobId;
  v_resources : Resources;
}.

(** Lowest class first, then the latest start. *)
Definition victim_before (a b : Victim) : bool :=
  (ordinal (v_class a) <? ordinal (v_class b)) ||
  ((ordinal (v_class a) =? ordinal (v_class b)) && (v_started b <=? v_started a)).

(** [sort_by] is stable: an insertion sort that keeps ties in order. *)
Fixpoint victim_insert (v : Victim) (l : list Victim) : list Victim :=
  match l with
  | [] => [v]
  | w :: l' => if victim_before v w then v :: l else w :: victim_insert v l'
  end.

Definition victim_sort (l : list Victim) : list Victim := foldr victim_insert [] l.

Definition in_flight (running : list RunningJob) (jobs : Arena Job) : bool :=
  existsb (fun r => match Arena_get jobs (rj_job r) with
                    | Some j => bool_decide (state j = JobState.Preempted)
                    | None => false
                    end) running.

(** The inner loop's filter: an eligible running job as a candidate victim. *)
Definition victim_of (head : Job) (jobs : Arena Job) (config : PreemptConfig) (r : RunningJob)
  : option Victim :=
  match Arena_get jobs (rj_job r) with
  | None => None
  | Some job =>
      let eligible := bool_decide (state job = JobState.Running) &&
                      (ordinal (priority_class job) <? ordinal (priority_class head)) &&
                      (preemptions job <? max_preemptions config) in
      if negb eligible then None
      else
        let started := sat_sub (ends_at r) (walltime_limit job) in
        Some (MkVictim (priority_class job) started (rj_job r) (rj_resources r))
  end.

(** Evict until the request fits: freed capacity, lost runtime, victims used. *)
Fixpoint evict_loop (request : Resources) (now : VirtualTime) (vs : list Victim)
    (freed : Resources) (lost : Z) (count : nat) : Resources * Z * nat :=
  match vs with
  | [] => (freed, lost, count)
  | v :: vs' =>
      if fits_within request freed then (freed, lost, count)
      else evict_loop request now vs' (Resources_saturating_add freed (v_resources v))
             (sat_add u64_max lost (time_saturating_sub_time now (v_started v))) (S count)
  end.

(** The body of the slot loop: the plan for one slot, if it is viable. *)
Definition slot_plan (head : Job) (running : list RunningJob) (jobs : Arena Job)
    (inv : SlotInventory) (now : VirtualTime) (config : PreemptConfig) (slot : SlotIndex)
  : option (nat * Z * list Victim) :=
  match inventory_slot inv slot with
  | None => None
  | Some entry =>
      if negb (fits_within (request head) (capacity entry)) then None
      else
        let candidates :=
          victim_sort (omap (victim_of head jobs config)
                            (List.filter (fun r => rj_slot r =? slot) running)) in
        let '(freed, lost, count) :=
          evict_loop (request head) now candidates (WorkerSlot_free entry) 0 0 in
        if (count =? 0)%nat || negb (fits_within (request head) freed) then None
        else Some (count, lost, take count candidates)
  end.

Definition better (best : option (SlotIndex * nat * Z)) (count : nat) (lost : Z) : bool :=
  match best with
  | None => true
  | Some (_, n, l) => (count <? n)%nat || ((count =? n)%nat && (lost <? l))
  end.

Fixpoint plan_loop (head : Job) (running : list RunningJob) (jobs : Arena Job)
    (inv : SlotInventory) (now : VirtualTime) (config : PreemptConfig) (slots : list SlotIndex)
    (best : option (SlotIndex * nat * Z)) (chosen : list Victim)
  : option (SlotIndex * nat * Z) * list Victim :=
  match slots with
  | [] => (best, chosen)
  | slot :: slots' =>
      match slot_plan head running jobs inv now config slot with
      | None => plan_loop head running jobs inv now config slots' best chosen
      | Some (count, lost, vs) =>
          if better best count lost
          then plan_loop head running jobs inv now config slots' (Some (slot, count, lost)) vs
          else plan_loop head running jobs inv now config slots' best chosen
      end
  end.

Definition plan_preemption (head : Job) (running : list RunningJob) (jobs : Arena Job)
    (inv : SlotInventory) (now : VirtualTime) (config : PreemptConfig) (out : list Eviction)
  : exec (list Eviction * option SlotIndex) :=
  match min_class config with
  | None => Done (out, None)
  | Some min =>
      if ordinal (priority_class head) <? ordinal min then Done (out, None)
      else if in_flight running jobs then Done (out, None)
      else
        let! len := inventory_len inv in
        match plan_loop head running jobs inv now config
                (Z.of_nat <$> seq 0 (Z.to_nat len)) None [] with
        | (None, _) => Done (out, None)
        | (Some (slot, _, _), chosen) =>
            Done (out ++ map (fun v => MkEviction (v_job v) slot) chosen, Some slot)
        end
  end.

(** ** The eviction order *)

Lemma victim_insert_perm v l : victim_insert v l ≡ₚ v :: l.
Proof.
  induction l as [|w l IH]; simpl; [done|]. destruct (victim_before v w); [done|].
  rewrite IH. apply Permutation_swap.
Qed.

Lemma victim_sort_perm l : victim_sort l ≡ₚ l.
Proof. induction l as [|v l IH]; simpl; [done|]. by rewrite victim_insert_perm, IH. Qed.

Definition victim_le (a b : Victim) : Prop := victim_before a b = true.

Lemma victim_le_spec a b :
  victim_le a b ↔ ordinal (v_class a) < ordinal (v_class b) ∨
    (ordinal (v_class a) = ordinal (v_class b) ∧ v_started b <= v_started a).
Proof.
  unfold victim_le, victim_before. rewrite orb_true_iff, andb_true_iff, Z.ltb_lt, Z.eqb_eq, Z.leb_le.
  done.
Qed.

Lemma victim_before_false a b : victim_before a b = false → victim_le b a.
Proof.
  intros H. apply victim_le_spec. assert (¬ victim_le a b) as Hn by (unfold victim_le; congruence).
  rewrite victim_le_spec in Hn. lia.
Qed.

Lemma victim_insert_sorted v l :
  StronglySorted victim_le l → StronglySorted victim_le (victim_insert v l).
Proof.
  induction 1 as [|w l Hs IH Hall]; simpl; [by repeat constructor|].
  destruct (victim_before v w) eqn:E.
  - constructor; [by constructor|]. constructor; [done|].
    eapply Forall_impl; [exact Hall|]. intros x Hx. change (victim_before v w = true) with (victim_le v w) in E.
    rewrite victim_le_spec in *. lia.
  - constructor; [done|]. rewrite victim_insert_perm. constructor; [by apply victim_before_false|done].
Qed.

Lemma victim_sort_sorted l : StronglySorted victim_le (victim_sort l).
Proof. induction l as [|v l IH]; simpl; [constructor|by apply victim_insert_sorted]. Qed.

(** ** One slot *)

Definition victim_sum (vs : list Victim) : Resources := sum_res (v_resources <$> vs).

Definition victims_ok (vs : list Victim) : Prop := Forall (fun v => res_nonneg (v_resources v)) vs.

Lemma saturating_fit r free x q :
  Resources_wf r → res_nonneg q →
  Resources_le r (Resources_plus (Resources_saturating_add free x) q) ↔
  Resources_le r (Resources_plus free (Resources_plus x q)).
Proof. unfold res_nonneg. destruct r, free, x, q. intros. split; res_crush. Qed.

(** The loop takes the shortest prefix of the victims after which the request
    fits, or all of them. *)
Lemma evict_loop_spec r now vs free lost count freed lost' count' :
  Resources_wf r → victims_ok vs →
  evict_loop r now vs free lost count = (freed, lost', count') →
  ∃ k, count' = (count + k)%nat ∧ (k <= length vs)%nat ∧
    (fits_within r freed = true ↔ Resources_le r (Resources_plus free (victim_sum (take k vs)))) ∧
    (∀ j, (j < k)%nat → ¬ Resources_le r (Resources_plus free (victim_sum (take j vs)))) ∧
    (fits_within r freed = false → k = length vs).
Proof.
  intros Hr Hok. revert free lost count. induction Hok as [|v vs Hv Hok IH]; intros free lost count E; simpl in E.
  { injection E as <- <- <-. exists 0%nat. simpl. split_and!; [lia|done| |lia|done].
    rewrite fits_within_spec. unfold victim_sum. simpl. destruct free. split; res_crush. }
  destruct (fits_within r free) eqn:Ef.
  { injection E as <- <- <-. exists 0%nat. simpl. split_and!; [lia|lia| |lia|congruence].
    rewrite fits_within_spec. unfold victim_sum. simpl. destruct free. split; res_crush. }
  apply IH in E as (k & -> & Hk & Hfit & Hmin & Hall). exists (S k). simpl.
  assert (∀ j, res_nonneg (victim_sum (take j vs))) as Hpos.
  { intros j. apply sum_res_nonneg, Forall_fmap, Forall_take, Hok. }
  assert (∀ j, Resources_le r (Resources_plus (Resources_saturating_add free (v_resources v))
                                              (victim_sum (take j vs))) ↔
               Resources_le r (Resources_plus free (victim_sum (v :: take j vs)))) as Hshift.
  { intros j. by apply saturating_fit. }
  split_and!; [lia|lia| | |].
  - by rewrite Hfit, Hshift.
  - intros [|j] Hj.
    + simpl. apply fits_within_false in Ef. unfold victim_sum. simpl. intros H. apply Ef.
      destruct free. res_crush.
    + simpl. rewrite <-Hshift. apply Hmin. lia.
  - intros H. by rewrite (Hall H).
Qed.

Lemma victim_of_Some head jobs config r v :
  victim_of head jobs config r = Some v ↔
  ∃ j, Arena_get jobs (rj_job r) = Some j ∧ state j = JobState.Running ∧
    ordinal (priority_class j) < ordinal (priority_class head) ∧
    preemptions j < max_preemptions config ∧
    v = MkVictim (priority_class j) (sat_sub (ends_at r) (walltime_limit j)) (rj_job r) (rj_resources r).
Proof.
  unfold victim_of. destruct (Arena_get jobs (rj_job r)) as [j|]; [|naive_solver].
  destruct (_ && _) eqn:E; simpl.
  - apply andb_true_iff in E as [[Es%bool_decide_eq_true ?]%andb_true_iff ?]. bool_prop. naive_solver.
  - split; [done|]. intros (j' & [= <-] & Hs & Hc & Hp & _). apply Z.ltb_lt in Hc, Hp.
    rewrite Hc, Hp, bool_decide_eq_true_2 in E by done. done.
Qed.

(** The candidates of a slot, in eviction order. *)
Definition slot_victims (head : Job) (running : list RunningJob) (jobs : Arena Job)
    (config : PreemptConfig) (slot : SlotIndex) : list Victim :=
  victim_sort (omap (victim_of head jobs config) (List.filter (fun r => rj_slot r =? slot) running)).

Lemma slot_victims_elem head running jobs config slot v :
  v ∈ slot_victims head running jobs config slot ↔
  ∃ r, r ∈ running ∧ rj_slot r = slot ∧ victim_of head jobs config r = Some v.
Proof.
  unfold slot_victims. rewrite victim_sort_perm, list_elem_of_omap. split.
  - intros (r & Hr & Hv). apply list_elem_of_In, List.filter_In in Hr as [Hr E%Z.eqb_eq].
    exists r. by rewrite list_elem_of_In.
  - intros (r & Hr & <- & Hv). exists r. split; [|done]. apply list_elem_of_In, List.filter_In.
    by rewrite Z.eqb_refl, <-list_elem_of_In.
Qed.

Lemma slot_victims_ok head running jobs config slot :
  running_ok running → victims_ok (slot_victims head running jobs config slot).
Proof.
  intros Hok. apply Forall_forall. intros v (r & Hr & _ & Hv)%slot_victims_elem.
  apply victim_of_Some in Hv as (j & _ & _ & _ & _ & ->). simpl.
  unfold running_ok in Hok. rewrite Forall_forall in Hok. by apply Hok.
Qed.

Section Plan.
Context (head : Job) (running : list RunningJob) (jobs : Arena Job) (inv : SlotInventory).
Context (now : VirtualTime) (config : PreemptConfig).
Hypothesis Hhead : Resources_wf (request head).
Hypothesis Hrun : running_ok running.

Local Abbreviation victims := (slot_victims head running jobs config).
Local Abbreviation plan_of := (slot_plan head running jobs inv now config).

(** Evicting [n] victims from [slot], and no fewer, makes room for the head. *)
Definition frees (slot : SlotIndex) (n : nat) : Prop :=
  ∃ s, vec_get (worker_slots inv) slot = Some s ∧ Resources_le (request head) (capacity s) ∧
    (0 < n <= length (victims slot))%nat ∧
    Resources_le (request head) (Resources_plus (WorkerSlot_free s) (victim_sum (take n (victims slot)))) ∧
    ∀ k, (k < n)%nat →
      ¬ Resources_le (request head) (Resources_plus (WorkerSlot_free s) (victim_sum (take k (victims slot)))).

Lemma slot_plan_spec slot :
  match plan_of slot with
  | Some (n, lost, vs) => frees slot n ∧ vs = take n (victims slot)
  | None => ∀ n, ¬ frees slot n
  end.
Proof.
  unfold slot_plan, inventory_slot, frees. destruct (vec_get (worker_slots inv) slot) as [s|] eqn:Es.
  2:{ intros n (s & ? & _). done. }
  destruct (fits_within (request head) (capacity s)) eqn:Ec; simpl.
  2:{ apply fits_within_false in Ec. intros n (s' & [= <-] & ? & _). done. }
  apply fits_within_spec in Ec. fold (victims slot).
  destruct (evict_loop _ _ _ _ _ _) as [[freed lost] count] eqn:E.
  apply evict_loop_spec in E as (k & -> & Hk & Hfit & Hmin & Hall); [|done|by apply slot_victims_ok].
  simpl. destruct (Nat.eqb_spec k 0) as [->|Hne]; simpl.
  - intros n (s' & [= <-] & _ & Hn & _ & Hno). destruct (fits_within (request head) freed) eqn:Ef.
    + apply (Hno 0%nat); [lia|]. by apply Hfit.
    + specialize (Hall eq_refl). lia.
  - destruct (fits_within (request head) freed) eqn:Ef; simpl.
    + split; [|done]. exists s. split; [done|]. split; [done|]. split; [lia|]. split; [by apply Hfit|done].
    + specialize (Hall eq_refl). subst k. intros n (s' & [= <-] & _ & Hn & Hle & _).
      destruct (decide (n = length (victims slot))) as [->|]; [|by apply (Hmin n); [lia|]].
      apply Hfit in Hle. done.
Qed.

(** Fewer victims, then less lost runtime. *)
Definition cheaper_eq (a b : nat * Z) : Prop := (a.1 < b.1)%nat ∨ (a.1 = b.1 ∧ a.2 <= b.2).

Lemma cheaper_eq_trans a b c : cheaper_eq a b → cheaper_eq b c → cheaper_eq a c.
Proof. unfold cheaper_eq. lia. Qed.

(** The best plan so far, over the slots [seen]. *)
Definition best_over (seen : list SlotIndex) (best : option (SlotIndex * nat * Z))
    (chosen : list Victim) : Prop :=
  match best with
  | None => ∀ i, i ∈ seen → plan_of i = None
  | Some (slot, n, lost) => slot ∈ seen ∧ plan_of slot = Some (n, lost, chosen) ∧
      ∀ i n' lost' vs, i ∈ seen → plan_of i = Some (n', lost', vs) → cheaper_eq (n, lost) (n', lost')
  end.

Lemma best_over_step seen best chosen slot :
  best_over seen best chosen →
  match plan_of slot with
  | None => best_over (seen ++ [slot]) best chosen
  | Some (n, lost, vs) =>
      if better best n lost then best_over (seen ++ [slot]) (Some (slot, n, lost)) vs
      else best_over (seen ++ [slot]) best chosen
  end.
Proof.
  intros Hb. destruct (plan_of slot) as [[[n lost] vs]|] eqn:Ep.
  - destruct best as [[[b nb] lb]|]; unfold better, best_over in *.
    + destruct Hb as (Hin & Hpb & Hbest). destruct (_ || _) eqn:E.
      * split; [set_solver|]. split; [done|].
        intros i n' lost' vs' [Hi| ->%list_elem_of_singleton]%elem_of_app Hi'.
        -- eapply cheaper_eq_trans; [|by eapply Hbest]. unfold cheaper_eq. simpl.
           apply orb_true_iff in E as [E|E]; [apply Nat.ltb_lt in E; lia|].
           apply andb_true_iff in E as [->%Nat.eqb_eq ?%Z.ltb_lt]. lia.
        -- rewrite Ep in Hi'. injection Hi' as <- <- <-. right. done.
      * split; [set_solver|]. split; [done|].
        intros i n' lost' vs' [Hi| ->%list_elem_of_singleton]%elem_of_app Hi'; [by eapply Hbest|].
        rewrite Ep in Hi'. injection Hi' as <- <- <-. unfold cheaper_eq. simpl.
        apply orb_false_iff in E as [E1%Nat.ltb_ge E2]. apply andb_false_iff in E2 as [E2%Nat.eqb_neq|E2%Z.ltb_ge]; lia.
    + split; [set_solver|]. split; [done|].
      intros i n' lost' vs' [Hi| ->%list_elem_of_singleton]%elem_of_app Hi'.
      * rewrite Hb in Hi' by done. done.
      * rewrite Ep in Hi'. injection Hi' as <- <- <-. right. done.
  - destruct best as [[[b nb] lb]|]; unfold best_over in *.
    + destruct Hb as (Hin & Hpb & Hbest). split; [set_solver|]. split; [done|].
      intros i n' lost' vs' [Hi| ->%list_elem_of_singleton]%elem_of_app Hi'; [by eapply Hbest|congruence].
    + intros i [Hi| ->%list_elem_of_singleton]%elem_of_app; auto.
Qed.

Lemma plan_loop_spec rest seen best chosen :
  best_over seen best chosen →
  ∃ best' chosen', plan_loop head running jobs inv now config rest best chosen = (best', chosen') ∧
    best_over (seen ++ rest) best' chosen'.
Proof.
  revert seen best chosen. induction rest as [|slot rest IH]; intros seen best chosen Hb.
  { exists best, chosen. by rewrite app_nil_r. }
  cbn [plan_loop]. apply (best_over_step _ _ _ slot) in Hb. rewrite cons_middle, app_assoc.
  destruct (plan_of slot) as [[[n lost] vs]|]; [|by apply IH].
  destruct (better best n lost); by apply IH.
Qed.
End Plan.

(** ** Properties *)

(** A running job the head may evict. *)
Definition evictable (head : Job) (running : list RunningJob) (jobs : Arena Job)
    (config : PreemptConfig) (slot : SlotIndex) (e : Eviction) : Prop :=
  ev_slot e = slot ∧ ∃ r j, r ∈ running ∧ rj_job r = ev_job e ∧ rj_slot r = slot ∧
    Arena_get jobs (ev_job e) = Some j ∧ state j = JobState.Running ∧
    ordinal (priority_class j) < ordinal (priority_class head) ∧
    preemptions j < max_preemptions config.

(** Preemption is on, the head may preempt, and no eviction is in flight. *)
Definition may_preempt (head : Job) (running : list RunningJob) (jobs : Arena Job)
    (config : PreemptConfig) : Prop :=
  ∃ min, min_class config = Some min ∧ ordinal min <= ordinal (priority_class head) ∧
    in_flight running jobs = false.

Lemma plan_evictable head running jobs config slot n :
  Forall (evictable head running jobs config slot)
    (map (fun v => MkEviction (v_job v) slot) (take n (slot_victims head running jobs config slot))).
Proof.
  apply Forall_fmap, Forall_forall. intros v Hv. apply (subseteq_take n) in Hv.
  apply slot_victims_elem in Hv as (r & Hr & Hs & Hv).
  apply victim_of_Some in Hv as (j & ? & ? & ? & ? & ->). split; [done|]. by exists r, j.
Qed.

(** What a call of [plan_preemption] returns. *)
Lemma plan_preemption_spec head running jobs inv now config out :
  Resources_wf (request head) → running_ok running → Inventory_wf inv →
  ∃ evs o, plan_preemption head running jobs inv now config out = Done (out ++ evs, o) ∧
  match o with
  | Some slot => may_preempt head running jobs config ∧
      Forall (evictable head running jobs config slot) evs ∧
      frees head running jobs inv config slot (length evs) ∧
      evs = map (fun v => MkEviction (v_job v) slot) (take (length evs) (slot_victims head running jobs config slot)) ∧
      ∃ lost, slot_plan head running jobs inv now config slot =
                Some (length evs, lost, take (length evs) (slot_victims head running jobs config slot)) ∧
        ∀ i n' lost' vs, slot_plan head running jobs inv now config i = Some (n', lost', vs) →
          cheaper_eq (length evs, lost) (n', lost')
  | None => evs = [] ∧
      (¬ may_preempt head running jobs config ∨
       ∀ slot n, ¬ frees head running jobs inv config slot n)
  end.
Proof.
  intros Hh Hrun Hwf. unfold plan_preemption, may_preempt.
  destruct (min_class config) as [min|].
  2:{ exists [], None. rewrite app_nil_r. split; [done|]. split; [done|]. left. by intros (m & ? & _). }
  destruct (Z.ltb_spec (ordinal (priority_class head)) (ordinal min)).
  { exists [], None. rewrite app_nil_r. split; [done|]. split; [done|]. left. intros (m & [= <-] & ? & _). lia. }
  destruct (in_flight running jobs) eqn:Ef.
  { exists [], None. rewrite app_nil_r. split; [done|]. split; [done|]. left. by intros (m & _ & _ & ?). }
  unfold inventory_len. rewrite u32_from_usize_Done by apply Hwf. cbn [exec_bind]. rewrite Nat2Z.id.
  destruct (plan_loop_spec head running jobs inv now config Hh Hrun
    (Z.of_nat <$> seq 0 (length (worker_slots inv))) [] None []) as (best & chosen & -> & Hb).
  { by intros i ?%elem_of_nil. }
  assert (∀ i p, slot_plan head running jobs inv now config i = Some p →
          i ∈ Z.of_nat <$> seq 0 (length (worker_slots inv))) as Hdom.
  { intros i p Hp. apply slot_indices. unfold slot_plan, inventory_slot in Hp.
    destruct (vec_get _ _); [eauto|done]. }
  destruct best as [[[slot n] lost]|]; simpl in Hb.
  - destruct Hb as (_ & Hp & Hbest).
    pose proof (slot_plan_spec head running jobs inv now config Hh Hrun slot) as Hs.
    rewrite Hp in Hs. destruct Hs as [Hfr ->]. pose proof Hfr as (s & _ & _ & Hn & _).
    eexists _, (Some slot). split; [done|]. rewrite List.length_map, length_take, Nat.min_l by lia.
    split; [by eauto|]. split; [apply plan_evictable|]. split; [done|]. split; [done|]. exists lost. split; [done|].
    intros i n' lost' vs Hi. eapply Hbest; [|exact Hi]. by eapply Hdom.
  - exists [], None. rewrite app_nil_r. split; [done|]. split; [done|]. right. intros slot n Hfr.
    pose proof (slot_plan_spec head running jobs inv now config Hh Hrun slot) as Hs.
    destruct (slot_plan head running jobs inv now config slot) as [p|] eqn:Ep.
    + rewrite Hb in Ep; [done|]. by eapply Hdom.
    + by eapply Hs.
Qed.

(** ** The plan, in terms of the running set

    The vocabulary below speaks of the entries of the running set and of the
    inventory only; it does not mention the candidates the code computes. *)

Definition run_job (jobs : Arena Job) (r : RunningJob) : option Job := Arena_get jobs (rj_job r).

Definition run_class (jobs : Arena Job) (r : RunningJob) : Z :=
  match run_job jobs r with Some j => ordinal (priority_class j) | None => 0 end.

(** The entry keeps the deadline: the start is a walltime earlier. *)
Definition run_start (jobs : Arena Job) (r : RunningJob) : Z :=
  match run_job jobs r with Some j => Z.max 0 (ends_at r - walltime_limit j) | None => 0 end.

(** A [Running] job on [slot], of a lower class than the head and below its
    eviction cap. *)
Definition eligible (head : Job) (jobs : Arena Job) (config : PreemptConfig) (slot : SlotIndex) (r : RunningJob) : Prop :=
  rj_slot r = slot ∧ ∃ j, run_job jobs r = Some j ∧ state j = JobState.Running ∧
    ordinal (priority_class j) < ordinal (priority_class head) ∧ preemptions j < max_preemptions config.

Definition same_rank (jobs : Arena Job) (c st : Z) (r : RunningJob) : bool :=
  (run_class jobs r =? c) && (run_start jobs r =? st).

Definition ranked (jobs : Arena Job) (a b : RunningJob) : Prop :=
  run_class jobs a < run_class jobs b ∨ (run_class jobs a = run_class jobs b ∧ run_start jobs b <= run_start jobs a).

(** [l] is everything that may be evicted from [slot], lowest class first, then
    the latest start; entries of one class and start keep their order. *)
Definition eviction_order (head : Job) (running : list RunningJob) (jobs : Arena Job)
    (config : PreemptConfig) (slot : SlotIndex) (l : list RunningJob) : Prop :=
  StronglySorted (ranked jobs) l ∧
  ∃ may others, running ≡ₚ may ++ others ∧ may `sublist_of` running ∧
    Forall (eligible head jobs config slot) may ∧ Forall (fun r => ¬ eligible head jobs config slot r) others ∧
    l ≡ₚ may ∧ ∀ c st, List.filter (same_rank jobs c st) l = List.filter (same_rank jobs c st) may.

(** The head does not fit [slot] now, and does once [vs] are gone. *)
Definition makes_room (head : Job) (inv : SlotInventory) (slot : SlotIndex) (vs : list RunningJob) : Prop :=
  ∃ s, vec_get (worker_slots inv) slot = Some s ∧ Resources_le (request head) (capacity s) ∧
    ¬ Resources_le (request head) (WorkerSlot_free s) ∧
    Resources_le (request head) (Resources_plus (WorkerSlot_free s) (sum_res (rj_resources <$> vs))).

(** Decided by the comparisons the code makes. *)
Definition makes_room_at (head : Job) (inv : SlotInventory) (slot : SlotIndex) (vs : list RunningJob) : bool :=
  match vec_get (worker_slots inv) slot with
  | Some s => fits_within (request head) (capacity s) && negb (fits_within (request head) (WorkerSlot_free s)) &&
      fits_within (request head) (Resources_plus (WorkerSlot_free s) (sum_res (rj_resources <$> vs)))
  | None => false
  end.

Lemma makes_room_at_spec head inv slot vs : makes_room_at head inv slot vs = true ↔ makes_room head inv slot vs.
Proof.
  unfold makes_room_at, makes_room. destruct (vec_get (worker_slots inv) slot) as [s|]; [|naive_solver].
  rewrite !andb_true_iff, negb_true_iff, !fits_within_spec, fits_within_false. naive_solver.
Qed.

(** The runtime evicting [vs] throws away, as far as a [u64] can tell. *)
Definition lost_runtime (jobs : Arena Job) (now : VirtualTime) (vs : list RunningJob) : Z :=
  Z.min u64_max (foldr (fun r n => Z.max 0 (now - run_start jobs r) + n) 0 vs).

(** *** The order is determined *)

Lemma filter_same_rank_head jobs a l l' :
  List.filter (same_rank jobs (run_class jobs a) (run_start jobs a)) (a :: l) =
  List.filter (same_rank jobs (run_class jobs a) (run_start jobs a)) l' → a ∈ l'.
Proof.
  intros E. assert (a ∈ List.filter (same_rank jobs (run_class jobs a) (run_start jobs a)) l') as Ha.
  { rewrite <-E. cbn [List.filter]. unfold same_rank at 1. rewrite !Z.eqb_refl. by left. }
  by apply elem_of_List_filter in Ha as [? _].
Qed.

Lemma ranked_unique jobs l : ∀ l',
  StronglySorted (ranked jobs) l → StronglySorted (ranked jobs) l' →
  (∀ c st, List.filter (same_rank jobs c st) l = List.filter (same_rank jobs c st) l') → l = l'.
Proof.
  induction l as [|a l IH]; intros l' Hs Hs' Hf.
  { destruct l' as [|b l']; [done|]. specialize (Hf (run_class jobs b) (run_start jobs b)). symmetry in Hf.
    by apply filter_same_rank_head, elem_of_nil in Hf. }
  pose proof (filter_same_rank_head _ _ _ _ (Hf (run_class jobs a) (run_start jobs a))) as Ha.
  destruct l' as [|b l']; [by apply elem_of_nil in Ha|].
  pose proof (filter_same_rank_head _ _ _ _ (eq_sym (Hf (run_class jobs b) (run_start jobs b)))) as Hb.
  apply StronglySorted_inv in Hs as [Hs Hal], Hs' as [Hs' Hbl]. rewrite Forall_forall in Hal, Hbl.
  assert (run_class jobs a = run_class jobs b ∧ run_start jobs a = run_start jobs b) as [Ec Es].
  { apply elem_of_cons in Ha as [->|Ha%Hbl]; [done|]. apply elem_of_cons in Hb as [->|Hb%Hal]; [done|]. unfold ranked in *. lia. }
  assert (a = b) as <-.
  { specialize (Hf (run_class jobs a) (run_start jobs a)). cbn [List.filter] in Hf.
    assert (same_rank jobs (run_class jobs a) (run_start jobs a) a = true) as Ea by (unfold same_rank; by rewrite !Z.eqb_refl).
    assert (same_rank jobs (run_class jobs a) (run_start jobs a) b = true) as Eb by (unfold same_rank; by rewrite Ec, Es, !Z.eqb_refl).
    rewrite Ea, Eb in Hf. by injection Hf. }
  f_equal. apply IH; [done|done|]. intros c st. specialize (Hf c st). cbn [List.filter] in Hf.
  destruct (same_rank jobs c st a); [by injection Hf|done].
Qed.

#[export] Instance eligible_dec head jobs config slot r : Decision (eligible head jobs config slot r).
Proof.
  unfold eligible. destruct (decide (rj_slot r = slot)) as [Hs|Hs]; [|right; by intros [? _]].
  destruct (run_job jobs r) as [j|]; [|right; by intros (_ & j & ? & _)].
  destruct (decide (state j = JobState.Running ∧ ordinal (priority_class j) < ordinal (priority_class head) ∧
                    preemptions j < max_preemptions config)) as [Hj|Hj].
  - left. split; [done|]. exists j. by split.
  - right. intros (_ & j' & [= <-] & Hj'). by apply Hj.
Defined.

Lemma eviction_order_unique head running jobs config slot l l' :
  eviction_order head running jobs config slot l → eviction_order head running jobs config slot l' → l = l'.
Proof.
  intros [Hs (may & o & H1 & H2 & H3 & H4 & _ & Hf)] [Hs' (may' & o' & H1' & H2' & H3' & H4' & _ & Hf')].
  apply (ranked_unique jobs); [done|done|]. intros c st. rewrite Hf, Hf'.
  assert (∀ m, Forall (eligible head jobs config slot) m → Forall (fun r => bool_decide (eligible head jobs config slot r) = true) m) as Ht
    by (intros m Hm; eapply Forall_impl; [exact Hm|]; intros r; apply bool_decide_eq_true_2).
  assert (∀ m, Forall (fun r => ¬ eligible head jobs config slot r) m → Forall (fun r => bool_decide (eligible head jobs config slot r) = false) m) as Hn
    by (intros m Hm; eapply Forall_impl; [exact Hm|]; intros r; apply bool_decide_eq_false_2).
  by rewrite (partition_filter _ _ _ _ H1 H2 (Ht _ H3) (Hn _ H4)), (partition_filter _ _ _ _ H1' H2' (Ht _ H3') (Hn _ H4')).
Qed.

(** *** The candidates are in that order *)

Section Order.
Context (head : Job) (running : list RunningJob) (jobs : Arena Job) (config : PreemptConfig).

(** The candidate an entry becomes. *)
Definition as_victim (r : RunningJob) : Victim :=
  match run_job jobs r with
  | Some j => MkVictim (priority_class j) (sat_sub (ends_at r) (walltime_limit j)) (rj_job r) (rj_resources r)
  | None => MkVictim PriorityClass.Low 0 (rj_job r) (rj_resources r)
  end.

Lemma as_victim_rank r :
  ordinal (v_class (as_victim r)) = run_class jobs r ∧ v_started (as_victim r) = run_start jobs r.
Proof. unfold as_victim, run_class, run_start, sat_sub. by destruct (run_job jobs r). Qed.

Lemma ranked_victim a b : ranked jobs a b ↔ victim_le (as_victim a) (as_victim b).
Proof. rewrite victim_le_spec. destruct (as_victim_rank a) as [-> ->], (as_victim_rank b) as [-> ->]. done. Qed.

Fixpoint run_insert (r : RunningJob) (l : list RunningJob) : list RunningJob :=
  match l with
  | [] => [r]
  | q :: l' => if victim_before (as_victim r) (as_victim q) then r :: l else q :: run_insert r l'
  end.

Definition run_sort (l : list RunningJob) : list RunningJob := foldr run_insert [] l.

Lemma run_sort_victims l : as_victim <$> run_sort l = victim_sort (as_victim <$> l).
Proof.
  unfold run_sort, victim_sort. induction l as [|r l IH]; [done|]. cbn [foldr fmap list_fmap]. rewrite <-IH.
  generalize (foldr run_insert [] l). intros k.
  induction k as [|q k IHk]; [done|]. cbn. destruct (victim_before (as_victim r) (as_victim q)); [done|]. cbn. by f_equal.
Qed.

Lemma run_sort_perm l : run_sort l ≡ₚ l.
Proof.
  unfold run_sort. induction l as [|r l IH]; [done|]. cbn [foldr]. rewrite <-IH at 2. generalize (foldr run_insert [] l). intros k.
  induction k as [|q k IHk]; [done|]. cbn. destruct (victim_before _ _); [done|]. rewrite IHk. apply Permutation_swap.
Qed.

Lemma run_sort_stable c st l : List.filter (same_rank jobs c st) (run_sort l) = List.filter (same_rank jobs c st) l.
Proof.
  induction l as [|r l IH]; [done|]. cbn [run_sort foldr]. fold (run_sort l). cbn [List.filter]. rewrite <-IH.
  clear IH. generalize (run_sort l). intros k. induction k as [|q k IHk]; [done|]. cbn [run_insert].
  destruct (victim_before (as_victim r) (as_victim q)) eqn:E; [done|]. cbn [List.filter]. rewrite IHk.
  destruct (same_rank jobs c st q) eqn:Eq; [|done]. destruct (same_rank jobs c st r) eqn:Er; [|done]. exfalso.
  unfold same_rank in Eq, Er. apply andb_true_iff in Eq as [Eq1%Z.eqb_eq Eq2%Z.eqb_eq], Er as [Er1%Z.eqb_eq Er2%Z.eqb_eq].
  assert (ranked jobs r q) as Hr%ranked_victim by (unfold ranked; lia). unfold victim_le in Hr. congruence.
Qed.

Lemma candidates_of slot :
  omap (victim_of head jobs config) (List.filter (fun r => rj_slot r =? slot) running) =
  as_victim <$> List.filter (fun r => bool_decide (eligible head jobs config slot r)) running.
Proof.
  induction running as [|r l IH]; [done|]. cbn [List.filter].
  destruct (Z.eqb_spec (rj_slot r) slot) as [Es|Es]; cycle 1.
  { rewrite bool_decide_eq_false_2 by (by intros [? _]). exact IH. }
  cbn [omap list_omap]. rewrite IH. destruct (victim_of head jobs config r) as [v|] eqn:Ev.
  - apply victim_of_Some in Ev as (j & Hj & H1 & H2 & H3 & ->). rewrite bool_decide_eq_true_2 by (split; [done|]; by exists j).
    cbn. unfold as_victim, run_job. by rewrite Hj.
  - rewrite bool_decide_eq_false_2; [done|]. intros [_ (j & Hj & H1 & H2 & H3)].
    assert (is_Some (victim_of head jobs config r)) as [? ?]; [|congruence]. eexists. apply victim_of_Some. by exists j.
Qed.

(** The candidates of a slot, as entries of the running set. *)
Definition victim_entries (slot : SlotIndex) : list RunningJob :=
  run_sort (List.filter (fun r => bool_decide (eligible head jobs config slot r)) running).

Lemma victim_entries_victims slot : slot_victims head running jobs config slot = as_victim <$> victim_entries slot.
Proof. unfold slot_victims, victim_entries. by rewrite candidates_of, run_sort_victims. Qed.

Lemma victim_entries_order slot : eviction_order head running jobs config slot (victim_entries slot).
Proof.
  set (el r := bool_decide (eligible head jobs config slot r)). split.
  - pose proof (victim_sort_sorted (as_victim <$> List.filter el running)) as Hs. rewrite <-run_sort_victims in Hs.
    change (run_sort (List.filter el running)) with (victim_entries slot) in Hs.
    revert Hs. generalize (victim_entries slot). intros k Hs. induction k as [|a l IH]; [constructor|]. rewrite fmap_cons in Hs.
    apply StronglySorted_inv in Hs as [Hs Ha]. constructor; [by apply IH|].
    apply (Forall_fmap as_victim) in Ha. eapply Forall_impl; [exact Ha|]. intros b Hb. by apply ranked_victim.
  - exists (List.filter el running), (List.filter (fun r => negb (el r)) running). split_and!.
    + clear. induction running as [|r l IH]; [done|]. cbn. destruct (el r); cbn; [by rewrite <-IH|]. by rewrite <-Permutation_middle, <-IH.
    + apply filter_sublist.
    + apply Forall_forall. by intros r [_ ?%bool_decide_eq_true]%elem_of_List_filter.
    + apply Forall_forall. by intros r [_ ?%negb_true_iff%bool_decide_eq_false]%elem_of_List_filter.
    + apply run_sort_perm.
    + intros c st. apply run_sort_stable.
Qed.

Lemma victim_sum_entries l : victim_sum (as_victim <$> l) = sum_res (rj_resources <$> l).
Proof.
  unfold victim_sum. f_equal. rewrite <-list_fmap_compose. apply list_fmap_ext. intros _ r _. cbn. unfold as_victim. by destruct (run_job jobs r).
Qed.

(** Any collection of eligible entries frees at most what all of them free. *)
Lemma eligible_sum slot vs :
  running_ok running → vs ⊆+ running → Forall (eligible head jobs config slot) vs →
  Resources_le (sum_res (rj_resources <$> vs)) (sum_res (rj_resources <$> victim_entries slot)).
Proof.
  intros Hok Hsub Hel. destruct (victim_entries_order slot) as [_ (may & others & Hp & _ & Hm & Ho & -> & _)].
  assert (vs ⊆+ may) as (rest & Hr)%submseteq_Permutation.
  { rewrite Hp in Hsub. apply submseteq_app_r in Hsub as (v1 & v2 & Ev & H1 & H2). rewrite Ev in Hel |- *.
    apply Forall_app in Hel as [_ Hel]. assert (v2 = []) as ->; [|by rewrite app_nil_r].
    destruct v2 as [|r v2]; [done|]. exfalso. apply Forall_cons in Hel as [Hr _]. rewrite Forall_forall in Ho.
    apply (Ho r); [|done]. eapply elem_of_submseteq; [by left|exact H2]. }
  assert (Forall res_nonneg (rj_resources <$> rest)) as Hpos.
  { apply Forall_fmap. unfold running_ok in Hok. rewrite Hp, Hr in Hok. apply Forall_app in Hok as [Hok _].
    by apply Forall_app in Hok as [_ ?]. }
  rewrite Hr, fmap_app, sum_res_app. apply sum_res_nonneg in Hpos. unfold res_nonneg in Hpos.
  destruct (sum_res (rj_resources <$> vs)), (sum_res (rj_resources <$> rest)). res_crush.
Qed.

Lemma frees_makes_room inv slot n :
  frees head running jobs inv config slot n ↔
  (n <= length (victim_entries slot))%nat ∧ makes_room head inv slot (take n (victim_entries slot)) ∧
  ∀ k, (k < n)%nat → ¬ makes_room head inv slot (take k (victim_entries slot)).
Proof.
  unfold frees, makes_room. rewrite victim_entries_victims, length_fmap.
  assert (∀ k, victim_sum (take k (as_victim <$> victim_entries slot)) = sum_res (rj_resources <$> take k (victim_entries slot))) as Hsum
    by (intros k; by rewrite <-fmap_take, victim_sum_entries).
  assert (∀ s, Resources_le (request head) (Resources_plus (WorkerSlot_free s) (sum_res (rj_resources <$> take 0 (victim_entries slot)))) ↔
               Resources_le (request head) (WorkerSlot_free s)) as H0.
  { intros s. rewrite take_0. cbn [fmap list_fmap sum_res foldr]. destruct (WorkerSlot_free s). split; res_crush. }
  split.
  - intros (s & Hs & Hc & Hn & Hle & Hk). rewrite Hsum in Hle. split; [lia|]. split.
    + exists s. split_and!; try done. intros Hf. apply (Hk 0%nat); [lia|]. rewrite Hsum. by apply H0.
    + intros k Hlt (s' & Hs' & _ & _ & Hle'). assert (s' = s) as -> by congruence. apply (Hk k Hlt). by rewrite Hsum.
  - intros (Hn & (s & Hs & Hc & Hf & Hle) & Hk). exists s. rewrite Hsum. split_and!; try done.
    + destruct n; [|lia]. by apply H0 in Hle.
    + intros k Hlt Hle'. rewrite Hsum in Hle'. apply (Hk k Hlt). by exists s.
Qed.

(** What a slot's plan loses. *)
Lemma evict_loop_lost r now vs free lost count freed lost' count' :
  0 <= lost <= u64_max → evict_loop r now vs free lost count = (freed, lost', count') →
  ∃ k, count' = (count + k)%nat ∧
    lost' = Z.min u64_max (lost + foldr (fun v n => time_saturating_sub_time now (v_started v) + n) 0 (take k vs)).
Proof.
  revert free lost count. induction vs as [|v vs IH]; intros free lost count Hl E; cbn in E.
  { injection E as <- <- <-. exists 0%nat. cbn. lia. }
  destruct (fits_within r free); [injection E as <- <- <-; exists 0%nat; cbn; lia|].
  assert (0 <= time_saturating_sub_time now (v_started v)) by (unfold time_saturating_sub_time, sat_sub; lia).
  apply IH in E as (k & -> & ->); [|unfold sat_add; lia]. exists (S k). cbn. split; [lia|]. unfold sat_add.
  assert (∀ l, 0 <= foldr (fun v n => time_saturating_sub_time now (v_started v) + n) 0 l) as Hp.
  { induction l; cbn; unfold time_saturating_sub_time, sat_sub in *; lia. }
  specialize (Hp (take k vs)). lia.
Qed.

Lemma lost_entries now l :
  Z.min u64_max (0 + foldr (fun v n => time_saturating_sub_time now (v_started v) + n) 0 (as_victim <$> l)) = lost_runtime jobs now l.
Proof.
  unfold lost_runtime. f_equal. rewrite Z.add_0_l. induction l as [|r l IH]; [done|]. cbn [fmap list_fmap foldr]. rewrite <-IH. f_equal.
  unfold time_saturating_sub_time, sat_sub, as_victim, run_start. by destruct (run_job jobs r).
Qed.

Lemma slot_plan_lost inv now slot n lost vs :
  slot_plan head running jobs inv now config slot = Some (n, lost, vs) →
  lost = lost_runtime jobs now (take n (victim_entries slot)).
Proof.
  unfold slot_plan. destruct (inventory_slot inv slot) as [s|]; [|done]. destruct (negb _); [done|].
  fold (slot_victims head running jobs config slot). destruct (evict_loop _ _ _ _ _ _) as [[freed l] c] eqn:E.
  destruct (_ || _); [done|]. intros [= <- <- <-]. apply evict_loop_lost in E as (k & -> & ->); [|lia].
  rewrite victim_entries_victims, <-fmap_take. cbn [Nat.add]. apply lost_entries.
Qed.
End Order.

(** When all the candidates of a slot make room, some first of them do, and no
    fewer. *)
Lemma first_room head running jobs inv config slot :
  makes_room head inv slot (victim_entries head running jobs config slot) → ∃ n, frees head running jobs inv config slot n.
Proof.
  intros Hall. set (l := victim_entries head running jobs config slot) in *.
  assert (∀ m, (m <= length l)%nat → makes_room head inv slot (take m l) → ∃ n, frees head running jobs inv config slot n) as Hm.
  { induction m as [m IH] using lt_wf_ind. intros Hle Hr.
    destruct (decide (Exists (fun k => makes_room_at head inv slot (take k l) = true) (seq 0 m))) as [(k & Hk & Hroom)%Exists_exists|Hno].
    - apply elem_of_seq in Hk. apply (IH k); [lia|lia|]. by apply makes_room_at_spec.
    - exists m. apply frees_makes_room. split; [done|]. split; [done|]. intros k Hk Hroom. apply Hno, Exists_exists. exists k.
      split; [apply elem_of_seq; lia|]. by apply makes_room_at_spec. }
  apply (Hm (length l)); [done|]. by rewrite firstn_all.
Qed.

(** The plan of a slot is cheapest among the first entries that make room there. *)
Lemma plan_cheapest head running jobs inv now config (Hh : Resources_wf (request head)) (Hrun : running_ok running) i vs rest best :
  victim_entries head running jobs config i = vs ++ rest → makes_room head inv i vs →
  (∀ n lost vs', slot_plan head running jobs inv now config i = Some (n, lost, vs') → cheaper_eq best (n, lost)) →
  cheaper_eq best (length vs, lost_runtime jobs now vs).
Proof.
  intros E Hroom Hbest. destruct (first_room head running jobs inv config i) as [m Hm].
  { rewrite E. destruct Hroom as (s & Hs & Hc & Hf & Hle). exists s. split_and!; try done.
    rewrite fmap_app, sum_res_app. assert (res_nonneg (sum_res (rj_resources <$> rest))) as Hpos.
    { apply sum_res_nonneg, Forall_fmap. destruct (victim_entries_order head running jobs config i) as [_ (may & o & Hp & _ & _ & _ & Hl & _)].
      unfold running_ok in Hrun. rewrite Hp, <-Hl, E in Hrun. apply Forall_app in Hrun as [Hrun _]. by apply Forall_app in Hrun as [_ ?]. }
    clear -Hle Hpos. unfold res_nonneg, Resources_le, Resources_plus, Resources_ZERO in *. cbn in *. lia. }
  pose proof (slot_plan_spec head running jobs inv now config Hh Hrun i) as Hs.
  destruct (slot_plan head running jobs inv now config i) as [[[n lost] vs']|] eqn:Ep; [|by destruct (Hs m)].
  destruct Hs as [Hfr _]. pose proof (slot_plan_lost _ _ _ _ _ _ _ _ _ _ Ep) as El. specialize (Hbest n lost vs' eq_refl).
  apply frees_makes_room in Hfr as (Hn & _ & Hmin). rewrite E in *.
  destruct (Nat.lt_trichotomy (length vs) n) as [Hlt|[Heq|Hgt]].
  - exfalso. apply (Hmin _ Hlt). by rewrite take_app_length.
  - rewrite <-Heq, take_app_length in El. by rewrite Heq, <-El.
  - eapply cheaper_eq_trans; [exact Hbest|by left].
Qed.

Lemma in_flight_spec running jobs :
  in_flight running jobs = false ↔ ∀ r j, r ∈ running → run_job jobs r = Some j → state j ≠ JobState.Preempted.
Proof.
  unfold in_flight, run_job. rewrite <-not_true_iff_false, existsb_exists. split.
  - intros Hn r j Hr Hj Hs. apply Hn. exists r. split; [by apply list_elem_of_In|]. rewrite Hj. by apply bool_decide_eq_true_2.
  - intros Hall (r & Hr%list_elem_of_In & Hb). destruct (Arena_get jobs (rj_job r)) as [j|] eqn:Hj; [|done].
    apply bool_decide_eq_true in Hb. by apply (Hall r j).
Qed.

(** Preemption is on, the head's class may use it, and nothing is being evicted. *)
Definition allowed (head : Job) (running : list RunningJob) (jobs : Arena Job) (config : PreemptConfig) : Prop :=
  (∃ min, min_class config = Some min ∧ ordinal min <= ordinal (priority_class head)) ∧
  ∀ r j, r ∈ running → run_job jobs r = Some j → state j ≠ JobState.Preempted.

Lemma allowed_spec head running jobs config : may_preempt head running jobs config ↔ allowed head running jobs config.
Proof. unfold may_preempt, allowed. rewrite <-in_flight_spec. naive_solver. Qed.

(** C39: A preemption plan is sound, minimal and the best.  Planning never panics.
    When it names a slot, preemption was allowed, and the evictions returned are
    exactly the first entries of the running set that may be evicted from that
    slot ([Running], of a lower class than the head, below the eviction cap), in
    order of class, then of latest start, then of dispatch; the head did not fit
    there, fits once they are gone, and would not with the last of them spared;
    and on any other slot, the first entries in its own order that make the head
    fit are more, or as many and no cheaper in lost runtime.  When it names none,
    nothing was returned, and preemption was not allowed or no collection of such
    entries of any slot makes the head fit where it did not. *)
Theorem preemption_plan_correct head running jobs inv now config out :
  Resources_wf (request head) → running_ok running → Inventory_wf inv →
  ∃ evs o, plan_preemption head running jobs inv now config out = Done (out ++ evs, o) ∧
  match o with
  | Some slot => allowed head running jobs config ∧ ∃ victims spared,
      evs = (fun r => MkEviction (rj_job r) slot) <$> victims ∧
      eviction_order head running jobs config slot (victims ++ spared) ∧
      makes_room head inv slot victims ∧
      (∀ k, (k < length victims)%nat → ¬ makes_room head inv slot (take k victims)) ∧
      ∀ i vs rest, eviction_order head running jobs config i (vs ++ rest) → makes_room head inv i vs →
        cheaper_eq (length victims, lost_runtime jobs now victims) (length vs, lost_runtime jobs now vs)
  | None => evs = [] ∧
      (¬ allowed head running jobs config ∨
       ∀ slot vs, vs ⊆+ running → Forall (eligible head jobs config slot) vs → ¬ makes_room head inv slot vs)
  end.
Proof.
  intros Hh Hrun Hwf.
  destruct (plan_preemption_spec head running jobs inv now config out Hh Hrun Hwf) as (evs & o & E & Ho). exists evs, o. split; [done|].
  destruct o as [slot|].
  - destruct Ho as (Hal%allowed_spec & _ & Hfr & Hev & lost & Hp & Hbest). split; [done|].
    pose proof (slot_plan_lost _ _ _ _ _ _ _ _ _ _ Hp) as El. set (n := length evs) in *.
    apply frees_makes_room in Hfr as (Hn & Hroom & Hmin).
    assert (length (take n (victim_entries head running jobs config slot)) = n) as Hlen by (rewrite length_take; lia).
    exists (take n (victim_entries head running jobs config slot)), (drop n (victim_entries head running jobs config slot)).
    rewrite Hlen, take_drop. split_and!.
    + rewrite Hev, victim_entries_victims, <-fmap_take. change (map ?f ?l) with (f <$> l). rewrite <-list_fmap_compose.
      apply list_fmap_ext. intros _ r _. cbn. unfold as_victim. by destruct (run_job jobs r).
    + apply victim_entries_order.
    + done.
    + intros k Hk. rewrite take_take, Nat.min_l by lia. by apply Hmin.
    + intros i vs rest Hord Hi. rewrite <-El. pose proof (eviction_order_unique _ _ _ _ _ _ _ (victim_entries_order head running jobs config i) Hord) as Ei.
      apply (plan_cheapest head running jobs inv now config Hh Hrun i vs rest _ Ei Hi). intros n' lost' vs' Hp'. by eapply Hbest.
  - destruct Ho as [-> Ho]. split; [done|]. destruct Ho as [Ho|Ho]; [left; by rewrite <-allowed_spec|right].
    intros slot vs Hsub Hel (s & Hs & Hc & Hf & Hle). 
    destruct (first_room head running jobs inv config slot) as [n Hn]; [|by apply (Ho slot n)].
    exists s. split_and!; try done. pose proof (eligible_sum head running jobs config slot vs Hrun Hsub Hel) as Hsum.
    clear -Hle Hsum. unfold Resources_le, Resources_plus in *. cbn in *. lia.
Qed.

(** An urgent head needs 800; slot 0 runs two evictable jobs, slot 1 one. *)
Definition demo_victim_job (c : PriorityClass) (cpu : Z) (s : JobState) : Job :=
  MkJob 1 c 0 (MkResources cpu 0 0) 1000 [] [] s 0.

Definition demo_preempt_jobs : Arena Job :=
  MkArena [Slot.Occupied 0 (demo_victim_job PriorityClass.Low 500 JobState.Running);
           Slot.Occupied 0 (demo_victim_job PriorityClass.Normal 500 JobState.Running);
           Slot.Occupied 0 (demo_victim_job PriorityClass.Normal 900 JobState.Running)] None 3.

Definition demo_preempt_running : list RunningJob :=
  [MkRunningJob 0 0 (MkResources 500 0 0) 2000; MkRunningJob 1 0 (MkResources 500 0 0) 1800;
   MkRunningJob 2 1 (MkResources 900 0 0) 1500].

Definition demo_preempt_inventory : SlotInventory :=
  MkSlotInventory [MkWorkerSlot (MkResources 1000 0 0) (MkResources 1000 0 0);
                   MkWorkerSlot (MkResources 1000 0 0) (MkResources 900 0 0)] (MkResources 1000 0 0).

Definition demo_preempt_config : PreemptConfig := MkPreemptConfig (Some PriorityClass.High) 3 5.

Lemma preemption_plan_correct_witness :
  let head := demo_victim_job PriorityClass.Urgent 800 JobState.Ready in
  let run := MkRunningJob 2 1 (MkResources 900 0 0) 1500 in
  plan_preemption head demo_preempt_running demo_preempt_jobs demo_preempt_inventory 1600 demo_preempt_config [] =
    Done ([MkEviction 2 1], Some 1) ∧
  makes_room head demo_preempt_inventory 1 [run] ∧ ¬ makes_room head demo_preempt_inventory 1 [] ∧
  eviction_order head demo_preempt_running demo_preempt_jobs demo_preempt_config 1 [run] ∧
  ∀ i vs rest, eviction_order head demo_preempt_running demo_preempt_jobs demo_preempt_config i (vs ++ rest) →
    makes_room head demo_preempt_inventory i vs → cheaper_eq (1%nat, 1100) (length vs, lost_runtime demo_preempt_jobs 1600 vs).
Proof.
  intros head run.
  destruct (preemption_plan_correct head demo_preempt_running demo_preempt_jobs demo_preempt_inventory 1600 demo_preempt_config [])
    as (evs & o & E & Ho); [res_crush| | |].
  - repeat constructor; simpl; lia.
  - split; [done|]. intros i s [_ H]%vec_get_Some. simpl in H. destruct (Z.to_nat i) as [|[|n]]; simplify_eq/=; res_crush.
  - assert (plan_preemption head demo_preempt_running demo_preempt_jobs demo_preempt_inventory 1600 demo_preempt_config [] =
      Done ([MkEviction 2 1], Some 1)) as E1 by (by vm_compute).
    split; [exact E1|]. rewrite E1 in E. injection E as <- <-. destruct Ho as (_ & victims & spared & Ev & Hord & Hroom & Hmin & Hbest).
    pose proof (eviction_order_unique _ _ _ _ _ _ _ (victim_entries_order head demo_preempt_running demo_preempt_jobs demo_preempt_config 1) Hord) as Eu.
    assert (victim_entries head demo_preempt_running demo_preempt_jobs demo_preempt_config 1 = [run]) as Es by (by vm_compute).
    rewrite Es in Eu. destruct victims as [|v victims]; [done|]. injection Eu as <- Eu. destruct victims, spared; try done.
    split; [exact Hroom|]. split; [exact (Hmin 0%nat ltac:(cbn; lia))|]. split; [exact Hord|]. exact Hbest.
Defined.
