(* ===== verification/Scheduler.v ===== *)
(** * Lifecycle calls

    The part of [crates/tasker-core/src/engine/cycle.rs] that moves single
    jobs: submission, completion, failure, cancellation, preemption, requeue.
    The scheduler's components are tied together by one invariant: the ready
    set holds exactly the [Ready] jobs, and a job is [Blocked] exactly while
    the tracker still counts an edge against it.  The scratch buffers of
    [Scheduler] are overwritten by every cycle and are not part of the state
    here. *)

From stdpp Require Import base list numbers option sorting sets relations.
From Stdlib Require Import ZArith Lia.
From S2P Require Import Prelude Domain Arena Job Inventory Priority ReadySet Eligibility.
From S2P Require Import Decay FairShare Pack Backfill Preempt.
Open Scope Z_scope.

Record CycleConfig : Type := MkCycleConfig {
  cc_priority : PriorityConfig;
  cc_fairshare : FairShareConfig;
  cc_preempt : PreemptConfig;
  cc_budget : PackBudget;
  max_candidates : Z;
}.

Module LifecycleError.
Inductive LifecycleError : Type :=
| UnknownJob (id : JobId)
| NotSubmitted (job : JobId) (state : JobState)
| Dependency (e : DependencyError)
| Account (e : AccountError)
| Transition (e : TransitionError).
End LifecycleError.
Abbreviation LifecycleError := LifecycleError.LifecycleError.

Record Scheduler : Type := MkScheduler {
  sc_ready : ReadySet;
  sc_deps : DependencyTracker;
  sc_fairshare : FairShare;
}.

Definition Scheduler_new : Scheduler := MkScheduler ready_new Tracker_new FairShare_new.

Definition Scheduler_with_slots (slots : Z) : Scheduler :=
  MkScheduler (ready_reserve_slots ready_new slots) (tracker_reserve_slots Tracker_new slots)
              FairShare_new.

Definition pending (s : Scheduler) : nat := ready_len (sc_ready s).

Definition withdraw (s : Scheduler) (class : PriorityClass) (id : JobId)
  : exec (Scheduler * bool) :=
  let! '(ready, b) := ready_remove (sc_ready s) class id in
  Done (MkScheduler ready (sc_deps s) (sc_fairshare s), b).

(** What every lifecycle call returns: the scheduler, the arena it was lent,
    and its result. *)
Abbreviation outcome A := (Scheduler * Arena Job * result A LifecycleError)%type.

Definition scheduler_set_shares (s : Scheduler) (account : AccountId) (n : Z)
  : exec (Scheduler * result unit LifecycleError) :=
  let! '(fs, r) := set_shares (sc_fairshare s) account n in
  let s := MkScheduler (sc_ready s) (sc_deps s) fs in
  match r with
  | Ok _ => Done (s, Ok tt)
  | Err e => Done (s, Err (LifecycleError.Account e))
  end.

Definition check_submit (id : JobId) (job : Job) (jobs : Arena Job)
  : result Readiness LifecycleError :=
  if MAX_ACCOUNTS <=? account job
  then Err (LifecycleError.Account (MkAccountError (account job)))
  else
    match classify id job jobs with
    | Ok r => Ok r
    | Err e => Err (LifecycleError.Dependency e)
    end.

(** The score of a job at [now], with its account's current factor. *)
Definition score_now (fs : FairShare) (job : Job) (now : VirtualTime) (config : CycleConfig) : Score :=
  score job now (cc_priority config) (fairshare_factor fs (account job)).

Definition restore_running (s : Scheduler) (id : JobId) (jobs : Arena Job) (now : VirtualTime)
    (config : CycleConfig) : exec (outcome unit) :=
  match Arena_get jobs id with
  | None => Done (s, jobs, Err (LifecycleError.UnknownJob id))
  | Some job =>
      let! '(ready, _) := ready_remove (sc_ready s) (priority_class job) id in
      let s := MkScheduler ready (sc_deps s) (sc_fairshare s) in
      match try_transition job JobState.Running with
      | Err e => Done (s, jobs, Err (LifecycleError.Transition e))
      | Ok job =>
          let jobs := Arena_set jobs id job in
          let! fs := on_dispatch (sc_fairshare s) (account job) (cpu_millis (request job)) now
                                 (cc_fairshare config) in
          Done (MkScheduler (sc_ready s) (sc_deps s) fs, jobs, Ok tt)
      end
  end.

Definition preempt (s : Scheduler) (id : JobId) (jobs : Arena Job) : outcome unit :=
  match Arena_get jobs id with
  | None => (s, jobs, Err (LifecycleError.UnknownJob id))
  | Some job =>
      match try_transition job JobState.Preempted with
      | Err e => (s, jobs, Err (LifecycleError.Transition e))
      | Ok job => (s, Arena_set jobs id job, Ok tt)
      end
  end.

(** [requeue]: a [Running] job steps through [Preempted]. *)
Definition requeue (s : Scheduler) (id : JobId) (jobs : Arena Job) (now : VirtualTime)
    (config : CycleConfig) : exec (outcome unit) :=
  match Arena_get jobs id with
  | None => Done (s, jobs, Err (LifecycleError.UnknownJob id))
  | Some job =>
      let evicted :=
        if bool_decide (state job = JobState.Running)
        then try_transition job JobState.Preempted else Ok job in
      match evicted with
      | Err e => Done (s, jobs, Err (LifecycleError.Transition e))
      | Ok job =>
          let jobs := Arena_set jobs id job in
          match try_transition job JobState.Ready with
          | Err e => Done (s, jobs, Err (LifecycleError.Transition e))
          | Ok job =>
              let jobs := Arena_set jobs id job in
              let! fs := on_release (sc_fairshare s) (account job) (cpu_millis (request job)) now
                                    (cc_fairshare config) in
              let! ready := ready_insert (sc_ready s) (priority_class job) id
                                         (score_now fs job now config) in
              Done (MkScheduler ready (sc_deps s) fs, jobs, Ok tt)
          end
      end
  end.

Definition on_preempted (s : Scheduler) (id : JobId) (jobs : Arena Job) (now : VirtualTime)
    (config : CycleConfig) : exec (outcome unit) :=
  match Arena_get jobs id with
  | None => Done (s, jobs, Err (LifecycleError.UnknownJob id))
  | Some job =>
      if negb (bool_decide (state job = JobState.Preempted))
      then Done (s, jobs, Err (LifecycleError.Transition (MkTransitionError (state job) JobState.Ready)))
      else
        let job := job_with_preemptions job (sat_add u8_max (preemptions job) 1) in
        requeue s id (Arena_set jobs id job) now config
  end.

Definition restore_ledgers (s : Scheduler) (ls : list Ledger)
  : Scheduler * result unit LifecycleError :=
  match fairshare_restore (sc_fairshare s) ls with
  | (fs, Ok _) => (MkScheduler (sc_ready s) (sc_deps s) fs, Ok tt)
  | (fs, Err e) => (MkScheduler (sc_ready s) (sc_deps s) fs, Err (LifecycleError.Account e))
  end.

Definition readiness_state (r : Readiness) : JobState :=
  match r with
  | Readiness.Ready => JobState.Ready
  | Readiness.Blocked => JobState.Blocked
  | Readiness.Cancelled => JobState.Cancelled
  end.

Definition submit (s : Scheduler) (id : JobId) (jobs : Arena Job) (now : VirtualTime)
    (config : CycleConfig) : exec (outcome JobState) :=
  match Arena_get jobs id with
  | None => Done (s, jobs, Err (LifecycleError.UnknownJob id))
  | Some job =>
      if negb (bool_decide (state job = JobState.Submitted))
      then Done (s, jobs, Err (LifecycleError.NotSubmitted id (state job)))
      else
        match ensure (sc_fairshare s) (account job) with
        | (fs, Err e) =>
            Done (MkScheduler (sc_ready s) (sc_deps s) fs, jobs, Err (LifecycleError.Account e))
        | (fs, Ok _) =>
            let! '(deps, readiness) := register (sc_deps s) id job jobs in
            match readiness with
            | Err e =>
                Done (MkScheduler (sc_ready s) deps fs, jobs, Err (LifecycleError.Dependency e))
            | Ok readiness =>
                let next := readiness_state readiness in
                let! job := expect (Arena_get jobs id) in
                match try_transition job next with
                | Err e =>
                    Done (MkScheduler (sc_ready s) deps fs, jobs, Err (LifecycleError.Transition e))
                | Ok job =>
                    let jobs := Arena_set jobs id job in
                    let! ready :=
                      (if bool_decide (next = JobState.Ready)
                       then ready_insert (sc_ready s) (priority_class job) id
                                         (score_now fs job now config)
                       else Done (sc_ready s)) in
                    Done (MkScheduler ready deps fs, jobs, Ok next)
                end
            end
        end
  end.

(** One promoted dependent of [on_completed]. *)
Definition promote (fs : FairShare) (now : VirtualTime) (config : CycleConfig)
    (acc : ReadySet * Arena Job) (dependent : JobId) : exec (ReadySet * Arena Job) :=
  let '(ready, jobs) := acc in
  match Arena_get jobs dependent with
  | None => Done (ready, jobs)
  | Some job =>
      match try_transition job JobState.Ready with
      | Err _ => Done (ready, jobs)
      | Ok job =>
          let! ready := ready_insert ready (priority_class job) dependent (score_now fs job now config) in
          Done (ready, Arena_set jobs dependent job)
      end
  end.

Definition on_completed (s : Scheduler) (id : JobId) (jobs : Arena Job) (now : VirtualTime)
    (config : CycleConfig) : exec (outcome (list JobId)) :=
  match Arena_get jobs id with
  | None => Done (s, jobs, Err (LifecycleError.UnknownJob id))
  | Some job =>
      match try_transition job JobState.Completed with
      | Err e => Done (s, jobs, Err (LifecycleError.Transition e))
      | Ok job =>
          let jobs := Arena_set jobs id job in
          let! fs := on_release (sc_fairshare s) (account job) (cpu_millis (request job)) now
                                (cc_fairshare config) in
          let! '(deps, promoted) := tracker_on_completed (sc_deps s) id [] in
          let! '(ready, jobs) := exec_fold (promote fs now config) (sc_ready s, jobs) promoted in
          Done (MkScheduler ready deps fs, jobs, Ok promoted)
      end
  end.

(** One dependent of [apply_cascade]; a refused transition is ignored. *)
Definition cascade_one (acc : ReadySet * Arena Job) (dependent : JobId)
  : exec (ReadySet * Arena Job) :=
  let '(ready, jobs) := acc in
  match Arena_get jobs dependent with
  | None => Done (ready, jobs)
  | Some job =>
      let! ready :=
        (if bool_decide (state job = JobState.Ready)
         then let! '(ready, _) := ready_remove ready (priority_class job) dependent in Done ready
         else Done ready) in
      match try_transition job JobState.Cancelled with
      | Ok job => Done (ready, Arena_set jobs dependent job)
      | Err _ => Done (ready, jobs)
      end
  end.

Definition apply_cascade (ready : ReadySet) (jobs : Arena Job) (cancelled : list JobId)
  : exec (ReadySet * Arena Job) :=
  exec_fold cascade_one (ready, jobs) cancelled.

Definition on_failed (s : Scheduler) (id : JobId) (jobs : Arena Job) (now : VirtualTime)
    (config : CycleConfig) : exec (outcome (list JobId)) :=
  match Arena_get jobs id with
  | None => Done (s, jobs, Err (LifecycleError.UnknownJob id))
  | Some job =>
      match try_transition job JobState.Failed with
      | Err e => Done (s, jobs, Err (LifecycleError.Transition e))
      | Ok job =>
          let jobs := Arena_set jobs id job in
          let! fs := on_release (sc_fairshare s) (account job) (cpu_millis (request job)) now
                                (cc_fairshare config) in
          let! '(deps, cancelled) := tracker_on_terminated (sc_deps s) id [] in
          let! '(ready, jobs) := apply_cascade (sc_ready s) jobs cancelled in
          Done (MkScheduler ready deps fs, jobs, Ok cancelled)
      end
  end.

Definition cancel (s : Scheduler) (id : JobId) (jobs : Arena Job) (now : VirtualTime)
    (config : CycleConfig) : exec (outcome (list JobId)) :=
  match Arena_get jobs id with
  | None => Done (s, jobs, Err (LifecycleError.UnknownJob id))
  | Some job =>
      let! ready :=
        (if bool_decide (state job = JobState.Ready)
         then let! '(ready, _) := ready_remove (sc_ready s) (priority_class job) id in Done ready
         else Done (sc_ready s)) in
      let was_running := occupies_slot (state job) in
      match try_transition job JobState.Cancelled with
      | Err e =>
          Done (MkScheduler ready (sc_deps s) (sc_fairshare s), jobs, Err (LifecycleError.Transition e))
      | Ok job =>
          let jobs := Arena_set jobs id job in
          let! fs :=
            (if was_running
             then on_release (sc_fairshare s) (account job) (cpu_millis (request job)) now
                             (cc_fairshare config)
             else Done (sc_fairshare s)) in
          let! '(deps, cancelled) := tracker_on_terminated (sc_deps s) id [] in
          let! '(ready, jobs) := apply_cascade ready jobs cancelled in
          Done (MkScheduler ready deps fs, jobs, Ok cancelled)
      end
  end.

(** ** The invariant *)

Definition job_state (jobs : Arena Job) (x : JobId) : option JobState := state <$> Arena_get jobs x.

(** The tracker agrees with the arena: a job is [Blocked] exactly while some
    edge still points at it. *)
Record deps_ok (t : DependencyTracker) (jobs : Arena Job) : Prop := {
  do_wf : Tracker_wf t;
  do_arena : tracker_arena t jobs;
  do_blocked : ∀ x, job_state jobs x = Some JobState.Blocked ↔ tracked t x ∧ 0 < edge_count t x;
}.

(** The ready set holds exactly the [Ready] jobs, each once, in its class. *)
Record ready_ok (rs : ReadySet) (jobs : Arena Job) (E : list ReadyEntry) : Prop := {
  ro_holds : ready_holds rs E;
  ro_nodup : NoDup (re_job <$> E);
  ro_sound : ∀ e, e ∈ E → ∃ j, Arena_get jobs (re_job e) = Some j ∧
    state j = JobState.Ready ∧ priority_class j = re_class e;
  ro_complete : ∀ x, job_state jobs x = Some JobState.Ready → x ∈ re_job <$> E;
}.

(** The arena holds well-formed jobs, fewer than [u32::MAX] slots of them. *)
Record jobs_ok (jobs : Arena Job) : Prop := {
  jo_arena : Arena_wf jobs;
  jo_slots : Z.of_nat (length (slots jobs)) <= u32_max;
  jo_jobs : ∀ x j, Arena_get jobs x = Some j →
    Job_wf j ∧ Z.of_nat (length (deps j)) <= u32_max;
}.

Record Sched_inv (s : Scheduler) (jobs : Arena Job) : Prop := {
  si_jobs : jobs_ok jobs;
  si_deps : deps_ok (sc_deps s) jobs;
  si_ready : ∃ E, ready_ok (sc_ready s) jobs E;
  si_fs : FairShare_wf (sc_fairshare s);
}.

Definition config_ok (config : CycleConfig) : Prop := is_u64 (half_life (cc_fairshare config)).

Lemma is_pending_state jobs x :
  is_pending jobs x = match job_state jobs x with Some st => negb (is_terminal st) | None => false end.
Proof. unfold is_pending, job_state. by destruct (Arena_get jobs x). Qed.

(** One job rewritten in place. *)
Lemma job_state_set jobs id j j' x :
  Arena_get jobs id = Some j →
  job_state (Arena_set jobs id j') x = if decide (id = x) then Some (state j') else job_state jobs x.
Proof. intros Hj. unfold job_state. rewrite (Arena_set_get _ _ _ _ _ Hj). by case_decide. Qed.

Lemma length_slots_set {T} (a : Arena T) id v : length (slots (Arena_set a id v)) = length (slots a).
Proof.
  unfold Arena_set. destruct (vec_get _ _) as [[g w|g nx]|]; [|done..].
  destruct (g =? _); [|done]. simpl. by rewrite length_insert.
Qed.

Lemma jobs_ok_set jobs id j j' :
  jobs_ok jobs → Arena_get jobs id = Some j → Job_wf j' → deps j' = deps j →
  jobs_ok (Arena_set jobs id j').
Proof.
  intros [H1 H2 H3] Hj Hwf Hd. split.
  - by apply Arena_set_wf.
  - by rewrite length_slots_set.
  - intros x jx. rewrite (Arena_set_get _ _ _ _ _ Hj). case_decide; [|apply H3].
    intros [= <-]. split; [done|]. rewrite Hd. by apply (H3 _ _ Hj).
Qed.

(** Two live handles at one index are the same handle. *)
Lemma Arena_index_inj {T} (a : Arena T) x y v w :
  Arena_get a x = Some v → Arena_get a y = Some w → JobId_index x = JobId_index y → x = y.
Proof.
  intros Hx%Arena_get_Some Hy%Arena_get_Some E. apply JobId_ext; [done|]. rewrite E in Hx. congruence.
Qed.

(** Distinct live handles are no more than the slots. *)
Lemma live_handles_bound {T} (a : Arena T) (l : list JobId) :
  NoDup l → (∀ x, x ∈ l → ∃ v, Arena_get a x = Some v) → (length l <= length (slots a))%nat.
Proof.
  intros Hnd Hlive. rewrite <-(length_fmap (fun x => Z.to_nat (JobId_index x))).
  rewrite <-(length_seq (length (slots a)) 0). apply submseteq_length, NoDup_submseteq.
  - apply NoDup_fmap_2_strong; [|done]. intros x y Hx Hy E.
    destruct (Hlive x Hx) as [v Hv], (Hlive y Hy) as [w Hw].
    eapply Arena_index_inj; [done..|]. pose proof (JobId_index_range x). pose proof (JobId_index_range y). lia.
  - intros k (x & -> & Hx)%list_elem_of_fmap. destruct (Hlive x Hx) as [v Hv%Arena_get_Some%vec_get_range].
    apply elem_of_seq. lia.
Qed.

(** *** The ready set under a change of one job *)

Section ReadyOps.
Context (rs : ReadySet) (jobs : Arena Job) (E : list ReadyEntry).
Hypothesis Hro : ready_ok rs jobs E.

Lemma ready_ok_member x :
  x ∈ re_job <$> E ↔ job_state jobs x = Some JobState.Ready.
Proof.
  split; [|apply Hro]. intros (e & -> & He)%list_elem_of_fmap.
  destruct (ro_sound _ _ _ Hro e He) as (j & Hj & Hs & _). unfold job_state. rewrite Hj. simpl. by f_equal.
Qed.

Lemma ready_ok_insert id j j' sc :
  jobs_ok jobs → Arena_get jobs id = Some j → state j ≠ JobState.Ready →
  state j' = JobState.Ready → priority_class j' = priority_class j →
  ∃ rs', ready_insert rs (priority_class j') id sc = Done rs' ∧
    ready_ok rs' (Arena_set jobs id j') (MkReadyEntry (priority_class j') id sc :: E).
Proof.
  intros Hok Hj Hns Hs' Hc.
  assert (id ∉ re_job <$> E) as Hnin.
  { rewrite ready_ok_member. unfold job_state. rewrite Hj. simpl. congruence. }
  destruct (ready_insert_holds rs E (priority_class j') id sc) as (rs' & Ei & Hh); [apply Hro|..].
  - intros e He _ Ee. apply Hnin. destruct (ro_sound _ _ _ Hro e He) as (je & Hje & _).
    assert (re_job e = id) as <- by (by eapply Arena_index_inj).
    apply list_elem_of_fmap. by exists e.
  - pose proof (live_handles_bound jobs (id :: (re_job <$> E))) as Hb. simpl in Hb. rewrite length_fmap in Hb.
    pose proof (jo_slots _ Hok). enough (S (length E) <= length (slots jobs))%nat by lia. apply Hb.
    + constructor; [done|apply Hro].
    + intros x [->|(e & -> & He)%list_elem_of_fmap]%elem_of_cons; [eauto|].
      destruct (ro_sound _ _ _ Hro e He) as (je & Hje & _). eauto.
  - exists rs'. split; [done|]. split; [done|constructor; [done|apply Hro]|..].
    + intros e [->|He]%elem_of_cons; simpl.
      * exists j'. by rewrite (Arena_set_get _ _ _ _ _ Hj), decide_True.
      * destruct (ro_sound _ _ _ Hro e He) as (je & Hje & ?). exists je.
        rewrite (Arena_set_get _ _ _ _ _ Hj), decide_False; [done|]. intros ->. apply Hnin.
        apply list_elem_of_fmap. by exists e.
    + intros x. rewrite (job_state_set _ _ _ _ _ Hj). simpl. case_decide as Ex.
      * subst. intros _. by left.
      * intros Hx. right. by apply Hro.
Qed.

Lemma ready_ok_remove id j j' :
  Arena_get jobs id = Some j → state j = JobState.Ready → state j' ≠ JobState.Ready →
  ∃ rs' sc E', ready_remove rs (priority_class j) id = Done (rs', true) ∧
    E ≡ₚ MkReadyEntry (priority_class j) id sc :: E' ∧ ready_ok rs' (Arena_set jobs id j') E'.
Proof.
  intros Hj Hs Hs'. assert (id ∈ re_job <$> E) as Hin.
  { rewrite ready_ok_member. unfold job_state. rewrite Hj. simpl. by f_equal. }
  apply list_elem_of_fmap in Hin as (e & -> & He).
  destruct (ro_sound _ _ _ Hro e He) as (j0 & Hj0 & _ & Hc0). rewrite Hj in Hj0. injection Hj0 as <-.
  destruct (ready_remove_holds rs E (priority_class j) (re_job e)) as (rs' & b & E' & Er & Hh & Hb);
    [apply Hro|]. destruct b.
  2:{ destruct Hb as [_ Hn]. destruct (Hn (re_score e)). rewrite Hc0. by destruct e. }
  destruct Hb as [sc HE]. exists rs', sc, E'. split; [done|]. split; [done|].
  pose proof (ro_nodup _ _ _ Hro) as Hnd. rewrite HE in Hnd. simpl in Hnd. apply NoDup_cons in Hnd as [Hnin Hnd].
  split; [done|done|..].
  - intros e' He'. destruct (ro_sound _ _ _ Hro e') as (je & Hje & ?); [rewrite HE; by right|]. exists je.
    rewrite (Arena_set_get _ _ _ _ _ Hj), decide_False; [done|]. intros Ee. apply Hnin.
    apply list_elem_of_fmap. by exists e'.
  - intros x. rewrite (job_state_set _ _ _ _ _ Hj). case_decide as Ex; [congruence|].
    intros Hx%(ro_complete _ _ _ Hro). rewrite HE in Hx. simpl in Hx.
    apply elem_of_cons in Hx as [->|?]; done.
Qed.

Lemma ready_ok_other id j j' :
  Arena_get jobs id = Some j → state j ≠ JobState.Ready → state j' ≠ JobState.Ready →
  ready_ok rs (Arena_set jobs id j') E.
Proof.
  intros Hj Hs Hs'. split; [apply Hro|apply Hro|..].
  - intros e He. destruct (ro_sound _ _ _ Hro e He) as (je & Hje & Hst & ?). exists je.
    rewrite (Arena_set_get _ _ _ _ _ Hj), decide_False; [done|]. intros ->. congruence.
  - intros x. rewrite (job_state_set _ _ _ _ _ Hj). case_decide; [congruence|]. apply Hro.
Qed.

Lemma ready_ok_absent id j :
  Arena_get jobs id = Some j → state j ≠ JobState.Ready →
  ∃ rs', ready_remove rs (priority_class j) id = Done (rs', false) ∧ ready_ok rs' jobs E.
Proof.
  intros Hj Hs. destruct (ready_remove_holds rs E (priority_class j) id) as (rs' & b & E' & Er & Hh & Hb);
    [apply Hro|]. destruct b.
  - destruct Hb as [sc HE]. exfalso. destruct (ro_sound _ _ _ Hro (MkReadyEntry (priority_class j) id sc))
      as (j0 & Hj0 & ? & _); [rewrite HE; by left|]. simpl in Hj0. congruence.
  - destruct Hb as [-> _]. exists rs'. split; [done|]. split; [done|apply Hro..].
Qed.
End ReadyOps.

(** *** The tracker under changes of state *)

Lemma deps_ok_sentinel t jobs : deps_ok t jobs → is_pending jobs NO_OWNER = false.
Proof. intros H. apply (ta_sentinel _ _ (do_arena _ _ H)). Qed.

(** A live, unfinished job is not the sentinel. *)
Lemma pending_id t jobs id : deps_ok t jobs → is_pending jobs id = true → id ≠ NO_OWNER.
Proof. intros H Hp ->. by rewrite (deps_ok_sentinel _ _ H) in Hp. Qed.

Lemma deps_ok_move t jobs id j j' :
  deps_ok t jobs → Arena_get jobs id = Some j →
  is_terminal (state j) = false → is_terminal (state j') = false →
  state j ≠ JobState.Blocked → state j' ≠ JobState.Blocked →
  deps_ok t (Arena_set jobs id j').
Proof.
  intros [Hwf Ha Hb] Hj Ht Ht' Hn Hn'.
  assert (∀ x, is_pending (Arena_set jobs id j') x = is_pending jobs x) as Hp.
  { intros x. rewrite !is_pending_state, (job_state_set _ _ _ _ _ Hj). case_decide; [|done]. subst.
    unfold job_state. rewrite Hj. simpl. by rewrite Ht, Ht'. }
  split; [done|..].
  - destruct Ha as [H1 H2 H3]. split; intros; rewrite ?Hp in *; auto.
  - intros x. rewrite (job_state_set _ _ _ _ _ Hj), <-Hb. case_decide; [|done]. subst.
    unfold job_state. rewrite Hj. simpl. split; intros [=]; congruence.
Qed.

(** Completion: [id] is finished and exactly the fired dependents left [Blocked]. *)
Lemma deps_ok_completed t jobs id :
  deps_ok t jobs → is_pending jobs id = true → job_state jobs id ≠ Some JobState.Blocked →
  ∃ t' fired, tracker_on_completed t id [] = Done (t', fired) ∧ NoDup fired ∧
    (∀ x, x ∈ fired ↔ dep_edge t id x ∧ edge_count t x = count_id x (deps_of t id)) ∧
    (∀ x, x ∈ fired → job_state jobs x = Some JobState.Blocked ∧ x ≠ id) ∧
    ∀ jobs', (∀ x, job_state jobs' x = if decide (x = id) then Some JobState.Completed
                                       else if decide (x ∈ fired) then Some JobState.Ready
                                       else job_state jobs x) → deps_ok t' jobs'.
Proof.
  intros Hok Hp Hnb. pose proof Hok as [Hwf [Hlive Hedges Hsent] Hblk].
  destruct (tracker_on_completed_spec t id [] Hwf) as (t' & fired & E & Hwf' & Hnd & Hf & Htr & He & Hun);
    [by eapply pending_id|]. exists t', fired. split; [done|]. split; [done|].
  split; [intros x; rewrite Hf; unfold dep_edge; tauto|].
  assert (∀ x, x ∈ fired → job_state jobs x = Some JobState.Blocked ∧ x ≠ id) as Hfb.
  { intros x (_ & Htx & Hin & _)%Hf. assert (job_state jobs x = Some JobState.Blocked) as Hx.
    { apply Hblk. split; [done|]. unfold edge_count. rewrite <-count_id_elem. by eapply deps_of_edges. }
    split; [done|]. by intros ->. }
  split; [done|]. intros jobs' Hst.
  assert (∀ x, edge_count t' x <= edge_count t x) as Hle.
  { intros x. destruct (decide (tracked t id)) as [Hid|Hid]; [|by rewrite (Hun Hid)].
    rewrite He by done. pose proof (count_id_nonneg x (deps_of t id)). lia. }
  assert (∀ x, tracked t x → x ≠ id → x ∉ fired → 0 < edge_count t x → 0 < edge_count t' x) as Hstay.
  { intros x Hx Hne Hnf Hc. destruct (decide (tracked t id)) as [Hid|Hid]; [|by rewrite (Hun Hid)].
    rewrite He by done. pose proof (count_deps_le t id x). pose proof (count_id_nonneg x (deps_of t id)).
    destruct (decide (edge_count t x = count_id x (deps_of t id))) as [Eq|]; [|lia].
    destruct Hnf. apply Hf. split; [done|]. split; [done|]. split; [|done]. apply count_id_elem. lia. }
  split; [done|split|].
  - intros x [Hx Hne]%Htr. apply Hlive in Hx. rewrite is_pending_state in Hx |- *. rewrite Hst.
    rewrite decide_False by done. by case_decide.
  - intros x Hx Hpx. apply Htr. rewrite is_pending_state, Hst in Hpx.
    destruct (decide (x = id)); [done|]. split; [|done]. destruct (decide (x ∈ fired)) as [Hin|].
    + by apply Hf in Hin as (_ & ? & _).
    + apply Hedges; [|by rewrite is_pending_state]. rewrite count_id_elem in Hx |- *.
      fold (edge_count t' x) in Hx. fold (edge_count t x). specialize (Hle x). lia.
  - rewrite is_pending_state, Hst. rewrite is_pending_state in Hsent, Hp.
    destruct (decide (NO_OWNER = id)) as [<-|]; [done|]. destruct (decide (NO_OWNER ∈ fired)) as [Hin|]; [|done].
    apply Hf in Hin as (_ & [? _] & _). done.
  - intros x. rewrite Hst, Htr. destruct (decide (x = id)); [naive_solver|].
    destruct (decide (x ∈ fired)) as [Hin|Hnin].
    + split; [done|]. intros [_ Hc]. apply Hf in Hin as (Hid & _ & _ & Eq). rewrite He in Hc by done. lia.
    + rewrite Hblk. split; intros [? ?]; [|by specialize (Hle x); naive_solver lia].
      split; [done|]. by apply Hstay.
Qed.

(** What terminating [id] reaches, apart from itself, is [Blocked]. *)
Lemma cascade_blocked t jobs id x :
  deps_ok t jobs → rtc (dep_edge t) id x → x ≠ id → job_state jobs x = Some JobState.Blocked.
Proof.
  intros [Hwf _ Hblk] Hr Hne. apply rtc_inv_r in Hr as [->|(y & _ & _ & Hx & Hin)]; [done|].
  apply Hblk. split; [done|]. unfold edge_count. rewrite <-count_id_elem. by eapply deps_of_edges.
Qed.

(** Failure or cancellation: [id] and everything it reaches are finished. *)
Lemma deps_ok_terminated t jobs id st :
  deps_ok t jobs → is_pending jobs id = true → is_terminal st = true →
  ∃ t' C, tracker_on_terminated t id [] = Done (t', C) ∧ NoDup C ∧
    (∀ x, x ∈ C ↔ x ≠ id ∧ rtc (dep_edge t) id x) ∧
    (∀ x, x ∈ C → job_state jobs x = Some JobState.Blocked ∧ x ≠ id) ∧
    ∀ jobs', (∀ x, job_state jobs' x = if decide (x = id) then Some st
                                       else if decide (x ∈ C) then Some JobState.Cancelled
                                       else job_state jobs x) → deps_ok t' jobs'.
Proof.
  intros Hok Hp Hterm. pose proof Hok as [Hwf [Hlive Hedges Hsent] Hblk].
  destruct (tracker_on_terminated_spec t id [] Hwf) as (t' & C & E & Hwf' & Hnd & HC & Htr & Hle & Hkeep);
    [by eapply pending_id|]. exists t', C. do 2 (split; [done|]). split; [done|].
  split; [intros x [? ?]%HC; split; [by eapply cascade_blocked|done]|]. intros jobs' Hst.
  assert (∀ x, is_pending jobs' x = true → x ≠ id ∧ (x ∉ C) ∧ is_pending jobs x = true) as Hp'.
  { intros x. rewrite !is_pending_state, Hst. destruct (decide (x = id)); [by rewrite Hterm|].
    by destruct (decide (x ∈ C)). }
  split; [done|split|].
  - intros x [Hx Hnr]%Htr. apply Hlive in Hx. rewrite is_pending_state in Hx |- *. rewrite Hst.
    rewrite decide_False by (intros ->; by apply Hnr). rewrite decide_False; [done|].
    by intros [_ ?]%HC.
  - intros x Hx (Hne & HnC & Hpx)%Hp'. apply Htr. split.
    + apply Hedges; [|done]. rewrite count_id_elem in Hx |- *.
      fold (edge_count t' x) in Hx. fold (edge_count t x). specialize (Hle x). lia.
    + intros Hr. apply HnC, HC. done.
  - destruct (is_pending jobs' NO_OWNER) eqn:Ep; [|done]. apply Hp' in Ep as (_ & _ & ?). congruence.
  - intros x. rewrite Hst. split.
    + destruct (decide (x = id)); [intros [= ->]; done|]. destruct (decide (x ∈ C)) as [|HnC]; [done|].
      intros [Hx Hc]%Hblk. assert (tracked t' x) as Hx'.
      { apply Htr. split; [done|]. intros Hr. by apply HnC, HC. }
      split; [done|]. by rewrite Hkeep.
    + intros [Hx' Hc]. rewrite Hkeep in Hc by done. apply Htr in Hx' as [Hx Hnr].
      rewrite decide_False by (intros ->; by apply Hnr). rewrite decide_False by (by intros [_ ?]%HC).
      by apply Hblk.
Qed.

(** Registration of a fresh [Submitted] job. *)
Lemma deps_ok_registered t jobs id j t' st :
  deps_ok t jobs → Arena_get jobs id = Some j → state j = JobState.Submitted → ¬ tracked t id →
  registered t jobs id (deps j) t' →
  st = (if decide (0 < count_pending jobs (deps j)) then JobState.Blocked else JobState.Ready) →
  deps_ok t' (Arena_set jobs id (job_with_state j st)).
Proof.
  intros [Hwf Ha Hblk] Hj Hs Hnt [R1 [R2a R2b R2c] R3 _ R5 R6] Hst.
  assert (∀ x, is_pending (Arena_set jobs id (job_with_state j st)) x = is_pending jobs x) as Hp.
  { intros x. rewrite !is_pending_state, (job_state_set _ _ _ _ _ Hj). destruct (decide (id = x)); [|done]. subst x.
    unfold job_state. rewrite Hj. simpl. rewrite Hs, Hst. by case_decide. }
  split; [done|split; intros; rewrite ?Hp in *; auto|].
  intros x. rewrite (job_state_set _ _ _ _ _ Hj). destruct (decide (id = x)) as [Ex|Ex].
  - subst x. simpl. rewrite R6, Hst. destruct (decide (0 < _)); split.
    + intros _. split; [apply R3; tauto|done].
    + done.
    + done.
    + intros [_ ?]. done.
  - rewrite Hblk, R5 by done. split; intros [Hx Hc]; (split; [|done]).
    + apply R3. by left.
    + apply R3 in Hx as [?|[?|[_ Hpx]]]; [done|done|]. apply (ta_edges _ _ Ha); [|done].
      rewrite count_id_elem. done.
Qed.

(** A refused or doomed job leaves the tracker as it was. *)
Lemma deps_ok_doomed t jobs id j :
  deps_ok t jobs → Arena_get jobs id = Some j → state j = JobState.Submitted → ¬ tracked t id →
  deps_ok t (Arena_set jobs id (job_with_state j JobState.Cancelled)).
Proof.
  intros [Hwf [Ha1 Ha2 Ha3] Hblk] Hj Hs Hnt.
  assert (∀ x, is_pending (Arena_set jobs id (job_with_state j JobState.Cancelled)) x =
               if decide (id = x) then false else is_pending jobs x) as Hp.
  { intros x. rewrite !is_pending_state, (job_state_set _ _ _ _ _ Hj). by case_decide. }
  split; [done|split|].
  - intros x Hx. rewrite Hp, decide_False; [by apply Ha1|]. by intros ->.
  - intros x Hx. rewrite Hp. case_decide; [done|]. by apply Ha2.
  - rewrite Hp. by case_decide.
  - intros x. rewrite (job_state_set _ _ _ _ _ Hj). case_decide; [|apply Hblk]. subst. naive_solver.
Qed.

(** ** The loops over dependents *)

(** [jobs'] is [jobs] with the jobs of [l] moved to [st]. *)
Definition moved (jobs : Arena Job) (l : list JobId) (st : JobState) (jobs' : Arena Job) : Prop :=
  ∀ x, Arena_get jobs' x = if decide (x ∈ l) then (fun j => job_with_state j st) <$> Arena_get jobs x
                           else Arena_get jobs x.

Lemma moved_nil jobs st : moved jobs [] st jobs.
Proof. intros x. rewrite decide_False; [done|]. apply not_elem_of_nil. Qed.

Lemma moved_cons jobs d j l st jobs' :
  Arena_get jobs d = Some j → d ∉ l →
  moved (Arena_set jobs d (job_with_state j st)) l st jobs' → moved jobs (d :: l) st jobs'.
Proof.
  intros Hj Hn Hm x. rewrite (Hm x), (Arena_set_get _ _ _ _ _ Hj).
  destruct (decide (d = x)) as [<-|Hne].
  - rewrite decide_False by done. rewrite decide_True by by left. by rewrite Hj.
  - destruct (decide (x ∈ l)) as [Hx|Hx].
    + by rewrite decide_True by by right.
    + rewrite decide_False; [done|]. by intros [?|?]%elem_of_cons.
Qed.

Lemma moved_state jobs l st jobs' x :
  moved jobs l st jobs' → (∀ d, d ∈ l → ∃ j, Arena_get jobs d = Some j) →
  job_state jobs' x = if decide (x ∈ l) then Some st else job_state jobs x.
Proof.
  intros Hm Hl. unfold job_state. rewrite (Hm x). case_decide as Hx; [|done].
  destruct (Hl x Hx) as [j ->]. done.
Qed.

(** The jobs of the list are all [Blocked], hence live and not in the ready set. *)
Definition all_blocked (jobs : Arena Job) (l : list JobId) : Prop :=
  ∀ d, d ∈ l → job_state jobs d = Some JobState.Blocked.

Lemma all_blocked_live jobs l d :
  all_blocked jobs l → d ∈ l → ∃ j, Arena_get jobs d = Some j ∧ state j = JobState.Blocked.
Proof.
  intros Hb Hd. specialize (Hb d Hd). unfold job_state in Hb.
  destruct (Arena_get jobs d) as [j|]; [|done]. simpl in Hb. injection Hb as ?. eauto.
Qed.

Lemma all_blocked_tail jobs d j l st :
  all_blocked jobs (d :: l) → Arena_get jobs d = Some j → d ∉ l →
  all_blocked (Arena_set jobs d (job_with_state j st)) l.
Proof.
  intros Hb Hj Hn x Hx. rewrite (job_state_set _ _ _ _ _ Hj), decide_False by (by intros ->).
  apply Hb. by right.
Qed.

Lemma promote_fold fs now config rs jobs E l :
  ready_ok rs jobs E → jobs_ok jobs → NoDup l → all_blocked jobs l →
  ∃ rs' jobs' E', exec_fold (promote fs now config) (rs, jobs) l = Done (rs', jobs') ∧
    ready_ok rs' jobs' E' ∧ jobs_ok jobs' ∧ moved jobs l JobState.Ready jobs'.
Proof.
  intros Hro Hjo Hnd. revert rs jobs E Hro Hjo. induction Hnd as [|d l Hn _ IH]; intros rs jobs E Hro Hjo Hb.
  { exists rs, jobs, E. eauto using moved_nil. }
  destruct (all_blocked_live _ _ d Hb) as (j & Hj & Hs); [by left|].
  cbn [exec_fold]. unfold promote at 1. rewrite Hj. unfold try_transition. rewrite Hs. cbn [can_transition_to].
  destruct (ready_ok_insert rs jobs E Hro d j (job_with_state j JobState.Ready)
    (score_now fs (job_with_state j JobState.Ready) now config)) as (rs1 & -> & Hro1);
    [done|done|by rewrite Hs|done|done|]. cbn [exec_bind].
  destruct (IH rs1 (Arena_set jobs d (job_with_state j JobState.Ready)) _ Hro1) as (rs' & jobs' & E' & -> & ? & ? & ?).
  - eapply jobs_ok_set; [done|done|by apply (jo_jobs _ Hjo _ _ Hj)|done].
  - by eapply all_blocked_tail.
  - exists rs', jobs', E'. eauto using moved_cons.
Qed.

Lemma cascade_fold rs jobs E l :
  ready_ok rs jobs E → jobs_ok jobs → NoDup l → all_blocked jobs l →
  ∃ jobs', apply_cascade rs jobs l = Done (rs, jobs') ∧
    ready_ok rs jobs' E ∧ jobs_ok jobs' ∧ moved jobs l JobState.Cancelled jobs'.
Proof.
  intros Hro Hjo Hnd. unfold apply_cascade. revert jobs Hro Hjo.
  induction Hnd as [|d l Hn _ IH]; intros jobs Hro Hjo Hb.
  { exists jobs. eauto using moved_nil. }
  destruct (all_blocked_live _ _ d Hb) as (j & Hj & Hs); [by left|].
  cbn [exec_fold]. unfold cascade_one at 1. rewrite Hj, Hs. cbn [bool_decide exec_bind].
  rewrite bool_decide_eq_false_2 by done. cbn [exec_bind].
  unfold try_transition. rewrite Hs. cbn [can_transition_to exec_bind].
  destruct (IH (Arena_set jobs d (job_with_state j JobState.Cancelled))) as (jobs' & -> & ? & ? & ?).
  - eapply ready_ok_other; [done|done|by rewrite Hs|done].
  - eapply jobs_ok_set; [done|done|by apply (jo_jobs _ Hjo _ _ Hj)|done].
  - by eapply all_blocked_tail.
  - exists jobs'. eauto using moved_cons.
Qed.

(** ** Completion *)

Lemma job_cpu_nonneg jobs id j : jobs_ok jobs → Arena_get jobs id = Some j → 0 <= cpu_millis (request j).
Proof. intros Hjo Hj. destruct (jo_jobs _ Hjo _ _ Hj) as [(_ & _ & [[? _] _] & _) _]. done. Qed.

(** States after one job moved to [st] and the jobs of [l] to [st']. *)
Definition state_after (jobs : Arena Job) (id : JobId) (st : JobState) (l : list JobId) (st' : JobState)
    (jobs' : Arena Job) : Prop :=
  ∀ x, job_state jobs' x = if decide (x = id) then Some st
                           else if decide (x ∈ l) then Some st' else job_state jobs x.

Lemma moved_state_after jobs id j st l st' jobs' :
  Arena_get jobs id = Some j → id ∉ l →
  all_blocked (Arena_set jobs id (job_with_state j st)) l →
  moved (Arena_set jobs id (job_with_state j st)) l st' jobs' → state_after jobs id st l st' jobs'.
Proof.
  intros Hj Hn Hb Hm x. rewrite (moved_state _ _ _ _ x Hm).
  - rewrite (job_state_set _ _ _ _ _ Hj). simpl. destruct (decide (x = id)) as [->|].
    + by rewrite decide_False, decide_True.
    + destruct (decide (x ∈ l)); [done|]. by rewrite decide_False.
  - intros d Hd. destruct (all_blocked_live _ _ _ Hb Hd) as (jd & ? & _). eauto.
Qed.

Lemma on_completed_spec s jobs id j now config :
  Sched_inv s jobs → config_ok config → is_u64 now →
  Arena_get jobs id = Some j → occupies_slot (state j) = true →
  ∃ s' jobs' promoted, on_completed s id jobs now config = Done (s', jobs', Ok promoted) ∧
    Sched_inv s' jobs' ∧ NoDup promoted ∧
    (∀ x, x ∈ promoted ↔ dep_edge (sc_deps s) id x ∧
                         edge_count (sc_deps s) x = count_id x (deps_of (sc_deps s) id)) ∧
    state_after jobs id JobState.Completed promoted JobState.Ready jobs'.
Proof.
  intros [Hjo Hdo [E Hro] Hfs] Hcfg Hnow Hj Hocc. unfold on_completed. rewrite Hj.
  assert (try_transition j JobState.Completed = Ok (job_with_state j JobState.Completed)) as ->
    by (unfold try_transition; by destruct (state j)).
  destruct (on_release_spec (sc_fairshare s) (account j) (cpu_millis (request j)) now (cc_fairshare config))
    as (fs & Efs & Hfs' & _); [done..|by eapply job_cpu_nonneg|]. simpl. rewrite Efs. cbn [exec_bind].
  assert (state j ≠ JobState.Ready ∧ state j ≠ JobState.Blocked ∧ is_terminal (state j) = false) as (Hnr & Hnb & Hnt)
    by (by destruct (state j)).
  destruct (deps_ok_completed (sc_deps s) jobs id Hdo) as (t' & fired & -> & Hnd & Hf & Hfb & Hdo').
  { rewrite is_pending_state. unfold job_state. rewrite Hj. simpl. by rewrite Hnt. }
  { unfold job_state. rewrite Hj. simpl. congruence. }
  cbn [exec_bind].
  assert (all_blocked (Arena_set jobs id (job_with_state j JobState.Completed)) fired) as Hab.
  { intros x Hx. destruct (Hfb x Hx) as [? ?]. by rewrite (job_state_set _ _ _ _ _ Hj), decide_False. }
  destruct (promote_fold fs now config (sc_ready s) (Arena_set jobs id (job_with_state j JobState.Completed))
    E fired) as (rs' & jobs' & E' & -> & Hro' & Hjo' & Hm).
  { by eapply ready_ok_other. }
  { eapply jobs_ok_set; [done|done|by apply (jo_jobs _ Hjo _ _ Hj)|done]. }
  { done. } { done. }
  cbn [exec_bind].
  assert (state_after jobs id JobState.Completed fired JobState.Ready jobs') as Hst.
  { eapply moved_state_after; [done| |done|done]. intros Hin. by destruct (Hfb _ Hin). }
  eexists _, _, fired. split; [done|]. split; [|done]. split; simpl; [done|by apply Hdo'|by exists E'|done].
Qed.

(** ** Failure and cancellation *)

(** The common tail of [on_failed] and [cancel]: [id] has reached the terminal
    state [st] and has left the ready set. *)
Lemma terminate_spec rs t jobs E id j st :
  jobs_ok jobs → deps_ok t jobs → Arena_get jobs id = Some j → is_terminal (state j) = false →
  is_terminal st = true → ready_ok rs (Arena_set jobs id (job_with_state j st)) E →
  ∃ t' jobs' C, tracker_on_terminated t id [] = Done (t', C) ∧
    apply_cascade rs (Arena_set jobs id (job_with_state j st)) C = Done (rs, jobs') ∧
    jobs_ok jobs' ∧ deps_ok t' jobs' ∧ ready_ok rs jobs' E ∧ NoDup C ∧
    (∀ x, x ∈ C ↔ x ≠ id ∧ rtc (dep_edge t) id x) ∧
    state_after jobs id st C JobState.Cancelled jobs'.
Proof.
  intros Hjo Hdo Hj Hnt Hst Hro.
  destruct (deps_ok_terminated t jobs id st Hdo) as (t' & C & E1 & Hnd & HC & Hb & Hdo').
  { rewrite is_pending_state. unfold job_state. rewrite Hj. simpl. by rewrite Hnt. }
  { done. }
  assert (all_blocked (Arena_set jobs id (job_with_state j st)) C) as Hab.
  { intros x Hx. destruct (Hb x Hx) as [? ?]. by rewrite (job_state_set _ _ _ _ _ Hj), decide_False. }
  destruct (cascade_fold rs (Arena_set jobs id (job_with_state j st)) E C Hro) as (jobs' & E2 & ? & ? & Hm).
  { eapply jobs_ok_set; [done|done|by apply (jo_jobs _ Hjo _ _ Hj)|done]. }
  { done. } { done. }
  assert (state_after jobs id st C JobState.Cancelled jobs') as Hsa.
  { eapply moved_state_after; [done| |done|done]. intros Hin. by destruct (Hb _ Hin). }
  exists t', jobs', C. do 3 (split; [done|]). split; [by apply Hdo'|]. done.
Qed.

(** What a terminated job leaves behind. *)
Definition terminated_post (s : Scheduler) (jobs : Arena Job) (id : JobId) (st : JobState)
    (s' : Scheduler) (jobs' : Arena Job) (C : list JobId) : Prop :=
  Sched_inv s' jobs' ∧ NoDup C ∧ (∀ x, x ∈ C ↔ x ≠ id ∧ rtc (dep_edge (sc_deps s)) id x) ∧
  state_after jobs id st C JobState.Cancelled jobs'.

Lemma on_failed_spec s jobs id j now config :
  Sched_inv s jobs → config_ok config → is_u64 now →
  Arena_get jobs id = Some j → occupies_slot (state j) = true →
  ∃ s' jobs' C, on_failed s id jobs now config = Done (s', jobs', Ok C) ∧
    terminated_post s jobs id JobState.Failed s' jobs' C.
Proof.
  intros [Hjo Hdo [E Hro] Hfs] Hcfg Hnow Hj Hocc. unfold on_failed. rewrite Hj.
  assert (try_transition j JobState.Failed = Ok (job_with_state j JobState.Failed)) as ->
    by (unfold try_transition; by destruct (state j)).
  destruct (on_release_spec (sc_fairshare s) (account j) (cpu_millis (request j)) now (cc_fairshare config))
    as (fs & Efs & Hfs' & _); [done..|by eapply job_cpu_nonneg|]. simpl. rewrite Efs. cbn [exec_bind].
  destruct (terminate_spec (sc_ready s) (sc_deps s) jobs E id j JobState.Failed)
    as (t' & jobs' & C & -> & Ec & ? & ? & ? & ? & ? & ?);
    [done|done|done|by destruct (state j)|done|eapply ready_ok_other; [done|done|by destruct (state j)|done]|].
  cbn [exec_bind]. rewrite Ec. cbn [exec_bind].
  eexists _, _, C. split; [done|]. split; [|done]. split; simpl; [done|done|by exists E|done].
Qed.

Lemma cancel_spec s jobs id j now config :
  Sched_inv s jobs → config_ok config → is_u64 now →
  Arena_get jobs id = Some j → is_terminal (state j) = false →
  ∃ s' jobs' C, cancel s id jobs now config = Done (s', jobs', Ok C) ∧
    terminated_post s jobs id JobState.Cancelled s' jobs' C.
Proof.
  intros [Hjo Hdo [E Hro] Hfs] Hcfg Hnow Hj Hnt. unfold cancel. rewrite Hj.
  assert (try_transition j JobState.Cancelled = Ok (job_with_state j JobState.Cancelled)) as ->
    by (unfold try_transition; by destruct (state j)).
  assert (∃ rs' E',
    (if bool_decide (state j = JobState.Ready)
     then let! '(ready, _) := ready_remove (sc_ready s) (priority_class j) id in Done ready
     else Done (sc_ready s)) = Done rs' ∧
    ready_ok rs' (Arena_set jobs id (job_with_state j JobState.Cancelled)) E') as (rs' & E' & -> & Hro').
  { case_bool_decide as Hs.
    - destruct (ready_ok_remove (sc_ready s) jobs E Hro id j (job_with_state j JobState.Cancelled))
        as (rs' & sc & E' & -> & _ & ?); [done|done|done|]. cbn [exec_bind]. by exists rs', E'.
    - exists (sc_ready s), E. split; [done|]. by eapply ready_ok_other. }
  cbn [exec_bind].
  assert (∃ fs', (if occupies_slot (state j)
     then on_release (sc_fairshare s) (account (job_with_state j JobState.Cancelled))
            (cpu_millis (request (job_with_state j JobState.Cancelled))) now (cc_fairshare config)
     else Done (sc_fairshare s)) = Done fs' ∧ FairShare_wf fs') as (fs' & -> & Hfs').
  { destruct (occupies_slot (state j)); [|by eexists].
    destruct (on_release_spec (sc_fairshare s) (account j) (cpu_millis (request j)) now (cc_fairshare config))
      as (fs & Efs & Hfs' & _); [done..|by eapply job_cpu_nonneg|]. by exists fs. }
  cbn [exec_bind].
  destruct (terminate_spec rs' (sc_deps s) jobs E' id j JobState.Cancelled)
    as (t' & jobs' & C & -> & Ec & ? & ? & ? & ? & ? & ?); [done..|].
  cbn [exec_bind]. rewrite Ec. cbn [exec_bind].
  eexists _, _, C. split; [done|]. split; [|done]. split; simpl; [done|done|by exists E'|done].
Qed.

(** ** Submission *)

Lemma count_pending_state jobs ds (r : Readiness) :
  r ≠ Readiness.Cancelled →
  (r = Readiness.Ready → count_pending jobs ds = 0) →
  (r = Readiness.Blocked → 0 < count_pending jobs ds) →
  readiness_state r =
    (if decide (0 < count_pending jobs ds) then JobState.Blocked else JobState.Ready).
Proof. intros Hc Hr Hb. destruct r; simpl; case_decide; naive_solver lia. Qed.

Lemma submit_spec s jobs id j now config :
  Sched_inv s jobs → Arena_get jobs id = Some j → state j = JobState.Submitted →
  ¬ tracked (sc_deps s) id →
  ∃ s' jobs' r, submit s id jobs now config = Done (s', jobs', r) ∧ Sched_inv s' jobs' ∧
    match check_submit id j jobs with
    | Ok rd => r = Ok (readiness_state rd) ∧
               jobs' = Arena_set jobs id (job_with_state j (readiness_state rd))
    | Err e => r = Err e ∧ jobs' = jobs
    end.
Proof.
  intros [Hjo Hdo [E Hro] Hfs] Hj Hs Hnt. destruct (jo_jobs _ Hjo _ _ Hj) as [Hwf Hlen].
  unfold submit, check_submit. rewrite Hj, Hs. rewrite bool_decide_eq_true_2 by done. cbn [negb].
  destruct (ensure_spec (sc_fairshare s) (account j) Hfs) as (fs & r & -> & Hfs' & Hr).
  { by destruct Hwf as [[? _] _]. }
  destruct (decide (MAX_ACCOUNTS <= account j)) as [Hmax|Hmax].
  { destruct Hr as [-> ->]. destruct (Z.leb_spec MAX_ACCOUNTS (account j)); [|lia].
    eexists _, _, _. split; [done|]. split; [|done]. split; simpl; [done|done|by exists E|done]. }
  destruct Hr as [-> _]. destruct (Z.leb_spec MAX_ACCOUNTS (account j)); [lia|].
  destruct (register_spec (sc_deps s) jobs id j (do_wf _ _ Hdo) (do_arena _ _ Hdo))
    as (t' & r & -> & Er & Hreg); [|done|done|].
  { rewrite is_pending_state. unfold job_state. rewrite Hj. simpl. by rewrite Hs. }
  pose proof (classify_spec id j jobs Hlen) as Hcl. rewrite Er in Hreg |- *. cbn [exec_bind].
  destruct (classify id j jobs) as [rd|e].
  2:{ subst t'. eexists _, _, _. split; [done|]. split; [|done]. split; simpl; [done|done|by exists E|done]. }
  cbn [expect exec_bind].
  assert (try_transition j (readiness_state rd) = Ok (job_with_state j (readiness_state rd))) as ->.
  { unfold try_transition. rewrite Hs. by destruct rd. }
  assert (jobs_ok (Arena_set jobs id (job_with_state j (readiness_state rd)))) as Hjo'.
  { eapply jobs_ok_set; done. }
  assert (deps_ok t' (Arena_set jobs id (job_with_state j (readiness_state rd)))) as Hdo'.
  { destruct rd.
    - eapply deps_ok_registered; [done..|exact Hreg|]. apply count_pending_state; [done| |done].
      intros _. by destruct Hcl.
    - eapply deps_ok_registered; [done..|exact Hreg|]. apply count_pending_state; [done|done|].
      intros _. by destruct Hcl.
    - subst t'. by apply deps_ok_doomed. }
  assert (∃ rs' E',
    (if bool_decide (readiness_state rd = JobState.Ready)
     then ready_insert (sc_ready s) (priority_class (job_with_state j (readiness_state rd))) id
            (score_now fs (job_with_state j (readiness_state rd)) now config)
     else Done (sc_ready s)) = Done rs' ∧
    ready_ok rs' (Arena_set jobs id (job_with_state j (readiness_state rd))) E') as (rs' & E' & -> & Hro').
  { case_bool_decide as Hr.
    - destruct (ready_ok_insert (sc_ready s) jobs E Hro id j (job_with_state j (readiness_state rd))
        (score_now fs (job_with_state j (readiness_state rd)) now config)) as (rs' & -> & ?);
        [done|done|by rewrite Hs|done|done|]. eauto.
    - exists (sc_ready s), E. split; [done|]. eapply ready_ok_other; [done|done|by rewrite Hs|done]. }
  cbn [exec_bind]. eexists _, _, _. split; [done|]. split; [|done].
  split; simpl; [done|done|by exists E'|done].
Qed.

(** ** Eviction and replayed dispatch *)

(** [requeue] takes every state from which [Ready] can be reached, and does not ask
    for more. *)
Definition requeueable (st : JobState) : bool :=
  match st with JobState.Submitted | JobState.Blocked | JobState.Running | JobState.Preempted => true | _ => false end.

Lemma requeue_form s jobs id j now config :
  Sched_inv s jobs → config_ok config → is_u64 now →
  Arena_get jobs id = Some j → requeueable (state j) = true →
  ∃ s', requeue s id jobs now config = Done (s', Arena_set jobs id (job_with_state j JobState.Ready), Ok tt) ∧
    sc_deps s' = sc_deps s ∧ FairShare_wf (sc_fairshare s') ∧
    ∃ E, ready_ok (sc_ready s') (Arena_set jobs id (job_with_state j JobState.Ready)) E.
Proof.
  intros [Hjo Hdo [E Hro] Hfs] Hcfg Hnow Hj Hq. unfold requeue. rewrite Hj.
  set (j1 := if bool_decide (state j = JobState.Running) then job_with_state j JobState.Preempted else j).
  assert ((if bool_decide (state j = JobState.Running) then try_transition j JobState.Preempted else Ok j)
          = Ok j1) as ->.
  { unfold j1. case_bool_decide as Hs; [|done]. unfold try_transition. by rewrite Hs. }
  assert (job_with_state j1 JobState.Ready = job_with_state j JobState.Ready) as Ej.
  { unfold j1. by case_bool_decide. }
  assert (try_transition j1 JobState.Ready = Ok (job_with_state j JobState.Ready)) as ->.
  { unfold try_transition. rewrite Ej. unfold j1. case_bool_decide; [done|]. by destruct (state j). }
  assert (Arena_set (Arena_set jobs id j1) id (job_with_state j JobState.Ready) =
          Arena_set jobs id (job_with_state j JobState.Ready)) as ->.
  { apply Arena_get_Some in Hj. unfold Arena_set at 2 3. rewrite Hj, Z.eqb_refl.
    unfold Arena_set. simpl. rewrite vec_get_insert by (by eapply vec_get_range).
    rewrite decide_True, Z.eqb_refl by done. by rewrite list_insert_insert_eq. }
  destruct (on_release_spec (sc_fairshare s) (account j) (cpu_millis (request j)) now (cc_fairshare config))
    as (fs & Efs & Hfs' & _); [done..|by eapply job_cpu_nonneg|]. simpl. rewrite Efs. cbn [exec_bind].
  destruct (ready_ok_insert (sc_ready s) jobs E Hro id j (job_with_state j JobState.Ready)
    (score_now fs (job_with_state j JobState.Ready) now config)) as (rs' & Er & Hro');
    [done|done|by destruct (state j)|done|done|]. simpl in Er. rewrite Er. cbn [exec_bind].
  eexists. split; [done|]. split; [done|]. split; [done|]. by eexists.
Qed.

Lemma requeue_moves s jobs id j now config :
  Sched_inv s jobs → config_ok config → is_u64 now →
  Arena_get jobs id = Some j → requeueable (state j) = true → state j ≠ JobState.Blocked →
  ∃ s' jobs', requeue s id jobs now config = Done (s', jobs', Ok tt) ∧ Sched_inv s' jobs' ∧
    ∀ x, Arena_get jobs' x = if decide (id = x) then Some (job_with_state j JobState.Ready)
                             else Arena_get jobs x.
Proof.
  intros Hinv Hcfg Hnow Hj Hq Hb. destruct (requeue_form s jobs id j now config Hinv Hcfg Hnow Hj Hq) as (s' & E & Hd & Hf & Hr).
  exists s', (Arena_set jobs id (job_with_state j JobState.Ready)). split; [done|].
  split; [|intros x; by rewrite (Arena_set_get _ _ _ _ _ Hj)]. destruct Hinv as [Hjo Hdo _ _].
  split; [|rewrite Hd; eapply deps_ok_move; [done|done|by destruct (state j)|done|done|done]|done|done].
  eapply jobs_ok_set; [done|done|by apply (jo_jobs _ Hjo _ _ Hj)|done].
Qed.

(** A job that holds a slot goes back to the queue. *)
Lemma requeue_spec s jobs id j now config :
  Sched_inv s jobs → config_ok config → is_u64 now →
  Arena_get jobs id = Some j → occupies_slot (state j) = true →
  ∃ s' jobs', requeue s id jobs now config = Done (s', jobs', Ok tt) ∧ Sched_inv s' jobs' ∧
    ∀ x, Arena_get jobs' x = if decide (id = x) then Some (job_with_state j JobState.Ready)
                             else Arena_get jobs x.
Proof. intros ? ? ? ? Ho. apply requeue_moves; try done; by destruct (state j). Qed.

Lemma preempt_spec s jobs id j :
  Sched_inv s jobs → Arena_get jobs id = Some j → state j = JobState.Running →
  ∃ jobs', preempt s id jobs = (s, jobs', Ok tt) ∧ Sched_inv s jobs' ∧
    jobs' = Arena_set jobs id (job_with_state j JobState.Preempted).
Proof.
  intros [Hjo Hdo [E Hro] Hfs] Hj Hs. unfold preempt. rewrite Hj.
  unfold try_transition. rewrite Hs. cbn [can_transition_to].
  eexists. split; [done|]. split; [|done]. split; [|eapply deps_ok_move; try done; by rewrite Hs| |done].
  - eapply jobs_ok_set; [done|done|by apply (jo_jobs _ Hjo _ _ Hj)|done].
  - exists E. eapply ready_ok_other; [done|done|by rewrite Hs|done].
Qed.

(** Rewriting a job without changing its state, class or dependencies. *)
Lemma Sched_inv_rewrite s jobs id j j' :
  Sched_inv s jobs → Arena_get jobs id = Some j → Job_wf j' → state j' = state j →
  deps j' = deps j → occupies_slot (state j) = true → Sched_inv s (Arena_set jobs id j').
Proof.
  intros [Hjo Hdo [E Hro] Hfs] Hj Hwf Hs Hd Hocc.
  split; [by eapply jobs_ok_set|eapply deps_ok_move; try done; rewrite ?Hs; by destruct (state j)| |done].
  exists E. eapply ready_ok_other; [done|done|..]; rewrite ?Hs; by destruct (state j).
Qed.

Lemma on_preempted_spec s jobs id j now config :
  Sched_inv s jobs → config_ok config → is_u64 now →
  Arena_get jobs id = Some j → state j = JobState.Preempted →
  ∃ s' jobs', on_preempted s id jobs now config = Done (s', jobs', Ok tt) ∧ Sched_inv s' jobs' ∧
    ∀ x, Arena_get jobs' x =
      if decide (id = x)
      then Some (job_with_state (job_with_preemptions j (Z.min u8_max (preemptions j + 1))) JobState.Ready)
      else Arena_get jobs x.
Proof.
  intros Hinv Hcfg Hnow Hj Hs. unfold on_preempted. rewrite Hj, bool_decide_eq_true_2 by done. cbn [negb].
  destruct (jo_jobs _ (si_jobs _ _ Hinv) _ _ Hj) as [Hwf _].
  set (j1 := job_with_preemptions j (sat_add u8_max (preemptions j) 1)).
  assert (Job_wf j1) as Hwf1.
  { destruct Hwf as (? & ? & ? & ? & ? & ? & Hp). unfold Job_wf. simpl. split_and!; try done.
    unfold is_u8, sat_add in *. lia. }
  destruct (requeue_spec s (Arena_set jobs id j1) id j1 now config) as (s' & jobs' & E & Hinv' & Hget).
  - eapply Sched_inv_rewrite; [done|done|done|done|done|by rewrite Hs].
  - done.
  - done.
  - rewrite (Arena_set_get _ _ _ _ _ Hj). by rewrite decide_True.
  - simpl. by rewrite Hs.
  - exists s', jobs'. split; [done|]. split; [done|]. intros x. rewrite Hget.
    rewrite (Arena_set_get _ _ _ _ _ Hj). by case_decide.
Qed.

Lemma restore_running_spec s jobs id j now config :
  Sched_inv s jobs → config_ok config → is_u64 now → Arena_get jobs id = Some j →
  ∃ s' jobs' r, restore_running s id jobs now config = Done (s', jobs', r) ∧ Sched_inv s' jobs' ∧
    (if decide (state j = JobState.Ready)
     then r = Ok tt ∧ jobs' = Arena_set jobs id (job_with_state j JobState.Running)
     else r = Err (LifecycleError.Transition (MkTransitionError (state j) JobState.Running)) ∧ jobs' = jobs).
Proof.
  intros [Hjo Hdo [E Hro] Hfs] Hcfg Hnow Hj. unfold restore_running. rewrite Hj.
  destruct (decide (state j = JobState.Ready)) as [Hs|Hs].
  - destruct (ready_ok_remove (sc_ready s) jobs E Hro id j (job_with_state j JobState.Running))
      as (rs' & sc & E' & -> & _ & Hro'); [done|done|done|]. cbn [exec_bind].
    unfold try_transition. rewrite Hs. cbn [can_transition_to].
    destruct (on_dispatch_spec (sc_fairshare s) (account j) (cpu_millis (request j)) now (cc_fairshare config))
      as (fs & Efs & Hfs' & _); [done..|by eapply job_cpu_nonneg|]. simpl. rewrite Efs. cbn [exec_bind].
    eexists _, _, _. split; [done|]. split; [|done]. split; simpl; [| |by exists E'|done].
    + eapply jobs_ok_set; [done|done|by apply (jo_jobs _ Hjo _ _ Hj)|done].
    + eapply deps_ok_move; try done; by rewrite Hs.
  - destruct (ready_ok_absent (sc_ready s) jobs E Hro id j Hj Hs) as (rs' & -> & Hro'). cbn [exec_bind].
    assert (try_transition j JobState.Running = Err (MkTransitionError (state j) JobState.Running)) as ->.
    { unfold try_transition. by destruct (state j). }
    eexists _, _, _. split; [done|]. split; [|done]. split; simpl; [done|done|by exists E|done].
Qed.

(** ** Every call *)

Inductive lifecycle_call : Type :=
| CallSubmit (id : JobId)
| CallCompleted (id : JobId)
| CallFailed (id : JobId)
| CallCancel (id : JobId)
| CallPreempt (id : JobId)
| CallPreempted (id : JobId)
| CallRequeue (id : JobId)
| CallRestoreRunning (id : JobId)
| CallSetShares (account : AccountId) (shares : Z)
| CallRestoreLedgers (ledgers : list Ledger).

(** The state after a call, and whether it was accepted. *)
Definition run_call (s : Scheduler) (jobs : Arena Job) (now : VirtualTime) (config : CycleConfig)
    (c : lifecycle_call) : exec (Scheduler * Arena Job * bool) :=
  let done {A} (o : exec (outcome A)) :=
    let! '(s, jobs, r) := o in Done (s, jobs, match r with Ok _ => true | Err _ => false end) in
  match c with
  | CallSubmit id => done (submit s id jobs now config)
  | CallCompleted id => done (on_completed s id jobs now config)
  | CallFailed id => done (on_failed s id jobs now config)
  | CallCancel id => done (cancel s id jobs now config)
  | CallPreempt id => done (Done (preempt s id jobs))
  | CallPreempted id => done (on_preempted s id jobs now config)
  | CallRequeue id => done (requeue s id jobs now config)
  | CallRestoreRunning id => done (restore_running s id jobs now config)
  | CallSetShares a n =>
      let! '(s, r) := scheduler_set_shares s a n in
      Done (s, jobs, match r with Ok _ => true | Err _ => false end)
  | CallRestoreLedgers ls =>
      let '(s, r) := restore_ledgers s ls in
      Done (s, jobs, match r with Ok _ => true | Err _ => false end)
  end.

(** The arguments are at their widths. *)
Definition call_wf (c : lifecycle_call) : Prop :=
  match c with
  | CallSetShares a n => 0 <= a ∧ is_u32 n
  | CallRestoreLedgers ls => Forall Ledger_wf ls
  | _ => True
  end.

(** What the calls rely on and do not check: a job is submitted before another
    job was registered as waiting for it, and a [Blocked] job is not requeued. *)
Definition call_ok (s : Scheduler) (jobs : Arena Job) (c : lifecycle_call) : Prop :=
  match c with
  | CallSubmit id => job_state jobs id = Some JobState.Submitted → ¬ tracked (sc_deps s) id
  | CallRequeue id => job_state jobs id ≠ Some JobState.Blocked
  | _ => True
  end.

Lemma Sched_inv_fs s jobs fs :
  Sched_inv s jobs → FairShare_wf fs → Sched_inv (MkScheduler (sc_ready s) (sc_deps s) fs) jobs.
Proof. by intros [H1 H2 H3 _] Hf. Qed.

(** A refused transition. *)
Lemma refused j next :
  can_transition_to (state j) next = false → try_transition j next = Err (MkTransitionError (state j) next).
Proof. intros H. unfold try_transition. by rewrite H. Qed.

Lemma Arena_set_same {T} (a : Arena T) id v : Arena_get a id = Some v → Arena_set a id v = a.
Proof.
  intros H%Arena_get_Some. unfold Arena_set. rewrite H, Z.eqb_refl. destruct a as [ss h n]. simpl in *.
  f_equal. apply vec_get_Some in H as [_ H]. by apply list_insert_id.
Qed.

(** A call returns, keeps the invariant, and changes no job when it is refused. *)
Definition call_keeps {A} (jobs : Arena Job) (o : exec (outcome A)) : Prop :=
  ∃ s' jobs' r, o = Done (s', jobs', r) ∧ Sched_inv s' jobs' ∧ (∀ e, r = Err e → jobs' = jobs).

Section Calls.
Context (s : Scheduler) (jobs : Arena Job) (now : VirtualTime) (config : CycleConfig) (id : JobId).
Hypothesis Hinv : Sched_inv s jobs.
Hypothesis Hcfg : config_ok config.
Hypothesis Hnow : is_u64 now.

Lemma submit_keeps :
  (job_state jobs id = Some JobState.Submitted → ¬ tracked (sc_deps s) id) →
  call_keeps jobs (submit s id jobs now config).
Proof.
  intros Hc. destruct (Arena_get jobs id) as [j|] eqn:Hj.
  2:{ unfold submit. rewrite Hj. by eexists _, _, _. }
  destruct (decide (state j = JobState.Submitted)) as [Hs|Hs].
  - destruct (submit_spec s jobs id j now config Hinv Hj Hs) as (s' & jobs' & r & -> & Hinv' & Hr).
    { apply Hc. unfold job_state. rewrite Hj. simpl. by f_equal. }
    eexists _, _, _. split; [done|]. split; [done|].
    destruct (check_submit id j jobs); destruct Hr as [-> ->]; done.
  - unfold submit. rewrite Hj, bool_decide_eq_false_2 by done. by eexists _, _, _.
Qed.

Lemma on_completed_keeps : call_keeps jobs (on_completed s id jobs now config).
Proof.
  destruct (Arena_get jobs id) as [j|] eqn:Hj; [|unfold on_completed; rewrite Hj; by eexists _, _, _].
  destruct (occupies_slot (state j)) eqn:Ho.
  - destruct (on_completed_spec s jobs id j now config Hinv Hcfg Hnow Hj Ho) as (s' & jobs' & p & -> & ? & _).
    by eexists _, _, _.
  - unfold on_completed. rewrite Hj, refused by (by destruct (state j)). by eexists _, _, _.
Qed.

Lemma on_failed_keeps : call_keeps jobs (on_failed s id jobs now config).
Proof.
  destruct (Arena_get jobs id) as [j|] eqn:Hj; [|unfold on_failed; rewrite Hj; by eexists _, _, _].
  destruct (occupies_slot (state j)) eqn:Ho.
  - destruct (on_failed_spec s jobs id j now config Hinv Hcfg Hnow Hj Ho) as (s' & jobs' & p & -> & ? & _).
    by eexists _, _, _.
  - unfold on_failed. rewrite Hj, refused by (by destruct (state j)). by eexists _, _, _.
Qed.

Lemma cancel_keeps : call_keeps jobs (cancel s id jobs now config).
Proof.
  destruct (Arena_get jobs id) as [j|] eqn:Hj; [|unfold cancel; rewrite Hj; by eexists _, _, _].
  destruct (is_terminal (state j)) eqn:Ht.
  - unfold cancel. rewrite Hj, bool_decide_eq_false_2 by (by intros E; rewrite E in Ht).
    cbn [exec_bind]. rewrite refused by (by destruct (state j)).
    eexists _, _, _. split; [done|]. split; [|done]. by destruct s.
  - destruct (cancel_spec s jobs id j now config Hinv Hcfg Hnow Hj Ht) as (s' & jobs' & p & -> & ? & _).
    by eexists _, _, _.
Qed.

Lemma preempt_keeps : call_keeps jobs (Done (preempt s id jobs)).
Proof.
  destruct (Arena_get jobs id) as [j|] eqn:Hj; [|unfold preempt; rewrite Hj; by eexists _, _, _].
  destruct (decide (state j = JobState.Running)) as [Hs|Hs].
  - destruct (preempt_spec s jobs id j Hinv Hj Hs) as (jobs' & -> & ? & _). by eexists _, _, _.
  - unfold preempt. rewrite Hj, refused by (by destruct (state j)). by eexists _, _, _.
Qed.

Lemma on_preempted_keeps : call_keeps jobs (on_preempted s id jobs now config).
Proof.
  destruct (Arena_get jobs id) as [j|] eqn:Hj; [|unfold on_preempted; rewrite Hj; by eexists _, _, _].
  destruct (decide (state j = JobState.Preempted)) as [Hs|Hs].
  - destruct (on_preempted_spec s jobs id j now config Hinv Hcfg Hnow Hj Hs) as (s' & jobs' & -> & ? & _).
    by eexists _, _, _.
  - unfold on_preempted. rewrite Hj, bool_decide_eq_false_2 by done. by eexists _, _, _.
Qed.

Lemma requeue_keeps : job_state jobs id ≠ Some JobState.Blocked → call_keeps jobs (requeue s id jobs now config).
Proof.
  intros Hnb. destruct (Arena_get jobs id) as [j|] eqn:Hj;
    [|unfold requeue; rewrite Hj; by eexists _, _, _].
  unfold job_state in Hnb. rewrite Hj in Hnb. simpl in Hnb.
  destruct (requeueable (state j)) eqn:Ho.
  - destruct (requeue_moves s jobs id j now config Hinv Hcfg Hnow Hj Ho) as (s' & jobs' & -> & ? & _); [congruence|].
    by eexists _, _, _.
  - unfold requeue. rewrite Hj, bool_decide_eq_false_2 by (by intros E; rewrite E in Ho).
    rewrite Arena_set_same, refused by (done || destruct (state j); done). by eexists _, _, _.
Qed.

(** Outside of what [submit] relies on it still returns. *)
Lemma submit_total :
  ∃ s' jobs' r, submit s id jobs now config = Done (s', jobs', r) ∧ ∀ e, r = Err e → jobs' = jobs.
Proof.
  unfold submit. destruct (Arena_get jobs id) as [j|] eqn:Hj; [|by eexists _, _, _].
  destruct (bool_decide_reflect (state j = JobState.Submitted)) as [Hs|]; cbn [negb]; [|by eexists _, _, _].
  destruct (ensure (sc_fairshare s) (account j)) as [fs [u|e]]; [|by eexists _, _, _].
  pose proof (tw_tables _ (do_wf _ _ (si_deps _ _ Hinv))) as Ht.
  destruct (register_total (sc_deps s) id j jobs) as [t' ->]; [split; apply Ht|]. cbn [exec_bind].
  destruct (classify id j jobs) as [rd|e]; [|by eexists _, _, _]. cbn [expect exec_bind].
  assert (try_transition j (readiness_state rd) = Ok (job_with_state j (readiness_state rd))) as ->.
  { unfold try_transition. rewrite Hs. by destruct rd. }
  destruct (si_ready _ _ Hinv) as [E Hro]. case_bool_decide as Hr; [|by eexists _, _, _].
  destruct (ready_ok_insert (sc_ready s) jobs E Hro id j (job_with_state j (readiness_state rd))
    (score_now fs (job_with_state j (readiness_state rd)) now config)) as (rs' & -> & _);
    [apply Hinv|done|by rewrite Hs|done|done|]. by eexists _, _, _.
Qed.

(** Requeueing a [Blocked] job is accepted, and breaks the invariant: the job is
    [Ready] while a dependency still counts against it. *)
Lemma requeue_blocked :
  job_state jobs id = Some JobState.Blocked →
  ∃ s' jobs', requeue s id jobs now config = Done (s', jobs', Ok tt) ∧ ¬ Sched_inv s' jobs'.
Proof.
  intros Hb. unfold job_state in Hb. destruct (Arena_get jobs id) as [j|] eqn:Hj; [|done]. injection Hb as Hb.
  destruct (requeue_form s jobs id j now config Hinv Hcfg Hnow Hj) as (s' & E & Hd & _); [by rewrite Hb|].
  eexists _, _. split; [exact E|]. intros Hinv'.
  assert (tracked (sc_deps s) id ∧ 0 < edge_count (sc_deps s) id) as Ht.
  { apply (do_blocked _ _ (si_deps _ _ Hinv)). unfold job_state. rewrite Hj. simpl. by rewrite Hb. }
  rewrite <-Hd in Ht. apply (do_blocked _ _ (si_deps _ _ Hinv')) in Ht. unfold job_state in Ht.
  by rewrite (Arena_set_get _ _ _ _ _ Hj), decide_True in Ht.
Qed.

Lemma restore_running_keeps : call_keeps jobs (restore_running s id jobs now config).
Proof.
  destruct (Arena_get jobs id) as [j|] eqn:Hj; [|unfold restore_running; rewrite Hj; by eexists _, _, _].
  destruct (restore_running_spec s jobs id j now config Hinv Hcfg Hnow Hj) as (s' & jobs' & r & -> & ? & Hr).
  eexists _, _, _. split; [done|]. split; [done|]. by case_decide; destruct Hr as [-> ->].
Qed.
End Calls.

(** ** Jobs that come and go *)

(** A handle the tracker knows nothing of gets a [Submitted] job. *)
Lemma deps_ok_fresh t jobs jobs1 id :
  deps_ok t jobs → job_state jobs id = None → id ∉ edges t → id ≠ NO_OWNER →
  (∀ x, job_state jobs1 x = if decide (id = x) then Some JobState.Submitted else job_state jobs x) →
  deps_ok t jobs1 ∧ ¬ tracked t id.
Proof.
  intros [Hdw [Hl He Hse] Hb] Hnone Hed Hne Hst.
  assert (¬ tracked t id) as Hnt by (intros H%Hl; rewrite is_pending_state, Hnone in H; done).
  assert (∀ x, is_pending jobs1 x = if decide (id = x) then true else is_pending jobs x) as Hp.
  { intros x. rewrite !is_pending_state, Hst. by case_decide. }
  split; [|done]. split; [done|split|].
  - intros d Hd. rewrite Hp. case_decide; [done|]. by apply Hl.
  - intros d Hd. rewrite Hp. case_decide; [by subst|]. by apply He.
  - rewrite Hp. by case_decide.
  - intros x. rewrite Hst. case_decide; [subst|apply Hb]. split; [done|]. by intros [? _].
Qed.

(** A finished job leaves the arena. *)
Lemma deps_ok_forget t jobs jobs1 id st :
  deps_ok t jobs → job_state jobs id = Some st → is_terminal st = true →
  (∀ x, job_state jobs1 x = if decide (id = x) then None else job_state jobs x) → deps_ok t jobs1.
Proof.
  intros [Hdw [Hl He Hse] Hb] Hid Ht Hst.
  assert (∀ x, is_pending jobs1 x = is_pending jobs x) as Hp.
  { intros x. rewrite !is_pending_state, Hst. case_decide; [|done]. subst. rewrite Hid. by rewrite Ht. }
  split; [done|split|].
  - intros d. rewrite Hp. apply Hl.
  - intros d. rewrite Hp. apply He.
  - by rewrite Hp.
  - intros x. rewrite <-Hb, Hst. case_decide; [|done]. subst. rewrite Hid. split; [done|]. by intros [= ->].
Qed.

(** ** A freshly inserted job *)

Lemma Arena_insert_room {T} (a : Arena T) v a' id :
  Arena_insert a v = Done (a', id) → Arena_has_room a.
Proof.
  unfold Arena_insert, Arena_has_room. destruct (free_head a); [by left|].
  unfold u32_from_usize. destruct (Z.leb_spec (Z.of_nat (length (slots a))) u32_max); [by right|done].
Qed.

Section Insert.
Context (s : Scheduler) (jobs : Arena Job) (job : Job) (jobs1 : Arena Job) (id : JobId).
Hypothesis Hinv : Sched_inv s jobs.
Hypothesis Hjob : Job_wf job ∧ Z.of_nat (length (deps job)) <= u32_max.
Hypothesis Hsub : state job = JobState.Submitted.
Hypothesis Hins : Arena_insert jobs job = Done (jobs1, id).
Hypothesis Hslots : Z.of_nat (length (slots jobs1)) <= u32_max.
Hypothesis Hedges : id ∉ edges (sc_deps s).
Hypothesis Hsent : id ≠ NO_OWNER.

Lemma insert_get :
  Arena_wf jobs1 ∧ Arena_next_id jobs = Done id ∧ Arena_get jobs id = None ∧
  ∀ x, Arena_get jobs1 x = if decide (id = x) then Some job else Arena_get jobs x.
Proof.
  destruct (Arena_insert_spec jobs job) as (a' & id' & E & Hn & Hwf & Hg & Hget);
    [apply Hinv|by eapply Arena_insert_room|]. rewrite Hins in E. injection E as <- <-. done.
Qed.

Lemma insert_state x :
  job_state jobs1 x = if decide (id = x) then Some JobState.Submitted else job_state jobs x.
Proof.
  destruct insert_get as (_ & _ & _ & Hget). unfold job_state. rewrite Hget.
  case_decide; [|done]. simpl. by rewrite Hsub.
Qed.

Lemma insert_untracked : ¬ tracked (sc_deps s) id.
Proof.
  intros H. apply (ta_live _ _ (do_arena _ _ (si_deps _ _ Hinv))) in H.
  destruct insert_get as (_ & _ & Hnone & _). unfold is_pending in H. by rewrite Hnone in H.
Qed.

Lemma insert_inv : Sched_inv s jobs1.
Proof.
  destruct insert_get as (Hwf & _ & Hnone & Hget).
  destruct Hinv as [[Ha Hs Hj] Hd [E Hro] Hfs].
  destruct (deps_ok_fresh (sc_deps s) jobs jobs1 id Hd) as [Hd' _];
    [unfold job_state; by rewrite Hnone|done|done|apply insert_state|].
  split; [split|done|exists E; split|done].
  - done.
  - done.
  - intros x j. rewrite Hget. case_decide; [by intros [= <-]|apply Hj].
  - apply Hro.
  - apply Hro.
  - intros e Hin. destruct (ro_sound _ _ _ Hro e Hin) as (j & Hje & ?). exists j. rewrite Hget.
    rewrite decide_False; [done|]. intros ->. congruence.
  - intros x. rewrite insert_state. case_decide; [done|]. apply Hro.
Qed.

(** The new job is not among the dependencies [classify] resolves. *)
Lemma insert_classify : classify id job jobs1 = classify id job jobs.
Proof.
  destruct insert_get as (_ & _ & _ & Hget). unfold classify. clear Hjob. generalize 0 as n.
  induction (deps job) as [|d ds IH]; intros n; simpl; [done|].
  destruct (Z.eqb_spec d id); [done|]. rewrite Hget, decide_False by done.
  destruct (Arena_get jobs d) as [t|]; [|done]. destruct (state t); try done; apply IH.
Qed.
End Insert.

(** Inserting a job under the handle announced for it, then submitting it. *)
Lemma submit_fresh s jobs job jobs1 id now config :
  Sched_inv s jobs → Job_wf job → Z.of_nat (length (deps job)) <= u32_max →
  state job = JobState.Submitted → id ∉ edges (sc_deps s) → id ≠ NO_OWNER →
  Arena_insert jobs job = Done (jobs1, id) → Z.of_nat (length (slots jobs1)) <= u32_max →
  Arena_next_id jobs = Done id ∧
  ∃ s' jobs' r, submit s id jobs1 now config = Done (s', jobs', r) ∧ Sched_inv s' jobs' ∧
    match check_submit id job jobs with
    | Ok rd => r = Ok (readiness_state rd) ∧
               jobs' = Arena_set jobs1 id (job_with_state job (readiness_state rd))
    | Err e => r = Err e ∧ jobs' = jobs1
    end.
Proof.
  intros Hinv Hwf Hlen Hs He Hne Hi Hsl. pose proof (conj Hwf Hlen) as Hjob.
  destruct (insert_get s jobs job jobs1 id Hinv Hi) as (_ & Hn & _ & Hget).
  split; [done|].
  destruct (submit_spec s jobs1 id job now config) as (s' & jobs' & r & E & Hinv' & Hr).
  - by eapply insert_inv.
  - rewrite Hget. by rewrite decide_True.
  - done.
  - by eapply insert_untracked.
  - exists s', jobs', r. split; [done|]. split; [done|]. revert Hr. unfold check_submit.
    by rewrite (insert_classify s jobs job jobs1 id Hinv Hi).
Qed.

(** Whoever is blocked is blocked by a live, unfinished job. *)
Lemma blocked_edge t x : Tracker_wf t → x ∈ edges t → tracked t x → ∃ a, dep_edge t a x.
Proof.
  intros Hwf Hin Hx. unfold edges in Hin. apply list_elem_of_In, in_concat in Hin as (l & Hl & Hxl).
  apply list_elem_of_In, list_elem_of_lookup in Hl as (k & Hk).
  assert (vec_get (dependents t) (Z.of_nat k) = Some l) as Hd by (rewrite vec_get_lookup, Nat2Z.id by lia; done).
  destruct (vec_get_total (owner t) (Z.of_nat k)) as [o Ho].
  { rewrite <-(tt_deps _ (tw_tables _ Hwf)). by eapply vec_get_range. }
  destruct (decide (o = NO_OWNER)) as [->|Hne].
  { apply (tw_vacant _ Hwf) in Ho. rewrite Hd in Ho. by injection Ho as ->. }
  pose proof (tt_place _ (tw_tables _ Hwf) _ _ Ho Hne) as Hp.
  exists o. split; [split; [done|by rewrite Hp]|]. split; [done|]. unfold deps_of. rewrite Hp, Hd. simpl.
  by apply list_elem_of_In.
Qed.

Lemma call_ok_dec s jobs c : call_ok s jobs c ∨ ¬ call_ok s jobs c.
Proof.
  destruct c as [id| | | | | |id| | |]; cbn; try tauto.
  - destruct (decide (job_state jobs id = Some JobState.Submitted)), (decide (tracked (sc_deps s) id)); tauto.
  - destruct (decide (job_state jobs id = Some JobState.Blocked)); tauto.
Qed.

Lemma call_kept s jobs now config c :
  Sched_inv s jobs → config_ok config → is_u64 now → call_wf c → call_ok s jobs c →
  ∃ s' jobs' accepted, run_call s jobs now config c = Done (s', jobs', accepted) ∧
    Sched_inv s' jobs' ∧ (accepted = false → jobs' = jobs).
Proof.
  intros Hinv Hcfg Hnow Hw Hc.
  assert (∀ A (o : exec (outcome A)), call_keeps jobs o → ∃ s' jobs' b,
    (let! '(s, jobs, r) := o in Done (s, jobs, match r with Ok _ => true | Err _ => false end))
      = Done (s', jobs', b) ∧ Sched_inv s' jobs' ∧ (b = false → jobs' = jobs)) as Hk.
  { intros A o (s' & jobs' & r & -> & ? & He). eexists _, _, _. split; [done|]. split; [done|].
    destruct r as [|e]; [done|]. intros _. by apply (He e). }
  destruct c as [id|id|id|id|id|id|id|id|a n|ls]; simpl in Hc, Hw |- *.
  1-8: first [apply Hk|apply (Hk _ (Done (preempt s id jobs)))].
  - by apply submit_keeps.
  - by apply on_completed_keeps.
  - by apply on_failed_keeps.
  - by apply cancel_keeps.
  - by apply preempt_keeps.
  - by apply on_preempted_keeps.
  - by apply requeue_keeps.
  - by apply restore_running_keeps.
  - destruct Hw as [Ha Hn]. unfold scheduler_set_shares.
    destruct (set_shares_spec (sc_fairshare s) a n (si_fs _ _ Hinv) Ha Hn) as (fs & r & -> & Hf & _).
    simpl. destruct r; eexists _, _, _; (split; [done|]); (split; [by apply Sched_inv_fs|done]).
  - unfold restore_ledgers. destruct (fairshare_restore_spec (sc_fairshare s) ls (si_fs _ _ Hinv) Hw)
      as (fs & r & -> & Hf & _).
    destruct r; eexists _, _, _; (split; [done|]); (split; [by apply Sched_inv_fs|done]).
Qed.

(** ** Properties *)

(** C3: Every lifecycle call returns without a panic, and one that is refused
    changes no job.  It keeps the scheduler's invariant (the ready set holds
    exactly the [Ready] jobs, a job is [Blocked] exactly while an unfinished
    dependency counts against it, every table is well formed) provided a submitted
    job is not yet waited for and a requeued job is not [Blocked]; neither is
    checked, and requeueing a [Blocked] job is accepted and breaks the invariant. *)
Theorem lifecycle_preserves_invariant s jobs now config c :
  Sched_inv s jobs → config_ok config → is_u64 now → call_wf c →
  ∃ s' jobs' accepted, run_call s jobs now config c = Done (s', jobs', accepted) ∧
    (accepted = false → jobs' = jobs) ∧
    (call_ok s jobs c → Sched_inv s' jobs') ∧
    (∀ id, c = CallRequeue id → job_state jobs id = Some JobState.Blocked → accepted = true ∧ ¬ Sched_inv s' jobs').
Proof.
  intros Hinv Hcfg Hnow Hc.
  destruct (call_ok_dec s jobs c) as [Hok|Hnok].
  - destruct (call_kept s jobs now config c Hinv Hcfg Hnow Hc Hok) as (s' & jobs' & b & E & Hs & Hb).
    exists s', jobs', b. split_and!; [done|done|done|]. intros id -> Hbl. by destruct Hok.
  - destruct c as [id|id|id|id|id|id|id|id|a n|ls]; try by destruct Hnok.
    + destruct (submit_total s jobs now config id Hinv) as (s' & jobs' & r & E & Hr). cbn [run_call]. rewrite E.
      eexists _, _, _. split; [done|]. split; [destruct r as [|e]; [done|]; intros _; by apply (Hr e)|]. by split.
    + cbn in Hnok. assert (job_state jobs id = Some JobState.Blocked) as Hb by (by destruct (decide (job_state jobs id = Some JobState.Blocked))).
      destruct (requeue_blocked s jobs now config id Hinv Hcfg Hnow Hb) as (s' & jobs' & E & Hn). cbn [run_call]. rewrite E.
      eexists _, _, _. split; [done|]. split; [done|]. split; [done|]. intros id' [= <-] _. done.
Qed.

(** Eligibility's four jobs, with nothing ready yet. *)
Definition demo_scheduler : Scheduler := MkScheduler ready_new demo_tracker FairShare_new.

Definition demo_config : CycleConfig :=
  MkCycleConfig (MkPriorityConfig PriorityWeights_default 1000000 (MkResources 1000 0 0))
    FairShareConfig_default PreemptConfig_default PackBudget_default 100.

Lemma demo_jobs_get x j :
  Arena_get demo_jobs x = Some j → x = 0 ∨ x = 1 ∨ x = 2 ∨ x = 3 ∨ x = 4.
Proof.
  intros [_ H]%Arena_get_Some%vec_get_Some. pose proof (JobId_index_range x) as Hr. simpl in H.
  rewrite <-(JobId_new_eta x). pose proof (JobId_index_range x).
  rewrite (JobId_new_arith _ _ Hr).
  destruct (Z.to_nat (JobId_index x)) as [|[|[|[|[|n]]]]] eqn:E; simplify_eq/=;
    match goal with H : 0 = JobId_generation _ |- _ => rewrite <-H | _ => idtac end; lia.
Qed.

Lemma demo_job_wf st ds : Forall is_u64 ds → Job_wf (demo_job st ds).
Proof. intros Hds. unfold Job_wf. simpl. split_and!; try done; by vm_compute. Qed.

Lemma demo_jobs_ok : jobs_ok demo_jobs.
Proof.
  split; [|done|].
  - assert (Arena_from_parts (Arena_slots demo_jobs) None = Done (Ok demo_jobs)) as H by reflexivity.
    eapply Arena_from_parts_wf in H as [H _]; [exact H|simpl; lia|].
    intros i s [Hi Hs]%vec_get_Some. apply list_elem_of_lookup_2 in Hs.
    repeat (apply elem_of_cons in Hs as [->|Hs]; [unfold is_u32; simpl; lia|]).
    by apply elem_of_nil in Hs.
  - intros x j Hj. destruct (demo_jobs_get x j Hj) as [->|[->|[->|[->| ->]]]]; cbn in Hj;
      injection Hj as <-; (split; [apply demo_job_wf; repeat constructor; done|done]).
Qed.

Lemma demo_scheduler_inv : Sched_inv demo_scheduler demo_jobs.
Proof.
  split; [apply demo_jobs_ok| | |apply FairShare_new_wf].
  - split; [apply demo_tracker_wf|apply demo_tracker_arena|]. intros x. simpl. rewrite demo_tracked. split.
    + unfold job_state. destruct (Arena_get demo_jobs x) as [j|] eqn:Hj; [|done].
      destruct (demo_jobs_get x j Hj) as [->|[->|[->|[->| ->]]]]; cbn in Hj; injection Hj as <-;
        intros [=]; (split; [lia|by vm_compute]).
    + intros [[->|[->|[->| ->]]] Hc]; by vm_compute in Hc |- *.
  - exists []. split; [apply (ready_holds_new 0)|constructor|by intros e ?%elem_of_nil|].
    intros x. unfold job_state. destruct (Arena_get demo_jobs x) as [j|] eqn:Hj; [|done].
    destruct (demo_jobs_get x j Hj) as [->|[->|[->|[->| ->]]]]; cbn in Hj; by injection Hj as <-.
Qed.

Lemma lifecycle_preserves_invariant_witness :
  ∃ s' jobs' accepted,
    run_call demo_scheduler demo_jobs 1000 demo_config (CallSubmit 4) = Done (s', jobs', accepted) ∧
    Sched_inv s' jobs' ∧ (accepted = false → jobs' = demo_jobs).
Proof.
  destruct (lifecycle_preserves_invariant demo_scheduler demo_jobs 1000 demo_config (CallSubmit 4))
    as (s' & jobs' & b & E & Hb & Hinv & _); [apply demo_scheduler_inv|by vm_compute|by vm_compute|exact I|].
  exists s', jobs', b. split; [exact E|]. split; [|exact Hb]. apply Hinv. intros _ H%demo_tracked. lia.
Defined.

(** C26: [check_submit] predicts [submit].  For the handle [next_id] announces,
    inserting the job and submitting it fails exactly when [check_submit] on the
    arena before the insert fails, with the same error and no job changed, and
    otherwise moves the new job to the announced state; it never panics and
    keeps the invariant. *)
Theorem check_submit_predicts_submit s jobs job jobs1 id now config :
  Sched_inv s jobs → Job_wf job → Z.of_nat (length (deps job)) <= u32_max →
  state job = JobState.Submitted → id ∉ edges (sc_deps s) → id ≠ NO_OWNER →
  Arena_insert jobs job = Done (jobs1, id) → Z.of_nat (length (slots jobs1)) <= u32_max →
  Arena_next_id jobs = Done id ∧
  ∃ s' jobs' r, submit s id jobs1 now config = Done (s', jobs', r) ∧ Sched_inv s' jobs' ∧
    match check_submit id job jobs with
    | Ok rd => r = Ok (readiness_state rd) ∧
               jobs' = Arena_set jobs1 id (job_with_state job (readiness_state rd))
    | Err e => r = Err e ∧ jobs' = jobs1
    end.
Proof. apply submit_fresh. Qed.

Lemma check_submit_predicts_submit_witness :
  let job := demo_job JobState.Submitted [2] in
  let jobs1 := MkArena (slots demo_jobs ++ [Slot.Occupied 0 job]) None 6 in
  Arena_next_id demo_jobs = Done 5 ∧
  ∃ s' jobs' r, submit demo_scheduler 5 jobs1 1000 demo_config = Done (s', jobs', r) ∧
    Sched_inv s' jobs' ∧
    match check_submit 5 job demo_jobs with
    | Ok rd => r = Ok (readiness_state rd) ∧
               jobs' = Arena_set jobs1 5 (job_with_state job (readiness_state rd))
    | Err e => r = Err e ∧ jobs' = jobs1
    end.
Proof.
  intros job jobs1.
  apply (check_submit_predicts_submit demo_scheduler demo_jobs job jobs1 5 1000 demo_config);
    [apply demo_scheduler_inv|apply demo_job_wf; by repeat constructor|by vm_compute|done| |done|by vm_compute|done].
  cbn. set_solver.
Defined.

(** C27: Completing a job that holds a slot promotes to [Ready] exactly the
    dependents it was the last to hold back, marks it [Completed], and changes
    no other job's state. *)
Theorem completion_wakes_dependents s jobs id j now config :
  Sched_inv s jobs → config_ok config → is_u64 now →
  Arena_get jobs id = Some j → occupies_slot (state j) = true →
  ∃ s' jobs' promoted, on_completed s id jobs now config = Done (s', jobs', Ok promoted) ∧
    Sched_inv s' jobs' ∧ NoDup promoted ∧
    (∀ x, x ∈ promoted ↔ dep_edge (sc_deps s) id x ∧
                         edge_count (sc_deps s) x = count_id x (deps_of (sc_deps s) id)) ∧
    state_after jobs id JobState.Completed promoted JobState.Ready jobs'.
Proof. apply on_completed_spec. Qed.

Lemma completion_wakes_dependents_witness :
  (on_completed demo_scheduler 0 demo_jobs 1000 demo_config ⇓ fun r => r.2 = Ok [1]) ∧
  ∃ s' jobs' promoted, on_completed demo_scheduler 0 demo_jobs 1000 demo_config = Done (s', jobs', Ok promoted) ∧
    Sched_inv s' jobs' ∧ NoDup promoted ∧
    (∀ x, x ∈ promoted ↔ dep_edge demo_tracker 0 x ∧
                         edge_count demo_tracker x = count_id x (deps_of demo_tracker 0)) ∧
    state_after demo_jobs 0 JobState.Completed promoted JobState.Ready jobs'.
Proof.
  split; [by vm_compute|].
  apply (completion_wakes_dependents demo_scheduler demo_jobs 0 (demo_job JobState.Running []));
    [apply demo_scheduler_inv|by vm_compute|by vm_compute|done|done].
Defined.

(** C28: Failing a job that holds a slot, or cancelling any unfinished job, ends
    it and cancels exactly its live transitive dependents, each once; no other
    job changes state, the cascaded jobs were all [Blocked], and the invariant
    holds afterwards. *)
Theorem failure_cascades s jobs id j now config :
  Sched_inv s jobs → config_ok config → is_u64 now → Arena_get jobs id = Some j →
  (occupies_slot (state j) = true →
   ∃ s' jobs' C, on_failed s id jobs now config = Done (s', jobs', Ok C) ∧
     terminated_post s jobs id JobState.Failed s' jobs' C ∧ all_blocked jobs C) ∧
  (is_terminal (state j) = false →
   ∃ s' jobs' C, cancel s id jobs now config = Done (s', jobs', Ok C) ∧
     terminated_post s jobs id JobState.Cancelled s' jobs' C ∧ all_blocked jobs C).
Proof.
  intros Hinv Hcfg Hnow Hj.
  assert (∀ st s' jobs' C, terminated_post s jobs id st s' jobs' C → all_blocked jobs C) as Hb.
  { intros st s' jobs' C (_ & _ & HC & _) x [? ?]%HC. eapply cascade_blocked; [apply Hinv|done|done]. }
  split; intros Hs.
  - destruct (on_failed_spec s jobs id j now config) as (s' & jobs' & C & ? & ?); [done..|]. eauto 10.
  - destruct (cancel_spec s jobs id j now config) as (s' & jobs' & C & ? & ?); [done..|]. eauto 10.
Qed.

Lemma failure_cascades_witness :
  ((true = true) → ∃ s' jobs' C, on_failed demo_scheduler 0 demo_jobs 1000 demo_config = Done (s', jobs', Ok C) ∧
     terminated_post demo_scheduler demo_jobs 0 JobState.Failed s' jobs' C ∧ all_blocked demo_jobs C) ∧
  ((false = false) → ∃ s' jobs' C, cancel demo_scheduler 0 demo_jobs 1000 demo_config = Done (s', jobs', Ok C) ∧
     terminated_post demo_scheduler demo_jobs 0 JobState.Cancelled s' jobs' C ∧ all_blocked demo_jobs C).
Proof.
  apply (failure_cascades demo_scheduler demo_jobs 0 (demo_job JobState.Running []));
    [apply demo_scheduler_inv|by vm_compute|by vm_compute|done].
Defined.

(** No job is blocked on nothing: a [Blocked] job has a dependency that is
    live, unfinished and recorded to wake it. *)
Theorem blocked_jobs_have_a_waker s jobs x :
  Sched_inv s jobs → job_state jobs x = Some JobState.Blocked →
  ∃ a, dep_edge (sc_deps s) a x ∧ is_pending jobs a = true.
Proof.
  intros Hinv Hb. destruct (si_deps _ _ Hinv) as [Hwf Ha Hblk]. apply Hblk in Hb as [Hx Hc].
  destruct (blocked_edge _ x Hwf) as (a & He); [by apply count_id_elem|done|].
  exists a. split; [done|]. apply (ta_live _ _ Ha), He.
Qed.

Lemma blocked_jobs_have_a_waker_witness :
  ∃ a, dep_edge demo_tracker a 2 ∧ is_pending demo_jobs a = true.
Proof. apply (blocked_jobs_have_a_waker demo_scheduler demo_jobs 2); [apply demo_scheduler_inv|done]. Defined.

(** Eviction: a job that holds a slot goes back to [Ready] and to the ready
    set with everything else about it unchanged when its worker is lost, and
    with its eviction counted (saturating at 255) when the worker confirms a
    preemption; no other job changes. *)
Theorem eviction_requeues s jobs id j now config :
  Sched_inv s jobs → config_ok config → is_u64 now → Arena_get jobs id = Some j →
  (occupies_slot (state j) = true →
   ∃ s' jobs', requeue s id jobs now config = Done (s', jobs', Ok tt) ∧ Sched_inv s' jobs' ∧
     ∀ x, Arena_get jobs' x = if decide (id = x) then Some (job_with_state j JobState.Ready)
                              else Arena_get jobs x) ∧
  (state j = JobState.Preempted →
   ∃ s' jobs', on_preempted s id jobs now config = Done (s', jobs', Ok tt) ∧ Sched_inv s' jobs' ∧
     ∀ x, Arena_get jobs' x =
       if decide (id = x)
       then Some (job_with_state (job_with_preemptions j (Z.min u8_max (preemptions j + 1))) JobState.Ready)
       else Arena_get jobs x).
Proof. intros ????. split; intros ?; [by apply requeue_spec|by apply on_preempted_spec]. Qed.

Lemma eviction_requeues_witness :
  ∃ s' jobs', requeue demo_scheduler 0 demo_jobs 1000 demo_config = Done (s', jobs', Ok tt) ∧
    Sched_inv s' jobs' ∧
    ∀ x, Arena_get jobs' x = if decide (0 = x)
                             then Some (job_with_state (demo_job JobState.Running []) JobState.Ready)
                             else Arena_get demo_jobs x.
Proof.
  apply (eviction_requeues demo_scheduler demo_jobs 0 (demo_job JobState.Running []));
    [apply demo_scheduler_inv|by vm_compute|by vm_compute|done|done].
Defined.

(** [requeue] takes any state from which [Ready] is reachable: called for a
    [Blocked] job it makes the job ready with its dependency unfinished. *)
Example requeue_accepts_blocked :
  requeue demo_scheduler 1 demo_jobs 1000 demo_config ⇓ fun r =>
    r.2 = Ok tt ∧ job_state r.1.2 1 = Some JobState.Ready ∧ job_state r.1.2 0 = Some JobState.Running.
Proof. by vm_compute. Qed.
