(* ===== verification/Cycle.v ===== *)
(** * The scheduling cycle

    [Scheduler::run_cycle] of [crates/tasker-core/src/engine/cycle.rs]:
    refresh, drain, rescore, order, pack, backfill, emit.  The cycle is shown
    never to panic, to keep the scheduler's invariant and the inventory within
    capacity, and to change exactly the jobs it decided on. *)

From stdpp Require Import base list numbers option sorting sets relations.
From Stdlib Require Import ZArith Lia.
From S2P Require Import Prelude Domain Arena Job Inventory Priority ReadySet Eligibility.
From S2P Require Import Decay FairShare Pack Backfill Preempt Scheduler.
Open Scope Z_scope.

Record CycleOutcome : Type := MkCycleOutcome {
  co_candidates : Z;
  co_dispatched : Z;
  co_backfilled : Z;
  co_head : option JobId;
  co_reservation : option VirtualTime;
  co_budget_exhausted : bool;
}.

Definition CycleOutcome_default : CycleOutcome := MkCycleOutcome 0 0 0 None None false.

(** Everything [run_cycle] holds a mutable reference to, with what it returns. *)
Record CycleResult : Type := MkCycleResult {
  cy_scheduler : Scheduler;
  cy_jobs : Arena Job;
  cy_inventory : SlotInventory;
  cy_decisions : list DispatchDecision;
  cy_outcome : CycleOutcome;
}.

(** The loop body that rescores a candidate. *)
Definition rescore (fs : FairShare) (jobs : Arena Job) (now : VirtualTime) (config : CycleConfig)
    (entry : ReadyEntry) : ReadyEntry :=
  match Arena_get jobs (re_job entry) with
  | Some job => MkReadyEntry (re_class entry) (re_job entry) (score_now fs job now config)
  | None => entry
  end.

(** The comparator handed to [sort_unstable_by]. *)
Definition candidate_cmp (a b : ReadyEntry) : comparison :=
  match ordinal (re_class b) ?= ordinal (re_class a) with
  | Eq => OrderKey_cmp (OrderKey_new (re_score b) (re_job b)) (OrderKey_new (re_score a) (re_job a))
  | c => c
  end.

Definition candidate_le (a b : ReadyEntry) : Prop := candidate_cmp a b ≠ Gt.

#[export] Instance candidate_le_dec a b : Decision (candidate_le a b).
Proof. unfold candidate_le. destruct (candidate_cmp a b); [left|left|right]; congruence. Defined.

Definition sort_candidates (l : list ReadyEntry) : list ReadyEntry := merge_sort candidate_le l.

(** One step of the emit loop. *)
Definition emit_one (now : VirtualTime) (config : CycleConfig) (entry : ReadyEntry) (d : Disposition)
    (ready : ReadySet) (fs : FairShare) (jobs : Arena Job) : exec (ReadySet * FairShare * Arena Job) :=
  match d with
  | Disposition.Dispatched =>
      match Arena_get jobs (re_job entry) with
      | None => Done (ready, fs, jobs)
      | Some job =>
          match try_transition job JobState.Running with
          | Err _ => Panic
          | Ok job =>
              let jobs := Arena_set jobs (re_job entry) job in
              let! fs := on_dispatch fs (account job) (cpu_millis (request job)) now
                           (cc_fairshare config) in
              Done (ready, fs, jobs)
          end
      end
  | Disposition.Pending => let! ready := reinsert ready entry in Done (ready, fs, jobs)
  | Disposition.Dropped => Done (ready, fs, jobs)
  end.

Fixpoint emit_loop (now : VirtualTime) (config : CycleConfig) (disposition : list Disposition)
    (index : nat) (candidates : list ReadyEntry) (ready : ReadySet) (fs : FairShare) (jobs : Arena Job)
  : exec (ReadySet * FairShare * Arena Job) :=
  match candidates with
  | [] => Done (ready, fs, jobs)
  | entry :: rest =>
      let! d := nth_at disposition index in
      let! '(ready, fs, jobs) := emit_one now config entry d ready fs jobs in
      emit_loop now config disposition (S index) rest ready fs jobs
  end.

(** Backfill, only when packing stopped at a head job. *)
Definition backfill_stage (candidates : list ReadyEntry) (jobs : Arena Job)
    (running : list RunningJob) (now : VirtualTime) (config : CycleConfig) (p : Placement)
    (packed : PackOutcome) : exec (Placement * CycleOutcome) :=
  let candidates_len := Z.of_nat (length candidates) in
  match head packed with
  | None =>
      Done (p, MkCycleOutcome candidates_len (dispatched packed) 0 None None (budget_exhausted packed))
  | Some head_index =>
      let! entry := nth_at candidates head_index in
      let! '(p, b) := easy_backfill candidates head_index jobs running now (cc_budget config) p in
      Done (p, MkCycleOutcome candidates_len (dispatched packed) (backfilled b)
                 (Some (re_job entry)) (reservation b) (budget_exhausted packed))
  end.

Definition run_cycle (s : Scheduler) (jobs : Arena Job) (inventory : SlotInventory)
    (running : list RunningJob) (now : VirtualTime) (config : CycleConfig)
    (decisions : list DispatchDecision) : exec CycleResult :=
  let! fs := refresh (sc_fairshare s) now (cc_fairshare config) in
  let! '(ready, drained) := drain_ordered_into (sc_ready s) (max_candidates config) in
  match drained with
  | [] => Done (MkCycleResult (MkScheduler ready (sc_deps s) fs) jobs inventory decisions
                              CycleOutcome_default)
  | _ :: _ =>
      let candidates := sort_candidates (map (rescore fs jobs now config) drained) in
      let disposition := replicate (length candidates) Disposition.Pending in
      let! '(p, packed) := pack candidates jobs (cc_budget config)
                             (MkPlacement inventory disposition decisions) in
      let! '(p, outcome) := backfill_stage candidates jobs running now config p packed in
      let! '(ready, fs, jobs) := emit_loop now config (pl_disposition p) 0 candidates ready fs jobs in
      Done (MkCycleResult (MkScheduler ready (sc_deps s) fs) jobs (pl_inventory p) (pl_decisions p)
                          outcome)
  end.

(** ** Ordering *)

Lemma candidate_cmp_Gt a b : candidate_cmp a b = Gt ↔ ready_before b a.
Proof.
  unfold candidate_cmp, ready_before, outranks, entry_key.
  destruct (Z.compare_spec (ordinal (re_class b)) (ordinal (re_class a))) as [E|E|E].
  - apply ordinal_inj in E. rewrite <-OrderKey_gt_spec. unfold OrderKey_gt. simpl. rewrite E.
    destruct (OrderKey_cmp _ _); naive_solver lia.
  - split; [done|]. intros [?|[Ec _]]; [lia|]. rewrite Ec in E. lia.
  - split; [|done]. auto.
Qed.

Lemma candidate_le_before a b : candidate_le a b ↔ ¬ ready_before b a.
Proof. unfold candidate_le. by rewrite candidate_cmp_Gt. Qed.

#[export] Instance candidate_le_total : Total candidate_le.
Proof.
  intros a b. rewrite !candidate_le_before. destruct (ready_before_total a b) as [H|[->|H]].
  - left. intros H'. apply (ready_before_irrefl a). by eapply ready_before_trans.
  - left. apply ready_before_irrefl.
  - right. intros H'. apply (ready_before_irrefl a). by eapply ready_before_trans.
Qed.

#[export] Instance candidate_le_trans : Transitive candidate_le.
Proof.
  intros a b c. rewrite !candidate_le_before. intros H1 H2 H.
  destruct (ready_before_total a b) as [?|[->|?]]; [|done|done].
  apply H2. by eapply ready_before_trans.
Qed.

(** The candidates in strictly descending order, the same entries. *)
Lemma sort_candidates_spec l :
  NoDup (re_job <$> l) →
  sort_candidates l ≡ₚ l ∧ StronglySorted ready_before (sort_candidates l).
Proof.
  intros Hnd. unfold sort_candidates. pose proof (merge_sort_Permutation candidate_le l) as Hp.
  split; [done|]. rewrite <-Hp in Hnd. clear Hp. pose proof (StronglySorted_merge_sort candidate_le l) as Hs.
  induction Hs as [|a k Hs IH Ha]; [constructor|]. simpl in Hnd. apply NoDup_cons in Hnd as [Hn Hnd].
  constructor; [by apply IH|]. rewrite Forall_forall in Ha |- *. intros b Hb.
  specialize (Ha b Hb). rewrite candidate_le_before in Ha.
  destruct (ready_before_total a b) as [?|[->|?]]; [done| |done].
  destruct Hn. by apply list_elem_of_fmap_2.
Qed.

(** ** Emission *)

(** The ready set while the entries [todo] are out of it: together with [E]
    they are exactly the [Ready] jobs. *)
Record ready_split (rs : ReadySet) (jobs : Arena Job) (E todo : list ReadyEntry) : Prop := {
  rp_holds : ready_holds rs E;
  rp_nodup : NoDup (re_job <$> (E ++ todo));
  rp_sound : ∀ e, e ∈ E ++ todo → ∃ j, Arena_get jobs (re_job e) = Some j ∧
    state j = JobState.Ready ∧ priority_class j = re_class e;
  rp_complete : ∀ x, job_state jobs x = Some JobState.Ready → x ∈ re_job <$> (E ++ todo);
}.

Lemma ready_split_ok rs jobs E : ready_split rs jobs E [] → ready_ok rs jobs E.
Proof. intros [H1 H2 H3 H4]. rewrite app_nil_r in *. by split. Qed.

(** What the steps of the emit loop keep besides the ready set. *)
Record emit_ok (t : DependencyTracker) (fs : FairShare) (jobs : Arena Job) : Prop := {
  eo_jobs : jobs_ok jobs;
  eo_deps : deps_ok t jobs;
  eo_fs : FairShare_wf fs;
}.

(** The entries that go back to the ready set. *)
Fixpoint left_over (es : list ReadyEntry) (ds : list Disposition) : list ReadyEntry :=
  match es, ds with
  | e :: es', Disposition.Pending :: ds' => e :: left_over es' ds'
  | _ :: es', _ :: ds' => left_over es' ds'
  | _, _ => []
  end.

Lemma chosen_elem es ds x : x ∈ chosen es ds → x ∈ re_job <$> es.
Proof.
  revert ds. induction es as [|e es IH]; intros [|d ds]; simpl; [set_solver..|].
  destruct d; rewrite !elem_of_cons; naive_solver.
Qed.

Section Emit.
Context (now : VirtualTime) (config : CycleConfig) (t : DependencyTracker).
Hypothesis Hnow : is_u64 now.
Hypothesis Hcfg : config_ok config.

Lemma emit_pending rs fs jobs E e todo :
  ready_split rs jobs E (e :: todo) → jobs_ok jobs →
  ∃ rs', emit_one now config e Disposition.Pending rs fs jobs = Done (rs', fs, jobs) ∧
    ready_split rs' jobs (e :: E) todo.
Proof.
  intros [H1 H2 H3 H4] Hjo. simpl. unfold reinsert.
  assert (E ++ e :: todo ≡ₚ (e :: E) ++ todo) as Hp by (simpl; by rewrite Permutation_middle).
  rewrite Hp in H2. setoid_rewrite Hp in H3. setoid_rewrite Hp in H4.
  destruct (ready_insert_holds rs E (re_class e) (re_job e) (re_score e) H1) as (rs' & -> & Hh).
  - intros x Hx _ Ex. destruct (H3 x) as (jx & Hjx & _); [right; set_solver|].
    destruct (H3 e) as (je & Hje & _); [by left|].
    assert (re_job x = re_job e) as Hxe by (by eapply Arena_index_inj).
    simpl in H2. apply NoDup_cons in H2 as [Hn _]. apply Hn. rewrite <-Hxe.
    apply list_elem_of_fmap_2. set_solver.
  - pose proof (live_handles_bound jobs _ H2) as Hb. rewrite length_fmap, length_app in Hb.
    cbn [length] in Hb. pose proof (jo_slots _ Hjo).
    enough (S (length E + length todo) <= length (slots jobs))%nat by lia. apply Hb.
    intros x (y & -> & Hy)%list_elem_of_fmap. destruct (H3 y Hy) as (j & ? & _). eauto.
  - exists rs'. split; [done|]. split; [|done..]. by destruct e.
Qed.

Lemma emit_dispatched rs fs jobs E e todo :
  ready_split rs jobs E (e :: todo) → emit_ok t fs jobs →
  ∃ fs' j, Arena_get jobs (re_job e) = Some j ∧
    emit_one now config e Disposition.Dispatched rs fs jobs =
      Done (rs, fs', Arena_set jobs (re_job e) (job_with_state j JobState.Running)) ∧
    ready_split rs (Arena_set jobs (re_job e) (job_with_state j JobState.Running)) E todo ∧
    emit_ok t fs' (Arena_set jobs (re_job e) (job_with_state j JobState.Running)).
Proof.
  intros [H1 H2 H3 H4] [Hjo Hdo Hfs]. destruct (H3 e) as (j & Hj & Hs & _); [set_solver|].
  destruct (on_dispatch_spec fs (account j) (cpu_millis (request j)) now (cc_fairshare config))
    as (fs' & Efs & Hfs' & _); [done..|by eapply job_cpu_nonneg|].
  exists fs', j. split; [done|]. simpl. rewrite Hj. unfold try_transition. rewrite Hs. cbn [can_transition_to].
  simpl. rewrite Efs. cbn [exec_bind]. split; [done|].
  rewrite <-Permutation_middle, fmap_cons in H2. apply NoDup_cons in H2 as [Hn Hnd]. split; split; try done.
  - intros x Hx. destruct (H3 x) as (jx & Hjx & ?); [set_solver|]. exists jx.
    rewrite (Arena_set_get _ _ _ _ _ Hj), decide_False; [done|]. intros Ex. apply Hn. rewrite Ex.
    by apply list_elem_of_fmap_2.
  - intros x. rewrite (job_state_set _ _ _ _ _ Hj). case_decide as Ex; [done|]. intros Hx%H4.
    rewrite <-Permutation_middle, fmap_cons in Hx. apply elem_of_cons in Hx as [->|?]; done.
  - eapply jobs_ok_set; [done|done|by apply (jo_jobs _ Hjo _ _ Hj)|done].
  - eapply deps_ok_move; try done; by rewrite Hs.
Qed.

Lemma emit_loop_spec todo pre ds rs fs jobs E :
  ready_split rs jobs E todo → emit_ok t fs jobs →
  Forall2 (fun _ d => d ≠ Disposition.Dropped) todo ds →
  ∃ rs' fs' jobs', emit_loop now config (pre ++ ds) (length pre) todo rs fs jobs = Done (rs', fs', jobs') ∧
    emit_ok t fs' jobs' ∧ moved jobs (chosen todo ds) JobState.Running jobs' ∧
    ∃ E', ready_ok rs' jobs' E' ∧ E' ≡ₚ left_over todo ds ++ E.
Proof.
  intros Hrp Hok Hds. revert pre rs fs jobs E Hrp Hok.
  induction Hds as [|e d todo ds Hd Hds IH]; intros pre rs fs jobs E Hrp Hok.
  { exists rs, fs, jobs. eauto 10 using moved_nil, ready_split_ok. }
  cbn [emit_loop]. rewrite (nth_at_Done _ _ d) by by apply list_lookup_middle. cbn [exec_bind].
  replace (pre ++ d :: ds) with ((pre ++ [d]) ++ ds) by by rewrite <-app_assoc.
  replace (S (length pre)) with (length (pre ++ [d])) by (rewrite length_app; simpl; lia).
  destruct d; [| |done].
  - destruct (emit_pending rs fs jobs E e todo Hrp (eo_jobs _ _ _ Hok)) as (rs1 & -> & Hrp1). cbn [exec_bind].
    destruct (IH (pre ++ [Disposition.Pending]) rs1 fs jobs _ Hrp1 Hok)
      as (rs' & fs' & jobs' & -> & ? & ? & E' & ? & HE). exists rs', fs', jobs'.
    do 3 (split; [done|]). exists E'. split; [done|]. rewrite HE. simpl. by rewrite Permutation_middle.
  - assert (re_job e ∉ re_job <$> todo) as Hn.
    { pose proof (rp_nodup _ _ _ _ Hrp) as Hnd. rewrite fmap_app in Hnd. apply NoDup_app in Hnd as (_ & _ & Hnd).
      simpl in Hnd. by apply NoDup_cons in Hnd as [? _]. }
    destruct (emit_dispatched rs fs jobs E e todo Hrp Hok) as (fs1 & j & Hj & -> & Hrp1 & Hok1). cbn [exec_bind].
    destruct (IH (pre ++ [Disposition.Dispatched]) rs fs1 _ _ Hrp1 Hok1)
      as (rs' & fs' & jobs' & -> & ? & ? & E' & ? & HE). exists rs', fs', jobs'.
    do 2 (split; [done|]). split; [|eauto]. eapply moved_cons; [done| |done]. by intros ?%chosen_elem.
Qed.
End Emit.

(** ** Placement: packing and backfill together *)

(** The candidates are distinct [Ready] jobs, out of the ready set. *)
Lemma rescore_job fs jobs now config e : re_job (rescore fs jobs now config e) = re_job e.
Proof. unfold rescore. by destruct (Arena_get _ _). Qed.

Lemma rescore_class fs jobs now config e : re_class (rescore fs jobs now config e) = re_class e.
Proof. unfold rescore. by destruct (Arena_get _ _). Qed.

Lemma ready_split_drain s jobs E rs1 out E1 fs now config :
  ready_ok (sc_ready s) jobs E → ready_holds rs1 E1 → E ≡ₚ out ++ E1 →
  let candidates := sort_candidates (map (rescore fs jobs now config) out) in
  ready_split rs1 jobs E1 candidates ∧ candidates ≡ₚ map (rescore fs jobs now config) out ∧
  StronglySorted ready_before candidates.
Proof.
  intros [H1 H2 H3 H4] Hh HE candidates.
  assert (∀ l, re_job <$> map (rescore fs jobs now config) l = re_job <$> l) as Hj.
  { intros l. change (map ?f l) with (f <$> l). rewrite <-list_fmap_compose. apply list_fmap_ext.
    intros i x _. apply rescore_job. }
  assert (NoDup (re_job <$> map (rescore fs jobs now config) out)) as Hnd.
  { rewrite Hj. rewrite HE, fmap_app in H2. by apply NoDup_app in H2 as (? & _). }
  destruct (sort_candidates_spec _ Hnd) as [Hp Hs]. split; [|done].
  assert (re_job <$> E ≡ₚ re_job <$> (E1 ++ candidates)) as HE'.
  { rewrite HE, !fmap_app, (Permutation_app_comm (re_job <$> out)). unfold candidates. by rewrite Hp, Hj. }
  split; [done|by rewrite <-HE'| |].
  - intros e [He|He]%elem_of_app; [apply H3; rewrite HE; set_solver|].
    unfold candidates in He. rewrite Hp in He. apply list_elem_of_fmap in He as (e0 & -> & He0).
    rewrite rescore_job, rescore_class. apply H3. rewrite HE. set_solver.
  - intros x Hx. rewrite <-HE'. by apply H4.
Qed.

(** Every candidate has its disposition, and the decisions name the
    dispatched ones in order. *)
Record placed (jobs : Arena Job) (inv : SlotInventory) (decisions : list DispatchDecision)
    (candidates : list ReadyEntry) (p : Placement) (new : list DispatchDecision) : Prop := {
  pd_alloc : allocate_all jobs inv new = Some (pl_inventory p);
  pd_decs : pl_decisions p = decisions ++ new;
  pd_disp : Forall2 (disposed jobs) candidates (pl_disposition p);
  pd_jobs : dd_job <$> new = chosen candidates (pl_disposition p);
}.

Lemma walked_disposed jobs es : Forall2 (disposed jobs) es (walked jobs <$> es).
Proof.
  induction es as [|e es IH]; simpl; constructor; [|done]. unfold walked, disposed.
  by destruct (live jobs e) eqn:E.
Qed.

Lemma walked_chosen jobs es : chosen es (walked jobs <$> es) = re_job <$> List.filter (live jobs) es.
Proof.
  induction es as [|e es IH]; [done|]. rewrite fmap_cons. cbn [List.filter].
  unfold walked at 1. destruct (live jobs e); cbn [chosen]; [|done]. by rewrite fmap_cons, IH.
Qed.

(** Packing alone leaves the rest of the candidates [Pending]. *)
Lemma packed_placed jobs inv decisions seen rest p new :
  pack_inv jobs (MkPlacement inv (replicate (length (seen ++ rest)) Disposition.Pending) decisions) seen p new →
  placed jobs inv decisions (seen ++ rest) p new ∧
  pl_disposition p = (walked jobs <$> seen) ++ replicate (length rest) Disposition.Pending.
Proof.
  intros [H1 H2 H3 H4]. cbn [pl_inventory pl_disposition pl_decisions] in *.
  rewrite drop_replicate, length_app, Nat.add_comm, Nat.add_sub in H4. split; [|done]. split; [done|done|..].
  - rewrite H4. apply Forall2_app; [apply walked_disposed|apply disposed_pending].
  - rewrite H4, chosen_app by (by rewrite length_fmap). rewrite chosen_pending, app_nil_r. by rewrite walked_chosen.
Qed.

(** Backfill after packing. *)
Lemma backfilled_placed jobs inv decisions running now seen e rest p new p' back B :
  placed jobs inv decisions (seen ++ e :: rest) p new →
  pl_disposition p = (walked jobs <$> seen) ++ replicate (S (length rest)) Disposition.Pending →
  backfill_post jobs running now rest (S (length seen)) p p' back B →
  placed jobs inv decisions (seen ++ e :: rest) p' (new ++ back).
Proof.
  intros [H1 H2 H3 H4] Hd [Ha _ _ Hdec _ (ds & Hdisp & Hds & Hch)].
  assert (take (S (length seen)) (pl_disposition p) = (walked jobs <$> seen) ++ [Disposition.Pending]) as Ht.
  { rewrite Hd, <-(length_fmap (walked jobs) seen).
    replace (S (length (walked jobs <$> seen))) with (length (walked jobs <$> seen) + 1)%nat by lia.
    by rewrite take_app_add. }
  assert (drop (S (length seen) + length rest) (pl_disposition p) = []) as Hdr.
  { apply drop_ge. rewrite Hd, length_app, length_fmap, length_replicate. lia. }
  rewrite Ht, Hdr, app_nil_r, <-app_assoc in Hdisp. simpl in Hdisp.
  split.
  - by rewrite allocate_all_app, H1.
  - by rewrite Hdec, H2, app_assoc.
  - rewrite Hdisp. apply Forall2_app; [apply walked_disposed|]. by constructor.
  - rewrite fmap_app, H4, Hdisp, Hd, !chosen_app by by rewrite length_fmap. simpl.
    by rewrite chosen_pending, app_nil_r, Hch.
Qed.

Lemma jobs_ok_requests jobs : jobs_ok jobs → requests_wf jobs.
Proof. intros Hjo id j Hj. destruct (jo_jobs _ Hjo _ _ Hj) as [(_ & _ & ? & _) _]. done. Qed.

(** Where packing stopped, and what that left for backfill: [packed] starts the
    first candidates, the head is the next one and fits on no slot. *)
Definition cycle_stages (jobs : Arena Job) (inv : SlotInventory) (running : list RunningJob)
    (now : VirtualTime) (budget : PackBudget) (candidates : list ReadyEntry)
    (packed back : list DispatchDecision) (inv' : SlotInventory) (out : CycleOutcome) : Prop :=
  ∃ seen rest inv1 B, candidates = seen ++ rest ∧ dd_job <$> packed = re_job <$> seen ∧
    allocate_all jobs inv packed = Some inv1 ∧ Forall2 (started jobs now) back B ∧
    match co_head out with
    | Some h => co_budget_exhausted out = false ∧
        ∃ e rest' j, rest = e :: rest' ∧ re_job e = h ∧ Arena_get jobs h = Some j ∧
          (∀ i s, vec_get (worker_slots inv1) i = Some s → ¬ Resources_le (request j) (WorkerSlot_free s)) ∧
          match co_reservation out with
          | Some R => ∃ at_, reservation_time (request j) inv' (running ++ B) now = Done (Some at_) ∧ at_ <= R
          | None => back = []
          end
    | None => back = [] ∧
        if co_budget_exhausted out
        then max_decisions budget <= Z.of_nat (length packed) ∨ max_scanned budget <= Z.of_nat (length seen)
        else rest = []
    end.

Section Stages.
Context (jobs : Arena Job) (inv : SlotInventory) (running : list RunningJob) (now : VirtualTime).
Context (config : CycleConfig) (decisions : list DispatchDecision) (candidates : list ReadyEntry).
Hypothesis Hjobs : requests_wf jobs.
Hypothesis Hinv : inventory_ok jobs inv.
Hypothesis Hrun : running_ok running.
Hypothesis Hlive : ∀ e, e ∈ candidates → live jobs e = true.

Lemma filter_live l : (∀ e, e ∈ l → live jobs e = true) → List.filter (live jobs) l = l.
Proof.
  induction l as [|e l IH]; intros Hl; [done|]. cbn [List.filter].
  rewrite (Hl e) by by left. f_equal. apply IH. intros x Hx. apply Hl. by right.
Qed.

Lemma stages_spec :
  ∃ p1 po p2 out packed back,
    pack candidates jobs (cc_budget config)
      (MkPlacement inv (replicate (length candidates) Disposition.Pending) decisions) = Done (p1, po) ∧
    backfill_stage candidates jobs running now config p1 po = Done (p2, out) ∧
    placed jobs inv decisions candidates p2 (packed ++ back) ∧
    co_dispatched out = Z.of_nat (length packed) ∧ co_backfilled out = Z.of_nat (length back) ∧
    co_candidates out = Z.of_nat (length candidates) ∧
    cycle_stages jobs inv running now (cc_budget config) candidates packed back (pl_inventory p2) out.
Proof.
  set (p0 := MkPlacement inv (replicate (length candidates) Disposition.Pending) decisions).
  destruct (pack_spec jobs (cc_budget config) p0 candidates Hjobs Hinv) as
    (p1 & po & seen & rest & new & E & Hc & Hp & Hs); [simpl; by rewrite length_replicate|].
  exists p1, po. unfold p0 in Hp. rewrite Hc in Hp. pose proof (pi_alloc _ _ _ _ _ Hp) as Ha. simpl in Ha.
  pose proof (pi_jobs _ _ _ _ _ Hp) as Hpj.
  rewrite filter_live in Hpj by (intros x Hx; apply Hlive; rewrite Hc; set_solver).
  destruct (packed_placed _ _ _ _ _ _ _ Hp) as [Hpl Hdisp]. rewrite <-Hc in Hpl.
  unfold backfill_stage. destruct Hs as [Hd Hs]. destruct (head po) as [h|].
  - destruct Hs as (-> & Hb & e & rest' & j & -> & Hj & Hno).
    assert (candidates !! length seen = Some e) as Hhead.
    { rewrite Hc. by apply list_lookup_middle. }
    rewrite (nth_at_Done _ _ _ Hhead). cbn [exec_bind].
    assert (drop (S (length seen)) candidates = rest') as Hdrop.
    { rewrite Hc. rewrite (cons_middle e), app_assoc. apply drop_app_length'. rewrite length_app. simpl. lia. }
    destruct (easy_backfill_spec candidates (length seen) e jobs running now (cc_budget config) p1)
      as (p2 & b & back & B & -> & Hpost & Hback & Hres); [done| |done|done| | |].
    { eapply allocate_all_ok; [done|exact Hinv|exact Ha]. }
    { rewrite <-(Forall2_length _ _ _ (pd_disp _ _ _ _ _ _ Hpl)). done. }
    { rewrite Hdisp. intros i d Hi Hl. rewrite lookup_app_r in Hl by (rewrite length_fmap; lia).
      by apply lookup_replicate in Hl as [-> _]. }
    cbn [exec_bind]. rewrite Hdrop in Hpost. rewrite Hc in Hpl.
    eexists p2, _, new, back. split; [done|]. split; [done|]. split.
    { rewrite Hc. eapply backfilled_placed; [done|exact Hdisp|exact Hpost]. }
    do 3 (split; [done|]). exists seen, (e :: rest'), (pl_inventory p1), B.
    do 3 (split; [done|]). split; [apply Hpost|]. simpl. split; [done|].
    exists e, rest', j. do 4 (split; [done|]). unfold reservation_kept in Hres. rewrite Hj in Hres.
    destruct (reservation b); [done|]. subst B.
    pose proof (bp_started _ _ _ _ _ _ _ _ _ Hpost) as Hst. by inversion Hst.
  - eexists p1, _, new, []. split; [done|]. split; [done|]. rewrite app_nil_r. do 4 (split; [done|]).
    exists seen, rest, (pl_inventory p1), []. do 3 (split; [done|]). split; [constructor|]. simpl.
    split; [done|]. destruct (budget_exhausted po); [|done]. destruct Hs as (_ & Hsc & Hm). rewrite Hd in Hm. lia.
Qed.
End Stages.

(** The order the candidates were taken in: the highest of the ready set by
    their stored scores, rescored, and sorted by the new ones. *)
Definition cycle_candidates (jobs : Arena Job) (E : list ReadyEntry) (fs : FairShare) (now : VirtualTime)
    (config : CycleConfig) (candidates : list ReadyEntry) : Prop :=
  ∃ drained kept, E ≡ₚ drained ++ kept ∧
    Z.of_nat (length drained) = Z.max 0 (Z.min (max_candidates config) (Z.of_nat (length E))) ∧
    (∀ a b, a ∈ drained → b ∈ kept → ready_before a b) ∧
    candidates ≡ₚ map (rescore fs jobs now config) drained ∧
    StronglySorted ready_before candidates.

(** What a cycle did to the rest of the system. *)
Record cycle_post (s : Scheduler) (jobs : Arena Job) (inv : SlotInventory)
    (decisions new : list DispatchDecision) (r : CycleResult) : Prop := {
  cp_inv : Sched_inv (cy_scheduler r) (cy_jobs r);
  cp_inventory : inventory_ok jobs (cy_inventory r);
  cp_slots : slots_kept inv (cy_inventory r);
  cp_decisions : cy_decisions r = decisions ++ new;
  cp_alloc : allocate_all jobs inv new = Some (cy_inventory r);
  cp_nodup : NoDup (dd_job <$> new);
  cp_ready : ∀ d, d ∈ new → job_state jobs (dd_job d) = Some JobState.Ready;
  cp_moved : moved jobs (dd_job <$> new) JobState.Running (cy_jobs r);
  cp_deps : sc_deps (cy_scheduler r) = sc_deps s;
}.

Lemma chosen_NoDup es ds : NoDup (re_job <$> es) → NoDup (chosen es ds).
Proof.
  revert ds. induction es as [|e es IH]; intros [|d ds] Hnd; [constructor..|].
  rewrite fmap_cons in Hnd. apply NoDup_cons in Hnd as [Hn Hnd].
  destruct d; cbn [chosen]; [by apply IH| |by apply IH]. constructor; [|by apply IH]. by intros ?%chosen_elem.
Qed.

Lemma disposed_kept jobs es ds :
  (∀ e, e ∈ es → live jobs e = true) → Forall2 (disposed jobs) es ds →
  Forall2 (fun _ d => d ≠ Disposition.Dropped) es ds.
Proof.
  intros Hl H. induction H as [|e d es ds Hd _ IH]; constructor.
  - intros ->. simpl in Hd. rewrite Hl in Hd; [done|by left].
  - apply IH. intros x Hx. apply Hl. by right.
Qed.

Section Cycle.
Context (s : Scheduler) (jobs : Arena Job) (E : list ReadyEntry) (inv : SlotInventory).
Context (running : list RunningJob) (now : VirtualTime) (config : CycleConfig).
Context (decisions : list DispatchDecision).
Hypothesis Hs : Sched_inv s jobs.
Hypothesis HE : ready_ok (sc_ready s) jobs E.
Hypothesis Hinv : inventory_ok jobs inv.
Hypothesis Hrun : running_ok running.
Hypothesis Hnow : is_u64 now.
Hypothesis Hcfg : config_ok config.

Lemma run_cycle_spec :
  ∃ r packed back fs candidates,
    run_cycle s jobs inv running now config decisions = Done r ∧
    cycle_post s jobs inv decisions (packed ++ back) r ∧
    refresh (sc_fairshare s) now (cc_fairshare config) = Done fs ∧
    cycle_candidates jobs E fs now config candidates ∧
    co_candidates (cy_outcome r) = Z.of_nat (length candidates) ∧
    co_dispatched (cy_outcome r) = Z.of_nat (length packed) ∧
    co_backfilled (cy_outcome r) = Z.of_nat (length back) ∧
    cycle_stages jobs inv running now (cc_budget config) candidates packed back (cy_inventory r) (cy_outcome r).
Proof.
  destruct Hs as [Hjo Hdo _ Hfs]. unfold run_cycle.
  destruct (refresh_spec (sc_fairshare s) now (cc_fairshare config) Hfs Hnow Hcfg) as (fs & -> & Hfs1 & _).
  cbn [exec_bind].
  destruct (drain_ordered_into_holds (sc_ready s) E (max_candidates config)) as
    (rs1 & drained & kept & -> & Hh & HEp & _ & Hbefore & Hlen).
  { apply HE. }
  { eapply NoDup_fmap_1, HE. }
  cbn [exec_bind].
  destruct (ready_split_drain s jobs E rs1 drained kept fs now config HE Hh HEp) as (Hsplit & Hperm & Hsort).
  destruct drained as [|d0 drained'] eqn:Ed.
  { simpl in HEp. eexists _, [], [], fs, []. split; [done|]. split_and!; try done.
    - split; simpl; try done.
      + split; simpl; [done|done| |done]. exists kept. by apply ready_split_ok.
      + by rewrite app_nil_r.
      + constructor.
      + by intros d ?%elem_of_nil.
    - exists [], kept. split_and!; try done.
    - exists [], [], inv, []. split_and!; try done. }
  rewrite <-Ed in *. set (candidates := sort_candidates (map (rescore fs jobs now config) drained)) in *.
  assert (∀ e, e ∈ candidates → live jobs e = true) as Hlive.
  { intros e He. destruct (rp_sound _ _ _ _ Hsplit e) as (j & Hj & _); [set_solver|].
    unfold live, Arena_contains. by rewrite Hj. }
  destruct (stages_spec jobs inv running now config decisions candidates (jobs_ok_requests _ Hjo) Hinv Hrun Hlive)
    as (p1 & po & p2 & out & packed & back & -> & E2 & Hpl & Hd & Hb & Hcd & Hst).
  cbn [exec_bind]. rewrite E2. cbn [exec_bind]. destruct Hpl as [Ha Hdec Hdisp Hch].
  destruct (emit_loop_spec now config (sc_deps s) Hnow Hcfg candidates [] (pl_disposition p2) rs1 fs jobs kept
    Hsplit) as (rs' & fs' & jobs' & Ee & [Hjo' Hdo' Hfs'] & Hm & E' & Hro & _); [done|by eapply disposed_kept|].
  simpl in Ee. rewrite Ee. cbn [exec_bind].
  eexists _, packed, back, fs, candidates. split; [done|]. split; [|split_and!; try done].
  2:{ exists drained, kept. done. }
  pose proof (rp_nodup _ _ _ _ Hsplit) as Hnd. rewrite fmap_app in Hnd. apply NoDup_app in Hnd as (_ & _ & Hnd).
  split; cbn [cy_scheduler cy_jobs cy_inventory cy_decisions sc_deps]; try done.
  - split; simpl; [done|done|by exists E'|done].
  - apply (allocate_all_ok _ _ _ _ (jobs_ok_requests _ Hjo) Hinv Ha).
  - apply (allocate_all_ok _ _ _ _ (jobs_ok_requests _ Hjo) Hinv Ha).
  - rewrite Hch. by apply chosen_NoDup.
  - intros d Hd'. assert (dd_job d ∈ re_job <$> candidates) as (e & -> & He)%list_elem_of_fmap.
    { eapply chosen_elem. rewrite <-Hch. by apply list_elem_of_fmap_2. }
    destruct (rp_sound _ _ _ _ Hsplit e) as (j & Hj & Hst' & _); [set_solver|].
    unfold job_state. rewrite Hj. simpl. by rewrite Hst'.
  - by rewrite Hch.
Qed.
End Cycle.

(** ** Properties *)

(** ** A cycle makes progress *)

(** The budgets of a cycle are not empty. *)
Definition can_start (config : CycleConfig) : Prop :=
  1 <= max_candidates config ∧ 1 <= max_decisions (cc_budget config) ∧ 1 <= max_scanned (cc_budget config).

Section Progress.
Context (s : Scheduler) (jobs : Arena Job) (inv : SlotInventory) (running : list RunningJob) (now : VirtualTime) (config : CycleConfig).
Hypothesis Hs : Sched_inv s jobs.
Hypothesis Hinv : inventory_ok jobs inv.
Hypothesis Hrun : running_ok running.
Hypothesis Hnow : is_u64 now.
Hypothesis Hcfg : config_ok config.
Hypothesis Hstart : can_start config.
Hypothesis Hfree : ∀ x j, Arena_get jobs x = Some j → state j = JobState.Ready →
  ∃ i w, vec_get (worker_slots inv) i = Some w ∧ Resources_le (request j) (WorkerSlot_free w).

(** With a job ready and every ready job fitting some slot as it is, something starts. *)
Lemma cycle_progress r x :
  run_cycle s jobs inv running now config [] = Done r → job_state jobs x = Some JobState.Ready → cy_decisions r ≠ [].
Proof.
  intros Er Hx. destruct (si_ready _ _ Hs) as [E HE]. destruct Hstart as (Hm1 & Hm2 & Hm3).
  destruct (run_cycle_spec s jobs E inv running now config [] Hs HE Hinv Hrun Hnow Hcfg)
    as (r' & packed & back & fs & cs & Er' & Hpost & _ & Hcand & _ & _ & _ & Hst).
  rewrite Er in Er'. injection Er' as <-. rewrite (cp_decisions _ _ _ _ _ _ Hpost). cbn [app]. intros Hnil.
  apply app_eq_nil in Hnil as [-> ->]. destruct Hst as (seen & rest & inv1 & B & Ec & Ep & Ea & _ & Hst).
  symmetry in Ep. apply fmap_nil_inv in Ep. subst seen. injection Ea as <-. cbn [app] in Ec. subst rest.
  destruct Hcand as (drained & kept & HEp & Hlen & _ & Hperm & _).
  assert (cs ≠ []) as Hne.
  { intros ->. symmetry in Hperm.
    apply Permutation_nil_r in Hperm. destruct drained; [|done]. apply (ro_complete _ _ _ HE) in Hx.
    destruct E; [by apply elem_of_nil in Hx|]. cbn in Hlen. lia. }
  destruct (co_head (cy_outcome r)) as [h|].
  - destruct Hst as (_ & e & rest' & j & Ecs & Eh & Hj & Hno & _).
    assert (e ∈ map (rescore fs jobs now config) drained) as He by (rewrite <-Hperm, Ecs; by left).
    apply list_elem_of_fmap in He as (e0 & -> & He0). rewrite rescore_job in Eh.
    destruct (ro_sound _ _ _ HE e0) as (j' & Hj' & Hrd & _); [rewrite HEp; set_solver|]. rewrite Eh, Hj in Hj'. injection Hj' as <-.
    destruct (Hfree h j Hj Hrd) as (i & w & Hw & Hle). by apply (Hno i w Hw).
  - destruct Hst as [_ Hst]. destruct (co_budget_exhausted _); [cbn in Hst; lia|done].
Qed.
End Progress.


(** C1: One scheduling cycle, whatever the configuration, the running list and
    the budget, never panics on an inventory that can give every live job what it
    reports free; the scheduler's invariant holds afterwards, no slot's capacity
    changes and no slot becomes overcommitted; the decisions it appends name distinct jobs that were
    all [Ready], the inventory changes by exactly those allocations, exactly
    those jobs become [Running], and every other job and every dependency edge
    is left as it was. *)
Theorem run_cycle_correct s jobs inv running now config decisions :
  Sched_inv s jobs → inventory_ok jobs inv → running_ok running → is_u64 now → config_ok config →
  ∃ r new, run_cycle s jobs inv running now config decisions = Done r ∧
    cycle_post s jobs inv decisions new r ∧
    Z.of_nat (length new) = co_dispatched (cy_outcome r) + co_backfilled (cy_outcome r).
Proof.
  intros Hs Hinv Hrun Hnow Hcfg. destruct (si_ready _ _ Hs) as [E HE].
  destruct (run_cycle_spec s jobs E inv running now config decisions Hs HE Hinv Hrun Hnow Hcfg)
    as (r & packed & back & fs & cs & ? & ? & _ & _ & _ & Hd & Hb & _).
  exists r, (packed ++ back). split; [done|]. split; [done|]. rewrite length_app. lia.
Qed.

(** C2: Priority and the head's reservation.  A cycle looks at the highest
    [max_candidates] entries of the ready set, rescored and in strictly
    descending order; packing starts a prefix of them, and stops early only at
    a spent budget or at a head that fits on no slot as packed; with every
    backfilled job running until its deadline, that head can still start by the
    reservation the cycle reports, and nothing is backfilled past a head without
    a reservation. *)
Theorem run_cycle_honours_priority s jobs E inv running now config decisions :
  Sched_inv s jobs → ready_ok (sc_ready s) jobs E → inventory_ok jobs inv → running_ok running →
  is_u64 now → config_ok config →
  ∃ r packed back fs candidates, run_cycle s jobs inv running now config decisions = Done r ∧
    cy_decisions r = decisions ++ packed ++ back ∧
    refresh (sc_fairshare s) now (cc_fairshare config) = Done fs ∧
    cycle_candidates jobs E fs now config candidates ∧
    co_candidates (cy_outcome r) = Z.of_nat (length candidates) ∧
    cycle_stages jobs inv running now (cc_budget config) candidates packed back (cy_inventory r) (cy_outcome r).
Proof.
  intros Hs HE Hinv Hrun Hnow Hcfg.
  destruct (run_cycle_spec s jobs E inv running now config decisions Hs HE Hinv Hrun Hnow Hcfg)
    as (r & packed & back & fs & cs & ? & Hp & ? & ? & ? & _ & _ & ?).
  exists r, packed, back, fs, cs. split_and!; try done. apply Hp.
Qed.

(** Pack's four jobs in one ready set, on Pack's two slots. *)
Definition demo_cycle_ready : ReadySet :=
  match (let! r := ready_insert ready_new PriorityClass.Normal 0 90 in
         let! r := ready_insert r PriorityClass.Normal 1 80 in
         let! r := ready_insert r PriorityClass.Normal 2 70 in
         ready_insert r PriorityClass.Normal 3 60) with
  | Done r => r
  | _ => ready_new
  end.

Definition demo_cycle_scheduler : Scheduler := MkScheduler demo_cycle_ready Tracker_new FairShare_new.

Definition demo_cycle_entries : list ReadyEntry :=
  [MkReadyEntry PriorityClass.Normal 3 60; MkReadyEntry PriorityClass.Normal 2 70;
   MkReadyEntry PriorityClass.Normal 1 80; MkReadyEntry PriorityClass.Normal 0 90].

Lemma demo_cycle_holds : ready_holds demo_cycle_ready demo_cycle_entries.
Proof.
  pose proof (ready_holds_new 0) as H0.
  destruct (ready_insert_holds _ _ PriorityClass.Normal 0 90 H0) as (r1 & E1 & H1); [set_solver|done|].
  destruct (ready_insert_holds _ _ PriorityClass.Normal 1 80 H1) as (r2 & E2 & H2); [|done|].
  { intros e He _. by repeat (apply elem_of_cons in He as [->|He]); [..|apply elem_of_nil in He]. }
  destruct (ready_insert_holds _ _ PriorityClass.Normal 2 70 H2) as (r3 & E3 & H3); [|done|].
  { intros e He _. by repeat (apply elem_of_cons in He as [->|He]); [..|apply elem_of_nil in He]. }
  destruct (ready_insert_holds _ _ PriorityClass.Normal 3 60 H3) as (r4 & E4 & H4); [|done|].
  { intros e He _. by repeat (apply elem_of_cons in He as [->|He]); [..|apply elem_of_nil in He]. }
  assert (demo_cycle_ready = r4) as ->; [|done].
  vm_compute in E1. injection E1 as <-. vm_compute in E2. injection E2 as <-.
  vm_compute in E3. injection E3 as <-. vm_compute in E4. injection E4 as <-. by vm_compute.
Qed.

Lemma demo_cycle_get x j :
  Arena_get demo_pack_jobs x = Some j → (x = 0 ∨ x = 1 ∨ x = 2 ∨ x = 3) ∧ state j = JobState.Ready ∧
    ∃ cpu, j = demo_pack_job cpu ∧ 0 <= cpu <= 700.
Proof.
  intros [_ H]%Arena_get_Some%vec_get_Some. pose proof (JobId_index_range x) as Hr. simpl in H.
  rewrite <-(JobId_new_eta x), (JobId_new_arith _ _ Hr).
  destruct (Z.to_nat (JobId_index x)) as [|[|[|[|n]]]] eqn:E; simplify_eq/=;
    (split; [match goal with H : 0 = JobId_generation _ |- _ => rewrite <-H | _ => idtac end; lia|]);
    (split; [done|]); eexists; (split; [done|]); lia.
Qed.

Lemma demo_cycle_jobs_ok : jobs_ok demo_pack_jobs.
Proof.
  split; [|done|].
  - assert (Arena_from_parts (Arena_slots demo_pack_jobs) None = Done (Ok demo_pack_jobs)) as H by reflexivity.
    eapply Arena_from_parts_wf in H as [H _]; [exact H|simpl; lia|].
    intros i s [Hi Hs]%vec_get_Some. apply list_elem_of_lookup_2 in Hs.
    repeat (apply elem_of_cons in Hs as [->|Hs]; [unfold is_u32; simpl; lia|]).
    by apply elem_of_nil in Hs.
  - intros x j Hj. destruct (demo_cycle_get x j Hj) as (_ & _ & cpu & -> & Hc). split; [|done].
    unfold Job_wf, Resources_wf, is_u64, is_u32, is_u8. simpl. split_and!; try done; lia.
Qed.

Lemma demo_cycle_ready_ok : ready_ok demo_cycle_ready demo_pack_jobs demo_cycle_entries.
Proof.
  split; [apply demo_cycle_holds|apply (bool_decide_unpack _); by vm_compute| |].
  - intros e He. do 4 (apply elem_of_cons in He as [->|He]; [by eexists|]). by apply elem_of_nil in He.
  - intros x. unfold job_state. destruct (Arena_get demo_pack_jobs x) as [j|] eqn:Hj; [|done]. intros _.
    destruct (demo_cycle_get x j Hj) as [Hx _]. simpl. set_solver.
Qed.

Lemma demo_cycle_inv : Sched_inv demo_cycle_scheduler demo_pack_jobs.
Proof.
  split; [apply demo_cycle_jobs_ok| |exists demo_cycle_entries; apply demo_cycle_ready_ok|apply FairShare_new_wf].
  assert (∀ A i (v : A), vec_get [] i ≠ Some v) as Hv by (by intros A i v [_ H]%vec_get_Some).
  assert (∀ x, ¬ tracked Tracker_new x) as Hn by (by intros x [_ Hx%Hv]).
  split; [split; [split|..]|split|].
  - done.
  - done.
  - by intros k o ?%Hv.
  - by intros d ?%elem_of_nil.
  - by intros k ?%Hv.
  - by intros d ?%Hn.
  - by intros d ?%Hn.
  - by intros d ?%elem_of_nil.
  - by vm_compute.
  - intros x. split; [|by intros [?%Hn _]]. unfold job_state.
    destruct (Arena_get demo_pack_jobs x) as [j|] eqn:Hj; [|done].
    destruct (demo_cycle_get x j Hj) as (_ & Hs & _). simpl. by rewrite Hs.
Qed.

Definition demo_inventory : SlotInventory := pl_inventory demo_placement.

(** On two slots of 1000 with nothing running: rescored by size, job 1 (700)
    goes before job 0 (600), both are packed, job 2 (500) is the head, and
    job 3 (300) is not started before it. *)
Lemma run_cycle_correct_witness :
  (run_cycle demo_cycle_scheduler demo_pack_jobs demo_inventory [] 2000 demo_config [] ⇓ fun r =>
     cy_decisions r = [MkDecision 1 0; MkDecision 0 1] ∧ co_head (cy_outcome r) = Some 2) ∧
  ∃ r new, run_cycle demo_cycle_scheduler demo_pack_jobs demo_inventory [] 2000 demo_config [] = Done r ∧
    cycle_post demo_cycle_scheduler demo_pack_jobs demo_inventory [] new r ∧
    Z.of_nat (length new) = co_dispatched (cy_outcome r) + co_backfilled (cy_outcome r).
Proof.
  split; [by vm_compute|].
  apply run_cycle_correct; [apply demo_cycle_inv|apply demo_inventory_ok|constructor|by vm_compute|by vm_compute].
Defined.

Lemma run_cycle_honours_priority_witness :
  ∃ r packed back fs candidates,
    run_cycle demo_cycle_scheduler demo_pack_jobs demo_inventory [] 2000 demo_config [] = Done r ∧
    cy_decisions r = [] ++ packed ++ back ∧
    refresh (sc_fairshare demo_cycle_scheduler) 2000 (cc_fairshare demo_config) = Done fs ∧
    cycle_candidates demo_pack_jobs demo_cycle_entries fs 2000 demo_config candidates ∧
    co_candidates (cy_outcome r) = Z.of_nat (length candidates) ∧
    cycle_stages demo_pack_jobs demo_inventory [] 2000 (cc_budget demo_config) candidates packed back (cy_inventory r) (cy_outcome r).
Proof.
  apply run_cycle_honours_priority; [apply demo_cycle_inv|apply demo_cycle_ready_ok|apply demo_inventory_ok
    |constructor|by vm_compute|by vm_compute].
Defined.
