(* ===== verification/Codec.v ===== *)
(** * Byte cursors

    [crates/tasker-wal/src/codec.rs]: little-endian writers into a growing
    buffer and a bounds-checked read position over a slice.  Bytes are
    integers; a reader may fail with a [CodecError] or, through an [expect],
    panic.  Two notions carry the proofs of the formats built on this file:
    [writes w bs], the writer appends exactly [bs], and [reads r bs v], the
    reader consumes exactly [bs] wherever they stand and returns [v]. *)

From stdpp Require Import base list numbers option.
From Stdlib Require Import ZArith Lia.
From S2P Require Import Prelude.
Open Scope Z_scope.

Module CodecError.
Inductive CodecError : Type :=
| Truncated (at_ : Z)
| BadTag (tag : Z) (at_ : Z).
End CodecError.
Abbreviation CodecError := CodecError.CodecError.

Abbreviation bytes := (list Z) (only parsing).

(** [v.to_le_bytes()] for an [n]-byte integer, and its inverse. *)
Fixpoint to_le_bytes (n : nat) (v : Z) : bytes :=
  match n with
  | O => []
  | S n' => Z.land v 255 :: to_le_bytes n' (Z.shiftr v 8)
  end.

Fixpoint from_le_bytes (bs : bytes) : Z :=
  match bs with
  | [] => 0
  | b :: bs' => b + Z.shiftl (from_le_bytes bs') 8
  end.

(** [buf.get(a..b)] and [<[u8; n]>::try_from(bs).expect(..)]. *)
Definition slice_get (buf : bytes) (a b : Z) : option bytes :=
  if (0 <=? a) && (a <=? b) && (b <=? Z.of_nat (length buf))
  then Some (take (Z.to_nat (b - a)) (drop (Z.to_nat a) buf))
  else None.

Definition array_from (n : nat) (bs : bytes) : exec bytes :=
  if (length bs =? n)%nat then Done bs else Panic.

(** ** Writers *)

Definition put_u8 (buf : bytes) (v : Z) : bytes := buf ++ [v].

Definition put_u32 (buf : bytes) (v : Z) : bytes := buf ++ to_le_bytes 4 v.

Definition put_u64 (buf : bytes) (v : Z) : bytes := buf ++ to_le_bytes 8 v.

Definition put_bytes (buf bs : bytes) : exec bytes :=
  let! n := u32_from_usize (length bs) in
  Done (put_u32 buf n ++ bs).

Definition put_opt_u32 (buf : bytes) (v : option Z) : bytes :=
  match v with
  | Some x => put_u32 (put_u8 buf 1) x
  | None => put_u8 buf 0
  end.

(** ** Readers *)

Record Cursor : Type := MkCursor {
  cur_buf : bytes;
  cur_pos : Z;
}.

Definition Cursor_new (buf : bytes) : Cursor := MkCursor buf 0.

Definition reader (A : Type) : Type := Cursor → exec (result (A * Cursor) CodecError).

Definition ret {A} (a : A) : reader A := fun c => Done (Ok (a, c)).

Definition fail {A} (e : CodecError) : reader A := fun _ => Done (Err e).

(** The operator [?]. *)
Definition reader_bind {A B} (m : reader A) (k : A → reader B) : reader B := fun c =>
  let! r := m c in
  match r with
  | Ok (a, c') => k a c'
  | Err e => Done (Err e)
  end.

Definition lift {A} (m : exec A) : reader A := fun c => let! a := m in Done (Ok (a, c)).

Definition cursor_position : reader Z := fun c => Done (Ok (cur_pos c, c)).

Declare Scope reader_scope.
Delimit Scope reader_scope with reader.
Notation "'let?' x ':=' m 'in' k" := (reader_bind m (fun x => k))
  (at level 10, x name, m at level 100, k at level 200) : reader_scope.
Open Scope reader_scope.

Definition take_bytes (n : Z) : reader bytes := fun c =>
  let pos := cur_pos c in
  let end_ := pos + n in
  if u64_max <? end_ then Done (Err (CodecError.Truncated pos))
  else
    match slice_get (cur_buf c) pos end_ with
    | None => Done (Err (CodecError.Truncated pos))
    | Some bs => Done (Ok (bs, MkCursor (cur_buf c) end_))
    end.

Definition read_u8 : reader Z := let? bs := take_bytes 1 in lift (nth_at bs 0).

Definition read_u32 : reader Z :=
  let? b := take_bytes 4 in lift (let! a := array_from 4 b in Done (from_le_bytes a)).

Definition read_u64 : reader Z :=
  let? b := take_bytes 8 in lift (let! a := array_from 8 b in Done (from_le_bytes a)).

Definition read_bytes : reader bytes := let? n := read_u32 in take_bytes n.

Definition read_tag (max : Z) : reader Z :=
  let? at_ := cursor_position in
  let? tag := read_u8 in
  if max <? tag then fail (CodecError.BadTag tag at_) else ret tag.

Definition read_opt_u32 : reader (option Z) :=
  let? t := read_tag 1 in
  if t =? 0 then ret None else let? x := read_u32 in ret (Some x).

(** [for _ in 0..n { v.push(read()?) }]. *)
Fixpoint read_n {A} (n : nat) (read : reader A) : reader (list A) :=
  match n with
  | O => ret []
  | S n' => let? x := read in let? xs := read_n n' read in ret (x :: xs)
  end.

(** ** Little-endian integers *)

Lemma length_to_le n v : length (to_le_bytes n v) = n.
Proof. revert v. induction n; intros v; simpl; auto. Qed.

Lemma to_le_bytes_u8 n v : Forall is_u8 (to_le_bytes n v).
Proof.
  revert v. induction n as [|n IH]; intros v; simpl; constructor; [|apply IH].
  change 255 with (Z.ones 8). rewrite Z.land_ones by lia. unfold is_u8.
  pose proof (Z.mod_pos_bound v (2 ^ 8)). lia.
Qed.

Lemma from_to_le n v : 0 <= v < 256 ^ Z.of_nat n → from_le_bytes (to_le_bytes n v) = v.
Proof.
  revert v. induction n as [|n IH]; intros v Hv; simpl; [lia|].
  change 255 with (Z.ones 8). rewrite Z.land_ones, Z.shiftr_div_pow2, Z.shiftl_mul_pow2 by lia.
  rewrite Nat2Z.inj_succ, Z.pow_succ_r in Hv by lia.
  rewrite IH; [|change (2 ^ 8) with 256; split; [apply Z.div_pos; lia|apply Z.div_lt_upper_bound; lia]].
  change (2 ^ 8) with 256. pose proof (Z.div_mod v 256). lia.
Qed.

Lemma from_le_range bs : Forall is_u8 bs → 0 <= from_le_bytes bs < 256 ^ Z.of_nat (length bs).
Proof.
  induction 1 as [|b bs Hb _ IH]; cbn [from_le_bytes length]; [by simpl|].
  rewrite Nat2Z.inj_succ, Z.pow_succ_r, Z.shiftl_mul_pow2 by lia. change (2 ^ 8) with 256.
  unfold is_u8 in Hb. lia.
Qed.

Lemma from_to_le_u32 v : is_u32 v → from_le_bytes (to_le_bytes 4 v) = v.
Proof. intros H. apply from_to_le. unfold is_u32 in H. change (256 ^ Z.of_nat 4) with 4294967296. lia. Qed.

Lemma from_to_le_u64 v : is_u64 v → from_le_bytes (to_le_bytes 8 v) = v.
Proof.
  intros H. apply from_to_le. unfold is_u64 in H. change (256 ^ Z.of_nat 8) with 18446744073709551616. lia.
Qed.

Lemma from_le_u32 bs : Forall is_u8 bs → length bs = 4%nat → is_u32 (from_le_bytes bs).
Proof.
  intros Hb Hl. pose proof (from_le_range bs Hb) as H. rewrite Hl in H.
  change (256 ^ Z.of_nat 4) with 4294967296 in H. unfold is_u32. lia.
Qed.

(** ** Slices *)

Lemma slice_get_mid (pre bs post : bytes) :
  slice_get (pre ++ bs ++ post) (Z.of_nat (length pre)) (Z.of_nat (length pre) + Z.of_nat (length bs)) = Some bs.
Proof.
  unfold slice_get. rewrite !length_app.
  destruct (Z.leb_spec 0 (Z.of_nat (length pre))); [|lia].
  destruct (Z.leb_spec (Z.of_nat (length pre)) (Z.of_nat (length pre) + Z.of_nat (length bs))); [|lia].
  destruct (Z.leb_spec (Z.of_nat (length pre) + Z.of_nat (length bs))
              (Z.of_nat (length pre + (length bs + length post)))); [|lia]. simpl.
  rewrite Nat2Z.id, drop_app_length. f_equal. apply take_app_length'. lia.
Qed.

Lemma slice_get_Some buf a b bs :
  slice_get buf a b = Some bs ↔
  0 <= a <= b ∧ ∃ pre post, buf = pre ++ bs ++ post ∧ Z.of_nat (length pre) = a ∧ Z.of_nat (length bs) = b - a.
Proof.
  split.
  - unfold slice_get. destruct (Z.leb_spec 0 a), (Z.leb_spec a b), (Z.leb_spec b (Z.of_nat (length buf))); try done.
    simpl. intros [= <-]. split; [done|]. exists (take (Z.to_nat a) buf), (drop (Z.to_nat (b - a)) (drop (Z.to_nat a) buf)).
    rewrite !take_drop, !length_take, length_drop. split; [done|]. lia.
  - intros (Hab & pre & post & -> & Hp & Hb). subst a. replace b with (Z.of_nat (length pre) + Z.of_nat (length bs)) by lia.
    apply slice_get_mid.
Qed.

Lemma slice_get_None buf a b : 0 <= a <= b → slice_get buf a b = None ↔ Z.of_nat (length buf) < b.
Proof.
  intros Hab. unfold slice_get.
  destruct (Z.leb_spec 0 a), (Z.leb_spec a b), (Z.leb_spec b (Z.of_nat (length buf))); simpl; naive_solver lia.
Qed.

(** ** Exact readers and writers *)

Definition reads {A} (r : reader A) (bs : bytes) (v : A) : Prop :=
  ∀ pre post, Z.of_nat (length (pre ++ bs ++ post)) <= u64_max →
    r (MkCursor (pre ++ bs ++ post) (Z.of_nat (length pre))) =
      Done (Ok (v, MkCursor (pre ++ bs ++ post) (Z.of_nat (length pre) + Z.of_nat (length bs)))).

Definition writes (w : bytes → exec bytes) (bs : bytes) : Prop := ∀ buf, w buf = Done (buf ++ bs).

Lemma reads_ret {A} (v : A) : reads (ret v) [] v.
Proof. intros pre post _. unfold ret. by rewrite Z.add_0_r. Qed.

Lemma reads_bind {A B} (m : reader A) (k : A → reader B) bs bs' v w :
  reads m bs v → reads (k v) bs' w → reads (reader_bind m k) (bs ++ bs') w.
Proof.
  intros Hm Hk pre post Hl. unfold reader_bind. rewrite <-app_assoc. rewrite <-app_assoc in Hl.
  rewrite (Hm pre (bs' ++ post) Hl). cbn [exec_bind]. rewrite (app_assoc pre bs).
  rewrite <-Nat2Z.inj_add, <-length_app. rewrite Hk by (by rewrite <-app_assoc).
  rewrite !length_app, !Nat2Z.inj_add. do 4 f_equal. lia.
Qed.

(** [reads_bind] against bytes given as one list. *)
Lemma reads_bind' {A B} (m : reader A) (k : A → reader B) bs bs' all v w :
  all = bs ++ bs' → reads m bs v → reads (k v) bs' w → reads (reader_bind m k) all w.
Proof. intros ->. apply reads_bind. Qed.

Lemma reads_position {B} (k : Z → reader B) bs w :
  (∀ at_, reads (k at_) bs w) → reads (reader_bind cursor_position k) bs w.
Proof. intros H pre post Hl. unfold reader_bind, cursor_position. cbn [exec_bind cur_pos]. by apply H. Qed.

Lemma reads_map {A B} (m : reader A) (f : A → B) bs v :
  reads m bs v → reads (reader_bind m (fun x => ret (f x))) bs (f v).
Proof. intros H. rewrite <-(app_nil_r bs). eapply reads_bind; [done|apply reads_ret]. Qed.

Lemma reads_take bs : reads (take_bytes (Z.of_nat (length bs))) bs bs.
Proof.
  intros pre post Hl. unfold take_bytes. cbn [cur_pos cur_buf]. rewrite !length_app in Hl.
  destruct (Z.ltb_spec u64_max (Z.of_nat (length pre) + Z.of_nat (length bs))); [lia|].
  by rewrite slice_get_mid.
Qed.

Lemma reads_u8 v : reads read_u8 [v] v.
Proof. rewrite <-(app_nil_r [v]). eapply reads_bind; [apply (reads_take [v])|]. apply reads_ret. Qed.

Lemma reads_u32 v : is_u32 v → reads read_u32 (to_le_bytes 4 v) v.
Proof.
  intros Hv. rewrite <-(app_nil_r (to_le_bytes 4 v)). eapply reads_bind.
  - apply (reads_take (to_le_bytes 4 v)).
  - unfold lift, array_from. rewrite length_to_le. cbn [Nat.eqb exec_bind].
    rewrite from_to_le_u32 by done. apply reads_ret.
Qed.

Lemma reads_u64 v : is_u64 v → reads read_u64 (to_le_bytes 8 v) v.
Proof.
  intros Hv. rewrite <-(app_nil_r (to_le_bytes 8 v)). eapply reads_bind.
  - apply (reads_take (to_le_bytes 8 v)).
  - unfold lift, array_from. rewrite length_to_le. cbn [Nat.eqb exec_bind].
    rewrite from_to_le_u64 by done. apply reads_ret.
Qed.

Lemma reads_bytes bs :
  Z.of_nat (length bs) <= u32_max →
  reads read_bytes (to_le_bytes 4 (Z.of_nat (length bs)) ++ bs) bs.
Proof. intros H. eapply reads_bind; [apply reads_u32; unfold is_u32; lia|apply reads_take]. Qed.

Lemma reads_tag max v : v <= max → reads (read_tag max) [v] v.
Proof.
  intros H. apply reads_position. intros at_. rewrite <-(app_nil_r [v]). eapply reads_bind; [apply reads_u8|].
  destruct (Z.ltb_spec max v); [lia|]. apply reads_ret.
Qed.

(** The bytes of an optional [u32]. *)
Definition opt_bytes (v : option Z) : bytes :=
  match v with Some x => 1 :: to_le_bytes 4 x | None => [0] end.

Lemma reads_opt_u32 v : (∀ x, v = Some x → is_u32 x) → reads read_opt_u32 (opt_bytes v) v.
Proof.
  intros Hv. destruct v as [x|]; simpl.
  - apply (reads_bind _ _ [1] _ 1); [by apply reads_tag|]. apply reads_map, reads_u32. auto.
  - apply (reads_bind _ _ [0] [] 0); [by apply reads_tag|]. apply reads_ret.
Qed.

Lemma reads_n {A} (r : reader A) (f : A → bytes) (l : list A) :
  Forall (fun x => reads r (f x) x) l → reads (read_n (length l) r) (concat (f <$> l)) l.
Proof.
  induction 1 as [|x l Hx _ IH]; cbn [length read_n]; [apply reads_ret|].
  eapply reads_bind; [exact Hx|]. by apply reads_map with (f := cons x).
Qed.

(** ** Readers on arbitrary input *)

Record cursor_ok (c : Cursor) : Prop := {
  ck_pos : 0 <= cur_pos c <= Z.of_nat (length (cur_buf c));
  ck_bytes : Forall is_u8 (cur_buf c);
}.

(** On any bytes the reader returns, without a panic, an error or a value with
    [P], having moved forward within the same buffer. *)
Definition safe {A} (P : A → Prop) (r : reader A) : Prop :=
  ∀ c, cursor_ok c → r c ⇓ fun o =>
    match o with
    | Ok (a, c') => P a ∧ cursor_ok c' ∧ cur_buf c' = cur_buf c ∧ cur_pos c <= cur_pos c'
    | Err _ => True
    end.

Lemma safe_ret {A} (P : A → Prop) a : P a → safe P (ret a).
Proof. intros H c Hc. simpl. by split_and!. Qed.

Lemma safe_fail {A} (P : A → Prop) e : safe P (fail e).
Proof. by intros c Hc. Qed.

Lemma safe_bind {A B} (P : A → Prop) (Q : B → Prop) m k :
  safe P m → (∀ a, P a → safe Q (k a)) → safe Q (reader_bind m k).
Proof.
  intros Hm Hk c Hc. unfold reader_bind. specialize (Hm c Hc).
  destruct (m c) as [[[a c1]|e]| |]; simpl in *; try done. destruct Hm as (HP & Hc1 & Hb & Hp).
  specialize (Hk a HP c1 Hc1). destruct (k a c1) as [[[b c2]|e]| |]; simpl in *; try done.
  destruct Hk as (? & ? & Hb' & ?). split_and!; try done; [congruence|lia].
Qed.

Lemma safe_position : safe (fun p => 0 <= p) cursor_position.
Proof. intros c Hc. simpl. pose proof (ck_pos _ Hc). split_and!; try done. lia. Qed.

Lemma safe_take n :
  0 <= n → safe (fun bs => Z.of_nat (length bs) = n ∧ Forall is_u8 bs) (take_bytes n).
Proof.
  intros Hn c [Hp Hb]. unfold take_bytes. destruct (u64_max <? _); [done|].
  destruct (slice_get _ _ _) as [bs|] eqn:E; [|done].
  apply slice_get_Some in E as (_ & pre & post & Eb & Hl & Hbs). simpl. rewrite Eb in *.
  rewrite !Forall_app in Hb. destruct Hb as (? & ? & ?). split_and!; [lia|done| |done|lia].
  split; simpl; [rewrite !length_app; lia|]. by rewrite !Forall_app.
Qed.

Lemma safe_u8 : safe is_u8 read_u8.
Proof.
  eapply safe_bind; [by apply safe_take|]. intros bs [Hl Hb] c Hc. unfold lift, nth_at.
  destruct bs as [|b []]; simpl in Hl; [lia| |lia]. simpl. inversion Hb. by split_and!.
Qed.

Lemma safe_u32 : safe is_u32 read_u32.
Proof.
  eapply safe_bind; [by apply safe_take|]. intros bs [Hl Hb] c Hc. unfold lift, array_from.
  destruct (Nat.eqb_spec (length bs) 4) as [E|]; [|lia]. cbn -[from_le_bytes]. split_and!; try done.
  by apply from_le_u32.
Qed.

Lemma safe_u64 : safe is_u64 read_u64.
Proof.
  eapply safe_bind; [by apply safe_take|]. intros bs [Hl Hb] c Hc. unfold lift, array_from.
  destruct (Nat.eqb_spec (length bs) 8) as [E|]; [|lia]. cbn -[from_le_bytes]. split_and!; try done.
  pose proof (from_le_range bs Hb) as H. rewrite E in H.
  change (256 ^ Z.of_nat 8) with 18446744073709551616 in H. unfold is_u64. lia.
Qed.

Lemma safe_bytes :
  safe (fun bs => Z.of_nat (length bs) <= u32_max ∧ Forall is_u8 bs) read_bytes.
Proof.
  eapply safe_bind; [apply safe_u32|]. intros n Hn c Hc. unfold is_u32 in Hn.
  pose proof (safe_take n ltac:(lia) c Hc) as H. eapply returns_mono; [exact H|].
  intros [[bs c']|e]; [|done]. intros ([? ?] & ?). split; [split; [lia|done]|done].
Qed.

Lemma safe_tag max : safe (fun t => 0 <= t <= max) (read_tag max).
Proof.
  eapply safe_bind; [apply safe_position|]. intros at_ _. eapply safe_bind; [apply safe_u8|]. intros t Ht.
  unfold is_u8 in Ht. destruct (Z.ltb_spec max t); [apply safe_fail|apply safe_ret; simpl; lia].
Qed.

Lemma safe_opt_u32 : safe (fun o => ∀ x, o = Some x → is_u32 x) read_opt_u32.
Proof.
  eapply safe_bind; [apply safe_tag|]. intros t _. destruct (t =? 0); [by apply safe_ret|].
  eapply safe_bind; [apply safe_u32|]. intros x Hx. apply safe_ret. by intros ? [= <-].
Qed.

Lemma safe_read_n {A} (P : A → Prop) n r :
  safe P r → safe (fun l => length l = n ∧ Forall P l) (read_n n r).
Proof.
  intros Hr. induction n as [|n IH]; simpl; [by apply safe_ret|].
  eapply safe_bind; [exact Hr|]. intros a Ha. eapply safe_bind; [exact IH|]. intros l [Hl HF].
  apply safe_ret. split; [simpl; by rewrite Hl|by constructor].
Qed.
