(* ===== verification/LogRecord.v ===== *)
(** * Log records

    [crates/tasker-wal/src/record.rs]: the record kinds, the layout of a job
    and the frame around a payload.  The checksum, [crc32fast::hash], is a
    parameter of which only its range is used.  Every record that fits its
    widths is shown to decode back to itself, and decoding arbitrary bytes to
    end in an error or a well-formed record, never in a panic. *)

From stdpp Require Import base list numbers option.
From Stdlib Require Import ZArith Lia.
From S2P Require Import Prelude Domain Arena Job Codec.
Open Scope Z_scope.

(** What the log needs of the checksum: a [u32]. *)
Class Checksum (hash : bytes → Z) : Prop := hash_u32 : ∀ bs, is_u32 (hash bs).

Module LogRecord.
Inductive LogRecord : Type :=
| Submitted (id : JobId) (job : Job)
| Dispatched (id : JobId) (at_ : VirtualTime)
| Completed (id : JobId) (at_ : VirtualTime)
| Failed (id : JobId) (at_ : VirtualTime)
| Cancelled (id : JobId) (at_ : VirtualTime)
| Requeued (id : JobId) (at_ : VirtualTime)
| Forgotten (id : JobId)
| Preempted (id : JobId) (at_ : VirtualTime).
End LogRecord.
Abbreviation LogRecord := LogRecord.LogRecord.

Definition SUBMITTED : Z := 1.
Definition DISPATCHED : Z := 2.
Definition COMPLETED : Z := 3.
Definition FAILED : Z := 4.
Definition CANCELLED : Z := 5.
Definition REQUEUED : Z := 6.
Definition FORGOTTEN : Z := 7.
Definition PREEMPTED : Z := 8.

Definition FRAME_HEADER : nat := 8.

Definition state_tag (s : JobState) : exec Z :=
  let! index := expect (position (fun s' => bool_decide (s' = s)) JobState_ALL) in
  if Z.of_nat index <=? u8_max then Done (Z.of_nat index) else Panic.

Definition put_job (b : bytes) (job : Job) : exec bytes :=
  let b := put_u32 b (account job) in
  let b := put_u8 b (ordinal (priority_class job)) in
  let b := put_u64 b (submit_time job) in
  let b := put_u32 b (cpu_millis (request job)) in
  let b := put_u64 b (mem_bytes (request job)) in
  let b := put_u8 b (gpus (request job)) in
  let b := put_u64 b (walltime_limit job) in
  let! n := u32_from_usize (length (deps job)) in
  let b := put_u32 b n in
  let b := fold_left put_u64 (deps job) b in
  let! b := put_bytes b (payload job) in
  let! tag := state_tag (state job) in
  let b := put_u8 b tag in
  Done (put_u8 b (preemptions job)).

Definition get_job : reader Job :=
  let? account := read_u32 in
  let? class_at := cursor_position in
  let? class_tag := read_u8 in
  match vec_get PriorityClass_ALL class_tag with
  | None => fail (CodecError.BadTag class_tag class_at)
  | Some class =>
      let? submit_time := read_u64 in
      let? cpu := read_u32 in
      let? mem := read_u64 in
      let? gpus := read_u8 in
      let? walltime := read_u64 in
      let job := Job_new account class submit_time (MkResources cpu mem gpus) walltime in
      let? n := read_u32 in
      let? deps := read_n (Z.to_nat n) read_u64 in
      let? payload := read_bytes in
      let? state_at := cursor_position in
      let? state_tag := read_u8 in
      match vec_get JobState_ALL state_tag with
      | None => fail (CodecError.BadTag state_tag state_at)
      | Some state =>
          let? preemptions := read_u8 in
          ret (MkJob (Job.account job) (priority_class job) (Job.submit_time job) (request job)
                     (walltime_limit job) deps payload state preemptions)
      end
  end.

Definition put_event (b : bytes) (kind : Z) (id : JobId) (at_ : VirtualTime) : bytes :=
  put_u64 (put_u64 (put_u8 b kind) id) at_.

(** The closure [encode] hands to [frame]. *)
Definition put_record (r : LogRecord) (b : bytes) : exec bytes :=
  match r with
  | LogRecord.Submitted id job => put_job (put_u64 (put_u8 b SUBMITTED) id) job
  | LogRecord.Dispatched id at_ => Done (put_event b DISPATCHED id at_)
  | LogRecord.Completed id at_ => Done (put_event b COMPLETED id at_)
  | LogRecord.Failed id at_ => Done (put_event b FAILED id at_)
  | LogRecord.Cancelled id at_ => Done (put_event b CANCELLED id at_)
  | LogRecord.Requeued id at_ => Done (put_event b REQUEUED id at_)
  | LogRecord.Forgotten id => Done (put_u64 (put_u8 b FORGOTTEN) id)
  | LogRecord.Preempted id at_ => Done (put_event b PREEMPTED id at_)
  end.

(** [Cursor::new(payload)], then the record; bytes after it are ignored. *)
Definition get_record : reader LogRecord :=
  let? kind := read_tag PREEMPTED in
  let? id := read_u64 in
  if kind =? SUBMITTED then let? job := get_job in ret (LogRecord.Submitted id job)
  else if kind =? FORGOTTEN then ret (LogRecord.Forgotten id)
  else
    let? at_ := read_u64 in
    if kind =? DISPATCHED then ret (LogRecord.Dispatched id at_)
    else if kind =? COMPLETED then ret (LogRecord.Completed id at_)
    else if kind =? FAILED then ret (LogRecord.Failed id at_)
    else if kind =? CANCELLED then ret (LogRecord.Cancelled id at_)
    else if kind =? REQUEUED then ret (LogRecord.Requeued id at_)
    else if kind =? PREEMPTED then ret (LogRecord.Preempted id at_)
    else fail (CodecError.BadTag kind 0).

Definition decode (payload : bytes) : exec (result LogRecord CodecError) :=
  let! r := get_record (Cursor_new payload) in
  match r with
  | Ok (record, _) => Done (Ok record)
  | Err e => Done (Err e)
  end.

Definition record_id (r : LogRecord) : JobId :=
  match r with
  | LogRecord.Submitted id _ | LogRecord.Dispatched id _ | LogRecord.Completed id _
  | LogRecord.Failed id _ | LogRecord.Cancelled id _ | LogRecord.Requeued id _
  | LogRecord.Preempted id _ | LogRecord.Forgotten id => id
  end.

(** [&buf[a..]] and [buf[a..a + bs.len()].copy_from_slice(bs)]. *)
Definition slice_from (buf : bytes) (a : nat) : exec bytes :=
  if (a <=? length buf)%nat then Done (drop a buf) else Panic.

Definition copy_into (buf : bytes) (a : nat) (bs : bytes) : exec bytes :=
  if (a + length bs <=? length buf)%nat
  then Done (take a buf ++ bs ++ drop (a + length bs) buf)
  else Panic.

Section Frames.
Context (hash : bytes → Z).

Definition frame (buf : bytes) (write : bytes → exec bytes) : exec bytes :=
  let start := length buf in
  let! buf := write (buf ++ replicate FRAME_HEADER 0) in
  let! payload := slice_from buf (start + FRAME_HEADER) in
  let! len := u32_from_usize (length payload) in
  let crc := hash payload in
  let! buf := copy_into buf start (to_le_bytes 4 len) in
  copy_into buf (start + 4) (to_le_bytes 4 crc).

Definition encode_submitted (buf : bytes) (id : JobId) (job : Job) : exec bytes :=
  frame buf (fun b => put_job (put_u64 (put_u8 b SUBMITTED) id) job).

Definition encode (r : LogRecord) (buf : bytes) : exec bytes := frame buf (put_record r).
End Frames.

(** ** The layout *)

Definition state_index (s : JobState) : Z :=
  match state_tag s with Done i => i | _ => 0 end.

Definition job_bytes (j : Job) : bytes :=
  to_le_bytes 4 (account j) ++ [ordinal (priority_class j)] ++ to_le_bytes 8 (submit_time j) ++
  to_le_bytes 4 (cpu_millis (request j)) ++ to_le_bytes 8 (mem_bytes (request j)) ++
  [gpus (request j)] ++ to_le_bytes 8 (walltime_limit j) ++
  to_le_bytes 4 (Z.of_nat (length (deps j))) ++ concat (to_le_bytes 8 <$> deps j) ++
  (to_le_bytes 4 (Z.of_nat (length (payload j))) ++ payload j) ++
  [state_index (state j)] ++ [preemptions j].

(** The job is at its widths and its two vectors can be counted in a [u32]. *)
Record job_fits (j : Job) : Prop := {
  jf_wf : Job_wf j;
  jf_deps : Z.of_nat (length (deps j)) <= u32_max;
  jf_payload : Z.of_nat (length (payload j)) <= u32_max;
}.

Definition event_bytes (kind : Z) (id : JobId) (at_ : VirtualTime) : bytes :=
  kind :: to_le_bytes 8 id ++ to_le_bytes 8 at_.

Definition record_bytes (r : LogRecord) : bytes :=
  match r with
  | LogRecord.Submitted id job => SUBMITTED :: to_le_bytes 8 id ++ job_bytes job
  | LogRecord.Dispatched id at_ => event_bytes DISPATCHED id at_
  | LogRecord.Completed id at_ => event_bytes COMPLETED id at_
  | LogRecord.Failed id at_ => event_bytes FAILED id at_
  | LogRecord.Cancelled id at_ => event_bytes CANCELLED id at_
  | LogRecord.Requeued id at_ => event_bytes REQUEUED id at_
  | LogRecord.Forgotten id => FORGOTTEN :: to_le_bytes 8 id
  | LogRecord.Preempted id at_ => event_bytes PREEMPTED id at_
  end.

Definition record_wf (r : LogRecord) : Prop :=
  is_u64 (record_id r) ∧
  match r with
  | LogRecord.Submitted _ job => job_fits job
  | LogRecord.Forgotten _ => True
  | LogRecord.Dispatched _ at_ | LogRecord.Completed _ at_ | LogRecord.Failed _ at_
  | LogRecord.Cancelled _ at_ | LogRecord.Requeued _ at_ | LogRecord.Preempted _ at_ => is_u64 at_
  end.

(** The record's payload can be framed. *)
Definition record_fits (r : LogRecord) : Prop :=
  record_wf r ∧ Z.of_nat (length (record_bytes r)) <= u32_max.

Lemma state_tag_index s : state_tag s = Done (state_index s) ∧ vec_get JobState_ALL (state_index s) = Some s.
Proof. by destruct s; vm_compute. Qed.

Lemma ordinal_index c : vec_get PriorityClass_ALL (ordinal c) = Some c.
Proof. by destruct c. Qed.

Lemma fold_put_u64 ds b : fold_left put_u64 ds b = b ++ concat (to_le_bytes 8 <$> ds).
Proof.
  revert b. induction ds as [|d ds IH]; intros b; [by rewrite app_nil_r|].
  cbn [fold_left]. rewrite IH, fmap_cons. cbn [concat]. unfold put_u64. by rewrite app_assoc.
Qed.

Lemma put_job_writes j : job_fits j → writes (fun b => put_job b j) (job_bytes j).
Proof.
  intros [_ Hd Hp] buf. unfold put_job, put_bytes, job_bytes, put_u8, put_u32, put_u64.
  rewrite !u32_from_usize_Done by done. cbn [exec_bind].
  rewrite (proj1 (state_tag_index _)). cbn [exec_bind]. change (fun b v => b ++ to_le_bytes 8 v) with put_u64.
  rewrite fold_put_u64. f_equal. by rewrite <-!app_assoc.
Qed.

Lemma put_record_writes r : record_wf r → writes (put_record r) (record_bytes r).
Proof.
  intros (_ & Hr) buf. destruct r; simpl; unfold put_event, put_u8, put_u64;
    try (by rewrite <-!app_assoc).
  rewrite put_job_writes by done. by rewrite <-!app_assoc.
Qed.

(** ** Reading it back *)

Ltac read_field := eapply reads_bind.

Lemma get_job_reads j : job_fits j → reads get_job (job_bytes j) j.
Proof.
  intros [(Ha & Hs & (Hc & Hm & Hg) & Hw & Hds & Hpl & Hpr) Hd Hp]. unfold get_job, job_bytes.
  read_field; [by apply reads_u32|]. apply reads_position. intros class_at.
  read_field; [apply reads_u8|]. rewrite ordinal_index.
  read_field; [by apply reads_u64|]. read_field; [by apply reads_u32|].
  read_field; [by apply reads_u64|]. read_field; [apply reads_u8|].
  read_field; [by apply reads_u64|].
  read_field; [apply reads_u32; unfold is_u32; lia|]. rewrite Nat2Z.id.
  read_field; [apply reads_n; eapply Forall_impl; [|exact Hds]; apply reads_u64|].
  read_field; [by apply reads_bytes|]. apply reads_position. intros state_at.
  read_field; [apply reads_u8|]. rewrite (proj2 (state_tag_index _)).
  rewrite <-(app_nil_r [preemptions j]). read_field; [apply reads_u8|].
  destruct j as [? ? ? [] ? ? ? ? ?]. apply reads_ret.
Qed.

Lemma get_record_reads r : record_wf r → reads get_record (record_bytes r) r.
Proof.
  intros (Hid & Hr). unfold get_record.
  assert (∀ kind id at_ (k : Z → Z → reader LogRecord) rec,
    0 <= kind <= PREEMPTED → is_u64 id → is_u64 at_ → k kind id = reader_bind read_u64 (fun a => ret (rec a)) →
    reads (let? kind := read_tag PREEMPTED in let? id := read_u64 in k kind id) (event_bytes kind id at_) (rec at_))
    as Hev.
  { intros kind id at_ k rec Hk Hi Ha E. unfold event_bytes.
    apply (reads_bind _ _ [kind] _ kind); [apply reads_tag; lia|].
    read_field; [by apply reads_u64|]. rewrite E. by apply reads_map, reads_u64. }
  destruct r as [id job|id at_|id at_|id at_|id at_|id at_|id|id at_]; cbn [record_id record_bytes] in *;
    try (by eapply Hev; [unfold PREEMPTED|..]).
  - apply (reads_bind _ _ [SUBMITTED] _ SUBMITTED); [by apply reads_tag|].
    read_field; [by apply reads_u64|]. by apply reads_map, get_job_reads.
  - apply (reads_bind _ _ [FORGOTTEN] _ FORGOTTEN); [by apply reads_tag|].
    rewrite <-(app_nil_r (to_le_bytes 8 id)). read_field; [by apply reads_u64|]. apply reads_ret.
Qed.

Lemma decode_record r :
  record_wf r → Z.of_nat (length (record_bytes r)) <= u64_max → decode (record_bytes r) = Done (Ok r).
Proof.
  intros Hr Hl. unfold decode, Cursor_new. pose proof (get_record_reads r Hr [] []) as H.
  rewrite app_nil_r in H. cbn [app length] in H. change (Z.of_nat 0) with 0 in H. by rewrite H.
Qed.

(** ** Decoding arbitrary bytes *)

Ltac safe_field := eapply safe_bind.

Lemma safe_get_job : safe job_fits get_job.
Proof.
  unfold get_job. safe_field; [apply safe_u32|]. intros account Ha.
  safe_field; [apply safe_position|]. intros class_at _. safe_field; [apply safe_u8|]. intros class_tag _.
  destruct (vec_get PriorityClass_ALL class_tag) as [class|]; [|apply safe_fail].
  safe_field; [apply safe_u64|]. intros submit_time Hs. safe_field; [apply safe_u32|]. intros cpu Hc.
  safe_field; [apply safe_u64|]. intros mem Hm. safe_field; [apply safe_u8|]. intros gpus Hg.
  safe_field; [apply safe_u64|]. intros walltime Hw. safe_field; [apply safe_u32|]. intros n Hn.
  safe_field; [apply safe_read_n, safe_u64|]. intros deps [Hl Hd].
  safe_field; [apply safe_bytes|]. intros payload [Hpl Hpb].
  safe_field; [apply safe_position|]. intros state_at _. safe_field; [apply safe_u8|]. intros state_tag _.
  destruct (vec_get JobState_ALL state_tag) as [st|]; [|apply safe_fail].
  safe_field; [apply safe_u8|]. intros pre Hpre. apply safe_ret. unfold is_u32 in Hn.
  split; simpl; [|lia|done]. unfold Job_wf. by split_and!.
Qed.

Lemma safe_get_record : safe record_wf get_record.
Proof.
  unfold get_record. safe_field; [apply safe_tag|]. intros kind _. safe_field; [apply safe_u64|]. intros id Hid.
  destruct (kind =? SUBMITTED).
  { safe_field; [apply safe_get_job|]. intros job Hj. by apply safe_ret. }
  destruct (kind =? FORGOTTEN); [by apply safe_ret|].
  safe_field; [apply safe_u64|]. intros at_ Ha.
  repeat (destruct (kind =? _); [by apply safe_ret|]). apply safe_fail.
Qed.

Lemma decode_safe payload :
  Forall is_u8 payload → decode payload ⇓ fun r => match r with Ok rec => record_wf rec | Err _ => True end.
Proof.
  intros Hb. pose proof (safe_get_record (Cursor_new payload)) as H. unfold decode.
  assert (cursor_ok (Cursor_new payload)) as Hc by (split; simpl; [lia|done]). specialize (H Hc).
  destruct (get_record (Cursor_new payload)) as [[[r c]|e]| |]; simpl in *; try done. apply H.
Qed.

(** ** Frames *)

Section FrameSpec.
Context (hash : bytes → Z).

Definition frame_bytes (payload : bytes) : bytes :=
  to_le_bytes 4 (Z.of_nat (length payload)) ++ to_le_bytes 4 (hash payload) ++ payload.

Lemma copy_into_mid (pre old bs post : bytes) a :
  a = length pre → length bs = length old → copy_into (pre ++ old ++ post) a bs = Done (pre ++ bs ++ post).
Proof.
  intros -> Hl. unfold copy_into. rewrite !length_app.
  destruct (Nat.leb_spec (length pre + length bs) (length pre + (length old + length post))); [|lia].
  f_equal. rewrite take_app_length. do 2 f_equal. rewrite Hl.
  by rewrite <-length_app, app_assoc, drop_app_length.
Qed.

Lemma frame_writes write payload :
  writes write payload → Z.of_nat (length payload) <= u32_max →
  writes (fun buf => frame hash buf write) (frame_bytes payload).
Proof.
  intros Hw Hl buf. unfold frame. rewrite Hw. cbn [exec_bind]. unfold slice_from.
  assert (length (buf ++ replicate FRAME_HEADER 0) = (length buf + FRAME_HEADER)%nat) as Hh by by rewrite length_app.
  rewrite length_app, Hh.
  destruct (Nat.leb_spec (length buf + FRAME_HEADER) (length buf + FRAME_HEADER + length payload)); [|lia].
  cbn [exec_bind]. rewrite <-Hh, drop_app_length, u32_from_usize_Done by done. cbn [exec_bind].
  replace ((buf ++ replicate FRAME_HEADER 0) ++ payload)
    with (buf ++ replicate 4 0 ++ replicate 4 0 ++ payload) by by rewrite <-app_assoc.
  rewrite copy_into_mid by (done || by rewrite length_to_le). cbn [exec_bind].
  rewrite app_assoc, copy_into_mid by (by rewrite ?length_app, ?length_to_le).
  unfold frame_bytes. by rewrite <-!app_assoc.
Qed.

Lemma encode_writes r : record_fits r → writes (encode hash r) (frame_bytes (record_bytes r)).
Proof. intros [Hr Hl]. apply frame_writes; [by apply put_record_writes|done]. Qed.
End FrameSpec.

(** ** Properties *)

(** Records survive the log: encoding a well-formed record appends exactly
    one frame (length, checksum, payload) after whatever the buffer held,
    without a panic, and decoding that frame's payload gives the record back;
    [encode_submitted] writes the same bytes as [encode] of a submission. *)
Theorem record_roundtrip hash r buf :
  record_fits r →
  encode hash r buf = Done (buf ++ frame_bytes hash (record_bytes r)) ∧
  decode (record_bytes r) = Done (Ok r) ∧
  ∀ id job, r = LogRecord.Submitted id job → encode_submitted hash buf id job = encode hash r buf.
Proof.
  intros Hr. split; [by apply encode_writes|]. split; [|by intros id job ->].
  destruct Hr as [Hr Hl]. apply decode_record; [done|lia].
Qed.

(** The reflected CRC-32 that [crc32fast] documents, one bit at a time: an
    instance of the parameter on which the examples are evaluated. *)
Definition crc_bit (c : Z) : Z :=
  if Z.testbit c 0 then Z.lxor (Z.shiftr c 1) 3988292384 else Z.shiftr c 1.

Definition crc32 (bs : bytes) : Z :=
  Z.land (Z.lxor (fold_left (fun c b => Nat.iter 8 crc_bit (Z.lxor c b)) bs u32_max) u32_max) (Z.ones 32).

#[export] Instance crc32_checksum : Checksum crc32.
Proof.
  intros bs. unfold crc32. rewrite Z.land_ones by lia. unfold is_u32.
  match goal with |- context [?x mod _] => pose proof (Z.mod_pos_bound x (2 ^ 32)) end. lia.
Qed.

(** The check value of the CRC catalogue, and the checksum of nothing. *)
Example crc32_check : crc32 [49; 50; 51; 52; 53; 54; 55; 56; 57] = 3421780262 ∧ crc32 [] = 0.
Proof. by vm_compute. Qed.

Definition demo_log_job : Job :=
  MkJob 7 PriorityClass.High 1000 (MkResources 500 4096 1) 60000 [3; 4294967296] [1; 2; 255] JobState.Blocked 2.

Lemma demo_log_job_fits : job_fits demo_log_job.
Proof. split; [|done|done]. unfold Job_wf. split_and!; try done; by repeat constructor. Qed.

Lemma record_roundtrip_witness :
  let r := LogRecord.Submitted 9 demo_log_job in
  encode crc32 r [42] = Done ([42] ++ frame_bytes crc32 (record_bytes r)) ∧
  decode (record_bytes r) = Done (Ok r) ∧
  ∀ id job, r = LogRecord.Submitted id job → encode_submitted crc32 [42] id job = encode crc32 r [42].
Proof.
  apply record_roundtrip. split; [split; [done|apply demo_log_job_fits]|by vm_compute].
Defined.
