(* ===== verification/Log.v ===== *)
(** * One log file

    [crates/tasker-wal/src/log.rs]: the magic, the frames and the torn-tail rule.
    A file is its bytes; a crash can cut it anywhere.  The reader is shown to
    give back exactly the records whose frames are whole, wherever the file was
    cut, and the file to keep working as a log once the tail is removed. *)

From stdpp Require Import base list numbers option.
From Stdlib Require Import ZArith Lia.
From S2P Require Import Prelude Domain Arena Job Codec LogRecord.
Open Scope Z_scope.

(** [WalError]; the payload of [Io] is the operating system's. *)
Module WalError.
Inductive WalError : Type :=
| Io
| BadMagic
| SnapshotChecksum
| Codec (e : CodecError).
End WalError.
Abbreviation WalError := WalError.WalError.

(** ["TKRWAL02"]. *)
Definition LOG_MAGIC : bytes := [84; 75; 82; 87; 65; 76; 48; 50].

Module SyncPolicy.
Inductive SyncPolicy : Type := Full | Data | NoSync.
End SyncPolicy.
Abbreviation SyncPolicy := SyncPolicy.SyncPolicy.

(** The open file's content and the length the writer keeps. *)
Record LogWriter : Type := MkLogWriter {
  lw_file : bytes;
  lw_len : Z;
}.

(** [open(path)]: [None] is a path where there is no file yet. *)
Definition LogWriter_open (file : option bytes) : result LogWriter WalError :=
  let file := match file with Some bs => bs | None => [] end in
  let len := Z.of_nat (length file) in
  if len =? 0 then Ok (MkLogWriter LOG_MAGIC (Z.of_nat (length LOG_MAGIC)))
  else
    match slice_get file 0 8 with
    | None => Err WalError.Io
    | Some magic =>
        if bool_decide (magic = LOG_MAGIC) then Ok (MkLogWriter file len) else Err WalError.BadMagic
    end.

Definition log_append (w : LogWriter) (frames : bytes) : LogWriter :=
  MkLogWriter (lw_file w ++ frames) (lw_len w + Z.of_nat (length frames)).

Definition log_is_empty (w : LogWriter) : bool := lw_len w <=? Z.of_nat (length LOG_MAGIC).

Record Replay : Type := MkReplay {
  records : list LogRecord;
  torn_at : option Z;
}.

Definition Replay_default : Replay := MkReplay [] None.

(** [set_len]: shorter cuts, longer pads with zeros. *)
Definition truncate_log (file : bytes) (len : nat) : bytes :=
  take len file ++ replicate (len - length file) 0.

Section Parse.
Context (hash : bytes → Z).

(** The [while] loop; the answer is the records and where it stopped. *)
Fixpoint parse_loop (fuel : nat) (bs : bytes) (pos : Z) (recs : list LogRecord)
  : exec (result (list LogRecord * Z) WalError) :=
  match fuel with
  | O => NoFuel
  | S fuel' =>
      if negb (pos <? Z.of_nat (length bs)) then Done (Ok (recs, pos))
      else
        match slice_get bs pos (pos + Z.of_nat FRAME_HEADER) with
        | None => Done (Ok (recs, pos))
        | Some header =>
            let! l := array_from 4 (take 4 header) in
            let len := from_le_bytes l in
            let! c := array_from 4 (drop 4 header) in
            let crc := from_le_bytes c in
            match slice_get bs (pos + Z.of_nat FRAME_HEADER) (pos + Z.of_nat FRAME_HEADER + len) with
            | None => Done (Ok (recs, pos))
            | Some payload =>
                if negb (hash payload =? crc) then Done (Ok (recs, pos))
                else
                  let! r := decode payload in
                  match r with
                  | Err e => Done (Err (WalError.Codec e))
                  | Ok r => parse_loop fuel' bs (pos + (Z.of_nat FRAME_HEADER + len)) (recs ++ [r])
                  end
            end
        end
  end.

(** Each turn consumes a header, so the length of the input is fuel enough. *)
Definition parse_log (bs : bytes) : exec (result Replay WalError) :=
  if negb (bool_decide (take (length LOG_MAGIC) bs = LOG_MAGIC)) then Done (Err WalError.BadMagic)
  else
    let! r := parse_loop (S (length bs)) bs (Z.of_nat (length LOG_MAGIC)) [] in
    match r with
    | Err e => Done (Err e)
    | Ok (recs, pos) =>
        let torn := if pos <? Z.of_nat (length bs) then Some pos else None in
        Done (Ok (MkReplay recs torn))
    end.

(** ** The image of a log *)

Definition frames (rs : list LogRecord) : bytes := concat ((fun r => frame_bytes hash (record_bytes r)) <$> rs).

Definition log_image (rs : list LogRecord) : bytes := LOG_MAGIC ++ frames rs.

Lemma frames_app rs rs' : frames (rs ++ rs') = frames rs ++ frames rs'.
Proof. unfold frames. by rewrite fmap_app, concat_app. Qed.

Lemma frames_cons r rs : frames (r :: rs) = frame_bytes hash (record_bytes r) ++ frames rs.
Proof. done. Qed.

Lemma length_frame payload : length (frame_bytes hash payload) = (8 + length payload)%nat.
Proof. unfold frame_bytes. by rewrite !length_app, !length_to_le. Qed.

Hypothesis Hhash : Checksum hash.

(** One whole frame at [pos]. *)
Lemma parse_step fuel pre r post recs :
  record_fits r →
  parse_loop (S fuel) (pre ++ frame_bytes hash (record_bytes r) ++ post) (Z.of_nat (length pre)) recs =
  parse_loop fuel (pre ++ frame_bytes hash (record_bytes r) ++ post)
    (Z.of_nat (length (pre ++ frame_bytes hash (record_bytes r)))) (recs ++ [r]).
Proof.
  intros [Hr Hl]. set (p := record_bytes r) in *. set (all := pre ++ frame_bytes hash p ++ post).
  assert (all = pre ++ (to_le_bytes 4 (Z.of_nat (length p)) ++ to_le_bytes 4 (hash p)) ++ p ++ post) as Hall.
  { unfold all, frame_bytes. by rewrite <-!app_assoc. }
  cbn [parse_loop].
  assert ((Z.of_nat (length pre) <? Z.of_nat (length all)) = true) as ->.
  { apply Z.ltb_lt. unfold all. rewrite !length_app, length_frame. lia. }
  cbn [negb].
  assert (slice_get all (Z.of_nat (length pre)) (Z.of_nat (length pre) + Z.of_nat FRAME_HEADER) =
          Some (to_le_bytes 4 (Z.of_nat (length p)) ++ to_le_bytes 4 (hash p))) as ->.
  { rewrite Hall. apply slice_get_mid. }
  rewrite take_app_length', drop_app_length' by by rewrite length_to_le.
  unfold array_from. rewrite !length_to_le. cbn [Nat.eqb exec_bind].
  rewrite !from_to_le_u32 by (first [apply Hhash|unfold is_u32; lia]).
  assert (slice_get all (Z.of_nat (length pre) + Z.of_nat FRAME_HEADER)
            (Z.of_nat (length pre) + Z.of_nat FRAME_HEADER + Z.of_nat (length p)) = Some p) as ->.
  { rewrite Hall, app_assoc.
    replace (Z.of_nat (length pre) + Z.of_nat FRAME_HEADER) with
      (Z.of_nat (length (pre ++ to_le_bytes 4 (Z.of_nat (length p)) ++ to_le_bytes 4 (hash p))))
      by (rewrite !length_app, !length_to_le; unfold FRAME_HEADER; lia). apply slice_get_mid. }
  rewrite Z.eqb_refl. cbn [negb]. unfold p at 1.
  rewrite decode_record by (done || (fold p; lia)). cbn [exec_bind]. f_equal.
  rewrite length_app, length_frame. unfold FRAME_HEADER. lia.
Qed.

Lemma parse_frames rs fuel pre post recs :
  Forall record_fits rs →
  parse_loop (length rs + fuel) (pre ++ frames rs ++ post) (Z.of_nat (length pre)) recs =
  parse_loop fuel (pre ++ frames rs ++ post) (Z.of_nat (length (pre ++ frames rs))) (recs ++ rs).
Proof.
  intros Hrs. revert pre recs. induction Hrs as [|r rs Hr _ IH]; intros pre recs.
  { simpl. by rewrite !app_nil_r. }
  rewrite frames_cons, <-app_assoc. cbn [length Nat.add]. rewrite parse_step by done.
  rewrite app_assoc, IH. by rewrite <-!app_assoc.
Qed.

Lemma parse_end fuel bs recs :
  parse_loop (S fuel) bs (Z.of_nat (length bs)) recs = Done (Ok (recs, Z.of_nat (length bs))).
Proof. cbn [parse_loop]. destruct (Z.ltb_spec (Z.of_nat (length bs)) (Z.of_nat (length bs))); [lia|done]. Qed.

(** A frame cut short stops the loop where it begins. *)
Lemma parse_torn fuel pre p m recs :
  Z.of_nat (length p) <= u32_max → (m < length (frame_bytes hash p))%nat →
  parse_loop (S fuel) (pre ++ take m (frame_bytes hash p)) (Z.of_nat (length pre)) recs =
  Done (Ok (recs, Z.of_nat (length pre))).
Proof.
  intros Hl Hm. rewrite length_frame in Hm. cbn [parse_loop]. destruct (negb _) eqn:En; [done|].
  assert (length (pre ++ take m (frame_bytes hash p)) = (length pre + m)%nat) as Hlen.
  { rewrite length_app, length_take, length_frame. lia. }
  destruct (slice_get _ _ _) as [header|] eqn:Eh; [|done].
  apply slice_get_Some in Eh as (_ & pre' & post & Eq & Hp & Hh).
  assert (length header = 8%nat) as Hh8 by (unfold FRAME_HEADER in Hh; lia).
  assert (8 <= m)%nat as Hm8.
  { apply (f_equal length) in Eq. rewrite Hlen, !length_app in Eq. lia. }
  apply app_inj_1 in Eq as [<- Eq]; [|lia].
  assert (header = to_le_bytes 4 (Z.of_nat (length p)) ++ to_le_bytes 4 (hash p)) as ->.
  { assert (take 8 (take m (frame_bytes hash p)) = header) as <-
      by (rewrite Eq; by apply take_app_length').
    rewrite take_take, Nat.min_l by lia. unfold frame_bytes. rewrite app_assoc.
    apply take_app_length'. by rewrite length_app, !length_to_le. }
  rewrite take_app_length', drop_app_length' by by rewrite length_to_le.
  unfold array_from. rewrite !length_to_le. cbn [Nat.eqb exec_bind].
  rewrite from_to_le_u32 by (unfold is_u32; lia).
  destruct (slice_get _ _ _) eqn:Es; [|done].
  apply slice_get_Some in Es as (_ & pre2 & post2 & Eq2 & Hp2 & Hb2).
  apply (f_equal length) in Eq2. rewrite Hlen, !length_app in Eq2. unfold FRAME_HEADER in *. lia.
Qed.

(** Where a cut at byte [n] falls: [k] whole frames and part of the next. *)
Definition cut_at (rs : list LogRecord) (n : nat) (k : nat) (tail : bytes) : Prop :=
  (k <= length rs)%nat ∧ take n (frames rs) = frames (take k rs) ++ tail ∧
  (tail = [] ∨ ∃ r m, rs !! k = Some r ∧ tail = take m (frame_bytes hash (record_bytes r)) ∧
                      (0 < m < length (frame_bytes hash (record_bytes r)))%nat).

Lemma cut_exists rs n : ∃ k tail, cut_at rs n k tail.
Proof.
  revert n. induction rs as [|r rs IH]; intros n.
  { exists 0%nat, []. split; [done|]. split; [by destruct n|by left]. }
  destruct (decide (n < length (frame_bytes hash (record_bytes r)))%nat) as [Hn|Hn].
  - exists 0%nat, (take n (frame_bytes hash (record_bytes r))). split; [simpl; lia|].
    split; [rewrite frames_cons; by rewrite take_app_le by lia|].
    destruct (decide (n = 0)%nat) as [->|]; [by left|]. right. exists r, n. split; [done|]. split; [done|lia].
  - destruct (IH (n - length (frame_bytes hash (record_bytes r)))%nat) as (k & tail & Hk & Ht & Htail).
    exists (S k), tail. split; [simpl; lia|]. split; [|done].
    rewrite frames_cons, take_app_ge, Ht by lia. cbn [take]. rewrite frames_cons. by rewrite app_assoc.
Qed.

(** The reader on a log image cut at [n] bytes after the magic. *)
Lemma parse_cut rs n k tail :
  Forall record_fits rs → cut_at rs n k tail →
  parse_log (LOG_MAGIC ++ take n (frames rs)) =
  Done (Ok (MkReplay (take k rs)
              (match tail with [] => None | _ => Some (Z.of_nat (length (log_image (take k rs)))) end))).
Proof.
  intros Hrs (Hk & Ht & Htail). rewrite Ht. unfold parse_log.
  rewrite take_app_length, bool_decide_eq_true_2 by done. cbn [negb].
  assert (Forall record_fits (take k rs)) as Hk' by (by apply Forall_take).
  assert (length (take k rs) <= length (frames (take k rs)))%nat as Hfuel.
  { generalize (take k rs). intros l. induction l as [|r l IH]; [done|].
    rewrite frames_cons, length_app, length_frame. simpl. lia. }
  rewrite !length_app.
  replace (S (length LOG_MAGIC + (length (frames (take k rs)) + length tail)))
    with (length (take k rs) + S (length LOG_MAGIC + (length (frames (take k rs)) - length (take k rs)) + length tail))%nat
    by lia.
  rewrite parse_frames by done. rewrite app_assoc. fold (log_image (take k rs)). destruct Htail as [->|(r & m & Hr & -> & Hm)].
  - rewrite app_nil_r, parse_end. cbn [exec_bind]. simpl (length []).
    destruct (Z.ltb_spec (Z.of_nat (length (log_image (take k rs))))
      (Z.of_nat (length LOG_MAGIC + (length (frames (take k rs)) + 0)))); [|done].
    unfold log_image in *. rewrite length_app in *. lia.
  - rewrite parse_torn by (first [lia|by apply (Forall_lookup_1 _ _ _ _ Hrs Hr)]). cbn [exec_bind].
    rewrite length_take. destruct (Z.ltb_spec (Z.of_nat (length (log_image (take k rs))))
      (Z.of_nat (length LOG_MAGIC + (length (frames (take k rs)) + m `min` length (frame_bytes hash (record_bytes r))))));
      [|unfold log_image in *; rewrite length_app in *; lia].
    destruct (take m (frame_bytes hash (record_bytes r))) eqn:Et; [|done].
    apply (f_equal length) in Et. rewrite length_take in Et. simpl in Et. lia.
Qed.

(** ** Any input *)

Lemma slice_get_take bs a b q :
  b <= Z.of_nat q → (q <= length bs)%nat → slice_get (take q bs) a b = slice_get bs a b.
Proof.
  intros Hb Hq. unfold slice_get. rewrite length_take, Nat.min_l by done.
  destruct (Z.leb_spec 0 a), (Z.leb_spec a b); try done. simpl.
  destruct (Z.leb_spec b (Z.of_nat q)), (Z.leb_spec b (Z.of_nat (length bs))); try lia. f_equal.
  rewrite !take_drop_commute, take_take, Nat.min_l by lia. done.
Qed.

Lemma slice_get_u8 bs a b c : Forall is_u8 bs → slice_get bs a b = Some c → Forall is_u8 c ∧ Z.of_nat (length c) = b - a.
Proof.
  intros Hb (_ & pre & post & -> & _ & Hl)%slice_get_Some. rewrite !Forall_app in Hb. naive_solver.
Qed.

(** What the loop finds at [pos]: the end of a run, or a whole frame. *)
Lemma parse_loop_cases fuel bs pos recs :
  Forall is_u8 bs → 0 <= pos <= Z.of_nat (length bs) →
  parse_loop (S fuel) bs pos recs = Done (Ok (recs, pos)) ∨
  (∃ e, parse_loop (S fuel) bs pos recs = Done (Err (WalError.Codec e))) ∨
  ∃ next r, pos + 8 <= next <= Z.of_nat (length bs) ∧ record_wf r ∧
    parse_loop (S fuel) bs pos recs = parse_loop fuel bs next (recs ++ [r]) ∧
    ∀ q fuel' recs', next <= Z.of_nat q → (q <= length bs)%nat →
      parse_loop (S fuel') (take q bs) pos recs' = parse_loop fuel' (take q bs) next (recs' ++ [r]).
Proof.
  intros Hb Hpos. cbn [parse_loop]. destruct (Z.ltb_spec pos (Z.of_nat (length bs))) as [Hlt|]; [|by left].
  cbn [negb]. destruct (slice_get bs pos (pos + Z.of_nat FRAME_HEADER)) as [header|] eqn:Eh; [|by left].
  destruct (slice_get_u8 _ _ _ _ Hb Eh) as [Hh8 Hhl].
  assert (length header = 8%nat) as Hlen by (unfold FRAME_HEADER in Hhl; lia).
  unfold array_from. rewrite length_take, length_drop, Hlen. cbn [Nat.min Nat.sub Nat.eqb exec_bind].
  set (len := from_le_bytes (take 4 header)).
  assert (0 <= len) as Hlen0.
  { apply from_le_range. by apply Forall_take. }
  destruct (slice_get bs _ (_ + len)) as [payload|] eqn:Ep; [|by left].
  pose proof Ep as (_ & pre & post & Eq & Hpre & Hpl)%slice_get_Some.
  destruct (slice_get_u8 _ _ _ _ Hb Ep) as [Hp8 _].
  destruct (hash payload =? _) eqn:Ec; [|by left]. cbn [negb].
  pose proof (decode_safe payload Hp8) as Hd. destruct (decode payload) as [[r|e]| |] eqn:Ed; try done; [|eauto].
  cbn [exec_bind]. right. right. exists (pos + (Z.of_nat FRAME_HEADER + len)), r.
  assert (pos + (Z.of_nat FRAME_HEADER + len) <= Z.of_nat (length bs)) as Hend.
  { rewrite Eq, !length_app. unfold FRAME_HEADER in *. lia. }
  split; [unfold FRAME_HEADER in *; lia|]. split; [done|]. split; [done|].
  intros q fuel' recs' Hq Hql. rewrite length_take, Nat.min_l by done.
  destruct (Z.ltb_spec pos (Z.of_nat q)); [|unfold FRAME_HEADER in *; lia]. cbn [negb].
  rewrite slice_get_take by (done || unfold FRAME_HEADER in *; lia). rewrite Eh.
  rewrite length_take, length_drop, Hlen. cbn [Nat.min Nat.sub Nat.eqb exec_bind]. fold len.
  rewrite slice_get_take by (done || unfold FRAME_HEADER in *; lia). rewrite Ep, Ec. cbn [negb].
  by rewrite Ed.
Qed.

(** The loop ends, and what it read is what it would read from the bytes up to
    where it stopped. *)
Lemma parse_loop_total fuel bs pos recs :
  Forall is_u8 bs → 0 <= pos <= Z.of_nat (length bs) → Z.of_nat (length bs) - pos < Z.of_nat fuel →
  (∃ e, parse_loop fuel bs pos recs = Done (Err (WalError.Codec e))) ∨
  ∃ new stop, parse_loop fuel bs pos recs = Done (Ok (recs ++ new, stop)) ∧ Forall record_wf new ∧
    pos <= stop <= Z.of_nat (length bs) ∧
    ∀ fuel', stop - pos < Z.of_nat fuel' →
      parse_loop fuel' (take (Z.to_nat stop) bs) pos recs = Done (Ok (recs ++ new, stop)).
Proof.
  intros Hb. revert pos recs. induction fuel as [|fuel IH]; intros pos recs Hpos Hf; [lia|].
  destruct (parse_loop_cases fuel bs pos recs Hb Hpos) as [E|[[e E]|(next & r & Hn & Hr & E & Hcut)]].
  - right. exists [], pos. rewrite E, app_nil_r. split; [done|]. split; [constructor|]. split; [lia|].
    intros [|fuel'] Hf'; [lia|]. pose proof (parse_end fuel' (take (Z.to_nat pos) bs) recs) as He.
    rewrite length_take, Nat.min_l in He by lia. by rewrite Z2Nat.id in He by lia.
  - left. eauto.
  - rewrite E. destruct (IH next (recs ++ [r]) ltac:(lia) ltac:(lia)) as [[e E']|(new & stop & E' & Hw & Hs & Ht)].
    { left. eauto. }
    right. exists (r :: new), stop. rewrite E', <-app_assoc in *. split; [done|]. split; [by constructor|].
    split; [lia|]. intros [|fuel'] Hf'; [lia|]. rewrite (Hcut (Z.to_nat stop) fuel' recs) by lia.
    by rewrite Ht by lia.
Qed.
End Parse.

Lemma parse_image hash rs :
  Checksum hash → Forall record_fits rs → parse_log hash (log_image hash rs) = Done (Ok (MkReplay rs None)).
Proof.
  intros Hh Hrs. pose proof (parse_cut hash Hh rs (length (frames hash rs)) (length rs) [] Hrs) as H.
  rewrite !take_ge in H by done. apply H. split; [done|]. split; [|by left]. by rewrite !take_ge, app_nil_r by done.
Qed.

(** Opening the file of a log. *)
Lemma open_image hash rs :
  LogWriter_open (Some (log_image hash rs)) = Ok (MkLogWriter (log_image hash rs) (Z.of_nat (length (log_image hash rs)))).
Proof.
  unfold LogWriter_open. destruct (Z.eqb_spec (Z.of_nat (length (log_image hash rs))) 0) as [E|].
  { unfold log_image in E. rewrite length_app in E. simpl in E. lia. }
  pose proof (slice_get_mid [] LOG_MAGIC (frames hash rs)) as Hs. simpl (length []) in Hs. simpl (0 + _) in Hs.
  unfold log_image at 1. replace (slice_get _ 0 8) with (Some LOG_MAGIC). by rewrite bool_decide_eq_true_2.
Qed.

(** ** Properties *)

(** C29: A crash loses no whole record.  A log of any records, cut at any byte
    after its magic, reads back as exactly the records whose frames are whole,
    [torn_at] is where the cut frame begins (absent at a frame boundary), and
    once the tail is cut there the file is a log again: appending the frames of
    more records reads back as the surviving records followed by those. *)
Theorem log_survives_a_cut hash rs n :
  Checksum hash → Forall record_fits rs → (length LOG_MAGIC <= n)%nat →
  ∃ k tail, cut_at hash rs (n - length LOG_MAGIC) k tail ∧
    let survivors := take k rs in
    let boundary := length (log_image hash survivors) in
    let torn := match tail with [] => None | _ => Some (Z.of_nat boundary) end in
    let file := take n (log_image hash rs) in
    parse_log hash file = Done (Ok (MkReplay survivors torn)) ∧
    ∀ more, Forall record_fits more →
      let repaired := match torn with Some at_ => truncate_log file (Z.to_nat at_) | None => file end in
      parse_log hash (repaired ++ frames hash more) = Done (Ok (MkReplay (survivors ++ more) None)).
Proof.
  intros Hh Hrs Hn. destruct (cut_exists hash rs (n - length LOG_MAGIC)) as (k & tail & Hc).
  exists k, tail. split; [done|]. intros survivors boundary torn file.
  assert (file = LOG_MAGIC ++ take (n - length LOG_MAGIC) (frames hash rs)) as Hfile.
  { unfold file, log_image. by rewrite take_app_ge. }
  split; [rewrite Hfile; by apply parse_cut|]. intros more Hmore repaired.
  assert (repaired = log_image hash survivors) as ->.
  { unfold repaired, torn. destruct Hc as (Hk & Ht & _). rewrite Hfile, Ht.
    destruct tail as [|b tail]; [by rewrite app_nil_r|]. rewrite Nat2Z.id. unfold truncate_log.
    rewrite app_assoc. change (LOG_MAGIC ++ frames hash (take k rs)) with (log_image hash survivors).
    unfold boundary. rewrite take_app_length, (proj2 (Nat.sub_0_le _ _)) by (rewrite length_app; lia).
    by rewrite app_nil_r. }
  unfold log_image. rewrite <-app_assoc, <-frames_app. apply parse_image; [done|].
  apply Forall_app. split; [by apply Forall_take|done].
Qed.

(** C37: [parse_log] on any bytes whatever terminates without a panic: it
    refuses input without the magic with [BadMagic], reports an intact frame
    that does not decode as [Codec], and otherwise returns well-formed records
    and a [torn_at] inside the file, such that the file cut there parses to the
    same records with nothing torn. *)
Theorem parse_log_total hash bs :
  Forall is_u8 bs → parse_log hash bs ⇓ fun r =>
    match r with
    | Err WalError.BadMagic => take (length LOG_MAGIC) bs ≠ LOG_MAGIC
    | Err (WalError.Codec _) => True
    | Err _ => False
    | Ok (MkReplay recs torn) => Forall record_wf recs ∧
        match torn with
        | None => True
        | Some at_ => Z.of_nat (length LOG_MAGIC) <= at_ < Z.of_nat (length bs) ∧
            parse_log hash (take (Z.to_nat at_) bs) = Done (Ok (MkReplay recs None))
        end
    end.
Proof.
  intros Hb. unfold parse_log at 1. case_bool_decide as Hm; [|done]. cbn [negb].
  assert (length LOG_MAGIC <= length bs)%nat as Hl.
  { apply (f_equal length) in Hm. rewrite length_take in Hm. lia. }
  destruct (parse_loop_total hash (S (length bs)) bs (Z.of_nat (length LOG_MAGIC)) [] Hb ltac:(lia) ltac:(lia))
    as [[e ->]|(new & stop & -> & Hw & Hs & Ht)]; [done|]. cbn [exec_bind returns app].
  split; [done|]. destruct (Z.ltb_spec stop (Z.of_nat (length bs))); [|done]. split; [lia|].
  unfold parse_log. rewrite take_take, Nat.min_l, bool_decide_eq_true_2 by (done || lia). cbn [negb].
  assert (length (take (Z.to_nat stop) bs) = Z.to_nat stop) as Hlt by (rewrite length_take; lia).
  rewrite Hlt, Ht by lia. cbn [exec_bind app]. destruct (Z.ltb_spec stop (Z.of_nat (Z.to_nat stop))); [lia|done].
Qed.

(** The two records of the examples. *)
Definition demo_records : list LogRecord :=
  [LogRecord.Submitted 0 demo_log_job; LogRecord.Dispatched 0 2000].

Lemma demo_records_fit : Forall record_fits demo_records.
Proof.
  repeat constructor; try by vm_compute.
Qed.

(** Cut inside the second frame: the first record survives. *)
Lemma log_survives_a_cut_witness :
  let file := take 100 (log_image crc32 demo_records) in
  (parse_log crc32 file ⇓ fun r => r = Ok (MkReplay [LogRecord.Submitted 0 demo_log_job] (Some 88))) ∧
  ∃ k tail, cut_at crc32 demo_records (100 - length LOG_MAGIC) k tail ∧
    let survivors := take k demo_records in
    let boundary := length (log_image crc32 survivors) in
    let torn := match tail with [] => None | _ => Some (Z.of_nat boundary) end in
    parse_log crc32 file = Done (Ok (MkReplay survivors torn)) ∧
    ∀ more, Forall record_fits more →
      let repaired := match torn with Some at_ => truncate_log file (Z.to_nat at_) | None => file end in
      parse_log crc32 (repaired ++ frames crc32 more) = Done (Ok (MkReplay (survivors ++ more) None)).
Proof.
  intros file. split; [by vm_compute|].
  apply log_survives_a_cut; [apply crc32_checksum|apply demo_records_fit|simpl; lia].
Defined.

Lemma parse_log_total_witness :
  parse_log crc32 (log_image crc32 demo_records ++ [1; 2; 3]) ⇓ fun r =>
    match r with
    | Err WalError.BadMagic =>
        take (length LOG_MAGIC) (log_image crc32 demo_records ++ [1; 2; 3]) ≠ LOG_MAGIC
    | Err (WalError.Codec _) => True
    | Err _ => False
    | Ok (MkReplay recs torn) => Forall record_wf recs ∧
        match torn with
        | None => True
        | Some at_ => Z.of_nat (length LOG_MAGIC) <= at_ <
                      Z.of_nat (length (log_image crc32 demo_records ++ [1; 2; 3])) ∧
            parse_log crc32 (take (Z.to_nat at_) (log_image crc32 demo_records ++ [1; 2; 3])) =
              Done (Ok (MkReplay recs None))
        end
    end.
Proof. apply parse_log_total. vm_compute. by repeat constructor. Defined.

(** The writer keeps a log: a new file is the empty log; on the file of a
    log, appending the frames of more records gives the file of the longer log
    with its length tracked exactly, reopening it changes nothing, it reads back
    complete, and [is_empty] says whether it holds a record. *)
Theorem log_writer_keeps_a_log hash rs more :
  Checksum hash → Forall record_fits (rs ++ more) →
  let w := MkLogWriter (log_image hash rs) (Z.of_nat (length (log_image hash rs))) in
  let w' := log_append w (frames hash more) in
  LogWriter_open None = Ok (MkLogWriter (log_image hash []) (Z.of_nat (length (log_image hash [])))) ∧
  lw_file w' = log_image hash (rs ++ more) ∧ lw_len w' = Z.of_nat (length (lw_file w')) ∧
  LogWriter_open (Some (lw_file w')) = Ok w' ∧
  parse_log hash (lw_file w') = Done (Ok (MkReplay (rs ++ more) None)) ∧
  (log_is_empty w' = true ↔ rs ++ more = []).
Proof.
  intros Hh Hrs w w'.
  assert (lw_file w' = log_image hash (rs ++ more)) as Hf.
  { simpl. unfold log_image. by rewrite frames_app, app_assoc. }
  assert (lw_len w' = Z.of_nat (length (lw_file w'))) as Hl by (simpl; rewrite length_app; lia).
  split; [done|]. split; [done|]. split; [done|]. split; [|split].
  - rewrite Hf, open_image. f_equal. destruct w'. cbn in *. by rewrite Hl, Hf.
  - rewrite Hf. by apply parse_image.
  - unfold log_is_empty. rewrite Hl, Hf, Z.leb_le. unfold log_image. rewrite length_app.
    destruct (rs ++ more) as [|r l]; [split; [done|simpl; lia]|].
    rewrite frames_cons, length_app, length_frame. split; [lia|done].
Qed.

Lemma log_writer_keeps_a_log_witness :
  let rs := [LogRecord.Submitted 0 demo_log_job] in
  let more := [LogRecord.Dispatched 0 2000] in
  let w := MkLogWriter (log_image crc32 rs) (Z.of_nat (length (log_image crc32 rs))) in
  let w' := log_append w (frames crc32 more) in
  LogWriter_open None = Ok (MkLogWriter (log_image crc32 []) (Z.of_nat (length (log_image crc32 [])))) ∧
  lw_file w' = log_image crc32 (rs ++ more) ∧ lw_len w' = Z.of_nat (length (lw_file w')) ∧
  LogWriter_open (Some (lw_file w')) = Ok w' ∧
  parse_log crc32 (lw_file w') = Done (Ok (MkReplay (rs ++ more) None)) ∧
  (log_is_empty w' = true ↔ rs ++ more = []).
Proof. apply log_writer_keeps_a_log; [apply crc32_checksum|apply demo_records_fit]. Defined.

(** A tail of eight zero bytes, which a file extended before its data was
    written has, passes for a frame: no payload, and CRC-32 of nothing is zero.
    It is reported as a corrupt record, not as a torn tail. *)
Example zero_tail_is_not_torn :
  parse_log crc32 (log_image crc32 demo_records ++ replicate 8 0) =
    Done (Err (WalError.Codec (CodecError.Truncated 0))).
Proof. by vm_compute. Qed.

(** A log cut before its magic was written is refused by the reader, though the
    writer would take the empty file for a new log. *)
Example empty_log_is_refused :
  parse_log crc32 [] = Done (Err WalError.BadMagic) ∧
  LogWriter_open (Some []) = Ok (MkLogWriter LOG_MAGIC 8).
Proof. done. Qed.
