(* ===== verification/Snapshot.v ===== *)
(** * Snapshots

    [crates/tasker-wal/src/snapshot.rs]: the durable state written whole.
    Encoding then decoding gives every part back, and an arena restored from
    its snapshot is the same arena, free list included. *)

From stdpp Require Import base list numbers option.
From Stdlib Require Import ZArith Lia.
From S2P Require Import Prelude Domain Arena Job Priority Decay FairShare Codec LogRecord Log.
Open Scope Z_scope.

(** ["TKRSNP02"]. *)
Definition SNAPSHOT_MAGIC : bytes := [84; 75; 82; 83; 78; 80; 48; 50].

Record Snapshot : Type := MkSnapshot {
  taken_at : VirtualTime;
  snap_slots : list (SlotState Job);
  snap_free_head : option Z;
  snap_running : list JobId;
  snap_ledgers : list Ledger;
}.

Definition put_slot (buf : bytes) (slot : SlotState Job) : exec bytes :=
  match slot with
  | SlotState.Occupied generation value => put_job (put_u32 (put_u8 buf 1) generation) value
  | SlotState.Vacant generation next_free =>
      Done (put_opt_u32 (put_u32 (put_u8 buf 0) generation) next_free)
  end.

Definition put_ledger (buf : bytes) (l : Ledger) : bytes :=
  let buf := put_u64 buf (usage l) in
  let buf := put_u64 buf (running_cpu l) in
  let buf := put_u32 buf (shares l) in
  let buf := put_u64 buf (accrued_to l) in
  put_u64 buf (decayed_to l).

Definition get_slot : reader (SlotState Job) :=
  let? t := read_tag 1 in
  if t =? 1 then
    let? generation := read_u32 in
    let? value := get_job in
    ret (SlotState.Occupied generation value)
  else
    let? generation := read_u32 in
    let? next_free := read_opt_u32 in
    ret (SlotState.Vacant generation next_free).

Definition get_ledger : reader Ledger :=
  let? usage := read_u64 in
  let? running_cpu := read_u64 in
  let? shares := read_u32 in
  let? accrued_to := read_u64 in
  let? decayed_to := read_u64 in
  ret (Ledger_from_parts usage running_cpu shares accrued_to decayed_to).

Definition get_snapshot : reader Snapshot :=
  let? taken_at := read_u64 in
  let? slot_count := read_u32 in
  let? slots := read_n (Z.to_nat slot_count) get_slot in
  let? free_head := read_opt_u32 in
  let? running_count := read_u32 in
  let? running := read_n (Z.to_nat running_count) read_u64 in
  let? ledger_count := read_u32 in
  let? ledgers := read_n (Z.to_nat ledger_count) get_ledger in
  ret (MkSnapshot taken_at slots free_head running ledgers).

Section Snapshots.
Context (hash : bytes → Z).

Definition encode_snapshot (buf : bytes) (s : Snapshot) : exec bytes :=
  let buf := buf ++ SNAPSHOT_MAGIC in
  let body_start := length buf in
  let buf := put_u64 buf (taken_at s) in
  let! n := u32_from_usize (length (snap_slots s)) in
  let buf := put_u32 buf n in
  let! buf := exec_fold put_slot buf (snap_slots s) in
  let buf := put_opt_u32 buf (snap_free_head s) in
  let! n := u32_from_usize (length (snap_running s)) in
  let buf := put_u32 buf n in
  let buf := fold_left put_u64 (snap_running s) buf in
  let! n := u32_from_usize (length (snap_ledgers s)) in
  let buf := put_u32 buf n in
  let buf := fold_left put_ledger (snap_ledgers s) buf in
  let! body := slice_from buf body_start in
  Done (put_u32 buf (hash body)).

Definition decode_snapshot (bs : bytes) : exec (result Snapshot WalError) :=
  if (length bs <? 12)%nat || negb (bool_decide (take 8 bs = SNAPSHOT_MAGIC))
  then Done (Err WalError.BadMagic)
  else
    let rest := drop 8 bs in
    let body := take (length bs - 12) rest in
    let! c := array_from 4 (drop (length bs - 12) rest) in
    let crc := from_le_bytes c in
    if negb (hash body =? crc) then Done (Err WalError.SnapshotChecksum)
    else
      let! r := get_snapshot (Cursor_new body) in
      match r with
      | Ok (s, _) => Done (Ok s)
      | Err e => Done (Err (WalError.Codec e))
      end.
End Snapshots.

(** ** The layout *)

Definition slot_bytes (s : SlotState Job) : bytes :=
  match s with
  | SlotState.Occupied g v => [1] ++ to_le_bytes 4 g ++ job_bytes v
  | SlotState.Vacant g nx => [0] ++ to_le_bytes 4 g ++ opt_bytes nx
  end.

Definition slot_fits (s : SlotState Job) : Prop :=
  match s with
  | SlotState.Occupied g v => is_u32 g ∧ job_fits v
  | SlotState.Vacant g nx => is_u32 g ∧ ∀ x, nx = Some x → is_u32 x
  end.

Definition ledger_bytes (l : Ledger) : bytes :=
  to_le_bytes 8 (usage l) ++ to_le_bytes 8 (running_cpu l) ++ to_le_bytes 4 (shares l) ++
  to_le_bytes 8 (accrued_to l) ++ to_le_bytes 8 (decayed_to l).

Definition body_bytes (s : Snapshot) : bytes :=
  to_le_bytes 8 (taken_at s) ++
  to_le_bytes 4 (Z.of_nat (length (snap_slots s))) ++ concat (slot_bytes <$> snap_slots s) ++
  opt_bytes (snap_free_head s) ++
  to_le_bytes 4 (Z.of_nat (length (snap_running s))) ++ concat (to_le_bytes 8 <$> snap_running s) ++
  to_le_bytes 4 (Z.of_nat (length (snap_ledgers s))) ++ concat (ledger_bytes <$> snap_ledgers s).

(** Every field at its width, every vector countable in a [u32]. *)
Record snapshot_wf (s : Snapshot) : Prop := {
  sw_taken : is_u64 (taken_at s);
  sw_slots : Forall slot_fits (snap_slots s);
  sw_slots_len : Z.of_nat (length (snap_slots s)) <= u32_max;
  sw_free : ∀ x, snap_free_head s = Some x → is_u32 x;
  sw_running : Forall is_u64 (snap_running s);
  sw_running_len : Z.of_nat (length (snap_running s)) <= u32_max;
  sw_ledgers : Forall Ledger_wf (snap_ledgers s);
  sw_ledgers_len : Z.of_nat (length (snap_ledgers s)) <= u32_max;
}.

Lemma put_opt_bytes buf v : put_opt_u32 buf v = buf ++ opt_bytes v.
Proof. destruct v; simpl; unfold put_u32, put_u8; by rewrite <-?app_assoc. Qed.

Lemma put_slot_writes s : slot_fits s → writes (fun b => put_slot b s) (slot_bytes s).
Proof.
  intros Hs buf. destruct s as [g v|g nx]; cbn [put_slot slot_bytes].
  - destruct Hs as [_ Hv]. rewrite put_job_writes by done. unfold put_u32, put_u8. by rewrite <-!app_assoc.
  - rewrite put_opt_bytes. unfold put_u32, put_u8. by rewrite <-!app_assoc.
Qed.

Lemma exec_fold_writes {A} (f : bytes → A → exec bytes) (g : A → bytes) l :
  Forall (fun a => writes (fun b => f b a) (g a)) l → writes (fun b => exec_fold f b l) (concat (g <$> l)).
Proof.
  induction 1 as [|a l Ha _ IH]; intros buf; [by rewrite app_nil_r|].
  cbn [exec_fold]. rewrite (Ha buf). cbn [exec_bind]. rewrite (IH (buf ++ g a)), fmap_cons. cbn [concat].
  by rewrite app_assoc.
Qed.

Lemma fold_put_ledger ls buf : fold_left put_ledger ls buf = buf ++ concat (ledger_bytes <$> ls).
Proof.
  revert buf. induction ls as [|l ls IH]; intros buf; [by rewrite app_nil_r|].
  cbn [fold_left]. rewrite IH, fmap_cons. cbn [concat].
  unfold put_ledger, put_u64, put_u32, ledger_bytes. by rewrite <-!app_assoc.
Qed.

Definition snapshot_bytes (hash : bytes → Z) (s : Snapshot) : bytes :=
  SNAPSHOT_MAGIC ++ body_bytes s ++ to_le_bytes 4 (hash (body_bytes s)).

Lemma encode_snapshot_writes hash s :
  snapshot_wf s → writes (fun b => encode_snapshot hash b s) (snapshot_bytes hash s).
Proof.
  intros [_ Hs Hsl _ _ Hrl _ Hll] buf. unfold encode_snapshot.
  rewrite u32_from_usize_Done by done. cbn [exec_bind].
  rewrite (exec_fold_writes put_slot slot_bytes) by (eapply Forall_impl; [|exact Hs]; apply put_slot_writes).
  cbn [exec_bind]. rewrite !u32_from_usize_Done by done. cbn [exec_bind].
  rewrite fold_put_ledger, fold_put_u64, put_opt_bytes. unfold put_u32, put_u64, slice_from.
  match goal with |- context [drop _ ?b] => assert (b = (buf ++ SNAPSHOT_MAGIC) ++ body_bytes s) as -> end.
  { unfold body_bytes. by rewrite <-!app_assoc. }
  rewrite (length_app (buf ++ _)). destruct (Nat.leb_spec (length (buf ++ SNAPSHOT_MAGIC))
    (length (buf ++ SNAPSHOT_MAGIC) + length (body_bytes s))); [|lia].
  cbn [exec_bind]. rewrite drop_app_length. unfold snapshot_bytes. by rewrite <-!app_assoc.
Qed.

(** ** Reading it back *)

Lemma get_slot_reads s : slot_fits s → reads get_slot (slot_bytes s) s.
Proof.
  intros Hs. unfold get_slot. destruct s as [g v|g nx]; destruct Hs as [Hg Hv]; cbn [slot_bytes].
  - read_field; [by apply reads_tag|]. read_field; [by apply reads_u32|].
    by apply reads_map, get_job_reads.
  - read_field; [by apply reads_tag|]. read_field; [by apply reads_u32|].
    by apply reads_map, reads_opt_u32.
Qed.

Lemma get_ledger_reads l : Ledger_wf l → reads get_ledger (ledger_bytes l) l.
Proof.
  intros (H1 & H2 & H3 & H4 & H5). unfold get_ledger, ledger_bytes.
  read_field; [by apply reads_u64|]. read_field; [by apply reads_u64|]. read_field; [by apply reads_u32|].
  read_field; [by apply reads_u64|]. rewrite <-(app_nil_r (to_le_bytes 8 (decayed_to l))).
  read_field; [by apply reads_u64|]. destruct l. apply reads_ret.
Qed.

Lemma reads_counted {A} (r : reader A) (f : A → bytes) (l : list A) {B} (k : list A → reader B) bs v :
  Z.of_nat (length l) <= u32_max → Forall (fun x => reads r (f x) x) l → reads (k l) bs v →
  reads (let? n := read_u32 in let? xs := read_n (Z.to_nat n) r in k xs)
    (to_le_bytes 4 (Z.of_nat (length l)) ++ concat (f <$> l) ++ bs) v.
Proof.
  intros Hl Hr Hk. read_field; [apply reads_u32; unfold is_u32; lia|]. rewrite Nat2Z.id.
  read_field; [by apply reads_n|done].
Qed.

Lemma get_snapshot_reads s : snapshot_wf s → reads get_snapshot (body_bytes s) s.
Proof.
  intros [H1 H2 H3 H4 H5 H6 H7 H8]. unfold get_snapshot, body_bytes.
  read_field; [by apply reads_u64|].
  apply (reads_counted get_slot slot_bytes); [done|eapply Forall_impl; [|exact H2]; apply get_slot_reads|].
  read_field; [by apply reads_opt_u32|].
  apply (reads_counted read_u64 (to_le_bytes 8)); [done|eapply Forall_impl; [|exact H5]; apply reads_u64|].
  rewrite <-(app_nil_r (concat (ledger_bytes <$> snap_ledgers s))).
  apply (reads_counted get_ledger ledger_bytes); [done|eapply Forall_impl; [|exact H7]; apply get_ledger_reads|].
  destruct s. apply reads_ret.
Qed.

Lemma snapshot_split hash s :
  let bs := snapshot_bytes hash s in
  take 8 bs = SNAPSHOT_MAGIC ∧ take (length bs - 12) (drop 8 bs) = body_bytes s ∧
  drop (length bs - 12) (drop 8 bs) = to_le_bytes 4 (hash (body_bytes s)).
Proof.
  intros bs. assert (drop 8 bs = body_bytes s ++ to_le_bytes 4 (hash (body_bytes s))) as Hd.
  { by apply drop_app_length'. }
  assert ((length bs - 12)%nat = length (body_bytes s)) as Hl.
  { unfold bs, snapshot_bytes. rewrite !length_app, length_to_le. simpl. lia. }
  rewrite Hd, Hl, take_app_length, drop_app_length. split; [|done]. by apply take_app_length'.
Qed.

Lemma decode_snapshot_bytes hash s :
  Checksum hash → snapshot_wf s → Z.of_nat (length (body_bytes s)) <= u64_max →
  decode_snapshot hash (snapshot_bytes hash s) = Done (Ok s).
Proof.
  intros Hh Hs Hl. destruct (snapshot_split hash s) as (Hm & Hb & Hc). unfold decode_snapshot.
  destruct (Nat.ltb_spec (length (snapshot_bytes hash s)) 12) as [Hlt|_].
  { unfold snapshot_bytes in Hlt. rewrite !length_app, length_to_le in Hlt. simpl in Hlt. lia. }
  rewrite Hm, Hb, Hc, bool_decide_eq_true_2 by done. cbn [negb orb].
  unfold array_from. rewrite length_to_le. cbn [Nat.eqb exec_bind].
  rewrite from_to_le_u32, Z.eqb_refl by apply Hh. cbn [negb].
  pose proof (get_snapshot_reads s Hs [] []) as H. rewrite app_nil_r in H. cbn [app length] in H.
  change (Z.of_nat 0) with 0 in H. unfold Cursor_new. by rewrite H.
Qed.

(** ** Decoding arbitrary bytes *)

Lemma safe_get_slot : safe slot_fits get_slot.
Proof.
  unfold get_slot. safe_field; [apply safe_tag|]. intros t _. destruct (t =? 1).
  - safe_field; [apply safe_u32|]. intros g Hg. safe_field; [apply safe_get_job|]. intros v Hv. by apply safe_ret.
  - safe_field; [apply safe_u32|]. intros g Hg. safe_field; [apply safe_opt_u32|]. intros nx Hn. by apply safe_ret.
Qed.

Lemma safe_get_ledger : safe Ledger_wf get_ledger.
Proof.
  unfold get_ledger. safe_field; [apply safe_u64|]. intros u Hu. safe_field; [apply safe_u64|]. intros r Hr.
  safe_field; [apply safe_u32|]. intros sh Hsh. safe_field; [apply safe_u64|]. intros a Ha.
  safe_field; [apply safe_u64|]. intros d Hd. apply safe_ret. unfold Ledger_wf. by split_and!.
Qed.

Lemma safe_counted {A} (P : A → Prop) (r : reader A) :
  safe P r → safe (fun l => Z.of_nat (length l) <= u32_max ∧ Forall P l)
    (let? n := read_u32 in read_n (Z.to_nat n) r).
Proof.
  intros Hr. safe_field; [apply safe_u32|]. intros n Hn c Hc. unfold is_u32 in Hn.
  eapply returns_mono; [exact (safe_read_n P (Z.to_nat n) r Hr c Hc)|].
  intros [[l c']|e]; [|done]. intros ([? ?] & ?). split; [split; [lia|done]|done].
Qed.

Lemma safe_bind_counted {A B} (P : A → Prop) (Q : B → Prop) (r : reader A) (k : list A → reader B) :
  safe P r → (∀ l, Z.of_nat (length l) <= u32_max → Forall P l → safe Q (k l)) →
  safe Q (let? n := read_u32 in let? l := read_n (Z.to_nat n) r in k l).
Proof.
  intros Hr Hk c Hc. pose proof (safe_bind _ Q _ k (safe_counted P r Hr)) as H.
  specialize (H ltac:(intros l [? ?]; by apply Hk) c Hc). unfold reader_bind in *.
  destruct (read_u32 c) as [[[n c1]|e]| |]; done.
Qed.

Lemma safe_get_snapshot : safe snapshot_wf get_snapshot.
Proof.
  unfold get_snapshot. safe_field; [apply safe_u64|]. intros at_ Hat.
  apply (safe_bind_counted slot_fits); [apply safe_get_slot|]. intros slots Hsl Hs.
  safe_field; [apply safe_opt_u32|]. intros fh Hf.
  apply (safe_bind_counted is_u64); [apply safe_u64|]. intros run Hrl Hr.
  apply (safe_bind_counted Ledger_wf); [apply safe_get_ledger|]. intros ls Hll Hls. by apply safe_ret.
Qed.

(** ** Arenas *)

(** Links of the free list stay inside the arena. *)
Lemma free_chain_range {T} (ss : list (Slot T)) h l :
  free_chain ss h l →
  (∀ x, h = Some x → 0 <= x < Z.of_nat (length ss)) ∧
  ∀ i g nx x, i ∈ l → vec_get ss i = Some (Slot.Vacant g nx) → nx = Some x → 0 <= x < Z.of_nat (length ss).
Proof.
  induction 1 as [|i g nx l Hi _ [IH1 IH2]]; [split; [done|]; by intros ???? ?%elem_of_nil|]. split.
  - intros x [= <-]. by eapply vec_get_range.
  - intros i' g' nx' x [->|Hl]%elem_of_cons Hv E; [|by eapply IH2]. rewrite Hi in Hv. injection Hv as <- <-.
    by apply IH1.
Qed.

(** The state of an arena is fit for a snapshot. *)
Lemma arena_slots_fit (a : Arena Job) :
  Arena_wf a → (∀ x j, Arena_get a x = Some j → job_fits j) →
  Forall slot_fits (Arena_slots a) ∧ ∀ x, free_head a = Some x → is_u32 x.
Proof.
  intros Hwf Hj. destruct (wf_free _ Hwf) as (fl & Hc & _ & Hall). pose proof (wf_bound _ Hwf) as Hb.
  destruct (free_chain_range _ _ _ Hc) as [Hh Hn]. split; [|intros x Hx; specialize (Hh x Hx); unfold is_u32; lia].
  apply Forall_lookup_2. intros k st Hst. unfold Arena_slots in Hst. change (map ?f ?l) with (f <$> l) in Hst.
  apply list_lookup_fmap_Some in Hst as (s & -> & Hk).
  assert (vec_get (slots a) (Z.of_nat k) = Some s) as Hv by (rewrite vec_get_lookup, Nat2Z.id by lia; done).
  pose proof (wf_gens _ Hwf _ _ Hv) as Hg. pose proof (vec_get_range _ _ _ Hv) as Hr.
  destruct s as [g v|g nx]; simpl in *; split; try done.
  - apply (Hj (JobId_new (Z.of_nat k) g)), Arena_get_Some.
    rewrite JobId_index_new, JobId_generation_new by lia. done.
  - intros x ->. specialize (Hn _ _ _ x (Hall _ _ _ Hv) Hv eq_refl). unfold is_u32. lia.
Qed.

(** ** Properties *)

(** Snapshots round trip: encoding never panics and appends exactly one
    image, and decoding that image gives back every part of the snapshot; an
    image whose body no longer matches its checksum is refused. *)
Theorem snapshot_roundtrip hash s buf :
  Checksum hash → snapshot_wf s → Z.of_nat (length (body_bytes s)) <= u64_max →
  encode_snapshot hash buf s = Done (buf ++ snapshot_bytes hash s) ∧
  decode_snapshot hash (snapshot_bytes hash s) = Done (Ok s) ∧
  ∀ body, length body = length (body_bytes s) → hash body ≠ hash (body_bytes s) →
    decode_snapshot hash (SNAPSHOT_MAGIC ++ body ++ to_le_bytes 4 (hash (body_bytes s))) =
      Done (Err WalError.SnapshotChecksum).
Proof.
  intros Hh Hs Hl. split; [by apply encode_snapshot_writes|]. split; [by apply decode_snapshot_bytes|].
  intros body Hlb Hne. unfold decode_snapshot.
  destruct (Nat.ltb_spec (length (SNAPSHOT_MAGIC ++ body ++ to_le_bytes 4 (hash (body_bytes s)))) 12) as [Hlt|_].
  { rewrite !length_app, length_to_le in Hlt. simpl in Hlt. lia. }
  rewrite take_app_length', bool_decide_eq_true_2 by done. cbn [negb orb].
  rewrite drop_app_length' by done.
  replace (length (SNAPSHOT_MAGIC ++ body ++ to_le_bytes 4 (hash (body_bytes s))) - 12)%nat with (length body)
    by (rewrite !length_app, length_to_le; simpl; lia).
  rewrite take_app_length, drop_app_length. unfold array_from. rewrite length_to_le. cbn [Nat.eqb exec_bind].
  rewrite from_to_le_u32 by apply Hh. by destruct (Z.eqb_spec (hash body) (hash (body_bytes s))).
Qed.

(** C36: Decoding is total.  On any bytes whatever, from a log frame or from a
    snapshot file, the decoders end without a panic in one of their documented
    errors or in a value whose every field is within its width and whose
    vectors are no longer than a [u32] counts. *)
Theorem decoders_never_panic hash bs :
  Forall is_u8 bs →
  (decode bs ⇓ fun r => match r with Ok rec => record_wf rec | Err _ => True end) ∧
  decode_snapshot hash bs ⇓ fun r =>
    match r with
    | Ok s => snapshot_wf s
    | Err WalError.BadMagic => (length bs < 12)%nat ∨ take 8 bs ≠ SNAPSHOT_MAGIC
    | Err WalError.Io => False
    | Err _ => True
    end.
Proof.
  intros Hb. split; [by apply decode_safe|]. unfold decode_snapshot.
  destruct (Nat.ltb_spec (length bs) 12) as [Hl|Hl]; [by left|]. cbn [orb].
  case_bool_decide as Hm; [|by right]. cbn [negb]. unfold array_from.
  rewrite !length_drop. destruct (Nat.eqb_spec (length bs - 8 - (length bs - 12)) 4); [|lia]. cbn [exec_bind].
  destruct (negb _); [done|]. set (body := take (length bs - 12) (drop 8 bs)).
  assert (cursor_ok (Cursor_new body)) as Hc.
  { split; simpl; [lia|]. by apply Forall_take, Forall_drop. }
  pose proof (safe_get_snapshot _ Hc) as H. destruct (get_snapshot (Cursor_new body)) as [[[s c]|err]| |];
    simpl in *; try done. apply H.
Qed.

Lemma decoders_never_panic_witness :
  let bs := SNAPSHOT_MAGIC ++ [255; 255; 255; 255; 1; 2; 3] in
  (decode bs ⇓ fun r => match r with Ok rec => record_wf rec | Err _ => True end) ∧
  decode_snapshot crc32 bs ⇓ fun r =>
    match r with
    | Ok s => snapshot_wf s
    | Err WalError.BadMagic => (length bs < 12)%nat ∨ take 8 bs ≠ SNAPSHOT_MAGIC
    | Err WalError.Io => False
    | Err _ => True
    end.
Proof. intros bs. apply decoders_never_panic. by repeat constructor. Defined.

(** C34: The arena survives a restart: a snapshot of a well-formed arena decodes
    to slots and a free list from which [from_parts] rebuilds exactly that
    arena, so every handle keeps its meaning. *)
Theorem snapshot_restores_arena hash (a : Arena Job) at_ running ledgers :
  Checksum hash → Arena_wf a → (∀ x j, Arena_get a x = Some j → job_fits j) →
  is_u64 at_ → Z.of_nat (length (slots a)) <= u32_max →
  Forall is_u64 running → Z.of_nat (length running) <= u32_max →
  Forall Ledger_wf ledgers → Z.of_nat (length ledgers) <= u32_max →
  let s := MkSnapshot at_ (Arena_slots a) (free_head a) running ledgers in
  Z.of_nat (length (body_bytes s)) <= u64_max →
  ∃ image s', encode_snapshot hash [] s = Done image ∧ decode_snapshot hash image = Done (Ok s') ∧
    Arena_from_parts (snap_slots s') (snap_free_head s') = Done (Ok a) ∧
    snap_running s' = running ∧ snap_ledgers s' = ledgers.
Proof.
  intros Hh Hwf Hj Hat Hsl Hr Hrl Hls Hll s Hbody. destruct (arena_slots_fit a Hwf Hj) as [Hs Hf].
  assert (snapshot_wf s) as Hwfs.
  { split; try done. unfold s, Arena_slots. simpl. by rewrite List.length_map. }
  exists (snapshot_bytes hash s), s. split; [by apply encode_snapshot_writes|].
  split; [by apply decode_snapshot_bytes|]. split; [by apply Arena_from_parts_slots|done].
Qed.

(** One live job, and a slot freed once. *)
Definition demo_snap_arena : Arena Job :=
  MkArena [Slot.Occupied 0 demo_log_job; Slot.Vacant 1 None] (Some 1) 1.

Definition demo_snapshot : Snapshot :=
  MkSnapshot 5000 (Arena_slots demo_snap_arena) (free_head demo_snap_arena) [0] [Ledger_default].

Lemma demo_snapshot_wf : snapshot_wf demo_snapshot.
Proof.
  split; try done; simpl.
  - repeat constructor; try done; apply demo_log_job_fits.
  - by intros x [= <-].
  - by repeat constructor.
  - by repeat constructor.
Qed.

Lemma snapshot_roundtrip_witness :
  encode_snapshot crc32 [7] demo_snapshot = Done ([7] ++ snapshot_bytes crc32 demo_snapshot) ∧
  decode_snapshot crc32 (snapshot_bytes crc32 demo_snapshot) = Done (Ok demo_snapshot) ∧
  ∀ body, length body = length (body_bytes demo_snapshot) → crc32 body ≠ crc32 (body_bytes demo_snapshot) →
    decode_snapshot crc32 (SNAPSHOT_MAGIC ++ body ++ to_le_bytes 4 (crc32 (body_bytes demo_snapshot))) =
      Done (Err WalError.SnapshotChecksum).
Proof. apply snapshot_roundtrip; [apply crc32_checksum|apply demo_snapshot_wf|by vm_compute]. Defined.

Lemma demo_snap_arena_wf : Arena_wf demo_snap_arena.
Proof.
  assert (Arena_from_parts (Arena_slots demo_snap_arena) (Some 1) = Done (Ok demo_snap_arena)) as H by reflexivity.
  eapply Arena_from_parts_wf in H as [H _]; [exact H|simpl; lia|].
  intros i s [Hi Hs]%vec_get_Some. apply list_elem_of_lookup_2 in Hs.
  repeat (apply elem_of_cons in Hs as [->|Hs]; [unfold is_u32; simpl; lia|]). by apply elem_of_nil in Hs.
Qed.

Lemma snapshot_restores_arena_witness :
  ∃ image s', encode_snapshot crc32 [] demo_snapshot = Done image ∧
    decode_snapshot crc32 image = Done (Ok s') ∧
    Arena_from_parts (snap_slots s') (snap_free_head s') = Done (Ok demo_snap_arena) ∧
    snap_running s' = [0] ∧ snap_ledgers s' = [Ledger_default].
Proof.
  apply (snapshot_restores_arena crc32 demo_snap_arena 5000 [0] [Ledger_default]);
    [apply crc32_checksum|apply demo_snap_arena_wf| |done|done|by repeat constructor|done
    |by repeat constructor|done|by vm_compute].
  intros x j [_ Hl]%Arena_get_Some%vec_get_Some. simpl in Hl.
  destruct (Z.to_nat (JobId_index x)) as [|[|]]; simplify_eq/=. apply demo_log_job_fits.
Defined.
