(* ===== verification/Store.v ===== *)
(** * The data directory

    [crates/tasker-wal/src/store.rs]: one snapshot and one log per generation,
    found by name at startup and rotated together.  A directory is a map from
    names to contents; rotation is the sequence of file operations the code
    issues, and a crash keeps a prefix of it, the last write possibly cut
    short.  I/O errors of the operating system are not modelled. *)

From stdpp Require Import base strings list numbers option gmap fin_maps.
From Stdlib Require Import ZArith Lia Ascii.
From S2P Require Import Prelude Text Domain Arena Job Priority Decay FairShare Codec LogRecord Log Snapshot.
Open Scope Z_scope.
Open Scope list_scope.

(** ** Names *)

(** [format!("{generation:06}")]. *)
Definition fmt06 (n : Z) : list Z :=
  let ds := dec n in replicate (6 - length ds) 48 ++ ds.

Definition snapshot_path (generation : Z) : list Z := str "snapshot-" ++ fmt06 generation ++ str ".bin".

Definition log_path (generation : Z) : list Z := str "wal-" ++ fmt06 generation ++ str ".log".

(** [final_path.with_extension("bin.tmp")]. *)
Definition tmp_path (generation : Z) : list Z := str "snapshot-" ++ fmt06 generation ++ str ".bin.tmp".

Definition strip_prefix (p s : list Z) : option (list Z) :=
  if bool_decide (take (length p) s = p) then Some (drop (length p) s) else None.

Definition strip_suffix (p s : list Z) : option (list Z) :=
  if bool_decide (drop (length s - length p) s = p) then Some (take (length s - length p) s) else None.

(** [str::parse::<u64>], its error dropped by [ok]. *)
Definition parse_u64 (s : list Z) : option Z :=
  match from_str u64_max s with Ok n => Some n | Err _ => None end.

Definition generation_of (name : list Z) : option Z :=
  match strip_prefix (str "snapshot-") name with
  | Some rest =>
      match strip_suffix (str ".bin") rest with
      | Some digits => parse_u64 digits
      | None => None
      end
  | None =>
      match strip_prefix (str "wal-") name with
      | Some rest =>
          match strip_suffix (str ".log") rest with
          | Some digits => parse_u64 digits
          | None => None
          end
      | None => None
      end
  end.

(** ** Recovery and rotation *)

Abbreviation Dir := (gmap (list Z) (list Z)).

Record Recovered : Type := MkRecovered {
  rec_generation : Z;
  rec_snapshot : option Snapshot;
  rec_records : list LogRecord;
  rec_torn_at : option Z;
}.

(** The highest generation any name in the directory carries, or 0. *)
Definition highest_generation (d : Dir) : Z :=
  fold_left (fun g name => match generation_of name with Some g' => Z.max g g' | None => g end)
    (map_to_list d).*1 0.

Section Store.
Context (hash : bytes → Z).

Definition recover (d : Dir) : exec (Dir * result Recovered WalError) :=
  let generation := highest_generation d in
  let! snapshot :=
    match d !! snapshot_path generation with
    | Some bs =>
        let! r := decode_snapshot hash bs in
        Done (match r with Ok s => Ok (Some s) | Err e => Err e end)
    | None => Done (Ok None)
    end in
  match snapshot with
  | Err e => Done (d, Err e)
  | Ok snapshot =>
      let! replay :=
        match d !! log_path generation with
        | Some bs => parse_log hash bs
        | None => Done (Ok Replay_default)
        end in
      match replay with
      | Err e => Done (d, Err e)
      | Ok replay =>
          let d :=
            match torn_at replay, d !! log_path generation with
            | Some at_, Some bs => <[log_path generation := truncate_log bs (Z.to_nat at_)]> d
            | _, _ => d
            end in
          Done (d, Ok (MkRecovered generation snapshot (records replay) (torn_at replay)))
      end
  end.
End Store.

Record Store : Type := MkStore {
  st_dir : Dir;
  st_generation : Z;
  st_log : LogWriter;
}.

Definition resume (d : Dir) (generation : Z) : result Store WalError :=
  match LogWriter_open (d !! log_path generation) with
  | Ok log => Ok (MkStore (<[log_path generation := lw_file log]> d) generation log)
  | Err e => Err e
  end.

(** The file operations of [rotate]. *)
Inductive fs_op : Type :=
| Create (name : list Z)
| WriteAll (name : list Z) (bs : bytes)
| Rename (from to : list Z)
| RemoveFile (name : list Z).

Definition apply_op (d : Dir) (op : fs_op) : Dir :=
  match op with
  | Create name => <[name := []]> d
  | WriteAll name bs => <[name := default [] (d !! name) ++ bs]> d
  | Rename from to =>
      match d !! from with
      | Some bs => <[to := bs]> (delete from d)
      | None => d
      end
  | RemoveFile name => delete name d
  end.

(** [LogWriter::open] on a path: an absent or empty file gets the magic. *)
Definition open_log_ops (d : Dir) (name : list Z) : list fs_op :=
  match d !! name with
  | None => [Create name; WriteAll name LOG_MAGIC]
  | Some [] => [WriteAll name LOG_MAGIC]
  | Some _ => []
  end.

(** The snapshot is written aside and renamed into place ([sync_all] on the
    file and on the directory make these durable before what follows). *)
Definition write_snapshot_ops (next : Z) (snapshot : bytes) : list fs_op :=
  [Create (tmp_path next); WriteAll (tmp_path next) snapshot;
   Rename (tmp_path next) (snapshot_path next)].

Definition remove_old_ops (old : Z) : list fs_op :=
  [RemoveFile (snapshot_path old); RemoveFile (log_path old)].

Definition run_ops (d : Dir) (ops : list fs_op) : Dir := fold_left apply_op ops d.

Definition rotate (s : Store) (snapshot : bytes) : Store * result unit WalError :=
  let next := st_generation s + 1 in
  let d := run_ops (st_dir s) (write_snapshot_ops next snapshot) in
  match LogWriter_open (d !! log_path next) with
  | Err e => (MkStore d (st_generation s) (st_log s), Err e)
  | Ok log =>
      let d := run_ops d (open_log_ops d (log_path next)) in
      let old := st_generation s in
      (MkStore (run_ops d (remove_old_ops old)) next log, Ok tt)
  end.

Definition store_append (s : Store) (frames : bytes) : Store :=
  let log := log_append (st_log s) frames in
  MkStore (<[log_path (st_generation s) := lw_file log]> (st_dir s)) (st_generation s) log.

(** All the operations of a rotation of directory [d], in order. *)
Definition rotate_ops (d : Dir) (generation : Z) (snapshot : bytes) : list fs_op :=
  let write := write_snapshot_ops (generation + 1) snapshot in
  write ++ open_log_ops (run_ops d write) (log_path (generation + 1)) ++ remove_old_ops generation.

(** What a crash during [ops] leaves: some of them done, the next write cut. *)
Inductive crash (ops : list fs_op) (d : Dir) : Dir → Prop :=
| crash_between done rest : ops = done ++ rest → crash ops d (run_ops d done)
| crash_in_write done name bs m rest :
    ops = done ++ WriteAll name bs :: rest →
    crash ops d (apply_op (run_ops d done) (WriteAll name (take m bs))).

(** ** Names round trip *)

Lemma parse_fmt06 n : is_u64 n → parse_u64 (fmt06 n) = Some n.
Proof.
  intros Hn. unfold parse_u64. rewrite (proj2 (from_str_Ok u64_max (fmt06 n) n ltac:(done))); [done|].
  split; [by apply padded_numeral|apply Hn].
Qed.

Lemma strip_prefix_app p s : strip_prefix p (p ++ s) = Some s.
Proof. unfold strip_prefix. by rewrite take_app_length, bool_decide_eq_true_2, drop_app_length by done. Qed.

Lemma strip_suffix_app p s : strip_suffix p (s ++ p) = Some s.
Proof.
  unfold strip_suffix. rewrite length_app, Nat.add_sub.
  by rewrite drop_app_length, bool_decide_eq_true_2, take_app_length.
Qed.

Lemma strip_suffix_ne p q s : length p = length q → p ≠ q → strip_suffix p (s ++ q) = None.
Proof.
  intros Hl Hne. unfold strip_suffix. rewrite length_app, Hl, Nat.add_sub, drop_app_length.
  by rewrite bool_decide_eq_false_2.
Qed.

Lemma generation_of_snapshot g : is_u64 g → generation_of (snapshot_path g) = Some g.
Proof.
  intros Hg. unfold generation_of, snapshot_path. rewrite strip_prefix_app, strip_suffix_app.
  by apply parse_fmt06.
Qed.

Lemma generation_of_log g : is_u64 g → generation_of (log_path g) = Some g.
Proof.
  intros Hg. unfold generation_of.
  assert (strip_prefix (str "snapshot-") (log_path g) = None) as ->.
  { unfold strip_prefix. rewrite bool_decide_eq_false_2; [done|]. unfold log_path. cbn. discriminate. }
  unfold log_path. rewrite strip_prefix_app, strip_suffix_app. by apply parse_fmt06.
Qed.

Lemma generation_of_tmp g : generation_of (tmp_path g) = None.
Proof.
  unfold generation_of, tmp_path. rewrite strip_prefix_app.
  change (str ".bin.tmp") with (str ".bin" ++ str ".tmp"). rewrite app_assoc.
  by rewrite (strip_suffix_ne (str ".bin") (str ".tmp")).
Qed.

Lemma snapshot_ne_log g g' : snapshot_path g ≠ log_path g'.
Proof. unfold snapshot_path, log_path. discriminate. Qed.

(** ** The highest generation *)

Definition gens_le (d : Dir) (n : Z) : Prop :=
  ∀ name bs g, d !! name = Some bs → generation_of name = Some g → g <= n.

Definition has_gen (d : Dir) (n : Z) : Prop :=
  ∃ name bs, d !! name = Some bs ∧ generation_of name = Some n.

Lemma fold_max_spec names g0 :
  let step g name := match generation_of name with Some g' => Z.max g g' | None => g end in
  let top := fold_left step names g0 in
  g0 <= top ∧ (∀ name g, name ∈ names → generation_of name = Some g → g <= top) ∧
  (top = g0 ∨ ∃ name, name ∈ names ∧ generation_of name = Some top).
Proof.
  intros step. revert g0. induction names as [|name names IH]; intros g0 top.
  { split; [unfold top; simpl; lia|]. split; [by intros ?? ?%elem_of_nil|by left]. }
  destruct (IH (step g0 name)) as (H1 & H2 & H3). change (fold_left step names (step g0 name)) with top in H1, H2, H3.
  assert (g0 <= step g0 name ∧ ∀ g, generation_of name = Some g → g <= step g0 name) as [Hs Hs'].
  { unfold step. destruct (generation_of name) as [g|]; [|split; [lia|done]]. split; [lia|]. intros ? [= <-]. lia. }
  split; [lia|]. split.
  - intros x g [->|Hx]%elem_of_cons Hg; [specialize (Hs' g Hg); lia|by eapply H2].
  - destruct H3 as [H3|(x & Hx & Hg)]; [|right; exists x; set_solver].
    destruct (generation_of name) as [g|] eqn:Eg; [|left; unfold step in H3; by rewrite Eg in H3].
    unfold step in H3. rewrite Eg in H3. destruct (Z.max_spec g0 g) as [[_ Em]|[_ Em]]; [|left; lia].
    right. exists name. split; [by left|]. rewrite Eg. f_equal. lia.
Qed.

Lemma elem_of_names (d : Dir) name : name ∈ (map_to_list d).*1 ↔ ∃ bs, d !! name = Some bs.
Proof.
  rewrite list_elem_of_fmap. split.
  - intros ([n bs] & -> & H%elem_of_map_to_list). eauto.
  - intros [bs H]. exists (name, bs). split; [done|]. by apply elem_of_map_to_list.
Qed.

Lemma highest_eq d n : 0 <= n → gens_le d n → n = 0 ∨ has_gen d n → highest_generation d = n.
Proof.
  intros Hn Hle Hhas. unfold highest_generation.
  destruct (fold_max_spec (map_to_list d).*1 0) as (H1 & H2 & H3).
  set (top := fold_left _ _ 0) in *. assert (top <= n) as Hle'.
  { destruct H3 as [->|(x & Hx & Hg)]; [lia|]. apply elem_of_names in Hx as [bs Hx]. by eapply Hle. }
  destruct Hhas as [->|(name & bs & Hname & Hg)]; [lia|].
  assert (n <= top); [|lia]. apply (H2 name); [|done]. apply elem_of_names. eauto.
Qed.

Lemma highest_le d : gens_le d (highest_generation d).
Proof.
  intros name bs g Hn Hg. unfold highest_generation. eapply fold_max_spec; [|done]. apply elem_of_names. eauto.
Qed.

(** Names that carry no generation do not matter. *)
Lemma highest_ext d d' :
  (∀ name, is_Some (generation_of name) → d' !! name = d !! name) →
  highest_generation d' = highest_generation d.
Proof.
  intros Hext. destruct (fold_max_spec (map_to_list d).*1 0) as (H1 & _ & H3). apply highest_eq; [done| |].
  - intros name bs g Hn Hg. rewrite Hext in Hn by eauto. by eapply highest_le.
  - destruct H3 as [H3|(x & [bs Hx]%elem_of_names & Hg)]; [by left|right].
    exists x, bs. rewrite Hext by eauto. done.
Qed.

Lemma gens_le_insert d n name bs :
  gens_le d n → (∀ g, generation_of name = Some g → g <= n) → gens_le (<[name := bs]> d) n.
Proof.
  intros Hd Hn x b g. rewrite lookup_insert_Some.
  intros [[<- _]|[_ Hx]] Hg; [by apply Hn|exact (Hd _ _ _ Hx Hg)].
Qed.

Lemma gens_le_delete d n name : gens_le d n → gens_le (delete name d) n.
Proof. intros Hd x b g [_ Hx]%lookup_delete_Some. apply (Hd _ _ _ Hx). Qed.

Section Crash.
Context (hash : bytes → Z) (d : Dir) (g : Z) (snap : Snapshot).
Hypothesis Hhash : Checksum hash.
Hypothesis Hg : is_u64 g.
Hypothesis Hnext : is_u64 (g + 1).
Hypothesis Hhigh : highest_generation d = g.
Hypothesis Hsnap : snapshot_wf snap.
Hypothesis Hbody : Z.of_nat (length (body_bytes snap)) <= u64_max.

Let next := g + 1.
Let image := snapshot_bytes hash snap.

Lemma next_absent name : generation_of name = Some next → d !! name = None.
Proof.
  intros Hn. destruct (d !! name) as [bs|] eqn:E; [|done].
  pose proof (highest_le d name bs next E Hn). unfold next in *. lia.
Qed.

(** Only the name of the temporary file differs: the old generation loads. *)
Lemma recover_old d' :
  (∀ name, name ≠ tmp_path next → d' !! name = d !! name) →
  ∀ old d0, recover hash d = Done (d0, Ok old) → ∃ d1, recover hash d' = Done (d1, Ok old).
Proof.
  intros Hext old d0 E.
  assert (∀ name, is_Some (generation_of name) → d' !! name = d !! name) as Hext'.
  { intros name Hn. apply Hext. intros ->. rewrite generation_of_tmp in Hn. by destruct Hn. }
  unfold recover in *. rewrite (highest_ext d d' Hext'), Hhigh in *.
  rewrite !Hext' by (rewrite ?generation_of_snapshot, ?generation_of_log by done; eauto).
  destruct (d !! snapshot_path g) as [bs|].
  - destruct (decode_snapshot hash bs) as [[s|e]| |]; cbn [exec_bind] in *; try done.
    destruct (match d !! log_path g with Some bs => parse_log hash bs | None => Done (Ok Replay_default) end)
      as [[r|e]| |]; cbn [exec_bind] in *; try done. injection E as _ <-. eauto.
  - cbn [exec_bind] in *.
    destruct (match d !! log_path g with Some bs => parse_log hash bs | None => Done (Ok Replay_default) end)
      as [[r|e]| |]; cbn [exec_bind] in *; try done. injection E as _ <-. eauto.
Qed.

Definition new_recovered : Recovered := MkRecovered next (Some snap) [] None.

Lemma highest_next d' : gens_le d' next → d' !! snapshot_path next = Some image → highest_generation d' = next.
Proof.
  intros Hle Hs. apply highest_eq; [unfold next, is_u64 in *; lia|done|]. right.
  exists (snapshot_path next), image. split; [done|]. by apply generation_of_snapshot.
Qed.

Lemma recover_new d' :
  gens_le d' next → d' !! snapshot_path next = Some image →
  d' !! log_path next = None ∨ d' !! log_path next = Some LOG_MAGIC →
  recover hash d' = Done (d', Ok new_recovered).
Proof.
  intros Hle Hs Hl. unfold recover. rewrite (highest_next d' Hle Hs), Hs. unfold image at 1.
  rewrite decode_snapshot_bytes by done. cbn [exec_bind]. destruct Hl as [->| ->]; [done|].
  pose proof (parse_image hash [] Hhash (List.Forall_nil _)) as Hp.
  change (log_image hash []) with LOG_MAGIC in Hp. by rewrite Hp.
Qed.

(** The log of the new generation was created but its magic is not whole. *)
Lemma recover_short d' m :
  gens_le d' next → d' !! snapshot_path next = Some image →
  d' !! log_path next = Some (take m LOG_MAGIC) → (m < length LOG_MAGIC)%nat →
  recover hash d' = Done (d', Err WalError.BadMagic).
Proof.
  intros Hle Hs Hl Hm. unfold recover. rewrite (highest_next d' Hle Hs), Hs. unfold image at 1.
  rewrite decode_snapshot_bytes by done. cbn [exec_bind]. rewrite Hl. unfold parse_log.
  rewrite bool_decide_eq_false_2; [done|]. intros E. apply (f_equal length) in E.
  rewrite !length_take in E. lia.
Qed.

(** The directory once the new snapshot is in place. *)
Record rotated (d' : Dir) (log : option bytes) : Prop := {
  rt_gens : gens_le d' next;
  rt_snap : d' !! snapshot_path next = Some image;
  rt_log : d' !! log_path next = log;
}.

Lemma rotated_log d' log bs : rotated d' log → rotated (<[log_path next := bs]> d') (Some bs).
Proof.
  intros [H1 H2 H3]. split.
  - apply gens_le_insert; [done|]. intros g'. rewrite generation_of_log by done. by intros [= <-].
  - rewrite lookup_insert_ne; [done|]. intros E. by apply (snapshot_ne_log next next).
  - by rewrite lookup_insert_eq.
Qed.

Lemma rotated_remove d' log name :
  generation_of name = Some g → rotated d' log → rotated (delete name d') log.
Proof.
  intros Hn [H1 H2 H3].
  assert (∀ x, generation_of x = Some next → name ≠ x) as Hne.
  { intros x Hx ->. rewrite Hn in Hx. injection Hx as Hx. unfold next in Hx. lia. }
  split; [by apply gens_le_delete| |].
  - rewrite lookup_delete_ne; [done|]. apply Hne. by apply generation_of_snapshot.
  - rewrite lookup_delete_ne; [done|]. apply Hne. by apply generation_of_log.
Qed.

Lemma tmp_ne name : is_Some (generation_of name) → tmp_path next ≠ name.
Proof. intros H <-. rewrite generation_of_tmp in H. by destruct H. Qed.

Lemma rotated_rename :
  run_ops d (write_snapshot_ops next image) =
    <[snapshot_path next := image]> (delete (tmp_path next) (<[tmp_path next := image]> (<[tmp_path next := []]> d))) ∧
  rotated (run_ops d (write_snapshot_ops next image)) None.
Proof.
  assert (run_ops d (write_snapshot_ops next image) =
    <[snapshot_path next := image]> (delete (tmp_path next) (<[tmp_path next := image]> (<[tmp_path next := []]> d)))) as E.
  { unfold run_ops, write_snapshot_ops. cbn [fold_left apply_op]. by rewrite !lookup_insert_eq. }
  split; [done|]. rewrite E. split.
  - apply gens_le_insert; [|intros g'; rewrite generation_of_snapshot by done; by intros [= <-]].
    apply gens_le_delete. do 2 (apply gens_le_insert; [|by rewrite generation_of_tmp]).
    intros name bs g' Hn Hg'. pose proof (highest_le d name bs g' Hn Hg'). unfold next. lia.
  - by rewrite lookup_insert_eq.
  - rewrite lookup_insert_ne by apply snapshot_ne_log.
    assert (is_Some (generation_of (log_path next))) as Hsome by (rewrite generation_of_log by done; eauto).
    rewrite lookup_delete_ne, !lookup_insert_ne by by apply tmp_ne.
    apply next_absent. by apply generation_of_log.
Qed.

Lemma rotate_ops_eq :
  rotate_ops d g image =
  [Create (tmp_path next); WriteAll (tmp_path next) image; Rename (tmp_path next) (snapshot_path next);
   Create (log_path next); WriteAll (log_path next) LOG_MAGIC;
   RemoveFile (snapshot_path g); RemoveFile (log_path g)].
Proof.
  unfold rotate_ops. fold next. destruct rotated_rename as [_ [_ _ Hl]].
  unfold open_log_ops. by rewrite Hl.
Qed.

(** The states after the rename, one operation at a time. *)
Lemma rotated_steps :
  let d3 := run_ops d (write_snapshot_ops next image) in
  let d4 := apply_op d3 (Create (log_path next)) in
  let d5 := apply_op d4 (WriteAll (log_path next) LOG_MAGIC) in
  let d6 := apply_op d5 (RemoveFile (snapshot_path g)) in
  let d7 := apply_op d6 (RemoveFile (log_path g)) in
  rotated d3 None ∧ rotated d4 (Some []) ∧
  (∀ m, rotated (apply_op d4 (WriteAll (log_path next) (take m LOG_MAGIC))) (Some (take m LOG_MAGIC))) ∧
  rotated d5 (Some LOG_MAGIC) ∧ rotated d6 (Some LOG_MAGIC) ∧ rotated d7 (Some LOG_MAGIC).
Proof.
  intros d3 d4 d5 d6 d7. assert (rotated d3 None) as H3 by apply rotated_rename.
  assert (rotated d4 (Some [])) as H4 by (eapply rotated_log, H3).
  assert (∀ bs, rotated (apply_op d4 (WriteAll (log_path next) bs)) (Some bs)) as Hw.
  { intros bs. cbn [apply_op]. rewrite (rt_log _ _ H4). eapply rotated_log, H4. }
  assert (rotated d6 (Some LOG_MAGIC)) as H6.
  { apply rotated_remove; [by apply generation_of_snapshot|apply Hw]. }
  split_and!; try done; [apply Hw|]. apply rotated_remove; [by apply generation_of_log|done].
Qed.

(** What recovery finds at each point of a rotation. *)
Definition crash_result (d' : Dir) (old : Recovered) : Prop :=
  (∃ d1, recover hash d' = Done (d1, Ok old)) ∨
  recover hash d' = Done (d', Ok new_recovered) ∨
  (recover hash d' = Done (d', Err WalError.BadMagic) ∧
   ∃ m, (m < length LOG_MAGIC)%nat ∧ d' !! log_path next = Some (take m LOG_MAGIC)).

Lemma crash_old d' old d0 :
  recover hash d = Done (d0, Ok old) → (∀ name, name ≠ tmp_path next → d' !! name = d !! name) →
  crash_result d' old.
Proof. intros E H. left. by eapply recover_old. Qed.

Lemma crash_rotated d' old log :
  rotated d' log → log = None ∨ log = Some LOG_MAGIC ∨ (∃ m, (m < length LOG_MAGIC)%nat ∧ log = Some (take m LOG_MAGIC)) →
  crash_result d' old.
Proof.
  intros [H1 H2 H3] [-> |[-> |(m & Hm & ->)]]; right; [left; apply recover_new; auto..|right].
  split; [by eapply recover_short|eauto].
Qed.

(** What the directory looks like: as before but for the temporary file, or
    rotated. *)
Definition crash_dir (d' : Dir) : Prop :=
  (∀ name, name ≠ tmp_path next → d' !! name = d !! name) ∨
  (∃ log, rotated d' log ∧
     (log = None ∨ log = Some LOG_MAGIC ∨ (∃ m, (m < length LOG_MAGIC)%nat ∧ log = Some (take m LOG_MAGIC)))).

Lemma rotate_crash_dir d' : crash (rotate_ops d g image) d d' → crash_dir d'.
Proof.
  intros Hc. rewrite rotate_ops_eq in Hc. destruct rotated_steps as (H3 & H4 & Hm & H5 & H6 & H7).
  match type of Hc with crash ?l _ _ => set (ops := l) in * end.
  destruct Hc as [dn rest Eo|dn name bs m rest Eo].
  - assert (dn = take (length dn) ops) as -> by (by rewrite Eo, take_app_length).
    destruct (length dn) as [|[|[|[|[|[|[|k]]]]]]]; cbn [take ops].
    + by left.
    + left. intros name Hn. cbn. by rewrite lookup_insert_ne.
    + left. intros name Hn. cbn. by rewrite lookup_insert_eq, !lookup_insert_ne.
    + right. eexists. split; [exact H3|auto].
    + right. eexists. split; [exact H4|]. right. right. exists 0%nat. split; [simpl; lia|done].
    + right. eexists. split; [exact H5|auto].
    + right. eexists. split; [exact H6|auto].
    + replace (take k []) with (@nil fs_op) by by destruct k. right. eexists. split; [exact H7|auto].
  - assert (dn = take (length dn) ops) as Ed by (by rewrite Eo, take_app_length).
    assert (ops !! length dn = Some (WriteAll name bs)) as Hop by (rewrite Eo; by apply list_lookup_middle).
    rewrite Ed. clear Ed Eo.
    destruct (length dn) as [|[|[|[|[|[|[|k]]]]]]]; cbn [take ops lookup list_lookup] in *; try discriminate Hop;
      injection Hop as <- <-.
    + left. intros nm Hn. cbn. by rewrite !lookup_insert_ne.
    + right. eexists. split; [exact (Hm m)|].
      destruct (decide (m < length LOG_MAGIC)%nat) as [Hlt|Hge]; [by eauto|]. right. left. f_equal. apply take_ge. lia.
Qed.

Lemma rotate_crash d' old d0 :
  recover hash d = Done (d0, Ok old) → crash (rotate_ops d g image) d d' → crash_result d' old.
Proof.
  intros E [Hext|(log & Hr & Hlog)]%rotate_crash_dir; [by eapply crash_old|by eapply crash_rotated].
Qed.
End Crash.

(** ** Properties *)

(** C30: Rotation is atomic, up to one instant.  Whatever the operation at which
    a crash stops [rotate], and however much of the write in progress reached
    the file, recovery loads the old generation exactly as before or the new
    snapshot with an empty log; the one exception is a crash after the new log
    was created and before its magic was written, where recovery refuses the
    directory with [BadMagic].  A rotation that completes leaves the new
    generation. *)
Theorem rotate_crash_atomic hash d g snap old d0 d' :
  Checksum hash → is_u64 g → is_u64 (g + 1) → highest_generation d = g →
  snapshot_wf snap → Z.of_nat (length (body_bytes snap)) <= u64_max →
  recover hash d = Done (d0, Ok old) →
  crash (rotate_ops d g (snapshot_bytes hash snap)) d d' →
  crash_result hash g snap d' old ∧
  ∀ log, ∃ s, rotate (MkStore d g log) (snapshot_bytes hash snap) = (s, Ok tt) ∧
    st_generation s = g + 1 ∧ st_dir s = run_ops d (rotate_ops d g (snapshot_bytes hash snap)) ∧
    recover hash (st_dir s) = Done (st_dir s, Ok (MkRecovered (g + 1) (Some snap) [] None)).
Proof.
  intros Hh Hg Hn Hhigh Hs Hb E Hc. split; [by eapply rotate_crash|]. intros log.
  destruct (rotated_rename hash d g snap) as [_ [_ _ Hl]]; try done.
  destruct (rotated_steps hash d g snap) as (_ & _ & _ & _ & _ & H7); try done.
  unfold rotate. cbn [st_dir st_generation]. rewrite Hl. cbn [LogWriter_open]. eexists. split; [done|].
  cbn [st_dir st_generation]. split; [done|].
  rewrite (rotate_ops_eq hash d g snap) by done. unfold open_log_ops. rewrite Hl. split; [done|].
  destruct H7 as [H1 H2 H3]. apply recover_new; auto.
Qed.

(** A first generation with two records. *)
Definition demo_dir : Dir := <[log_path 0 := log_image crc32 demo_records]> ∅.

Lemma rotate_crash_atomic_witness :
  let d' := apply_op (run_ops demo_dir [Create (tmp_path 1)])
              (WriteAll (tmp_path 1) (take 2 (snapshot_bytes crc32 demo_snapshot))) in
  crash_result crc32 0 demo_snapshot d' (MkRecovered 0 None demo_records None) ∧
  ∀ log, ∃ s, rotate (MkStore demo_dir 0 log) (snapshot_bytes crc32 demo_snapshot) = (s, Ok tt) ∧
    st_generation s = 0 + 1 ∧
    st_dir s = run_ops demo_dir (rotate_ops demo_dir 0 (snapshot_bytes crc32 demo_snapshot)) ∧
    recover crc32 (st_dir s) = Done (st_dir s, Ok (MkRecovered (0 + 1) (Some demo_snapshot) [] None)).
Proof.
  intros d'. apply (rotate_crash_atomic crc32 demo_dir 0 demo_snapshot (MkRecovered 0 None demo_records None) demo_dir d');
    [apply crc32_checksum|done|done|by vm_compute|apply demo_snapshot_wf|by vm_compute|vm_compute; reflexivity|].
  apply (crash_in_write _ _ [Create (tmp_path 1)] (tmp_path 1) (snapshot_bytes crc32 demo_snapshot) 2
    (drop 2 (rotate_ops demo_dir 0 (snapshot_bytes crc32 demo_snapshot)))).
  by vm_compute.
Defined.

(** The instant at which a crash strands the directory: the new log exists and
    is still empty. *)
Example rotation_can_strand :
  recover crc32 (run_ops demo_dir (take 4 (rotate_ops demo_dir 0 (snapshot_bytes crc32 demo_snapshot))))
    ⇓ fun r => r.2 = Err WalError.BadMagic.
Proof. by vm_compute. Qed.
