(* ===== verification/Journal.v ===== *)
(** * The journal

    [crates/taskerd/src/journal.rs]: the engine frames its records into one
    pending batch per tick; a writer thread makes a batch durable and only then
    releases what waited on it.  The channel between them holds at most
    [COMMIT_QUEUE_DEPTH] batches.  What the disk holds is described by
    [store_ok], and the writer is shown to keep it, to lose nothing it has
    acknowledged to a crash at any point, and to release nothing early. *)

From stdpp Require Import base strings list numbers option gmap fin_maps.
From Stdlib Require Import ZArith Lia.
From S2P Require Import Prelude Domain Arena Job Priority Decay FairShare Codec LogRecord Log Snapshot Store.
Open Scope Z_scope.
Open Scope list_scope.

Definition COMMIT_QUEUE_DEPTH : nat := 1.

Section Journals.
(** Replies and dispatches only wait in a batch: their types do not matter. *)
Context {Ack Dispatch : Type} (hash : bytes → Z).

Record Commit : Type := MkCommit {
  before : bytes;
  cm_frames : bytes;
  acks : list Ack;
  dispatches : list Dispatch;
  cm_snapshot : option bytes;
}.

Definition Commit_default : Commit := MkCommit [] [] [] [] None.

Definition commit_is_empty (c : Commit) : bool :=
  match before c, cm_frames c, acks c, dispatches c, cm_snapshot c with
  | [], [], [], [], None => true
  | _, _, _, _, _ => false
  end.

Record Journal : Type := MkJournal {
  jr_pending : Commit;
  rotate_bytes : Z;
  bytes_since_rotate : Z;
}.

Definition Journal_new (rotate_bytes : Z) : Journal := MkJournal Commit_default rotate_bytes 0.

Definition with_frames (j : Journal) (fs : bytes) : Journal :=
  let p := jr_pending j in
  MkJournal (MkCommit (before p) fs (acks p) (dispatches p) (cm_snapshot p)) (rotate_bytes j)
    (wrap64 (bytes_since_rotate j + (Z.of_nat (length fs) - Z.of_nat (length (cm_frames p))))).

Definition journal_record (j : Journal) (r : LogRecord) : exec Journal :=
  let! fs := encode hash r (cm_frames (jr_pending j)) in Done (with_frames j fs).

Definition record_submitted (j : Journal) (id : JobId) (job : Job) : exec Journal :=
  let! fs := encode_submitted hash (cm_frames (jr_pending j)) id job in Done (with_frames j fs).

Definition defer (j : Journal) (a : Ack) : Journal :=
  let p := jr_pending j in
  MkJournal (MkCommit (before p) (cm_frames p) (acks p ++ [a]) (dispatches p) (cm_snapshot p))
    (rotate_bytes j) (bytes_since_rotate j).

Definition hold (j : Journal) (d : Dispatch) : Journal :=
  let p := jr_pending j in
  MkJournal (MkCommit (before p) (cm_frames p) (acks p) (dispatches p ++ [d]) (cm_snapshot p))
    (rotate_bytes j) (bytes_since_rotate j).

Definition wants_snapshot (j : Journal) : bool :=
  match cm_snapshot (jr_pending j) with None => true | Some _ => false end &&
  (rotate_bytes j <=? bytes_since_rotate j).

Definition attach_snapshot (j : Journal) (bs : bytes) : Journal :=
  let p := jr_pending j in
  MkJournal (MkCommit (cm_frames p) [] (acks p) (dispatches p) (Some bs)) (rotate_bytes j) 0.

(** [tx.try_send(batch)]: refused when the queue is full or the writer gone. *)
Definition try_send (queue : list Commit) (connected : bool) (c : Commit) : option (list Commit) :=
  if connected && (length queue <? COMMIT_QUEUE_DEPTH)%nat then Some (queue ++ [c]) else None.

Definition commit (j : Journal) (queue : list Commit) (connected : bool)
  : Journal * list Commit * bool :=
  if commit_is_empty (jr_pending j) then (j, queue, true)
  else
    match try_send queue connected (jr_pending j) with
    | Some queue => (MkJournal Commit_default (rotate_bytes j) (bytes_since_rotate j), queue, true)
    | None => (j, queue, false)
    end.

(** The blocking hand-off at shutdown; [tx.send(batch).ok()] drops the batch when
    the writer is gone. *)
Definition flush (j : Journal) (connected : bool) : Journal * list Commit :=
  if commit_is_empty (jr_pending j) then (j, [])
  else (MkJournal Commit_default (rotate_bytes j) (bytes_since_rotate j), if connected then [jr_pending j] else []).

(** [sync] has no effect on what the directory holds. *)
Definition persist (s : Store) (c : Commit) : Store * result unit WalError :=
  let s := match before c with [] => s | bs => store_append s bs end in
  let '(s, r) :=
    match cm_snapshot c with
    | Some snapshot => rotate s snapshot
    | None => (s, Ok tt)
    end in
  match r with
  | Err e => (s, Err e)
  | Ok _ => (store_append s (cm_frames c), Ok tt)
  end.

(** One turn of the writer thread: what it releases, after persisting. *)
Definition writer_step (s : Store) (c : Commit) : Store * list Ack * list Dispatch :=
  match persist s c with
  | (s, Err _) => (s, [], [])
  | (s, Ok _) => (s, acks c, dispatches c)
  end.

(** The writer thread on the batches it receives, in order, until the engine drops
    its end. *)
Fixpoint run_writer (s : Store) (cs : list Commit) : Store * list Ack * list Dispatch :=
  match cs with
  | [] => (s, [], [])
  | c :: cs =>
      let '(s, a, d) := writer_step s c in
      let '(s, a', d') := run_writer s cs in
      (s, a ++ a', d ++ d')
  end.

(** ** What the disk holds *)

(** The store's directory is one generation: this snapshot, these records. *)
Record store_ok (s : Store) (snap : option Snapshot) (rs : list LogRecord) : Prop := {
  so_gen : is_u64 (st_generation s);
  so_high : highest_generation (st_dir s) = st_generation s;
  so_log : st_dir s !! log_path (st_generation s) = Some (lw_file (st_log s));
  so_file : lw_file (st_log s) = log_image hash rs;
  so_len : lw_len (st_log s) = Z.of_nat (length (log_image hash rs));
  so_records : Forall record_fits rs;
  so_snap : st_dir s !! snapshot_path (st_generation s) = snapshot_bytes hash <$> snap;
  so_snap_wf : ∀ sn, snap = Some sn → snapshot_wf sn ∧ Z.of_nat (length (body_bytes sn)) <= u64_max;
}.

Hypothesis Hhash : Checksum hash.

(** Recovery once the snapshot of the generation is known to load. *)
Lemma recover_log d g snap bs :
  highest_generation d = g → d !! snapshot_path g = snapshot_bytes hash <$> snap →
  (∀ sn, snap = Some sn → snapshot_wf sn ∧ Z.of_nat (length (body_bytes sn)) <= u64_max) →
  d !! log_path g = Some bs → ∀ recs torn, parse_log hash bs = Done (Ok (MkReplay recs torn)) →
  ∃ d1, recover hash d = Done (d1, Ok (MkRecovered g snap recs torn)) ∧ (torn = None → d1 = d).
Proof.
  intros Hhigh Hsnap Hwf Hlog recs torn Hp. unfold recover. rewrite Hhigh, Hsnap.
  assert ((match snapshot_bytes hash <$> snap with
           | Some bs => let! r := decode_snapshot hash bs in
                        Done (match r with Ok s => Ok (Some s) | Err e => Err e end)
           | None => Done (Ok None) end) = Done (Ok snap)) as ->.
  { destruct snap as [sn|]; [|done]. destruct (Hwf sn eq_refl).
    cbn [fmap option_fmap option_map]. by rewrite decode_snapshot_bytes. }
  cbn [exec_bind]. rewrite Hlog, Hp. cbn [exec_bind torn_at records]. eexists. split; [done|]. by intros ->.
Qed.

(** Part of one frame. *)
Definition torn_tail (tail : bytes) : Prop :=
  tail = [] ∨ ∃ r m, record_fits r ∧ tail = take m (frame_bytes hash (record_bytes r)) ∧
                     (0 < m < length (frame_bytes hash (record_bytes r)))%nat.

(** What a directory holds when no writer has it open: a snapshot, and a log
    that may not exist yet or may end in part of a frame. *)
Record disk_ok (d : Dir) (g : Z) (snap : option Snapshot) (rs : list LogRecord) : Prop := {
  dk_gen : is_u64 g;
  dk_high : highest_generation d = g;
  dk_snap : d !! snapshot_path g = snapshot_bytes hash <$> snap;
  dk_snap_wf : ∀ sn, snap = Some sn → snapshot_wf sn ∧ Z.of_nat (length (body_bytes sn)) <= u64_max;
  dk_records : Forall record_fits rs;
  dk_log : (d !! log_path g = None ∧ rs = []) ∨
           (∃ tail, d !! log_path g = Some (log_image hash rs ++ tail) ∧ torn_tail tail);
}.

Lemma parse_torn_tail rs tail :
  Forall record_fits rs → torn_tail tail →
  parse_log hash (log_image hash rs ++ tail) =
  Done (Ok (MkReplay rs (match tail with [] => None | _ => Some (Z.of_nat (length (log_image hash rs))) end))).
Proof.
  intros Hrs [->|(r & m & Hr & -> & Hm)]; [rewrite app_nil_r; by apply parse_image|].
  pose proof (parse_cut hash Hhash (rs ++ [r]) (length (frames hash rs) + m) (length rs)
    (take m (frame_bytes hash (record_bytes r)))) as Hp.
  assert (frames hash [r] = frame_bytes hash (record_bytes r)) as Er by apply app_nil_r.
  rewrite frames_app, take_app_add, Er, take_app_length in Hp. unfold log_image in *. rewrite <-app_assoc. apply Hp.
  - by apply Forall_app; split; [|constructor].
  - split; [rewrite length_app; lia|]. rewrite frames_app, take_app_add, take_app_length, Er. split; [done|]. right.
    exists r, m. split; [by apply list_lookup_middle|]. done.
Qed.

(** A log cut somewhere inside the frames of [more]. *)
Lemma cut_disk d g snap rs more m :
  is_u64 g → highest_generation d = g → Forall record_fits (rs ++ more) →
  d !! snapshot_path g = snapshot_bytes hash <$> snap →
  (∀ sn, snap = Some sn → snapshot_wf sn ∧ Z.of_nat (length (body_bytes sn)) <= u64_max) →
  d !! log_path g = Some (log_image hash rs ++ take m (frames hash more)) →
  ∃ k, disk_ok d g snap (rs ++ take k more).
Proof.
  intros Hg Hhigh Hrs Hsnap Hwf Hlog. destruct (cut_exists hash more m) as (k & tail & Hk & Ht & Htail).
  apply Forall_app in Hrs as [Hrs Hmore]. exists k. split; try done.
  - apply Forall_app. split; [done|by apply Forall_take].
  - right. exists tail. rewrite Hlog, Ht. unfold log_image. rewrite frames_app, !app_assoc. split; [done|].
    destruct Htail as [->|(r & n & Hr & -> & Hn)]; [by left|right]. exists r, n. split; [|done].
    exact (Forall_lookup_1 _ _ _ _ Hmore Hr).
Qed.

(** The directory recovery leaves when it cut a torn tail. *)
Lemma recover_dir d g snap bs d1 recs at_ :
  highest_generation d = g → d !! log_path g = Some bs → parse_log hash bs = Done (Ok (MkReplay recs (Some at_))) →
  recover hash d = Done (d1, Ok (MkRecovered g snap recs (Some at_))) →
  d1 = <[log_path g := truncate_log bs (Z.to_nat at_)]> d.
Proof.
  intros Hh Hl Hp E. unfold recover in E. rewrite Hh in E. apply exec_bind_Done in E as (sn & _ & E).
  destruct sn as [sn|]; [|done]. rewrite Hl, Hp in E. cbn [exec_bind torn_at records] in E. by injection E as <- _.
Qed.

(** A good store recovers to exactly what it holds. *)
Lemma store_ok_recovers s snap rs :
  store_ok s snap rs →
  recover hash (st_dir s) = Done (st_dir s, Ok (MkRecovered (st_generation s) snap rs None)).
Proof.
  intros [H1 H2 H3 H4 H5 H6 H7 H8]. rewrite H4 in H3.
  destruct (recover_log _ _ _ _ H2 H7 H8 H3 rs None) as (d1 & E & Hd); [by apply parse_image|].
  by rewrite (Hd eq_refl) in E.
Qed.

(** Writing to the current log keeps the directory's generation and snapshot. *)
Lemma write_log_dir d g bs :
  is_u64 g → highest_generation d = g →
  highest_generation (<[log_path g := bs]> d) = g ∧
  (<[log_path g := bs]> d) !! snapshot_path g = d !! snapshot_path g.
Proof.
  intros Hg Hh. split.
  - apply highest_eq; [apply Hg| |].
    + apply gens_le_insert; [rewrite <-Hh; apply highest_le|]. intros g'. rewrite generation_of_log by done.
      by intros [= <-].
    + right. exists (log_path g), bs. split; [by rewrite lookup_insert_eq|by apply generation_of_log].
  - rewrite lookup_insert_ne; [done|]. apply not_eq_sym, snapshot_ne_log.
Qed.

(** Starting on such a directory finds what it holds, and leaves a store. *)
Lemma disk_recovers d g snap rs :
  disk_ok d g snap rs →
  ∃ d1 torn st, recover hash d = Done (d1, Ok (MkRecovered g snap rs torn)) ∧ resume d1 g = Ok st ∧
    st_generation st = g ∧ store_ok st snap rs.
Proof.
  intros [H1 H2 H3 H4 H5 H6].
  assert (∀ d1, highest_generation d1 = g → d1 !! snapshot_path g = snapshot_bytes hash <$> snap →
    store_ok (MkStore (<[log_path g := log_image hash rs]> d1) g
      (MkLogWriter (log_image hash rs) (Z.of_nat (length (log_image hash rs))))) snap rs) as Hstore.
  { intros d1 Hh Hs. destruct (write_log_dir d1 g (log_image hash rs) H1 Hh) as [Ha Hb].
    split; cbn [st_dir st_generation st_log lw_file lw_len]; try done; [by rewrite lookup_insert_eq|by rewrite Hb]. }
  destruct H6 as [[Hn ->]|(tail & Hl & Ht)].
  - exists d, None. eexists. split.
    + unfold recover. rewrite H2, H3. destruct snap as [sn|]; cbn [fmap option_fmap option_map].
      * destruct (H4 sn eq_refl). rewrite decode_snapshot_bytes by done. cbn [exec_bind]. by rewrite Hn.
      * cbn [exec_bind]. by rewrite Hn.
    + unfold resume. rewrite Hn. split; [done|]. split; [done|]. by apply Hstore.
  - destruct (recover_log d g snap _ H2 H3 H4 Hl _ _ (parse_torn_tail rs tail H5 Ht)) as (d1 & E & Hd).
    exists d1. eexists _, _. split; [exact E|].
    assert (d1 !! log_path g = Some (log_image hash rs) ∧ highest_generation d1 = g ∧ d1 !! snapshot_path g = d !! snapshot_path g)
      as (Hl1 & Hh1 & Hs1).
    { destruct tail as [|b tail]; [rewrite (Hd eq_refl); rewrite app_nil_r in Hl; done|].
      apply (recover_dir d g snap _ _ _ _ H2 Hl (parse_torn_tail rs (b :: tail) H5 Ht)) in E as ->.
      unfold truncate_log. rewrite Nat2Z.id, take_app_length.
      rewrite (proj2 (Nat.sub_0_le _ _)) by (rewrite length_app; lia). cbn [replicate]. rewrite app_nil_r, lookup_insert_eq.
      destruct (write_log_dir d g (log_image hash rs) H1 H2) as [-> ->]. done. }
    unfold resume. rewrite Hl1, open_image. split; [done|]. split; [done|]. apply Hstore; [done|by rewrite Hs1].
Qed.

Lemma store_ok_disk s snap rs : store_ok s snap rs → disk_ok (st_dir s) (st_generation s) snap rs.
Proof.
  intros [H1 H2 H3 H4 H5 H6 H7 H8]. split; try done. right. exists []. rewrite app_nil_r, H3, H4. split; [done|by left].
Qed.

Lemma store_append_ok s snap rs more :
  store_ok s snap rs → Forall record_fits more →
  store_ok (store_append s (frames hash more)) snap (rs ++ more).
Proof.
  intros [H1 H2 H3 H4 H5 H6 H7 H8] Hm. unfold store_append, log_append. rewrite H4, H5.
  assert (log_image hash rs ++ frames hash more = log_image hash (rs ++ more)) as E.
  { unfold log_image. by rewrite frames_app, app_assoc. }
  destruct (write_log_dir (st_dir s) (st_generation s) (log_image hash rs ++ frames hash more)) as [Ha Hb];
    [done|done|].
  split; cbn [st_dir st_generation st_log lw_file lw_len]; try done.
  - by rewrite lookup_insert_eq.
  - rewrite <-E, length_app. lia.
  - by apply Forall_app.
  - by rewrite Hb.
Qed.

Lemma rotate_ok s snap rs sn :
  store_ok s snap rs → is_u64 (st_generation s + 1) →
  snapshot_wf sn → Z.of_nat (length (body_bytes sn)) <= u64_max →
  ∃ s', rotate s (snapshot_bytes hash sn) = (s', Ok tt) ∧ store_ok s' (Some sn) [] ∧
    st_generation s' = st_generation s + 1 ∧
    st_dir s' = run_ops (st_dir s) (rotate_ops (st_dir s) (st_generation s) (snapshot_bytes hash sn)).
Proof.
  intros [H1 H2 H3 H4 H5 H6 H7 H8] Hn Hsn Hb.
  destruct (rotated_rename hash (st_dir s) (st_generation s) sn) as [_ [_ _ Hl]]; try done.
  destruct (rotated_steps hash (st_dir s) (st_generation s) sn) as (_ & _ & _ & _ & _ & H7'); try done.
  unfold rotate. rewrite Hl. cbn [LogWriter_open]. eexists. split; [done|].
  rewrite (rotate_ops_eq hash (st_dir s) (st_generation s) sn) by done. unfold open_log_ops. rewrite Hl.
  split; [|done]. destruct H7' as [Ha Hs' Hl'].
  split; cbn [st_dir st_generation st_log lw_file lw_len]; try done.
  - by eapply highest_next.
  - by intros ? [= <-].
Qed.

(** ** Batches *)

(** The batch carries the records [rb], the snapshot [osn], then [rf]. *)
Record batch_ok (c : Commit) (rb : list LogRecord) (osn : option Snapshot) (rf : list LogRecord) : Prop := {
  bo_before : before c = frames hash rb;
  bo_frames : cm_frames c = frames hash rf;
  bo_snapshot : cm_snapshot c = snapshot_bytes hash <$> osn;
  bo_order : osn = None → rb = [];
  bo_records : Forall record_fits (rb ++ rf);
  bo_snap_wf : ∀ sn, osn = Some sn → snapshot_wf sn ∧ Z.of_nat (length (body_bytes sn)) <= u64_max;
}.

(** What the disk holds once the batch is on it. *)
Definition after_batch (snap : option Snapshot) (rs : list LogRecord) (osn : option Snapshot)
    (rf : list LogRecord) : option Snapshot * list LogRecord :=
  match osn with
  | Some sn => (Some sn, rf)
  | None => (snap, rs ++ rf)
  end.

Lemma frames_nil_inv rs : frames hash rs = [] → rs = [].
Proof.
  destruct rs as [|r rs]; [done|]. rewrite frames_cons. intros E%(f_equal length).
  rewrite length_app, length_frame in E. simpl in E. lia.
Qed.

(** The append of [before], which is skipped when there is nothing. *)
Lemma append_before s c rb osn rf snap rs :
  store_ok s snap rs → batch_ok c rb osn rf →
  let s1 := match before c with [] => s | bs => store_append s bs end in
  store_ok s1 snap (rs ++ rb) ∧ st_generation s1 = st_generation s ∧
  (rb = [] → s1 = s).
Proof.
  intros Hs Hc s1. destruct (proj1 (Forall_app _ _ _) (bo_records _ _ _ _ Hc)) as [Hrb _].
  unfold s1. rewrite (bo_before _ _ _ _ Hc). destruct (frames hash rb) as [|b bs] eqn:E.
  - apply frames_nil_inv in E as ->. by rewrite app_nil_r.
  - rewrite <-E. split; [by apply store_append_ok|]. split; [done|]. by intros ->.
Qed.

Lemma persist_spec s c rb osn rf snap rs :
  store_ok s snap rs → batch_ok c rb osn rf → is_u64 (st_generation s + 1) →
  ∃ s', persist s c = (s', Ok tt) ∧ st_generation s <= st_generation s' <= st_generation s + 1 ∧
    store_ok s' (after_batch snap rs osn rf).1 (after_batch snap rs osn rf).2.
Proof.
  intros Hs Hc Hg. destruct (append_before s c rb osn rf snap rs Hs Hc) as (Hs1 & Hg1 & He1).
  unfold persist. set (s1 := match before c with [] => s | bs => store_append s bs end) in *.
  destruct (proj1 (Forall_app _ _ _) (bo_records _ _ _ _ Hc)) as [_ Hrf].
  rewrite (bo_snapshot _ _ _ _ Hc), (bo_frames _ _ _ _ Hc). destruct osn as [sn|].
  - destruct (bo_snap_wf _ _ _ _ Hc sn eq_refl) as [Hwf Hl].
    destruct (rotate_ok s1 snap (rs ++ rb) sn) as (s2 & Er & Hs2 & Hg2 & _); [done|by rewrite Hg1|done|done|].
    cbn [fmap option_fmap option_map]. rewrite Er. eexists. split; [done|]. split; [cbn; lia|].
    by apply (store_append_ok s2 (Some sn) [] rf).
  - cbn [fmap option_fmap option_map]. rewrite (bo_order _ _ _ _ Hc eq_refl), app_nil_r in Hs1.
    eexists. split; [done|]. split; [cbn; lia|]. by apply store_append_ok.
Qed.

(** ** Crashes while a batch is written *)

Lemma crash_app a b d d' : crash (a ++ b) d d' → crash a d d' ∨ crash b (run_ops d a) d'.
Proof.
  intros [dn rest E|dn name bs m rest E].
  - destruct (decide (length dn <= length a)%nat) as [Hl|Hl].
    + left. apply (crash_between _ _ _ (drop (length dn) a)).
      rewrite <-(take_drop (length dn) a) at 1. f_equal.
      apply (f_equal (take (length dn))) in E. by rewrite take_app_le, take_app_length in E by done.
    + right. apply app_eq_inv in E as [(k & -> & ->)|(k & -> & ->)]; [rewrite length_app in Hl; lia|].
      unfold run_ops. rewrite fold_left_app. by eapply crash_between.
  - apply app_eq_inv in E as [(k & -> & Ek)|(k & -> & ->)].
    + destruct k as [|o k]; simplify_eq/=.
      * right. rewrite app_nil_r. by apply (crash_in_write _ _ [] name bs m rest).
      * left. by eapply (crash_in_write _ _ dn name bs m k).
    + right. unfold run_ops. rewrite fold_left_app. by eapply crash_in_write.
Qed.

Lemma crash_write d name bs d' :
  crash [WriteAll name bs] d d' → is_Some (d !! name) → ∃ m, d' = <[name := default [] (d !! name) ++ take m bs]> d.
Proof.
  intros Hc [old Hold]. inversion Hc as [dn rest E|dn n b m rest E].
  - destruct dn as [|o [|]]; simplify_eq/=.
    + exists 0%nat. rewrite Hold, app_nil_r. simpl. by rewrite insert_id.
    + exists (length bs). by rewrite firstn_all.
  - destruct dn as [|o []]; simplify_eq/=. by exists m.
Qed.

(** The file operations of [persist]. *)
Definition persist_ops (s : Store) (c : Commit) : list fs_op :=
  let g := st_generation s in
  let first := match before c with [] => [] | bs => [WriteAll (log_path g) bs] end in
  let d := run_ops (st_dir s) first in
  first ++ match cm_snapshot c with
           | Some snapshot => rotate_ops d g snapshot ++ [WriteAll (log_path (g + 1)) (cm_frames c)]
           | None => [WriteAll (log_path g) (cm_frames c)]
           end.

Lemma store_append_dir s snap rs bs :
  store_ok s snap rs → st_dir (store_append s bs) = run_ops (st_dir s) [WriteAll (log_path (st_generation s)) bs].
Proof.
  intros H. unfold store_append, run_ops. cbn [fold_left apply_op st_dir log_append lw_file].
  by rewrite (so_log _ _ _ H).
Qed.

(** A crash while frames are appended to the current log. *)
Lemma crash_append s snap rs more d' :
  store_ok s snap rs → Forall record_fits more →
  crash [WriteAll (log_path (st_generation s)) (frames hash more)] (st_dir s) d' →
  ∃ k, disk_ok d' (st_generation s) snap (rs ++ take k more).
Proof.
  intros Hs Hm Hc. pose proof Hs as [H1 H2 H3 H4 H5 H6 H7 H8].
  apply crash_write in Hc as [m ->]; [|eauto]. rewrite H3. cbn [default from_option id]. rewrite H4.
  destruct (write_log_dir (st_dir s) (st_generation s) (log_image hash rs ++ take m (frames hash more)) H1 H2) as [Ha Hb].
  apply (cut_disk _ _ _ _ _ m); [done|done|by apply Forall_app|by rewrite Hb|done|by rewrite lookup_insert_eq].
Qed.

(** What a crash while the batch was written leaves: what was there with a prefix
    of the batch, or the batch's snapshot with a prefix of what follows it, or the
    stranded instant of a rotation. *)
Definition crash_disk (g : Z) (snap : option Snapshot) (rs rb : list LogRecord) (osn : option Snapshot)
    (rf : list LogRecord) (d' : Dir) : Prop :=
  (∃ k, disk_ok d' g snap (rs ++ take k (match osn with Some _ => rb | None => rf end))) ∨
  (∃ sn k, osn = Some sn ∧ disk_ok d' (g + 1) (Some sn) (take k rf)) ∨
  (osn ≠ None ∧ recover hash d' = Done (d', Err WalError.BadMagic)).

Lemma crash_first s c rb osn rf snap rs d' :
  store_ok s snap rs → batch_ok c rb osn rf →
  crash (match before c with [] => [] | bs => [WriteAll (log_path (st_generation s)) bs] end) (st_dir s) d' →
  crash_disk (st_generation s) snap rs rb osn rf d'.
Proof.
  intros Hs Hc Hcr. left. rewrite (bo_before _ _ _ _ Hc) in Hcr.
  destruct (frames hash rb) as [|b bs] eqn:E.
  - inversion Hcr as [dn rest Eo|dn name bs m rest Eo]; [|by destruct dn].
    destruct dn; [|done]. cbn. exists 0%nat. rewrite take_0, app_nil_r. by apply store_ok_disk.
  - rewrite <-E in Hcr. destruct osn as [sn|].
    + eapply crash_append; [done| |done]. apply (proj1 (Forall_app _ _ _) (bo_records _ _ _ _ Hc)).
    + by rewrite (bo_order _ _ _ _ Hc eq_refl) in E.
Qed.

(** The directory of a rotation that a crash stopped. *)
Lemma crash_rotate s snap rs sn d' :
  store_ok s snap rs → is_u64 (st_generation s + 1) → snapshot_wf sn → Z.of_nat (length (body_bytes sn)) <= u64_max →
  crash (rotate_ops (st_dir s) (st_generation s) (snapshot_bytes hash sn)) (st_dir s) d' →
  disk_ok d' (st_generation s) snap rs ∨ disk_ok d' (st_generation s + 1) (Some sn) [] ∨
  recover hash d' = Done (d', Err WalError.BadMagic).
Proof.
  intros Hs Hg Hwf Hl Hcr. pose proof (store_ok_disk _ _ _ Hs) as [H1 H2 H3 H4 H5 H6].
  destruct (rotate_crash_dir hash (st_dir s) (st_generation s) sn H1 Hg H2 d' Hcr) as [Hext|(log & [R1 R2 R3] & Hlog)].
  - left. assert (∀ name, is_Some (generation_of name) → d' !! name = st_dir s !! name) as Hext'.
    { intros name Hn. apply Hext. intros ->. rewrite generation_of_tmp in Hn. by destruct Hn. }
    split; try done; [by rewrite (highest_ext _ _ Hext')|..];
      rewrite Hext' by (rewrite ?generation_of_snapshot, ?generation_of_log by done; eauto); done.
  - right. destruct Hlog as [->|[->|(m & Hm & ->)]].
    + left. split; [done|by eapply highest_next|done|by intros ? [= <-]|constructor|by left].
    + left. split; [done|by eapply highest_next|done|by intros ? [= <-]|constructor|].
      right. exists []. split; [done|by left].
    + right. by eapply recover_short.
Qed.

Lemma crash_persist s c rb osn rf snap rs d' :
  store_ok s snap rs → batch_ok c rb osn rf → is_u64 (st_generation s + 1) →
  crash (persist_ops s c) (st_dir s) d' → crash_disk (st_generation s) snap rs rb osn rf d'.
Proof.
  intros Hs Hc Hg Hcr. unfold persist_ops in Hcr. apply crash_app in Hcr as [Hcr|Hcr].
  { by eapply crash_first. }
  destruct (append_before s c rb osn rf snap rs Hs Hc) as (Hs1 & Hg1 & He1).
  set (s1 := match before c with [] => s | bs => store_append s bs end) in *.
  assert (run_ops (st_dir s) (match before c with [] => [] | bs => [WriteAll (log_path (st_generation s)) bs] end)
          = st_dir s1) as Ed.
  { unfold s1. destruct (before c); [done|]. symmetry. by eapply store_append_dir. }
  rewrite Ed in Hcr. destruct (proj1 (Forall_app _ _ _) (bo_records _ _ _ _ Hc)) as [_ Hrf].
  rewrite (bo_snapshot _ _ _ _ Hc), (bo_frames _ _ _ _ Hc), <-Hg1 in Hcr. rewrite <-Hg1 in Hg |- *.
  destruct osn as [sn|]; cbn [fmap option_fmap option_map] in Hcr.
  - destruct (bo_snap_wf _ _ _ _ Hc sn eq_refl) as [Hwf Hl]. apply crash_app in Hcr as [Hcr|Hcr].
    + destruct (crash_rotate s1 snap (rs ++ rb) sn d' Hs1 Hg Hwf Hl Hcr) as [Hd|[Hd|E]].
      * left. exists (length rb). by rewrite firstn_all.
      * right. left. by exists sn, 0%nat.
      * right. by right.
    + destruct (rotate_ok s1 snap (rs ++ rb) sn Hs1 Hg Hwf Hl) as (s2 & _ & Hs2 & Hg2 & Hd2).
      rewrite <-Hd2, <-Hg2 in Hcr. destruct (crash_append s2 (Some sn) [] rf d' Hs2 Hrf Hcr) as (k & Hd).
      right. left. exists sn, k. by rewrite <-Hg2.
  - rewrite (bo_order _ _ _ _ Hc eq_refl), app_nil_r in Hs1. left. by eapply crash_append.
Qed.

(** What recovery may find then. *)
Definition crash_outcome (g : Z) (snap : option Snapshot) (rs rb : list LogRecord) (osn : option Snapshot)
    (rf : list LogRecord) (d' : Dir) : Prop :=
  (∃ d1 k torn, recover hash d' =
     Done (d1, Ok (MkRecovered g snap (rs ++ take k (match osn with Some _ => rb | None => rf end)) torn))) ∨
  (∃ sn d1 k torn, osn = Some sn ∧
     recover hash d' = Done (d1, Ok (MkRecovered (g + 1) (Some sn) (take k rf) torn))) ∨
  (osn ≠ None ∧ recover hash d' = Done (d', Err WalError.BadMagic)).

Lemma crash_disk_outcome g snap rs rb osn rf d' :
  crash_disk g snap rs rb osn rf d' → crash_outcome g snap rs rb osn rf d'.
Proof.
  intros [(k & Hd)|[(sn & k & -> & Hd)|?]]; [| |by right; right];
    destruct (disk_recovers _ _ _ _ Hd) as (d1 & torn & st & E & _); [left|right; left]; eauto 10.
Qed.

(** ** The engine's end *)

(** The pending batch, with the journal's byte count. *)
Definition pending_ok (j : Journal) (rb : list LogRecord) (osn : option Snapshot) (rf : list LogRecord) : Prop :=
  batch_ok (jr_pending j) rb osn rf.

Lemma pending_record j rb osn rf r :
  pending_ok j rb osn rf → record_fits r →
  ∃ j', journal_record j r = Done j' ∧ pending_ok j' rb osn (rf ++ [r]) ∧
    acks (jr_pending j') = acks (jr_pending j) ∧ dispatches (jr_pending j') = dispatches (jr_pending j) ∧
    bytes_since_rotate j' = wrap64 (bytes_since_rotate j + Z.of_nat (length (frames hash [r]))).
Proof.
  intros [H1 H2 H3 H4 H5 H6] Hr. unfold journal_record. rewrite encode_writes by done. cbn [exec_bind].
  assert (frames hash [r] = frame_bytes hash (record_bytes r)) as E by apply app_nil_r.
  eexists. split; [done|]. split; [|split; [done|split; [done|]]].
  - split; cbn; try done.
    + by rewrite H2, frames_app, E.
    + rewrite app_assoc. by apply Forall_app; split; [|constructor].
  - cbn [with_frames bytes_since_rotate]. rewrite E, length_app. f_equal. lia.
Qed.

Lemma pending_attach j rf sn :
  pending_ok j [] None rf → snapshot_wf sn → Z.of_nat (length (body_bytes sn)) <= u64_max →
  pending_ok (attach_snapshot j (snapshot_bytes hash sn)) rf (Some sn) [].
Proof.
  intros [H1 H2 H3 H4 H5 H6] Hs Hl. split; cbn; try done.
  - by rewrite app_nil_r.
  - by intros ? [= <-].
Qed.

Lemma pending_new n : pending_ok (Journal_new n) [] None [].
Proof. by split. Qed.
End Journals.

(** ** Properties *)

(** Write-ahead.  The writer persists a batch before it releases anything:
    from a directory that holds one generation, its turn ends with the batch on
    disk, in order (records before the snapshot to the retiring log, the
    snapshot as the new generation, the rest to the new log), recovery finds
    exactly that, and then, only then, every reply and dispatch of the batch is
    released; when persisting fails none is. *)
Theorem writer_is_write_ahead {Ack Dispatch : Type} hash s (c : @Commit Ack Dispatch) rb osn rf snap rs :
  Checksum hash → store_ok hash s snap rs → batch_ok hash c rb osn rf → is_u64 (st_generation s + 1) →
  let '(snap', rs') := after_batch snap rs osn rf in
  (∃ s', writer_step s c = (s', acks c, dispatches c) ∧ store_ok hash s' snap' rs' ∧
     recover hash (st_dir s') = Done (st_dir s', Ok (MkRecovered (st_generation s') snap' rs' None))) ∧
  ∀ s0 s' e, persist s0 c = (s', Err e) → writer_step s0 c = (s', [], []).
Proof.
  intros Hh Hs Hc Hg. destruct (after_batch snap rs osn rf) as [snap' rs'] eqn:Ea. split.
  - destruct (persist_spec hash s c rb osn rf snap rs Hs Hc Hg) as (s' & Ep & _ & Hs'). rewrite Ea in Hs'.
    exists s'. unfold writer_step. rewrite Ep. split; [done|]. split; [done|]. by apply store_ok_recovers.
  - intros s0 s' e E. unfold writer_step. by rewrite E.
Qed.

(** Nothing acknowledged is lost.  Whatever the file operation at which a
    crash interrupts the writing of a batch, and however much of the write in
    progress reached the disk, recovery finds everything that was durable
    before, followed by a prefix of the batch's records, or the batch's snapshot
    followed by a prefix of the records after it; the one exception is the
    instant of a rotation at which the new log has no magic yet. *)
Theorem crash_keeps_acknowledged {Ack Dispatch : Type} hash s (c : @Commit Ack Dispatch) rb osn rf snap rs d' :
  Checksum hash → store_ok hash s snap rs → batch_ok hash c rb osn rf → is_u64 (st_generation s + 1) →
  crash (persist_ops s c) (st_dir s) d' →
  crash_outcome hash (st_generation s) snap rs rb osn rf d'.
Proof. intros. apply crash_disk_outcome; [done|]. by eapply crash_persist. Qed.

(** The engine's end keeps batches faithful: recording appends exactly the
    record's frame to what follows the snapshot and counts its bytes, attaching a
    snapshot moves everything recorded so far before it, neither drops a reply or
    a dispatch, and [commit] hands the whole batch over exactly when the queue
    has room, starting an empty one, and otherwise keeps it whole. *)
Theorem journal_batches_faithfully {Ack Dispatch : Type} hash (j : @Journal Ack Dispatch) rb osn rf r sn queue connected :
  pending_ok hash j rb osn rf → record_fits r → snapshot_wf sn →
  Z.of_nat (length (body_bytes sn)) <= u64_max →
  (∃ j', journal_record hash j r = Done j' ∧ pending_ok hash j' rb osn (rf ++ [r]) ∧
     acks (jr_pending j') = acks (jr_pending j) ∧ dispatches (jr_pending j') = dispatches (jr_pending j) ∧
     bytes_since_rotate j' = wrap64 (bytes_since_rotate j + Z.of_nat (length (frames hash [r])))) ∧
  (∀ id job, r = LogRecord.Submitted id job → record_submitted hash j id job = journal_record hash j r) ∧
  (osn = None → pending_ok hash (attach_snapshot j (snapshot_bytes hash sn)) rf (Some sn) []) ∧
  let '(j', queue', sent) := commit j queue connected in
  (sent = false → j' = j ∧ queue' = queue ∧ (connected = false ∨ (COMMIT_QUEUE_DEPTH <= length queue)%nat)) ∧
  (sent = true → pending_ok hash j' [] None [] ∧
     queue' = queue ++ (if commit_is_empty (jr_pending j) then [] else [jr_pending j])).
Proof.
  intros Hj Hr Hs Hl. split; [by apply pending_record|]. split; [by intros id job ->|]. split.
  { intros ->. rewrite (bo_order _ _ _ _ _ Hj eq_refl) in Hj. by apply pending_attach. }
  unfold commit. destruct (commit_is_empty (jr_pending j)) eqn:Ee.
  - split; [done|]. intros _. rewrite app_nil_r. split; [|done].
    destruct j as [[b f a dd sn0] rot n]. unfold commit_is_empty in Ee. cbn in *.
    destruct b, f, a, dd, sn0; done.
  - unfold try_send. destruct connected; simpl; [|split; [by auto|done]].
    destruct (Nat.ltb_spec (length queue) COMMIT_QUEUE_DEPTH); (split; [|]); try done.
    intros _. auto.
Qed.

(** Two records on disk in the first generation, a third on its way. *)
Definition demo_store : Store :=
  MkStore demo_dir 0 (MkLogWriter (log_image crc32 demo_records) (Z.of_nat (length (log_image crc32 demo_records)))).

Definition demo_more : list LogRecord := [LogRecord.Completed 0 9000].

Definition demo_batch : @Commit nat nat :=
  MkCommit (frames crc32 demo_more) (frames crc32 []) [1%nat] [2%nat] (Some (snapshot_bytes crc32 demo_snapshot)).

Lemma demo_more_fits : Forall record_fits demo_more.
Proof. repeat constructor; by vm_compute. Qed.

Lemma demo_store_ok : store_ok crc32 demo_store None demo_records.
Proof.
  split; cbn [demo_store st_dir st_generation st_log lw_file lw_len].
  - done.
  - vm_compute. reflexivity.
  - unfold demo_dir. by rewrite lookup_insert_eq.
  - reflexivity.
  - reflexivity.
  - apply demo_records_fit.
  - unfold demo_dir. rewrite lookup_insert_ne by (apply not_eq_sym, snapshot_ne_log). reflexivity.
  - done.
Qed.

Lemma demo_batch_ok : batch_ok crc32 demo_batch demo_more (Some demo_snapshot) [].
Proof.
  split; try done.
  - rewrite app_nil_r. apply demo_more_fits.
  - intros sn [= <-]. split; [apply demo_snapshot_wf|by vm_compute].
Qed.

Lemma writer_is_write_ahead_witness :
  let '(snap', rs') := after_batch None demo_records (Some demo_snapshot) [] in
  (∃ s', writer_step demo_store demo_batch = (s', acks demo_batch, dispatches demo_batch) ∧
     store_ok crc32 s' snap' rs' ∧
     recover crc32 (st_dir s') = Done (st_dir s', Ok (MkRecovered (st_generation s') snap' rs' None))) ∧
  ∀ s0 s' e, persist s0 demo_batch = (s', Err e) → writer_step s0 demo_batch = (s', [], []).
Proof.
  apply (writer_is_write_ahead crc32 demo_store demo_batch demo_more (Some demo_snapshot) [] None demo_records);
    [apply crc32_checksum|apply demo_store_ok|apply demo_batch_ok|by vm_compute].
Defined.

(** The crash cuts the first write of the batch at its fifth byte. *)
Lemma crash_keeps_acknowledged_witness :
  let d' := apply_op (run_ops demo_dir []) (WriteAll (log_path 0) (take 5 (frames crc32 demo_more))) in
  crash_outcome crc32 0 None demo_records demo_more (Some demo_snapshot) [] d'.
Proof.
  intros d'.
  apply (crash_keeps_acknowledged crc32 demo_store demo_batch demo_more (Some demo_snapshot) [] None demo_records d');
    [apply crc32_checksum|apply demo_store_ok|apply demo_batch_ok|by vm_compute|].
  apply (crash_in_write _ _ [] (log_path 0) (frames crc32 demo_more) 5 (drop 1 (persist_ops demo_store demo_batch))).
  vm_compute. reflexivity.
Defined.

Lemma journal_batches_faithfully_witness :
  let j : @Journal nat nat := Journal_new 1000 in
  let r := LogRecord.Completed 0 9000 in
  (∃ j', journal_record crc32 j r = Done j' ∧ pending_ok crc32 j' [] None ([] ++ [r]) ∧
     acks (jr_pending j') = acks (jr_pending j) ∧ dispatches (jr_pending j') = dispatches (jr_pending j) ∧
     bytes_since_rotate j' = wrap64 (bytes_since_rotate j + Z.of_nat (length (frames crc32 [r])))) ∧
  (∀ id job, r = LogRecord.Submitted id job → record_submitted crc32 j id job = journal_record crc32 j r) ∧
  (@None Snapshot = None → pending_ok crc32 (attach_snapshot j (snapshot_bytes crc32 demo_snapshot)) [] (Some demo_snapshot) []) ∧
  let '(j', queue', sent) := commit j [] true in
  (sent = false → j' = j ∧ queue' = [] ∧ (true = false ∨ (COMMIT_QUEUE_DEPTH <= 0)%nat)) ∧
  (sent = true → pending_ok crc32 j' [] None [] ∧
     queue' = [] ++ (if commit_is_empty (jr_pending j) then [] else [jr_pending j])).
Proof.
  intros j r.
  apply (journal_batches_faithfully crc32 j [] None [] r demo_snapshot [] true);
    [by split|by repeat constructor|apply demo_snapshot_wf|by vm_compute].
Defined.
