(* ===== verification/Command.v ===== *)
(** * Messages and rings

    [crates/taskerd/src/command.rs], [outbox.rs], [inbox.rs]: what goes into
    and out of the scheduler thread, and the two bounded rings that carry it.
    The ring itself is crossbeam's [ArrayQueue], which is not part of the
    repository: it is a class with the behaviour its documentation states, and
    the wrappers are proved against the class.  Wake-ups ([Notify], [Unparker])
    carry no data and are not modelled. *)

From stdpp Require Import base strings list numbers option.
From Stdlib Require Import ZArith Lia.
From S2P Require Import Prelude Domain Arena Job Inventory FairShare Scheduler.
Open Scope Z_scope.
Open Scope list_scope.

(** ** Messages *)

(** A reply channel is named by a number; what is sent on it is an [Answer]. *)
Abbreviation Reply := nat (only parsing).

Record QueueSummary : Type := MkQueueSummary {
  qs_ready : nat;
  qs_blocked : nat;
  qs_running : nat;
  qs_cycles : Z;
}.

Record NodeSummary : Type := MkNodeSummary {
  ns_slot : SlotIndex;
  ns_name : string;
  ns_capacity : Resources;
  ns_allocated : Resources;
  ns_attached : bool;
}.

Record AccountSummary : Type := MkAccountSummary {
  as_account : Z;
  as_shares : Z;
  as_usage : Z;
  as_running_cpu : Z;
  as_fairshare : Z;
}.

Record Demand : Type := MkDemand {
  desired : Z;
  attached : Z;
  cpu_ready : Z;
  cpu_running : Z;
}.

Definition Demand_default : Demand := MkDemand 0 0 0 0.

Module Query.
Inductive Query : Type :=
| Status (id : JobId) (reply : Reply)
| Queue (reply : Reply)
| Nodes (reply : Reply)
| Demand (reply : Reply)
| Accounts (reply : Reply).
End Query.
Abbreviation Query := Query.Query.

Module Command.
Inductive Command : Type :=
| Submit (job : Job) (reply : Reply)
| Cancel (id : JobId) (reply : Reply)
| Completed (id : JobId)
| Failed (id : JobId)
| Preempted (id : JobId)
| WorkerJoined (name : string) (capacity : Resources) (in_flight : list JobId) (reply : Reply)
| WorkerLeft (slot : SlotIndex)
| WorkerDraining (slot : SlotIndex)
| Query (query : Query).
End Command.
Abbreviation Command := Command.Command.

Module Dispatch.
Inductive Dispatch : Type :=
| Assign (slot : SlotIndex) (id : JobId) (payload : list Z) (walltime : VirtualDuration)
| Kill (slot : SlotIndex) (id : JobId)
| Preempt (slot : SlotIndex) (id : JobId) (grace : VirtualDuration).
End Dispatch.
Abbreviation Dispatch := Dispatch.Dispatch.

(** Something sent on a reply channel, one constructor per channel type. *)
Module Answer.
Inductive Answer : Type :=
| Submit (reply : Reply) (r : result (JobId * JobState) LifecycleError)
| Cancel (reply : Reply) (r : result (list JobId) LifecycleError)
| Joined (reply : Reply) (slot : SlotIndex)
| Status (reply : Reply) (state : option JobState)
| Queue (reply : Reply) (s : QueueSummary)
| Nodes (reply : Reply) (ns : list NodeSummary)
| Demand (reply : Reply) (d : Demand)
| Accounts (reply : Reply) (s : list AccountSummary).
End Answer.
Abbreviation Answer := Answer.Answer.

(** ** The ring *)

(** crossbeam's bounded queue: [push] hands the value back when the queue is
    full, [pop] returns the oldest. *)
Class ArrayQueue (Q : Type → Type) : Type := {
  q_capacity : ∀ {A}, Q A → Z;
  q_items : ∀ {A}, Q A → list A;
  q_push : ∀ {A}, Q A → A → Q A * result unit A;
  q_pop : ∀ {A}, Q A → Q A * option A;
}.

Class ArrayQueueLaws (Q : Type → Type) `{ArrayQueue Q} : Prop := {
  q_push_room : ∀ {A} (q : Q A) x, Z.of_nat (length (q_items q)) < q_capacity q →
    ∃ q', q_push q x = (q', Ok tt) ∧ q_items q' = q_items q ++ [x] ∧ q_capacity q' = q_capacity q;
  q_push_full : ∀ {A} (q : Q A) x, q_capacity q <= Z.of_nat (length (q_items q)) →
    q_push q x = (q, Err x);
  q_pop_empty : ∀ {A} (q : Q A), q_items q = [] → q_pop q = (q, None);
  q_pop_cons : ∀ {A} (q : Q A) x l, q_items q = x :: l →
    ∃ q', q_pop q = (q', Some x) ∧ q_items q' = l ∧ q_capacity q' = q_capacity q;
}.

(** A queue with these laws: a capacity and a list. *)
Definition ListQueue (A : Type) : Type := (Z * list A)%type.

#[export] Instance list_queue : ArrayQueue ListQueue := {
  q_capacity := fun A q => q.1;
  q_items := fun A q => q.2;
  q_push := fun A q x =>
    if Z.of_nat (length q.2) <? q.1 then ((q.1, q.2 ++ [x]), Ok tt) else (q, Err x);
  q_pop := fun A q => match q.2 with [] => (q, None) | x :: l => ((q.1, l), Some x) end;
}.

#[export] Instance list_queue_laws : ArrayQueueLaws ListQueue.
Proof.
  split; intros A [c l] *; simpl.
  - intros Hl%Z.ltb_lt. rewrite Hl. eauto.
  - intros Hl%Z.ltb_ge. by rewrite Hl.
  - by intros ->.
  - intros ->. eauto.
Qed.

Section Rings.
Context {Q : Type → Type} `{ArrayQueue Q}.

(** [Outbox::push] and [pop]. *)
Definition outbox_push (outbox : Q Dispatch) (d : Dispatch) : Q Dispatch * result unit Dispatch :=
  q_push outbox d.

Definition outbox_pop (outbox : Q Dispatch) : Q Dispatch * option Dispatch := q_pop outbox.

Definition outbox_len (outbox : Q Dispatch) : nat := length (q_items outbox).

(** [Inbox::push] and [pop]. *)
Definition inbox_push (inbox : Q Command) (c : Command) : Q Command * result unit Command :=
  q_push inbox c.

Definition inbox_pop (inbox : Q Command) : Q Command * option Command := q_pop inbox.

Definition inbox_len (inbox : Q Command) : nat := length (q_items inbox).

(** [push_with_retry]: between two attempts the caller sleeps, and whatever the
    consumer and the other producers do in the [k]-th pause is [world k]. *)
Fixpoint push_with_retry (world : nat → Q Command → Q Command) (inbox : Q Command)
    (command : Command) (attempts : nat) : Q Command * result unit Command :=
  match attempts with
  | O => (inbox, Err command)
  | S attempts =>
      match inbox_push inbox command with
      | (inbox, Ok tt) => (inbox, Ok tt)
      | (inbox, Err back) => push_with_retry world (world attempts inbox) back attempts
      end
  end.
End Rings.

(** ** Facts *)

Section Facts.
Context {Q : Type → Type} `{ArrayQueueLaws Q}.

(** Either way a push hands back exactly what was pushed or enqueues it last. *)
Lemma q_push_cases {A} (q : Q A) x :
  (∃ q', q_push q x = (q', Ok tt) ∧ q_items q' = q_items q ++ [x] ∧ q_capacity q' = q_capacity q) ∨
  (q_push q x = (q, Err x) ∧ q_capacity q <= Z.of_nat (length (q_items q))).
Proof.
  destruct (Z.lt_ge_cases (Z.of_nat (length (q_items q))) (q_capacity q)) as [Hl|Hl].
  - left. by apply q_push_room.
  - right. split; [by apply q_push_full|done].
Qed.

Lemma push_with_retry_back world (inbox : Q Command) c n inbox' r :
  push_with_retry world inbox c n = (inbox', Err r) → r = c.
Proof.
  revert inbox. induction n as [|n IH]; intros inbox E; simpl in E; [by simplify_eq|].
  unfold inbox_push in E. destruct (q_push_cases inbox c) as [(q' & Ep & _)|[Ep _]]; rewrite Ep in E;
    simpl in E; [done|]. by eapply IH.
Qed.
End Facts.
