(* ===== verification/Frame.v ===== *)
(** * What the lifecycle calls leave alone

    Facts about the calls of [Scheduler] that hold of every outcome, whatever
    the invariant: a call only rewrites jobs in place, changing nothing of a job
    but its state and its preemption count, and it records no dependency edge
    but those of a job being submitted.  [arena_rel] compares two arenas slot by
    slot; it is also the relation that ties a live engine to its replayed log. *)

From stdpp Require Import base list numbers option sorting sets relations.
From Stdlib Require Import ZArith Lia.
From S2P Require Import Prelude Domain Arena Job Inventory Priority ReadySet Eligibility.
From S2P Require Import Decay FairShare Pack Backfill Preempt Scheduler.
Open Scope Z_scope.

(** ** Arenas, slot by slot *)

Section ArenaRel.
Context {T : Type} (R : relation T).

Inductive slot_rel : Slot T → Slot T → Prop :=
| slot_rel_occupied g v w : R v w → slot_rel (Slot.Occupied g v) (Slot.Occupied g w)
| slot_rel_vacant g n : slot_rel (Slot.Vacant g n) (Slot.Vacant g n).

Record arena_rel (a b : Arena T) : Prop := {
  ar_slots : Forall2 slot_rel (slots a) (slots b);
  ar_free : free_head a = free_head b;
  ar_len : arena_len a = arena_len b;
}.

Lemma arena_rel_vec a b i :
  arena_rel a b → option_Forall2 slot_rel (vec_get (slots a) i) (vec_get (slots b) i).
Proof.
  intros [Hs _ _]. destruct (Z.lt_ge_cases i 0) as [Hi|Hi].
  - assert (∀ (l : list (Slot T)), vec_get l i = None) as Hn.
    { intros l. unfold vec_get, in_range. by destruct (Z.leb_spec 0 i); [lia|]. }
    rewrite !Hn. constructor.
  - rewrite !vec_get_lookup by done. by apply Forall2_lookup.
Qed.

Lemma arena_rel_get a b id :
  arena_rel a b → option_Forall2 R (Arena_get a id) (Arena_get b id).
Proof.
  intros Hab. unfold Arena_get. destruct (arena_rel_vec a b (JobId_index id) Hab) as [x y Hxy|]; [|constructor].
  destruct Hxy as [g v w Hvw|]; [|constructor]. destruct (g =? _); by constructor.
Qed.

Lemma arena_rel_Some a b id w :
  arena_rel a b → Arena_get b id = Some w → ∃ v, Arena_get a id = Some v ∧ R v w.
Proof. intros Hab Hw. destruct (arena_rel_get a b id Hab) as [v w' ?|]; simplify_eq. eauto. Qed.

Lemma arena_rel_Some_l a b id v :
  arena_rel a b → Arena_get a id = Some v → ∃ w, Arena_get b id = Some w ∧ R v w.
Proof. intros Hab Hw. destruct (arena_rel_get a b id Hab) as [v' w ?|]; simplify_eq. eauto. Qed.

Lemma arena_rel_None a b id : arena_rel a b → Arena_get a id = None → Arena_get b id = None.
Proof. intros Hab Hn. destruct (arena_rel_get a b id Hab) as [v' w ?|]; simplify_eq. done. Qed.

Lemma arena_rel_length a b : arena_rel a b → length (slots a) = length (slots b).
Proof. intros [Hs _ _]. by eapply Forall2_length. Qed.

Lemma Arena_set_slots (a : Arena T) id v w :
  Arena_get a id = Some w →
  Arena_set a id v =
    MkArena (<[Z.to_nat (JobId_index id) := Slot.Occupied (JobId_generation id) v]> (slots a))
            (free_head a) (arena_len a) ∧
  slots a !! Z.to_nat (JobId_index id) = Some (Slot.Occupied (JobId_generation id) w).
Proof.
  intros Hg%Arena_get_Some. unfold Arena_set. rewrite Hg, Z.eqb_refl. split; [done|].
  by apply vec_get_Some in Hg as [_ ?].
Qed.

(** Both sides rewrite the same job. *)
Lemma arena_rel_set a b id v w :
  arena_rel a b → R v w → arena_rel (Arena_set a id v) (Arena_set b id w).
Proof.
  intros Hab Hvw. destruct (Arena_get a id) as [x|] eqn:Ha.
  - destruct (arena_rel_Some_l _ _ _ _ Hab Ha) as (y & Hb & _).
    destruct (Arena_set_slots a id v x Ha) as [-> _]. destruct (Arena_set_slots b id w y Hb) as [-> _].
    destruct Hab as [Hs ? ?]. split; simpl; try done. apply Forall2_insert; [done|]. by constructor.
  - by rewrite !Arena_set_stale by (done || by eapply arena_rel_None).
Qed.

Lemma arena_rel_next_id a b : arena_rel a b → Arena_next_id a = Arena_next_id b.
Proof.
  intros Hab. unfold Arena_next_id. rewrite (ar_free _ _ Hab), (arena_rel_length _ _ Hab).
  destruct (free_head b) as [i|]; [|done]. unfold vec_at.
  destruct (arena_rel_vec a b i Hab) as [x y []|]; done.
Qed.

Lemma arena_rel_insert a b v w :
  arena_rel a b → R v w →
  match Arena_insert a v, Arena_insert b w with
  | Done (a', i), Done (b', k) => i = k ∧ arena_rel a' b'
  | Panic, Panic | NoFuel, NoFuel => True
  | _, _ => False
  end.
Proof.
  intros Hab Hvw. unfold Arena_insert. rewrite (ar_free _ _ Hab), (arena_rel_length _ _ Hab), (ar_len _ _ Hab).
  destruct (free_head b) as [i|].
  - unfold vec_at. pose proof (arena_rel_vec a b i Hab) as Hi.
    destruct (vec_get (slots a) i) as [x|] eqn:Ex, (vec_get (slots b) i) as [y|] eqn:Ey; inversion Hi as [?? Hxy|];
      simplify_eq; [|done]. simpl. destruct Hxy as [|g n]; [done|].
    rewrite !vec_put_Done by (by eapply vec_get_range). simpl. split; [done|].
    split; simpl; try done. apply Forall2_insert; [apply Hab|]. by constructor.
  - unfold u32_from_usize. destruct (_ <=? _); [|done]. simpl. split; [done|]. split; simpl; try done.
    apply Forall2_app; [apply Hab|]. repeat constructor. done.
Qed.

Lemma arena_rel_remove a b id :
  arena_rel a b →
  arena_rel (Arena_remove a id).1 (Arena_remove b id).1 ∧
  option_Forall2 R (Arena_remove a id).2 (Arena_remove b id).2.
Proof.
  intros Hab. unfold Arena_remove.
  destruct (arena_rel_vec a b (JobId_index id) Hab) as [x y [g v w Hvw|g n]|];
    [|split; [done|constructor]..].
  destruct (negb _); (split; [|by constructor]); [done|].
  split; simpl; [|done|]. 
  - rewrite (ar_free _ _ Hab). apply Forall2_insert; [apply Hab|constructor].
  - by rewrite (ar_len _ _ Hab).
Qed.

#[export] Instance arena_rel_refl : Reflexive R → Reflexive arena_rel.
Proof.
  intros HR a. split; try done. assert (Reflexive slot_rel) by (intros []; by constructor). done.
Qed.

#[export] Instance arena_rel_trans : Transitive R → Transitive arena_rel.
Proof.
  intros HR a b c [H1 ? ?] [H2 ? ?]. split; [|congruence..].
  assert (Transitive slot_rel). { intros x y z [] Hyz; inversion Hyz; simplify_eq; constructor; by etrans. }
  by etrans.
Qed.

#[export] Instance arena_rel_sym : Symmetric R → Symmetric arena_rel.
Proof.
  intros HR a b [H1 ? ?]. split; [|congruence..].
  assert (Symmetric slot_rel) by (intros x y []; by constructor). done.
Qed.

(** One side rewrites a job. *)
Lemma arena_rel_set_r a id v w :
  Reflexive R → Arena_get a id = Some v → R v w → arena_rel a (Arena_set a id w).
Proof.
  intros HR Ha Hvw. rewrite <-(Arena_set_same a id v Ha) at 1. by apply arena_rel_set.
Qed.
End ArenaRel.

Lemma arena_rel_eq {T} (a b : Arena T) : arena_rel eq a b → a = b.
Proof.
  destruct a as [sa ha na], b as [sb hb nb]. intros [Hs ? ?]. simpl in *. subst. f_equal.
  apply list_eq_Forall2. eapply Forall2_impl; [done|]. by intros x y [g v w ->|].
Qed.

(** Two arenas of one shape that answer alike are equal. *)
Lemma arena_rel_ext {T} (R : relation T) a b :
  arena_rel R a b → Z.of_nat (length (slots a)) <= u32_max + 1 →
  (∀ x, Arena_get a x = Arena_get b x) → a = b.
Proof.
  intros Hab Hlen Hget. apply arena_rel_eq. destruct Hab as [Hs Hf Hn]. split; [|done..].
  apply Forall2_same_length_lookup. split; [by eapply Forall2_length|]. intros i x y Hx Hy.
  pose proof (Forall2_lookup_lr _ _ _ _ _ _ Hs Hx Hy) as Hxy. destruct Hxy as [g v w _|]; constructor.
  assert (0 <= Z.of_nat i <= u32_max) as Hi by (apply lookup_lt_Some in Hx; lia).
  specialize (Hget (JobId_new (Z.of_nat i) g)). unfold Arena_get in Hget.
  rewrite !JobId_index_new, !JobId_generation_new, !vec_get_lookup, !Nat2Z.id, Hx, Hy, Z.eqb_refl in Hget by (done || lia).
  congruence.
Qed.

Lemma arena_rel_mono {T} (R R' : relation T) a b :
  (∀ v w, R v w → R' v w) → arena_rel R a b → arena_rel R' a b.
Proof.
  intros HR [Hs ? ?]. split; try done. eapply Forall2_impl; [done|]. intros x y []; constructor; auto.
Qed.

(** ** Jobs, but for their state and preemption count *)

Definition job_core (j : Job) : Job := job_with_state (job_with_preemptions j 0) JobState.Submitted.

Definition job_like (j j' : Job) : Prop := job_core j = job_core j'.

#[export] Instance job_like_equiv : Equivalence job_like.
Proof. unfold job_like. split; [done|by intros ? ? ->|by intros ? ? ? -> ->]. Qed.

Lemma job_like_state j st : job_like j (job_with_state j st).
Proof. by destruct j. Qed.

Lemma job_like_preemptions j n : job_like j (job_with_preemptions j n).
Proof. by destruct j. Qed.

Lemma job_like_fields j j' :
  job_like j j' → account j' = account j ∧ priority_class j' = priority_class j ∧
    request j' = request j ∧ walltime_limit j' = walltime_limit j ∧ deps j' = deps j ∧
    payload j' = payload j ∧ submit_time j' = submit_time j.
Proof. destruct j, j'. unfold job_like, job_core. simpl. intros [=]. by subst. Qed.

Lemma try_transition_like j st j' : try_transition j st = Ok j' → job_like j j'.
Proof. intros [_ ->]%try_transition_Ok. apply job_like_state. Qed.

#[export] Hint Resolve try_transition_like job_like_state job_like_preemptions : rt.

Lemma job_like_set jobs id j j' :
  Arena_get jobs id = Some j → job_like j j' → arena_rel job_like jobs (Arena_set jobs id j').
Proof. intros. eapply arena_rel_set_r; [apply _|done|done]. Qed.

(** What a call that returned left alone: the jobs but for their states, and
    the set of edges, which may lose some. *)
Definition call_frame {A} (s : Scheduler) (jobs : Arena Job) (o : exec (outcome A)) : Prop :=
  ∀ s' jobs' r, o = Done (s', jobs', r) →
    arena_rel job_like jobs jobs' ∧ edges (sc_deps s') ⊆ edges (sc_deps s).

(** ** Edges *)

Lemma vec_put_inv {A} (v : list A) i x v' :
  vec_put v i x = Done v' → ∃ y, vec_get v i = Some y ∧ v' = <[Z.to_nat i := x]> v.
Proof.
  unfold vec_put. destruct (in_range v i) eqn:E; [|done]. intros [= <-].
  apply in_range_spec in E. destruct (vec_get_total v i E) as [y ?]. eauto.
Qed.

Lemma clear_index_edges t k t' : clear_index t k = Done t' → edges t' ⊆ edges t.
Proof.
  unfold clear_index. intros E. exec_inv. destruct (vec_put_inv _ _ _ _ E2) as (l & Hl & ->).
  intros d Hd. apply (concat_insert_elem _ _ _ _ _ Hl) in Hd as [?|?%elem_of_nil]; done.
Qed.

Lemma satisfy_edges l acc t' p' :
  exec_fold satisfy acc l = Done (t', p') → dependents t' = dependents acc.1.
Proof.
  revert acc. induction l as [|d l IH]; intros [t p] E; simpl in E; [by simplify_eq|].
  exec_inv. rewrite (IH _ E). unfold satisfy in E0. exec_inv.
  destruct (negb _); [by simplify_eq|]. exec_inv. destruct (0 <? _); [|by simplify_eq]. exec_inv. done.
Qed.

Lemma tracker_on_completed_edges t id p t' p' :
  tracker_on_completed t id p = Done (t', p') → edges t' ⊆ edges t.
Proof.
  unfold tracker_on_completed. destruct (negb _); [by intros [= <- _]|]. intros E. exec_inv.
  destruct r0 as [t1 p1]. exec_inv. simplify_eq. etrans; [by eapply clear_index_edges|].
  unfold edges. by rewrite (satisfy_edges _ _ _ _ E1).
Qed.

Lemma cascade_loop_edges fuel t id stack c t' c' :
  cascade_loop fuel t id stack c = Done (t', c') → edges t' ⊆ edges t.
Proof.
  revert t stack c. induction fuel as [|fuel IH]; intros t [|x stack] c E; simpl in E;
    [by simplify_eq|done|by simplify_eq|].
  destruct (negb (is_tracked t x)); [by eapply IH|]. exec_inv.
  etrans; [by eapply IH|]. by eapply clear_index_edges.
Qed.

Lemma register_dep_edges jobs id acc d acc' :
  register_dep jobs id acc d = Done acc' → edges acc'.1 ⊆ id :: edges acc.1.
Proof.
  destruct acc as [t n]. unfold register_dep. destruct (negb _).
  { intros [= <-]. simpl. set_solver. }
  assert (edges (tracker_reserve_slots t (JobId_index d + 1)) = edges t) as Hr.
  { unfold tracker_reserve_slots, edges. destruct (_ <? _); [apply concat_grow|done]. }
  intros E. apply exec_bind_Done in E as (o & _ & E). apply exec_bind_Done in E as (t1 & E1 & E).
  apply exec_bind_Done in E as (l & El & E). apply exec_bind_Done in E as (ds & Eds & E). injection E as <-.
  assert (edges t1 ⊆ edges t) as Hs.
  { rewrite <-Hr. destruct (negb (o =? d)); [|by injection E1 as <-].
    apply exec_bind_Done in E1 as (t2 & E2%clear_index_edges & E1). exec_inv. done. }
  unfold vec_at, expect in El. destruct (vec_get (dependents t1) _) as [l'|] eqn:Hl; [|done].
  injection El as ->. destruct (vec_put_inv _ _ _ _ Eds) as (l' & Hl' & ->). rewrite Hl in Hl'. injection Hl' as <-.
  intros x Hx. simpl in Hx. unfold edges in Hx. simpl in Hx.
  apply (concat_insert_elem _ _ _ _ _ Hl) in Hx as [Hx|Hx].
  - right. by apply Hs.
  - apply elem_of_app in Hx as [Hx| ->%list_elem_of_singleton]; [|by left]. right. apply Hs.
    apply (deps_of_edges t1 d). unfold deps_of. by rewrite Hl.
Qed.

Lemma register_edges t id job jobs t' r :
  register t id job jobs = Done (t', r) → edges t' ⊆ id :: edges t.
Proof.
  unfold register. destruct (classify id job jobs) as [rd|]; [|intros [= <- _]; set_solver].
  assert (∀ acc l acc', exec_fold (register_dep jobs id) acc l = Done acc' → edges acc'.1 ⊆ id :: edges acc.1) as Hf.
  { intros acc l. revert acc. induction l as [|d l IH]; intros acc acc' E; simpl in E; [simplify_eq; set_solver|].
    exec_inv. apply register_dep_edges in E0. apply IH in E. set_solver. }
  assert (edges (tracker_reserve_slots t (JobId_index id + 1)) = edges t) as Hr.
  { unfold tracker_reserve_slots, edges. destruct (_ <? _); [apply concat_grow|done]. }
  destruct rd; [| |intros [= <- _]; set_solver]; intros E; exec_inv; destruct r2 as [t2 n2]; exec_inv; simplify_eq;
    apply Hf in E2; apply clear_index_edges in E0; rewrite Hr in E0; unfold edges in *; simpl in *; set_solver.
Qed.

(** ** The calls *)

Lemma promote_frame fs now config acc l acc' :
  exec_fold (promote fs now config) acc l = Done acc' → arena_rel job_like acc.2 acc'.2.
Proof.
  revert acc. induction l as [|d l IH]; intros acc E; cbn [exec_fold] in E; [by simplify_eq|].
  apply exec_bind_Done in E as (acc1 & E1 & E). etrans; [|by apply IH].
  destruct acc as [rs jobs]. unfold promote in E1. destruct (Arena_get jobs d) as [j|] eqn:Hj; [|by simplify_eq].
  destruct (try_transition j JobState.Ready) as [j'|] eqn:Et; [|by simplify_eq]. exec_inv. simpl.
  eauto using job_like_set with rt.
Qed.

Lemma cascade_frame acc l acc' :
  exec_fold cascade_one acc l = Done acc' → arena_rel job_like acc.2 acc'.2.
Proof.
  revert acc. induction l as [|d l IH]; intros acc E; cbn [exec_fold] in E; [by simplify_eq|].
  apply exec_bind_Done in E as (acc1 & E1 & E). etrans; [|by apply IH].
  destruct acc as [rs jobs]. unfold cascade_one in E1. destruct (Arena_get jobs d) as [j|] eqn:Hj; [|by simplify_eq].
  apply exec_bind_Done in E1 as (rs1 & _ & E1).
  destruct (try_transition j JobState.Cancelled) as [j'|] eqn:Et; [|by simplify_eq]. exec_inv. simpl.
  eauto using job_like_set with rt.
Qed.

(** The calls that end a job share the shape of their outcome. *)
Ltac frame_open :=
  intros s' jobs' r E;
  match type of E with context [Arena_get ?jobs ?id] =>
    destruct (Arena_get jobs id) as [j|] eqn:Hj; [|by injection E as <- <- _] end.

Section Frames.
Context (s : Scheduler) (jobs : Arena Job) (now : VirtualTime) (config : CycleConfig) (id : JobId).

Lemma on_completed_frame : call_frame s jobs (on_completed s id jobs now config).
Proof.
  unfold on_completed. frame_open.
  destruct (try_transition j _) as [j'|] eqn:Et; [|by injection E as <- <- _].
  apply exec_bind_Done in E as (fs & _ & E). apply exec_bind_Done in E as ([t p] & Ec & E).
  apply exec_bind_Done in E as ([rs jobs1] & Ep & E). injection E as <- <- _. simpl.
  split; [|by eapply tracker_on_completed_edges].
  etrans; [|exact (promote_frame _ _ _ _ _ _ Ep)]. eauto using job_like_set with rt.
Qed.

Lemma on_failed_frame : call_frame s jobs (on_failed s id jobs now config).
Proof.
  unfold on_failed. frame_open.
  destruct (try_transition j _) as [j'|] eqn:Et; [|by injection E as <- <- _].
  apply exec_bind_Done in E as (fs & _ & E). apply exec_bind_Done in E as ([t p] & Ec & E).
  apply exec_bind_Done in E as ([rs jobs1] & Ep & E). injection E as <- <- _. simpl.
  split; [|by eapply cascade_loop_edges].
  etrans; [|exact (cascade_frame _ _ _ Ep)]. eauto using job_like_set with rt.
Qed.

Lemma cancel_frame : call_frame s jobs (cancel s id jobs now config).
Proof.
  unfold cancel. frame_open. apply exec_bind_Done in E as (rs0 & _ & E).
  destruct (try_transition j _) as [j'|] eqn:Et; [|by injection E as <- <- _].
  apply exec_bind_Done in E as (fs & _ & E). apply exec_bind_Done in E as ([t p] & Ec & E).
  apply exec_bind_Done in E as ([rs jobs1] & Ep & E). injection E as <- <- _. simpl.
  split; [|by eapply cascade_loop_edges].
  etrans; [|exact (cascade_frame _ _ _ Ep)]. eauto using job_like_set with rt.
Qed.

Lemma requeue_frame : call_frame s jobs (requeue s id jobs now config).
Proof.
  unfold requeue. frame_open.
  destruct (if bool_decide _ then _ else _) as [j1|] eqn:Ee; [|by injection E as <- <- _].
  assert (job_like j j1) as H1.
  { case_bool_decide; [eauto with rt|by injection Ee as <-]. }
  assert (Arena_get (Arena_set jobs id j1) id = Some j1) as Hj1.
  { rewrite (Arena_set_get _ _ _ _ _ Hj). by rewrite decide_True. }
  destruct (try_transition j1 _) as [j2|] eqn:Et.
  - exec_inv. simplify_eq. split; [|done]. etrans; [by eapply job_like_set|]. eauto using job_like_set with rt.
  - injection E as <- <- _. split; [|done]. eauto using job_like_set with rt.
Qed.

Lemma preempt_frame : call_frame s jobs (Done (preempt s id jobs)).
Proof.
  unfold preempt. frame_open.
  destruct (try_transition j _) as [j'|] eqn:Et; [|by injection E as <- <- _].
  injection E as <- <- _. split; [|done]. eauto using job_like_set with rt.
Qed.

Lemma restore_running_frame : call_frame s jobs (restore_running s id jobs now config).
Proof.
  unfold restore_running. frame_open. apply exec_bind_Done in E as ([rs b] & _ & E).
  destruct (try_transition j _) as [j'|] eqn:Et; [|by injection E as <- <- _].
  exec_inv. simplify_eq. split; [|done]. eauto using job_like_set with rt.
Qed.
End Frames.

Lemma on_preempted_frame s jobs now config id :
  call_frame s jobs (on_preempted s id jobs now config).
Proof.
  unfold on_preempted. frame_open.
  destruct (negb _); [by injection E as <- <- _|]. apply requeue_frame in E as [E1 E2].
  split; [|done]. etrans; [|exact E1]. eauto using job_like_set with rt.
Qed.

Lemma submit_frame s jobs now config id s' jobs' r :
  submit s id jobs now config = Done (s', jobs', r) →
  arena_rel job_like jobs jobs' ∧ edges (sc_deps s') ⊆ id :: edges (sc_deps s).
Proof.
  assert (edges (sc_deps s) ⊆ id :: edges (sc_deps s)) as Hsub by set_solver.
  unfold submit. intros E. destruct (Arena_get jobs id) as [j|] eqn:Hj; [|by injection E as <- <- _].
  destruct (negb _); [by injection E as <- <- _|].
  destruct (ensure _ _) as [fs [u|]]; [|by injection E as <- <- _].
  apply exec_bind_Done in E as ([t rd] & Er%register_edges & E).
  destruct rd as [rd|]; [|by injection E as <- <- _]. cbn [expect exec_bind] in E. 
  destruct (try_transition j _) as [j'|] eqn:Et; [|by injection E as <- <- _].
  apply exec_bind_Done in E as (rs & _ & E). injection E as <- <- _. split; [|done].
  eauto using job_like_set with rt.
Qed.

(** ** Handles issued so far *)

(** The handle was handed out at some time: its slot exists and has not been
    given a lower generation since. *)
Definition issued (a : Arena Job) (x : JobId) : Prop :=
  match vec_get (slots a) (JobId_index x) with
  | Some (Slot.Occupied g _) => JobId_generation x <= g
  | Some (Slot.Vacant g _) => JobId_generation x < g
  | None => False
  end.

Lemma issued_live a x j : Arena_get a x = Some j → issued a x.
Proof. intros H%Arena_get_Some. unfold issued. rewrite H. lia. Qed.

Lemma issued_rel R a b x : arena_rel R a b → issued a x → issued b x.
Proof.
  intros Hab. unfold issued. by destruct (arena_rel_vec R a b (JobId_index x) Hab) as [? ? []|].
Qed.

(** The handle of a new job was never issued, and all others stay so. *)
Lemma issued_insert a v a' id :
  Arena_wf a → Arena_insert a v = Done (a', id) →
  ¬ issued a id ∧ issued a' id ∧ ∀ x, issued a x → issued a' x.
Proof.
  intros Hwf E. unfold Arena_insert in E. unfold issued. destruct (free_head a) as [i|] eqn:Ef.
  - unfold vec_at, expect in E. destruct (vec_get (slots a) i) as [[g w|g n]|] eqn:Ei; [done| |done].
    simpl in E. pose proof (vec_get_range _ _ _ Ei) as Hr. rewrite vec_put_Done in E by done. simpl in E.
    injection E as <- <-. assert (0 <= i <= u32_max) as Hi by (pose proof (wf_bound _ Hwf); lia).
    simpl. rewrite !JobId_index_new, !JobId_generation_new, Ei by done.
    split_and!; [lia|rewrite vec_get_insert, decide_True by done; lia|].
    intros x. rewrite (vec_get_insert (slots a) i) by done. case_decide as Hx; [|done]. rewrite <-Hx, Ei. lia.
  - unfold u32_from_usize in E. destruct (Z.leb_spec (Z.of_nat (length (slots a))) u32_max); [|done].
    simpl in E. injection E as <- <-. simpl. rewrite JobId_index_new, JobId_generation_new by lia.
    split_and!; [|rewrite vec_get_snoc, decide_True by done; lia|].
    + destruct (vec_get (slots a) _) eqn:E; [|tauto]. apply vec_get_range in E. lia.
    + intros x. rewrite vec_get_snoc. case_decide as Hx; [|done]. destruct (vec_get (slots a) _) eqn:E; [|done].
      apply vec_get_range in E. lia.
Qed.

(** Handles outlive a removal unless the slot's generation wraps around. *)
Lemma issued_remove a id x :
  Arena_wf a → JobId_generation id < u32_max → issued a x → issued (Arena_remove a id).1 x.
Proof.
  intros Hwf Hg. unfold Arena_remove, issued.
  destruct (vec_get (slots a) (JobId_index id)) as [[g v|g n]|] eqn:Ei; [|done..].
  destruct (Z.eqb_spec g (JobId_generation id)) as [->|]; [|done]. simpl. rewrite vec_get_insert by (by eapply vec_get_range).
  case_decide as Hx; [|done]. rewrite <-Hx, Ei.
  pose proof (wf_gens _ Hwf _ _ Ei) as [? _]. simpl in *. unfold wrap32. rewrite Z.mod_small; lia.
Qed.

(** ** Forgetting a finished job *)

Lemma Sched_inv_remove s jobs id j :
  Sched_inv s jobs → Arena_get jobs id = Some j → is_terminal (state j) = true →
  Sched_inv s (Arena_remove jobs id).1.
Proof.
  intros [[Ha Hsl Hj] Hd [E Hro] Hfs] Hid Ht.
  destruct (Arena_remove_spec jobs id Ha) as (_ & Ha' & Hget).
  assert (∀ x, job_state (Arena_remove jobs id).1 x = if decide (id = x) then None else job_state jobs x) as Hst.
  { intros x. unfold job_state. rewrite Hget. by case_decide. }
  assert (job_state jobs id = Some (state j)) as Hsid by (unfold job_state; by rewrite Hid).
  split; [split|by eapply deps_ok_forget|exists E; split|done].
  - done.
  - rewrite (Arena_remove_live _ _ _ Hid). simpl. by rewrite length_insert.
  - intros x k. rewrite Hget. case_decide; [done|]. apply Hj.
  - apply Hro.
  - apply Hro.
  - intros e Hin. destruct (ro_sound _ _ _ Hro e Hin) as (k & Hk & Hks & ?). exists k. rewrite Hget.
    rewrite decide_False; [done|]. intros Ex. rewrite <-Ex, Hid in Hk. injection Hk as ->. by rewrite Hks in Ht.
  - intros x. rewrite Hst. case_decide; [done|]. apply Hro.
Qed.

(** A handle of the arena is never the tracker's sentinel. *)
Lemma handle_not_sentinel jobs x :
  Z.of_nat (length (slots jobs)) <= u32_max → issued jobs x → x ≠ NO_OWNER.
Proof.
  intros Hl Hx ->. unfold issued in Hx. destruct (vec_get (slots jobs) (JobId_index NO_OWNER)) as [sl|] eqn:E; [|done].
  apply vec_get_range in E. vm_compute (JobId_index NO_OWNER) in E. lia.
Qed.

(** Whoever waits for another is [Blocked]. *)
Lemma dep_edge_blocked s jobs a x :
  Sched_inv s jobs → dep_edge (sc_deps s) a x → job_state jobs x = Some JobState.Blocked.
Proof.
  intros Hinv (_ & Hx & Hin). apply (do_blocked _ _ (si_deps _ _ Hinv)). split; [done|].
  apply count_id_elem. by eapply deps_of_edges.
Qed.
