(* ===== verification/Engine.v ===== *)
(** * The daemon's engine

    [crates/taskerd/src/engine.rs]: the scheduler thread.  The engine owns the
    job arena, the slot inventory, the scheduler and the running set; it applies
    commands, runs one scheduling cycle per tick, and logs every transition to
    its journal, which holds replies and assignments back until the log is on
    disk.  This file has the state and the operations; [EngineInv] states what
    holds between them and [Recovery] rebuilds an engine from the log.

    Metrics and tracing only report and are left out, with the two fields that
    exist for them; so are the scratch vectors, which every use clears. *)

From stdpp Require Import base strings list numbers option.
From Stdlib Require Import ZArith Lia.
From S2P Require Import Prelude Domain Arena Job Inventory Priority ReadySet Eligibility.
From S2P Require Import Decay FairShare Pack Backfill Preempt Scheduler Cycle.
From S2P Require Import Codec LogRecord Log Snapshot Store Journal Command.
Open Scope Z_scope.
Open Scope list_scope.

(** ** Configuration *)

(** The fields of [DaemonConfig] the engine reads; durations in nanoseconds. *)
Record DaemonConfig : Type := MkDaemonConfig {
  dc_drain_budget : Z;
  dc_heartbeat_timeout : Z;
  dc_worker_cpu_millis : Z;
  dc_min_workers : Z;
  dc_max_workers : Z;
  dc_shares : list (AccountId * Z);
  dc_retain : Z;
  dc_cycle : CycleConfig;
}.

Definition DaemonConfig_default : DaemonConfig :=
  MkDaemonConfig 4096 10000000000 4000 1 8 [] 300000000000
    (MkCycleConfig
       (MkPriorityConfig PriorityWeights_default (duration_from_secs 3600)
          (MkResources u32_max u64_max u8_max))
       (MkFairShareConfig (duration_from_secs 3600))
       (MkPreemptConfig (Some PriorityClass.Urgent) 3 (duration_from_secs 5))
       PackBudget_default 10000).

(** The fields of [Engine] that [build] sets and nothing writes again. *)
Record EngineConfig : Type := MkEngineConfig {
  ec_cycle : CycleConfig;
  ec_drain_budget : Z;
  ec_worker_cpu : Z;
  ec_min_workers : Z;
  ec_max_workers : Z;
  ec_retain : VirtualDuration;
  ec_reconcile_window : VirtualDuration;
}.

(** ** State *)

Abbreviation EngineJournal := (@Journal Answer Dispatch) (only parsing).
Abbreviation EngineCommit := (@Commit Answer Dispatch) (only parsing).

Record Engine : Type := MkEngine {
  eg_config : EngineConfig;
  eg_jobs : Arena Job;
  eg_inventory : SlotInventory;
  eg_scheduler : Scheduler;
  eg_running : list RunningJob;
  eg_names : list (option string);
  eg_overflow : list Dispatch;
  eg_cycles : Z;
  eg_demand : Demand;
  eg_journal : option EngineJournal;
  eg_terminal : list (VirtualTime * JobId);
  eg_reconciling : list JobId;
  eg_reconcile_until : option VirtualTime;
  eg_quiescing : bool;
}.

Definition with_sched (e : Engine) (s : Scheduler) (jobs : Arena Job) : Engine :=
  MkEngine (eg_config e) jobs (eg_inventory e) s (eg_running e) (eg_names e) (eg_overflow e)
    (eg_cycles e) (eg_demand e) (eg_journal e) (eg_terminal e) (eg_reconciling e)
    (eg_reconcile_until e) (eg_quiescing e).

Definition with_jobs (e : Engine) (jobs : Arena Job) : Engine := with_sched e (eg_scheduler e) jobs.

Definition with_inventory (e : Engine) (inv : SlotInventory) : Engine :=
  MkEngine (eg_config e) (eg_jobs e) inv (eg_scheduler e) (eg_running e) (eg_names e)
    (eg_overflow e) (eg_cycles e) (eg_demand e) (eg_journal e) (eg_terminal e) (eg_reconciling e)
    (eg_reconcile_until e) (eg_quiescing e).

Definition with_running (e : Engine) (running : list RunningJob) : Engine :=
  MkEngine (eg_config e) (eg_jobs e) (eg_inventory e) (eg_scheduler e) running (eg_names e)
    (eg_overflow e) (eg_cycles e) (eg_demand e) (eg_journal e) (eg_terminal e) (eg_reconciling e)
    (eg_reconcile_until e) (eg_quiescing e).

Definition with_names (e : Engine) (names : list (option string)) : Engine :=
  MkEngine (eg_config e) (eg_jobs e) (eg_inventory e) (eg_scheduler e) (eg_running e) names
    (eg_overflow e) (eg_cycles e) (eg_demand e) (eg_journal e) (eg_terminal e) (eg_reconciling e)
    (eg_reconcile_until e) (eg_quiescing e).

Definition with_overflow (e : Engine) (overflow : list Dispatch) : Engine :=
  MkEngine (eg_config e) (eg_jobs e) (eg_inventory e) (eg_scheduler e) (eg_running e) (eg_names e)
    overflow (eg_cycles e) (eg_demand e) (eg_journal e) (eg_terminal e) (eg_reconciling e)
    (eg_reconcile_until e) (eg_quiescing e).

Definition with_cycles (e : Engine) (n : Z) : Engine :=
  MkEngine (eg_config e) (eg_jobs e) (eg_inventory e) (eg_scheduler e) (eg_running e) (eg_names e)
    (eg_overflow e) n (eg_demand e) (eg_journal e) (eg_terminal e) (eg_reconciling e)
    (eg_reconcile_until e) (eg_quiescing e).

Definition with_demand (e : Engine) (d : Demand) : Engine :=
  MkEngine (eg_config e) (eg_jobs e) (eg_inventory e) (eg_scheduler e) (eg_running e) (eg_names e)
    (eg_overflow e) (eg_cycles e) d (eg_journal e) (eg_terminal e) (eg_reconciling e)
    (eg_reconcile_until e) (eg_quiescing e).

Definition with_journal (e : Engine) (j : option EngineJournal) : Engine :=
  MkEngine (eg_config e) (eg_jobs e) (eg_inventory e) (eg_scheduler e) (eg_running e) (eg_names e)
    (eg_overflow e) (eg_cycles e) (eg_demand e) j (eg_terminal e) (eg_reconciling e)
    (eg_reconcile_until e) (eg_quiescing e).

Definition with_terminal (e : Engine) (t : list (VirtualTime * JobId)) : Engine :=
  MkEngine (eg_config e) (eg_jobs e) (eg_inventory e) (eg_scheduler e) (eg_running e) (eg_names e)
    (eg_overflow e) (eg_cycles e) (eg_demand e) (eg_journal e) t (eg_reconciling e)
    (eg_reconcile_until e) (eg_quiescing e).

Definition with_reconciling (e : Engine) (l : list JobId) : Engine :=
  MkEngine (eg_config e) (eg_jobs e) (eg_inventory e) (eg_scheduler e) (eg_running e) (eg_names e)
    (eg_overflow e) (eg_cycles e) (eg_demand e) (eg_journal e) (eg_terminal e) l
    (eg_reconcile_until e) (eg_quiescing e).

Definition with_until (e : Engine) (t : option VirtualTime) : Engine :=
  MkEngine (eg_config e) (eg_jobs e) (eg_inventory e) (eg_scheduler e) (eg_running e) (eg_names e)
    (eg_overflow e) (eg_cycles e) (eg_demand e) (eg_journal e) (eg_terminal e) (eg_reconciling e)
    t (eg_quiescing e).

Definition with_quiescing (e : Engine) (b : bool) : Engine :=
  MkEngine (eg_config e) (eg_jobs e) (eg_inventory e) (eg_scheduler e) (eg_running e) (eg_names e)
    (eg_overflow e) (eg_cycles e) (eg_demand e) (eg_journal e) (eg_terminal e) (eg_reconciling e)
    (eg_reconcile_until e) b.

(** The two things the scheduler keeps for the engine, as it lends them out. *)
Definition eg_fairshare (e : Engine) : FairShare := sc_fairshare (eg_scheduler e).
Definition cycle_config (e : Engine) : CycleConfig := ec_cycle (eg_config e).

(** What the engine shares with the rest of the daemon: the outbox, the
    answers sent so far, and the channel to the log writer. *)
Record World (Q : Type → Type) : Type := MkWorld {
  w_outbox : Q Dispatch;
  w_answers : list Answer;
  w_commits : list EngineCommit;
  w_writer : bool;
}.
Arguments MkWorld {Q} w_outbox w_answers w_commits w_writer.
Arguments w_outbox {Q} w : rename.
Arguments w_answers {Q} w : rename.
Arguments w_commits {Q} w : rename.
Arguments w_writer {Q} w : rename.

Section Operations.
Context (hash : bytes → Z) {Q : Type → Type} `{ArrayQueue Q}.

(** [reply.send(..).ok()]. *)
Definition answer (w : World Q) (a : Answer) : World Q :=
  MkWorld (w_outbox w) (w_answers w ++ [a]) (w_commits w) (w_writer w).

(** ** Construction *)

Definition set_all_shares (s : Scheduler) (shares : list (AccountId * Z)) : exec Scheduler :=
  exec_fold (fun s p => let! '(s, _) := scheduler_set_shares s p.1 p.2 in Done s) s shares.

Definition build (config : DaemonConfig) (journal : option EngineJournal) : exec Engine :=
  let ec :=
    MkEngineConfig (dc_cycle config) (dc_drain_budget config)
      (Z.max (dc_worker_cpu_millis config) 1) (dc_min_workers config)
      (Z.max (dc_max_workers config) (dc_min_workers config))
      (Z.min u64_max (dc_retain config))
      (sat_mul u64_max (Z.min u64_max (dc_heartbeat_timeout config)) 2) in
  let! s := set_all_shares (Scheduler_with_slots (max_candidates (dc_cycle config)))
                           (dc_shares config) in
  Done (MkEngine ec Arena_new (from_capacities []) s [] [] [] 0 Demand_default journal [] [] None false).

(** ** Small steps *)

Definition record (e : Engine) (r : LogRecord) : exec Engine :=
  match eg_journal e with
  | Some j => let! j := journal_record hash j r in Done (with_journal e (Some j))
  | None => Done e
  end.

Definition note_terminal (e : Engine) (id : JobId) (at_ : VirtualTime) : Engine :=
  with_terminal e (eg_terminal e ++ [(at_, id)]).

Definition note_all_terminal (e : Engine) (ids : list JobId) (at_ : VirtualTime) : Engine :=
  fold_left (fun e id => note_terminal e id at_) ids e.

Definition push_dispatch (e : Engine) (w : World Q) (d : Dispatch) : Engine * World Q :=
  match outbox_push (w_outbox w) d with
  | (outbox, Ok _) => (e, MkWorld outbox (w_answers w) (w_commits w) (w_writer w))
  | (outbox, Err back) =>
      (with_overflow e (eg_overflow e ++ [back]),
       MkWorld outbox (w_answers w) (w_commits w) (w_writer w))
  end.

(** An answer that waits for durability when there is a journal. *)
Definition answer_durably (e : Engine) (w : World Q) (a : Answer) : Engine * World Q :=
  match eg_journal e with
  | Some j => (with_journal e (Some (defer j a)), w)
  | None => (e, answer w a)
  end.

(** A dispatch that waits for durability when there is a journal. *)
Definition dispatch_durably (e : Engine) (w : World Q) (d : Dispatch) : Engine * World Q :=
  match eg_journal e with
  | Some j => (with_journal e (Some (hold j d)), w)
  | None => push_dispatch e w d
  end.

(** [release]: [None] if the job was not running; a failed release of the
    inventory is only reported. *)
Definition release_job (e : Engine) (id : JobId) : exec (Engine * option SlotIndex) :=
  match position (fun r => rj_job r =? id) (eg_running e) with
  | None => Done (e, None)
  | Some pos =>
      let! '(r, running) := swap_remove (eg_running e) pos in
      let inv := (release (eg_inventory e) (rj_slot r) (rj_resources r)).1 in
      Done (with_inventory (with_running e running) inv, Some (rj_slot r))
  end.

Definition unhold (e : Engine) (id : JobId) : exec (Engine * bool) :=
  match position (fun r => r =? id) (eg_reconciling e) with
  | Some pos =>
      let! '(_, l) := swap_remove (eg_reconciling e) pos in
      Done (with_reconciling e l, true)
  | None => Done (e, false)
  end.

(** [self.release(id).is_some() || self.unhold(id)]. *)
Definition take_off (e : Engine) (id : JobId) : exec (Engine * bool) :=
  let! '(e, slot) := release_job e id in
  match slot with
  | Some _ => Done (e, true)
  | None => unhold e id
  end.

(** The result of a lifecycle call, with the scheduler and the arena put back. *)
Definition lift_call {A} (e : Engine) (o : exec (outcome A)) : exec (Engine * result A LifecycleError) :=
  let! '(s, jobs, r) := o in Done (with_sched e s jobs, r).

Definition requeue_logged (e : Engine) (id : JobId) (now : VirtualTime) : exec Engine :=
  let! '(e, r) := lift_call e (requeue (eg_scheduler e) id (eg_jobs e) now (cycle_config e)) in
  match r with
  | Ok _ => record e (LogRecord.Requeued id now)
  | Err _ => Done e
  end.

(** ** Commands *)

Definition on_submit (e : Engine) (w : World Q) (job : Job) (reply : Reply) (now : VirtualTime)
  : exec (Engine * World Q) :=
  let! id := Arena_next_id (eg_jobs e) in
  match check_submit id job (eg_jobs e) with
  | Err err => Done (e, answer w (Answer.Submit reply (Err err)))
  | Ok _ =>
      let! '(jobs, inserted) := Arena_insert (eg_jobs e) job in
      if negb (inserted =? id) then Panic
      else
        let e := with_jobs e jobs in
        let! e :=
          match eg_journal e, Arena_get (eg_jobs e) id with
          | Some j, Some job =>
              let! j := record_submitted hash j id job in Done (with_journal e (Some j))
          | _, _ => Done e
          end in
        let! '(e, result) :=
          lift_call e (submit (eg_scheduler e) id (eg_jobs e) now (cycle_config e)) in
        let e :=
          match result with
          | Ok state => if is_terminal state then note_terminal e id now else e
          | Err _ => e
          end in
        let result := match result with Ok state => Ok (id, state) | Err err => Err err end in
        Done (answer_durably e w (Answer.Submit reply result))
  end.

Definition on_cancel (e : Engine) (w : World Q) (id : JobId) (reply : Reply) (now : VirtualTime)
  : exec (Engine * World Q) :=
  let! '(e, slot) := release_job e id in
  let! '(e, _) := unhold e id in
  let! '(e, result) := lift_call e (cancel (eg_scheduler e) id (eg_jobs e) now (cycle_config e)) in
  let! e :=
    match result with
    | Ok cascade =>
        let! e := record e (LogRecord.Cancelled id now) in
        Done (note_all_terminal (note_terminal e id now) cascade now)
    | Err _ => Done e
    end in
  let '(e, w) :=
    match result, slot with
    | Ok _, Some slot => push_dispatch e w (Dispatch.Kill slot id)
    | _, _ => (e, w)
    end in
  Done (answer_durably e w (Answer.Cancel reply result)).

Definition on_completed_report (e : Engine) (id : JobId) (now : VirtualTime) : exec Engine :=
  let! '(e, found) := take_off e id in
  if found : bool then
    let! '(e, r) := lift_call e (on_completed (eg_scheduler e) id (eg_jobs e) now (cycle_config e)) in
    match r with
    | Ok _ =>
        let! e := record e (LogRecord.Completed id now) in
        Done (note_terminal e id now)
    | Err _ => Done e
    end
  else Done e.

Definition on_failed_report (e : Engine) (id : JobId) (now : VirtualTime) : exec Engine :=
  let! '(e, found) := take_off e id in
  if found : bool then
    let! '(e, r) := lift_call e (on_failed (eg_scheduler e) id (eg_jobs e) now (cycle_config e)) in
    match r with
    | Ok cascade =>
        let! e := record e (LogRecord.Failed id now) in
        Done (note_all_terminal (note_terminal e id now) cascade now)
    | Err _ => Done e
    end
  else Done e.

Definition on_preempted_report (e : Engine) (id : JobId) (now : VirtualTime) : exec Engine :=
  let! '(e, found) := take_off e id in
  if found : bool then
    let! '(e, r) := lift_call e (on_preempted (eg_scheduler e) id (eg_jobs e) now (cycle_config e)) in
    match r with
    | Ok _ => record e (LogRecord.Requeued id now)
    | Err _ => Done e
    end
  else Done e.

(** *** Workers *)

Definition adopt_running (e : Engine) (w : World Q) (id : JobId) (slot : SlotIndex) (now : VirtualTime)
  : exec (Engine * World Q) :=
  match Arena_get (eg_jobs e) id with
  | None => Done (e, w)
  | Some job =>
      if negb (bool_decide (state job = JobState.Running)) then Done (e, w)
      else
        match try_allocate (eg_inventory e) slot (request job) with
        | (inv, Ok _) =>
            let r := MkRunningJob id slot (request job) (time_saturating_add now (walltime_limit job)) in
            Done (with_running (with_inventory e inv) (eg_running e ++ [r]), w)
        | (_, Err _) =>
            let! e := requeue_logged e id now in
            Done (push_dispatch e w (Dispatch.Kill slot id))
        end
  end.

Definition claim (e : Engine) (w : World Q) (id : JobId) (slot : SlotIndex) (now : VirtualTime)
  : exec (Engine * World Q) :=
  let! '(e, held) := unhold e id in
  if held : bool then adopt_running e w id slot now
  else
    match position (fun r => rj_job r =? id) (eg_running e) with
    | Some pos =>
        let! r := nth_at (eg_running e) pos in
        let inv := (release (eg_inventory e) (rj_slot r) (rj_resources r)).1 in
        match try_allocate inv slot (rj_resources r) with
        | (inv, Ok _) =>
            let! running :=
              nth_put (eg_running e) pos (MkRunningJob (rj_job r) slot (rj_resources r) (ends_at r)) in
            Done (with_running (with_inventory e inv) running, w)
        | (_, Err _) =>
            let! '(_, running) := swap_remove (eg_running e) pos in
            let! e := requeue_logged (with_running (with_inventory e inv) running) id now in
            Done (push_dispatch e w (Dispatch.Kill slot id))
        end
    | None => Done (push_dispatch e w (Dispatch.Kill slot id))
    end.

(** The slot a joining worker may take over: vacant and zeroed. *)
Fixpoint find_vacant (inv : SlotInventory) (i : nat) (names : list (option string)) : option SlotIndex :=
  match names with
  | [] => None
  | n :: names =>
      let found :=
        if Z.of_nat i <=? u32_max then
          match inventory_slot inv (Z.of_nat i) with
          | Some s =>
              let zero := bool_decide (capacity s = Resources_ZERO) in
              match n with None => zero | Some _ => false end
          | None => false
          end
        else false in
      if found then Some (Z.of_nat i) else find_vacant inv (S i) names
  end.

Definition on_worker_joined (e : Engine) (w : World Q) (name : string) (capacity' : Resources)
    (in_flight : list JobId) (reply : Reply) (now : VirtualTime) : exec (Engine * World Q) :=
  let! '(inv, slot) :=
    match find_vacant (eg_inventory e) 0 (eg_names e) with
    | Some slot => Done ((set_capacity (eg_inventory e) slot capacity').1, slot)
    | None => push_slot (eg_inventory e) capacity'
    end in
  let e := with_inventory e inv in
  let names := vec_grow (eg_names e) (Z.to_nat (slot + 1)) None in
  let! names := vec_put names slot (Some name) in
  let e := with_names e names in
  let! '(e, w) := exec_fold (fun ew id => claim ew.1 ew.2 id slot now) (e, w) in_flight in
  Done (e, answer w (Answer.Joined reply slot)).

(** [*name = None] where the slot has a name entry. *)
Definition clear_name (names : list (option string)) (slot : SlotIndex) : list (option string) :=
  match vec_get names slot with
  | Some _ => <[Z.to_nat slot := None]> names
  | None => names
  end.

Definition evict_slot (e : Engine) (slot : SlotIndex) (now : VirtualTime) : exec Engine :=
  let evicted := map rj_job (List.filter (fun r => rj_slot r =? slot) (eg_running e)) in
  let e := with_running e (List.filter (fun r => negb (rj_slot r =? slot)) (eg_running e)) in
  let! e :=
    if eg_quiescing e then Done e
    else exec_fold (fun e id => requeue_logged e id now) e evicted in
  let inv := (clear_allocation (eg_inventory e) slot).1 in
  let inv := (set_capacity inv slot Resources_ZERO).1 in
  Done (with_names (with_inventory e inv) (clear_name (eg_names e) slot)).

Definition on_worker_draining (e : Engine) (slot : SlotIndex) : Engine :=
  with_inventory e (set_capacity (eg_inventory e) slot Resources_ZERO).1.

(** *** Queries *)

Definition queue_summary (e : Engine) : QueueSummary :=
  MkQueueSummary (pending (eg_scheduler e))
    (length (List.filter (fun p => bool_decide (state p.2 = JobState.Blocked)) (Arena_iter (eg_jobs e))))
    (length (eg_running e)) (eg_cycles e).

Definition node_summary (e : Engine) (slot : SlotIndex) : option NodeSummary :=
  match inventory_slot (eg_inventory e) slot with
  | None => None
  | Some s =>
      let name := mjoin (vec_get (eg_names e) slot) in
      Some (MkNodeSummary slot (default EmptyString name) (capacity s) (allocated s)
              (match name with Some _ => true | None => false end))
  end.

Definition nodes (e : Engine) : exec (list NodeSummary) :=
  let! len := inventory_len (eg_inventory e) in
  Done (omap (node_summary e) (Z.of_nat <$> seq 0 (Z.to_nat len))).

Definition account_summary (i : nat) (p : Ledger * Z) : AccountSummary :=
  MkAccountSummary (Z.min u32_max (Z.of_nat i)) (shares p.1) (usage p.1) (running_cpu p.1) p.2.

Definition accounts (e : Engine) : list AccountSummary :=
  imap account_summary (zip (ledgers (eg_fairshare e)) (factors (eg_fairshare e))).

Definition on_query (e : Engine) (w : World Q) (q : Query) : exec (World Q) :=
  match q with
  | Query.Status id reply => Done (answer w (Answer.Status reply (state <$> Arena_get (eg_jobs e) id)))
  | Query.Queue reply => Done (answer w (Answer.Queue reply (queue_summary e)))
  | Query.Nodes reply => let! ns := nodes e in Done (answer w (Answer.Nodes reply ns))
  | Query.Demand reply => Done (answer w (Answer.Demand reply (eg_demand e)))
  | Query.Accounts reply => Done (answer w (Answer.Accounts reply (accounts e)))
  end.

Definition handle (e : Engine) (w : World Q) (c : Command) (now : VirtualTime) : exec (Engine * World Q) :=
  match c with
  | Command.Submit job reply => on_submit e w job reply now
  | Command.Cancel id reply => on_cancel e w id reply now
  | Command.Completed id => let! e := on_completed_report e id now in Done (e, w)
  | Command.Failed id => let! e := on_failed_report e id now in Done (e, w)
  | Command.Preempted id => let! e := on_preempted_report e id now in Done (e, w)
  | Command.WorkerJoined name capacity in_flight reply =>
      on_worker_joined e w name capacity in_flight reply now
  | Command.WorkerLeft slot => let! e := evict_slot e slot now in Done (e, w)
  | Command.WorkerDraining slot => Done (on_worker_draining e slot, w)
  | Command.Query q => let! w := on_query e w q in Done (e, w)
  end.

(** ** The tick *)

(** The flush loop over the overflow stack, whose top comes first here. *)
Fixpoint flush_stack (outbox : Q Dispatch) (stack : list Dispatch) : Q Dispatch * list Dispatch :=
  match stack with
  | [] => (outbox, [])
  | d :: stack' =>
      match outbox_push outbox d with
      | (outbox, Ok _) => flush_stack outbox stack'
      | (outbox, Err back) => (outbox, back :: stack')
      end
  end.

Definition flush_overflow (e : Engine) (w : World Q) : Engine * World Q :=
  let '(outbox, stack) := flush_stack (w_outbox w) (rev (eg_overflow e)) in
  (with_overflow e (rev stack), MkWorld outbox (w_answers w) (w_commits w) (w_writer w)).

Definition on_dispatched (e : Engine) (w : World Q) (d : DispatchDecision) (now : VirtualTime)
  : exec (Engine * World Q) :=
  match Arena_get (eg_jobs e) (dd_job d) with
  | None => Done (e, w)
  | Some job =>
      let walltime := walltime_limit job in
      let r := MkRunningJob (dd_job d) (dd_slot d) (request job) (time_saturating_add now walltime) in
      let e := with_running e (eg_running e ++ [r]) in
      let assign := Dispatch.Assign (dd_slot d) (dd_job d) (payload job) walltime in
      let! e := record e (LogRecord.Dispatched (dd_job d) now) in
      Done (dispatch_durably e w assign)
  end.

Definition evict_one (e : Engine) (w : World Q) (v : Eviction) (now : VirtualTime)
  : exec (Engine * World Q) :=
  let! '(e, r) := lift_call e (Done (preempt (eg_scheduler e) (ev_job v) (eg_jobs e))) in
  match r with
  | Err _ => Done (e, w)
  | Ok _ =>
      let! e := record e (LogRecord.Preempted (ev_job v) now) in
      Done (dispatch_durably e w
              (Dispatch.Preempt (ev_slot v) (ev_job v) (grace (cc_preempt (cycle_config e)))))
  end.

Definition plan_evictions (e : Engine) (w : World Q) (head : JobId) (now : VirtualTime)
  : exec (Engine * World Q) :=
  let! evictions :=
    match Arena_get (eg_jobs e) head with
    | Some job =>
        let! '(evictions, _) :=
          plan_preemption job (eg_running e) (eg_jobs e) (eg_inventory e) now
            (cc_preempt (cycle_config e)) [] in
        Done evictions
    | None => Done []
    end in
  exec_fold (fun ew v => evict_one ew.1 ew.2 v now) (e, w) evictions.

(** The arena pass of [refresh_demand]: ready and running millicores. *)
Definition demand_step (acc : Z * Z) (p : JobId * Job) : Z * Z :=
  match state p.2 with
  | JobState.Ready => (wrap64 (acc.1 + cpu_millis (request p.2)), acc.2)
  | JobState.Running => (acc.1, wrap64 (acc.2 + cpu_millis (request p.2)))
  | _ => acc
  end.

(** [u64::div_ceil]; a zero divisor panics. *)
Definition div_ceil (a b : Z) : exec Z :=
  if b =? 0 then Panic else Done (if a mod b =? 0 then a / b else a / b + 1).

(** [Ord::clamp] panics on an empty range. *)
Definition clamp (x lo hi : Z) : exec Z :=
  if hi <? lo then Panic else Done (Z.min hi (Z.max lo x)).

Definition refresh_demand (e : Engine) : exec Engine :=
  let c := eg_config e in
  let '(cpu_ready, cpu_running) := fold_left demand_step (Arena_iter (eg_jobs e)) (0, 0) in
  let! needed := div_ceil (wrap64 (cpu_ready + cpu_running)) (ec_worker_cpu c) in
  let! desired := clamp (Z.min u32_max needed) (ec_min_workers c) (ec_max_workers c) in
  let attached :=
    Z.min u32_max
      (Z.of_nat (length (List.filter (fun n : option string =>
                                        match n with Some _ => true | None => false end) (eg_names e)))) in
  Done (with_demand e (MkDemand desired attached cpu_ready cpu_running)).

Fixpoint forget_loop (now : VirtualTime) (terminal : list (VirtualTime * JobId)) (e : Engine)
  : exec Engine :=
  match terminal with
  | [] => Done (with_terminal e [])
  | (at_, id) :: rest =>
      if time_saturating_sub_time now at_ <? ec_retain (eg_config e)
      then Done (with_terminal e terminal)
      else
        let! e :=
          match Arena_remove (eg_jobs e) id with
          | (jobs, Some _) => record (with_jobs e jobs) (LogRecord.Forgotten id)
          | (jobs, None) => Done (with_jobs e jobs)
          end in
        forget_loop now rest e
  end.

Definition forget_expired (e : Engine) (now : VirtualTime) : exec Engine :=
  forget_loop now (eg_terminal e) e.

(** An unclaimed job goes back to the queue if it is still [Running]. *)
Definition requeue_unclaimed (now : VirtualTime) (e : Engine) (id : JobId) : exec Engine :=
  match Arena_get (eg_jobs e) id with
  | Some j =>
      if bool_decide (state j = JobState.Running) then requeue_logged e id now else Done e
  | None => Done e
  end.

Definition expire_reconcile (e : Engine) (now : VirtualTime) : exec Engine :=
  match eg_reconciling e with
  | [] => Done (with_until e None)
  | _ :: _ =>
      let until :=
        default (time_saturating_add now (ec_reconcile_window (eg_config e))) (eg_reconcile_until e) in
      let e := with_until e (Some until) in
      if now <? until then Done e
      else
        let unclaimed := eg_reconciling e in
        let! e := exec_fold (requeue_unclaimed now) (with_reconciling e []) unclaimed in
        Done (with_until e None)
  end.

(** The live jobs in one state, in arena order. *)
Definition jobs_in_state (jobs : Arena Job) (st : JobState) : list JobId :=
  map fst (List.filter (fun p => bool_decide (state p.2 = st)) (Arena_iter jobs)).

Definition engine_snapshot (e : Engine) (now : VirtualTime) : Snapshot :=
  MkSnapshot now (Arena_slots (eg_jobs e)) (free_head (eg_jobs e))
    (jobs_in_state (eg_jobs e) JobState.Running) (ledgers (eg_fairshare e)).

Definition engine_encode_snapshot (e : Engine) (now : VirtualTime) : exec bytes :=
  encode_snapshot hash [] (engine_snapshot e now).

Definition attach_if_wanted (e : Engine) (now : VirtualTime) : exec Engine :=
  match eg_journal e with
  | Some j =>
      if wants_snapshot j then
        let! snapshot := engine_encode_snapshot e now in
        Done (with_journal e (Some (attach_snapshot j snapshot)))
      else Done e
  | None => Done e
  end.

Definition commit_journal (e : Engine) (w : World Q) : Engine * World Q :=
  match eg_journal e with
  | Some j =>
      let '(j, commits, _) := commit j (w_commits w) (w_writer w) in
      (with_journal e (Some j), MkWorld (w_outbox w) (w_answers w) commits (w_writer w))
  | None => (e, w)
  end.

Definition run_engine_cycle (e : Engine) (now : VirtualTime)
  : exec (Engine * list DispatchDecision * CycleOutcome) :=
  let! r := run_cycle (eg_scheduler e) (eg_jobs e) (eg_inventory e) (eg_running e) now
              (cycle_config e) [] in
  Done (with_inventory (with_sched e (cy_scheduler r) (cy_jobs r)) (cy_inventory r),
        cy_decisions r, cy_outcome r).

Definition tick (e : Engine) (w : World Q) (now : VirtualTime)
  : exec (Engine * World Q * CycleOutcome) :=
  let '(e, w) := flush_overflow e w in
  let! '(e, decisions, outcome) := run_engine_cycle e now in
  let! '(e, w) := exec_fold (fun ew d => on_dispatched ew.1 ew.2 d now) (e, w) decisions in
  let! '(e, w) :=
    match co_head outcome with
    | Some head => plan_evictions e w head now
    | None => Done (e, w)
    end in
  let e := with_cycles e (wrap64 (eg_cycles e + 1)) in
  let! e := refresh_demand e in
  let! e := forget_expired e now in
  let! e := expire_reconcile e now in
  let! e := attach_if_wanted e now in
  let '(e, w) := commit_journal e w in
  Done (e, w, outcome).

(** ** The thread *)

(** [drain]: at most [budget] commands; returns how many were applied. *)
Fixpoint drain_loop (budget : nat) (e : Engine) (w : World Q) (inbox : Q Command) (now : VirtualTime)
    (applied : nat) : exec (Engine * World Q * Q Command * nat) :=
  match budget with
  | O => Done (e, w, inbox, applied)
  | S budget =>
      match inbox_pop inbox with
      | (inbox, None) => Done (e, w, inbox, applied)
      | (inbox, Some command) =>
          let! '(e, w) := handle e w command now in
          drain_loop budget e w inbox now (S applied)
      end
  end.

Definition drain (e : Engine) (w : World Q) (inbox : Q Command) (now : VirtualTime)
  : exec (Engine * World Q * Q Command * nat) :=
  drain_loop (Z.to_nat (ec_drain_budget (eg_config e))) e w inbox now 0.

(** One turn of [run]'s loop, after the thread wakes. *)
Definition run_turn (e : Engine) (w : World Q) (inbox : Q Command) (now : VirtualTime) (quiesce : bool)
  : exec (Engine * World Q * Q Command) :=
  let e := with_quiescing e quiesce in
  let! '(e, w, inbox, _) := drain e w inbox now in
  let! '(e, w, _) := tick e w now in
  Done (e, w, inbox).
End Operations.
