(* ===== verification/EngineInv.v ===== *)
(** * The engine's invariant

    What holds of an engine between two commands: the scheduler's invariant;
    every slot's allocation is exactly what the running set holds there, and no
    slot but a drained one is overcommitted; the running set names distinct jobs
    that hold a slot, the held jobs are [Running] and bound to none; every finished
    job is in the retention queue, once.  Every command and every tick
    is shown to return and to keep it, and each is accounted for in the log
    record by record. *)

From stdpp Require Import base strings list numbers option sets relations.
From Stdlib Require Import ZArith Lia.
From S2P Require Import Prelude Domain Arena Job Inventory Priority ReadySet Eligibility.
From S2P Require Import Decay FairShare Pack Backfill Preempt Scheduler Cycle Frame.
From S2P Require Import Codec LogRecord Log Snapshot Store Journal Command Engine.
Open Scope Z_scope.
Open Scope list_scope.

(** ** The slots *)

(** What the running set holds on one slot. *)
Fixpoint used (running : list RunningJob) (i : SlotIndex) : Resources :=
  match running with
  | [] => Resources_ZERO
  | r :: running' =>
      if rj_slot r =? i then Resources_plus (rj_resources r) (used running' i) else used running' i
  end.

Lemma Resources_plus_comm a b : Resources_plus a b = Resources_plus b a.
Proof. destruct a, b. unfold Resources_plus. simpl. f_equal; lia. Qed.

Lemma Resources_plus_assoc a b c :
  Resources_plus a (Resources_plus b c) = Resources_plus (Resources_plus a b) c.
Proof. destruct a, b, c. unfold Resources_plus. simpl. f_equal; lia. Qed.

Lemma Resources_plus_ZERO a : Resources_plus a Resources_ZERO = a.
Proof. destruct a. unfold Resources_plus. simpl. f_equal; lia. Qed.

#[export] Instance used_Proper i : Proper ((≡ₚ) ==> eq) (fun running => used running i).
Proof.
  intros l l' Hp. induction Hp as [|r l l' _ IH|r r' l|l l' l'' _ IH1 _ IH2]; simpl; [done| | |congruence].
  - by rewrite IH.
  - repeat destruct (_ =? _); rewrite ?Resources_plus_assoc, ?(Resources_plus_comm (rj_resources r)); done.
Qed.

Lemma used_app l l' i : used (l ++ l') i = Resources_plus (used l i) (used l' i).
Proof.
  induction l as [|r l IH]; simpl; [by rewrite Resources_plus_comm, Resources_plus_ZERO|].
  destruct (_ =? _); [|done]. by rewrite IH, Resources_plus_assoc.
Qed.

Lemma used_other l i : (∀ r, r ∈ l → rj_slot r ≠ i) → used l i = Resources_ZERO.
Proof.
  induction l as [|r l IH]; intros Hl; simpl; [done|].
  destruct (Z.eqb_spec (rj_slot r) i) as [E|E]; [|apply IH; set_solver].
  by destruct (Hl r ltac:(by left)).
Qed.

Lemma used_filter l slot i :
  used (List.filter (fun r => negb (rj_slot r =? slot)) l) i =
  if slot =? i then Resources_ZERO else used l i.
Proof.
  induction l as [|r l IH]; simpl; [by destruct (_ =? _)|].
  destruct (Z.eqb_spec (rj_slot r) slot); simpl; rewrite IH;
    destruct (Z.eqb_spec slot i), (Z.eqb_spec (rj_slot r) i); congruence.
Qed.

Lemma used_nonneg l i :
  (∀ r, r ∈ l → Resources_wf (rj_resources r)) → Resources_le Resources_ZERO (used l i).
Proof.
  intros Hr. induction l as [|r l IH]; simpl; [res_crush|].
  assert (Resources_le Resources_ZERO (used l i)) by (apply IH; intros; apply Hr; by right).
  destruct (_ =? _); [|done]. specialize (Hr r ltac:(by left)). destruct (rj_resources r), (used l i). res_crush.
Qed.

Definition drained_slot : WorkerSlot := MkWorkerSlot Resources_ZERO Resources_ZERO.

Record slots_inv (inv : SlotInventory) (running : list RunningJob) (names : list (option string)) : Prop := {
  sv_wf : Inventory_wf inv;
  sv_used : ∀ i s, vec_get (worker_slots inv) i = Some s → allocated s = used running i;
  sv_within : drained_or_within inv;
  sv_bound : ∀ r, r ∈ running → ∃ s, vec_get (worker_slots inv) (rj_slot r) = Some s;
  sv_wf_running : ∀ r, r ∈ running → Resources_wf (rj_resources r);
  sv_names : length names = length (worker_slots inv);
  sv_vacant : ∀ i, vec_get names i = Some None → vec_get (worker_slots inv) i = Some drained_slot;
}.

Section Slots.
Context (inv : SlotInventory) (running : list RunningJob) (names : list (option string)).
Hypothesis Hinv : slots_inv inv running names.

(** Only the multiset of running jobs matters. *)
Lemma slots_inv_perm running' : running ≡ₚ running' → slots_inv inv running' names.
Proof.
  intros Hp. destruct Hinv as [H1 H2 H3 H4 H5 H6 H7]. split; try done.
  - intros i s Hs. rewrite (H2 i s Hs). by apply used_Proper.
  - intros r. rewrite <-Hp. apply H4.
  - intros r. rewrite <-Hp. apply H5.
Qed.

(** Giving back what one running job holds. *)
Lemma slots_inv_release r running' :
  running = r :: running' →
  slots_inv (release inv (rj_slot r) (rj_resources r)).1 running' names.
Proof.
  intros ->. pose proof Hinv as [H1 H2 H3 H4 H5 H6 H7].
  destruct (H4 r ltac:(by left)) as [s Hs]. unfold release. rewrite Hs. simpl.
  pose proof (H2 _ _ Hs) as Ha. simpl in Ha. rewrite Z.eqb_refl in Ha.
  assert (Resources_le Resources_ZERO (used running' (rj_slot r))) as Hu.
  { apply used_nonneg. intros. apply H5. by right. }
  assert (Resources_saturating_sub (allocated s) (rj_resources r) = used running' (rj_slot r)) as Hsub.
  { rewrite Ha. destruct (rj_resources r), (used running' (rj_slot r)). unfold Resources_saturating_sub, Resources_plus.
    clear -Hu. unfold Resources_le, sat_sub in *. simpl in *. f_equal; lia. }
  rewrite Hsub. destruct (inv_widths _ H1 _ _ Hs) as [Hwc Hwa]. pose proof (H5 r ltac:(by left)) as Hwr.
  assert (Resources_wf (used running' (rj_slot r)) ∧ Resources_le (used running' (rj_slot r)) (allocated s)) as [Hwu Hle].
  { rewrite Ha in Hwa |- *. clear -Hu Hwa Hwr. destruct (rj_resources r), (used running' (rj_slot r)). split; res_crush. }
  split.
  - by eapply set_slot_wf.
  - intros i t. rewrite (set_slot_get _ _ _ _ _ Hs). case_decide as E; [by intros [= <-]; subst|].
    intros Ht. rewrite (H2 _ _ Ht). simpl. by rewrite (proj2 (Z.eqb_neq _ _)).
  - intros i t. rewrite (set_slot_get _ _ _ _ _ Hs). case_decide as E; [|by apply H3]. intros [= <-]. simpl.
    destruct (H3 _ _ Hs) as [Hc|Hc]; [left; by etrans|by right].
  - intros r' Hr'. rewrite (set_slot_get _ _ _ _ _ Hs). case_decide; [eauto|]. apply H4. by right.
  - intros r' Hr'. apply H5. by right.
  - simpl. by rewrite length_insert.
  - intros i Hi. pose proof (H7 i Hi) as Hd. rewrite (set_slot_get _ _ _ _ _ Hs). case_decide as E; [|done].
    subst i. rewrite Hs in Hd. injection Hd as ->. f_equal. unfold drained_slot. simpl in *. f_equal.
    clear -Hle Hu. destruct (used running' (rj_slot r)). unfold Resources_ZERO. f_equal; res_crush.
Qed.

(** Binding one more job to a slot that accepted it. *)
Lemma slots_inv_allocate id slot req ends inv' :
  Resources_wf req → try_allocate inv slot req = (inv', Ok tt) → vec_get names slot ≠ Some None →
  slots_inv inv' (running ++ [MkRunningJob id slot req ends]) names.
Proof.
  intros Hr Ha Hn. pose proof Hinv as [H1 H2 H3 H4 H5 H6 H7].
  destruct (try_allocate_preserves _ _ _ _ _ H1 Hr Ha) as [Hwf' _].
  apply try_allocate_Ok in Ha as (s & Hs & Hle & _ & ->).
  assert (∀ i, used (running ++ [MkRunningJob id slot req ends]) i =
    if slot =? i then Resources_plus (used running i) req else used running i) as Hu.
  { intros i. rewrite used_app. simpl. destruct (_ =? _); by rewrite ?Resources_plus_ZERO. }
  split.
  - done.
  - intros i t. rewrite (set_slot_get _ _ _ _ _ Hs), Hu. case_decide as E.
    + intros [= <-]. subst i. rewrite Z.eqb_refl. simpl. by rewrite (H2 _ _ Hs).
    + rewrite (proj2 (Z.eqb_neq _ _)) by done. apply H2.
  - intros i t. rewrite (set_slot_get _ _ _ _ _ Hs). case_decide as E; [|apply H3]. intros [= <-]. by left.
  - intros r. rewrite elem_of_app, list_elem_of_singleton, (set_slot_get _ _ _ _ _ Hs). case_decide; [eauto|].
    intros [?|E]; [by apply H4|]. subst r. done.
  - intros r. rewrite elem_of_app, list_elem_of_singleton. intros [?| ->]; [by apply H5|done].
  - simpl. by rewrite length_insert.
  - intros i Hi. rewrite (set_slot_get _ _ _ _ _ Hs), decide_False by congruence. by apply H7.
Qed.

(** A slot whose capacity drops to zero keeps what runs on it. *)
Lemma slots_inv_drain slot : slots_inv (set_capacity inv slot Resources_ZERO).1 running names.
Proof.
  pose proof Hinv as [H1 H2 H3 H4 H5 H6 H7]. unfold set_capacity.
  destruct (vec_get (worker_slots inv) slot) as [s|] eqn:Hs; [|done]. simpl.
  destruct (inv_widths _ H1 _ _ Hs) as [_ Hwa]. split.
  - eapply set_slot_wf; [done|done|apply Resources_ZERO_wf|done].
  - intros i t. rewrite (set_slot_get _ _ _ _ _ Hs). case_decide as E; [|apply H2].
    intros [= <-]. subst i. simpl. by apply H2.
  - intros i t. rewrite (set_slot_get _ _ _ _ _ Hs). case_decide as E; [|apply H3]. intros [= <-]. by right.
  - intros r Hr. rewrite (set_slot_get _ _ _ _ _ Hs). case_decide; eauto.
  - done.
  - simpl. by rewrite length_insert.
  - intros i Hi. rewrite (set_slot_get _ _ _ _ _ Hs). case_decide as E; [|by apply H7].
    subst i. specialize (H7 _ Hi). rewrite Hs in H7. by injection H7 as ->.
Qed.

(** A worker takes over a vacant, zeroed slot. *)
Lemma slots_inv_reuse slot cap name :
  Resources_wf cap → vec_get names slot = Some None →
  slots_inv (set_capacity inv slot cap).1 running (<[Z.to_nat slot := Some name]> names).
Proof.
  intros Hc Hn. pose proof Hinv as [H1 H2 H3 H4 H5 H6 H7]. pose proof (H7 _ Hn) as Hs.
  unfold set_capacity. rewrite Hs. simpl. pose proof (vec_get_range _ _ _ Hn) as Hr. split.
  - eapply set_slot_wf; [done|done|done|apply Resources_ZERO_wf].
  - intros i t. rewrite (set_slot_get _ _ _ _ _ Hs). case_decide as E; [|apply H2].
    intros [= <-]. subst i. simpl. by apply (H2 _ _ Hs).
  - intros i t. rewrite (set_slot_get _ _ _ _ _ Hs). case_decide as E; [|apply H3]. intros [= <-]. left. simpl.
    clear -Hc. destruct cap. res_crush.
  - intros r Hr'. rewrite (set_slot_get _ _ _ _ _ Hs). case_decide; eauto.
  - done.
  - simpl. by rewrite !length_insert.
  - intros i. rewrite vec_get_insert by done. rewrite (set_slot_get _ _ _ _ _ Hs). case_decide; [done|]. apply H7.
Qed.

(** A worker gets a new slot. *)
Lemma slots_inv_push cap name :
  Resources_wf cap → Z.of_nat (length (worker_slots inv)) < u32_max →
  ∃ inv', push_slot inv cap = Done (inv', Z.of_nat (length (worker_slots inv))) ∧
    slots_inv inv' running (names ++ [Some name]).
Proof.
  intros Hc Hl. pose proof Hinv as [H1 H2 H3 H4 H5 H6 H7]. unfold push_slot.
  rewrite length_app. cbn [length]. rewrite Nat.add_sub, u32_from_usize_Done by lia. cbn [exec_bind].
  eexists. split; [done|].
  assert (used running (Z.of_nat (length (worker_slots inv))) = Resources_ZERO) as Hu.
  { apply used_other. intros r Hr. destruct (H4 r Hr) as [s Hs%vec_get_range]. lia. }
  split; simpl.
  - split; simpl; [rewrite length_app; simpl; lia|]. intros i s. rewrite vec_get_snoc.
    case_decide; [intros [= <-]|apply H1]. split; [done|apply Resources_ZERO_wf].
  - intros i s. rewrite vec_get_snoc. case_decide as E; [|apply H2]. intros [= <-]. by subst i.
  - intros i s. simpl. rewrite vec_get_snoc. case_decide as E; [|apply H3]. intros [= <-]. left. simpl.
    clear -Hc. destruct cap. res_crush.
  - intros r Hr. rewrite vec_get_snoc. case_decide; eauto.
  - done.
  - rewrite !length_app. simpl. lia.
  - intros i. rewrite !vec_get_snoc, H6. case_decide; [done|]. apply H7.
Qed.

(** A worker is gone, with everything that ran there. *)
Lemma slots_inv_evict slot :
  let inv1 := (clear_allocation inv slot).1 in
  slots_inv (set_capacity inv1 slot Resources_ZERO).1
    (List.filter (fun r => negb (rj_slot r =? slot)) running) (clear_name names slot).
Proof.
  pose proof Hinv as [H1 H2 H3 H4 H5 H6 H7]. unfold clear_allocation, set_capacity, clear_name.
  assert (∀ r, r ∈ List.filter (fun r => negb (rj_slot r =? slot)) running →
    r ∈ running ∧ rj_slot r ≠ slot) as Hf.
  { intros r [Hr Hs]%list_elem_of_In%filter_In. apply list_elem_of_In in Hr.
    split; [done|]. apply negb_true_iff, Z.eqb_neq in Hs. done. }
  destruct (vec_get (worker_slots inv) slot) as [s|] eqn:Hs; cbn [fst].
  - rewrite (set_slot_get _ _ _ _ _ Hs), decide_True by done. cbn [fst allocated].
    change (MkWorkerSlot Resources_ZERO Resources_ZERO) with drained_slot.
    assert (set_slot (set_slot inv slot (MkWorkerSlot (capacity s) Resources_ZERO)) slot drained_slot =
            set_slot inv slot drained_slot) as -> by (unfold set_slot; simpl; by rewrite list_insert_insert_eq).
    destruct (vec_get_total names slot) as [n Hn]; [rewrite H6; by eapply vec_get_range|]. rewrite Hn. split.
    + eapply set_slot_wf; [done|done|apply Resources_ZERO_wf..].
    + intros i t. rewrite (set_slot_get _ _ _ _ _ Hs), used_filter. destruct (Z.eqb_spec slot i).
      * rewrite decide_True by done. by intros [= <-].
      * rewrite decide_False by done. apply H2.
    + intros i t. rewrite (set_slot_get _ _ _ _ _ Hs). case_decide; [intros [= <-]; by right|apply H3].
    + intros r [Hr Hne]%Hf. rewrite (set_slot_get _ _ _ _ _ Hs), decide_False by done. by apply H4.
    + intros r [Hr _]%Hf. by apply H5.
    + simpl. by rewrite !length_insert.
    + intros i. rewrite vec_get_insert by (by eapply vec_get_range). rewrite (set_slot_get _ _ _ _ _ Hs).
      case_decide; [done|]. apply H7.
  - rewrite Hs. simpl.
    assert (vec_get names slot = None) as ->.
    { destruct (vec_get names slot) as [n|] eqn:E; [|done]. apply vec_get_range in E. rewrite H6 in E.
      by destruct (vec_get_total _ _ E) as [? ?]; congruence. }
    split; try done.
    + intros i t Ht. rewrite used_filter. destruct (Z.eqb_spec slot i); [congruence|]. by apply H2.
    + intros r [Hr _]%Hf. by apply H4.
    + intros r [Hr _]%Hf. by apply H5.
Qed.
End Slots.

(** ** The jobs *)

Lemma NoDup_fmap_eq {A B} (f : A → B) l x y :
  NoDup (f <$> l) → x ∈ l → y ∈ l → f x = f y → x = y.
Proof.
  intros Hn (i & Hi)%list_elem_of_lookup (k & Hk)%list_elem_of_lookup E.
  assert (i = k) as <-; [|congruence].
  eapply (NoDup_lookup (f <$> l)); [done|by rewrite list_lookup_fmap, Hi|]. by rewrite list_lookup_fmap, Hk, E.
Qed.

Lemma NoDup_fmap_filter {A B} (f : A → B) p l : NoDup (f <$> l) → NoDup (f <$> List.filter p l).
Proof.
  induction l as [|x l IH]; simpl; [done|]. rewrite NoDup_cons. intros [Hn Hl].
  destruct (p x); [|by apply IH]. simpl. constructor; [|by apply IH].
  intros (y & Ey & Hy)%list_elem_of_fmap. apply Hn. rewrite Ey. apply list_elem_of_fmap_2.
  by apply elem_of_List_filter in Hy as [? _].
Qed.

Lemma jobs_in_state_elem jobs st x :
  Arena_wf jobs → x ∈ jobs_in_state jobs st ↔ job_state jobs x = Some st.
Proof.
  intros Hwf. unfold jobs_in_state. change (map ?f ?l) with (f <$> l). rewrite list_elem_of_fmap. unfold job_state. split.
  - intros ([y j] & -> & [Hp Hs]%elem_of_List_filter). apply Arena_iter_elem in Hp; [|done]. simpl.
    apply bool_decide_eq_true in Hs. simpl in Hs. by rewrite Hp, <-Hs.
  - intros E. destruct (Arena_get jobs x) as [j|] eqn:Hj; [|done]. injection E as E. exists (x, j). split; [done|].
    apply elem_of_List_filter. split; [by apply Arena_iter_elem|]. by apply bool_decide_eq_true.
Qed.

Lemma jobs_in_state_NoDup jobs st : Arena_wf jobs → NoDup (jobs_in_state jobs st).
Proof.
  intros Hwf. unfold jobs_in_state. apply (NoDup_fmap_filter fst). apply (slot_entries_NoDup (slots jobs) 0).
  pose proof (wf_bound _ Hwf). lia.
Qed.

(** The running set: distinct jobs that hold a slot, with what they requested. *)
Record running_inv (jobs : Arena Job) (running : list RunningJob) : Prop := {
  rv_nodup : NoDup (rj_job <$> running);
  rv_live : ∀ r, r ∈ running → ∃ j, Arena_get jobs (rj_job r) = Some j ∧
    occupies_slot (state j) = true ∧ rj_resources r = request j;
}.

(** The held jobs: distinct, [Running], bound to no slot. *)
Record held_inv (jobs : Arena Job) (running : list RunningJob) (held : list JobId) : Prop := {
  hv_nodup : NoDup held;
  hv_running : ∀ x, x ∈ held → job_state jobs x = Some JobState.Running;
  hv_unbound : ∀ x, x ∈ held → x ∉ rj_job <$> running;
}.

Definition finished (jobs : Arena Job) (x : JobId) : Prop :=
  ∃ st, job_state jobs x = Some st ∧ is_terminal st = true.

(** The job was in the arena and has been forgotten. *)
Definition gone (jobs : Arena Job) (x : JobId) : Prop := Arena_get jobs x = None ∧ issued jobs x.

(** The retention queue: every finished job, each once.  A replayed log also
    queues jobs it forgets later on. *)
Record terminal_inv (jobs : Arena Job) (terminal : list (VirtualTime * JobId)) : Prop := {
  tv_nodup : NoDup terminal.*2;
  tv_finished : ∀ x, finished jobs x → x ∈ terminal.*2;
  tv_noted : ∀ x, x ∈ terminal.*2 → finished jobs x ∨ gone jobs x;
}.

Lemma gone_like R jobs jobs' x : arena_rel R jobs jobs' → gone jobs x → gone jobs' x.
Proof. intros Hr [Hn Hi]. split; [by eapply arena_rel_None|by eapply issued_rel]. Qed.

Lemma job_state_like jobs jobs' x j :
  arena_rel job_like jobs jobs' → Arena_get jobs x = Some j →
  ∃ j', Arena_get jobs' x = Some j' ∧ job_like j j' ∧ job_state jobs' x = Some (state j').
Proof.
  intros Hr Hj. destruct (arena_rel_Some_l _ _ _ _ _ Hr Hj) as (j' & Hj' & Hl).
  exists j'. unfold job_state. by rewrite Hj'.
Qed.

Lemma running_inv_call jobs jobs' running :
  running_inv jobs running → arena_rel job_like jobs jobs' →
  (∀ r st, r ∈ running → job_state jobs (rj_job r) = Some st → occupies_slot st = true →
           ∃ st', job_state jobs' (rj_job r) = Some st' ∧ occupies_slot st' = true) →
  running_inv jobs' running.
Proof.
  intros [Hn Hl] Hr Hst. split; [done|]. intros r Hin. destruct (Hl r Hin) as (j & Hj & Ho & Hq).
  destruct (job_state_like _ _ _ _ Hr Hj) as (j' & Hj' & Hlike & Es).
  destruct (Hst r (state j) Hin) as (st' & Est & Ho'); [unfold job_state; by rewrite Hj|done|].
  exists j'. split; [done|]. rewrite Es in Est. injection Est as ->.
  destruct (job_like_fields _ _ Hlike) as (_ & _ & -> & _). done.
Qed.

Lemma running_inv_cons jobs r running running' :
  running ≡ₚ r :: running' → running_inv jobs running →
  running_inv jobs running' ∧ rj_job r ∉ rj_job <$> running'.
Proof.
  intros Hp [Hn Hl]. rewrite Hp, fmap_cons in Hn. apply NoDup_cons in Hn as [Hr Hn].
  split; [|done]. split; [done|]. intros r' Hin. apply Hl. rewrite Hp. by right.
Qed.

(** A call that moves one job to [st] and some blocked jobs to [st']. *)
Record call_effect (jobs : Arena Job) (id : JobId) (st : JobState) (l : list JobId) (st' : JobState)
    (jobs' : Arena Job) : Prop := {
  ce_like : arena_rel job_like jobs jobs';
  ce_after : state_after jobs id st l st' jobs';
  ce_blocked : all_blocked jobs l;
}.

Lemma call_effect_other jobs id st l st' jobs' x stx :
  call_effect jobs id st l st' jobs' → x ≠ id → job_state jobs x = Some stx → stx ≠ JobState.Blocked →
  job_state jobs' x = Some stx.
Proof.
  intros [_ Ha Hb] Hne Hx Hnb. rewrite (Ha x), decide_False by done. rewrite decide_False; [done|].
  intros Hin. specialize (Hb _ Hin). congruence.
Qed.

Lemma running_inv_effect jobs id st l st' jobs' running :
  running_inv jobs running → call_effect jobs id st l st' jobs' →
  (id ∈ rj_job <$> running → occupies_slot st = true) → running_inv jobs' running.
Proof.
  intros Hr He Hid. eapply running_inv_call; [done|apply He|]. intros r stx Hin Hx Ho.
  destruct (decide (rj_job r = id)) as [E|E].
  - exists st. rewrite (ce_after _ _ _ _ _ _ He), decide_True by done. split; [done|]. apply Hid. rewrite <-E.
    by apply list_elem_of_fmap_2.
  - exists stx. split; [|done]. eapply call_effect_other; [done|done|done|]. by intros ->.
Qed.

Lemma held_inv_effect jobs id st l st' jobs' running held :
  held_inv jobs running held → call_effect jobs id st l st' jobs' → id ∉ held →
  held_inv jobs' running held.
Proof.
  intros [H1 H2 H3] He Hid. split; [done| |done]. intros x Hx.
  eapply call_effect_other; [done|by intros ->|by apply H2|done].
Qed.

(** The retention queue when the jobs [new] finished. *)
Lemma terminal_inv_new jobs jobs' terminal (at_ : VirtualTime) new :
  terminal_inv jobs terminal → NoDup new → (∀ x, x ∈ new → ¬ (finished jobs x ∨ gone jobs x)) →
  (∀ x, finished jobs' x ↔ finished jobs x ∨ x ∈ new) → (∀ x, gone jobs x → gone jobs' x) →
  terminal_inv jobs' (terminal ++ ((fun x => (at_, x)) <$> new)).
Proof.
  intros [Hn Hf Hg] Hnd Hnew Hf' Hg'.
  assert ((terminal ++ ((fun x => (at_, x)) <$> new)).*2 = terminal.*2 ++ new) as E.
  { rewrite fmap_app. f_equal. rewrite <-list_fmap_compose. apply list_fmap_id. }
  split; rewrite E.
  - apply NoDup_app. split; [done|]. split; [|done]. intros x Hx%Hg Hx'. by eapply Hnew.
  - intros x. rewrite elem_of_app, Hf'. intros [?|?]; auto.
  - intros x. rewrite elem_of_app, Hf'. intros [[?|?]%Hg|?]; auto.
Qed.

(** Which jobs a call finished. *)
Definition finishes (st : JobState) (l : list JobId) : list JobId := if is_terminal st then l else [].

Lemma finished_effect jobs id st l st' jobs' x :
  call_effect jobs id st l st' jobs' → ¬ finished jobs id → id ∉ l →
  finished jobs' x ↔ finished jobs x ∨ x ∈ finishes st [id] ++ finishes st' l.
Proof.
  intros [Hl Ha Hb] Hid Hn. unfold finished at 1, finishes. rewrite (Ha x), elem_of_app.
  assert (∀ y, y ∈ (if is_terminal st then [id] else []) ↔ y = id ∧ is_terminal st = true) as H1.
  { intros y. destruct (is_terminal st); [rewrite list_elem_of_singleton|rewrite elem_of_nil]; naive_solver. }
  assert (∀ y, y ∈ (if is_terminal st' then l else []) ↔ y ∈ l ∧ is_terminal st' = true) as H2.
  { intros y. destruct (is_terminal st'); [|rewrite elem_of_nil]; naive_solver. }
  rewrite H1, H2. destruct (decide (x = id)) as [->|Hx]; [naive_solver|].
  destruct (decide (x ∈ l)) as [Hxl|Hxl]; [|unfold finished; naive_solver].
  assert (¬ finished jobs x) by (intros (? & E & ?); rewrite (Hb x Hxl) in E; by injection E as <-).
  naive_solver.
Qed.

Lemma terminal_inv_effect jobs id st l st' jobs' terminal (at_ : VirtualTime) :
  terminal_inv jobs terminal → call_effect jobs id st l st' jobs' → NoDup l → id ∉ l → ¬ finished jobs id →
  terminal_inv jobs' (terminal ++ ((fun x => (at_, x)) <$> finishes st [id] ++ finishes st' l)).
Proof.
  intros Ht He Hnd Hn Hid.
  eapply terminal_inv_new; [done| | |intros x; by eapply finished_effect|intros x; eapply gone_like, He].
  - unfold finishes. apply NoDup_app. destruct (is_terminal st), (is_terminal st'); split_and!;
      try done; try apply NoDup_singleton; try constructor; try by intros x ?%elem_of_nil.
    + by intros x ->%list_elem_of_singleton.
    + by intros x _ ?%elem_of_nil.
  - intros x Hx. assert (x = id ∨ x ∈ l) as [->|Hl].
    { unfold finishes in Hx. apply elem_of_app in Hx as [Hx|Hx].
      - destruct (is_terminal st); [left; set_solver|by apply elem_of_nil in Hx].
      - destruct (is_terminal st'); [by right|by apply elem_of_nil in Hx]. }
    + intros [?|[Hg _]]; [done|]. pose proof (ce_after _ _ _ _ _ _ He id) as Ha. rewrite decide_True in Ha by done.
      unfold job_state in Ha. by rewrite (arena_rel_None _ _ _ _ (ce_like _ _ _ _ _ _ He) Hg) in Ha.
    + pose proof (ce_blocked _ _ _ _ _ _ He x Hl) as Hb. intros [(stx & E & Hstx)|[Hg _]].
      * rewrite Hb in E. by injection E as <-.
      * unfold job_state in Hb. by rewrite Hg in Hb.
Qed.

(** ** The log *)

(** An accepted job requests something, and its payload can be logged. *)
Definition accepted (j : Job) : Prop :=
  request j ≠ Resources_ZERO ∧ Z.of_nat (length (payload j)) <= u32_max.

(** One logged transition, as the live engine makes it. *)
Inductive log_event (config : CycleConfig) : Scheduler → Arena Job → LogRecord → Scheduler → Arena Job → Prop :=
| ev_submitted s jobs job jobs1 id now s' jobs' st :
    state job = JobState.Submitted → Arena_insert jobs job = Done (jobs1, id) →
    Z.of_nat (length (slots jobs1)) <= u32_max → accepted job →
    submit s id jobs1 now config = Done (s', jobs', Ok st) →
    log_event config s jobs (LogRecord.Submitted id job) s' jobs'
| ev_dispatched s jobs id j now :
    Arena_get jobs id = Some j → state j = JobState.Ready →
    log_event config s jobs (LogRecord.Dispatched id now) s
      (Arena_set jobs id (job_with_state j JobState.Running))
| ev_completed s jobs id now s' jobs' promoted :
    on_completed s id jobs now config = Done (s', jobs', Ok promoted) →
    log_event config s jobs (LogRecord.Completed id now) s' jobs'
| ev_failed s jobs id now s' jobs' C :
    on_failed s id jobs now config = Done (s', jobs', Ok C) →
    log_event config s jobs (LogRecord.Failed id now) s' jobs'
| ev_cancelled s jobs id now s' jobs' C :
    cancel s id jobs now config = Done (s', jobs', Ok C) →
    log_event config s jobs (LogRecord.Cancelled id now) s' jobs'
| ev_requeued s jobs id j now s' jobs' :
    Arena_get jobs id = Some j → occupies_slot (state j) = true →
    requeue s id jobs now config = Done (s', jobs', Ok tt) →
    log_event config s jobs (LogRecord.Requeued id now) s' jobs'
| ev_evicted s jobs id now s' jobs' :
    on_preempted s id jobs now config = Done (s', jobs', Ok tt) →
    log_event config s jobs (LogRecord.Requeued id now) s' jobs'
| ev_preempted s jobs id now s' jobs' :
    preempt s id jobs = (s', jobs', Ok tt) →
    log_event config s jobs (LogRecord.Preempted id now) s' jobs'
| ev_forgotten s jobs id j :
    Arena_get jobs id = Some j → is_terminal (state j) = true → JobId_generation id < u32_max →
    log_event config s jobs (LogRecord.Forgotten id) s (Arena_remove jobs id).1.

(** Logged transitions in order; in between the ready set and the ledgers may
    change, which the log does not record. *)
Inductive log_trace (config : CycleConfig) : Scheduler → Arena Job → list LogRecord → Scheduler → Arena Job → Prop :=
| lt_nil s jobs : log_trace config s jobs [] s jobs
| lt_silent s s1 jobs rs s' jobs' :
    sc_deps s1 = sc_deps s → log_trace config s1 jobs rs s' jobs' → log_trace config s jobs rs s' jobs'
| lt_event s jobs r s1 jobs1 rs s' jobs' :
    record_fits r → log_event config s jobs r s1 jobs1 → log_trace config s1 jobs1 rs s' jobs' →
    log_trace config s jobs (r :: rs) s' jobs'.

Lemma log_trace_app config s jobs rs s1 jobs1 rs' s' jobs' :
  log_trace config s jobs rs s1 jobs1 → log_trace config s1 jobs1 rs' s' jobs' →
  log_trace config s jobs (rs ++ rs') s' jobs'.
Proof. intros H1 H2. induction H1; simpl; eauto using log_trace. Qed.

Lemma log_trace_one config s jobs r s' jobs' :
  record_fits r → log_event config s jobs r s' jobs' → log_trace config s jobs [r] s' jobs'.
Proof. eauto using log_trace. Qed.

(** ** Promises

    What leaves the daemon with a batch, and the record that must be in the batch
    for it to be safe. *)

(** The record that makes a held dispatch safe to send. *)
Definition dispatch_logged (rs : list LogRecord) (d : Dispatch) : Prop :=
  match d with
  | Dispatch.Assign _ id _ _ => ∃ now, LogRecord.Dispatched id now ∈ rs
  | Dispatch.Preempt _ id _ => ∃ now, LogRecord.Preempted id now ∈ rs
  | Dispatch.Kill _ _ => False
  end.

(** The record that makes a deferred answer true. *)
Definition answer_logged (rs : list LogRecord) (a : Answer) : Prop :=
  match a with
  | Answer.Submit _ (Ok (id, _)) => ∃ job, LogRecord.Submitted id job ∈ rs
  | Answer.Cancel _ (Ok _) => ∃ id now, LogRecord.Cancelled id now ∈ rs
  | _ => True
  end.

Lemma dispatch_logged_mono rs rs' d : rs ⊆ rs' → dispatch_logged rs d → dispatch_logged rs' d.
Proof. intros Hs. destruct d; simpl; [|done|]; intros (now & ?); exists now; by apply Hs. Qed.

Lemma answer_logged_mono rs rs' a : rs ⊆ rs' → answer_logged rs a → answer_logged rs' a.
Proof.
  intros Hs. destruct a as [? [[]|]|? []| | | | | |]; simpl; try done.
  - intros (job & ?). exists job. by apply Hs.
  - intros (id & now & ?). exists id, now. by apply Hs.
Qed.

(** What a worker is told to do with a job, and the record or the message that
    says so. *)
Module Directive.
Inductive Directive : Type := Start (id : JobId) | Evict (id : JobId).
End Directive.
Abbreviation Directive := Directive.Directive.

Definition record_directive (r : LogRecord) : option Directive :=
  match r with
  | LogRecord.Dispatched id _ => Some (Directive.Start id)
  | LogRecord.Preempted id _ => Some (Directive.Evict id)
  | _ => None
  end.

Definition dispatch_directive (d : Dispatch) : option Directive :=
  match d with
  | Dispatch.Assign _ id _ _ => Some (Directive.Start id)
  | Dispatch.Preempt _ id _ => Some (Directive.Evict id)
  | Dispatch.Kill _ _ => None
  end.

(** The dispatches are, one by one and in order, those of the records; [owed] are
    recorded and not dispatched yet. *)
Definition directed (rs : list LogRecord) (ds : list Dispatch) (owed : list Directive) : Prop :=
  Some <$> omap record_directive rs = (dispatch_directive <$> ds) ++ (Some <$> owed).

Lemma directed_app rs ds rs' ds' owed : directed rs ds [] → directed rs' ds' owed → directed (rs ++ rs') (ds ++ ds') owed.
Proof.
  unfold directed. cbn [fmap list_fmap]. rewrite app_nil_r. intros E E'. by rewrite omap_app, !fmap_app, E, E', app_assoc.
Qed.

Lemma directed_logged rs ds d : directed rs ds [] → d ∈ ds → dispatch_logged rs d.
Proof.
  unfold directed. cbn [fmap list_fmap]. rewrite app_nil_r. intros E Hd.
  assert (dispatch_directive d ∈ Some <$> omap record_directive rs) as (o & Eo & (r & Hr & Er)%list_elem_of_omap)%list_elem_of_fmap.
  { rewrite E. by apply list_elem_of_fmap_2. }
  destruct d, r; cbn in *; simplify_eq; by eexists.
Qed.

(** The batch sends what its records say and nothing else, and its answers are
    true of them. *)
Record kept (c : EngineCommit) (rs : list LogRecord) : Prop := {
  kp_dispatches : directed rs (dispatches c) [];
  kp_acks : Forall (answer_logged rs) (acks c);
}.

(** What was added to the pending batch on top of the records [rs]. *)
Definition promises (j j' : EngineJournal) (rs : list LogRecord) (owed : list Directive) : Prop :=
  ∃ ds ans, dispatches (jr_pending j') = dispatches (jr_pending j) ++ ds ∧
    acks (jr_pending j') = acks (jr_pending j) ++ ans ∧ directed rs ds owed ∧ Forall (answer_logged rs) ans.

Lemma promises_same j j' rs :
  dispatches (jr_pending j') = dispatches (jr_pending j) → acks (jr_pending j') = acks (jr_pending j) →
  promises j j' rs (omap record_directive rs).
Proof. intros E1 E2. exists [], []. by rewrite E1, E2, !app_nil_r. Qed.

Lemma answers_logged_mono rs rs' ans : rs ⊆ rs' → Forall (answer_logged rs) ans → Forall (answer_logged rs') ans.
Proof. intros Hs Ha. eapply Forall_impl; [exact Ha|]. intros a. by apply answer_logged_mono. Qed.

Lemma promises_trans j1 j2 j3 rs rs' owed : promises j1 j2 rs [] → promises j2 j3 rs' owed → promises j1 j3 (rs ++ rs') owed.
Proof.
  intros (ds & ans & Ed & Ea & Hd & Ha) (ds' & ans' & Ed' & Ea' & Hd' & Ha'). exists (ds ++ ds'), (ans ++ ans').
  rewrite Ed', Ed, Ea', Ea, <-!app_assoc. do 2 (split; [done|]). split; [by apply directed_app|].
  apply Forall_app; split; (eapply answers_logged_mono; [|eassumption]); set_solver.
Qed.

Lemma promises_kept j j' rs rs' :
  promises j j' rs' [] → kept (jr_pending j) rs → kept (jr_pending j') (rs ++ rs').
Proof.
  intros (ds & ans & Ed & Ea & Hd & Ha) [Kd Ka]. split; [rewrite Ed; by apply directed_app|].
  rewrite Ea. apply Forall_app; split; (eapply answers_logged_mono; [|eassumption]); set_solver.
Qed.

Section Invariant.
Context (hash : bytes → Z).

(** The engine appended [rs] to its pending batch, and what it promised on top of
    them. *)
Definition logs (e e' : Engine) (rs : list LogRecord) (owed : list Directive) : Prop :=
  match eg_journal e, eg_journal e' with
  | Some j, Some j' =>
      (∀ rb osn rf, pending_ok hash j rb osn rf → pending_ok hash j' rb osn (rf ++ rs)) ∧ promises j j' rs owed
  | None, None => True
  | _, _ => False
  end.

Record engine_config_ok (c : EngineConfig) : Prop := {
  eo_cycle : config_ok (ec_cycle c);
  eo_cpu : 1 <= ec_worker_cpu c;
  eo_workers : 0 <= ec_min_workers c <= ec_max_workers c;
  eo_retain : is_u64 (ec_retain c);
  eo_window : is_u64 (ec_reconcile_window c);
}.

Record Engine_inv (e : Engine) : Prop := {
  en_config : engine_config_ok (eg_config e);
  en_sched : Sched_inv (eg_scheduler e) (eg_jobs e);
  en_edges : ∀ x, x ∈ edges (sc_deps (eg_scheduler e)) → issued (eg_jobs e) x;
  en_jobs : ∀ x j, Arena_get (eg_jobs e) x = Some j → accepted j;
  en_slots : slots_inv (eg_inventory e) (eg_running e) (eg_names e);
  en_running : running_inv (eg_jobs e) (eg_running e);
  en_held : held_inv (eg_jobs e) (eg_running e) (eg_reconciling e);
  en_terminal : terminal_inv (eg_jobs e) (eg_terminal e);
}.

(** A step of the engine: the invariant again, and the log it wrote. *)
Record step_ok (e e' : Engine) : Prop := {
  so_inv : Engine_inv e';
  so_config : eg_config e' = eg_config e;
  so_log : ∃ rs, log_trace (cycle_config e) (eg_scheduler e) (eg_jobs e) rs (eg_scheduler e') (eg_jobs e') ∧
    logs e e' rs [];
}.

Lemma logs_nil e e' : eg_journal e' = eg_journal e → logs e e' [] [].
Proof.
  intros E. unfold logs. rewrite E. destruct (eg_journal e); [|done]. split; [|by apply (promises_same _ _ [])].
  intros. by rewrite app_nil_r.
Qed.

Lemma logs_trans e1 e2 e3 rs rs' owed : logs e1 e2 rs [] → logs e2 e3 rs' owed → logs e1 e3 (rs ++ rs') owed.
Proof.
  unfold logs. destruct (eg_journal e1), (eg_journal e2), (eg_journal e3); try done.
  intros [H1 P1] [H2 P2]. split; [|by eapply promises_trans]. intros rb osn rf Hp. rewrite app_assoc. by apply H2, H1.
Qed.

#[export] Instance step_ok_trans : Transitive step_ok.
Proof.
  intros e1 e2 e3 [H1 C1 (rs1 & T1 & L1)] [H2 C2 (rs2 & T2 & L2)]. split; [done|congruence|].
  exists (rs1 ++ rs2). split; [|by eapply logs_trans]. unfold cycle_config in *. rewrite C1 in T2.
  by eapply log_trace_app.
Qed.

(** A step with the records it wrote. *)
Record step_of (e : Engine) (rs : list LogRecord) (owed : list Directive) (e' : Engine) : Prop := {
  sf_inv : Engine_inv e';
  sf_config : eg_config e' = eg_config e;
  sf_trace : log_trace (cycle_config e) (eg_scheduler e) (eg_jobs e) rs (eg_scheduler e') (eg_jobs e');
  sf_logs : logs e e' rs owed;
}.

Lemma step_of_ok e rs e' : step_of e rs [] e' → step_ok e e'.
Proof. intros [? ? ? ?]. split; [done|done|]. by exists rs. Qed.

Lemma step_ok_of e e' : step_ok e e' → ∃ rs, step_of e rs [] e'.
Proof. intros [? ? (rs & ? & ?)]. by exists rs. Qed.

Lemma step_of_trans e1 rs e2 rs' owed e3 : step_of e1 rs [] e2 → step_of e2 rs' owed e3 → step_of e1 (rs ++ rs') owed e3.
Proof.
  intros [H1 C1 T1 L1] [H2 C2 T2 L2]. split; [done|congruence| |by eapply logs_trans].
  unfold cycle_config in *. rewrite C1 in T2. by eapply log_trace_app.
Qed.

(** A directive that was recorded is dispatched, an answer is deferred. *)
Lemma logs_hold e e1 rs d o owed j :
  logs e e1 rs (o :: owed) → eg_journal e1 = Some j → dispatch_directive d = Some o →
  logs e (with_journal e1 (Some (hold j d))) rs owed.
Proof.
  unfold logs. intros L Ej Ed. rewrite Ej in L. cbn [eg_journal with_journal]. destruct (eg_journal e) as [j0|]; [|done].
  destruct L as [L (ds & ans & E1 & E2 & Hd & Ha)]. split; [by intros rb osn rf [? ? ? ? ? ?]%L|].
  exists (ds ++ [d]), ans. cbn. rewrite E1, E2, <-app_assoc. do 2 (split; [done|]). split; [|done].
  unfold directed in *. rewrite Hd, fmap_app, <-app_assoc. cbn. by rewrite Ed.
Qed.

Lemma logs_defer e e1 rs a owed j :
  logs e e1 rs owed → eg_journal e1 = Some j → answer_logged rs a → logs e (with_journal e1 (Some (defer j a))) rs owed.
Proof.
  unfold logs. intros L Ej Hl. rewrite Ej in L. cbn [eg_journal with_journal]. destruct (eg_journal e) as [j0|]; [|done].
  destruct L as [L (ds & ans & E1 & E2 & Hd & Ha)]. split; [by intros rb osn rf [? ? ? ? ? ?]%L|].
  exists ds, (ans ++ [a]). cbn. rewrite E1, E2, <-app_assoc. do 3 (split; [done|]). apply Forall_app. by repeat constructor.
Qed.

Lemma step_of_refl e : Engine_inv e → step_of e [] [] e.
Proof. intros He. split; [done|done|constructor|by apply logs_nil]. Qed.

Lemma step_ok_refl e : Engine_inv e → step_ok e e.
Proof. intros He. by eapply step_of_ok, step_of_refl. Qed.

(** A step that touches neither the scheduler nor the log. *)
Lemma step_ok_quiet e e' :
  Engine_inv e' → eg_config e' = eg_config e → eg_scheduler e' = eg_scheduler e → eg_jobs e' = eg_jobs e →
  eg_journal e' = eg_journal e → step_ok e e'.
Proof.
  intros He Hc Hs Hj Hjr. split; [done|done|]. exists []. rewrite Hs, Hj. split; [constructor|by apply logs_nil].
Qed.

(** Recording returns for a record that fits, and logs exactly it. *)
Lemma record_spec e r :
  record_fits r → ∃ j', record hash e r = Done (with_journal e j') ∧
    logs e (with_journal e j') [r] (option_list (record_directive r)).
Proof.
  intros Hr. unfold record, logs. destruct (eg_journal e) as [j|] eqn:E.
  - assert (∃ j', journal_record hash j r = Done j') as (j' & Ej).
    { unfold journal_record. rewrite encode_writes by done. simpl. eauto. }
    rewrite Ej. simpl. exists (Some j'). split; [done|]. split.
    + intros rb' osn' rf' Hp'. destruct (pending_record hash j rb' osn' rf' r Hp' Hr) as (j'' & E'' & ? & _). congruence.
    + unfold journal_record in Ej. apply exec_bind_Done in Ej as (fs & _ & [= <-]).
      replace (option_list (record_directive r)) with (omap record_directive [r]) by (cbn; by destruct (record_directive r)).
      by apply promises_same.
  - exists None. split; [|done]. f_equal. destruct e. simpl in *. by subst.
Qed.

(** ** Logged calls *)

Lemma accepted_like jobs jobs' :
  (∀ x j, Arena_get jobs x = Some j → accepted j) → arena_rel job_like jobs jobs' →
  ∀ x j, Arena_get jobs' x = Some j → accepted j.
Proof.
  intros Hr Ha x j' Hj'. destruct (arena_rel_Some _ _ _ _ _ Ha Hj') as (j & Hj & Hl).
  destruct (job_like_fields _ _ Hl) as (_ & _ & Eq & _ & _ & Ep & _). unfold accepted. rewrite Eq, Ep. by eapply Hr.
Qed.

(** A lifecycle call of the engine, with the finished jobs noted. *)
Lemma call_inv e s' jobs' id st l st' at_ :
  Engine_inv e → (id ∈ rj_job <$> eg_running e → occupies_slot st = true) → id ∉ eg_reconciling e →
  ¬ finished (eg_jobs e) id → call_effect (eg_jobs e) id st l st' jobs' → NoDup l → id ∉ l →
  Sched_inv s' jobs' → edges (sc_deps s') ⊆ edges (sc_deps (eg_scheduler e)) →
  Engine_inv (with_terminal (with_sched e s' jobs')
                (eg_terminal e ++ ((fun x => (at_, x)) <$> finishes st [id] ++ finishes st' l))).
Proof.
  intros He Hrun Hheld Hnf Hce Hnd Hid Hs Hed. pose proof He as [H1 H2 H3 H4 H5 H6 H7 H8]. split; try done; simpl.
  - intros x Hx. eapply issued_rel; [apply Hce|]. by apply H3, Hed.
  - exact (accepted_like _ _ H4 (ce_like _ _ _ _ _ _ Hce)).
  - by eapply running_inv_effect.
  - by eapply held_inv_effect.
  - by eapply terminal_inv_effect.
Qed.

(** The same with its record. *)
Lemma call_step e s' jobs' r id st l st' at_ :
  Engine_inv e → (id ∈ rj_job <$> eg_running e → occupies_slot st = true) → id ∉ eg_reconciling e →
  ¬ finished (eg_jobs e) id → call_effect (eg_jobs e) id st l st' jobs' → NoDup l → id ∉ l →
  Sched_inv s' jobs' → edges (sc_deps s') ⊆ edges (sc_deps (eg_scheduler e)) → record_fits r →
  log_event (cycle_config e) (eg_scheduler e) (eg_jobs e) r s' jobs' →
  ∃ j', record hash (with_sched e s' jobs') r = Done (with_journal (with_sched e s' jobs') j') ∧
    step_of e [r] (option_list (record_directive r)) (with_terminal (with_journal (with_sched e s' jobs') j')
                 (eg_terminal e ++ ((fun x => (at_, x)) <$> finishes st [id] ++ finishes st' l))).
Proof.
  intros He Hrun Hheld Hnf Hce Hnd Hid Hs Hed Hr Hev.
  destruct (record_spec (with_sched e s' jobs') r Hr) as (j' & -> & Hl).
  exists j'. split; [done|]. split; [|done|by apply log_trace_one|exact Hl].
  destruct (call_inv e s' jobs' id st l st' at_); done.
Qed.

(** ** Taking a job off its slot *)

Lemma with_running_inv e running' inv' :
  Engine_inv e → slots_inv inv' running' (eg_names e) → running_inv (eg_jobs e) running' →
  (rj_job <$> running') ⊆ (rj_job <$> eg_running e) →
  Engine_inv (with_inventory (with_running e running') inv').
Proof.
  intros [H1 H2 H3 H4 H5 H6 [G1 G2 G3] H8] Hs Hr Hsub. split; try done. simpl. split; try done.
  intros x Hx Hin. by eapply G3, Hsub.
Qed.

Lemma release_job_spec e id :
  Engine_inv e →
  ∃ running' inv' o, release_job e id = Done (with_inventory (with_running e running') inv', o) ∧
    Engine_inv (with_inventory (with_running e running') inv') ∧ id ∉ (rj_job <$> running') ∧
    match o with
    | Some slot => id ∈ rj_job <$> eg_running e
    | None => running' = eg_running e ∧ inv' = eg_inventory e
    end.
Proof.
  intros He. unfold release_job. destruct (position _ _) as [pos|] eqn:Ep.
  - apply position_Some in Ep as (r & Hr & Hid%Z.eqb_eq & _). subst id.
    destruct (swap_remove_Done _ _ _ Hr) as (running' & -> & Hp). cbn [exec_bind].
    destruct (running_inv_cons _ _ _ _ Hp (en_running _ He)) as [Hrv Hn].
    eexists _, _, _. split; [done|]. split; [|split; [done|]].
    + apply with_running_inv; [done| |done|rewrite Hp; set_solver].
      eapply (slots_inv_release _ (r :: running')); [|done]. eapply slots_inv_perm; [apply He|done].
    + apply list_elem_of_fmap_2. by eapply list_elem_of_lookup_2.
  - exists (eg_running e), (eg_inventory e), None. rewrite position_None in Ep.
    assert (with_inventory (with_running e (eg_running e)) (eg_inventory e) = e) as -> by by destruct e.
    split; [done|]. split; [done|]. split; [|done]. intros (r & -> & Hr)%list_elem_of_fmap.
    specialize (Ep r Hr). by rewrite Z.eqb_refl in Ep.
Qed.

Lemma unhold_spec e id :
  Engine_inv e →
  ∃ held' b, unhold e id = Done (with_reconciling e held', b) ∧ Engine_inv (with_reconciling e held') ∧
    id ∉ held' ∧ (if b : bool then id ∈ eg_reconciling e else held' = eg_reconciling e).
Proof.
  intros He. unfold unhold. pose proof (en_held _ He) as [G1 G2 G3].
  destruct (position _ _) as [pos|] eqn:Ep.
  - apply position_Some in Ep as (x & Hx & Hid%Z.eqb_eq & _). subst id.
    destruct (swap_remove_Done _ _ _ Hx) as (held' & -> & Hp). cbn [exec_bind].
    rewrite Hp in G1. apply NoDup_cons in G1 as [Hn G1]. exists held', true. split; [done|].
    split; [|split; [done|by eapply list_elem_of_lookup_2]].
    destruct He as [H1 H2 H3 H4 H5 H6 H7 H8]. split; try done. simpl. split; [done|..].
    + intros y Hy. apply G2. rewrite Hp. by right.
    + intros y Hy. apply G3. rewrite Hp. by right.
  - exists (eg_reconciling e), false. rewrite position_None in Ep.
    assert (with_reconciling e (eg_reconciling e) = e) as -> by by destruct e.
    split; [done|]. split; [done|]. split; [|done]. intros Hx. specialize (Ep id Hx). by rewrite Z.eqb_refl in Ep.
Qed.

(** The job was on a worker or held for one; now it is on neither. *)
Lemma take_off_spec e id :
  Engine_inv e →
  ∃ running' inv' held' b,
    take_off e id = Done (with_reconciling (with_inventory (with_running e running') inv') held', b) ∧
    Engine_inv (with_reconciling (with_inventory (with_running e running') inv') held') ∧
    id ∉ (rj_job <$> running') ∧ id ∉ held' ∧
    if b : bool then ∃ j, Arena_get (eg_jobs e) id = Some j ∧ occupies_slot (state j) = true
    else running' = eg_running e ∧ inv' = eg_inventory e ∧ held' = eg_reconciling e.
Proof.
  intros He. unfold take_off.
  destruct (release_job_spec e id He) as (running' & inv' & o & -> & He1 & Hn & Ho). cbn [exec_bind].
  destruct o as [slot|].
  - exists running', inv', (eg_reconciling e), true.
    assert (with_reconciling (with_inventory (with_running e running') inv') (eg_reconciling e) =
            with_inventory (with_running e running') inv') as -> by by destruct e.
    split; [done|]. split; [done|]. split; [done|]. split.
    + intros Hh. by eapply (hv_unbound _ _ _ (en_held _ He)).
    + apply list_elem_of_fmap in Ho as (r & -> & Hr).
      destruct (rv_live _ _ (en_running _ He) r Hr) as (j & ? & ? & _). eauto.
  - destruct Ho as [-> ->].
    assert (with_inventory (with_running e (eg_running e)) (eg_inventory e) = e) as -> by by destruct e.
    destruct (unhold_spec e id He) as (held' & b & -> & He2 & Hh & Hb). exists (eg_running e), (eg_inventory e), held', b.
    assert (with_inventory (with_running e (eg_running e)) (eg_inventory e) = e) as -> by by destruct e.
    split; [done|]. split; [done|]. split; [done|]. split; [done|]. destruct b; [|done].
    pose proof (hv_running _ _ _ (en_held _ He) _ Hb) as Hs. unfold job_state in Hs.
    destruct (Arena_get (eg_jobs e) id) as [j|]; [|done]. simpl in Hs. injection Hs as Hs. exists j. by rewrite Hs.
Qed.
End Invariant.

(** Job [id] is bound to [slot]. *)
Definition bound_to (e : Engine) (slot : SlotIndex) (id : JobId) : Prop :=
  ∃ r, r ∈ eg_running e ∧ rj_job r = id ∧ rj_slot r = slot.

(** Nothing is bound to a slot that no worker has. *)
Lemma vacant_unbound e i id : Engine_inv e → vec_get (eg_names e) i = Some None → ¬ bound_to e i id.
Proof.
  intros He Hn (r & Hr & _ & Hs). pose proof (sv_vacant _ _ _ (en_slots _ He) i Hn) as Hv.
  pose proof (sv_used _ _ _ (en_slots _ He) _ _ Hv) as Hu. cbn in Hu.
  destruct (rv_live _ _ (en_running _ He) r Hr) as (j & Hj & _ & Eq). destruct (en_jobs _ He _ _ Hj) as [Hz _]. apply Hz.
  rewrite <-Eq. destruct (list_elem_of_split _ _ Hr) as (l1 & l2 & E). rewrite E, used_app in Hu. cbn in Hu.
  rewrite Hs, Z.eqb_refl in Hu. pose proof (sv_wf_running _ _ _ (en_slots _ He)) as Hw.
  assert (Resources_le Resources_ZERO (used l1 i)) as H1 by (apply used_nonneg; intros q Hq; apply Hw; rewrite E, elem_of_app, elem_of_cons; tauto).
  assert (Resources_le Resources_ZERO (used l2 i)) as H2 by (apply used_nonneg; intros q Hq; apply Hw; rewrite E, elem_of_app, elem_of_cons; tauto).
  specialize (Hw r Hr). clear -Hu H1 H2 Hw. revert Hu H1 H2 Hw.
  destruct (rj_resources r) as [a1 a2 a3], (used l1 i) as [b1 b2 b3], (used l2 i) as [c1 c2 c3].
  unfold Resources_le, Domain.Resources_wf, Resources_ZERO, is_u32, is_u64, is_u8. cbn. intros [= ? ? ?] ? ? ?. f_equal; lia.
Qed.
