(* ===== verification/EngineSteps.v ===== *)
(** * The engine's steps

    Every command handler and the tick of [Engine] return and keep the
    invariant of [EngineInv]; what each logged is exactly what it did. *)

From stdpp Require Import base strings list numbers option sets relations.
From Stdlib Require Import ZArith Lia.
From S2P Require Import Prelude Domain Arena Job Inventory Priority ReadySet Eligibility.
From S2P Require Import Decay FairShare Pack Backfill Preempt Scheduler Cycle Frame.
From S2P Require Import Codec LogRecord Log Snapshot Store Journal Command Engine EngineInv.
Open Scope Z_scope.
Open Scope list_scope.

(** ** The calls, as effects *)

Section Effects.
Context (s : Scheduler) (jobs : Arena Job) (id : JobId) (j : Job) (now : VirtualTime) (config : CycleConfig).
Hypothesis Hinv : Sched_inv s jobs.
Hypothesis Hcfg : config_ok config.
Hypothesis Hnow : is_u64 now.
Hypothesis Hj : Arena_get jobs id = Some j.

(** A call that returned, what it did, and that it kept the rest. *)
Definition call_done {A} (o : exec (outcome A)) (a : A) (st : JobState) (l : list JobId) (st' : JobState) : Prop :=
  ∃ s' jobs', o = Done (s', jobs', Ok a) ∧ Sched_inv s' jobs' ∧ call_effect jobs id st l st' jobs' ∧
    NoDup l ∧ id ∉ l ∧ edges (sc_deps s') ⊆ edges (sc_deps s).

Lemma not_among_blocked l : all_blocked jobs l → state j ≠ JobState.Blocked → id ∉ l.
Proof.
  intros Hb Hs Hin. specialize (Hb _ Hin). unfold job_state in Hb. rewrite Hj in Hb. simpl in Hb. congruence.
Qed.

Lemma occupies_not_blocked st : occupies_slot st = true → st ≠ JobState.Blocked ∧ is_terminal st = false.
Proof. by destruct st. Qed.

Lemma completed_done :
  occupies_slot (state j) = true →
  ∃ p, call_done (on_completed s id jobs now config) p JobState.Completed p JobState.Ready.
Proof.
  intros Ho. destruct (on_completed_spec s jobs id j now config) as (s' & jobs' & p & E & Hi & Hn & Hp & Hs); [done..|].
  destruct (on_completed_frame _ _ _ _ _ _ _ _ E) as [Hl He]. exists p, s', jobs'.
  assert (all_blocked jobs p) as Hb by (intros x [? _]%Hp; by eapply dep_edge_blocked).
  do 2 (split; [done|]). split; [done|]. split; [done|]. split; [|done].
  apply not_among_blocked; [done|]. by apply occupies_not_blocked.
Qed.

Lemma terminated_done {A} (o : exec (outcome A)) (a : A) C st s' jobs' :
  o = Done (s', jobs', Ok a) → call_frame s jobs o → terminated_post s jobs id st s' jobs' C →
  call_done o a st C JobState.Cancelled.
Proof.
  intros E Hf (Hi & Hn & HC & Hs). destruct (Hf _ _ _ E) as [Hl He]. exists s', jobs'.
  do 2 (split; [done|]). split; [split; [done|done|]|]. 
  - intros x [? ?]%HC. eapply cascade_blocked; [apply Hinv|done|done].
  - split; [done|]. split; [|done]. by intros [? _]%HC.
Qed.

Lemma failed_done :
  occupies_slot (state j) = true →
  ∃ C, call_done (on_failed s id jobs now config) C JobState.Failed C JobState.Cancelled.
Proof.
  intros Ho. destruct (on_failed_spec s jobs id j now config) as (s' & jobs' & C & E & Hp); [done..|].
  exists C. eapply terminated_done; [done|apply on_failed_frame|done].
Qed.

Lemma cancel_done :
  is_terminal (state j) = false →
  ∃ C, call_done (cancel s id jobs now config) C JobState.Cancelled C JobState.Cancelled.
Proof.
  intros Ho. destruct (cancel_spec s jobs id j now config) as (s' & jobs' & C & E & Hp); [done..|].
  exists C. eapply terminated_done; [done|apply cancel_frame|done].
Qed.

(** A call that moves this job alone. *)
Lemma single_effect jobs' j' st :
  arena_rel job_like jobs jobs' → state j' = st →
  (∀ x, Arena_get jobs' x = if decide (id = x) then Some j' else Arena_get jobs x) →
  call_effect jobs id st [] st jobs'.
Proof.
  intros Hl Hs Hget. split; [done| |by intros x ?%elem_of_nil]. intros x. unfold job_state. rewrite Hget.
  destruct (decide (x = id)) as [->|Hx]; [rewrite decide_True by done; simpl; by rewrite Hs|].
  rewrite decide_False by done. by rewrite decide_False by apply not_elem_of_nil.
Qed.

Lemma requeue_done :
  occupies_slot (state j) = true →
  call_done (requeue s id jobs now config) tt JobState.Ready [] JobState.Ready.
Proof.
  intros Ho. destruct (requeue_spec s jobs id j now config) as (s' & jobs' & E & Hi & Hget); [done..|].
  destruct (requeue_frame _ _ _ _ _ _ _ _ E) as [Hl He]. exists s', jobs'. do 2 (split; [done|]).
  split; [by eapply single_effect; [done| |exact Hget]|]. split; [constructor|]. split; [apply not_elem_of_nil|done].
Qed.

Lemma on_preempted_done :
  state j = JobState.Preempted →
  call_done (on_preempted s id jobs now config) tt JobState.Ready [] JobState.Ready.
Proof.
  intros Ho. destruct (on_preempted_spec s jobs id j now config) as (s' & jobs' & E & Hi & Hget); [done..|].
  destruct (on_preempted_frame _ _ _ _ _ _ _ _ E) as [Hl He]. exists s', jobs'. do 2 (split; [done|]).
  split; [by eapply single_effect; [done| |exact Hget]|]. split; [constructor|]. split; [apply not_elem_of_nil|done].
Qed.

Lemma preempt_done :
  state j = JobState.Running →
  call_done (Done (preempt s id jobs)) tt JobState.Preempted [] JobState.Preempted.
Proof.
  intros Ho. destruct (preempt_spec s jobs id j Hinv Hj Ho) as (jobs' & E & Hi & Hget).
  destruct (preempt_frame _ _ _ s jobs' (Ok tt) (f_equal Done E)) as [Hl He]. exists s, jobs'.
  split; [by rewrite E|]. split; [done|]. split; [|split; [constructor|split; [apply not_elem_of_nil|done]]].
  eapply single_effect; [done| |intros x; rewrite Hget; by eapply Arena_set_get]. done.
Qed.
End Effects.

(** The records of the engine that carry no job always fit. *)
Lemma event_fits (mk : JobId → VirtualTime → LogRecord) id now :
  mk ∈ [LogRecord.Dispatched; LogRecord.Completed; LogRecord.Failed; LogRecord.Cancelled;
        LogRecord.Requeued; LogRecord.Preempted] →
  is_u64 id → is_u64 now → record_fits (mk id now).
Proof.
  intros Hm Hi Hn. repeat (apply elem_of_cons in Hm as [->|Hm]; [split; [done|simpl; lia]|]).
  by apply elem_of_nil in Hm.
Qed.

Lemma forgotten_fits id : is_u64 id → record_fits (LogRecord.Forgotten id).
Proof. intros Hi. split; [done|simpl; lia]. Qed.

Lemma note_all_terminal_eq e ids at_ :
  note_all_terminal e ids at_ = with_terminal e (eg_terminal e ++ ((fun x => (at_, x)) <$> ids)).
Proof.
  unfold note_all_terminal. revert e. induction ids as [|x ids IH]; intros e; simpl.
  - rewrite app_nil_r. by destruct e.
  - rewrite IH. unfold note_terminal. simpl. by rewrite <-app_assoc.
Qed.

Section Steps.
Context (hash : bytes → Z) {Q : Type → Type} `{ArrayQueue Q}.

#[local] Abbreviation step_ok := (step_ok hash).

(** ** What does not touch the state the invariant speaks of *)

Lemma push_dispatch_of e (w : World Q) d :
  Engine_inv e → step_of hash e [] [] (push_dispatch e w d).1.
Proof.
  intros He. unfold push_dispatch. destruct (outbox_push _ _) as [o [u|b]]; [by apply step_of_refl|].
  split; [by destruct He|done|constructor|by apply logs_nil].
Qed.

Lemma push_dispatch_ok e (w : World Q) d : Engine_inv e → step_ok e (push_dispatch e w d).1.
Proof. intros He. by eapply step_of_ok, push_dispatch_of. Qed.

Lemma push_dispatch_names e (w : World Q) d : eg_names (push_dispatch e w d).1 = eg_names e.
Proof. unfold push_dispatch. by destruct (outbox_push _ _) as [? []]. Qed.

(** A kill sent at the end of a step. *)
Lemma step_then_push e e1 (w : World Q) d :
  step_ok e e1 → eg_names e1 = eg_names e →
  ∃ e' w', Done (push_dispatch e1 w d) = Done (e', w') ∧ step_ok e e' ∧ eg_names e' = eg_names e.
Proof.
  intros H1 Hn. exists (push_dispatch e1 w d).1, (push_dispatch e1 w d).2. split; [by destruct (push_dispatch e1 w d)|].
  split; [etrans; [exact H1|apply push_dispatch_ok, H1]|]. by rewrite push_dispatch_names.
Qed.

(** An answer or a dispatch that waits for the records of the step it ends. *)
Lemma answer_durably_of e rs e1 (w : World Q) a :
  step_of hash e rs [] e1 → answer_logged rs a → step_of hash e rs [] (answer_durably e1 w a).1.
Proof.
  intros He Ha. unfold answer_durably. destruct (eg_journal e1) as [j|] eqn:Ej; [|done].
  destruct He as [H1 H2 H3 H4]. split; [by destruct H1|done|done|by apply logs_defer].
Qed.

(** Pushing to the outbox changes nothing the log speaks of. *)
Lemma push_dispatch_logs e0 e (w : World Q) d rs owed :
  logs hash e0 e rs owed → logs hash e0 (push_dispatch e w d).1 rs owed.
Proof. unfold push_dispatch. by destruct (outbox_push _ _) as [o [u|b]]. Qed.

Lemma dispatch_durably_logs e0 e (w : World Q) d rs o :
  logs hash e0 e rs [o] → dispatch_directive d = Some o → logs hash e0 (dispatch_durably e w d).1 rs [].
Proof.
  intros L Hd. unfold dispatch_durably. destruct (eg_journal e) as [j|] eqn:Ej; [by eapply logs_hold|].
  apply push_dispatch_logs. unfold logs in *. rewrite Ej in *. by destruct (eg_journal e0).
Qed.

Lemma dispatch_durably_of e rs e1 (w : World Q) d o :
  step_of hash e rs [o] e1 → dispatch_directive d = Some o → step_of hash e rs [] (dispatch_durably e1 w d).1.
Proof.
  intros [H1 H2 H3 H4] Hd. pose proof (dispatch_durably_logs e e1 w d rs o H4 Hd) as L.
  unfold dispatch_durably, push_dispatch in *. destruct (eg_journal e1); [|destruct (outbox_push _ _) as [? []]];
    (split; [by destruct H1|done|done|done]).
Qed.

(** An answer that promises nothing. *)
Lemma answer_durably_ok e (w : World Q) a : Engine_inv e → answer_logged [] a → step_ok e (answer_durably e w a).1.
Proof. intros He Ha. eapply step_of_ok, answer_durably_of; [by apply step_of_refl|done]. Qed.

(** The handlers that also return the world. *)
Definition returns_ok (e : Engine) (o : exec (Engine * World Q)) : Prop :=
  ∃ e' w', o = Done (e', w') ∧ step_ok e e'.

Lemma returns_ok_pair e (p : Engine * World Q) : step_ok e p.1 → returns_ok e (Done p).
Proof. destruct p as [e' w']. intros Hs. by exists e', w'. Qed.

Lemma returns_ok_trans e e1 o : step_ok e e1 → returns_ok e1 o → returns_ok e o.
Proof. intros Hs (e' & w' & -> & Hs'). exists e', w'. split; [done|by etrans]. Qed.

Lemma requeue_logged_ok e id now j :
  Engine_inv e → is_u64 now → Arena_get (eg_jobs e) id = Some j → occupies_slot (state j) = true →
  id ∉ (rj_job <$> eg_running e) → id ∉ eg_reconciling e →
  ∃ s' jobs' jr, requeue_logged hash e id now = Done (with_journal (with_sched e s' jobs') jr) ∧
    step_ok e (with_journal (with_sched e s' jobs') jr) ∧
    call_effect (eg_jobs e) id JobState.Ready [] JobState.Ready jobs'.
Proof.
  intros He Hnow Hj Ho Hr Hh. pose proof (en_sched _ He) as Hs.
  destruct (requeue_done (eg_scheduler e) (eg_jobs e) id j now (cycle_config e) Hs (eo_cycle _ (en_config _ He)) Hnow Hj Ho)
    as (s' & jobs' & E & Hi & Hce & _ & _ & Hed).
  unfold requeue_logged, lift_call. rewrite E. cbn [exec_bind].
  destruct (call_step hash e s' jobs' (LogRecord.Requeued id now) id JobState.Ready [] JobState.Ready now)
    as (jr & Er & Hok%step_of_ok); try done.
  - intros (st & Est & Ht). unfold job_state in Est. rewrite Hj in Est. injection Est as <-.
    apply occupies_not_blocked in Ho as [_ ?]. congruence.
  - constructor.
  - apply not_elem_of_nil.
  - apply event_fits; [set_solver|by eapply Arena_get_u64; [apply Hs|]|done].
  - by eapply ev_requeued.
  - exists s', jobs', jr. split; [by rewrite Er|]. split; [|done].
    simpl in Hok. rewrite app_nil_r in Hok. exact Hok.
Qed.

(** ** Reports *)

(** The job taken off its slot is not finished. *)
Lemma occupied_unfinished jobs id j :
  Arena_get jobs id = Some j → occupies_slot (state j) = true → ¬ finished jobs id.
Proof.
  intros Hj Ho (st & Est & Ht). unfold job_state in Est. rewrite Hj in Est. injection Est as <-.
  apply occupies_not_blocked in Ho as [_ ?]. congruence.
Qed.

Lemma take_off_quiet e running' inv' held' :
  let e1 := with_reconciling (with_inventory (with_running e running') inv') held' in
  Engine_inv e1 → step_ok e e1.
Proof. intros e1 He1. by apply step_ok_quiet. Qed.

Lemma on_completed_report_ok e id now :
  Engine_inv e → is_u64 now →
  ∃ e', on_completed_report hash e id now = Done e' ∧ step_ok e e'.
Proof.
  intros He Hnow. unfold on_completed_report.
  destruct (take_off_spec e id He) as (running' & inv' & held' & b & -> & He1 & Hn & Hh & Hb). cbn [exec_bind].
  set (e1 := with_reconciling (with_inventory (with_running e running') inv') held') in *.
  pose proof (take_off_quiet _ _ _ _ He1 : step_ok e e1) as H1. destruct b; [|by exists e1].
  destruct Hb as (j & Hj & Ho).
  destruct (completed_done (eg_scheduler e1) (eg_jobs e1) id j now (cycle_config e1) (en_sched _ He1)
    (eo_cycle _ (en_config _ He1)) Hnow Hj Ho) as (p & s' & jobs' & E & Hi & Hce & Hnd & Hid & Hed).
  unfold lift_call. rewrite E. cbn [exec_bind].
  destruct (call_step hash e1 s' jobs' (LogRecord.Completed id now) id JobState.Completed p JobState.Ready now)
    as (jr & Er & Hok%step_of_ok); try done.
  - by eapply occupied_unfinished.
  - apply event_fits; [set_solver|by eapply Arena_get_u64; [apply He1|]|done].
  - by econstructor.
  - rewrite Er. cbn [exec_bind]. eexists. split; [done|]. etrans; [exact H1|]. exact Hok.
Qed.

Lemma on_failed_report_ok e id now :
  Engine_inv e → is_u64 now →
  ∃ e', on_failed_report hash e id now = Done e' ∧ step_ok e e'.
Proof.
  intros He Hnow. unfold on_failed_report.
  destruct (take_off_spec e id He) as (running' & inv' & held' & b & -> & He1 & Hn & Hh & Hb). cbn [exec_bind].
  set (e1 := with_reconciling (with_inventory (with_running e running') inv') held') in *.
  pose proof (take_off_quiet _ _ _ _ He1 : step_ok e e1) as H1. destruct b; [|by exists e1].
  destruct Hb as (j & Hj & Ho).
  destruct (failed_done (eg_scheduler e1) (eg_jobs e1) id j now (cycle_config e1) (en_sched _ He1)
    (eo_cycle _ (en_config _ He1)) Hnow Hj Ho) as (C & s' & jobs' & E & Hi & Hce & Hnd & Hid & Hed).
  unfold lift_call. rewrite E. cbn [exec_bind].
  destruct (call_step hash e1 s' jobs' (LogRecord.Failed id now) id JobState.Failed C JobState.Cancelled now)
    as (jr & Er & Hok%step_of_ok); try done.
  - by eapply occupied_unfinished.
  - apply event_fits; [set_solver|by eapply Arena_get_u64; [apply He1|]|done].
  - by econstructor.
  - rewrite Er. cbn [exec_bind]. eexists. split; [done|]. etrans; [exact H1|].
    rewrite note_all_terminal_eq. unfold note_terminal. simpl. rewrite <-app_assoc. exact Hok.
Qed.

Lemma on_preempted_report_ok e id now :
  Engine_inv e → is_u64 now →
  ∃ e', on_preempted_report hash e id now = Done e' ∧ step_ok e e'.
Proof.
  intros He Hnow. unfold on_preempted_report.
  destruct (take_off_spec e id He) as (running' & inv' & held' & b & -> & He1 & Hn & Hh & Hb). cbn [exec_bind].
  set (e1 := with_reconciling (with_inventory (with_running e running') inv') held') in *.
  pose proof (take_off_quiet _ _ _ _ He1 : step_ok e e1) as H1. destruct b; [|by exists e1].
  destruct Hb as (j & Hj & Ho). change (eg_jobs e) with (eg_jobs e1) in Hj. unfold lift_call.
  destruct (decide (state j = JobState.Preempted)) as [Hp|Hp].
  - destruct (on_preempted_done (eg_scheduler e1) (eg_jobs e1) id j now (cycle_config e1) (en_sched _ He1)
      (eo_cycle _ (en_config _ He1)) Hnow Hj Hp) as (s' & jobs' & E & Hi & Hce & Hnd & Hid & Hed).
    rewrite E. cbn [exec_bind].
    destruct (call_step hash e1 s' jobs' (LogRecord.Requeued id now) id JobState.Ready [] JobState.Ready now)
      as (jr & Er & Hok%step_of_ok); try done.
    + by eapply occupied_unfinished.
    + apply event_fits; [set_solver|by eapply Arena_get_u64; [apply He1|]|done].
    + by eapply ev_evicted.
    + rewrite Er. eexists. split; [done|]. etrans; [exact H1|]. simpl in Hok. rewrite app_nil_r in Hok. exact Hok.
  - unfold on_preempted. rewrite Hj, bool_decide_eq_false_2 by done. cbn [negb exec_bind].
    exists (with_sched e1 (eg_scheduler e1) (eg_jobs e1)). split; [done|]. by destruct e1.
Qed.

(** ** Cancellation *)

Lemma on_cancel_ok e (w : World Q) id reply now :
  Engine_inv e → is_u64 now → returns_ok e (on_cancel hash e w id reply now).
Proof.
  intros He Hnow. unfold on_cancel.
  destruct (release_job_spec e id He) as (running' & inv' & o & -> & He1 & Hn & Ho). cbn [exec_bind].
  destruct (unhold_spec _ id He1) as (held' & b & -> & He2 & Hh & _). cbn [exec_bind].
  set (e1 := with_reconciling (with_inventory (with_running e running') inv') held') in *.
  eapply returns_ok_trans; [exact (take_off_quiet _ _ _ _ He2)|]. fold e1.
  unfold lift_call. destruct (Arena_get (eg_jobs e1) id) as [j|] eqn:Hj; [destruct (is_terminal (state j)) eqn:Ht|].
  - unfold cancel. rewrite Hj, bool_decide_eq_false_2 by (by intros Es; rewrite Es in Ht).
    cbn [exec_bind]. rewrite refused by (by destruct (state j)). cbn [exec_bind].
    assert (with_sched e1 (MkScheduler (sc_ready (eg_scheduler e1)) (sc_deps (eg_scheduler e1))
      (sc_fairshare (eg_scheduler e1))) (eg_jobs e1) = e1) as -> by (destruct e1 as [? ? ? [] ]; done).
    apply returns_ok_pair. by apply answer_durably_ok.
  - destruct (cancel_done (eg_scheduler e1) (eg_jobs e1) id j now (cycle_config e1) (en_sched _ He2)
      (eo_cycle _ (en_config _ He2)) Hnow Hj Ht) as (C & s' & jobs' & E & Hi & Hce & Hnd & Hid & Hed).
    rewrite E. cbn [exec_bind].
    destruct (call_step hash e1 s' jobs' (LogRecord.Cancelled id now) id JobState.Cancelled C JobState.Cancelled now)
      as (jr & Er & Hok); try done.
    + intros (st & Est & Hst). unfold job_state in Est. rewrite Hj in Est. injection Est as <-. congruence.
    + apply event_fits; [set_solver|by eapply Arena_get_u64; [apply He2|]|done].
    + by econstructor.
    + rewrite Er. cbn [exec_bind]. rewrite note_all_terminal_eq. unfold note_terminal. simpl. rewrite <-app_assoc.
      set (e2 := with_terminal _ _) in *. assert (answer_logged [LogRecord.Cancelled id now] (Answer.Cancel reply (Ok C))) as Ha.
      { exists id, now. by left. }
      destruct o as [slot|]; [|by eapply returns_ok_pair, step_of_ok, answer_durably_of].
      destruct (push_dispatch e2 w (Dispatch.Kill slot id)) as [e3 w3] eqn:Ep.
      pose proof (push_dispatch_of e2 w (Dispatch.Kill slot id) (sf_inv _ _ _ _ _ Hok)) as H3. rewrite Ep in H3.
      pose proof (step_of_trans _ _ _ _ _ _ _ Hok H3) as Hok3. by eapply returns_ok_pair, step_of_ok, answer_durably_of.
  - unfold cancel. rewrite Hj. cbn [exec_bind].
    assert (with_sched e1 (eg_scheduler e1) (eg_jobs e1) = e1) as -> by by destruct e1.
    apply returns_ok_pair. by apply answer_durably_ok.
Qed.

(** ** Submission *)

(** A submitted job as the conversion of a request leaves it, small enough for its
    dependencies to be counted and its record to be framed. *)
Record submittable (job : Job) : Prop := {
  sb_wf : Job_wf job;
  sb_deps : Z.of_nat (length (deps job)) <= u32_max;
  sb_state : state job = JobState.Submitted;
  sb_fits : ∀ id, is_u64 id → record_fits (LogRecord.Submitted id job);
}.

(** One that also asks for something.  No service checks this: a job that requests
    nothing at all is accepted, and can make a later tick panic
    ([EngineRun.empty_request_panics_a_tick]); the engine's invariant excludes it. *)
Record submit_ok (job : Job) : Prop := {
  sk_wf : Job_wf job;
  sk_deps : Z.of_nat (length (deps job)) <= u32_max;
  sk_state : state job = JobState.Submitted;
  sk_request : request job ≠ Resources_ZERO;
  sk_fits : ∀ id, is_u64 id → record_fits (LogRecord.Submitted id job);
}.

Lemma submit_ok_submittable job : submit_ok job → submittable job.
Proof. by intros [? ? ? ? ?]. Qed.

(** The arena can take one more job and stay within its index width. *)
Definition arena_room (jobs : Arena Job) : Prop :=
  free_head jobs ≠ None ∨ Z.of_nat (length (slots jobs)) < u32_max.

Lemma arena_room_insert jobs job :
  jobs_ok jobs → arena_room jobs →
  ∃ jobs1 id, Arena_insert jobs job = Done (jobs1, id) ∧ Arena_next_id jobs = Done id ∧
    Z.of_nat (length (slots jobs1)) <= u32_max ∧ is_u64 id.
Proof.
  intros Hjo Hroom. destruct (Arena_insert_spec jobs job) as (jobs1 & id & E & Hn & Hwf & _ & Hget).
  { apply Hjo. } { destruct Hroom; [by left|right; lia]. }
  exists jobs1, id. do 2 (split; [done|]). split.
  - unfold Arena_insert in E. destruct (free_head jobs) as [i|] eqn:Ef.
    + unfold vec_at, expect in E. destruct (vec_get (slots jobs) i) as [[|g n]|] eqn:Ei; [done| |done]. simpl in E.
      rewrite vec_put_Done in E by (by eapply vec_get_range). injection E as <- _. simpl.
      rewrite length_insert. apply Hjo.
    + destruct Hroom as [?|?]; [done|]. rewrite u32_from_usize_Done in E by lia. injection E as <- _. simpl.
      rewrite length_app. simpl. lia.
  - eapply Arena_get_u64; [exact Hwf|]. rewrite Hget. by rewrite decide_True.
Qed.

(** A new job joins the arena. *)
Lemma fresh_inv e s' jobs' id j' jr at_ :
  Engine_inv e → Sched_inv s' jobs' → Arena_get (eg_jobs e) id = None → ¬ issued (eg_jobs e) id →
  (∀ x, issued (eg_jobs e) x → issued jobs' x) →
  (∀ x, Arena_get jobs' x = if decide (id = x) then Some j' else Arena_get (eg_jobs e) x) →
  (∀ x, x ∈ edges (sc_deps s') → issued jobs' x) → accepted j' →
  Engine_inv (with_terminal (with_journal (with_sched e s' jobs') jr)
                (eg_terminal e ++ ((fun x => (at_, x)) <$> finishes (state j') [id]))).
Proof.
  intros [H1 H2 H3 H4 H5 [R1 R2] [G1 G2 G3] H8] Hs Hn Hni Hiss Hget Hed Hq.
  assert (∀ x, is_Some (Arena_get (eg_jobs e) x) → Arena_get jobs' x = Arena_get (eg_jobs e) x) as Hold.
  { intros x [j Hj]. rewrite Hget, decide_False; [done|]. congruence. }
  split; try done; simpl.
  - intros x j. rewrite Hget. case_decide; [by intros [= <-]|apply H4].
  - split; [done|]. intros r Hr. destruct (R2 r Hr) as (j & Hj & ?). exists j. by rewrite Hold by eauto.
  - split; [done| |done]. intros x Hx. specialize (G2 x Hx). unfold job_state in *. rewrite Hold; [done|].
    destruct (Arena_get (eg_jobs e) x); [eauto|done].
  - eapply terminal_inv_new; [exact H8| | | |].
    + unfold finishes. destruct (is_terminal _); [apply NoDup_singleton|constructor].
    + intros x Hx. assert (x = id) as -> by (unfold finishes in Hx; destruct (is_terminal _); set_solver).
      intros [(st & Est & _)|[_ ?]]; [|done]. unfold job_state in Est. by rewrite Hn in Est.
    + intros x. unfold finished, job_state, finishes. rewrite Hget. destruct (decide (id = x)) as [<-|Hx].
      * rewrite Hn. simpl. destruct (is_terminal (state j')) eqn:Et.
        -- split; [right; by left|]. intros _. by exists (state j').
        -- split; [intros (? & [= <-] & ?); congruence|]. by intros [(? & ? & _)|?%elem_of_nil].
      * split; [by left|]. intros [?|Hin]; [done|].
        destruct (is_terminal (state j')); [|by apply elem_of_nil in Hin]. by apply list_elem_of_singleton in Hin.
    + intros x [Hx Hx']. split; [|by apply Hiss]. rewrite Hget, decide_False; [done|]. by intros <-.
Qed.

(** What a submission does: a refusal is answered at once and changes nothing; an
    accepted job joins the arena under the announced handle in the state that is
    answered. *)
Lemma on_submit_form e (w : World Q) job reply now :
  Engine_inv e → is_u64 now → submittable job → arena_room (eg_jobs e) →
  ∃ id, Arena_next_id (eg_jobs e) = Done id ∧ Arena_get (eg_jobs e) id = None ∧
  match check_submit id job (eg_jobs e) with
  | Err err => on_submit hash e w job reply now = Done (e, answer w (Answer.Submit reply (Err err)))
  | Ok rd => ∃ e1, on_submit hash e w job reply now =
      Done (answer_durably e1 w (Answer.Submit reply (Ok (id, readiness_state rd)))) ∧
      (request job ≠ Resources_ZERO → step_of hash e [LogRecord.Submitted id job] [] e1) ∧
      (∀ x, Arena_get (eg_jobs e1) x =
         if decide (id = x) then Some (job_with_state job (readiness_state rd)) else Arena_get (eg_jobs e) x)
  end.
Proof.
  intros He Hnow [Hwf Hlen Hst Hfit] Hroom. pose proof (en_sched _ He) as Hs. unfold on_submit.
  destruct (arena_room_insert (eg_jobs e) job (si_jobs _ _ Hs) Hroom) as (jobs1 & id & Hins & Hnext & Hsl & Hid).
  rewrite Hnext.
  destruct (issued_insert _ _ _ _ (jo_arena _ (si_jobs _ _ Hs)) Hins) as (Hni & Hi1 & Hiss).
  destruct (submit_fresh (eg_scheduler e) (eg_jobs e) job jobs1 id now (cycle_config e) Hs Hwf Hlen Hst)
    as (_ & s' & jobs' & r & Es & Hs' & Hr); [|by eapply handle_not_sentinel|done|done|].
  { intros Hin. by apply Hni, (en_edges _ He). }
  destruct (insert_get (eg_scheduler e) (eg_jobs e) job jobs1 id Hs Hins) as (_ & _ & Hnone & Hget1).
  exists id. split; [done|]. split; [done|]. cbn [exec_bind].
  destruct (check_submit id job (eg_jobs e)) as [rd|err]; [|done].
  rewrite Hins. cbn [exec_bind]. rewrite Z.eqb_refl. cbn [negb].
  assert (Arena_get jobs1 id = Some job) as Hj1 by (rewrite Hget1; by rewrite decide_True).
  destruct (record_spec hash (with_jobs e jobs1) (LogRecord.Submitted id job) (Hfit id Hid))
    as (jr & Er & Hl).
  assert ((match eg_journal (with_jobs e jobs1), Arena_get (eg_jobs (with_jobs e jobs1)) id with
           | Some j, Some job => let! j := record_submitted hash j id job in Done (with_journal (with_jobs e jobs1) (Some j))
           | _, _ => Done (with_jobs e jobs1) end) = Done (with_journal (with_jobs e jobs1) jr)) as ->.
  { rewrite <-Er. unfold record. simpl. rewrite Hj1. by destruct (eg_journal e). }
  cbn [exec_bind]. unfold lift_call. simpl (eg_scheduler _). simpl (eg_jobs _).
  unfold cycle_config in Es |- *. simpl (eg_config _). rewrite Es. cbn [exec_bind].
  destruct Hr as [-> ->]. destruct (submit_frame _ _ _ _ _ _ _ _ Es) as [Hlike Hed].
  assert (∀ x, Arena_get (Arena_set jobs1 id (job_with_state job (readiness_state rd))) x =
            if decide (id = x) then Some (job_with_state job (readiness_state rd)) else Arena_get (eg_jobs e) x) as Hget'.
  { intros x. rewrite (Arena_set_get _ _ _ _ _ Hj1), Hget1. by repeat case_decide. }
  assert (request job ≠ Resources_ZERO → step_of hash e [LogRecord.Submitted id job] [] (with_terminal (with_journal (with_sched e s' (Arena_set jobs1 id (job_with_state job (readiness_state rd)))) jr)
    (eg_terminal e ++ ((fun x => (now, x)) <$> finishes (readiness_state rd) [id])))) as Hok.
  { intros Hreq. assert (accepted job) as Hacc by (split; [done|]; destruct (Hfit id Hid) as [[_ Hf] _]; apply Hf).
    split; [|done|by eapply log_trace_one, ev_submitted; [apply Hfit|..]|exact Hl].
    - eapply (fresh_inv e s' _ id (job_with_state job (readiness_state rd))); [done|done|done|done| | | |].
      + intros x Hx. eapply issued_rel; [exact Hlike|]. by apply Hiss.
      + done.
      + intros x [->|Hx]%Hed%elem_of_cons; (eapply issued_rel; [exact Hlike|]); [done|]. by apply Hiss, (en_edges _ He).
      + done.
  }
  unfold finishes in Hok. unfold note_terminal. destruct (is_terminal (readiness_state rd)); [by eexists|].
  simpl in Hok. rewrite app_nil_r in Hok. by eexists.
Qed.

Lemma on_submit_spec e (w : World Q) job reply now :
  Engine_inv e → is_u64 now → submit_ok job → arena_room (eg_jobs e) →
  ∃ id, Arena_next_id (eg_jobs e) = Done id ∧ Arena_get (eg_jobs e) id = None ∧
  match check_submit id job (eg_jobs e) with
  | Err err => on_submit hash e w job reply now = Done (e, answer w (Answer.Submit reply (Err err)))
  | Ok rd => ∃ e1, on_submit hash e w job reply now =
      Done (answer_durably e1 w (Answer.Submit reply (Ok (id, readiness_state rd)))) ∧
      step_of hash e [LogRecord.Submitted id job] [] e1 ∧
      (∀ x, Arena_get (eg_jobs e1) x =
         if decide (id = x) then Some (job_with_state job (readiness_state rd)) else Arena_get (eg_jobs e) x)
  end.
Proof.
  intros He Hnow Hk Hroom. destruct (on_submit_form e w job reply now He Hnow (submit_ok_submittable _ Hk) Hroom) as (id & Hn & Hg & Hr).
  exists id. split; [done|]. split; [done|]. destruct (check_submit id job (eg_jobs e)); [|done].
  destruct Hr as (e1 & E & Hs & Hx). exists e1. split; [done|]. split; [by apply Hs, (sk_request _ Hk)|done].
Qed.

Lemma on_submit_ok e (w : World Q) job reply now :
  Engine_inv e → is_u64 now → submit_ok job → arena_room (eg_jobs e) →
  returns_ok e (on_submit hash e w job reply now).
Proof.
  intros He Hnow Hk Hroom. destruct (on_submit_spec e w job reply now He Hnow Hk Hroom) as (id & _ & _ & Hr).
  destruct (check_submit id job (eg_jobs e)) as [rd|err].
  - destruct Hr as (e1 & -> & Hok & _). eapply returns_ok_pair, step_of_ok, answer_durably_of; [exact Hok|].
    exists job. by left.
  - rewrite Hr. by apply returns_ok_pair, step_ok_refl.
Qed.

(** ** Workers *)

(** The job holds a slot as far as the arena knows, and is bound to none. *)
Definition loose (e : Engine) (x : JobId) : Prop :=
  (∃ j, Arena_get (eg_jobs e) x = Some j ∧ occupies_slot (state j) = true) ∧
  x ∉ (rj_job <$> eg_running e) ∧ x ∉ eg_reconciling e.

Lemma adopt_running_ok e (w : World Q) id slot now :
  Engine_inv e → is_u64 now → id ∉ (rj_job <$> eg_running e) → id ∉ eg_reconciling e →
  vec_get (eg_names e) slot ≠ Some None →
  ∃ e' w', adopt_running hash e w id slot now = Done (e', w') ∧ step_ok e e' ∧ eg_names e' = eg_names e.
Proof.
  intros He Hnow Hr Hh Hname. unfold adopt_running.
  destruct (Arena_get (eg_jobs e) id) as [j|] eqn:Hj; [|eexists _, _; split; [done|split; [by apply step_ok_refl|done]]].
  case_bool_decide as Hs; cbn [negb]; [|eexists _, _; split; [done|split; [by apply step_ok_refl|done]]].
  assert (Resources_wf (request j)) as Hreq by (by eapply jobs_ok_requests; [apply He|]).
  destruct (try_allocate (eg_inventory e) slot (request j)) as [inv' [[]|err]] eqn:Ea.
  - eexists _, _. split; [done|]. split; [|done]. apply step_ok_quiet; try done.
    pose proof He as [H1 H2 H3 H4 H5 [R1 R2] [G1 G2 G3] H8]. split; try done; simpl.
    + by eapply slots_inv_allocate.
    + split.
      * rewrite fmap_app. apply NoDup_app. split; [done|]. split; [|apply NoDup_singleton].
        intros x Hx ->%list_elem_of_singleton. done.
      * intros r [?| ->%list_elem_of_singleton]%elem_of_app; [by apply R2|]. simpl. exists j. by rewrite Hs.
    + split; try done. intros x Hx. rewrite fmap_app, elem_of_app. intros [?|E%list_elem_of_singleton]; [by eapply G3|].
      simpl in E. by subst.
  - destruct (requeue_logged_ok e id now j He Hnow Hj) as (s' & jobs' & jr & -> & Hok & _); [by rewrite Hs|done|done|].
    cbn [exec_bind]. by apply step_then_push.
Qed.

(** Rebinding one running job to another slot. *)
Lemma rebind_inv e pos r slot inv' :
  Engine_inv e → eg_running e !! pos = Some r →
  try_allocate (release (eg_inventory e) (rj_slot r) (rj_resources r)).1 slot (rj_resources r) = (inv', Ok tt) →
  vec_get (eg_names e) slot ≠ Some None →
  Engine_inv (with_running (with_inventory e inv')
    (<[pos := MkRunningJob (rj_job r) slot (rj_resources r) (ends_at r)]> (eg_running e))).
Proof.
  intros He Hpos Ha Hname. set (r' := MkRunningJob (rj_job r) slot (rj_resources r) (ends_at r)).
  pose proof (delete_Permutation _ _ _ Hpos) as Hp. set (rest := delete pos (eg_running e)) in *.
  assert (<[pos := r']> (eg_running e) ≡ₚ rest ++ [r']) as Hp'.
  { apply (inj (cons r)). rewrite insert_Permutation_swap by done. rewrite Hp at 1.
    rewrite (Permutation_app_comm rest). simpl. by rewrite Permutation_swap. }
  assert (rj_job <$> <[pos := r']> (eg_running e) = rj_job <$> eg_running e) as Ej.
  { rewrite list_fmap_insert. apply list_insert_id. by rewrite list_lookup_fmap, Hpos. }
  pose proof He as [H1 H2 H3 H4 H5 [R1 R2] [G1 G2 G3] H8].
  assert (slots_inv (release (eg_inventory e) (rj_slot r) (rj_resources r)).1 rest (eg_names e)) as Hsl.
  { eapply (slots_inv_release _ (r :: rest)); [|done]. by eapply slots_inv_perm. }
  assert (r ∈ eg_running e) as Hin by by eapply list_elem_of_lookup_2.
  assert (Resources_wf (rj_resources r)) as Hrw by exact (sv_wf_running _ _ _ H5 r Hin).
  split; try done; simpl.
  - eapply slots_inv_perm; [|symmetry; exact Hp']. by eapply slots_inv_allocate.
  - split; [by rewrite Ej|]. intros q. rewrite Hp'. intros [Hq| ->%list_elem_of_singleton]%elem_of_app.
    + apply R2. rewrite Hp. by right.
    + simpl. by apply R2.
  - split; try done. by rewrite Ej.
Qed.

Lemma claim_ok e (w : World Q) id slot now :
  Engine_inv e → is_u64 now → vec_get (eg_names e) slot ≠ Some None →
  ∃ e' w', claim hash e w id slot now = Done (e', w') ∧ step_ok e e' ∧ eg_names e' = eg_names e.
Proof.
  intros He Hnow Hname. unfold claim.
  destruct (unhold_spec e id He) as (held' & b & -> & He1 & Hh & Hb). cbn [exec_bind].
  assert (step_ok e (with_reconciling e held')) as H1 by by apply step_ok_quiet.
  destruct b.
  { destruct (adopt_running_ok (with_reconciling e held') w id slot now He1 Hnow) as (e' & w' & -> & Hok & Hn);
      [by apply (hv_unbound _ _ _ (en_held _ He))|done|done|].
    exists e', w'. split; [done|]. split; [by etrans|done]. }
  subst held'. assert (with_reconciling e (eg_reconciling e) = e) as -> by by destruct e.
  clear He1 H1. destruct (position _ _) as [pos|] eqn:Ep.
  - apply position_Some in Ep as (r & Hr & Hid%Z.eqb_eq & _). rewrite (nth_at_Done _ _ _ Hr). cbn [exec_bind].
    destruct (try_allocate _ slot (rj_resources r)) as [inv' [[]|err]] eqn:Ea.
    + rewrite nth_put_Done by (by eapply lookup_lt_Some). cbn [exec_bind]. eexists _, _. split; [done|]. split; [|done].
      apply step_ok_quiet; try done. by apply rebind_inv.
    + destruct (swap_remove_Done _ _ _ Hr) as (running' & -> & Hp). cbn [exec_bind].
      destruct (running_inv_cons _ _ _ _ Hp (en_running _ He)) as [Hrv Hn].
      set (inv1 := (release (eg_inventory e) (rj_slot r) (rj_resources r)).1) in *.
      set (e1 := with_running (with_inventory e inv1) running').
      assert (Engine_inv e1) as He1.
      { apply (with_running_inv e running' inv1 He); [|done|rewrite Hp; set_solver].
        eapply (slots_inv_release _ (r :: running')); [|done]. eapply slots_inv_perm; [apply He|done]. }
      destruct (rv_live _ _ (en_running _ He) r) as (j & Hj & Ho & _); [by eapply list_elem_of_lookup_2|].
      rewrite Hid in Hj, Hn.
      destruct (requeue_logged_ok e1 id now j He1 Hnow Hj Ho Hn Hh) as (s' & jobs' & jr & -> & Hok & _).
      cbn [exec_bind]. apply step_then_push; [|done]. etrans; [|exact Hok]. by apply step_ok_quiet.
  - apply step_then_push; [by apply step_ok_refl|done].
Qed.

Lemma claims_ok e (w : World Q) ids slot now :
  Engine_inv e → is_u64 now → vec_get (eg_names e) slot ≠ Some None →
  ∃ e' w', exec_fold (fun ew id => claim hash ew.1 ew.2 id slot now) (e, w) ids = Done (e', w') ∧ step_ok e e'.
Proof.
  intros He Hnow. revert e w He. induction ids as [|id ids IH]; intros e w He Hname; cbn [exec_fold].
  { exists e, w. split; [done|by apply step_ok_refl]. }
  cbn [fst snd]. destruct (claim_ok e w id slot now He Hnow Hname) as (e1 & w1 & -> & H1 & Hn). cbn [exec_bind].
  destruct (IH e1 w1 (so_inv _ _ _ H1)) as (e' & w' & -> & H2); [by rewrite Hn|].
  exists e', w'. split; [done|by etrans].
Qed.

Lemma find_vacant_spec inv i names slot :
  find_vacant inv i names = Some slot → ∃ k, names !! k = Some None ∧ slot = Z.of_nat (i + k).
Proof.
  revert i. induction names as [|n names IH]; intros i E; simpl in E; [done|].
  destruct (if Z.of_nat i <=? u32_max then _ else false) eqn:Ef.
  - injection E as <-. exists 0%nat. split; [|f_equal; lia].
    destruct (Z.of_nat i <=? u32_max); [|done]. destruct (inventory_slot _ _); [|done]. by destruct n.
  - destruct (IH _ E) as (k & Hk & ->). exists (S k). split; [done|f_equal; lia].
Qed.

(** The slot a joining worker gets, and its name entry. *)
Lemma join_slot e cap name :
  Engine_inv e → Resources_wf cap → Z.of_nat (length (worker_slots (eg_inventory e))) < u32_max →
  ∃ inv slot names',
    (match find_vacant (eg_inventory e) 0 (eg_names e) with
     | Some slot => Done ((set_capacity (eg_inventory e) slot cap).1, slot)
     | None => push_slot (eg_inventory e) cap
     end) = Done (inv, slot) ∧
    vec_put (vec_grow (eg_names e) (Z.to_nat (slot + 1)) None) slot (Some name) = Done names' ∧
    slots_inv inv (eg_running e) names' ∧ vec_get names' slot = Some (Some name).
Proof.
  intros He Hc Hlen. pose proof (en_slots _ He) as Hs. destruct (find_vacant _ _ _) as [slot|] eqn:Ef.
  - apply find_vacant_spec in Ef as (k & Hk & ->). pose proof (lookup_lt_Some _ _ _ Hk) as Hlt.
    assert (vec_get (eg_names e) (Z.of_nat (0 + k)) = Some None) as Hn
      by (rewrite vec_get_lookup by lia; by rewrite Nat2Z.id).
    eexists _, _, _. split; [done|].
    assert (vec_grow (eg_names e) (Z.to_nat (Z.of_nat (0 + k) + 1)) None = eg_names e) as ->.
    { unfold vec_grow. replace (_ - _)%nat with 0%nat by lia. apply app_nil_r. }
    rewrite vec_put_Done by (by eapply vec_get_range). split; [done|]. split; [by apply slots_inv_reuse|].
    rewrite vec_get_insert by (by eapply vec_get_range). by rewrite decide_True.
  - destruct (slots_inv_push _ _ _ Hs cap name Hc Hlen) as (inv' & -> & Hs'). rewrite <-(sv_names _ _ _ Hs).
    eexists _, _, _. split; [done|].
    assert (vec_grow (eg_names e) (Z.to_nat (Z.of_nat (length (eg_names e)) + 1)) None = eg_names e ++ [None]) as ->.
    { unfold vec_grow. by replace (_ - _)%nat with 1%nat by lia. }
    rewrite vec_put_Done by (rewrite length_app; simpl; lia). split; [done|].
    rewrite Nat2Z.id, insert_app_r_alt, Nat.sub_diag by lia. simpl. split; [done|].
    rewrite vec_get_snoc. by rewrite decide_True.
Qed.

Lemma on_worker_joined_ok e (w : World Q) name cap in_flight reply now :
  Engine_inv e → is_u64 now → Resources_wf cap → Z.of_nat (length (worker_slots (eg_inventory e))) < u32_max →
  returns_ok e (on_worker_joined hash e w name cap in_flight reply now).
Proof.
  intros He Hnow Hc Hlen. unfold on_worker_joined.
  destruct (join_slot e cap name He Hc Hlen) as (inv & slot & names' & -> & Ep & Hs & Hn). cbn [exec_bind].
  simpl (eg_names (with_inventory e inv)). rewrite Ep. cbn [exec_bind].
  set (e1 := with_names (with_inventory e inv) names').
  assert (Engine_inv e1) as He1 by (destruct He; by split).
  destruct (claims_ok e1 w in_flight slot now He1 Hnow) as (e' & w' & -> & Hok).
  { simpl. by rewrite Hn. }
  cbn [exec_bind]. eexists _, _. split; [done|]. etrans; [|exact Hok]. by apply step_ok_quiet.
Qed.

(** Requeueing a list of loose jobs, all in a state in which [f] requeues. *)
Lemma requeue_all_ok (P : JobState → Prop) (f : Engine → JobId → exec Engine) e ids now :
  (∀ e id st, job_state (eg_jobs e) id = Some st → P st → f e id = requeue_logged hash e id now) →
  Engine_inv e → is_u64 now → NoDup ids →
  (∀ x, x ∈ ids → loose e x ∧ ∃ st, job_state (eg_jobs e) x = Some st ∧ P st) →
  ∃ s' jobs' jr, exec_fold f e ids = Done (with_journal (with_sched e s' jobs') jr) ∧
    step_ok e (with_journal (with_sched e s' jobs') jr) ∧
    (∀ x, x ∈ ids → job_state jobs' x = Some JobState.Ready) ∧
    (∀ x, x ∉ ids → job_state jobs' x = job_state (eg_jobs e) x).
Proof.
  intros Hf He Hnow Hnd. revert e He. induction Hnd as [|id ids Hn _ IH]; intros e He Hl; cbn [exec_fold].
  { exists (eg_scheduler e), (eg_jobs e), (eg_journal e).
    assert (with_journal (with_sched e (eg_scheduler e) (eg_jobs e)) (eg_journal e) = e) as -> by by destruct e.
    split; [done|]. split; [by apply step_ok_refl|]. split; [by intros x ?%elem_of_nil|done]. }
  destruct (Hl id) as (((j & Hj & Ho) & Hr & Hh) & st & Hst & HP); [by left|]. rewrite (Hf e id st Hst HP).
  destruct (requeue_logged_ok e id now j He Hnow Hj Ho Hr Hh) as (s1 & jobs1 & jr1 & -> & H1 & Hce). cbn [exec_bind].
  set (e1 := with_journal (with_sched e s1 jobs1) jr1) in *.
  assert (∀ x, job_state jobs1 x = if decide (x = id) then Some JobState.Ready else job_state (eg_jobs e) x) as Hst1.
  { intros x. rewrite (ce_after _ _ _ _ _ _ Hce x). case_decide; [done|]. by rewrite decide_False by apply not_elem_of_nil. }
  destruct (IH e1 (so_inv _ _ _ H1)) as (s' & jobs' & jr & -> & H2 & Hin & Hout).
  { intros x Hx. destruct (Hl x) as (((jx & Hjx & Hox) & ? & ?) & Hsx); [by right|].
    pose proof (Hst1 x) as Es. rewrite decide_False in Es by (by intros ->). simpl. rewrite Es. split; [|done]. split; [|done].
    unfold job_state in Es. rewrite Hjx in Es. destruct (Arena_get jobs1 x) as [jx'|] eqn:Ex; [|done].
    injection Es as Es. exists jx'. simpl. by rewrite Ex, Es. }
  exists s', jobs', jr. split; [done|]. split; [by etrans|]. split.
  - intros x [->|Hx]%elem_of_cons; [|by apply Hin]. rewrite (Hout id Hn). simpl. by rewrite Hst1, decide_True.
  - intros x Hx. apply not_elem_of_cons in Hx as [Hx Hx']. rewrite (Hout x Hx'). simpl. by rewrite Hst1, decide_False.
Qed.

(** Requeueing does not look at the slots. *)
Lemma requeue_logged_slots e inv names id now :
  let F e := with_names (with_inventory e inv) names in
  requeue_logged hash (F e) id now = let! e' := requeue_logged hash e id now in Done (F e').
Proof.
  intros F. unfold requeue_logged, lift_call, F. simpl. unfold cycle_config. simpl.
  destruct (requeue _ _ _ _ _) as [[[s jobs] [u|err]]| |]; simpl; try done.
  unfold record. simpl. destruct (eg_journal e); [|done]. by destruct (journal_record _ _ _).
Qed.

Lemma requeue_all_slots e inv names ids now :
  let F e := with_names (with_inventory e inv) names in
  exec_fold (fun e id => requeue_logged hash e id now) (F e) ids =
  let! e' := exec_fold (fun e id => requeue_logged hash e id now) e ids in Done (F e').
Proof.
  intros F. revert e. induction ids as [|id ids IH]; intros e; cbn [exec_fold]; [done|].
  unfold F at 1. rewrite requeue_logged_slots. destruct (requeue_logged hash e id now); simpl; [|done..]. apply IH.
Qed.

Lemma evicted_loose e slot x :
  Engine_inv e →
  x ∈ map rj_job (List.filter (fun r => rj_slot r =? slot) (eg_running e)) →
  (∃ j, Arena_get (eg_jobs e) x = Some j ∧ occupies_slot (state j) = true) ∧ x ∉ eg_reconciling e ∧
  x ∉ (rj_job <$> List.filter (fun r => negb (rj_slot r =? slot)) (eg_running e)).
Proof.
  intros He (r & -> & Hr)%list_elem_of_fmap.
  apply elem_of_List_filter in Hr as [Hr Hslot]. split; [|split].
  - destruct (rv_live _ _ (en_running _ He) r Hr) as (j & ? & ? & _). eauto.
  - intros Hh. apply (hv_unbound _ _ _ (en_held _ He) _ Hh). by apply list_elem_of_fmap_2.
  - intros (q & Eq & Hq)%list_elem_of_fmap. apply elem_of_List_filter in Hq as [Hq Hs].
    assert (q = r) as -> by (by eapply (NoDup_fmap_eq rj_job); [apply He|..]).
    rewrite Hslot in Hs. done.
Qed.

Lemma requeue_all_form e ids now e' :
  exec_fold (fun e id => requeue_logged hash e id now) e ids = Done e' →
  ∃ s jobs jr, e' = with_journal (with_sched e s jobs) jr.
Proof.
  revert e. induction ids as [|id ids IH]; intros e E; cbn [exec_fold] in E.
  { injection E as <-. exists (eg_scheduler e), (eg_jobs e), (eg_journal e). by destruct e. }
  apply exec_bind_Done in E as (e1 & E1 & E). apply IH in E as (s & jobs & jr & ->).
  enough (∃ s1 jobs1 jr1, e1 = with_journal (with_sched e s1 jobs1) jr1) as (s1 & jobs1 & jr1 & ->) by eauto.
  unfold requeue_logged, lift_call in E1. apply exec_bind_Done in E1 as ([e2 r] & E2 & E1).
  apply exec_bind_Done in E2 as ([[s2 jobs2] r2] & _ & E2). injection E2 as <- <-.
  destruct r2; [|injection E1 as <-; exists s2, jobs2, (eg_journal e); by destruct e].
  unfold record in E1. simpl in E1. destruct (eg_journal e) as [j|] eqn:Ej; [|injection E1 as <-; exists s2, jobs2, None; by destruct e; simpl in *; subst].
  apply exec_bind_Done in E1 as (j2 & _ & E1). injection E1 as <-. eauto.
Qed.

(** Requeueing touches one job, and of that job the state alone. *)
Definition restated (j : Job) : Job := job_with_state j JobState.Ready.

Definition same_but_state (ids : list JobId) (jobs jobs' : Arena Job) : Prop :=
  (∀ x, x ∉ ids → Arena_get jobs' x = Arena_get jobs x) ∧
  ∀ x, restated <$> Arena_get jobs' x = restated <$> Arena_get jobs x.

Lemma same_but_state_set id jobs j j' :
  Arena_get jobs id = Some j → restated j' = restated j → same_but_state [id] jobs (Arena_set jobs id j').
Proof.
  intros Hj He. split; intros x; rewrite (Arena_set_get _ _ _ _ _ Hj).
  - intros Hx. rewrite decide_False; [done|]. intros <-. apply Hx. by left.
  - case_decide as Hx; [|done]. rewrite <-Hx, Hj. cbn. by rewrite He.
Qed.

Lemma same_but_state_trans ids ids' jobs jobs1 jobs2 :
  same_but_state ids jobs jobs1 → same_but_state ids' jobs1 jobs2 → same_but_state (ids ++ ids') jobs jobs2.
Proof.
  intros [A B] [C D]. split; intros x.
  - rewrite not_elem_of_app. intros [H1 H2]. by rewrite C, A.
  - by rewrite D, B.
Qed.

Lemma restated_state j st : restated (job_with_state j st) = restated j.
Proof. by destruct j. Qed.

Lemma requeue_same s id jobs now config s' jobs' r :
  requeue s id jobs now config = Done (s', jobs', r) → same_but_state [id] jobs jobs'.
Proof.
  unfold requeue. destruct (Arena_get jobs id) as [j|] eqn:Hj; [|by intros [= <- <- <-]].
  assert (∀ j1 st jx, try_transition j1 st = Ok jx → restated jx = restated j1) as Ht.
  { intros j1 st jx. unfold try_transition. destruct (can_transition_to _ _); [|done]. intros [= <-]. apply restated_state. }
  assert (∀ j1, restated j1 = restated j → ∀ st jx, try_transition j1 st = Ok jx →
    Arena_set (Arena_set jobs id j1) id jx = Arena_set jobs id jx) as Hset.
  { intros j1 _ st jx _. apply Arena_get_Some in Hj. unfold Arena_set at 2 3. rewrite Hj, Z.eqb_refl. unfold Arena_set. simpl.
    rewrite vec_get_insert by (by eapply vec_get_range). rewrite decide_True, Z.eqb_refl by done. by rewrite list_insert_insert_eq. }
  destruct (if bool_decide _ then _ else _) as [j1|err] eqn:E1; [|by intros [= <- <- <-]].
  assert (restated j1 = restated j) as H1 by (case_bool_decide; [by eapply Ht|by injection E1 as ->]).
  destruct (try_transition j1 JobState.Ready) as [j2|err] eqn:E2; [|intros [= <- <- <-]; by eapply same_but_state_set].
  intros E. apply exec_bind_Done in E as (fs & _ & E). apply exec_bind_Done in E as (rs & _ & E). injection E as <- <- <-.
  rewrite (Hset j1 H1 _ _ E2). eapply same_but_state_set; [done|]. by rewrite (Ht _ _ _ E2).
Qed.

Lemma requeue_all_same e ids now e' :
  exec_fold (fun e id => requeue_logged hash e id now) e ids = Done e' → same_but_state ids (eg_jobs e) (eg_jobs e').
Proof.
  revert e. induction ids as [|id ids IH]; intros e E; cbn [exec_fold] in E; [by injection E as <-|].
  apply exec_bind_Done in E as (e1 & E1 & E). eapply (same_but_state_trans [id]); [|by apply IH].
  unfold requeue_logged, lift_call in E1. apply exec_bind_Done in E1 as ([e2 r] & E2 & E1).
  apply exec_bind_Done in E2 as ([[s2 jobs2] r2] & E2 & E3). injection E3 as <- <-. apply requeue_same in E2.
  destruct r2; [|by injection E1 as <-]. unfold record in E1. simpl in E1. destruct (eg_journal e) as [j|]; [|by injection E1 as <-].
  apply exec_bind_Done in E1 as (j2 & _ & E1). by injection E1 as <-.
Qed.

(** Of a lost worker: nothing but the state of its jobs changes in the arena, and
    not even that while the daemon is leaving. *)
Lemma evict_slot_same e slot now e' :
  evict_slot hash e slot now = Done e' →
  (eg_quiescing e = true → eg_jobs e' = eg_jobs e) ∧
  same_but_state (rj_job <$> List.filter (fun r => rj_slot r =? slot) (eg_running e)) (eg_jobs e) (eg_jobs e').
Proof.
  unfold evict_slot. intros E. apply exec_bind_Done in E as (e1 & E1 & E). injection E as <-. simpl in E1 |- *.
  destruct (eg_quiescing e) eqn:Eq; [injection E1 as <-; by split|]. split; [done|]. by apply requeue_all_same in E1.
Qed.

(** A lost worker: its jobs go back to the queue unless the daemon is leaving. *)
Lemma evict_slot_ok e slot now :
  Engine_inv e → is_u64 now → ∃ e', evict_slot hash e slot now = Done e' ∧ step_ok e e' ∧
    eg_running e' = List.filter (fun r => negb (rj_slot r =? slot)) (eg_running e) ∧
    eg_names e' = clear_name (eg_names e) slot ∧
    ∀ x, job_state (eg_jobs e') x =
      if decide (eg_quiescing e = false ∧ x ∈ rj_job <$> List.filter (fun r => rj_slot r =? slot) (eg_running e))
      then Some JobState.Ready else job_state (eg_jobs e) x.
Proof.
  intros He Hnow. unfold evict_slot. set (evicted := map rj_job _). set (R := List.filter _ (eg_running e)).
  set (inv' := (set_capacity (clear_allocation (eg_inventory e) slot).1 slot Resources_ZERO).1).
  set (names' := clear_name (eg_names e) slot). set (F e := with_names (with_inventory e inv') names').
  assert (Engine_inv (F (with_running e R))) as He1.
  { pose proof He as [H1 H2 H3 H4 H5 [R1 R2] [G1 G2 G3] H8]. split; try done; simpl.
    - by apply slots_inv_evict.
    - split; [by apply NoDup_fmap_filter|]. intros r [? _]%elem_of_List_filter. by apply R2.
    - split; try done. intros x Hx (r & -> & [Hr _]%elem_of_List_filter)%list_elem_of_fmap.
      by apply (G3 _ Hx), list_elem_of_fmap_2. }
  assert (step_ok e (F (with_running e R))) as H1 by by apply step_ok_quiet.
  simpl (eg_quiescing _). destruct (eg_quiescing e) eqn:Eq.
  { exists (F (with_running e R)). do 4 (split; [done|]). intros x. by rewrite decide_False by (by intros [? _]). }
  destruct (requeue_all_ok (fun _ => True) (fun e id => requeue_logged hash e id now) (F (with_running e R)) evicted now)
    as (s' & jobs' & jr & Er & H2 & Hst & Hout); [done|done|done|by apply NoDup_fmap_filter, He| |].
  - intros x Hx. destruct (evicted_loose e slot x He Hx) as ((j & Hj & ?) & ? & ?).
    split; [split; [by exists j|done]|]. exists (state j). split; [|done]. unfold job_state. simpl. by rewrite Hj.
  - unfold F in Er at 1. rewrite requeue_all_slots in Er.
    destruct (exec_fold _ (with_running e R) evicted) as [e1| |] eqn:Ef; [|done..]. cbn [exec_bind] in Er |- *.
    destruct (requeue_all_form _ _ _ _ Ef) as (s1 & jobs1 & jr1 & E1).
    assert (F e1 = with_journal (with_sched (F (with_running e R)) s' jobs') jr) as E2
      by (change (Done (F e1) = Done (with_journal (with_sched (F (with_running e R)) s' jobs') jr)) in Er; congruence).
    exists (F e1). split; [by rewrite E1|]. rewrite E2. split; [by etrans|]. do 2 (split; [done|]).
    intros x. case_decide as Hx; [by apply Hst, Hx|]. apply Hout. intros Hin. by apply Hx.
Qed.

Lemma on_worker_draining_ok e slot : Engine_inv e → step_ok e (on_worker_draining e slot).
Proof.
  intros He. apply step_ok_quiet; try done. pose proof He as [H1 H2 H3 H4 H5 H6 H7 H8].
  split; try done. simpl. by apply slots_inv_drain.
Qed.

(** ** Commands *)

(** A submission asks for something and can be logged, a worker's capacity is at
    its widths, and the indices of jobs and slots are not used up.  The services
    that enqueue commands guarantee the widths, and no more. *)
Definition command_ok (e : Engine) (c : Command) : Prop :=
  match c with
  | Command.Submit job _ => submit_ok job ∧ arena_room (eg_jobs e)
  | Command.WorkerJoined _ cap _ _ =>
      Resources_wf cap ∧ Z.of_nat (length (worker_slots (eg_inventory e))) < u32_max
  | _ => True
  end.

Lemma handle_ok e (w : World Q) c now :
  Engine_inv e → is_u64 now → command_ok e c → returns_ok e (handle hash e w c now).
Proof.
  intros He Hnow Hc. destruct c; simpl in Hc |- *.
  - destruct Hc. by apply on_submit_ok.
  - by apply on_cancel_ok.
  - destruct (on_completed_report_ok e id now He Hnow) as (e' & -> & ?). by exists e', w.
  - destruct (on_failed_report_ok e id now He Hnow) as (e' & -> & ?). by exists e', w.
  - destruct (on_preempted_report_ok e id now He Hnow) as (e' & -> & ?). by exists e', w.
  - destruct Hc. by apply on_worker_joined_ok.
  - destruct (evict_slot_ok e slot now He Hnow) as (e' & -> & ? & _). by exists e', w.
  - eexists _, _. split; [done|]. by apply on_worker_draining_ok.
  - assert (∃ w', on_query e w query = Done w') as [w' ->].
    { destruct query; simpl; eauto. unfold nodes, inventory_len.
      rewrite u32_from_usize_Done by apply (sv_wf _ _ _ (en_slots _ He)). simpl. eauto. }
    exists e, w'. split; [done|by apply step_ok_refl].
Qed.

(** ** Dispatching *)

Lemma dispatch_durably_form e (w : World Q) d :
  ∃ ov jr w', dispatch_durably e w d = (with_journal (with_overflow e ov) jr, w').
Proof.
  unfold dispatch_durably. destruct (eg_journal e) as [j|] eqn:Ej; [exists (eg_overflow e), (Some (hold j d)), w; by destruct e|].
  unfold push_dispatch. destruct (outbox_push _ _) as [o [u|b]]; [exists (eg_overflow e)|exists (eg_overflow e ++ [b])];
    exists None, (MkWorld o (w_answers w) (w_commits w) (w_writer w)); destruct e; simpl in *; by subst.
Qed.

(** The loop over the decisions: the running set grows by what they start, and
    each is logged. *)
Lemma dispatch_fold e (w : World Q) ds B now :
  is_u64 now → Forall2 (started (eg_jobs e) now) ds B →
  (∀ d, d ∈ ds → is_u64 (dd_job d)) →
  ∃ ov jr w', exec_fold (fun ew d => on_dispatched hash ew.1 ew.2 d now) (e, w) ds =
      Done (with_journal (with_overflow (with_running e (eg_running e ++ B)) ov) jr, w') ∧
    logs hash e (with_journal (with_overflow (with_running e (eg_running e ++ B)) ov) jr)
      ((fun d => LogRecord.Dispatched (dd_job d) now) <$> ds) [].
Proof.
  intros Hnow HB. revert B e w HB. induction ds as [|d ds IH]; intros B e w HB Hu; inversion HB as [|? b ? B' Hb HB']; subst.
  { exists (eg_overflow e), (eg_journal e), w. rewrite app_nil_r.
    assert (with_journal (with_overflow (with_running e (eg_running e)) (eg_overflow e)) (eg_journal e) = e) as ->
      by by destruct e. split; [done|by apply logs_nil]. }
  destruct Hb as (j & Hg & ->). cbn [exec_fold fst snd]. unfold on_dispatched at 1. rewrite Hg.
  set (b := MkRunningJob _ _ _ _). set (e1 := with_running e (eg_running e ++ [b])).
  destruct (record_spec hash e1 (LogRecord.Dispatched (dd_job d) now)) as (jr1 & -> & L1).
  { apply event_fits; [set_solver|apply Hu; by left|done]. }
  cbn [exec_bind].
  set (a := Dispatch.Assign _ _ _ _). pose proof (dispatch_durably_logs _ _ w a _ _ L1 eq_refl) as L12.
  destruct (dispatch_durably_form (with_journal e1 jr1) w a) as (ov2 & jr2 & w2 & E2). rewrite E2 in L12 |- *.
  cbn [exec_bind fst] in L12 |- *. set (e2 := with_journal (with_overflow (with_journal e1 jr1) ov2) jr2) in *.
  destruct (IH B' e2 w2) as (ov & jr & w' & -> & L3).
  - exact HB'.
  - intros d' Hd'. apply Hu. by right.
  - exists ov, jr, w'. simpl. rewrite <-app_assoc. split; [done|].
    pose proof (logs_trans hash _ _ _ _ _ _ L12 L3) as L. simpl in L. rewrite <-app_assoc in L. exact L.
Qed.

(** The allocations of a cycle, as running jobs. *)
Lemma slots_inv_dispatch jobs jobs' inv ds inv' running names B now :
  allocate_all jobs inv ds = Some inv' → Forall2 (started jobs' now) ds B →
  arena_rel job_like jobs jobs' → requests_wf jobs →
  (∀ x j, Arena_get jobs x = Some j → accepted j) →
  slots_inv inv running names → slots_inv inv' (running ++ B) names.
Proof.
  intros Ha HB Hr Hwf Hz. revert inv running Ha. induction HB as [|d b ds B (j' & Hj' & ->) _ IH]; intros inv running Ha Hs.
  { simpl in Ha. injection Ha as ->. by rewrite app_nil_r. }
  simpl in Ha. destruct (Arena_get jobs (dd_job d)) as [j|] eqn:Hj; [|done].
  destruct (try_allocate inv (dd_slot d) (request j)) as [inv1 [[]|]] eqn:Et; [|done].
  destruct (arena_rel_Some_l _ _ _ _ _ Hr Hj) as (j'' & Hj'' & Hl). rewrite Hj' in Hj''. injection Hj'' as <-.
  destruct (job_like_fields _ _ Hl) as (_ & _ & -> & _).
  rewrite (app_assoc running [_] B : running ++ _ :: B = _). eapply IH; [done|].
  eapply slots_inv_allocate; [done|by eapply Hwf|done|]. intros Hv.
  pose proof (sv_vacant _ _ _ Hs _ Hv) as Hd. apply try_allocate_Ok in Et as (s & Hs' & Hle & _).
  rewrite Hd in Hs'. injection Hs' as <-. destruct (Hz _ _ Hj) as [Hz' _]. apply Hz'. pose proof (Hwf _ _ Hj) as Hw. simpl in Hle.
  destruct (request j) as [a b c]. unfold Resources_ZERO. f_equal; clear -Hle Hw; res_crush.
Qed.
End Steps.
