(* ===== verification/EngineTick.v ===== *)
(** * The engine's tick

    The tick of [Engine]: it returns, keeps the invariant of [EngineInv], and
    logs exactly what it did; retention and reconciliation end when they should.
    Together with the command handlers of [EngineSteps] this makes the invariant
    hold of every engine that can be reached. *)

From stdpp Require Import base strings list numbers option sets relations.
From Stdlib Require Import ZArith Lia.
From S2P Require Import Prelude Domain Arena Job Inventory Priority ReadySet Eligibility.
From S2P Require Import Decay FairShare Pack Backfill Preempt Scheduler Cycle Frame.
From S2P Require Import Codec LogRecord Log Snapshot Store Journal Command Engine EngineInv EngineSteps.
Open Scope Z_scope.
Open Scope list_scope.

(** ** The cycle *)

Lemma emit_one_frame now config entry d rs fs jobs rs' fs' jobs' :
  emit_one now config entry d rs fs jobs = Done (rs', fs', jobs') → arena_rel job_like jobs jobs'.
Proof.
  destruct d; simpl; intros E; [exec_inv; by simplify_eq| |by simplify_eq].
  destruct (Arena_get jobs (re_job entry)) as [j|] eqn:Hj; [|by simplify_eq].
  destruct (try_transition j _) as [j'|] eqn:Et; [|done].
  apply exec_bind_Done in E as (fs1 & _ & E). injection E as <- <- <-. eauto using job_like_set with rt.
Qed.

Lemma emit_loop_frame now config ds candidates i rs fs jobs rs' fs' jobs' :
  emit_loop now config ds i candidates rs fs jobs = Done (rs', fs', jobs') → arena_rel job_like jobs jobs'.
Proof.
  revert i rs fs jobs. induction candidates as [|c cs IH]; intros i rs fs jobs E; simpl in E; [by simplify_eq|].
  apply exec_bind_Done in E as (d & _ & E). apply exec_bind_Done in E as ([[rs1 fs1] jobs1] & E1 & E).
  etrans; [by eapply emit_one_frame|by eapply IH].
Qed.

Lemma run_cycle_frame s jobs inv running now config decisions r :
  run_cycle s jobs inv running now config decisions = Done r → arena_rel job_like jobs (cy_jobs r).
Proof.
  unfold run_cycle. intros E. apply exec_bind_Done in E as (fs & _ & E).
  apply exec_bind_Done in E as ([rs drained] & _ & E). destruct drained; [by injection E as <-|].
  apply exec_bind_Done in E as ([p packed] & _ & E). apply exec_bind_Done in E as ([p2 o] & _ & E).
  apply exec_bind_Done in E as ([[rs1 fs1] jobs1] & E1 & E). injection E as <-. by eapply emit_loop_frame.
Qed.

(** The jobs a cycle started, one logged transition each. *)
Lemma dispatched_trace config s jobs ids jobs' now :
  is_u64 now → Forall is_u64 ids →
  arena_rel job_like jobs jobs' → Z.of_nat (length (slots jobs)) <= u32_max + 1 → NoDup ids →
  (∀ x, x ∈ ids → job_state jobs x = Some JobState.Ready) → moved jobs ids JobState.Running jobs' →
  log_trace config s jobs ((fun x => LogRecord.Dispatched x now) <$> ids) s jobs'.
Proof.
  intros Hnow Hids Hr Hlen Hnd. revert jobs Hr Hlen. induction Hnd as [|d ids Hn _ IH]; intros jobs Hr Hlen Hst Hm.
  { rewrite (arena_rel_ext _ _ _ Hr Hlen); [constructor|]. intros x. rewrite (Hm x), decide_False; [done|].
    apply not_elem_of_nil. }
  pose proof (Hst d ltac:(by left)) as Hd. unfold job_state in Hd.
  destruct (Arena_get jobs d) as [j|] eqn:Hj; [|done]. injection Hd as Hd. rewrite fmap_cons.
  set (jobs1 := Arena_set jobs d (job_with_state j JobState.Running)).
  assert (arena_rel job_like jobs jobs1) as Hr1 by eauto using job_like_set with rt.
  inversion Hids as [|? ? Hd64 Hids']; subst.
  eapply lt_event; [apply event_fits; [set_solver|done|done]|by eapply ev_dispatched|]. fold jobs1. apply IH; [done|..].
  - etrans; [by symmetry|done].
  - by rewrite <-(arena_rel_length _ _ _ Hr1).
  - intros x Hx. unfold jobs1. rewrite (job_state_set _ _ _ _ _ Hj), decide_False; [apply Hst; by right|]. congruence.
  - intros x. rewrite (Hm x). unfold jobs1. rewrite (Arena_set_get _ _ _ _ _ Hj).
    destruct (decide (d = x)) as [<-|Hx].
    + rewrite decide_True, decide_False by (done || by left). by rewrite Hj.
    + destruct (decide (x ∈ ids)); [by rewrite decide_True by by right|]. rewrite decide_False; [done|set_solver].
Qed.

Lemma started_exists jobs now ds :
  (∀ d, d ∈ ds → ∃ j, Arena_get jobs (dd_job d) = Some j) → ∃ B, Forall2 (started jobs now) ds B.
Proof.
  induction ds as [|d ds IH]; intros Hl; [by exists []|]. destruct (Hl d ltac:(by left)) as [j Hj].
  destruct IH as [B HB]; [intros; apply Hl; by right|]. eexists (_ :: B). constructor; [by exists j|done].
Qed.

Lemma started_jobs jobs now ds B : Forall2 (started jobs now) ds B → rj_job <$> B = dd_job <$> ds.
Proof. induction 1 as [|d b ds B (j & _ & ->) _ IH]; [done|]. by rewrite !fmap_cons, IH. Qed.

Lemma started_from jobs now ds B b : Forall2 (started jobs now) ds B → b ∈ B → ∃ d, d ∈ ds ∧ started jobs now d b.
Proof.
  intros HB (i & Hi)%list_elem_of_lookup. destruct (Forall2_lookup_r _ _ _ _ _ HB Hi) as (d & Hd & ?).
  exists d. split; [by eapply list_elem_of_lookup_2|done].
Qed.

(** A cycle over slots and running jobs that agree: what it starts joins the
    running set on the slots the inventory gave, one transition each. *)
Record cycle_started (s : Scheduler) (jobs : Arena Job) (inv : SlotInventory) (running : list RunningJob)
    (names : list (option string)) (now : VirtualTime) (config : CycleConfig)
    (r : CycleResult) (ds : list DispatchDecision) (B : list RunningJob) : Prop := {
  cs_post : cycle_post s jobs inv [] ds r;
  cs_like : arena_rel job_like jobs (cy_jobs r);
  cs_before : Forall2 (started jobs now) ds B;
  cs_after : Forall2 (started (cy_jobs r) now) ds B;
  cs_handles : ∀ d, d ∈ ds → is_u64 (dd_job d);
  cs_states : ∀ x, job_state (cy_jobs r) x = if decide (x ∈ dd_job <$> ds) then Some JobState.Running else job_state jobs x;
  cs_others : ∀ x st, job_state jobs x = Some st → st ≠ JobState.Ready → x ∉ dd_job <$> ds;
  cs_slots : slots_inv (cy_inventory r) (running ++ B) names;
  cs_running : running_inv (cy_jobs r) (running ++ B);
  cs_trace : log_trace config s jobs ((fun d => LogRecord.Dispatched (dd_job d) now) <$> ds) (cy_scheduler r) (cy_jobs r);
}.

Lemma cycle_starts s jobs inv running names now config :
  Sched_inv s jobs → config_ok config → is_u64 now → (∀ x j, Arena_get jobs x = Some j → accepted j) →
  slots_inv inv running names → running_inv jobs running →
  ∃ r ds B, run_cycle s jobs inv running now config [] = Done r ∧
    cycle_started s jobs inv running names now config r ds B.
Proof.
  intros H2 Hcfg Hnow H4 H5 [R1 R2]. destruct (si_ready _ _ H2) as [E HE].
  destruct (run_cycle_spec s jobs E inv running now config [])
    as (r & packed & back & _ & _ & Er & Hpost & _); try done.
  { apply drained_inventory_ok; [apply H5|apply H5|by apply jobs_ok_requests, H2|].
    intros id j Hj. by destruct (H4 _ _ Hj). }
  { apply Forall_forall. intros r Hr. by apply Resources_wf_nonneg, (sv_wf_running _ _ _ H5). }
  pose proof Hpost as [C1 C2 C3 C4 C5 C6 C7 C8 C9].
  pose proof (run_cycle_frame _ _ _ _ _ _ _ _ Er) as Hlike. set (ds := packed ++ back) in *.
  assert (∀ d, d ∈ ds → ∃ j, Arena_get jobs (dd_job d) = Some j) as Hlive.
  { intros d Hd. specialize (C7 d Hd). unfold job_state in C7. destruct (Arena_get jobs (dd_job d)); [eauto|done]. }
  destruct (started_exists (cy_jobs r) now ds) as [B HB].
  { intros d Hd. rewrite (C8 (dd_job d)), decide_True by by apply list_elem_of_fmap_2.
    destruct (Hlive d Hd) as [j ->]. eauto. }
  assert (∀ x, job_state (cy_jobs r) x = if decide (x ∈ dd_job <$> ds) then Some JobState.Running else job_state jobs x) as Hst.
  { intros x. apply (moved_state _ _ _ _ x C8). intros d (d' & -> & Hd)%list_elem_of_fmap. by apply Hlive. }
  assert (∀ x st, job_state jobs x = Some st → st ≠ JobState.Ready → x ∉ dd_job <$> ds) as Hnot.
  { intros x st Hx Hne (d & -> & Hd)%list_elem_of_fmap. specialize (C7 d Hd). congruence. }
  assert (∀ d, d ∈ ds → is_u64 (dd_job d)) as H64.
  { intros d Hd. destruct (Hlive d Hd) as [j Hj]. eapply Arena_get_u64; [apply H2|done]. }
  exists r, ds, B. split; [done|]. split; [done..| |done|done|done|done| | |].
  - eapply Forall2_impl; [exact HB|]. intros d b (j' & Hj' & ->).
    destruct (arena_rel_Some _ _ _ _ _ Hlike Hj') as (j & Hj & Hl).
    destruct (job_like_fields _ _ Hl) as (_ & _ & -> & -> & _). by exists j.
  - eapply slots_inv_dispatch; [exact C5|exact HB|done|by apply jobs_ok_requests, H2|done|done].
  - split.
    + rewrite fmap_app, (started_jobs _ _ _ _ HB). apply NoDup_app. split; [done|]. split; [|done].
      intros x (r' & -> & Hr')%list_elem_of_fmap. destruct (R2 r' Hr') as (j & Hj & Ho & _).
      apply (Hnot _ (state j)); [unfold job_state; by rewrite Hj|]. by destruct (state j).
    + intros r' [Hr'|Hr']%elem_of_app.
      * destruct (R2 r' Hr') as (j & Hj & Ho & Eq). exists j. split; [|done]. rewrite (C8 _), decide_False; [done|].
        apply (Hnot _ (state j)); [unfold job_state; by rewrite Hj|]. by destruct (state j).
      * destruct (started_from _ _ _ _ _ HB Hr') as (d & Hd & j & Hj & ->). exists j. simpl. split; [done|]. split; [|done].
        pose proof (Hst (dd_job d)) as Es. rewrite decide_True in Es by by apply list_elem_of_fmap_2.
        unfold job_state in Es. rewrite Hj in Es. injection Es as ->. done.
  - eapply lt_silent; [exact C9|]. rewrite (list_fmap_compose dd_job (fun x => LogRecord.Dispatched x now)).
    eapply dispatched_trace; [done| |done|by pose proof (jo_slots _ (si_jobs _ _ H2)); lia|done| |done].
    + apply Forall_forall. intros x (d & -> & Hd)%list_elem_of_fmap. by apply H64.
    + intros x (d & -> & Hd)%list_elem_of_fmap. by apply C7.
Qed.

Section Tick.
Context (hash : bytes → Z) {Q : Type → Type} `{ArrayQueue Q}.

#[local] Abbreviation step_ok := (step_ok hash).

Lemma flush_overflow_ok e (w : World Q) :
  Engine_inv e → step_ok e (flush_overflow e w).1.
Proof.
  intros He. unfold flush_overflow. destruct (flush_stack _ _) as [o st]. apply step_ok_quiet; try done. by destruct He.
Qed.

Lemma engine_running_ok e : Engine_inv e → running_ok (eg_running e).
Proof.
  intros He. apply Forall_forall. intros r Hr. by apply Resources_wf_nonneg, (sv_wf_running _ _ _ (en_slots _ He)).
Qed.

(** A cycle and the loop over its decisions: the started jobs join the running
    set, bound to the slots the inventory gave them, and each is logged. *)
Lemma cycle_dispatch_ok e (w : World Q) now :
  Engine_inv e → is_u64 now →
  ∃ e1 ds outcome e2 w2 B, run_engine_cycle e now = Done (e1, ds, outcome) ∧
    exec_fold (fun ew d => on_dispatched hash ew.1 ew.2 d now) (e1, w) ds = Done (e2, w2) ∧ step_ok e e2 ∧
    NoDup (dd_job <$> ds) ∧ (∀ d, d ∈ ds → job_state (eg_jobs e) (dd_job d) = Some JobState.Ready) ∧
    Forall2 (started (eg_jobs e) now) ds B ∧ eg_running e2 = eg_running e ++ B ∧
    eg_names e2 = eg_names e ∧ moved (eg_jobs e) (dd_job <$> ds) JobState.Running (eg_jobs e2).
Proof.
  intros He Hnow. pose proof He as [H1 H2 H3 H4 H5 H6 [G1 G2 G3] H8].
  destruct (cycle_starts _ _ _ _ _ now (cycle_config e) H2 (eo_cycle _ H1) Hnow H4 H5 H6) as (r & ds & B & Er & Hc).
  pose proof Hc as [[C1 C2 C3 C4 C5 C6 C7 C8 C9] Hlike HB0 HB H64 Hst Hnot Hsl Hrun Htr]. simpl in C4.
  unfold run_engine_cycle. rewrite Er. cbn [exec_bind].
  set (e1 := with_inventory (with_sched e (cy_scheduler r) (cy_jobs r)) (cy_inventory r)).
  destruct (dispatch_fold hash e1 w ds B now Hnow HB H64) as (ov & jr & w2 & Ef & Hlog).
  set (e2 := with_journal (with_overflow (with_running e1 (eg_running e1 ++ B)) ov) jr) in *.
  exists e1, ds, (cy_outcome r), e2, w2, B. rewrite C4. do 2 (split; [done|]).
  split; [|by split_and!]. split; [|done|by exists ((fun d => LogRecord.Dispatched (dd_job d) now) <$> ds)].
  split; simpl; try done.
  - intros x Hx. rewrite C9 in Hx. eapply issued_rel; [exact Hlike|]. by apply H3.
  - exact (accepted_like _ _ H4 Hlike).
  - split; [done|..].
    + intros x Hx. rewrite Hst, decide_False; [by apply G2|]. eapply Hnot; [by apply G2|done].
    + intros x Hx. rewrite fmap_app, (started_jobs _ _ _ _ HB). intros [?|?]%elem_of_app; [by eapply G3|].
      eapply Hnot; [by apply G2|done|done].
  - assert (∀ x, finished (cy_jobs r) x ↔ finished (eg_jobs e) x) as Hf.
    { intros x. unfold finished. rewrite Hst. case_decide as Hx; [|done]. apply list_elem_of_fmap in Hx as (d & -> & Hd).
      specialize (C7 d Hd). rewrite C7. split; by intros (? & [= <-] & ?). }
    destruct H8 as [T1 T2 T3]. split; [done|..].
    + intros x Hx%Hf. by apply T2.
    + intros x [?|?]%T3; [left; by apply Hf|right; by eapply gone_like].
Qed.

(** What the first half of a tick leaves alone. *)
Definition keeps_queues (e e' : Engine) : Prop :=
  eg_terminal e' = eg_terminal e ∧ eg_reconciling e' = eg_reconciling e ∧ eg_reconcile_until e' = eg_reconcile_until e.

#[local] Instance keeps_queues_trans : Transitive keeps_queues.
Proof. intros e1 e2 e3 (A1 & B1 & C1) (A2 & B2 & C2). unfold keeps_queues. split_and!; congruence. Qed.

Lemma record_queues e r e' : record hash e r = Done e' → keeps_queues e e'.
Proof.
  unfold record. destruct (eg_journal _); [|by intros [= <-]].
  intros E. apply exec_bind_Done in E as (? & _ & E). by injection E as <-.
Qed.

Lemma dispatch_durably_queues e (w : World Q) d : keeps_queues e (dispatch_durably e w d).1.
Proof. by destruct (dispatch_durably_form e w d) as (ov & jr & w1 & ->). Qed.

Lemma fold_queues {A} (f : Engine * World Q → A → exec (Engine * World Q)) l ew ew' :
  (∀ ew x ew', f ew x = Done ew' → keeps_queues ew.1 ew'.1) → exec_fold f ew l = Done ew' → keeps_queues ew.1 ew'.1.
Proof.
  intros Hf. revert ew. induction l as [|x l IH]; intros ew E; cbn [exec_fold] in E; [by injection E as <-|].
  apply exec_bind_Done in E as (ew1 & E1 & E). etrans; [by eapply Hf|by apply IH].
Qed.

Lemma on_dispatched_queues (ew : Engine * World Q) d now ew' :
  on_dispatched hash ew.1 ew.2 d now = Done ew' → keeps_queues ew.1 ew'.1.
Proof.
  unfold on_dispatched. destruct (Arena_get _ _) as [j|]; [|by intros [= <-]]. intros E.
  apply exec_bind_Done in E as (e1 & E1%record_queues & E). injection E as <-. etrans; [exact E1|apply dispatch_durably_queues].
Qed.

Lemma evict_one_queues (ew : Engine * World Q) v now ew' :
  evict_one hash ew.1 ew.2 v now = Done ew' → keeps_queues ew.1 ew'.1.
Proof.
  unfold evict_one. intros E. apply exec_bind_Done in E as ([e1 r] & E1 & E). unfold lift_call in E1.
  apply exec_bind_Done in E1 as ([[s jobs] r1] & _ & E1). injection E1 as <- <-. destruct r1; [|by injection E as <-].
  apply exec_bind_Done in E as (e2 & E2%record_queues & E). injection E as <-. etrans; [exact E2|apply dispatch_durably_queues].
Qed.

Lemma plan_evictions_queues e (w : World Q) h now e' w' :
  plan_evictions hash e w h now = Done (e', w') → keeps_queues e e'.
Proof.
  unfold plan_evictions. intros E. apply exec_bind_Done in E as (evs & _ & E).
  by apply fold_queues in E; [|intros ew v ew'; apply evict_one_queues].
Qed.

Lemma cycle_dispatch_queues e (w : World Q) e1 ds out e2 w2 now :
  run_engine_cycle e now = Done (e1, ds, out) →
  exec_fold (fun ew d => on_dispatched hash ew.1 ew.2 d now) (e1, w) ds = Done (e2, w2) → keeps_queues e e2.
Proof.
  intros E1 E2. unfold run_engine_cycle in E1. apply exec_bind_Done in E1 as (r & _ & E1). injection E1 as <- _ _.
  by apply fold_queues in E2; [|intros ew d ew'; apply on_dispatched_queues].
Qed.

(** ** Evictions *)

Lemma evict_one_ok e (w : World Q) v now :
  Engine_inv e → is_u64 now → ev_job v ∉ eg_reconciling e →
  ∃ e' w', evict_one hash e w v now = Done (e', w') ∧ step_ok e e' ∧
    eg_reconciling e' = eg_reconciling e.
Proof.
  intros He Hnow Hh. unfold evict_one, lift_call. cbn [exec_bind].
  assert (∃ e' w', Done (with_sched e (eg_scheduler e) (eg_jobs e), w) = Done (e', w') ∧ step_ok e e' ∧
    eg_reconciling e' = eg_reconciling e) as Hno.
  { assert (with_sched e (eg_scheduler e) (eg_jobs e) = e) as -> by by destruct e.
    exists e, w. split; [done|]. by split; [apply step_ok_refl|]. }
  destruct (Arena_get (eg_jobs e) (ev_job v)) as [j|] eqn:Hj; [|unfold preempt; rewrite Hj; exact Hno].
  destruct (decide (state j = JobState.Running)) as [Hr|Hr].
  - destruct (preempt_done (eg_scheduler e) (eg_jobs e) (ev_job v) j (en_sched _ He) Hj Hr)
      as (s' & jobs' & E & Hi & Hce & _ & _ & Hed). injection E as E. rewrite E. cbn [exec_bind].
    destruct (call_step hash e s' jobs' (LogRecord.Preempted (ev_job v) now) (ev_job v) JobState.Preempted []
      JobState.Preempted now) as (jr & Er & Hok); try done.
    + eapply occupied_unfinished; [done|]. by rewrite Hr.
    + constructor.
    + apply not_elem_of_nil.
    + apply event_fits; [set_solver|by eapply Arena_get_u64; [apply He|]|done].
    + by constructor.
    + rewrite Er. cbn [exec_bind]. simpl in Hok. rewrite app_nil_r in Hok.
      set (e1 := with_journal _ jr) in *.
      assert (step_of hash e [LogRecord.Preempted (ev_job v) now] [Directive.Evict (ev_job v)] e1) as H1 by exact Hok.
      set (d := Dispatch.Preempt _ _ _). destruct (dispatch_durably_form e1 w d) as (ov & jr' & w' & Ed).
      pose proof (dispatch_durably_of hash e _ e1 w d _ H1 eq_refl) as H2.
      rewrite Ed in H2 |- *. eexists _, _. split; [done|]. split; [by eapply step_of_ok|done].
  - unfold preempt. rewrite Hj. unfold try_transition. destruct (state j); try done; exact Hno.
Qed.

Lemma evictions_ok e (w : World Q) vs now :
  Engine_inv e → is_u64 now → (∀ v, v ∈ vs → ev_job v ∉ eg_reconciling e) →
  ∃ e' w', exec_fold (fun ew v => evict_one hash ew.1 ew.2 v now) (e, w) vs = Done (e', w') ∧ step_ok e e'.
Proof.
  intros He Hnow. revert e w He. induction vs as [|v vs IH]; intros e w He Hv; cbn [exec_fold fst snd].
  { exists e, w. split; [done|]. by apply step_ok_refl. }
  destruct (evict_one_ok e w v now He Hnow) as (e1 & w1 & -> & H1 & Er); [apply Hv; by left|].
  cbn [exec_bind]. destruct (IH e1 w1 (so_inv _ _ _ H1)) as (e' & w' & -> & H2).
  { intros v' Hv'. rewrite Er. apply Hv. by right. }
  exists e', w'. split; [done|]. by etrans.
Qed.

(** What a plan evicts is bound to a slot, so nobody holds it. *)
Lemma planned_unheld e j head now evs o :
  Engine_inv e → Arena_get (eg_jobs e) head = Some j →
  plan_preemption j (eg_running e) (eg_jobs e) (eg_inventory e) now (cc_preempt (cycle_config e)) [] = Done (evs, o) →
  ∀ v, v ∈ evs → ev_job v ∉ eg_reconciling e.
Proof.
  intros He Hj E v Hv Hh.
  destruct (plan_preemption_spec j (eg_running e) (eg_jobs e) (eg_inventory e) now (cc_preempt (cycle_config e)) [])
    as (evs' & o' & E' & Ho).
  { by eapply jobs_ok_requests; [apply He|]. } { by apply engine_running_ok. } { apply He. }
  rewrite E in E'. injection E' as <- <-. destruct o as [slot|].
  - destruct Ho as (_ & Hev & _). rewrite Forall_forall in Hev.
    destruct (Hev v Hv) as (_ & r & _ & Hr & Erj & _). apply (hv_unbound _ _ _ (en_held _ He) _ Hh). rewrite <-Erj.
    by apply list_elem_of_fmap_2.
  - destruct Ho as [-> _]. by apply elem_of_nil in Hv.
Qed.

Lemma plan_evictions_ok e (w : World Q) head now :
  Engine_inv e → is_u64 now →
  ∃ e' w', plan_evictions hash e w head now = Done (e', w') ∧ step_ok e e'.
Proof.
  intros He Hnow. unfold plan_evictions. destruct (Arena_get (eg_jobs e) head) as [j|] eqn:Hj; cbn [exec_bind].
  2:{ by apply evictions_ok; [..|intros v ?%elem_of_nil]. }
  destruct (plan_preemption_spec j (eg_running e) (eg_jobs e) (eg_inventory e) now (cc_preempt (cycle_config e)) [])
    as (evs & o & E & _).
  { by eapply jobs_ok_requests; [apply He|]. } { by apply engine_running_ok. } { apply He. }
  rewrite E. cbn [exec_bind]. apply evictions_ok; [done..|]. by eapply planned_unheld.
Qed.

(** ** Demand *)

(** The millicores requested by the live jobs in one state. *)
Fixpoint cpu_in_state (st : JobState) (l : list (JobId * Job)) : Z :=
  match l with
  | [] => 0
  | p :: l' => (if bool_decide (state p.2 = st) then cpu_millis (request p.2) else 0) + cpu_in_state st l'
  end.

Lemma cpu_in_state_bound l :
  (∀ p, p ∈ l → is_u32 (cpu_millis (request p.2))) →
  0 <= cpu_in_state JobState.Ready l ∧ 0 <= cpu_in_state JobState.Running l ∧
  cpu_in_state JobState.Ready l + cpu_in_state JobState.Running l <= Z.of_nat (length l) * u32_max.
Proof.
  induction l as [|p l IH]; intros Hl; cbn [cpu_in_state length]; [lia|].
  assert (∀ q, q ∈ l → is_u32 (cpu_millis (request q.2))) as Hl' by (intros; apply Hl; by right).
  specialize (IH Hl'). specialize (Hl p ltac:(by left)). unfold is_u32 in Hl.
  destruct (state p.2); repeat first [rewrite bool_decide_eq_true_2 by done|rewrite bool_decide_eq_false_2 by done]; lia.
Qed.

Lemma demand_fold l a b :
  (∀ p, p ∈ l → is_u32 (cpu_millis (request p.2))) → 0 <= a → 0 <= b →
  a + cpu_in_state JobState.Ready l <= u64_max → b + cpu_in_state JobState.Running l <= u64_max →
  fold_left demand_step l (a, b) = (a + cpu_in_state JobState.Ready l, b + cpu_in_state JobState.Running l).
Proof.
  revert a b. induction l as [|p l IH]; intros a b Hl Ha Hb HA HB; cbn [cpu_in_state fold_left] in *; [f_equal; lia|].
  assert (∀ q, q ∈ l → is_u32 (cpu_millis (request q.2))) as Hl' by (intros; apply Hl; by right).
  pose proof (Hl p ltac:(by left)) as Hp. unfold is_u32 in Hp. pose proof (cpu_in_state_bound l Hl') as (? & ? & _).
  unfold demand_step at 2. cbn [fst snd].
  destruct (state p.2); repeat first [rewrite bool_decide_eq_true_2 in * by done|rewrite bool_decide_eq_false_2 in * by done];
    unfold wrap64; rewrite ?Z.mod_small by lia; rewrite IH; try done; try lia; f_equal; lia.
Qed.

Lemma arena_iter_live e : Engine_inv e →
  (∀ p, p ∈ Arena_iter (eg_jobs e) → Arena_get (eg_jobs e) p.1 = Some p.2) ∧
  Z.of_nat (length (Arena_iter (eg_jobs e))) <= u32_max.
Proof.
  intros He. pose proof (si_jobs _ _ (en_sched _ He)) as [Hwf Hlen _]. split.
  - intros [x j] Hp. by apply Arena_iter_elem.
  - rewrite Arena_iter_length. unfold count_if. pose proof (filter_length_le is_occupied (slots (eg_jobs e))). lia.
Qed.

(** The demand, exactly: no sum wraps, and the wanted workers are the ready and
    running millicores over one worker's, rounded up and clamped. *)
Definition demand_of (e : Engine) : Demand :=
  let ready := cpu_in_state JobState.Ready (Arena_iter (eg_jobs e)) in
  let running := cpu_in_state JobState.Running (Arena_iter (eg_jobs e)) in
  let cpu := ec_worker_cpu (eg_config e) in
  MkDemand (Z.min (ec_max_workers (eg_config e)) (Z.max (ec_min_workers (eg_config e))
              (Z.min u32_max ((ready + running + cpu - 1) / cpu))))
    (Z.min u32_max (Z.of_nat (length (List.filter (fun n : option string =>
       match n with Some _ => true | None => false end) (eg_names e)))))
    ready running.

Lemma div_ceil_Done a b : 0 <= a → 1 <= b → div_ceil a b = Done ((a + b - 1) / b).
Proof.
  intros Ha Hb. unfold div_ceil. destruct (Z.eqb_spec b 0); [lia|]. f_equal.
  pose proof (Z.div_mod a b ltac:(lia)) as E. pose proof (Z.mod_pos_bound a b ltac:(lia)) as Hm.
  destruct (Z.eqb_spec (a mod b) 0) as [E0|E0]; [apply (Z.div_unique _ _ _ (b - 1))|apply (Z.div_unique _ _ _ (a mod b - 1))]; lia.
Qed.

Lemma refresh_demand_spec e :
  Engine_inv e → refresh_demand e = Done (with_demand e (demand_of e)) ∧
    0 <= cpu_in_state JobState.Ready (Arena_iter (eg_jobs e)) ∧
    0 <= cpu_in_state JobState.Running (Arena_iter (eg_jobs e)) ∧
    cpu_in_state JobState.Ready (Arena_iter (eg_jobs e)) + cpu_in_state JobState.Running (Arena_iter (eg_jobs e)) <= u64_max.
Proof.
  intros He. destruct (arena_iter_live e He) as [Hl Hlen]. pose proof (en_config _ He) as [_ Hcpu Hw _ _].
  assert (∀ p, p ∈ Arena_iter (eg_jobs e) → is_u32 (cpu_millis (request p.2))) as Hc.
  { intros p Hp%Hl. by destruct (jobs_ok_requests _ (si_jobs _ _ (en_sched _ He)) _ _ Hp). }
  destruct (cpu_in_state_bound _ Hc) as (H1 & H2 & H3). unfold refresh_demand, demand_of.
  assert (cpu_in_state JobState.Ready (Arena_iter (eg_jobs e)) + cpu_in_state JobState.Running (Arena_iter (eg_jobs e))
    <= u64_max) as H4 by nia.
  split; [|done]. rewrite demand_fold by (done || lia). rewrite !Z.add_0_l. unfold wrap64. rewrite Z.mod_small by lia.
  rewrite div_ceil_Done by lia. cbn [exec_bind]. unfold clamp.
  destruct (Z.ltb_spec (ec_max_workers (eg_config e)) (ec_min_workers (eg_config e))); [lia|]. done.
Qed.

(** ** Retention *)

(** A field the invariant does not read. *)
Lemma with_journal_inv e j : Engine_inv e → Engine_inv (with_journal e j).
Proof. by intros []. Qed.

Definition expired (e : Engine) (now : VirtualTime) (p : VirtualTime * JobId) : Prop :=
  ec_retain (eg_config e) <= time_saturating_sub_time now p.1.

(** A finished job leaves the arena. *)
Lemma forgotten_inv e id j :
  Engine_inv e → Arena_get (eg_jobs e) id = Some j → is_terminal (state j) = true → JobId_generation id < u32_max →
  Engine_inv (with_jobs e (Arena_remove (eg_jobs e) id).1).
Proof.
  intros [H1 H2 H3 H4 H5 [R1 R2] [G1 G2 G3] [T1 T2 T3]] Hj Ht Hg.
  assert (Arena_wf (eg_jobs e)) as Hwf by apply H2.
  destruct (Arena_remove_spec (eg_jobs e) id Hwf) as (_ & _ & Hget). set (jobs' := (Arena_remove (eg_jobs e) id).1) in *.
  assert (∀ x, x ≠ id → Arena_get jobs' x = Arena_get (eg_jobs e) x) as Hne.
  { intros x Hx. by rewrite Hget, decide_False. }
  assert (∀ x, issued (eg_jobs e) x → issued jobs' x) as Hiss by (intros x; by apply issued_remove).
  split; simpl; try done.
  - by eapply Sched_inv_remove.
  - intros x Hx. by apply Hiss, H3.
  - intros x k. rewrite Hget. case_decide; [done|]. apply H4.
  - split; [done|]. intros r Hr. destruct (R2 r Hr) as (k & Hk & Ho & ?). exists k. rewrite Hne; [done|].
    intros Ex. rewrite Ex, Hj in Hk. injection Hk as <-. apply occupies_not_blocked in Ho as [_ ?]. congruence.
  - split; [done| |done]. intros x Hx. specialize (G2 x Hx). unfold job_state in *. rewrite Hne; [done|].
    intros ->. rewrite Hj in G2. injection G2 as Es. by rewrite Es in Ht.
  - split; [done|..].
    + intros x (st & Est & Hst). apply T2. exists st. split; [|done]. unfold job_state in Est |- *. rewrite Hget in Est.
      by case_decide.
    + intros x Hx. destruct (decide (id = x)) as [<-|Hne'].
      * right. split; [by rewrite Hget, decide_True|]. apply Hiss. by eapply issued_live.
      * destruct (T3 x Hx) as [(st & Est & ?)|[? ?]]; [left|right].
        -- exists st. unfold job_state. by rewrite Hne.
        -- split; [by rewrite Hne|by apply Hiss].
Qed.

(** The entry of a job that is gone leaves the queue. *)
Lemma drop_stale_inv e at_ id rest :
  Engine_inv (with_terminal e ((at_, id) :: rest)) → Arena_get (eg_jobs e) id = None → Engine_inv (with_terminal e rest).
Proof.
  intros [H1 H2 H3 H4 H5 H6 H7 [T1 T2 T3]] Hj. split; try done. simpl in *. apply NoDup_cons in T1 as [Tn T1].
  split; [done|..].
  - intros x Hx. destruct (proj1 (elem_of_cons _ _ _) (T2 x Hx)) as [->|?]; [|done]. destruct Hx as (st & Est & _).
    unfold job_state in Est. by rewrite Hj in Est.
  - intros x Hx. apply T3. by right.
Qed.

(** One finished job is dropped, or a stale entry skipped. *)
Lemma forget_one_ok e at_ id rest :
  Engine_inv (with_terminal e ((at_, id) :: rest)) → JobId_generation id < u32_max →
  ∃ jobs' jr,
    match Arena_remove (eg_jobs e) id with
    | (jobs, Some _) => record hash (with_jobs e jobs) (LogRecord.Forgotten id)
    | (jobs, None) => Done (with_jobs e jobs)
    end = Done (with_journal (with_jobs e jobs') jr) ∧
    step_ok (with_terminal e ((at_, id) :: rest)) (with_terminal (with_journal (with_jobs e jobs') jr) rest) ∧
    ∀ x, Arena_get jobs' x = if decide (x = id) then None else Arena_get (eg_jobs e) x.
Proof.
  intros He Hg. assert (Arena_wf (eg_jobs e)) as Hwf by apply (en_sched _ He).
  destruct (Arena_remove_spec (eg_jobs e) id Hwf) as (Ersult & _ & Hget).
  destruct (Arena_get (eg_jobs e) id) as [j|] eqn:Hj.
  - assert (is_terminal (state j) = true) as Ht.
    { destruct (tv_noted _ _ (en_terminal _ He) id) as [(st & Est & Ht)|[Hn _]]; [by left| |simpl in Hn; congruence].
      unfold job_state in Est. simpl in Est. rewrite Hj in Est. by injection Est as <-. }
    rewrite (surjective_pairing (Arena_remove _ _)), Ersult.
    pose proof (forgotten_inv _ id j He Hj Ht Hg) as He1. simpl (eg_jobs _) in He1. set (jobs' := (Arena_remove (eg_jobs e) id).1) in *.
    destruct (record_spec hash (with_jobs e jobs') (LogRecord.Forgotten id)) as (jr & -> & Hlog).
    { apply forgotten_fits. by eapply Arena_get_u64. }
    exists jobs', jr. split; [done|]. split; [|intros x; rewrite Hget; by repeat case_decide]. split; [|done|].
    + apply (with_journal_inv (with_terminal (with_jobs e jobs') rest) jr).
      apply (drop_stale_inv (with_jobs e jobs') at_ id rest He1). simpl. by rewrite Hget, decide_True.
    + exists [LogRecord.Forgotten id]. split; [|exact Hlog].
      eapply log_trace_one; [apply forgotten_fits; by eapply Arena_get_u64|]. simpl. by eapply ev_forgotten.
  - rewrite Arena_remove_stale by done. exists (eg_jobs e), (eg_journal e).
    assert (with_journal (with_jobs e (eg_jobs e)) (eg_journal e) = e) as -> by by destruct e.
    assert (with_jobs e (eg_jobs e) = e) as -> by by destruct e.
    split; [done|]. split; [|intros x; case_decide; by subst]. apply step_ok_quiet; try done. by eapply drop_stale_inv.
Qed.

(** The retention loop drops the expired entries at the front, no other. *)
Lemma forget_loop_ok e terminal now :
  Engine_inv (with_terminal e terminal) → (∀ p, p ∈ terminal → JobId_generation p.2 < u32_max) →
  ∃ jobs' jr dropped rest, terminal = dropped ++ rest ∧
    forget_loop hash now terminal e = Done (with_terminal (with_journal (with_jobs e jobs') jr) rest) ∧
    step_ok (with_terminal e terminal) (with_terminal (with_journal (with_jobs e jobs') jr) rest) ∧
    Forall (expired e now) dropped ∧ (∀ p, hd_error rest = Some p → ¬ expired e now p) ∧
    ∀ x, Arena_get jobs' x = if decide (x ∈ dropped.*2) then None else Arena_get (eg_jobs e) x.
Proof.
  revert e. induction terminal as [|[at_ id] rest IH]; intros e He Hg; cbn [forget_loop].
  { exists (eg_jobs e), (eg_journal e), [], []. split; [done|].
    assert (with_journal (with_jobs e (eg_jobs e)) (eg_journal e) = e) as -> by by destruct e.
    split; [done|]. split; [by apply step_ok_refl|]. split; [done|]. split; [done|].
    intros x. by rewrite decide_False by apply not_elem_of_nil. }
  destruct (Z.ltb_spec (time_saturating_sub_time now at_) (ec_retain (eg_config e))) as [Hlt|Hge].
  { exists (eg_jobs e), (eg_journal e), [], ((at_, id) :: rest). split; [done|].
    assert (with_journal (with_jobs e (eg_jobs e)) (eg_journal e) = e) as -> by by destruct e.
    split; [done|]. split; [by apply step_ok_refl|]. split; [done|]. split.
    - intros p [= <-] Hx. unfold expired in Hx. simpl in Hx. lia.
    - intros x. by rewrite decide_False by apply not_elem_of_nil. }
  destruct (forget_one_ok e at_ id rest He) as (jobs1 & jr1 & -> & H1 & Hget1); [apply (Hg (at_, id)); by left|].
  cbn [exec_bind].
  destruct (IH _ (so_inv _ _ _ H1)) as (jobs' & jr & dropped & rest' & -> & -> & H2 & Hd & Hr & Hget).
  { intros p Hp. apply Hg. by right. }
  exists jobs', jr, ((at_, id) :: dropped), rest'. split; [done|]. split; [done|]. split; [by etrans|].
  split; [by constructor|]. split; [done|]. intros x. rewrite Hget, fmap_cons. cbn [eg_jobs with_journal with_jobs with_sched snd]. rewrite Hget1.
  destruct (decide (x = id)) as [E|Hx].
  - rewrite (decide_True (P := x ∈ id :: dropped.*2)) by (rewrite E; by left). by case_decide.
  - destruct (decide (x ∈ dropped.*2)); [by rewrite decide_True by by right|]. rewrite decide_False; [done|]. set_solver.
Qed.

(** ** Reconciliation *)

Lemma requeue_unclaimed_running e id now :
  job_state (eg_jobs e) id = Some JobState.Running → requeue_unclaimed hash now e id = requeue_logged hash e id now.
Proof.
  unfold job_state, requeue_unclaimed. destruct (Arena_get (eg_jobs e) id) as [j|]; [|done].
  intros [= ->]. by rewrite bool_decide_eq_true_2.
Qed.

(** The window of a tick at [now]: the one already armed, or one armed now. *)
Definition reconcile_deadline (e : Engine) (now : VirtualTime) : VirtualTime :=
  default (time_saturating_add now (ec_reconcile_window (eg_config e))) (eg_reconcile_until e).

Lemma expire_reconcile_ok e now :
  Engine_inv e → is_u64 now →
  ∃ e', expire_reconcile hash e now = Done e' ∧ step_ok e e' ∧
    eg_terminal e' = eg_terminal e ∧
    (∀ x, x ∉ eg_reconciling e → job_state (eg_jobs e') x = job_state (eg_jobs e) x) ∧
    (eg_reconciling e ≠ [] → now < reconcile_deadline e now →
       eg_reconciling e' = eg_reconciling e ∧ eg_reconcile_until e' = Some (reconcile_deadline e now)) ∧
    (reconcile_deadline e now <= now → eg_reconciling e' = [] ∧ eg_reconcile_until e' = None ∧
       ∀ x, x ∈ eg_reconciling e → job_state (eg_jobs e') x = Some JobState.Ready).
Proof.
  intros He Hnow. unfold expire_reconcile. fold (reconcile_deadline e now).
  destruct (eg_reconciling e) as [|x0 held] eqn:Eh.
  { exists (with_until e None). split; [done|]. split; [apply step_ok_quiet; try done; by destruct He|].
    do 3 (split; [done|]). intros _. split; [done|]. split; [done|]. by intros x ?%elem_of_nil. }
  rewrite <-Eh. simpl (eg_reconciling _). destruct (Z.ltb_spec now (reconcile_deadline e now)) as [Hlt|Hge].
  { exists (with_until e (Some (reconcile_deadline e now))). split; [done|].
    split; [apply step_ok_quiet; try done; by destruct He|]. do 3 (split; [by rewrite ?Eh|]). lia. }
  pose proof (en_held _ He) as [G1 G2 G3].
  set (e1 := with_reconciling (with_until e (Some (reconcile_deadline e now))) []).
  assert (Engine_inv e1) as He1.
  { destruct He. split; try done. simpl. split; [constructor|by intros x ?%elem_of_nil..]. }
  destruct (requeue_all_ok hash (fun st => st = JobState.Running) (requeue_unclaimed hash now) e1 (eg_reconciling e) now)
    as (s' & jobs' & jr & -> & H2 & Hin & Hout); [|done|done|done| |].
  - intros e2 id st Hst ->. by apply requeue_unclaimed_running.
  - intros x Hx. pose proof (G2 x Hx) as Hs. split; [|by exists JobState.Running].
    split; [|split; [by apply G3|apply not_elem_of_nil]]. unfold job_state in Hs. simpl.
    destruct (Arena_get (eg_jobs e) x) as [j|]; [|done]. injection Hs as Hs. exists j. by rewrite Hs.
  - cbn [exec_bind]. eexists. split; [done|]. split.
    + etrans; [apply (step_ok_quiet hash e e1); done|]. etrans; [exact H2|]. apply step_ok_quiet; try done.
      by destruct H2 as [[] _ _].
    + split; [done|]. split; [done|]. split; [lia|]. intros _. by split_and!.
Qed.

(** ** The batch *)

Lemma snapshot_fits e now : Engine_inv e → is_u64 now → snapshot_wf (engine_snapshot e now).
Proof.
  intros He Hnow. pose proof (en_sched _ He) as [[Hwf Hsl Hjo] _ _ Hfs].
  destruct (arena_slots_fit (eg_jobs e) Hwf) as [Hs Hf].
  { intros x j Hj. destruct (Hjo _ _ Hj). split; [done|done|]. by eapply en_jobs. }
  destruct (arena_iter_live e He) as [Hl Hlen]. split; cbn [taken_at snap_slots snap_free_head snap_running snap_ledgers engine_snapshot]; try done.
  - unfold Arena_slots. by rewrite List.length_map.
  - apply Forall_forall. intros x. unfold jobs_in_state. intros (p & -> & Hp)%list_elem_of_fmap.
    apply elem_of_List_filter in Hp as [Hp%Hl _]. by eapply Arena_get_u64.
  - unfold jobs_in_state. rewrite List.length_map.
    pose proof (filter_length_le (fun p : JobId * Job => bool_decide (state p.2 = JobState.Running)) (Arena_iter (eg_jobs e))). lia.
  - apply Hfs.
  - pose proof (fw_max _ Hfs). unfold MAX_ACCOUNTS in *. unfold eg_fairshare. lia.
Qed.

(** What the tick leaves in the journal: the batch with a snapshot when the log
    has grown past its bound, sent to the writer. *)
Definition batched (e : Engine) (now : VirtualTime) (j : EngineJournal) : EngineJournal :=
  if wants_snapshot j then attach_snapshot j (snapshot_bytes hash (engine_snapshot e now)) else j.

Lemma attach_if_wanted_spec e now :
  Engine_inv e → is_u64 now →
  attach_if_wanted hash e now = Done (with_journal e (batched e now <$> eg_journal e)).
Proof.
  intros He Hnow. unfold attach_if_wanted, batched. destruct (eg_journal e) as [j|] eqn:Ej; simpl.
  - destruct (wants_snapshot j); [|destruct e; simpl in *; by subst].
    unfold engine_encode_snapshot. rewrite (encode_snapshot_writes hash _ (snapshot_fits e now He Hnow) []). done.
  - destruct e; simpl in *; by subst.
Qed.

(** ** The whole tick *)

(** The tick up to its batch, then the batch. *)
Definition tick_body (e : Engine) (w : World Q) (now : VirtualTime) : exec (Engine * World Q * CycleOutcome) :=
  let '(e, w) := flush_overflow e w in
  let! '(e, decisions, outcome) := run_engine_cycle e now in
  let! '(e, w) := exec_fold (fun ew d => on_dispatched hash ew.1 ew.2 d now) (e, w) decisions in
  let! '(e, w) :=
    match co_head outcome with
    | Some head => plan_evictions hash e w head now
    | None => Done (e, w)
    end in
  let e := with_cycles e (wrap64 (eg_cycles e + 1)) in
  let! e := refresh_demand e in
  let! e := forget_expired hash e now in
  let! e := expire_reconcile hash e now in
  Done (e, w, outcome).

Definition generations_left (e : Engine) : Prop :=
  ∀ p, p ∈ eg_terminal e → JobId_generation p.2 < u32_max.

(** The first half of a tick: the cycle, its dispatches and the evictions. *)
Definition tick_schedule (e : Engine) (w : World Q) (now : VirtualTime) : exec (Engine * World Q * CycleOutcome) :=
  let '(e, w) := flush_overflow e w in
  let! '(e, decisions, outcome) := run_engine_cycle e now in
  let! '(e, w) := exec_fold (fun ew d => on_dispatched hash ew.1 ew.2 d now) (e, w) decisions in
  let! '(e, w) :=
    match co_head outcome with
    | Some head => plan_evictions hash e w head now
    | None => Done (e, w)
    end in
  Done (e, w, outcome).

Lemma tick_schedule_ok e (w : World Q) now :
  Engine_inv e → is_u64 now →
  ∃ e' w' outcome, tick_schedule e w now = Done (e', w', outcome) ∧ step_ok e e' ∧ keeps_queues e e'.
Proof.
  intros He Hnow. unfold tick_schedule. pose proof (flush_overflow_ok e w He) as H0.
  assert (keeps_queues e (flush_overflow e w).1) as Q0 by (unfold flush_overflow; by destruct (flush_stack _ _)).
  destruct (flush_overflow e w) as [e0 w0]. cbn [fst] in H0, Q0.
  destruct (cycle_dispatch_ok e0 w0 now (so_inv _ _ _ H0) Hnow) as (e1 & ds & out & e2 & w2 & B & E1 & E2 & H2 & _).
  pose proof (cycle_dispatch_queues _ _ _ _ _ _ _ _ E1 E2) as Q2. rewrite E1. cbn [exec_bind]. rewrite E2. cbn [exec_bind].
  destruct (co_head out) as [h|]; cbn [exec_bind].
  - destruct (plan_evictions_ok e2 w2 h now (so_inv _ _ _ H2) Hnow) as (e3 & w3 & E3 & H3). rewrite E3. cbn [exec_bind].
    pose proof (plan_evictions_queues _ _ _ _ _ _ E3) as Q3. exists e3, w3, out. split; [done|].
    split; [etrans; [exact H0|]; by etrans|]. etrans; [exact Q0|]. by etrans.
  - exists e2, w2, out. split; [done|]. split; by etrans.
Qed.

Lemma tick_body_split e (w : World Q) now :
  tick_body e w now =
  let! '(e, w, outcome) := tick_schedule e w now in
  let! e := refresh_demand (with_cycles e (wrap64 (eg_cycles e + 1))) in
  let! e := forget_expired hash e now in
  let! e := expire_reconcile hash e now in
  Done (e, w, outcome).
Proof.
  unfold tick_body, tick_schedule. destruct (flush_overflow e w) as [e0 w0].
  destruct (run_engine_cycle e0 now) as [[[e1 ds] out]| |]; [|done..]. cbn [exec_bind].
  destruct (exec_fold _ (e1, w0) ds) as [[e2 w2]| |]; [|done..]. cbn [exec_bind].
  by destruct (match co_head out with Some _ => _ | None => _ end) as [[e3 w3]| |].
Qed.

(** The upkeep of a tick: which finished jobs it forgets, and which held jobs it
    gives up waiting for. *)
Record upkeep (e : Engine) (now : VirtualTime) (e' : Engine) : Prop := {
  uk_forgets : ∃ dropped, eg_terminal e = dropped ++ eg_terminal e' ∧ Forall (expired e now) dropped ∧
    (∀ p, hd_error (eg_terminal e') = Some p → ¬ expired e now p) ∧
    ∀ x, x ∈ dropped.*2 → Arena_get (eg_jobs e') x = None;
  uk_waits : eg_reconciling e ≠ [] → now < reconcile_deadline e now →
    eg_reconciling e' = eg_reconciling e ∧ eg_reconcile_until e' = Some (reconcile_deadline e now);
  uk_requeues : reconcile_deadline e now <= now → eg_reconciling e' = [] ∧ eg_reconcile_until e' = None ∧
    ∀ x, x ∈ eg_reconciling e → job_state (eg_jobs e') x = Some JobState.Ready;
}.

Lemma tick_body_ok e (w : World Q) now :
  Engine_inv e → is_u64 now → generations_left e →
  ∃ e' w' outcome, tick_body e w now = Done (e', w', outcome) ∧ step_ok e e' ∧ upkeep e now e'.
Proof.
  intros He Hnow Hg. rewrite tick_body_split.
  destruct (tick_schedule_ok e w now He Hnow) as (e3 & w3 & out & -> & H3 & Q1 & Q2 & Q3). cbn [exec_bind].
  set (e4 := with_cycles e3 _). assert (Engine_inv e4) as He4 by by destruct H3 as [[] _ _].
  destruct (refresh_demand_spec e4 He4) as [-> _]. cbn [exec_bind]. set (e5 := with_demand e4 _).
  assert (step_ok e3 e5) as H5 by (apply step_ok_quiet; try done; by destruct He4). unfold forget_expired.
  assert (with_terminal e5 (eg_terminal e5) = e5) as E5 by by destruct e5.
  destruct (forget_loop_ok e5 (eg_terminal e5) now) as (jobs6 & jr6 & dropped & rest & Et & -> & H6 & Hd & Hr & Hget).
  { rewrite E5. apply H5. } { intros p. change (eg_terminal e5) with (eg_terminal e3). rewrite Q1. apply Hg. }
  rewrite E5 in H6. cbn [exec_bind]. set (e6 := with_terminal _ rest) in *.
  destruct (expire_reconcile_ok e6 now (so_inv _ _ _ H6) Hnow) as (e7 & -> & H7 & T7 & X0 & X2 & X3). cbn [exec_bind].
  assert (reconcile_deadline e6 now = reconcile_deadline e now) as Edl.
  { unfold reconcile_deadline. change (eg_reconcile_until e6) with (eg_reconcile_until e3).
    change (eg_config e6) with (eg_config e3). by rewrite Q3, (so_config _ _ _ H3). }
  assert (∀ p, expired e5 now p ↔ expired e now p) as Hex.
  { intros p. unfold expired. change (eg_config e5) with (eg_config e3). by rewrite (so_config _ _ _ H3). }
  change (eg_reconciling e6) with (eg_reconciling e3) in X2, X3. rewrite Edl, Q2 in X2, X3.
  exists e7, w3, out. split; [done|]. split; [etrans; [exact H3|]; etrans; [exact H5|]; by etrans|]. split.
  - exists dropped. rewrite T7. change (eg_terminal e6) with rest. change (eg_terminal e5) with (eg_terminal e3) in Et.
    split; [by rewrite <-Q1|]. split; [eapply Forall_impl; [exact Hd|]; intros p; apply Hex|].
    split; [intros p Hp; rewrite <-Hex; by apply Hr|]. intros x Hx.
    assert (job_state (eg_jobs e7) x = None) as Hn; [|unfold job_state in Hn; by destruct (Arena_get (eg_jobs e7) x)].
    rewrite X0; [unfold job_state; simpl; by rewrite Hget, decide_True|]. intros Hh.
    pose proof (hv_running _ _ _ (en_held _ (so_inv _ _ _ H6)) x Hh) as Hn. unfold job_state in Hn. simpl in Hn.
    by rewrite Hget, decide_True in Hn.
  - exact X2.
  - exact X3.
Qed.

Lemma tick_split e (w : World Q) now :
  tick hash e w now =
  let! '(e, w, outcome) := tick_body e w now in
  let! e := attach_if_wanted hash e now in
  let '(e, w) := commit_journal e w in
  Done (e, w, outcome).
Proof.
  unfold tick, tick_body. destruct (flush_overflow e w) as [e0 w0].
  destruct (run_engine_cycle e0 now) as [[[e1 ds] out]| |]; [|done..]. cbn [exec_bind].
  destruct (exec_fold _ (e1, w0) ds) as [[e2 w2]| |]; [|done..]. cbn [exec_bind].
  destruct (match co_head out with Some _ => _ | None => _ end) as [[e3 w3]| |]; [|done..]. cbn [exec_bind].
  destruct (refresh_demand _) as [e4| |]; [|done..]. cbn [exec_bind].
  destruct (forget_expired _ _ _) as [e5| |]; [|done..]. cbn [exec_bind].
  by destruct (expire_reconcile _ _ _) as [e6| |].
Qed.

(** What a tick did: the logged steps up to its batch, and the batch it sent. *)
Lemma tick_ok e (w : World Q) now :
  Engine_inv e → is_u64 now → generations_left e →
  ∃ e3 w3 outcome, tick_body e w now = Done (e3, w3, outcome) ∧ step_ok e e3 ∧ upkeep e now e3 ∧
    let ew := commit_journal (with_journal e3 (batched e3 now <$> eg_journal e3)) w3 in
    tick hash e w now = Done (ew.1, ew.2, outcome) ∧ Engine_inv ew.1.
Proof.
  intros He Hnow Hg. destruct (tick_body_ok e w now He Hnow Hg) as (e3 & w3 & out & Eb & H3 & Hu).
  exists e3, w3, out. do 3 (split; [done|]). pose proof (so_inv _ _ _ H3) as He3. rewrite tick_split, Eb. cbn [exec_bind].
  rewrite (attach_if_wanted_spec e3 now He3 Hnow). cbn [exec_bind].
  set (e4 := with_journal e3 _). assert (Engine_inv e4) as He4 by by apply with_journal_inv.
  unfold commit_journal. destruct (eg_journal e4) as [j|]; [|done].
  destruct (commit j (w_commits w3) (w_writer w3)) as [[j' q] b]. split; [done|]. by apply with_journal_inv.
Qed.

(** Until its batch is sent, a tick leaves the writer's channel alone. *)
Lemma dispatch_durably_commits e (w : World Q) d : w_commits (dispatch_durably e w d).2 = w_commits w.
Proof. unfold dispatch_durably, push_dispatch. destruct (eg_journal e); [done|]. by destruct (outbox_push _ _) as [? []]. Qed.

Lemma fold_commits {A} (f : Engine * World Q → A → exec (Engine * World Q)) l ew ew' :
  (∀ ew x ew', f ew x = Done ew' → w_commits ew'.2 = w_commits ew.2) →
  exec_fold f ew l = Done ew' → w_commits ew'.2 = w_commits ew.2.
Proof.
  intros Hf. revert ew. induction l as [|x l IH]; intros ew E; cbn [exec_fold] in E; [by injection E as <-|].
  apply exec_bind_Done in E as (ew1 & E1 & E). rewrite (IH _ E). by eapply Hf.
Qed.

Lemma on_dispatched_commits (ew : Engine * World Q) d now ew' :
  on_dispatched hash ew.1 ew.2 d now = Done ew' → w_commits ew'.2 = w_commits ew.2.
Proof.
  unfold on_dispatched. destruct (Arena_get _ _); [|by intros [= <-]]. intros E.
  apply exec_bind_Done in E as (e1 & _ & E). injection E as <-. apply dispatch_durably_commits.
Qed.

Lemma evict_one_commits (ew : Engine * World Q) v now ew' :
  evict_one hash ew.1 ew.2 v now = Done ew' → w_commits ew'.2 = w_commits ew.2.
Proof.
  unfold evict_one. intros E. apply exec_bind_Done in E as ([e1 [u|err]] & _ & E); [|by injection E as <-].
  apply exec_bind_Done in E as (e2 & _ & E). injection E as <-. apply dispatch_durably_commits.
Qed.

Lemma tick_body_commits e (w : World Q) now e' w' out :
  tick_body e w now = Done (e', w', out) → w_commits w' = w_commits w.
Proof.
  unfold tick_body, flush_overflow. destruct (flush_stack _ _) as [o st].
  set (w0 := MkWorld o (w_answers w) (w_commits w) (w_writer w)). change (w_commits w) with (w_commits w0). clearbody w0.
  intros E. apply exec_bind_Done in E as ([[e1 ds] out1] & _ & E). apply exec_bind_Done in E as ([e2 w2] & E2 & E).
  apply exec_bind_Done in E as ([e3 w3] & E3 & E). apply exec_bind_Done in E as (e4 & _ & E).
  apply exec_bind_Done in E as (e5 & _ & E). apply exec_bind_Done in E as (e6 & _ & E). injection E as _ -> _.
  apply fold_commits in E2; [|intros ew d ew'; apply on_dispatched_commits]. simpl in E2. rewrite <-E2.
  destruct (co_head out1) as [h|]; [|by injection E3 as _ ->].
  unfold plan_evictions in E3. apply exec_bind_Done in E3 as (evs & _ & E3).
  by apply fold_commits in E3; [|intros ew v ew'; apply evict_one_commits].
Qed.
End Tick.
