(* ===== verification/EngineRun.v ===== *)
(** * Runs of the engine

    The engine as a state machine: it is built from its configuration, then
    commands, ticks, the quiesce flag and whatever the other threads do to the
    shared queues follow in any order.  By induction on runs, the invariant of
    [EngineInv] holds of every engine reached, no command and no tick panics, and
    the batches sent to the log writer are a faithful record of the run. *)

From stdpp Require Import base strings list numbers option sets relations.
From Stdlib Require Import ZArith Lia.
From S2P Require Import Prelude Domain Arena Job Inventory Priority ReadySet Eligibility.
From S2P Require Import Decay FairShare Pack Backfill Preempt Scheduler Cycle Frame.
From S2P Require Import Codec LogRecord Log Snapshot Store Journal Command Engine EngineInv EngineSteps EngineTick.
Open Scope Z_scope.
Open Scope list_scope.

(** ** Construction *)

Lemma vec_get_nil {A} i : vec_get (@nil A) i = None.
Proof. destruct (vec_get [] i) eqn:E; [|done]. apply vec_get_range in E. simpl in E. lia. Qed.

Lemma Arena_get_new x : Arena_get (@Arena_new Job) x = None.
Proof. unfold Arena_get. simpl. by rewrite vec_get_nil. Qed.

Lemma tracker_empty n :
  let t := tracker_reserve_slots Tracker_new n in
  Tracker_wf t ∧ edges t = [] ∧ ∀ d, ¬ tracked t d.
Proof.
  intros t. assert (Tracker_tables Tracker_new) as Ht.
  { split; [done|done|intros k o; simpl; by rewrite vec_get_nil|by intros d ?%elem_of_nil]. }
  destruct (reserve_same Tracker_new n Ht) as [[H1 H2 H3 H4 H5 H6] _]. fold t in H1, H2, H3, H4, H5, H6.
  assert (∀ d, ¬ tracked t d) as Hd.
  { intros d [_ Hd]%H2. simpl in Hd. by rewrite vec_get_nil in Hd. }
  split; [|done]. split; [done|apply H6; intros k; simpl; by rewrite vec_get_nil|]. intros d Hd'. by destruct (Hd d).
Qed.

(** A new scheduler beside jobs that are in none of its queues. *)
Lemma Scheduler_fresh_inv n jobs :
  jobs_ok jobs → (∀ x st, job_state jobs x = Some st → st ≠ JobState.Blocked ∧ st ≠ JobState.Ready) →
  Sched_inv (Scheduler_with_slots n) jobs.
Proof.
  intros Hjo Hs. destruct (tracker_empty n) as (Hwf & He & Hd). split; [done| | |apply FairShare_new_wf].
  - split; [done| |].
    + split; [intros d ?; by destruct (Hd d)|cbn; rewrite He; by intros d ?%elem_of_nil|].
      rewrite is_pending_state. destruct (job_state jobs NO_OWNER) as [st|] eqn:E; [|done]. unfold job_state in E.
      destruct (Arena_get jobs NO_OWNER) as [j|] eqn:Ej; [|done].
      by destruct (handle_not_sentinel jobs NO_OWNER (jo_slots _ Hjo) (issued_live _ _ _ Ej)).
    + intros x. split; [by intros [? _]%Hs|]. intros [? _]. by destruct (Hd x).
  - exists []. split; [|constructor|by intros e ?%elem_of_nil|by intros x [_ ?]%Hs].
    exists (fun _ => []). split; [apply ready_with_slots_rep|done].
Qed.

Lemma Scheduler_with_slots_inv n : Sched_inv (Scheduler_with_slots n) Arena_new ∧ edges (sc_deps (Scheduler_with_slots n)) = [].
Proof.
  split; [|by destruct (tracker_empty n) as (_ & ? & _)]. apply Scheduler_fresh_inv.
  - split; [apply Arena_wf_new|simpl; lia|]. intros x j. by rewrite Arena_get_new.
  - intros x st. unfold job_state. by rewrite Arena_get_new.
Qed.

Record daemon_config_ok (c : DaemonConfig) : Prop := {
  dk_cycle : config_ok (dc_cycle c);
  dk_min : 0 <= dc_min_workers c;
  dk_retain : 0 <= dc_retain c;
  dk_heartbeat : 0 <= dc_heartbeat_timeout c;
  dk_shares : Forall (fun p => 0 <= p.1 ∧ is_u32 p.2) (dc_shares c);
}.

Lemma set_all_shares_ok s jobs shares :
  Sched_inv s jobs → Forall (fun p => 0 <= p.1 ∧ is_u32 p.2) shares →
  ∃ s', set_all_shares s shares = Done s' ∧ Sched_inv s' jobs ∧ sc_deps s' = sc_deps s.
Proof.
  intros Hs Hl. revert s Hs. unfold set_all_shares. induction Hl as [|[a n] l [Ha Hn] _ IH]; intros s Hs; cbn [exec_fold fst snd].
  { by exists s. }
  unfold scheduler_set_shares at 1.
  destruct (set_shares_spec (sc_fairshare s) a n (si_fs _ _ Hs) Ha Hn) as (fs & r & -> & Hf & _). cbn [exec_bind].
  destruct r; cbn [exec_bind];
    (destruct (IH (MkScheduler (sc_ready s) (sc_deps s) fs)) as (s' & ? & ? & ?); [by apply Sched_inv_fs|]; by exists s').
Qed.

Lemma build_ok c jr :
  daemon_config_ok c →
  ∃ e, build c jr = Done e ∧ Engine_inv e ∧ eg_jobs e = Arena_new ∧ eg_journal e = jr ∧ ec_cycle (eg_config e) = dc_cycle c ∧
    edges (sc_deps (eg_scheduler e)) = [].
Proof.
  intros [H1 H2 H3 H4 H5]. destruct (Scheduler_with_slots_inv (max_candidates (dc_cycle c))) as [Hs He].
  destruct (set_all_shares_ok _ _ _ Hs H5) as (s' & E & Hs' & Ed). unfold build. rewrite E. cbn [exec_bind].
  eexists. split; [done|]. split; [|simpl; by rewrite Ed].
  split; simpl.
  - split; simpl; try done; unfold is_u64, sat_mul; lia.
  - done.
  - rewrite Ed, He. by intros x ?%elem_of_nil.
  - intros x j. by rewrite Arena_get_new.
  - split; simpl; try done.
    + split; simpl; [lia|]. intros i sl. by rewrite vec_get_nil.
    + intros i sl. by rewrite vec_get_nil.
    + intros i sl. simpl. by rewrite vec_get_nil.
    + by intros r ?%elem_of_nil.
    + by intros r ?%elem_of_nil.
    + intros i. by rewrite vec_get_nil.
  - split; [constructor|by intros r ?%elem_of_nil].
  - split; [constructor|by intros r ?%elem_of_nil..].
  - split; [constructor| |by intros r ?%elem_of_nil]. intros x (st & Est & _). unfold job_state in Est. by rewrite Arena_get_new in Est.
Qed.

(** ** Runs *)

Section Runs.
Context (hash : bytes → Z) {Q : Type → Type} `{ArrayQueue Q}.

(** A snapshot of the engine fits its length field. *)
Definition snapshot_small (e : Engine) (now : VirtualTime) : Prop :=
  Z.of_nat (length (body_bytes (engine_snapshot e now))) <= u64_max.

(** The engines reached from [e0], with every batch sent to the log writer. *)
Inductive runs (e0 : Engine) : Engine → World Q → list EngineCommit → Prop :=
| ru_start w : runs e0 e0 w []
| ru_command e w sent c now e' w' :
    runs e0 e w sent → command_ok e c → is_u64 now → handle hash e w c now = Done (e', w') →
    runs e0 e' w' sent
| ru_tick e w sent now e3 w3 e' w' outcome new :
    runs e0 e w sent → is_u64 now → generations_left e →
    tick_body hash e w now = Done (e3, w3, outcome) → snapshot_small e3 now →
    tick hash e w now = Done (e', w', outcome) → w_commits w' = w_commits w ++ new →
    runs e0 e' w' (sent ++ new)
| ru_quiesce e w sent b :
    runs e0 e w sent → runs e0 (with_quiescing e b) w sent
| ru_world e w sent w' :
    runs e0 e w sent → runs e0 e w' sent
| ru_flush e w sent j :
    runs e0 e w sent → eg_journal e = Some j →
    runs e0 (with_journal e (Some (flush j true).1)) w (sent ++ (flush j true).2).

(** The engines reached from a configuration. *)
Definition reaches (config : DaemonConfig) (journal : option EngineJournal) (e : Engine) (w : World Q)
    (sent : list EngineCommit) : Prop :=
  ∃ e0, build config journal = Done e0 ∧ runs e0 e w sent.

Lemma commit_journal_form e (w : World Q) : ∃ jr, (commit_journal e w).1 = with_journal e jr.
Proof.
  unfold commit_journal. destruct (eg_journal e) as [j|] eqn:Ej.
  - destruct (commit j (w_commits w) (w_writer w)) as [[j' ?] ?]. by exists (Some j').
  - exists None. destruct e. simpl in *. by subst.
Qed.

Lemma runs_inv e0 e (w : World Q) sent :
  Engine_inv e0 → runs e0 e w sent → Engine_inv e ∧ cycle_config e = cycle_config e0.
Proof.
  intros He0. induction 1 as [w|e w sent c now e' w' _ [IH Ec] Hc Hnow Eh|e w sent now e3 w3 e' w' out new _ [IH Ec] Hnow Hg _ _ Et _
    |e w sent b _ [IH Ec]|e w sent w' _ IH|e w sent j _ [IH Ec] _].
  - done.
  - destruct (handle_ok hash e w c now IH Hnow Hc) as (e1 & w1 & E1 & [Hi Hcc _]). rewrite Eh in E1. injection E1 as <- <-.
    split; [done|]. unfold cycle_config in *. by rewrite Hcc.
  - destruct (tick_ok hash e w now IH Hnow Hg) as (e4 & w4 & o & _ & [_ Hcc _] & _ & Et' & Hi). rewrite Et in Et'.
    injection Et' as -> -> ->. split; [done|]. unfold cycle_config in *. rewrite <-Ec, <-Hcc.
    by destruct (commit_journal_form (with_journal e4 (batched hash e4 now <$> eg_journal e4)) w4) as [jr ->].
  - split; [|done]. by destruct IH.
  - done.
  - split; [|done]. by destruct IH.
Qed.

Lemma reaches_inv config journal e (w : World Q) sent :
  daemon_config_ok config → reaches config journal e w sent → Engine_inv e ∧ cycle_config e = dc_cycle config.
Proof.
  intros Hcfg (e0 & Eb & Hr). destruct (build_ok config journal Hcfg) as (e1 & E1 & He & _ & _ & Ecc & _).
  rewrite Eb in E1. injection E1 as <-. destruct (runs_inv e0 e w sent He Hr) as [? ->]. done.
Qed.

(** ** The log of a run *)

Record Batch : Type := MkBatch {
  bt_before : list LogRecord;
  bt_snapshot : option Snapshot;
  bt_after : list LogRecord;
}.

(** What the snapshot of a batch holds. *)
Definition snapshot_of (s : Scheduler) (jobs : Arena Job) (sn : Snapshot) : Prop :=
  snap_slots sn = Arena_slots jobs ∧ snap_free_head sn = free_head jobs ∧
  snap_running sn = jobs_in_state jobs JobState.Running ∧ snap_ledgers sn = ledgers (sc_fairshare s).

(** A snapshot, taken where the scheduler's invariant holds. *)
Record snapshot_point (s : Scheduler) (jobs : Arena Job) (sn : Snapshot) : Prop := {
  sp_of : snapshot_of s jobs sn;
  sp_sched : Sched_inv s jobs;
  sp_accepted : ∀ x j, Arena_get jobs x = Some j → accepted j;
}.

Lemma engine_snapshot_point e now : Engine_inv e → snapshot_point (eg_scheduler e) (eg_jobs e) (engine_snapshot e now).
Proof. intros He. split; [done|apply He|apply He]. Qed.

(** The batches record a run from one state to another. *)
Inductive logged (cc : CycleConfig) (s0 : Scheduler) (jobs0 : Arena Job) : list Batch → Scheduler → Arena Job → Prop :=
| lg_nil : logged cc s0 jobs0 [] s0 jobs0
| lg_batch bs s1 jobs1 s2 jobs2 s3 jobs3 b :
    logged cc s0 jobs0 bs s1 jobs1 → log_trace cc s1 jobs1 (bt_before b) s2 jobs2 →
    (∀ sn, bt_snapshot b = Some sn → snapshot_point s2 jobs2 sn) →
    log_trace cc s2 jobs2 (bt_after b) s3 jobs3 →
    logged cc s0 jobs0 (bs ++ [b]) s3 jobs3.

Definition batch_of (c : EngineCommit) (b : Batch) : Prop :=
  batch_ok hash c (bt_before b) (bt_snapshot b) (bt_after b).

(** The batch carries the records of all it promises. *)
Definition batch_kept (c : EngineCommit) (b : Batch) : Prop := kept c (bt_before b ++ bt_after b).

Lemma logged_snoc_inv cc s0 jobs0 bs b s jobs :
  logged cc s0 jobs0 (bs ++ [b]) s jobs →
  ∃ s1 jobs1 s2 jobs2, logged cc s0 jobs0 bs s1 jobs1 ∧ log_trace cc s1 jobs1 (bt_before b) s2 jobs2 ∧
    (∀ sn, bt_snapshot b = Some sn → snapshot_point s2 jobs2 sn) ∧ log_trace cc s2 jobs2 (bt_after b) s jobs.
Proof.
  inversion 1 as [E|bs' s1 jobs1 s2 jobs2 s3 jobs3 b' H1 H2 H3 H4 E]; [by destruct bs|].
  apply app_inj_tail in E as [-> ->]. eauto 10.
Qed.

(** More of the run goes to the end of the last batch. *)
Lemma logged_extend cc s0 jobs0 bs rb osn rf rs s jobs s' jobs' :
  logged cc s0 jobs0 (bs ++ [MkBatch rb osn rf]) s jobs → log_trace cc s jobs rs s' jobs' →
  logged cc s0 jobs0 (bs ++ [MkBatch rb osn (rf ++ rs)]) s' jobs'.
Proof.
  intros (s1 & jobs1 & s2 & jobs2 & H1 & H2 & H3 & H4)%logged_snoc_inv Ht. simpl in *.
  eapply lg_batch; [exact H1|exact H2|exact H3|]. by eapply log_trace_app.
Qed.

(** The pending batch is closed by a snapshot of the present. *)
Lemma logged_attach cc s0 jobs0 bs rf sn s jobs :
  logged cc s0 jobs0 (bs ++ [MkBatch [] None rf]) s jobs → snapshot_point s jobs sn →
  logged cc s0 jobs0 (bs ++ [MkBatch rf (Some sn) []]) s jobs.
Proof.
  intros (s1 & jobs1 & s2 & jobs2 & H1 & H2 & _ & H4)%logged_snoc_inv Hs. simpl in *.
  eapply (lg_batch _ _ _ _ _ _ s jobs); [exact H1| |by intros ? [= <-]|constructor].
  exact (log_trace_app _ _ _ [] _ _ rf _ _ H2 H4).
Qed.

Lemma logged_open cc s0 jobs0 bs s jobs :
  logged cc s0 jobs0 bs s jobs → logged cc s0 jobs0 (bs ++ [MkBatch [] None []]) s jobs.
Proof. intros Hl. by eapply lg_batch; [exact Hl|constructor|..|constructor]. Qed.

(** An engine that recovery rebuilt opens its log with a snapshot. *)
Definition opens (first : option Snapshot) (bs : list Batch) : Prop :=
  match first with
  | None => True
  | Some sn => ∃ rf rest, bs = MkBatch [] (Some sn) rf :: rest
  end.

Lemma opens_extend first bs rb osn rf rf' : opens first (bs ++ [MkBatch rb osn rf]) → opens first (bs ++ [MkBatch rb osn rf']).
Proof.
  destruct first as [sn|]; [|done]. intros (r & rest & E). destruct bs as [|b bs]; injection E as -> E; [subst|]; by eexists _, _.
Qed.

Lemma opens_attach first bs rb rf b : opens first (bs ++ [MkBatch rb None rf]) → opens first (bs ++ [b]).
Proof. destruct first as [sn|]; [|done]. intros (r & rest & E). destruct bs as [|b' bs]; [done|]. injection E as -> E. by eexists _, _. Qed.

Lemma opens_app first bs b : opens first bs → opens first (bs ++ [b]).
Proof. destruct first as [sn|]; [|done]. intros (r & rest & ->). by eexists _, _. Qed.

(** What the journal of a reached engine holds, and what it has sent. *)
Definition history_ok (cc : CycleConfig) (first : option Snapshot) (s0 : Scheduler) (jobs0 : Arena Job) (e : Engine)
    (sent : list EngineCommit) : Prop :=
  ∃ j bs rb osn rf, eg_journal e = Some j ∧ Forall2 batch_of sent bs ∧ pending_ok hash j rb osn rf ∧
    opens first (bs ++ [MkBatch rb osn rf]) ∧
    logged cc s0 jobs0 (bs ++ [MkBatch rb osn rf]) (eg_scheduler e) (eg_jobs e) ∧
    Forall2 batch_kept sent bs ∧ kept (jr_pending j) (rb ++ rf).

Lemma history_step cc first s0 jobs0 e e' sent :
  history_ok cc first s0 jobs0 e sent → cycle_config e = cc → step_ok hash e e' → history_ok cc first s0 jobs0 e' sent.
Proof.
  intros (j & bs & rb & osn & rf & Ej & Hs & Hp & Hop & Hl & Hk & Hkp) Ec [_ _ (rs & Ht & Hlog)]. rewrite Ec in Ht.
  unfold logs in Hlog. rewrite Ej in Hlog. destruct (eg_journal e') as [j'|] eqn:Ej'; [|done]. destruct Hlog as [Hlog Hpr].
  exists j', bs, rb, osn, (rf ++ rs). split; [done|]. split; [done|]. split; [by apply Hlog|].
  split; [by eapply opens_extend|]. split; [by eapply logged_extend|]. split; [done|].
  rewrite app_assoc. by eapply promises_kept.
Qed.

Lemma batched_ok cc first s0 jobs0 e now sent :
  history_ok cc first s0 jobs0 e sent → Engine_inv e → is_u64 now → snapshot_small e now →
  history_ok cc first s0 jobs0 (with_journal e (batched hash e now <$> eg_journal e)) sent.
Proof.
  intros (j & bs & rb & osn & rf & Ej & Hs & Hp & Hop & Hl & Hk & Hkp) He Hnow Hsm. unfold history_ok. rewrite Ej. cbn [fmap option_fmap option_map with_journal eg_journal eg_scheduler eg_jobs].
  unfold batched. destruct (wants_snapshot j) eqn:Ew; [|exists j, bs, rb, osn, rf; done].
  unfold wants_snapshot in Ew. apply andb_true_iff in Ew as [Ew _].
  assert (osn = None) as ->.
  { destruct Hp as [_ _ Hsn _ _ _]. destruct osn; [|done]. by rewrite Hsn in Ew. }
  pose proof (bo_order _ _ _ _ _ Hp eq_refl) as ->.
  exists (attach_snapshot j (snapshot_bytes hash (engine_snapshot e now))), bs, rf, (Some (engine_snapshot e now)), [].
  split; [done|]. split; [done|]. split; [by apply pending_attach; [|apply snapshot_fits|]|].
  split; [by eapply opens_attach|]. split; [apply logged_attach; [done|]; by apply engine_snapshot_point|].
  split; [done|]. rewrite app_nil_r. by destruct Hkp.
Qed.

Lemma commit_ok cc first s0 jobs0 e (w : World Q) sent :
  history_ok cc first s0 jobs0 e sent →
  ∃ new, w_commits (commit_journal e w).2 = w_commits w ++ new ∧
    history_ok cc first s0 jobs0 (commit_journal e w).1 (sent ++ new).
Proof.
  intros (j & bs & rb & osn & rf & Ej & Hs & Hp & Hop & Hl & Hk & Hkp). unfold commit_journal. rewrite Ej. unfold commit.
  destruct (commit_is_empty (jr_pending j)).
  { exists []. rewrite !app_nil_r. split; [done|]. by exists j, bs, rb, osn, rf. }
  unfold try_send. destruct (_ && _).
  - exists [jr_pending j]. split; [done|]. exists (MkJournal Commit_default (rotate_bytes j) (bytes_since_rotate j)).
    exists (bs ++ [MkBatch rb osn rf]), [], None, []. split; [done|]. split; [by apply Forall2_app; [|constructor]|].
    split; [apply (pending_new hash 0)|]. split; [by apply opens_app|]. split; [by apply logged_open|].
    split; [by apply Forall2_app; [|constructor]|by split].
  - exists []. rewrite !app_nil_r. split; [done|]. by exists j, bs, rb, osn, rf.
Qed.

Lemma flush_ok cc first s0 jobs0 e sent j :
  history_ok cc first s0 jobs0 e sent → eg_journal e = Some j →
  history_ok cc first s0 jobs0 (with_journal e (Some (flush j true).1)) (sent ++ (flush j true).2).
Proof.
  intros Hh Ej. pose proof Hh as (j' & bs & rb & osn & rf & Ej' & Hs & Hp & Hop & Hl & Hk & Hkp). rewrite Ej in Ej'. injection Ej' as <-.
  unfold flush. destruct (commit_is_empty (jr_pending j)); cbn [fst snd].
  - rewrite app_nil_r. by exists j, bs, rb, osn, rf.
  - exists (MkJournal Commit_default (rotate_bytes j) (bytes_since_rotate j)), (bs ++ [MkBatch rb osn rf]), [], None, [].
    split; [done|]. split; [by apply Forall2_app; [|constructor]|]. split; [apply (pending_new hash 0)|].
    split; [by apply opens_app|]. split; [by apply logged_open|]. split; [by apply Forall2_app; [|constructor]|by split].
Qed.

Lemma runs_history cc first s0 jobs0 e0 e (w : World Q) sent :
  Engine_inv e0 → cycle_config e0 = cc → history_ok cc first s0 jobs0 e0 [] → runs e0 e w sent → history_ok cc first s0 jobs0 e sent.
Proof.
  intros He0 Ecc H0 Hr.
  induction Hr as [w|e w sent c now e' w' Hr IH Hc Hnow Eh|e w sent now e3 w3 e' w' out new Hr IH Hnow Hg Eb Hsm Et Ew
    |e w sent b Hr IH|e w sent w' Hr IH|e w sent j Hr IH Ej].
  - done.
  - destruct (runs_inv _ _ _ _ He0 Hr) as [He Ec]. rewrite Ecc in Ec.
    destruct (handle_ok hash e w c now He Hnow Hc) as (e1 & w1 & E1 & Hok). rewrite Eh in E1. injection E1 as <- <-.
    by eapply history_step.
  - destruct (runs_inv _ _ _ _ He0 Hr) as [He Ec]. rewrite Ecc in Ec.
    destruct (tick_ok hash e w now He Hnow Hg) as (e4 & w4 & o & Eb' & Hok & _ & Et' & _). rewrite Eb in Eb'.
    injection Eb' as <- <- <-. rewrite Et in Et'. injection Et' as -> ->.
    pose proof (history_step _ _ _ _ _ _ _ IH Ec Hok) as H3.
    pose proof (batched_ok _ _ _ _ _ now _ H3 (so_inv _ _ _ Hok) Hnow Hsm) as H4.
    destruct (commit_ok _ _ _ _ _ w3 _ H4) as (new' & En & H5).
    rewrite (tick_body_commits _ _ _ _ _ _ _ Eb), Ew in En. by apply app_inv_head in En as ->.
  - exact IH.
  - exact IH.
  - by apply flush_ok.
Qed.

Lemma reaches_history config e (w : World Q) sent n :
  daemon_config_ok config → reaches config (Some (Journal_new n)) e w sent →
  ∃ e0, build config (Some (Journal_new n)) = Done e0 ∧ eg_jobs e0 = Arena_new ∧
    history_ok (dc_cycle config) None (eg_scheduler e0) (eg_jobs e0) e sent.
Proof.
  intros Hcfg (e0 & E0 & Hr). exists e0. split; [done|].
  destruct (build_ok config (Some (Journal_new n)) Hcfg) as (e1 & E1 & He0 & Hj0 & Hjr & Ecc & _). rewrite E0 in E1. injection E1 as <-.
  split; [done|]. eapply runs_history; [exact He0|exact Ecc| |exact Hr].
  exists (Journal_new n), [], [], None, []. split; [done|]. split; [constructor|]. split; [apply pending_new|].
  split; [done|]. split; [apply logged_open; constructor|]. by split.
Qed.
End Runs.

(** ** Draining the inbox *)

Section Drain.
Context (hash : bytes → Z) {Q : Type → Type} `{ArrayQueueLaws Q}.

Lemma engine_drain_spec budget e (w : World Q) (inbox : Q Command) now applied :
  ∃ inbox', q_items inbox' = drop budget (q_items inbox) ∧
  drain_loop hash budget e w inbox now applied =
  let! '(e, w) := exec_fold (fun ew c => handle hash ew.1 ew.2 c now) (e, w) (take budget (q_items inbox)) in
  Done (e, w, inbox', (applied + length (take budget (q_items inbox)))%nat).
Proof.
  revert e w inbox applied. induction budget as [|n IH]; intros e w inbox applied; cbn [drain_loop].
  { exists inbox. rewrite drop_0. split; [done|]. cbn. by rewrite Nat.add_0_r. }
  unfold inbox_pop. destruct (q_items inbox) as [|c l] eqn:Ei.
  { rewrite q_pop_empty by done. exists inbox. split; [done|]. cbn. by rewrite Nat.add_0_r. }
  destruct (q_pop_cons inbox c l Ei) as (inbox1 & -> & El & _). cbn [take drop exec_fold fst snd].
  destruct (handle hash e w c now) as [[e1 w1]| |]; cbn [exec_bind]; [|by destruct (IH e w inbox1 0%nat) as (i & ? & _); exists i; rewrite <-El..].
  destruct (IH e1 w1 inbox1 (S applied)) as (i & Hi & ->). exists i. rewrite <-El. split; [done|].
  destruct (exec_fold _ _ _) as [[e2 w2]| |]; cbn [exec_bind length]; [|done..]. by rewrite Nat.add_succ_r.
Qed.
End Drain.

(** ** Properties *)

(** C5: No engine that can be reached without submitting an empty request panics.
    From any engine built from a sane configuration, after any sequence of
    commands, ticks, quiesce requests and whatever the other threads do to the
    shared queues, the engine's invariant holds, and the next command and the next
    tick return, provided that every submitted job requests something and fits a
    log record, that the indices of jobs and slots are not used up, and that no
    slot of the arena to be vacated has used up its generations.  The first
    condition is needed and no service checks it
    ([empty_request_panics_a_tick]). *)
Theorem engine_never_panics hash {Q : Type → Type} `{ArrayQueue Q} config journal e (w : World Q) sent :
  daemon_config_ok config → reaches hash config journal e w sent →
  Engine_inv e ∧
  (∀ c now, command_ok e c → is_u64 now → ∃ e' w', handle hash e w c now = Done (e', w') ∧ Engine_inv e') ∧
  (∀ now, is_u64 now → generations_left e → ∃ e' w' outcome, tick hash e w now = Done (e', w', outcome) ∧ Engine_inv e').
Proof.
  intros Hcfg Hr. destruct (reaches_inv hash config journal e w sent Hcfg Hr) as [He _]. split; [done|]. split.
  - intros c now Hc Hnow. destruct (handle_ok hash e w c now He Hnow Hc) as (e' & w' & ? & [? _ _]). eauto.
  - intros now Hnow Hg. destruct (tick_ok hash e w now He Hnow Hg) as (e3 & w3 & o & _ & _ & _ & ? & ?). eauto.
Qed.

(** C6: The log tells the truth.  In every run of an engine with a journal, the
    batches sent to the log writer and the batch still pending are, record by
    record and in order, the transitions the engine made since it was built, and
    every snapshot among them is the engine's arena and ledgers at that point; the
    batch sends workers exactly what its records say, in order, and accepts only
    what is recorded in it. *)
Theorem engine_log_is_faithful hash {Q : Type → Type} `{ArrayQueue Q} config n e (w : World Q) sent :
  daemon_config_ok config → reaches hash config (Some (Journal_new n)) e w sent →
  ∃ e0 j bs rb osn rf, build config (Some (Journal_new n)) = Done e0 ∧ eg_journal e = Some j ∧
    Forall2 (batch_of hash) sent bs ∧ pending_ok hash j rb osn rf ∧
    logged (dc_cycle config) (eg_scheduler e0) Arena_new (bs ++ [MkBatch rb osn rf]) (eg_scheduler e) (eg_jobs e) ∧
    Forall2 batch_kept sent bs ∧ kept (jr_pending j) (rb ++ rf).
Proof.
  intros Hcfg Hr. destruct (reaches_history hash config e w sent n Hcfg Hr)
    as (e0 & E0 & Hj0 & j & bs & rb & osn & rf & H1 & H2 & H3 & _ & Hh). rewrite Hj0 in Hh. exists e0, j, bs, rb, osn, rf. done.
Qed.

(** C14: Capacity is accounted for.  In every engine that can be reached, what a
    slot reports as allocated is exactly the sum of what the jobs bound to it
    requested; it is within the slot's capacity, or that capacity is zero, as it is
    for a slot whose worker drains while its jobs still run; every bound job is
    live and holds a slot, none is bound twice, and a job held for its worker after
    a restart is bound to none. *)
Theorem engine_accounts_capacity hash {Q : Type → Type} `{ArrayQueue Q} config journal e (w : World Q) sent :
  daemon_config_ok config → reaches hash config journal e w sent →
  (∀ i s, vec_get (worker_slots (eg_inventory e)) i = Some s →
     allocated s = used (eg_running e) i ∧ (Resources_le (allocated s) (capacity s) ∨ capacity s = Resources_ZERO)) ∧
  NoDup (rj_job <$> eg_running e) ∧
  (∀ r, r ∈ eg_running e → ∃ j, Arena_get (eg_jobs e) (rj_job r) = Some j ∧ occupies_slot (state j) = true ∧
     rj_resources r = request j) ∧
  (∀ x, x ∈ eg_reconciling e → job_state (eg_jobs e) x = Some JobState.Running ∧ x ∉ rj_job <$> eg_running e).
Proof.
  intros Hcfg Hr. destruct (reaches_inv hash config journal e w sent Hcfg Hr) as [[_ _ _ _ H5 H6 H7 _] _].
  split; [|split; [apply H6|split; [apply H6|intros x Hx; split; by apply H7]]].
  intros i s Hs. split; [by eapply sv_used|by eapply sv_within].
Qed.

(** Commands are applied in the order they were queued, and a turn never
    loses one: draining applies exactly the first [drain_budget] commands of the
    inbox, oldest first, reports how many that was, and leaves the rest. *)
Theorem drain_is_fifo hash {Q : Type → Type} `{ArrayQueueLaws Q} e (w : World Q) (inbox : Q Command) now :
  ∃ inbox', let n := Z.to_nat (ec_drain_budget (eg_config e)) in
  q_items inbox' = drop n (q_items inbox) ∧
  drain hash e w inbox now =
  let! '(e, w) := exec_fold (fun ew c => handle hash ew.1 ew.2 c now) (e, w) (take n (q_items inbox)) in
  Done (e, w, inbox', length (take n (q_items inbox))).
Proof. unfold drain. apply (engine_drain_spec hash _ e w inbox now 0). Qed.

(** C31: Retention ends.  A tick forgets exactly the entries at the front of the
    retention queue whose age has reached the configured span: it stops at the
    first younger one, the forgotten jobs leave the arena, and every finished job
    that remains is still queued. *)
Theorem tick_forgets_the_expired hash {Q : Type → Type} `{ArrayQueue Q} e (w : World Q) now :
  Engine_inv e → is_u64 now → generations_left e →
  ∃ e' w' outcome dropped, tick hash e w now = Done (e', w', outcome) ∧
    eg_terminal e = dropped ++ eg_terminal e' ∧ Forall (expired e now) dropped ∧
    (∀ p, hd_error (eg_terminal e') = Some p → ¬ expired e now p) ∧
    (∀ x, x ∈ dropped.*2 → Arena_get (eg_jobs e') x = None) ∧
    (∀ x, finished (eg_jobs e') x → x ∈ (eg_terminal e').*2).
Proof.
  intros He Hnow Hg.
  destruct (tick_ok hash e w now He Hnow Hg) as (e3 & w3 & out & _ & _ & [(dropped & Hd) _ _] & Et & Hi).
  destruct (commit_journal_form (with_journal e3 (batched hash e3 now <$> eg_journal e3)) w3) as [jr Ec].
  rewrite Ec in Et, Hi. eexists _, _, _, dropped. split; [exact Et|]. destruct Hd as (? & ? & ? & ?).
  do 4 (split; [done|]). apply (tv_finished _ _ (en_terminal _ Hi)).
Qed.

(** C32: The autoscaler's target.  The demand pass never overflows: it reports
    exactly the millicores the ready and the running jobs request; the wanted
    workers are within the configured range, enough to run all of it at once
    unless the range caps them, and not one more than needed unless it forces
    them. *)
Theorem demand_is_exact e :
  Engine_inv e →
  ∃ d, refresh_demand e = Done (with_demand e d) ∧
    cpu_ready d = cpu_in_state JobState.Ready (Arena_iter (eg_jobs e)) ∧
    cpu_running d = cpu_in_state JobState.Running (Arena_iter (eg_jobs e)) ∧
    is_u64 (cpu_ready d + cpu_running d) ∧
    ec_min_workers (eg_config e) <= desired d <= ec_max_workers (eg_config e) ∧
    (desired d < Z.min u32_max (ec_max_workers (eg_config e)) →
       cpu_ready d + cpu_running d <= desired d * ec_worker_cpu (eg_config e)) ∧
    (ec_min_workers (eg_config e) < desired d →
       (desired d - 1) * ec_worker_cpu (eg_config e) < cpu_ready d + cpu_running d).
Proof.
  intros He. destruct (refresh_demand_spec e He) as (E & H1 & H2 & H3). pose proof (en_config _ He) as [_ Hcpu Hw _ _].
  exists (demand_of e). split; [done|]. do 2 (split; [done|]). unfold demand_of. cbn [cpu_ready cpu_running desired].
  set (total := cpu_in_state JobState.Ready _ + cpu_in_state JobState.Running _) in *. set (cpu := ec_worker_cpu (eg_config e)) in *.
  split; [unfold is_u64; lia|]. pose proof (Z.div_mod (total + cpu - 1) cpu ltac:(lia)) as Ed.
  pose proof (Z.mod_pos_bound (total + cpu - 1) cpu ltac:(lia)) as Hm. set (n := (total + cpu - 1) / cpu) in *.
  split; [lia|]. split; intros Hlt; nia.
Qed.

(** C15: A lost worker loses no work.  When a worker leaves a daemon that is not
    shutting down, every job bound to its slot goes back to the queue, [Ready] and
    otherwise as it was, and every other job is untouched; while the daemon is
    shutting down no job changes at all.  Either way the slot is left with no
    binding, no capacity and no name, and the other bindings stay. *)
Theorem lost_worker_requeues hash e slot now :
  Engine_inv e → is_u64 now → in_range (eg_names e) slot = true →
  ∃ e', evict_slot hash e slot now = Done e' ∧
    (if eg_quiescing e then eg_jobs e' = eg_jobs e
     else (∀ r, r ∈ eg_running e → rj_slot r = slot →
             ∃ j, Arena_get (eg_jobs e) (rj_job r) = Some j ∧
                  Arena_get (eg_jobs e') (rj_job r) = Some (job_with_state j JobState.Ready)) ∧
          (∀ x, (∀ r, r ∈ eg_running e → rj_slot r = slot → rj_job r ≠ x) →
             Arena_get (eg_jobs e') x = Arena_get (eg_jobs e) x)) ∧
    (∀ r, r ∈ eg_running e' ↔ r ∈ eg_running e ∧ rj_slot r ≠ slot) ∧
    vec_get (eg_names e') slot = Some None ∧ inventory_slot (eg_inventory e') slot = Some drained_slot ∧ Engine_inv e'.
Proof.
  intros He Hnow Hn. destruct (evict_slot_ok hash e slot now He Hnow) as (e' & E & [Hi _ _] & Hr & Hnames & Hst).
  destruct (evict_slot_same hash e slot now e' E) as [Hq [Hother Hsame]]. exists e'. split; [done|].
  assert (vec_get (eg_names e') slot = Some None) as Hvac.
  { rewrite Hnames. unfold clear_name. apply in_range_spec in Hn. destruct (vec_get_total _ _ Hn) as [n ->].
    rewrite vec_get_insert by done. by rewrite decide_True. }
  assert (∀ x, x ∈ rj_job <$> List.filter (fun r => rj_slot r =? slot) (eg_running e) ↔
               ∃ r, r ∈ eg_running e ∧ rj_slot r = slot ∧ rj_job r = x) as Hin.
  { intros x. rewrite list_elem_of_fmap. setoid_rewrite elem_of_List_filter. setoid_rewrite Z.eqb_eq. naive_solver. }
  split; [|split; [|split; [done|split; [by apply (sv_vacant _ _ _ (en_slots _ Hi))|done]]]].
  - destruct (eg_quiescing e) eqn:Eq; [by apply Hq|]. split.
    + intros r Hir Hs. assert (rj_job r ∈ rj_job <$> List.filter (fun r => rj_slot r =? slot) (eg_running e)) as Hx by (apply Hin; eauto).
      specialize (Hst (rj_job r)). rewrite decide_True in Hst by done. specialize (Hsame (rj_job r)). unfold job_state in Hst.
      destruct (Arena_get (eg_jobs e') (rj_job r)) as [j'|]; [|done]. destruct (Arena_get (eg_jobs e) (rj_job r)) as [j|]; [|done].
      exists j. split; [done|]. injection Hst as Hst. assert (restated j' = restated j) as Hr'
        by (change (Some (restated j') = Some (restated j)) in Hsame; congruence).
      change (Some j' = Some (restated j)). rewrite <-Hr'.
      destruct j'. cbn in Hst. by subst.
    + intros x Hx. apply Hother. intros (r & Hir & Hs & Ex)%Hin. by apply (Hx r).
  - intros r. rewrite Hr, elem_of_List_filter, negb_true_iff, Z.eqb_neq. done.
Qed.

(** A small daemon: one worker, two jobs of which the second waits for the
    first, and a tick. *)
Definition demo_daemon_config : DaemonConfig :=
  MkDaemonConfig 16 10000000000 4000 1 8 [(1, 2)] 300000000000
    (MkCycleConfig
       (MkPriorityConfig PriorityWeights_default (duration_from_secs 3600) (MkResources u32_max u64_max u8_max))
       (MkFairShareConfig (duration_from_secs 3600))
       (MkPreemptConfig (Some PriorityClass.Urgent) 3 (duration_from_secs 5))
       PackBudget_default 4).

Lemma demo_daemon_config_ok : daemon_config_ok demo_daemon_config.
Proof.
  split; cbn; try lia.
  - unfold config_ok, is_u64. split; vm_compute; discriminate.
  - constructor; [|constructor]. cbn. unfold is_u32. lia.
Qed.

Definition demo_world : World ListQueue := MkWorld (8, []) [] [] true.

Definition demo_built : Engine :=
  Eval vm_compute in
  match build demo_daemon_config (Some (Journal_new 1000000)) with
  | Done e => e
  | _ => MkEngine (MkEngineConfig (dc_cycle demo_daemon_config) 0 0 0 0 0 0) Arena_new (from_capacities []) Scheduler_new [] [] [] 0
           Demand_default None [] [] None false
  end.

Definition demo_submission (ds : list JobId) : Job :=
  MkJob 1 PriorityClass.Normal 5 (MkResources 500 1024 0) 60000000000 ds [1; 2] JobState.Submitted 0.

Definition demo_commands : list Command :=
  [Command.WorkerJoined "w0" (MkResources 2000 4096 0) [] 0; Command.Submit (demo_submission []) 1;
   Command.Submit (demo_submission [0]) 2].

(** The engine after the commands. *)
Definition demo_loaded : Engine * World ListQueue :=
  Eval vm_compute in
  match exec_fold (fun ew c => handle crc32 ew.1 ew.2 c 10) (demo_built, demo_world) demo_commands with
  | Done ew => ew
  | _ => (demo_built, demo_world)
  end.

Lemma demo_submit_ok ds : ds = [] ∨ ds = [0] → submit_ok (demo_submission ds).
Proof.
  intros Hds. assert (Job_wf (demo_submission ds)) as Hwf.
  { unfold Job_wf. cbn. unfold Resources_wf, is_u32, is_u64, is_u8. cbn. split_and!; try lia.
    - destruct Hds as [->| ->]; repeat constructor; lia.
    - repeat constructor; lia. }
  assert (Z.of_nat (length ds) <= 1) as Hl by (destruct Hds as [->| ->]; cbn; lia).
  split; [done|cbn; lia|done|done|]. intros id Hid. split; [split; [done|]|].
  - split; [done|cbn; lia|cbn; lia].
  - unfold record_bytes, job_bytes. destruct Hds as [->| ->]; cbn [demo_submission deps payload fmap list_fmap concat];
      repeat first [rewrite length_app|rewrite length_cons|rewrite length_to_le]; cbn [length]; lia.
Qed.

Definition demo_after (n : nat) : Engine * World ListQueue :=
  match exec_fold (fun ew c => handle crc32 ew.1 ew.2 c 10) (demo_built, demo_world) (take n demo_commands) with
  | Done ew => ew
  | _ => (demo_built, demo_world)
  end.

Lemma demo_loaded_runs : runs crc32 demo_built demo_loaded.1 demo_loaded.2 [].
Proof.
  assert (is_u64 10) as Hnow by (unfold is_u64; lia).
  eapply (ru_command _ _ (demo_after 2).1 (demo_after 2).2 [] (Command.Submit (demo_submission [0]) 2) 10);
    [|split; [apply demo_submit_ok; by right|right; vm_compute; reflexivity]|done|vm_compute; reflexivity].
  eapply (ru_command _ _ (demo_after 1).1 (demo_after 1).2 [] (Command.Submit (demo_submission []) 1) 10);
    [|split; [apply demo_submit_ok; by left|right; vm_compute; reflexivity]|done|vm_compute; reflexivity].
  eapply (ru_command _ _ demo_built demo_world [] (Command.WorkerJoined "w0" (MkResources 2000 4096 0) [] 0) 10);
    [|split; [unfold Resources_wf, is_u32, is_u64, is_u8; cbn; lia|vm_compute; reflexivity]|done|vm_compute; reflexivity].
  apply ru_start.
Qed.

Lemma demo_loaded_reaches :
  reaches crc32 demo_daemon_config (Some (Journal_new 1000000)) demo_loaded.1 demo_loaded.2 [].
Proof. exists demo_built. split; [vm_compute; reflexivity|apply demo_loaded_runs]. Qed.

(** A tick after that: the first job is dispatched, and one batch is sent. *)
Definition demo_body : Engine * World ListQueue * CycleOutcome :=
  Eval vm_compute in
  match tick_body crc32 demo_loaded.1 demo_loaded.2 20 with
  | Done r => r
  | _ => (demo_built, demo_world, CycleOutcome_default)
  end.

Definition demo_ticked : Engine * World ListQueue * CycleOutcome :=
  Eval vm_compute in
  match tick crc32 demo_loaded.1 demo_loaded.2 20 with
  | Done r => r
  | _ => (demo_built, demo_world, CycleOutcome_default)
  end.

Lemma demo_ticked_runs : runs crc32 demo_built demo_ticked.1.1 demo_ticked.1.2 (w_commits demo_ticked.1.2).
Proof.
  eapply (ru_tick _ _ demo_loaded.1 demo_loaded.2 [] 20 demo_body.1.1 demo_body.1.2 _ _ demo_ticked.2).
  - apply demo_loaded_runs.
  - unfold is_u64. lia.
  - intros p Hp. by apply elem_of_nil in Hp.
  - vm_compute. reflexivity.
  - vm_compute. discriminate.
  - vm_compute. reflexivity.
  - vm_compute. reflexivity.
Qed.

Lemma demo_ticked_reaches :
  reaches crc32 demo_daemon_config (Some (Journal_new 1000000)) demo_ticked.1.1 demo_ticked.1.2 (w_commits demo_ticked.1.2).
Proof. exists demo_built. split; [vm_compute; reflexivity|apply demo_ticked_runs]. Qed.

Example demo_run :
  eg_running demo_ticked.1.1 = [MkRunningJob 0 0 (MkResources 500 1024 0) 60000000020] ∧
  length (w_commits demo_ticked.1.2) = 1%nat ∧ q_items (w_outbox demo_ticked.1.2) = [] ∧
  job_state (eg_jobs demo_ticked.1.1) 0 = Some JobState.Running ∧
  job_state (eg_jobs demo_ticked.1.1) 1 = Some JobState.Blocked.
Proof. by vm_compute. Qed.

Lemma engine_never_panics_witness :
  Engine_inv demo_ticked.1.1 ∧
  (∀ c now, command_ok demo_ticked.1.1 c → is_u64 now →
     ∃ e' w', handle crc32 demo_ticked.1.1 demo_ticked.1.2 c now = Done (e', w') ∧ Engine_inv e') ∧
  (∀ now, is_u64 now → generations_left demo_ticked.1.1 →
     ∃ e' w' outcome, tick crc32 demo_ticked.1.1 demo_ticked.1.2 now = Done (e', w', outcome) ∧ Engine_inv e').
Proof.
  apply (engine_never_panics crc32 demo_daemon_config (Some (Journal_new 1000000)) demo_ticked.1.1 demo_ticked.1.2
    (w_commits demo_ticked.1.2)); [apply demo_daemon_config_ok|apply demo_ticked_reaches].
Defined.

Lemma engine_log_is_faithful_witness :
  ∃ e0 j bs rb osn rf, build demo_daemon_config (Some (Journal_new 1000000)) = Done e0 ∧ eg_journal demo_ticked.1.1 = Some j ∧
    Forall2 (batch_of crc32) (w_commits demo_ticked.1.2) bs ∧ pending_ok crc32 j rb osn rf ∧
    logged (dc_cycle demo_daemon_config) (eg_scheduler e0) Arena_new (bs ++ [MkBatch rb osn rf])
      (eg_scheduler demo_ticked.1.1) (eg_jobs demo_ticked.1.1) ∧
    Forall2 batch_kept (w_commits demo_ticked.1.2) bs ∧ kept (jr_pending j) (rb ++ rf).
Proof.
  apply (engine_log_is_faithful crc32 demo_daemon_config 1000000 demo_ticked.1.1 demo_ticked.1.2
    (w_commits demo_ticked.1.2)); [apply demo_daemon_config_ok|apply demo_ticked_reaches].
Defined.

Lemma engine_accounts_capacity_witness :
  (∀ i s, vec_get (worker_slots (eg_inventory demo_ticked.1.1)) i = Some s →
     allocated s = used (eg_running demo_ticked.1.1) i ∧ (Resources_le (allocated s) (capacity s) ∨ capacity s = Resources_ZERO)) ∧
  NoDup (rj_job <$> eg_running demo_ticked.1.1) ∧
  (∀ r, r ∈ eg_running demo_ticked.1.1 → ∃ j, Arena_get (eg_jobs demo_ticked.1.1) (rj_job r) = Some j ∧
     occupies_slot (state j) = true ∧ rj_resources r = request j) ∧
  (∀ x, x ∈ eg_reconciling demo_ticked.1.1 → job_state (eg_jobs demo_ticked.1.1) x = Some JobState.Running ∧
     x ∉ rj_job <$> eg_running demo_ticked.1.1).
Proof.
  apply (engine_accounts_capacity crc32 demo_daemon_config (Some (Journal_new 1000000)) demo_ticked.1.1 demo_ticked.1.2
    (w_commits demo_ticked.1.2)); [apply demo_daemon_config_ok|apply demo_ticked_reaches].
Defined.

Lemma drain_is_fifo_witness :
  ∃ inbox', let n := Z.to_nat (ec_drain_budget (eg_config demo_built)) in
  q_items inbox' = drop n (q_items ((16, demo_commands) : ListQueue Command)) ∧
  drain crc32 demo_built demo_world ((16, demo_commands) : ListQueue Command) 10 =
  let! '(e, w) := exec_fold (fun ew c => handle crc32 ew.1 ew.2 c 10) (demo_built, demo_world)
                    (take n (q_items ((16, demo_commands) : ListQueue Command))) in
  Done (e, w, inbox', length (take n (q_items ((16, demo_commands) : ListQueue Command)))).
Proof. apply (drain_is_fifo crc32 (Q := ListQueue)). Defined.

(** The first job finishes; five minutes later it is forgotten. *)
Definition demo_finished : Engine * World ListQueue :=
  Eval vm_compute in
  match handle crc32 demo_ticked.1.1 demo_ticked.1.2 (Command.Completed 0) 30 with
  | Done ew => ew
  | _ => (demo_built, demo_world)
  end.

Lemma demo_built_inv : Engine_inv demo_built.
Proof.
  destruct (build_ok demo_daemon_config (Some (Journal_new 1000000)) demo_daemon_config_ok) as (e & E & He & _).
  vm_compute in E. by injection E as <-.
Qed.

Lemma demo_ticked_inv : Engine_inv demo_ticked.1.1.
Proof. exact (proj1 (runs_inv _ _ _ _ _ demo_built_inv demo_ticked_runs)). Qed.

Lemma demo_finished_inv : Engine_inv demo_finished.1.
Proof.
  apply (runs_inv crc32 demo_built demo_finished.1 demo_finished.2 (w_commits demo_ticked.1.2) demo_built_inv).
  eapply (ru_command _ _ demo_ticked.1.1 demo_ticked.1.2 _ (Command.Completed 0) 30);
    [apply demo_ticked_runs|done|unfold is_u64; lia|vm_compute; reflexivity].
Qed.

Lemma tick_forgets_the_expired_witness :
  ∃ e' w' outcome dropped, tick crc32 demo_finished.1 demo_finished.2 400000000000 = Done (e', w', outcome) ∧
    eg_terminal demo_finished.1 = dropped ++ eg_terminal e' ∧ Forall (expired demo_finished.1 400000000000) dropped ∧
    (∀ p, hd_error (eg_terminal e') = Some p → ¬ expired demo_finished.1 400000000000 p) ∧
    (∀ x, x ∈ dropped.*2 → Arena_get (eg_jobs e') x = None) ∧
    (∀ x, finished (eg_jobs e') x → x ∈ (eg_terminal e').*2).
Proof.
  apply (tick_forgets_the_expired crc32 (Q := ListQueue)); [apply demo_finished_inv|unfold is_u64; lia|].
  intros p [->|Hp]%elem_of_cons; [vm_compute; reflexivity|by apply elem_of_nil in Hp].
Defined.

Lemma demand_is_exact_witness :
  ∃ d, refresh_demand demo_ticked.1.1 = Done (with_demand demo_ticked.1.1 d) ∧
    cpu_ready d = cpu_in_state JobState.Ready (Arena_iter (eg_jobs demo_ticked.1.1)) ∧
    cpu_running d = cpu_in_state JobState.Running (Arena_iter (eg_jobs demo_ticked.1.1)) ∧
    is_u64 (cpu_ready d + cpu_running d) ∧
    ec_min_workers (eg_config demo_ticked.1.1) <= desired d <= ec_max_workers (eg_config demo_ticked.1.1) ∧
    (desired d < Z.min u32_max (ec_max_workers (eg_config demo_ticked.1.1)) →
       cpu_ready d + cpu_running d <= desired d * ec_worker_cpu (eg_config demo_ticked.1.1)) ∧
    (ec_min_workers (eg_config demo_ticked.1.1) < desired d →
       (desired d - 1) * ec_worker_cpu (eg_config demo_ticked.1.1) < cpu_ready d + cpu_running d).
Proof. apply demand_is_exact, demo_ticked_inv. Defined.

Lemma lost_worker_requeues_witness :
  ∃ e', evict_slot crc32 demo_ticked.1.1 0 40 = Done e' ∧
    ((∀ r, r ∈ eg_running demo_ticked.1.1 → rj_slot r = 0 →
        ∃ j, Arena_get (eg_jobs demo_ticked.1.1) (rj_job r) = Some j ∧
             Arena_get (eg_jobs e') (rj_job r) = Some (job_with_state j JobState.Ready)) ∧
     (∀ x, (∀ r, r ∈ eg_running demo_ticked.1.1 → rj_slot r = 0 → rj_job r ≠ x) →
        Arena_get (eg_jobs e') x = Arena_get (eg_jobs demo_ticked.1.1) x)) ∧
    (∀ r, r ∈ eg_running e' ↔ r ∈ eg_running demo_ticked.1.1 ∧ rj_slot r ≠ 0) ∧
    vec_get (eg_names e') 0 = Some None ∧ inventory_slot (eg_inventory e') 0 = Some drained_slot ∧ Engine_inv e'.
Proof.
  assert (eg_quiescing demo_ticked.1.1 = false) as Eq by reflexivity.
  pose proof (lost_worker_requeues crc32 demo_ticked.1.1 0 40 demo_ticked_inv ltac:(unfold is_u64; lia) eq_refl) as Hl.
  rewrite Eq in Hl. exact Hl.
Defined.

(** The condition on requests is needed.  The worker drains while its job runs, and
    a job that requests nothing is submitted, which nothing refuses: the next tick
    finds a slot for it by the saturated free amount, cannot allocate it there, and
    panics. *)
Definition empty_submission : Job :=
  MkJob 1 PriorityClass.Normal 5 Resources_ZERO 60000000000 [] [1; 2] JobState.Submitted 0.

Example empty_request_panics_a_tick :
  match exec_fold (fun ew c => handle crc32 ew.1 ew.2 c 40) demo_ticked.1 [Command.WorkerDraining 0; Command.Submit empty_submission 7] with
  | Done (e, w) => job_state (eg_jobs e) 2 = Some JobState.Ready ∧ tick crc32 e w 50 = Panic
  | _ => False
  end.
Proof. vm_compute. done. Qed.
