(* ===== verification/Metrics.v ===== *)
(** * Metrics

    [crates/taskerd/src/metrics.rs], and the places of [crates/taskerd/src/engine.rs]
    that update them: the gauges of [refresh_demand], the counter of
    [plan_evictions], [publish_account_metrics] and the histogram of [tick].  The
    [prometheus] crate is a parameter: what building and registering a metric
    promises is the class [PrometheusLaws].  Floating-point numbers are those of the
    standard library's binary64.

    Nothing in the engine reads a metric, so the tick here is the tick of [Engine]
    with the metrics beside it; the theorem says so, and says what they show. *)

From stdpp Require Import base strings list gmap numbers option sets.
From Stdlib Require Import ZArith Lia.
From Stdlib Require Import Floats.SpecFloat.
From S2P Require Import Prelude Text Domain Arena Job Inventory Priority ReadySet Eligibility.
From S2P Require Import Decay FairShare Pack Backfill Preempt Scheduler Cycle Frame.
From S2P Require Import Codec LogRecord Log Snapshot Store Journal Command Engine EngineInv EngineSteps EngineTick EngineRun.
Open Scope Z_scope.
Open Scope list_scope.

(** ** Binary64 *)

Definition f64 : Type := spec_float.
(** [z as f64] rounds to nearest, ties to even. *)
Definition as_f64 (z : Z) : f64 := binary_normalize 53 1024 z 0 false.
Definition f64_div (a b : f64) : f64 := SFdiv 53 1024 a b.
Arguments as_f64 : simpl never.
Arguments f64_div : simpl never.

(** ** The library *)

(** The characters of a metric name, and of a label. *)
Definition name_start (c : Z) : bool := ((97 <=? c) && (c <=? 122)) || ((65 <=? c) && (c <=? 90)) || (c =? 95).
Definition name_part (c : Z) : bool := name_start c || ((48 <=? c) && (c <=? 57)).
Definition valid_name (s : string) : bool :=
  match str s with c :: cs => name_start c && forallb name_part cs | [] => false end.

Class Prometheus (Desc Registry : Type) : Type := {
  (** [IntGauge::new], [GaugeVec::new], [IntCounter::new], [Histogram::with_opts]:
      a name, a help text and the labels. *)
  describe : string → string → list string → option Desc;
  registry_empty : Registry;
  register : Registry → Desc → option Registry;
  exponential_buckets : f64 → f64 → nat → option (list f64);
}.

(** A description is refused for a bad name or an empty help text only, a
    registration for a name that is taken only. *)
Class PrometheusLaws (Desc Registry : Type) `{Prometheus Desc Registry} : Type := {
  desc_name : Desc → string;
  registered : Registry → list string;
  describe_valid name help labels :
    valid_name name = true → help ≠ EmptyString → Forall (fun l => valid_name l = true) labels →
    ∃ d, describe name help labels = Some d ∧ desc_name d = name;
  registered_empty : registered registry_empty = [];
  register_fresh r d : desc_name d ∉ registered r →
    ∃ r', register r d = Some r' ∧ registered r' = desc_name d :: registered r;
  buckets_valid a b n : SFltb (S754_zero false) a = true → SFltb (as_f64 1) b = true → (0 < n)%nat →
    ∃ l, exponential_buckets a b n = Some l;
}.

(** ** The metrics *)

Record Metrics (Registry : Type) : Type := MkMetrics {
  mt_registry : Registry;
  mt_ready : Z;
  mt_blocked : Z;
  mt_running : Z;
  mt_workers_attached : Z;
  mt_workers_desired : Z;
  mt_account_usage : gmap (list Z) f64;
  mt_account_fairshare : gmap (list Z) f64;
  mt_preemptions : Z;
  mt_cycle_seconds : list f64;
}.
Arguments MkMetrics {Registry}.
Arguments mt_registry {Registry}.
Arguments mt_ready {Registry}.
Arguments mt_blocked {Registry}.
Arguments mt_running {Registry}.
Arguments mt_workers_attached {Registry}.
Arguments mt_workers_desired {Registry}.
Arguments mt_account_usage {Registry}.
Arguments mt_account_fairshare {Registry}.
Arguments mt_preemptions {Registry}.
Arguments mt_cycle_seconds {Registry}.

Section New.
Context {Desc Registry : Type} `{Prometheus Desc Registry}.

Definition register_metric (registry : Registry) (name help : string) (labels : list string) : exec Registry :=
  let! d := expect (describe name help labels) in
  expect (register registry d).

(** The closure [gauge]; a new gauge is zero. *)
Definition gauge (registry : Registry) (name help : string) : exec Registry := register_metric registry name help [].

(** The closure [gauge_vec]. *)
Definition gauge_vec (registry : Registry) (name help : string) : exec Registry :=
  register_metric registry name help ["account"%string].

Definition Metrics_new : exec (Metrics Registry) :=
  let registry := registry_empty in
  let! registry := register_metric registry "tasker_preemptions_total" "Jobs evicted for a higher class" [] in
  let! _ := expect (exponential_buckets (f64_div (as_f64 1) (as_f64 100000)) (as_f64 2) 12) in
  let! registry := register_metric registry "tasker_cycle_seconds" "Scheduling cycle duration" [] in
  let! registry := gauge registry "tasker_jobs_ready" "Jobs in the ready set" in
  let! registry := gauge registry "tasker_jobs_blocked" "Jobs blocked on dependencies" in
  let! registry := gauge registry "tasker_jobs_running" "Jobs running on workers" in
  let! registry := gauge registry "tasker_workers_attached" "Attached workers" in
  let! registry := gauge registry "tasker_workers_desired" "Workers the scheduler wants" in
  let! registry := gauge_vec registry "tasker_account_usage_core_seconds" "Decayed usage per account, in core-seconds" in
  let! registry := gauge_vec registry "tasker_account_fairshare" "Fair-share factor per account, 0..=1" in
  Done (MkMetrics registry 0 0 0 0 0 ∅ ∅ 0 []).
End New.

(** ** The engine's updates *)

Abbreviation i64_max := 9223372036854775807%Z.
Definition USAGE_PER_CORE_SECOND : Z := 1000000.

Section Updates.
Context {Registry : Type}.

(** The end of [refresh_demand]; [e] has its new demand. *)
Definition set_gauges (m : Metrics Registry) (e : Engine) : Metrics Registry :=
  let blocked :=
    Z.of_nat (length (List.filter (fun p => bool_decide (state p.2 = JobState.Blocked)) (Arena_iter (eg_jobs e)))) in
  MkMetrics (mt_registry m)
    (Z.min i64_max (Z.of_nat (pending (eg_scheduler e)))) blocked (Z.min i64_max (Z.of_nat (length (eg_running e))))
    (attached (eg_demand e)) (desired (eg_demand e))
    (mt_account_usage m) (mt_account_fairshare m) (mt_preemptions m) (mt_cycle_seconds m).

Definition count_preemption (m : Metrics Registry) : Metrics Registry :=
  MkMetrics (mt_registry m) (mt_ready m) (mt_blocked m) (mt_running m) (mt_workers_attached m) (mt_workers_desired m)
    (mt_account_usage m) (mt_account_fairshare m) (wrap64 (mt_preemptions m + 1)) (mt_cycle_seconds m).

Definition observe_cycle (m : Metrics Registry) (elapsed : Z) : Metrics Registry :=
  MkMetrics (mt_registry m) (mt_ready m) (mt_blocked m) (mt_running m) (mt_workers_attached m) (mt_workers_desired m)
    (mt_account_usage m) (mt_account_fairshare m) (mt_preemptions m)
    (mt_cycle_seconds m ++ [f64_div (as_f64 elapsed) (as_f64 1000000000)]).

(** One turn of [publish_account_metrics]. *)
Definition publish_account (m : Metrics Registry) (i : nat) (p : Ledger * Z) : Metrics Registry :=
  let label := dec (Z.of_nat i) in
  MkMetrics (mt_registry m) (mt_ready m) (mt_blocked m) (mt_running m) (mt_workers_attached m) (mt_workers_desired m)
    (<[label := f64_div (as_f64 (usage p.1)) (as_f64 USAGE_PER_CORE_SECOND)]> (mt_account_usage m))
    (<[label := f64_div (as_f64 p.2) (as_f64 FACTOR_SCALE)]> (mt_account_fairshare m))
    (mt_preemptions m) (mt_cycle_seconds m).

Fixpoint publish_from (m : Metrics Registry) (i : nat) (l : list (Ledger * Z)) : Metrics Registry :=
  match l with
  | [] => m
  | p :: l => publish_from (publish_account m i p) (S i) l
  end.

Definition publish_account_metrics (m : Metrics Registry) (e : Engine) : Metrics Registry :=
  publish_from m 0 (zip (ledgers (eg_fairshare e)) (factors (eg_fairshare e))).
End Updates.

(** ** The tick with its metrics *)

Section Tick.
Context (hash : bytes → Z) {Registry : Type} {Q : Type → Type} `{ArrayQueue Q}.

Definition evict_one_counted (e : Engine) (w : World Q) (m : Metrics Registry) (v : Eviction) (now : VirtualTime)
  : exec (Engine * World Q * Metrics Registry) :=
  let! '(e, r) := lift_call e (Done (preempt (eg_scheduler e) (ev_job v) (eg_jobs e))) in
  match r with
  | Err _ => Done (e, w, m)
  | Ok _ =>
      let! e := record hash e (LogRecord.Preempted (ev_job v) now) in
      let m := count_preemption m in
      let '(e, w) := dispatch_durably e w
              (Dispatch.Preempt (ev_slot v) (ev_job v) (grace (cc_preempt (cycle_config e)))) in
      Done (e, w, m)
  end.

Definition plan_evictions_counted (e : Engine) (w : World Q) (m : Metrics Registry) (head : JobId) (now : VirtualTime)
  : exec (Engine * World Q * Metrics Registry) :=
  let! evictions :=
    match Arena_get (eg_jobs e) head with
    | Some job =>
        let! '(evictions, _) :=
          plan_preemption job (eg_running e) (eg_jobs e) (eg_inventory e) now
            (cc_preempt (cycle_config e)) [] in
        Done evictions
    | None => Done []
    end in
  exec_fold (fun x v => evict_one_counted x.1.1 x.1.2 x.2 v now) (e, w, m) evictions.

(** What the engine has for its metrics: the handles, and when the gauges of the
    accounts were last published. *)
Record Gauged : Type := MkGauged {
  gd_metrics : Metrics Registry;
  gd_account_metrics_at : VirtualTime;
}.

(** The per-account gauges follow once a second. *)
Definition publish_if_due (g : Gauged) (e : Engine) (now : VirtualTime) : Gauged :=
  if duration_from_secs 1 <=? time_saturating_sub_time now (gd_account_metrics_at g)
  then MkGauged (publish_account_metrics (gd_metrics g) e) now
  else g.

(** [started] and [ended] are what the clock says at both ends. *)
Definition tick_gauged (e : Engine) (w : World Q) (g : Gauged) (now started ended : VirtualTime)
  : exec (Engine * World Q * Gauged * CycleOutcome) :=
  let '(e, w) := flush_overflow e w in
  let! '(e, decisions, outcome) := run_engine_cycle e now in
  let! '(e, w) := exec_fold (fun ew d => on_dispatched hash ew.1 ew.2 d now) (e, w) decisions in
  let! '(e, w, m) :=
    match co_head outcome with
    | Some head => plan_evictions_counted e w (gd_metrics g) head now
    | None => Done (e, w, gd_metrics g)
    end in
  let e := with_cycles e (wrap64 (eg_cycles e + 1)) in
  let! e := refresh_demand e in
  let m := set_gauges m e in
  let g := publish_if_due (MkGauged m (gd_account_metrics_at g)) e now in
  let! e := forget_expired hash e now in
  let! e := expire_reconcile hash e now in
  let! e := attach_if_wanted hash e now in
  let '(e, w) := commit_journal e w in
  let elapsed := time_saturating_sub_time ended started in
  Done (e, w, MkGauged (observe_cycle (gd_metrics g) elapsed) (gd_account_metrics_at g), outcome).
End Tick.

(** ** Building the metrics *)

Section Registration.
Context {Desc Registry : Type} `{PrometheusLaws Desc Registry}.

(** One registration on the way. *)
Lemma register_then {A} r name help labels names (k : Registry → exec A) (P : A → Prop) :
  registered r = names → valid_name name = true → help ≠ EmptyString → Forall (fun l => valid_name l = true) labels → name ∉ names →
  (∀ r', registered r' = name :: names → k r' ⇓ P) → (let! r := register_metric r name help labels in k r) ⇓ P.
Proof.
  intros Hr Hn Hh Hl Hf Hk. unfold register_metric. destruct (describe_valid name help labels Hn Hh Hl) as (d & -> & Hd).
  cbn. rewrite <-Hr, <-Hd in Hf. destruct (register_fresh r d Hf) as (r' & -> & Hr'). cbn. apply Hk. by rewrite Hr', Hd, Hr.
Qed.

(** Every name is good and no two are equal, so the daemon starts with all nine
    metrics, each at zero. *)
Lemma Metrics_new_ok :
  Metrics_new ⇓ fun m => m = MkMetrics (mt_registry m) 0 0 0 0 0 ∅ ∅ 0 [] ∧
    length (registered (mt_registry m)) = 9%nat ∧ NoDup (registered (mt_registry m)).
Proof.
  unfold Metrics_new, gauge, gauge_vec.
  destruct (buckets_valid (f64_div (as_f64 1) (as_f64 100000)) (as_f64 2) 12) as [bs ->]; [reflexivity|reflexivity|lia|].
  assert (registered registry_empty = []) as E by apply registered_empty. cbn [expect].
  eapply register_then; [exact E|reflexivity|discriminate|by repeat constructor|vm_compute; set_solver|clear E; intros ? E].
  cbn [exec_bind].
  do 8 (eapply register_then; [exact E|reflexivity|discriminate|by repeat constructor|by apply (bool_decide_eq_true_1 _); vm_compute|clear E; intros ? E]).
  cbn. rewrite E. split; [done|]. split; [done|]. by apply (bool_decide_eq_true_1 _); vm_compute.
Qed.
End Registration.

(** ** What they show *)

Section Shows.
Context (hash : bytes → Z) {Registry : Type} {Q : Type → Type} `{ArrayQueueLaws Q}.
Implicit Types m : Metrics Registry.

(** The jobs of [l] were evicted, and no other job moved. *)
Record evicts (e : Engine) (l : list JobId) (e' : Engine) : Prop := {
  ev_once : NoDup l;
  ev_ran : ∀ x, x ∈ l → job_state (eg_jobs e) x = Some JobState.Running;
  ev_states : ∀ x, job_state (eg_jobs e') x = if decide (x ∈ l) then Some JobState.Preempted else job_state (eg_jobs e) x;
}.

Lemma evicts_nil e : evicts e [] e.
Proof. split; [constructor|by intros x ?%elem_of_nil|]. intros x. by rewrite decide_False by apply not_elem_of_nil. Qed.

Lemma evicts_app e l1 e1 l2 e2 : evicts e l1 e1 → evicts e1 l2 e2 → evicts e (l1 ++ l2) e2.
Proof.
  intros [A1 B1 C1] [A2 B2 C2].
  assert (∀ x, x ∈ l2 → x ∉ l1) as Hd by (intros x Hx Hy; specialize (B2 x Hx); by rewrite C1, decide_True in B2).
  split.
  - apply NoDup_app. split; [done|]. split; [|done]. intros x Hx Hy. by apply (Hd x).
  - intros x [?|Hx]%elem_of_app; [by apply B1|]. specialize (B2 x Hx). rewrite C1, decide_False in B2; [done|by apply Hd].
  - intros x. rewrite C2, C1. destruct (decide (x ∈ l2)); [by rewrite decide_True by set_solver|].
    destruct (decide (x ∈ l1)); [by rewrite decide_True by set_solver|by rewrite decide_False by set_solver].
Qed.

Definition counted (n : nat) m : Metrics Registry := Nat.iter n count_preemption m.

(** The counter goes up exactly when a job is evicted. *)
Lemma evict_one_counts e (w : World Q) m v now e' w' :
  Engine_inv e → evict_one hash e w v now = Done (e', w') →
  ∃ l, evict_one_counted hash e w m v now = Done (e', w', counted (length l) m) ∧ evicts e l e'.
Proof.
  intros He E. unfold evict_one, evict_one_counted, lift_call in *. cbn [exec_bind] in *.
  assert (with_sched e (eg_scheduler e) (eg_jobs e) = e) as Ee by by destruct e.
  destruct (Arena_get (eg_jobs e) (ev_job v)) as [j|] eqn:Hj.
  2:{ unfold preempt in *. rewrite Hj in *. cbn in *. rewrite Ee in *. injection E as <- <-. exists []. split; [done|apply evicts_nil]. }
  destruct (decide (state j = JobState.Running)) as [Hr|Hr].
  - destruct (preempt_done (eg_scheduler e) (eg_jobs e) (ev_job v) j (en_sched _ He) Hj Hr) as (s' & jobs' & Ep & _ & Hce & _).
    injection Ep as Ep. rewrite Ep in *. cbn [exec_bind] in *. destruct (record _ _ _) as [e1| |] eqn:Er; [|done..].
    cbn [exec_bind] in *. injection E as E. rewrite E. exists [ev_job v]. split; [done|].
    assert (eg_jobs e' = jobs') as Ejobs.
    { destruct (dispatch_durably_form e1 w (Dispatch.Preempt (ev_slot v) (ev_job v) (grace (cc_preempt (cycle_config e1)))))
        as (ov & jr & w2 & Ed). rewrite Ed in E. injection E as <- _. cbn. unfold record in Er. cbn in Er.
      destruct (eg_journal e); [|by injection Er as <-]. apply exec_bind_Done in Er as (j1 & _ & Er). by injection Er as <-. }
    split; [apply NoDup_singleton| |].
    + intros x ->%list_elem_of_singleton. unfold job_state. by rewrite Hj, <-Hr.
    + intros x. rewrite Ejobs, (ce_after _ _ _ _ _ _ Hce x), (decide_False (P := x ∈ [])) by apply not_elem_of_nil.
      destruct (decide (x = ev_job v)) as [->|Hx]; [by rewrite decide_True by by left|]. rewrite decide_False; [done|].
      by rewrite list_elem_of_singleton.
  - assert (preempt (eg_scheduler e) (ev_job v) (eg_jobs e) = (eg_scheduler e, eg_jobs e, Err (LifecycleError.Transition (MkTransitionError (state j) JobState.Preempted)))) as Ep.
    { unfold preempt. rewrite Hj. unfold try_transition. destruct (state j); done. }
    rewrite Ep in *. cbn [exec_bind] in *. rewrite Ee in *. injection E as <- <-. exists []. split; [done|apply evicts_nil].
Qed.

Lemma evictions_count vs now : ∀ e (w : World Q) m e' w',
  Engine_inv e → is_u64 now → (∀ v, v ∈ vs → ev_job v ∉ eg_reconciling e) →
  exec_fold (fun ew v => evict_one hash ew.1 ew.2 v now) (e, w) vs = Done (e', w') →
  ∃ l, exec_fold (fun x v => evict_one_counted hash x.1.1 x.1.2 x.2 v now) (e, w, m) vs = Done (e', w', counted (length l) m) ∧
    evicts e l e'.
Proof.
  induction vs as [|v vs IH]; intros e w m e' w' He Hnow Hv E; cbn [exec_fold fst snd] in *.
  { injection E as <- <-. exists []. split; [done|apply evicts_nil]. }
  apply exec_bind_Done in E as ([e1 w1] & E1 & E). destruct (evict_one_counts e w m v now e1 w1 He E1) as (l1 & -> & Hl1).
  destruct (evict_one_ok hash e w v now He Hnow) as (e2 & w2 & E2 & H1 & Er); [apply Hv; by left|]. rewrite E1 in E2. injection E2 as <- <-.
  cbn [exec_bind fst snd]. destruct (IH e1 w1 (counted (length l1) m) e' w' (so_inv _ _ _ H1) Hnow) as (l2 & -> & Hl2); [|done|].
  { intros v' Hv'. rewrite Er. apply Hv. by right. }
  exists (l1 ++ l2). split; [|by eapply evicts_app]. do 2 f_equal. unfold counted. by rewrite length_app, Nat.add_comm, Nat.iter_add.
Qed.

Lemma plan_evictions_counts e (w : World Q) m head now e' w' :
  Engine_inv e → is_u64 now → plan_evictions hash e w head now = Done (e', w') →
  ∃ l, plan_evictions_counted hash e w m head now = Done (e', w', counted (length l) m) ∧ evicts e l e'.
Proof.
  intros He Hnow E. unfold plan_evictions, plan_evictions_counted in *. destruct (Arena_get (eg_jobs e) head) as [j|] eqn:Hj.
  - destruct (plan_preemption _ _ _ _ _ _ _) as [[evs o]| |] eqn:Ep; [|done..]. cbn [exec_bind] in *.
    eapply evictions_count; [done|done| |done]. by eapply planned_unheld.
  - cbn [exec_bind] in *. eapply evictions_count; [done|done| |done]. by intros v ?%elem_of_nil.
Qed.

(** The jobs of [l], and no other, became [Preempted]. *)
Definition newly_preempted (e : Engine) (l : list JobId) (e' : Engine) : Prop :=
  NoDup l ∧ (∀ x, x ∈ l → job_state (eg_jobs e) x ≠ Some JobState.Preempted) ∧
  ∀ x, job_state (eg_jobs e') x = Some JobState.Preempted ↔ job_state (eg_jobs e) x = Some JobState.Preempted ∨ x ∈ l.

(** The first half of the tick, counted. *)
Lemma schedule_counts e (w : World Q) m now :
  Engine_inv e → is_u64 now →
  let '(e0, w0) := flush_overflow e w in
  ∃ e1 ds out e2 w2 e3 w3 l, run_engine_cycle e0 now = Done (e1, ds, out) ∧
    exec_fold (fun ew d => on_dispatched hash ew.1 ew.2 d now) (e1, w0) ds = Done (e2, w2) ∧
    match co_head out with Some head => plan_evictions hash e2 w2 head now | None => Done (e2, w2) end = Done (e3, w3) ∧
    match co_head out with Some head => plan_evictions_counted hash e2 w2 m head now | None => Done (e2, w2, m) end =
      Done (e3, w3, counted (length l) m) ∧
    newly_preempted e l e3.
Proof.
  intros He Hnow. pose proof (flush_overflow_ok hash e w He) as Hf.
  assert (eg_jobs (flush_overflow e w).1 = eg_jobs e) as Ej by (unfold flush_overflow; by destruct (flush_stack _ _)).
  destruct (flush_overflow e w) as [e0 w0]. cbn [fst] in Hf, Ej.
  destruct (cycle_dispatch_ok hash e0 w0 now (so_inv _ _ _ Hf) Hnow)
    as (e1 & ds & out & e2 & w2 & B & E1 & E2 & H2 & _ & Hrd & _ & _ & _ & Hmv).
  assert (∃ e3 w3 l, match co_head out with Some head => plan_evictions hash e2 w2 head now | None => Done (e2, w2) end = Done (e3, w3) ∧
    match co_head out with Some head => plan_evictions_counted hash e2 w2 m head now | None => Done (e2, w2, m) end =
      Done (e3, w3, counted (length l) m) ∧ evicts e2 l e3) as (e3 & w3 & l & E3 & E3' & [V1 V2 V3]).
  { destruct (co_head out) as [h|]; [|exists e2, w2, []; split; [done|]; split; [done|apply evicts_nil]].
    destruct (plan_evictions_ok hash e2 w2 h now (so_inv _ _ _ H2) Hnow) as (e3 & w3 & E3 & H3).
    destruct (plan_evictions_counts e2 w2 m h now e3 w3 (so_inv _ _ _ H2) Hnow E3) as (l & E3' & Hl). by exists e3, w3, l. }
  exists e1, ds, out, e2, w2, e3, w3, l. do 4 (split; [done|]).
  assert (∀ x, job_state (eg_jobs e2) x = Some JobState.Preempted ↔ job_state (eg_jobs e) x = Some JobState.Preempted) as Hp.
  { intros x. rewrite <-Ej. unfold job_state. rewrite (Hmv x). case_decide as Hx; [|done].
    apply list_elem_of_fmap in Hx as (d & -> & Hd). specialize (Hrd d Hd). unfold job_state in Hrd.
    destruct (Arena_get (eg_jobs e0) (dd_job d)) as [j|]; [|done]. cbn in *. injection Hrd as ->. done. }
  split; [done|]. split.
  - intros x Hx. rewrite <-Hp, (V2 x Hx). done.
  - intros x. rewrite V3. case_decide; [naive_solver|]. rewrite Hp. naive_solver.
Qed.

(** What the queries answer stays the same. *)
Definition same_view (e e' : Engine) : Prop :=
  queue_summary e' = queue_summary e ∧ accounts e' = accounts e ∧ eg_demand e' = eg_demand e.

Lemma blocked_count jobs jobs' :
  Arena_wf jobs → Arena_wf jobs' →
  (∀ x j, state j = JobState.Blocked → Arena_get jobs' x = Some j ↔ Arena_get jobs x = Some j) →
  length (List.filter (fun p => bool_decide (state p.2 = JobState.Blocked)) (Arena_iter jobs')) =
  length (List.filter (fun p => bool_decide (state p.2 = JobState.Blocked)) (Arena_iter jobs)).
Proof.
  intros Hw Hw' Hb. apply Permutation_length.
  assert (∀ a : Arena Job, Arena_wf a → NoDup (List.filter (fun p => bool_decide (state p.2 = JobState.Blocked)) (Arena_iter a))) as Hnd.
  { intros a Ha. apply (NoDup_fmap_1 fst), NoDup_fmap_filter, (slot_entries_NoDup (slots a) 0). pose proof (wf_bound _ Ha). lia. }
  apply NoDup_Permutation; [by apply Hnd..|]. intros [x j]. rewrite !elem_of_List_filter, !bool_decide_eq_true. cbn.
  rewrite !Arena_iter_elem by done. naive_solver.
Qed.

Lemma forget_shows e now :
  Engine_inv e → generations_left e →
  ∃ e', forget_expired hash e now = Done e' ∧ Engine_inv e' ∧ same_view e e' ∧ eg_reconciling e' = eg_reconciling e ∧
    reconcile_deadline e' now = reconcile_deadline e now ∧ newly_preempted e [] e'.
Proof.
  intros He Hg. unfold forget_expired. assert (with_terminal e (eg_terminal e) = e) as Et by by destruct e.
  destruct (forget_loop_ok hash e (eg_terminal e) now) as (jobs' & jr & dropped & rest & Ed & -> & Hok & _ & _ & Hget);
    [by rewrite Et|done|].
  rewrite Et in Hok. eexists. split; [done|]. split; [apply Hok|].
  assert (∀ x j, is_terminal (state j) = false → Arena_get jobs' x = Some j ↔ Arena_get (eg_jobs e) x = Some j) as Hlive.
  { intros x j Hj. rewrite Hget. case_decide as Hx; [|done]. split; [done|]. intros Hx'.
    destruct (tv_noted _ _ (en_terminal _ He) x) as [(st & Est & Ht)|[Hn _]]; [rewrite Ed; set_solver| |congruence].
    unfold job_state in Est. rewrite Hx' in Est. injection Est as <-. congruence. }
  split; [|split; [done|split; [done|]]].
  - split; [|done]. unfold queue_summary. cbn. f_equal. apply blocked_count; [apply (en_sched _ He)|apply (en_sched _ (so_inv _ _ _ Hok))|].
    intros x j Hj. apply Hlive. by rewrite Hj.
  - split; [constructor|]. split; [by intros x ?%elem_of_nil|]. intros x. cbn. unfold job_state.
    assert (∀ a : Arena Job, (state <$> Arena_get a x = Some JobState.Preempted) ↔
      ∃ j, is_terminal (state j) = false ∧ state j = JobState.Preempted ∧ Arena_get a x = Some j) as Hex.
    { intros a. rewrite fmap_Some. split; [intros (j & ? & ?); exists j; by destruct (state j)|naive_solver]. }
    split; [intros [j Hj]%Hex|intros [[j Hj]%Hex|?%elem_of_nil]]; try done; [left|]; apply Hex; exists j; naive_solver.
Qed.

(** What giving up on workers leaves alone. *)
Definition apart (e : Engine) : Demand * list RunningJob * Z := (eg_demand e, eg_running e, eg_cycles e).

Lemma requeue_unclaimed_apart now e id e' : requeue_unclaimed hash now e id = Done e' → apart e' = apart e.
Proof.
  unfold requeue_unclaimed, requeue_logged, lift_call. destruct (Arena_get _ _) as [j|]; [|by intros [= <-]].
  destruct (bool_decide _); [|by intros [= <-]]. intros E. apply exec_bind_Done in E as ([e1 r] & E1 & E).
  apply exec_bind_Done in E1 as ([[s jobs] r1] & _ & [= <- <-]). destruct r1; [|by injection E as <-].
  unfold record in E. cbn in E. destruct (eg_journal e); [|by injection E as <-].
  apply exec_bind_Done in E as (j1 & _ & E). by injection E as <-.
Qed.

Lemma expire_apart e now e' : expire_reconcile hash e now = Done e' → apart e' = apart e.
Proof.
  unfold expire_reconcile. destruct (eg_reconciling e) as [|x l] eqn:Er; [by intros [= <-]|]. destruct (_ <? _); [by intros [= <-]|].
  intros E. apply exec_bind_Done in E as (e1 & E1 & [= <-]). change (apart (with_until e1 None)) with (apart e1). revert E1.
  generalize (eg_reconciling (with_until e (Some (default (time_saturating_add now (ec_reconcile_window (eg_config e))) (eg_reconcile_until e))))).
  set (e0 := with_reconciling _ []). change (apart e) with (apart e0). clearbody e0. intros ids. revert e0.
  induction ids as [|id ids IH]; intros e0 E; cbn [exec_fold] in E; [by injection E as <-|].
  apply exec_bind_Done in E as (e2 & E2%requeue_unclaimed_apart & E). rewrite <-E2. by apply IH.
Qed.

(** The counts a queue query answers, by the states of the jobs. *)
Lemma blocked_in_state jobs :
  length (List.filter (fun p => bool_decide (state p.2 = JobState.Blocked)) (Arena_iter jobs)) = length (jobs_in_state jobs JobState.Blocked).
Proof. unfold jobs_in_state. by rewrite List.length_map. Qed.

Lemma pending_in_state s jobs : Sched_inv s jobs → pending s = length (jobs_in_state jobs JobState.Ready).
Proof.
  intros [[Hwf _ _] _ [E [Hh Hnd Hs Hc]] _]. unfold pending. destruct Hh as (A & Hr & HE). rewrite (ready_len_rep _ _ Hr), HE.
  rewrite <-(length_fmap re_job). apply Permutation_length, NoDup_Permutation; [done|by apply jobs_in_state_NoDup|].
  intros x. rewrite jobs_in_state_elem by done. split; [|apply Hc]. intros (en & -> & He)%list_elem_of_fmap.
  destruct (Hs en He) as (j & Hj & Hst & _). unfold job_state. rewrite Hj. cbn. by rewrite Hst.
Qed.

(** The jobs a tick at [now] stops holding for their workers. *)
Definition given_up (e : Engine) (now : VirtualTime) : nat :=
  if reconcile_deadline e now <=? now then length (eg_reconciling e) else 0.

Lemma expire_counts e now e' :
  Engine_inv e → is_u64 now → expire_reconcile hash e now = Done e' →
  qs_ready (queue_summary e') = (qs_ready (queue_summary e) + given_up e now)%nat ∧
  qs_blocked (queue_summary e') = qs_blocked (queue_summary e) ∧ qs_running (queue_summary e') = qs_running (queue_summary e).
Proof.
  intros He Hnow E. destruct (expire_reconcile_ok hash e now He Hnow) as (e1 & E1 & Hok & _ & X0 & X2 & X3).
  rewrite E in E1. injection E1 as <-. pose proof (so_inv _ _ _ Hok) as He'. pose proof (expire_apart _ _ _ E) as Hap.
  injection Hap as _ Hrun _. unfold queue_summary. cbn [qs_ready qs_blocked qs_running]. rewrite Hrun, !blocked_in_state.
  rewrite (pending_in_state _ _ (en_sched _ He')), (pending_in_state _ _ (en_sched _ He)).
  pose proof (jo_arena _ (si_jobs _ _ (en_sched _ He))) as Hw. pose proof (jo_arena _ (si_jobs _ _ (en_sched _ He'))) as Hw'.
  pose proof (en_held _ He) as [G1 G2 _]. unfold given_up. destruct (Z.leb_spec (reconcile_deadline e now) now) as [Hle|Hlt].
  - destruct (X3 Hle) as (_ & _ & Hrd). split; [|split; [|done]].
    + rewrite <-length_app. apply Permutation_length, NoDup_Permutation; [by apply jobs_in_state_NoDup| |].
      * apply NoDup_app. split; [by apply jobs_in_state_NoDup|]. split; [|done]. intros x Hx Hr%G2.
        apply jobs_in_state_elem in Hx; [|done]. congruence.
      * intros x. rewrite elem_of_app, !jobs_in_state_elem by done. destruct (decide (x ∈ eg_reconciling e)) as [Hx|Hx].
        -- rewrite (Hrd x Hx). naive_solver.
        -- rewrite (X0 x Hx). naive_solver.
    + apply Permutation_length, NoDup_Permutation; [by apply jobs_in_state_NoDup..|]. intros x. rewrite !jobs_in_state_elem by done.
      destruct (decide (x ∈ eg_reconciling e)) as [Hx|Hx]; [|by rewrite (X0 x Hx)]. rewrite (Hrd x Hx), (G2 x Hx). done.
  - assert (∃ t, e' = with_until e t) as [t ->].
    { unfold expire_reconcile in E. fold (reconcile_deadline e now) in E. destruct (eg_reconciling e); [injection E as <-; by eexists|].
      rewrite (proj2 (Z.ltb_lt _ _) Hlt) in E. injection E as <-. by eexists. }
    cbn. lia.
Qed.

Lemma expire_shows e now :
  Engine_inv e → is_u64 now →
  ∃ e', expire_reconcile hash e now = Done e' ∧ Engine_inv e' ∧ eg_demand e' = eg_demand e ∧
    (eg_reconciling e = [] ∨ now < reconcile_deadline e now → same_view e e') ∧ newly_preempted e [] e'.
Proof.
  intros He Hnow. destruct (expire_reconcile_ok hash e now He Hnow) as (e' & E & Hok & _ & X0 & _ & X3).
  exists e'. split; [done|]. split; [apply Hok|].
  assert (eg_reconciling e = [] ∨ now < reconcile_deadline e now → ∃ t, e' = with_until e t) as Hw.
  { intros Hc. unfold expire_reconcile in E. fold (reconcile_deadline e now) in E.
    destruct (eg_reconciling e) eqn:Er; [injection E as <-; by exists None|]. destruct Hc as [?|Hc]; [done|].
    rewrite (proj2 (Z.ltb_lt _ _) Hc) in E. injection E as <-. by eexists. }
  split; [|split; [by intros [t ->]%Hw|]].
  - pose proof (expire_apart _ _ _ E) as Hap. by injection Hap.
  - split; [constructor|]. split; [by intros x ?%elem_of_nil|]. intros x. rewrite elem_of_nil.
    destruct (decide (x ∈ eg_reconciling e)) as [Hx|Hx]; [|rewrite X0 by done; naive_solver].
    pose proof (hv_running _ _ _ (en_held _ He) x Hx) as Hr.
    destruct (decide (now < reconcile_deadline e now)) as [Hlt|Hge].
    + destruct (Hw (or_intror Hlt)) as [t ->]. cbn. naive_solver.
    + destruct X3 as (_ & _ & X3); [lia|]. rewrite (X3 x Hx), Hr. naive_solver.
Qed.

(** ** The gauges of the accounts *)

Lemma dec_inj a b : is_u64 a → is_u64 b → dec a = dec b → a = b.
Proof. intros (_ & _ & Ha)%dec_spec (_ & _ & Hb)%dec_spec E. by rewrite <-Ha, <-Hb, E. Qed.

(** The accounts from [i] on get the values of [l], the ones before keep theirs. *)
Lemma publish_from_spec l : ∀ m i k, Z.of_nat (i + length l) <= u64_max → (k < i + length l)%nat →
  mt_account_usage (publish_from m i l) !! dec (Z.of_nat k) =
    (if (k <? i)%nat then mt_account_usage m !! dec (Z.of_nat k)
     else (fun p => f64_div (as_f64 (usage p.1)) (as_f64 USAGE_PER_CORE_SECOND)) <$> l !! (k - i)%nat) ∧
  mt_account_fairshare (publish_from m i l) !! dec (Z.of_nat k) =
    (if (k <? i)%nat then mt_account_fairshare m !! dec (Z.of_nat k)
     else (fun p => f64_div (as_f64 p.2) (as_f64 FACTOR_SCALE)) <$> l !! (k - i)%nat).
Proof.
  induction l as [|p l IH]; intros m i k Hmax Hk; cbn [publish_from length] in *.
  { destruct (Nat.ltb_spec k i); [done|lia]. }
  destruct (IH (publish_account m i p) (S i) k) as [-> ->]; [lia|lia|]. unfold publish_account.
  cbn [mt_account_usage mt_account_fairshare].
  destruct (Nat.ltb_spec k i) as [Hlt|Hge], (Nat.ltb_spec k (S i)) as [Hlt'|Hge']; [|lia| |].
  - assert (dec (Z.of_nat i) ≠ dec (Z.of_nat k)) by (intros E%dec_inj; unfold is_u64; lia). split; by apply lookup_insert_ne.
  - replace k with i by lia. by rewrite Nat.sub_diag, !lookup_insert_eq.
  - by replace (k - i)%nat with (S (k - S i)) by lia.
Qed.

Lemma publish_from_keeps l : ∀ m i,
  let m' := publish_from m i l in
  (mt_ready m', mt_blocked m', mt_running m', mt_workers_attached m', mt_workers_desired m', mt_preemptions m', mt_cycle_seconds m') =
  (mt_ready m, mt_blocked m, mt_running m, mt_workers_attached m, mt_workers_desired m, mt_preemptions m, mt_cycle_seconds m).
Proof. induction l as [|p l IH]; intros m i; cbn; [done|]. exact (IH (publish_account m i p) (S i)). Qed.

Lemma counted_preemptions n m :
  is_u64 (mt_preemptions m) → mt_preemptions (counted n m) = wrap64 (mt_preemptions m + Z.of_nat n).
Proof.
  intros Hm. induction n as [|n IH].
  { cbn. rewrite Z.add_0_r. unfold wrap64. rewrite Z.mod_small; unfold is_u64 in Hm; lia. }
  change (counted (S n) m) with (count_preemption (counted n m)). cbn [count_preemption mt_preemptions]. rewrite IH.
  unfold wrap64. rewrite Zplus_mod_idemp_l. f_equal. lia.
Qed.

Lemma counted_keeps n m :
  let m' := counted n m in
  (mt_account_usage m', mt_account_fairshare m', mt_cycle_seconds m') = (mt_account_usage m, mt_account_fairshare m, mt_cycle_seconds m).
Proof. induction n as [|n IH]; [done|]. exact IH. Qed.

(** The account gauges after a tick at [now]: those of [e] when a second has
    passed, the ones they were otherwise. *)
Definition accounts_shown (g : Gauged (Registry := Registry)) (e : Engine) (now : VirtualTime) (g' : Gauged (Registry := Registry)) : Prop :=
  if duration_from_secs 1 <=? time_saturating_sub_time now (gd_account_metrics_at g)
  then gd_account_metrics_at g' = now ∧ ∀ k s, accounts e !! k = Some s →
    mt_account_usage (gd_metrics g') !! dec (Z.of_nat k) = Some (f64_div (as_f64 (as_usage s)) (as_f64 USAGE_PER_CORE_SECOND)) ∧
    mt_account_fairshare (gd_metrics g') !! dec (Z.of_nat k) = Some (f64_div (as_f64 (as_fairshare s)) (as_f64 FACTOR_SCALE))
  else gd_account_metrics_at g' = gd_account_metrics_at g ∧
    mt_account_usage (gd_metrics g') = mt_account_usage (gd_metrics g) ∧
    mt_account_fairshare (gd_metrics g') = mt_account_fairshare (gd_metrics g).

Lemma publish_if_due_shows m at_ (e : Engine) now n elapsed :
  Engine_inv e →
  let g := MkGauged m at_ in
  let p := publish_if_due (MkGauged (set_gauges (counted n m) e) at_) e now in
  let g' := MkGauged (observe_cycle (gd_metrics p) elapsed) (gd_account_metrics_at p) in
  accounts_shown g e now g' ∧
  mt_ready (gd_metrics g') = Z.min i64_max (Z.of_nat (qs_ready (queue_summary e))) ∧
  mt_blocked (gd_metrics g') = Z.of_nat (qs_blocked (queue_summary e)) ∧
  mt_running (gd_metrics g') = Z.min i64_max (Z.of_nat (qs_running (queue_summary e))) ∧
  mt_workers_attached (gd_metrics g') = attached (eg_demand e) ∧ mt_workers_desired (gd_metrics g') = desired (eg_demand e) ∧
  mt_preemptions (gd_metrics g') = mt_preemptions (counted n m) ∧
  mt_cycle_seconds (gd_metrics g') = mt_cycle_seconds m ++ [f64_div (as_f64 elapsed) (as_f64 1000000000)].
Proof.
  intros He. pose proof (si_fs _ _ (en_sched _ He)) as Hfs. pose proof (fw_max _ Hfs) as Hmax. unfold MAX_ACCOUNTS in Hmax.
  cbv zeta. unfold accounts_shown, publish_if_due. cbn [gd_account_metrics_at gd_metrics].
  pose proof (counted_keeps n m) as Hc. cbv zeta in Hc. injection Hc as Hu Hf Hcy.
  destruct (_ <=? _); cbn [gd_metrics gd_account_metrics_at].
  - unfold publish_account_metrics. set (m1 := set_gauges (counted n m) e). set (l := zip _ _).
    pose proof (publish_from_keeps l m1 0) as Hk. cbv zeta in Hk. injection Hk as K1 K2 K3 K4 K5 K6 K7.
    assert (length l = length (ledgers (eg_fairshare e))) as Hl.
    { unfold l. rewrite length_zip_with. unfold eg_fairshare. rewrite (fw_len _ Hfs). lia. }
    split; [split; [done|]|].
    + intros k s Hs. unfold accounts in Hs. fold l in Hs. rewrite list_lookup_imap in Hs.
      destruct (l !! k) as [p|] eqn:Hp; [|done]. injection Hs as <-. pose proof (lookup_lt_Some _ _ _ Hp).
      destruct (publish_from_spec l m1 0 k) as [E1 E2]; [rewrite Hl; unfold eg_fairshare; cbn; lia|cbn; lia|].
      cbn [observe_cycle mt_account_usage mt_account_fairshare]. by rewrite E1, E2, Nat.sub_0_r, Hp.
    + cbn [observe_cycle mt_ready mt_blocked mt_running mt_workers_attached mt_workers_desired mt_preemptions mt_cycle_seconds].
      rewrite K1, K2, K3, K4, K5, K6, K7. unfold m1. cbn. by rewrite Hcy.
  - cbn. by rewrite Hu, Hf, Hcy.
Qed.

(** Of two changes, the second of which evicts nobody. *)
Lemma newly_preempted_then e l e1 e2 : newly_preempted e l e1 → newly_preempted e1 [] e2 → newly_preempted e l e2.
Proof.
  intros (A1 & B1 & C1) (_ & _ & C2). split; [done|]. split; [done|]. intros x. rewrite (C2 x), elem_of_nil, (C1 x). tauto.
Qed.

(** C33: The tick with its metrics is the tick: it takes the engine and the rest
    of the daemon to the same state.  Afterwards the counter has gone up by exactly
    the jobs the tick evicted, the worker gauges are the demand the scaler is
    answered, one cycle was observed, and the gauges of blocked and running jobs are
    what a queue query is answered next.  So is the gauge of ready jobs, less the
    jobs of recovered workers this tick gave up waiting for, which are requeued
    after the gauges are set; and on a tick that gives up on none the gauges of the
    accounts, once a second, are what an accounts query is answered, and stay in
    between. *)
Theorem metrics_show_the_engine e (w : World Q) m at_ now started ended :
  Engine_inv e → is_u64 now → generations_left e → is_u64 (mt_preemptions m) →
  ∃ e' w' g' outcome,
    tick_gauged hash e w (MkGauged m at_) now started ended = Done (e', w', g', outcome) ∧
    tick hash e w now = Done (e', w', outcome) ∧
    (∃ l, newly_preempted e l e' ∧ mt_preemptions (gd_metrics g') = wrap64 (mt_preemptions m + Z.of_nat (length l))) ∧
    mt_workers_attached (gd_metrics g') = attached (eg_demand e') ∧
    mt_workers_desired (gd_metrics g') = desired (eg_demand e') ∧
    mt_cycle_seconds (gd_metrics g') =
      mt_cycle_seconds m ++ [f64_div (as_f64 (time_saturating_sub_time ended started)) (as_f64 1000000000)] ∧
    mt_ready (gd_metrics g') = Z.min i64_max (Z.of_nat (qs_ready (queue_summary e')) - Z.of_nat (given_up e now)) ∧
    mt_blocked (gd_metrics g') = Z.of_nat (qs_blocked (queue_summary e')) ∧
    mt_running (gd_metrics g') = Z.min i64_max (Z.of_nat (qs_running (queue_summary e'))) ∧
    (given_up e now = 0%nat → accounts_shown (MkGauged m at_) e' now g').
Proof.
  intros He Hnow Hg Hm. pose proof (schedule_counts e w m now He Hnow) as Hs.
  pose proof (tick_schedule_ok hash e w now He Hnow) as Ht. unfold tick_schedule in Ht. unfold tick_gauged, tick.
  destruct (flush_overflow e w) as [e0 w0].
  destruct Hs as (e1 & ds & out & e2 & w2 & e3 & w3 & l & E1 & E2 & E3 & E3' & Hl). rewrite E1 in *. cbn [exec_bind] in *.
  rewrite E2 in *. cbn [exec_bind gd_metrics gd_account_metrics_at] in *. rewrite E3, E3' in *. cbn [exec_bind] in *.
  destruct Ht as (? & ? & ? & [= <- <- <-] & Hok & Q1 & Q2 & Q3).
  set (e4 := with_cycles e3 _). assert (Engine_inv e4) as He4 by by destruct Hok as [[] _ _].
  destruct (refresh_demand_spec e4 He4) as [-> _]. cbn [exec_bind]. set (e5 := with_demand e4 _).
  assert (Engine_inv e5) as He5 by by destruct He4.
  destruct (forget_shows e5 now He5) as (e6 & -> & He6 & (V1 & V2 & V3) & R6 & D6 & P6).
  { intros q. change (eg_terminal e5) with (eg_terminal e3). rewrite Q1. apply Hg. }
  cbn [exec_bind]. destruct (expire_shows e6 now He6 Hnow) as (e7 & E7 & He7 & V4 & V5 & P7).
  destruct (expire_counts e6 now e7 He6 Hnow E7) as (C1 & C2 & C3). rewrite E7. cbn [exec_bind].
  rewrite (attach_if_wanted_spec hash e7 now He7 Hnow). cbn [exec_bind]. set (e8 := with_journal e7 _).
  assert (∃ jr w', commit_journal e8 w3 = (with_journal e7 jr, w')) as (jr & w' & ->).
  { unfold commit_journal. destruct (eg_journal e8) as [j|]; [|by eexists _, _]. destruct (commit _ _ _) as [[j' cs] b]. by eexists _, _. }
  assert (given_up e6 now = given_up e now ∧ (given_up e now = 0%nat → eg_reconciling e6 = [] ∨ now < reconcile_deadline e6 now)) as [Egu Hgu].
  { assert (reconcile_deadline e6 now = reconcile_deadline e now) as Ed.
    { rewrite D6. unfold reconcile_deadline. change (eg_reconcile_until e5) with (eg_reconcile_until e3).
      change (eg_config e5) with (eg_config e3). by rewrite Q3, (so_config _ _ _ Hok). }
    assert (eg_reconciling e6 = eg_reconciling e) as Er by (rewrite R6; exact Q2).
    unfold given_up. rewrite Ed, Er. split; [done|]. destruct (Z.leb_spec (reconcile_deadline e now) now); [|by right].
    intros Hn. left. by apply nil_length_inv. }
  destruct (publish_if_due_shows m at_ e5 now (length l) (time_saturating_sub_time ended started) He5)
    as (S1 & S2 & S3 & S4 & S5 & S6 & S7 & S8).
  eexists _, _, _, _. split; [reflexivity|]. split; [reflexivity|]. split.
  { exists l. split; [|rewrite S7; by apply counted_preemptions].
    change (newly_preempted e l e7). eapply newly_preempted_then; [|exact P7]. eapply newly_preempted_then; [|exact P6]. exact Hl. }
  change (eg_demand (with_journal e7 jr)) with (eg_demand e7). rewrite V4, V3. do 3 (split; [done|]).
  change (queue_summary (with_journal e7 jr)) with (queue_summary e7). rewrite C1, C2, C3, Egu, V1.
  split; [rewrite S2; f_equal; lia|]. do 2 (split; [done|]). intros Hz. destruct (V5 (Hgu Hz)) as (_ & W2 & _).
  unfold accounts_shown in *. change (accounts (with_journal e7 jr)) with (accounts e7). by rewrite W2, V2.
Qed.
End Shows.

(** ** A registry *)

(** The names registered so far. *)
Definition names_describe (name help : string) (labels : list string) : option string :=
  if valid_name name && negb (bool_decide (help = EmptyString)) && forallb valid_name labels then Some name else None.

Fixpoint grow (a b : f64) (n : nat) : list f64 :=
  match n with O => [] | S n => a :: grow (SFmul 53 1024 a b) b n end.

#[export] Instance NamesRegistry : Prometheus string (list string) := {
  describe := names_describe;
  registry_empty := [];
  register r d := if bool_decide (d ∈ r) then None else Some (d :: r);
  exponential_buckets a b n :=
    if SFltb (S754_zero false) a && SFltb (as_f64 1) b && negb (Nat.eqb n 0) then Some (grow a b n) else None;
}.

#[export] Program Instance NamesRegistry_laws : PrometheusLaws string (list string) := {
  desc_name d := d;
  registered r := r;
}.
Next Obligation.
  intros name help labels Hn Hh Hl. exists name. split; [|done]. cbn. unfold names_describe. rewrite Hn, bool_decide_eq_false_2 by done.
  cbn. rewrite (proj2 (forallb_forall _ _)); [done|]. intros x Hx%list_elem_of_In. rewrite Forall_forall in Hl. by apply Hl.
Qed.
Next Obligation. done. Qed.
Next Obligation. intros r d Hd. exists (d :: r). cbn. by rewrite bool_decide_eq_false_2. Qed.
Next Obligation.
  intros a b n Ha Hb Hn. cbn. rewrite Ha, Hb. destruct n as [|n]; [lia|]. cbn. by eexists.
Qed.

Definition demo_metrics : Metrics (list string) :=
  Eval vm_compute in match Metrics_new with Done m => m | _ => MkMetrics [] 0 0 0 0 0 ∅ ∅ 0 [] end.

Example demo_metrics_new : Metrics_new = Done demo_metrics ∧ length (mt_registry demo_metrics) = 9%nat.
Proof. vm_compute. done. Qed.

(** Two seconds in, one job runs and one is blocked behind it. *)
Lemma metrics_show_the_engine_witness :
  ∃ e' w' g' outcome,
    tick_gauged crc32 demo_ticked.1.1 demo_ticked.1.2 (MkGauged demo_metrics 0) 2000000000 2000000000 2000500000 =
      Done (e', w', g', outcome) ∧
    tick crc32 demo_ticked.1.1 demo_ticked.1.2 2000000000 = Done (e', w', outcome) ∧
    mt_running (gd_metrics g') = 1 ∧ mt_blocked (gd_metrics g') = 1 ∧ mt_ready (gd_metrics g') = 0 ∧
    gd_account_metrics_at g' = 2000000000.
Proof.
  assert (Engine_inv demo_ticked.1.1) as He
    by (exact (proj1 (reaches_inv _ _ _ _ _ _ demo_daemon_config_ok demo_ticked_reaches))).
  destruct (metrics_show_the_engine crc32 (Q := ListQueue) demo_ticked.1.1 demo_ticked.1.2 demo_metrics 0 2000000000 2000000000 2000500000 He)
    as (e' & w' & g' & out & Eg & Et & _ & _ & _ & _ & H1 & H2 & H3 & Ha).
  { unfold is_u64. lia. }
  { intros p Hp. by apply elem_of_nil in Hp. }
  { unfold is_u64. cbn. lia. }
  exists e', w', g', out. split; [exact Eg|]. split; [exact Et|].
  rewrite H1, H2, H3. specialize (Ha eq_refl). vm_compute in Et. injection Et as <- _ _. cbn in Ha. destruct Ha as [-> _].
  repeat split; vm_compute; reflexivity.
Defined.
