(* ===== verification/Order.v ===== *)
(** * Jobs wait for their dependencies

    The promise of the dependency tracker, seen from outside: a job that is
    ready, running, evicted or has run had every one of its dependencies complete
    first, and a blocked job is recorded to be woken by each one that has not.
    The invariant is preserved by every logged transition of the engine
    ([log_event]), so it holds along every run. *)

From stdpp Require Import base strings list numbers option sets relations.
From Stdlib Require Import ZArith Lia.
From S2P Require Import Prelude Domain Arena Job Inventory Priority ReadySet Eligibility.
From S2P Require Import Decay FairShare Pack Backfill Preempt Scheduler Cycle Frame.
From S2P Require Import Codec LogRecord Log Snapshot Store Journal Command Engine.
From S2P Require Import EngineInv EngineSteps EngineTick EngineRun.
Open Scope Z_scope.
Open Scope list_scope.

(** ** Edges that survive *)

Lemma clear_index_deps_of t k t' a :
  clear_index t k = Done t' → tracked t' a → tracked t a ∧ deps_of t' a = deps_of t a.
Proof.
  unfold clear_index. intros E. apply exec_bind_Done in E as (ow & Eo & E). apply exec_bind_Done in E as (un & _ & E).
  apply exec_bind_Done in E as (de & Ed & E). injection E as <-.
  apply vec_put_inv in Eo as (o & Ho & ->). apply vec_put_inv in Ed as (l & Hl & ->).
  unfold tracked, deps_of. cbn. rewrite !vec_get_insert by (by eapply vec_get_range). intros [Hn Ha].
  destruct (decide (k = JobId_index a)); [congruence|done].
Qed.

(** What stays tracked keeps its dependents. *)
Lemma completed_deps_of t id p t' p' a :
  tracker_on_completed t id p = Done (t', p') → tracked t' a → deps_of t' a = deps_of t a.
Proof.
  unfold tracker_on_completed. destruct (negb _); [by intros [= <- _]|]. intros E Ha.
  apply exec_bind_Done in E as (ds & _ & E). apply exec_bind_Done in E as ([t1 p1] & Ef & E).
  apply exec_bind_Done in E as (t2 & Ec & E). injection E as <- <-.
  destruct (clear_index_deps_of _ _ _ a Ec Ha) as [_ ->].
  unfold deps_of. by rewrite (satisfy_edges _ _ _ _ Ef).
Qed.

Lemma cascade_deps_of fuel t id stack c t' c' a :
  cascade_loop fuel t id stack c = Done (t', c') → tracked t' a → tracked t a ∧ deps_of t' a = deps_of t a.
Proof.
  revert t stack c. induction fuel as [|fuel IH]; intros t [|x stack] c E Ha; cbn [cascade_loop] in E; [by simplify_eq|done|by simplify_eq|].
  destruct (negb (is_tracked t x)); [by eapply IH|]. apply exec_bind_Done in E as (ds & _ & E).
  apply exec_bind_Done in E as (t1 & Ec & E). destruct (IH _ _ _ E Ha) as [Ha1 ->].
  by eapply clear_index_deps_of.
Qed.

(** ** The invariant *)

(** The dependency has completed, as far as the arena still remembers it. *)
Definition done_or_gone (jobs : Arena Job) (d : JobId) : Prop :=
  issued jobs d ∧ ∀ st, job_state jobs d = Some st → st = JobState.Completed.

(** What a job in state [st] may assume of its dependency [d]. *)
Definition waits_for (t : DependencyTracker) (jobs : Arena Job) (x : JobId) (st : JobState) (d : JobId) : Prop :=
  match st with
  | JobState.Submitted | JobState.Cancelled => True
  | JobState.Blocked => done_or_gone jobs d ∨ dep_edge t d x
  | _ => done_or_gone jobs d
  end.

Record waits (t : DependencyTracker) (jobs : Arena Job) : Prop := {
  wa_arena : Arena_wf jobs;
  wa_slots : Z.of_nat (length (slots jobs)) <= u32_max;
  wa_deps : deps_ok t jobs;
  wa_edges : ∀ x, x ∈ edges t → issued jobs x;
  wa_truth : ∀ x j d, Arena_get jobs x = Some j → d ∈ deps j → waits_for t jobs x (state j) d;
  wa_sound : ∀ d x j, dep_edge t d x → Arena_get jobs x = Some j → d ∈ deps j;
}.

Lemma arena_rel_wf {T} (R : relation T) a b : arena_rel R a b → Arena_wf a → Arena_wf b.
Proof.
  intros Hr [(fl & Hc & Hnd & Hall) Hlen Hb Hg]. pose proof (arena_rel_length _ _ _ Hr) as Hl.
  assert (∀ i, option_Forall2 (slot_rel R) (vec_get (slots a) i) (vec_get (slots b) i)) as Hv by (intros; by apply arena_rel_vec).
  destruct Hr as [Hs Hf Hn]. split.
  - exists fl. split; [|split; [done|]].
    + rewrite <-Hf. clear -Hc Hv. induction Hc as [|i g nx l Hi _ IH]; [constructor|].
      specialize (Hv i). rewrite Hi in Hv. inversion Hv as [? ? Hxy|]; subst. inversion Hxy; subst. econstructor; [done|done].
    + intros i g nx Hi. specialize (Hv i). rewrite Hi in Hv. inversion Hv as [? ? Hxy E|]; subst. inversion Hxy; subst. by eapply Hall.
  - rewrite <-Hn, Hlen. f_equal. unfold count_if. clear -Hs.
    induction Hs as [|x y l l' Hxy _ IH]; [done|]. cbn. destruct Hxy; cbn; by rewrite ?IH.
  - by rewrite <-Hl.
  - intros i y Hi. specialize (Hv i). rewrite Hi in Hv. inversion Hv as [x ? Hxy E|]; subst.
    specialize (Hg i x ltac:(done)). by inversion Hxy; subst.
Qed.

(** A completed or forgotten dependency stays so under a call that moves only
    unfinished jobs. *)
Lemma done_or_gone_after jobs jobs' id st l st' d :
  arena_rel job_like jobs jobs' → state_after jobs id st l st' jobs' → all_blocked jobs l →
  is_pending jobs id = true → done_or_gone jobs d → done_or_gone jobs' d.
Proof.
  intros Hr Ha Hb Hp [Hi Hd]. split; [by eapply issued_rel|]. intros s Hs. rewrite (Ha d) in Hs.
  destruct (decide (d = id)) as [->|].
  { rewrite is_pending_state in Hp. destruct (job_state jobs id) as [s0|]; [|done].
    rewrite (Hd s0 eq_refl) in Hp. done. }
  destruct (decide (d ∈ l)) as [Hin|]; [|by apply Hd]. specialize (Hd _ (Hb _ Hin)). done.
Qed.

(** A call on an unfinished job. *)
Lemma waits_call t jobs t' jobs' id st l st' :
  waits t jobs → arena_rel job_like jobs jobs' → state_after jobs id st l st' jobs' → all_blocked jobs l →
  is_pending jobs id = true → deps_ok t' jobs' → edges t' ⊆ edges t →
  (∀ j d, Arena_get jobs id = Some j → d ∈ deps j → waits_for t' jobs' id st d) →
  (∀ x j d, x ∈ l → Arena_get jobs x = Some j → d ∈ deps j → waits_for t' jobs' x st' d) →
  (∀ d x, dep_edge t d x → x ≠ id → x ∉ l → done_or_gone jobs' d ∨ dep_edge t' d x) →
  (∀ d x, dep_edge t' d x → dep_edge t d x) → waits t' jobs'.
Proof.
  intros [H1 H2 H3 H4 H5 H6] Hr Ha Hb Hp Hok Hed Hid Hl Hother Hback. split.
  - by eapply arena_rel_wf.
  - by rewrite <-(arena_rel_length _ _ _ Hr).
  - done.
  - intros x Hx. eapply issued_rel; [done|]. by apply H4, Hed.
  - intros x j' d Hj' Hd. destruct (arena_rel_Some _ _ _ _ _ Hr Hj') as (j & Hj & Hlike).
    destruct (job_like_fields _ _ Hlike) as (_ & _ & _ & _ & Ed & _). rewrite Ed in Hd.
    pose proof (Ha x) as Hx. unfold job_state in Hx at 1. rewrite Hj' in Hx. cbn in Hx.
    destruct (decide (x = id)) as [->|Hne]; [injection Hx as ->; by eapply Hid|].
    destruct (decide (x ∈ l)) as [Hin|Hnin]; [injection Hx as ->; by eapply Hl|].
    unfold job_state in Hx. rewrite Hj in Hx. injection Hx as ->. specialize (H5 x j d Hj Hd).
    assert (done_or_gone jobs d → done_or_gone jobs' d) as Hkeep by (by eapply done_or_gone_after).
    destruct (state j); cbn in H5 |- *; try by auto. destruct H5 as [?|?]; [left; auto|]. by apply Hother.
  - intros d x j' He Hj'. destruct (arena_rel_Some _ _ _ _ _ Hr Hj') as (j & Hj & Hlike).
    destruct (job_like_fields _ _ Hlike) as (_ & _ & _ & _ & -> & _). eapply H6; [|done]. by apply Hback.
Qed.

(** ** The calls *)

Lemma promote_moved fs now config l rs jobs rs' jobs' :
  exec_fold (promote fs now config) (rs, jobs) l = Done (rs', jobs') → NoDup l → all_blocked jobs l →
  moved jobs l JobState.Ready jobs'.
Proof.
  revert rs jobs. induction l as [|d l IH]; intros rs jobs E Hnd Hb; cbn [exec_fold] in E.
  { simplify_eq. apply moved_nil. }
  apply NoDup_cons in Hnd as [Hn Hnd]. destruct (all_blocked_live _ _ d Hb) as (j & Hj & Hs); [by left|].
  apply exec_bind_Done in E as ([rs1 jobs1] & E1 & E). unfold promote in E1. rewrite Hj in E1.
  assert (try_transition j JobState.Ready = Ok (job_with_state j JobState.Ready)) as Et by (unfold try_transition; by rewrite Hs).
  rewrite Et in E1. apply exec_bind_Done in E1 as (rs2 & _ & E1). injection E1 as <- <-.
  eapply moved_cons; [done|done|]. eapply IH; [done|done|]. by eapply all_blocked_tail.
Qed.

Lemma cascade_moved l rs jobs rs' jobs' :
  exec_fold cascade_one (rs, jobs) l = Done (rs', jobs') → NoDup l → all_blocked jobs l →
  moved jobs l JobState.Cancelled jobs'.
Proof.
  revert rs jobs. induction l as [|d l IH]; intros rs jobs E Hnd Hb; cbn [exec_fold] in E.
  { simplify_eq. apply moved_nil. }
  apply NoDup_cons in Hnd as [Hn Hnd]. destruct (all_blocked_live _ _ d Hb) as (j & Hj & Hs); [by left|].
  apply exec_bind_Done in E as ([rs1 jobs1] & E1 & E). unfold cascade_one in E1. rewrite Hj in E1.
  apply exec_bind_Done in E1 as (rs2 & _ & E1).
  assert (try_transition j JobState.Cancelled = Ok (job_with_state j JobState.Cancelled)) as Et
    by (unfold try_transition; by rewrite Hs).
  rewrite Et in E1. injection E1 as <- <-.
  eapply moved_cons; [done|done|]. eapply IH; [done|done|]. by eapply all_blocked_tail.
Qed.

(** The dependencies of a job past [Blocked] are done. *)
Lemma waits_past t jobs x j d :
  waits t jobs → Arena_get jobs x = Some j → d ∈ deps j →
  occupies_slot (state j) = true ∨ state j = JobState.Ready → done_or_gone jobs d.
Proof. intros Hw Hj Hd Hs. pose proof (wa_truth _ _ Hw _ _ _ Hj Hd) as H. destruct (state j); naive_solver. Qed.

(** An accepted completion: what it does to the tracker and to the states. *)
Lemma completed_after s jobs id now config s' jobs' p :
  on_completed s id jobs now config = Done (s', jobs', Ok p) → waits (sc_deps s) jobs →
  ∃ j, Arena_get jobs id = Some j ∧ occupies_slot (state j) = true ∧ is_pending jobs id = true ∧
    tracker_on_completed (sc_deps s) id [] = Done (sc_deps s', p) ∧ deps_ok (sc_deps s') jobs' ∧
    (∀ x, x ∈ p ↔ dep_edge (sc_deps s) id x ∧ edge_count (sc_deps s) x = count_id x (deps_of (sc_deps s) id)) ∧
    (∀ x, x ∈ p → job_state jobs x = Some JobState.Blocked ∧ x ≠ id) ∧
    state_after jobs id JobState.Completed p JobState.Ready jobs'.
Proof.
  intros E Hw. unfold on_completed in E. destruct (Arena_get jobs id) as [j|] eqn:Hj; [|done].
  destruct (try_transition j JobState.Completed) as [j'|] eqn:Et; [|done]. apply try_transition_Ok in Et as [Hc ->].
  assert (occupies_slot (state j) = true) as Hocc by (by destruct (state j)).
  apply exec_bind_Done in E as (fs & _ & E). apply exec_bind_Done in E as ([t q] & Ec & E).
  apply exec_bind_Done in E as ([rs jobs1] & Ep & E). injection E as <- <- <-. cbn.
  assert (is_pending jobs id = true) as Hp.
  { apply is_pending_live. exists j. by destruct (state j). }
  destruct (deps_ok_completed (sc_deps s) jobs id (wa_deps _ _ Hw) Hp) as (t' & fired & E' & Hnd & Hf & Hfb & Hok).
  { unfold job_state. rewrite Hj. intros [= Hs]. by rewrite Hs in Hocc. }
  rewrite Ec in E'. injection E' as <- <-.
  assert (state_after jobs id JobState.Completed q JobState.Ready jobs1) as Ha.
  { eapply moved_state_after; [done|by intros Hx; destruct (Hfb _ Hx)| |eapply promote_moved; [exact Ep|done|]];
      (intros x Hx; rewrite (job_state_set _ _ _ _ _ Hj), decide_False; [by apply Hfb|]; intros <-; by destruct (Hfb _ Hx)). }
  exists j. do 4 (split; [done|]). split; [by apply Hok|]. done.
Qed.

Lemma waits_completed s jobs id now config s' jobs' p :
  on_completed s id jobs now config = Done (s', jobs', Ok p) → waits (sc_deps s) jobs → waits (sc_deps s') jobs'.
Proof.
  intros E Hw. destruct (on_completed_frame s jobs now config id _ _ _ E) as [Hlike Hed].
  destruct (completed_after _ _ _ _ _ _ _ _ E Hw) as (j & Hj & Hocc & Hp & Ec & Hok & Hf & Hfb & Ha).
  assert (all_blocked jobs p) as Hab by (intros x Hx; by apply Hfb).
  assert (done_or_gone jobs' id) as Hdone.
  { split; [eapply issued_rel; [exact Hlike|]; by eapply issued_live|]. intros st. rewrite (Ha id), decide_True by done. by intros [= <-]. }
  pose proof (wa_deps _ _ Hw) as Hdo.
  destruct (tracker_on_completed_spec (sc_deps s) id [] (do_wf _ _ Hdo)) as (t' & fired & E' & _ & _ & _ & Htr & Hec & _);
    [by eapply pending_id|]. rewrite Ec in E'. injection E' as <- <-.
  assert (∀ d x, dep_edge (sc_deps s) d x → x ≠ id → d = id ∨ dep_edge (sc_deps s') d x) as Hkeep.
  { intros d x (Hd & Hx & Hin) Hne. destruct (decide (d = id)) as [|Hdi]; [by left|right].
    assert (tracked (sc_deps s') d) as Hd' by (by apply Htr). split; [done|]. split; [by apply Htr|].
    by rewrite (completed_deps_of _ _ _ _ _ _ Ec Hd'). }
  assert (∀ d, done_or_gone jobs d → done_or_gone jobs' d) as Hmono by (intros d; by eapply done_or_gone_after).
  eapply waits_call; [done|done|exact Ha|done|done|done|done| | | |].
  - intros j0 d Hj0 Hd. apply Hmono. eapply waits_past; [done|exact Hj0|done|]. left. congruence.
  - intros x jx d Hx Hjx Hd. cbn. destruct (Hfb x Hx) as [Hxb Hxi]. pose proof (wa_truth _ _ Hw x jx d Hjx Hd) as Ht.
    unfold job_state in Hxb. rewrite Hjx in Hxb. injection Hxb as Hxb. rewrite Hxb in Ht. cbn in Ht.
    destruct Ht as [?|He]; [by apply Hmono|]. destruct (Hkeep d x He Hxi) as [->|(_ & _ & Hin)]; [done|].
    apply Hf in Hx as [(Hid & _) Hcount]. exfalso. apply deps_of_edges, count_id_elem in Hin.
    fold (edge_count (sc_deps s') x) in Hin. rewrite Hec in Hin by done. lia.
  - intros d x He Hne Hnin. destruct (Hkeep d x He Hne) as [->|?]; [by left|by right].
  - intros d x (Hd & Hx & Hin). rewrite (completed_deps_of _ _ _ _ _ _ Ec Hd) in Hin.
    apply Htr in Hd as [Hd _]. apply Htr in Hx as [Hx _]. done.
Qed.

(** Failing and cancelling share their end. *)
Lemma terminated_after t jobs id j st t' C rs rs' jobs' :
  waits t jobs → Arena_get jobs id = Some j → is_terminal (state j) = false → is_terminal st = true →
  tracker_on_terminated t id [] = Done (t', C) →
  apply_cascade rs (Arena_set jobs id (job_with_state j st)) C = Done (rs', jobs') →
  (∀ x, x ∈ C ↔ x ≠ id ∧ rtc (dep_edge t) id x) ∧ all_blocked jobs C ∧ deps_ok t' jobs' ∧
  state_after jobs id st C JobState.Cancelled jobs'.
Proof.
  intros Hw Hj Hnt Hterm Et Ea.
  assert (is_pending jobs id = true) as Hp by (apply is_pending_live; eauto).
  destruct (deps_ok_terminated t jobs id st (wa_deps _ _ Hw) Hp Hterm) as (t1 & C1 & E1 & Hnd & HC & Hb & Hok).
  rewrite Et in E1. injection E1 as <- <-.
  assert (state_after jobs id st C JobState.Cancelled jobs') as Ha.
  { eapply moved_state_after; [done|by intros Hx; destruct (Hb _ Hx)| |eapply cascade_moved; [exact Ea|done|]];
      (intros x Hx; destruct (Hb _ Hx) as [? ?]; by rewrite (job_state_set _ _ _ _ _ Hj), decide_False). }
  split; [done|]. split; [intros x Hx; by apply Hb|]. split; [by apply Hok|done].
Qed.

(** A call that ended a job: whatever it did besides, it cascaded from it. *)
Definition cascades (s : Scheduler) (jobs : Arena Job) (id : JobId) (st : JobState) (C : list JobId) (s' : Scheduler) (jobs' : Arena Job) : Prop :=
  ∃ j rs rs', Arena_get jobs id = Some j ∧ is_terminal (state j) = false ∧ is_terminal st = true ∧
    (st = JobState.Cancelled ∨ occupies_slot (state j) = true) ∧ st ≠ JobState.Completed ∧
    tracker_on_terminated (sc_deps s) id [] = Done (sc_deps s', C) ∧
    apply_cascade rs (Arena_set jobs id (job_with_state j st)) C = Done (rs', jobs').

Lemma failed_cascades s jobs id now config s' jobs' C :
  on_failed s id jobs now config = Done (s', jobs', Ok C) → cascades s jobs id JobState.Failed C s' jobs'.
Proof.
  intros E. unfold on_failed in E. destruct (Arena_get jobs id) as [j|] eqn:Hj; [|done].
  destruct (try_transition j JobState.Failed) as [j'|] eqn:Et; [|done]. apply try_transition_Ok in Et as [Hc ->].
  apply exec_bind_Done in E as (fs & _ & E). apply exec_bind_Done in E as ([t q] & Ec & E).
  apply exec_bind_Done in E as ([rs jobs1] & Ep & E). injection E as <- <- <-.
  eexists j, _, _. split; [done|]. split; [by destruct (state j)|]. split; [done|].
  split; [right; by destruct (state j)|done].
Qed.

Lemma cancel_cascades s jobs id now config s' jobs' C :
  cancel s id jobs now config = Done (s', jobs', Ok C) → cascades s jobs id JobState.Cancelled C s' jobs'.
Proof.
  intros E. unfold cancel in E. destruct (Arena_get jobs id) as [j|] eqn:Hj; [|done].
  apply exec_bind_Done in E as (rs0 & _ & E).
  destruct (try_transition j JobState.Cancelled) as [j'|] eqn:Et; [|done]. apply try_transition_Ok in Et as [Hc ->].
  apply exec_bind_Done in E as (fs & _ & E). apply exec_bind_Done in E as ([t q] & Ec & E).
  apply exec_bind_Done in E as ([rs jobs1] & Ep & E). injection E as <- <- <-.
  eexists j, _, _. split; [done|]. split; [by destruct (state j)|]. split; [done|]. by split; [left|].
Qed.

Lemma waits_terminated s jobs id st C s' jobs' :
  cascades s jobs id st C s' jobs' → waits (sc_deps s) jobs → arena_rel job_like jobs jobs' →
  edges (sc_deps s') ⊆ edges (sc_deps s) → waits (sc_deps s') jobs'.
Proof.
  intros (j & rs & rs' & Hj & Hnt & Hterm & Hst & Hnc & Et & Ea) Hw Hlike Hed. pose proof (wa_deps _ _ Hw) as Hdo.
  assert (is_pending jobs id = true) as Hp by (apply is_pending_live; eauto).
  destruct (terminated_after _ _ _ _ _ _ _ _ _ _ Hw Hj Hnt Hterm Et Ea) as (HC & Hab & Hok & Ha).
  destruct (tracker_on_terminated_spec (sc_deps s) id [] (do_wf _ _ Hdo)) as (t1 & C1 & E1 & _ & _ & _ & Htr & _); [exact (pending_id _ _ _ Hdo Hp)|].
  rewrite Et in E1. injection E1 as <- _.
  eapply waits_call; [done|done|exact Ha|done|done|done|done| |by intros| |].
  - intros j0 d Hj0 Hd. destruct Hst as [->|Ho]; [done|].
    assert (done_or_gone jobs' d) by (eapply done_or_gone_after; [done|exact Ha|done|done|]; eapply waits_past; [done|exact Hj0|done|left; congruence]).
    by destruct st.
  - intros d x (Hd & Hx & Hin) Hne Hnin. right.
    assert (¬ rtc (dep_edge (sc_deps s)) id x) as Hnx by (intros Hr; apply Hnin, HC; done).
    assert (¬ rtc (dep_edge (sc_deps s)) id d) as Hndr.
    { intros Hr. apply Hnx. eapply rtc_r; [exact Hr|]. by split. }
    assert (tracked (sc_deps s') d) as Hd' by (by apply Htr). split; [done|]. split; [by apply Htr|].
    destruct (cascade_deps_of _ _ _ _ _ _ _ d Et Hd') as [_ ->]. done.
  - intros d x (Hd & Hx & Hin). destruct (cascade_deps_of _ _ _ _ _ _ _ d Et Hd) as [? Ed]. rewrite Ed in Hin.
    apply Htr in Hx as [Hx _]. done.
Qed.

Lemma waits_failed s jobs id now config s' jobs' C :
  on_failed s id jobs now config = Done (s', jobs', Ok C) → waits (sc_deps s) jobs → waits (sc_deps s') jobs'.
Proof.
  intros E Hw. destruct (on_failed_frame s jobs now config id _ _ _ E).
  eapply waits_terminated; [by eapply failed_cascades|done..].
Qed.

Lemma waits_cancelled s jobs id now config s' jobs' C :
  cancel s id jobs now config = Done (s', jobs', Ok C) → waits (sc_deps s) jobs → waits (sc_deps s') jobs'.
Proof.
  intros E Hw. destruct (cancel_frame s jobs now config id _ _ _ E).
  eapply waits_terminated; [by eapply cancel_cascades|done..].
Qed.

(** A job past [Blocked] that moves to another such state. *)
Lemma waits_move t jobs id j j' :
  waits t jobs → Arena_get jobs id = Some j → job_like j j' →
  (occupies_slot (state j) = true ∨ state j = JobState.Ready) →
  (occupies_slot (state j') = true ∨ state j' = JobState.Ready) → waits t (Arena_set jobs id j').
Proof.
  intros Hw Hj Hlike Hs Hs'.
  assert (arena_rel job_like jobs (Arena_set jobs id j')) as Hr by (by eapply job_like_set).
  assert (state_after jobs id (state j') [] JobState.Ready (Arena_set jobs id j')) as Ha.
  { intros x. rewrite (job_state_set _ _ _ _ _ Hj). destruct (decide (id = x)) as [<-|].
    - by rewrite decide_True.
    - rewrite decide_False by done. rewrite decide_False; [done|]. apply not_elem_of_nil. }
  assert (is_pending jobs id = true) as Hp.
  { apply is_pending_live. exists j. split; [done|]. destruct (state j); naive_solver. }
  assert (all_blocked jobs []) as Hb by (intros x ?%elem_of_nil; done).
  eapply (waits_call t jobs t _ id (state j') [] JobState.Ready); [done|done|exact Ha|done|done| |done| | | |done].
  - eapply deps_ok_move; [apply Hw|done|..]; destruct (state j), (state j'); naive_solver.
  - intros j0 d Hj0 Hd. assert (done_or_gone (Arena_set jobs id j') d) as Hdone.
    { eapply done_or_gone_after; [done|exact Ha|done|done|]. rewrite Hj in Hj0. injection Hj0 as <-. by eapply waits_past. }
    destruct (state j'); naive_solver.
  - by intros x j0 d ?%elem_of_nil.
  - intros d x He _ _. by right.
Qed.

Lemma waits_requeue s jobs id j now config s' jobs' :
  requeue s id jobs now config = Done (s', jobs', Ok tt) → Arena_get jobs id = Some j → occupies_slot (state j) = true →
  waits (sc_deps s) jobs → waits (sc_deps s') jobs'.
Proof.
  intros E Hj Ho Hw. unfold requeue in E. rewrite Hj in E.
  assert (∃ j1, (if bool_decide (state j = JobState.Running) then try_transition j JobState.Preempted else Ok j) = Ok j1 ∧
    job_like j j1 ∧ state j1 = JobState.Preempted) as (j1 & E1 & Hl1 & Hs1).
  { unfold try_transition. destruct (state j) eqn:Es; try done; cbn; eexists; (split; [done|]); [|done].
    split; [apply job_like_state|done]. }
  rewrite E1 in E. unfold try_transition in E. rewrite Hs1 in E. cbn in E.
  apply exec_bind_Done in E as (fs & _ & E). apply exec_bind_Done in E as (rs & _ & E). injection E as <- <-. cbn.
  eapply (waits_move _ _ _ j1); [|by rewrite (Arena_set_get _ _ _ _ _ Hj), decide_True|apply job_like_state|rewrite Hs1; by left|by right].
  eapply waits_move; [done|done|done|by left|rewrite Hs1; by left].
Qed.

Lemma waits_evicted s jobs id now config s' jobs' :
  on_preempted s id jobs now config = Done (s', jobs', Ok tt) → waits (sc_deps s) jobs → waits (sc_deps s') jobs'.
Proof.
  intros E Hw. unfold on_preempted in E. destruct (Arena_get jobs id) as [j|] eqn:Hj; [|done].
  case_bool_decide as Hs; [|done]. cbn [negb] in E.
  eapply waits_requeue; [exact E|by rewrite (Arena_set_get _ _ _ _ _ Hj), decide_True|cbn; by rewrite Hs|].
  eapply waits_move; [done|done|apply job_like_preemptions|left; by rewrite Hs|left; cbn; by rewrite Hs].
Qed.

Lemma waits_preempt s jobs id s' jobs' :
  preempt s id jobs = (s', jobs', Ok tt) → waits (sc_deps s) jobs → waits (sc_deps s') jobs'.
Proof.
  intros E Hw. unfold preempt in E. destruct (Arena_get jobs id) as [j|] eqn:Hj; [|done].
  destruct (try_transition j JobState.Preempted) as [j'|] eqn:Et; [|done]. apply try_transition_Ok in Et as [Hc ->].
  injection E as <- <-. eapply waits_move; [done|done|apply job_like_state|left; by destruct (state j)|by left].
Qed.

(** Forgetting a finished job. *)
Lemma waits_forget t jobs id j :
  waits t jobs → Arena_get jobs id = Some j → is_terminal (state j) = true → JobId_generation id < u32_max →
  waits t (Arena_remove jobs id).1.
Proof.
  intros [H1 H2 H3 H4 H5 H6] Hj Ht Hg. destruct (Arena_remove_spec jobs id H1) as (_ & Hwf & Hget).
  assert (∀ x, job_state (Arena_remove jobs id).1 x = if decide (id = x) then None else job_state jobs x) as Hst.
  { intros x. unfold job_state. rewrite Hget. by case_decide. }
  assert (∀ x, issued jobs x → issued (Arena_remove jobs id).1 x) as Hiss by (intros x; by apply issued_remove).
  split; [done| | |by intros x ?%H4%Hiss| |].
  - rewrite (Arena_remove_live _ _ _ Hj). cbn. by rewrite length_insert.
  - eapply deps_ok_forget; [done| |exact Ht|done]. unfold job_state. by rewrite Hj.
  - intros x jx d. rewrite Hget. case_decide as Hne; [done|]. intros Hjx Hd. specialize (H5 x jx d Hjx Hd).
    assert (done_or_gone jobs d → done_or_gone (Arena_remove jobs id).1 d) as Hkeep.
    { intros [Hi Hd']. split; [by apply Hiss|]. intros st. rewrite Hst. case_decide; [done|]. apply Hd'. }
    destruct (state jx); cbn in *; naive_solver.
  - intros d x jx He. rewrite Hget. case_decide; [done|]. by apply H6.
Qed.

(** A new job waits for nothing yet. *)
Lemma waits_insert t jobs job jobs1 id :
  waits t jobs → state job = JobState.Submitted → Arena_insert jobs job = Done (jobs1, id) →
  Z.of_nat (length (slots jobs1)) <= u32_max →
  waits t jobs1 ∧ Arena_get jobs1 id = Some job ∧ id ∉ edges t ∧ ¬ tracked t id.
Proof.
  intros [H1 H2 H3 H4 H5 H6] Hs Hins Hsl.
  destruct (Arena_insert_spec jobs job H1 (Arena_insert_room _ _ _ _ Hins)) as (a' & id' & E' & _ & Hwf & Hnone & Hget).
  rewrite Hins in E'. injection E' as <- <-.
  destruct (issued_insert _ _ _ _ H1 Hins) as (Hni & Hi1 & Hiss).
  assert (∀ x, job_state jobs1 x = if decide (id = x) then Some JobState.Submitted else job_state jobs x) as Hst1.
  { intros x. unfold job_state. rewrite Hget. case_decide; [cbn; by rewrite Hs|done]. }
  destruct (deps_ok_fresh t jobs jobs1 id H3) as [Hdo1 Hnt];
    [unfold job_state; by rewrite Hnone|by intros ?%H4|exact (handle_not_sentinel jobs1 id Hsl Hi1)|done|].
  split; [|split; [by rewrite Hget, decide_True|split; [by intros ?%H4|done]]].
  split; [done|done|done|by intros x ?%H4%Hiss| |].
  - intros x j d. rewrite Hget. case_decide; [intros [= <-]; by rewrite Hs|]. intros Hj Hd.
    assert (done_or_gone jobs d → done_or_gone jobs1 d) as Hkeep.
    { intros [Hi Hd']. split; [by apply Hiss|]. intros st. rewrite Hst1. case_decide as E; [|apply Hd']. by subst d. }
    specialize (H5 x j d Hj Hd). destruct (state j); cbn in *; naive_solver.
  - intros d x j He. rewrite Hget. case_decide as Hx; [|by apply H6]. subst x. by destruct He as (_ & ? & _).
Qed.

(** A submitted job is classified by the states of its dependencies. *)
Lemma waits_submit s jobs id job now config s' jobs' st :
  waits (sc_deps s) jobs → Arena_get jobs id = Some job → state job = JobState.Submitted →
  Z.of_nat (length (deps job)) <= u32_max → ¬ tracked (sc_deps s) id →
  submit s id jobs now config = Done (s', jobs', Ok st) → waits (sc_deps s') jobs'.
Proof.
  intros [H1 H2 H3 H4 H5 H6] Hj Hs Hlen Hnt E.
  assert (is_pending jobs id = true) as Hp by (apply is_pending_live; exists job; by rewrite Hs).
  destruct (submit_frame _ _ _ _ _ _ _ _ E) as [Hlike Hed].
  unfold submit in E. rewrite Hj in E. destruct (negb _); [done|]. destruct (ensure _ _) as [fs [u|]]; [|done].
  destruct (register_spec (sc_deps s) jobs id job (do_wf _ _ H3) (do_arena _ _ H3) Hp Hnt Hlen) as (t & r & Er & Ecl & Hreg).
  rewrite Er in E. cbn [exec_bind] in E. destruct r as [rd|]; [|done]. cbn [expect exec_bind] in E.
  pose proof (classify_spec id job jobs Hlen) as Hcl. rewrite <-Ecl in Hcl.
  assert (try_transition job (readiness_state rd) = Ok (job_with_state job (readiness_state rd))) as Et.
  { unfold try_transition. rewrite Hs. by destruct rd. }
  rewrite Et in E. apply exec_bind_Done in E as (rs & _ & E). injection E as <- <- <-. cbn in Hed |- *.
  set (job' := job_with_state job (readiness_state rd)) in *.
  assert (∀ x, Arena_get (Arena_set jobs id job') x = if decide (id = x) then Some job' else Arena_get jobs x) as Hget'.
  { intros x. rewrite (Arena_set_get _ _ _ _ _ Hj). by case_decide. }
  assert (∀ d, d ≠ id → job_state (Arena_set jobs id job') d = job_state jobs d) as Hold.
  { intros d Hd. unfold job_state. by rewrite Hget', decide_False. }
  assert (∀ d, done_or_gone jobs d → done_or_gone (Arena_set jobs id job') d) as Hkeep.
  { intros d [Hi Hd]. split; [by eapply issued_rel|]. rewrite Hold; [done|]. intros ->.
    unfold job_state in Hd. rewrite Hj in Hd. specialize (Hd _ eq_refl). congruence. }
  assert (∀ d, dep_ok id jobs d → is_pending jobs d = false → done_or_gone (Arena_set jobs id job') d) as Hcomp.
  { intros d (Hne & jd & Hjd & Hdead) Hpd. apply Hkeep.
    split; [by eapply issued_live|]. intros st'. unfold job_state. rewrite Hjd. intros [= <-].
    unfold is_pending in Hpd. rewrite Hjd in Hpd. by destruct (state jd). }
  assert (deps_ok t (Arena_set jobs id job') ∧
    (∀ d x, dep_edge (sc_deps s) d x → dep_edge t d x) ∧
    (∀ d, d ∈ deps job → waits_for t (Arena_set jobs id job') id (readiness_state rd) d) ∧
    (∀ d x, dep_edge t d x → dep_edge (sc_deps s) d x ∨ (x = id ∧ d ∈ deps job))) as (Hdo' & Hedge & Hself & Hback).
  { assert (Forall (dep_ok id jobs) (deps job) → registered (sc_deps s) jobs id (deps job) t →
      (∀ d x, dep_edge (sc_deps s) d x → dep_edge t d x) ∧
      (∀ d, d ∈ deps job → done_or_gone (Arena_set jobs id job') d ∨ (is_pending jobs d = true ∧ dep_edge t d id)) ∧
      (∀ d x, dep_edge t d x → dep_edge (sc_deps s) d x ∨ (x = id ∧ d ∈ deps job))) as Hr.
    { intros Hok Hrg. split; [intros d x He; apply (rg_edge _ _ _ _ _ Hrg); by left|].
      split; [|intros d x [?|(? & ? & _)]%(rg_edge _ _ _ _ _ Hrg); auto]. intros d Hd.
      rewrite Forall_forall in Hok. destruct (is_pending jobs d) eqn:Epd; [right|left; by apply Hcomp; auto].
      split; [done|]. apply (rg_edge _ _ _ _ _ Hrg). by right. }
    destruct rd; cbn in Hcl, Hreg |- *.
    - destruct Hcl as [Hok Hz]. destruct (Hr Hok Hreg) as (? & Hd & ?). split; [|split; [done|split; [|done]]].
      + eapply (deps_ok_registered (sc_deps s) jobs id job); [done..|exact Hreg|]. rewrite decide_False by lia. done.
      + intros d Hin. destruct (Hd d Hin) as [?|[Hpd _]]; [done|]. exfalso. revert Hz.
        unfold count_pending, count_if. assert (d ∈ List.filter (is_pending jobs) (deps job)) as Hf by (by apply elem_of_List_filter).
        destruct (List.filter _ _); [by apply elem_of_nil in Hf|cbn; lia].
    - destruct Hcl as [Hok Hz]. destruct (Hr Hok Hreg) as (? & Hd & ?). split; [|split; [done|split; [|done]]].
      + eapply (deps_ok_registered (sc_deps s) jobs id job); [done..|exact Hreg|]. rewrite decide_True by lia. done.
      + intros d Hin. destruct (Hd d Hin) as [?|[_ ?]]; auto.
    - subst t. split; [by apply deps_ok_doomed|]. split; [done|]. split; [by intros|by left]. }
  split; [by eapply arena_rel_wf|by rewrite length_slots_set|done| | |].
  - intros x [->|Hx]%Hed%elem_of_cons; (eapply issued_rel; [exact Hlike|]); [by eapply issued_live|by apply H4].
  - intros x j d. rewrite Hget'. case_decide as Hx; [intros [= <-]; subst x; apply Hself|]. intros Hjx Hd.
    specialize (H5 x j d Hjx Hd). destruct (state j); cbn in *; naive_solver.
  - intros d x j He. rewrite Hget'. destruct (Hback d x He) as [He0|[-> Hd]].
    + case_decide as Hx; [|by apply H6]. subst x. by destruct He0 as (_ & ? & _).
    + rewrite decide_True by done. by intros [= <-].
Qed.

(** ** Along every run *)

Lemma waits_event config s jobs r s' jobs' :
  record_fits r → log_event config s jobs r s' jobs' → waits (sc_deps s) jobs → waits (sc_deps s') jobs'.
Proof.
  intros [[_ Hfit] _] Hev Hw. destruct Hev.
  - destruct Hfit as [_ Hd _]. destruct (waits_insert _ _ job jobs1 id Hw) as (Hw1 & Hj & _ & Hnt); [done..|].
    by eapply waits_submit.
  - eapply waits_move; [done|done|apply job_like_state|by right|by left].
  - by eapply waits_completed.
  - by eapply waits_failed.
  - by eapply waits_cancelled.
  - by eapply waits_requeue.
  - by eapply waits_evicted.
  - by eapply waits_preempt.
  - by eapply waits_forget.
Qed.

Lemma waits_trace config s jobs rs s' jobs' :
  log_trace config s jobs rs s' jobs' → waits (sc_deps s) jobs → waits (sc_deps s') jobs'.
Proof.
  induction 1 as [|s s1 jobs rs s' jobs' Ed _ IH|s jobs r s1 jobs1 rs s' jobs' Hf Hev _ IH]; intros Hw; [done| |].
  - apply IH. by rewrite Ed.
  - apply IH. by eapply waits_event.
Qed.

Lemma waits_step hash e e' :
  step_ok hash e e' → waits (sc_deps (eg_scheduler e)) (eg_jobs e) → waits (sc_deps (eg_scheduler e')) (eg_jobs e').
Proof. intros [_ _ (rs & Ht & _)]. by eapply waits_trace. Qed.

Lemma waits_new t : deps_ok t Arena_new → edges t = [] → waits t Arena_new.
Proof.
  intros Hd He. split; [apply Arena_wf_new|cbn; lia|done| | |].
  - rewrite He. by intros x ?%elem_of_nil.
  - intros x j d. by rewrite Arena_get_new.
  - intros d x j _. by rewrite Arena_get_new.
Qed.

Lemma runs_waits hash {Q : Type → Type} `{ArrayQueue Q} e0 e (w : World Q) sent :
  Engine_inv e0 → waits (sc_deps (eg_scheduler e0)) (eg_jobs e0) → runs hash e0 e w sent →
  waits (sc_deps (eg_scheduler e)) (eg_jobs e).
Proof.
  intros He0 Hw0 Hr.
  induction Hr as [w|e w sent c now e' w' Hr IH Hc Hnow Eh|e w sent now e3 w3 e' w' out new Hr IH Hnow Hg _ _ Et _
    |e w sent b _ IH|e w sent w' _ IH|e w sent j _ IH _]; [done| | |done|done|done].
  - destruct (runs_inv hash _ _ _ _ He0 Hr) as [He _].
    destruct (handle_ok hash e w c now He Hnow Hc) as (e1 & w1 & E1 & Hs). rewrite Eh in E1. injection E1 as <- <-.
    by eapply waits_step.
  - destruct (runs_inv hash _ _ _ _ He0 Hr) as [He _].
    destruct (tick_ok hash e w now He Hnow Hg) as (e4 & w4 & o & _ & Hs & _ & Et' & _). rewrite Et in Et'.
    injection Et' as -> -> ->.
    destruct (commit_journal_form (with_journal e4 (batched hash e4 now <$> eg_journal e4)) w4) as [jr ->].
    apply (waits_step _ _ _ Hs IH).
Qed.

Lemma reaches_waits hash {Q : Type → Type} `{ArrayQueue Q} config journal e (w : World Q) sent :
  daemon_config_ok config → reaches hash config journal e w sent → waits (sc_deps (eg_scheduler e)) (eg_jobs e).
Proof.
  intros Hcfg (e0 & Eb & Hr). destruct (build_ok config journal Hcfg) as (e1 & E1 & He & Hj & _ & _ & Hed).
  rewrite Eb in E1. injection E1 as <-. eapply runs_waits; [exact He| |exact Hr].
  rewrite Hj. apply waits_new; [|done]. rewrite <-Hj. apply He.
Qed.

(** ** Edges, seen from the arena *)

(** The job [b] is blocked by the unfinished job [a]. *)
Definition blocks (jobs : Arena Job) (a b : JobId) : Prop :=
  is_pending jobs a = true ∧ ∃ j, Arena_get jobs b = Some j ∧ state j = JobState.Blocked ∧ a ∈ deps j.

(** The tracker says no more and no less than the arena. *)
Lemma dep_edge_blocks t jobs a b : waits t jobs → dep_edge t a b ↔ blocks jobs a b.
Proof.
  intros Hw. pose proof (wa_deps _ _ Hw) as Hd. split.
  - intros He. pose proof He as (Ha & Hb & Hin). split; [by apply (ta_live _ _ (do_arena _ _ Hd))|].
    assert (job_state jobs b = Some JobState.Blocked) as Hs.
    { apply (do_blocked _ _ Hd). split; [done|]. apply count_id_elem. by eapply deps_of_edges. }
    unfold job_state in Hs. destruct (Arena_get jobs b) as [j|] eqn:Hj; [|done]. injection Hs as Hs.
    exists j. do 2 (split; [done|]). by eapply wa_sound.
  - intros (Hp & j & Hj & Hs & Hin). pose proof (wa_truth _ _ Hw b j a Hj Hin) as Ht. rewrite Hs in Ht.
    destruct Ht as [[_ Hc]|?]; [|done]. rewrite is_pending_state in Hp. destruct (job_state jobs a) as [st|]; [|done].
    by rewrite (Hc _ eq_refl) in Hp.
Qed.

(** A blocked job has something to wait for. *)
Lemma blocked_by t jobs x :
  waits t jobs → job_state jobs x = Some JobState.Blocked → ∃ a, blocks jobs a x.
Proof.
  intros Hw Hs. apply (do_blocked _ _ (wa_deps _ _ Hw)) in Hs as [Hx Hc]. apply count_id_elem in Hc.
  destruct (blocked_edge t x (do_wf _ _ (wa_deps _ _ Hw)) Hc Hx) as (a & Ha). exists a.
  by apply (dep_edge_blocks _ _ _ _ Hw).
Qed.

(** ** The states after a call, from the arena alone *)

Lemma completed_wakes s jobs id now config s' jobs' p :
  on_completed s id jobs now config = Done (s', jobs', Ok p) → waits (sc_deps s) jobs →
  ∀ x, x ∈ p ↔ job_state jobs x = Some JobState.Blocked ∧ ∀ a, blocks jobs a x → a = id.
Proof.
  intros E Hw x. pose proof (waits_completed _ _ _ _ _ _ _ _ E Hw) as Hw'.
  destruct (completed_after _ _ _ _ _ _ _ _ E Hw) as (j & Hj & Hocc & Hp & _ & _ & _ & Hb & Ha).
  destruct (on_completed_frame s jobs now config id _ _ _ E) as [Hlike _]. split.
  - intros Hx. destruct (Hb x Hx) as [Hs Hne]. split; [done|]. intros a (Hpa & jx & Hjx & _ & Hin).
    destruct (decide (a = id)) as [|Hai]; [done|exfalso].
    destruct (arena_rel_Some_l _ _ _ _ _ Hlike Hjx) as (jx' & Hjx' & Hl).
    destruct (job_like_fields _ _ Hl) as (_ & _ & _ & _ & Ed & _). rewrite <-Ed in Hin.
    pose proof (Ha x) as Hs'. rewrite decide_False, decide_True in Hs' by done. unfold job_state in Hs'. rewrite Hjx' in Hs'. injection Hs' as Hs'.
    destruct (waits_past _ _ _ _ _ Hw' Hjx' Hin) as [_ Hc]; [by right|].
    rewrite is_pending_state in Hpa. pose proof (Ha a) as Hsa. rewrite decide_False in Hsa by done.
    destruct (decide (a ∈ p)); [by specialize (Hc _ Hsa)|]. rewrite Hsa in Hc. destruct (job_state jobs a) as [st|]; [|done].
    by rewrite (Hc _ eq_refl) in Hpa.
  - intros [Hs Hall]. destruct (decide (x ∈ p)) as [|Hn]; [done|exfalso].
    assert (x ≠ id) as Hne. { intros ->. unfold job_state in Hs. rewrite Hj in Hs. injection Hs as Hs. by rewrite Hs in Hocc. }
    assert (job_state jobs' x = Some JobState.Blocked) as Hs' by (rewrite (Ha x), decide_False, decide_False by done; done).
    destruct (blocked_by _ _ _ Hw' Hs') as (a & Hpa & jx' & Hjx' & _ & Hin).
    destruct (arena_rel_Some _ _ _ _ _ Hlike Hjx') as (jx & Hjx & Hl).
    destruct (job_like_fields _ _ Hl) as (_ & _ & _ & _ & Ed & _). rewrite Ed in Hin.
    unfold job_state in Hs. rewrite Hjx in Hs. injection Hs as Hs.
    rewrite is_pending_state, (Ha a) in Hpa. destruct (decide (a = id)) as [|Hai]; [done|].
    apply Hai, Hall. split; [|eauto]. rewrite is_pending_state.
    destruct (decide (a ∈ p)) as [Hap|]; [|done]. by destruct (Hb a Hap) as [-> _].
Qed.

Lemma cascades_after s jobs id st C s' jobs' :
  cascades s jobs id st C s' jobs' → waits (sc_deps s) jobs →
  (∀ x, x ∈ C ↔ x ≠ id ∧ rtc (blocks jobs) id x) ∧ state_after jobs id st C JobState.Cancelled jobs'.
Proof.
  intros (j & rs & rs' & Hj & Hnt & Hterm & Hst & Hnc & Et & Ea) Hw.
  destruct (terminated_after _ _ _ _ _ _ _ _ _ _ Hw Hj Hnt Hterm Et Ea) as (HC & _ & _ & Ha). split; [|done].
  intros x. rewrite HC. split; intros [? Hr]; (split; [done|]); revert Hr; apply (rtc_congruence (fun z => z));
    intros a b; by apply (dep_edge_blocks _ _ _ _ Hw).
Qed.

(** ** Properties *)

(** C4: No job starts before its dependencies are done.  In every engine that can
    be reached, a job that is ready, running, evicted, completed or failed has
    only dependencies that completed, as far as they have not been forgotten
    since; and each dependency of a blocked job that has not completed is live,
    unfinished and recorded to wake it. *)
Theorem jobs_wait_for_their_dependencies hash {Q : Type → Type} `{ArrayQueue Q} config journal e (w : World Q) sent :
  daemon_config_ok config → reaches hash config journal e w sent →
  ∀ x j d, Arena_get (eg_jobs e) x = Some j → d ∈ deps j →
  (state j ∈ [JobState.Ready; JobState.Running; JobState.Preempted; JobState.Completed; JobState.Failed] →
     job_state (eg_jobs e) d = Some JobState.Completed ∨ gone (eg_jobs e) d) ∧
  (state j = JobState.Blocked →
     job_state (eg_jobs e) d = Some JobState.Completed ∨ gone (eg_jobs e) d ∨
     (dep_edge (sc_deps (eg_scheduler e)) d x ∧ is_pending (eg_jobs e) d = true)).
Proof.
  intros Hcfg Hr x j d Hj Hd. pose proof (reaches_waits _ _ _ _ _ _ Hcfg Hr) as Hw.
  pose proof (wa_truth _ _ Hw x j d Hj Hd) as Ht.
  assert (done_or_gone (eg_jobs e) d → job_state (eg_jobs e) d = Some JobState.Completed ∨ gone (eg_jobs e) d) as Hdone.
  { intros [Hi Hc]. destruct (job_state (eg_jobs e) d) as [st|] eqn:Es; [left; by rewrite (Hc _ eq_refl)|right].
    split; [|done]. unfold job_state in Es. by destruct (Arena_get (eg_jobs e) d). }
  split.
  - intros Hin. apply Hdone. destruct (state j); try exact Ht; set_solver.
  - intros Hs. rewrite Hs in Ht. destruct Ht as [Hdg|He]; [destruct (Hdone Hdg); auto|].
    right; right. split; [done|]. by apply (ta_live _ _ (do_arena _ _ (wa_deps _ _ Hw))), He.
Qed.

Lemma jobs_wait_for_their_dependencies_witness :
  let jobs := eg_jobs demo_ticked.1.1 in
  job_state jobs 1 = Some JobState.Blocked ∧
  (job_state jobs 0 = Some JobState.Completed ∨ gone jobs 0 ∨
   (dep_edge (sc_deps (eg_scheduler demo_ticked.1.1)) 0 1 ∧ is_pending jobs 0 = true)).
Proof.
  split; [vm_compute; reflexivity|].
  eapply (jobs_wait_for_their_dependencies crc32 demo_daemon_config (Some (Journal_new 1000000)) demo_ticked.1.1
    demo_ticked.1.2 (w_commits demo_ticked.1.2) demo_daemon_config_ok demo_ticked_reaches 1).
  - vm_compute. reflexivity.
  - by left.
  - reflexivity.
Defined.
