(* ===== verification/EngineWal.v ===== *)
(** * Write-ahead in the engine

    With a journal, everything a client or a worker may act on waits in the
    batch that carries its record: an accepted submission or cancellation is
    answered, and an assignment or an eviction is sent, only by the log writer
    once that batch is durable.  Only kills go out at once.  The theorems account
    for every answer and every dispatch of a command and of a tick. *)

From stdpp Require Import base strings list numbers option sets relations.
From Stdlib Require Import ZArith Lia.
From S2P Require Import Prelude Domain Arena Job Inventory Priority ReadySet Eligibility.
From S2P Require Import Decay FairShare Pack Backfill Preempt Scheduler Cycle Frame.
From S2P Require Import Codec LogRecord Log Snapshot Store Journal Command Engine EngineInv EngineSteps EngineTick EngineRun.
Open Scope Z_scope.
Open Scope list_scope.

Section Wal.
Context (hash : bytes → Z) {Q : Type → Type} `{ArrayQueueLaws Q}.

(** What a step of the engine put where. *)
Record Effects : Type := MkEffects {
  ef_records : list LogRecord;
  ef_held : list Dispatch;
  ef_deferred : list Answer;
  ef_sent : list Dispatch;
  ef_answered : list Answer;
}.

Definition no_effects : Effects := MkEffects [] [] [] [] [].

Definition then_effects (a b : Effects) : Effects :=
  MkEffects (ef_records a ++ ef_records b) (ef_held a ++ ef_held b) (ef_deferred a ++ ef_deferred b)
    (ef_sent a ++ ef_sent b) (ef_answered a ++ ef_answered b).

(** The journal's pending batch grew by records, held dispatches and deferred
    answers, each list in order. *)
Inductive journal_run : EngineJournal → list LogRecord → list Dispatch → list Answer → EngineJournal → Prop :=
| jn_nil j : journal_run j [] [] [] j
| jn_record j r j1 rs ds acks j2 :
    journal_record hash j r = Done j1 → journal_run j1 rs ds acks j2 → journal_run j (r :: rs) ds acks j2
| jn_hold j d rs ds acks j2 :
    journal_run (hold j d) rs ds acks j2 → journal_run j rs (d :: ds) acks j2
| jn_defer j a rs ds acks j2 :
    journal_run (defer j a) rs ds acks j2 → journal_run j rs ds (a :: acks) j2.

Lemma journal_run_app j rs ds acks j1 rs' ds' acks' j2 :
  journal_run j rs ds acks j1 → journal_run j1 rs' ds' acks' j2 →
  journal_run j (rs ++ rs') (ds ++ ds') (acks ++ acks') j2.
Proof. intros H1 H2. induction H1; simpl; eauto using journal_run. Qed.

(** The batch itself: what [journal_run] leaves in it. *)
Lemma journal_run_batch j rs ds acks' j' :
  journal_run j rs ds acks' j' →
  dispatches (jr_pending j') = dispatches (jr_pending j) ++ ds ∧
  acks (jr_pending j') = acks (jr_pending j) ++ acks' ∧
  (Forall record_fits rs → ∀ rb osn rf, pending_ok hash j rb osn rf → pending_ok hash j' rb osn (rf ++ rs)).
Proof.
  induction 1 as [j|j r j1 rs ds acks' j2 E _ (IH1 & IH2 & IH3)|j d rs ds acks' j2 _ (IH1 & IH2 & IH3)
    |j a rs ds acks' j2 _ (IH1 & IH2 & IH3)].
  - rewrite !app_nil_r. split; [done|]. split; [done|]. intros _ rb osn rf Hp. by rewrite app_nil_r.
  - pose proof E as E0. unfold journal_record in E0. apply exec_bind_Done in E0 as (fs & _ & E0). injection E0 as <-.
    split; [done|]. split; [done|]. intros (Hr & Hrs)%Forall_cons rb osn rf Hp.
    destruct (pending_record hash j rb osn rf r Hp Hr) as (j1 & E1 & Hp1 & _). rewrite E in E1. injection E1 as <-.
    rewrite (app_assoc rf [r] rs : rf ++ r :: rs = _). by apply IH3.
  - rewrite IH1. simpl. rewrite <-app_assoc. split; [done|]. split; [done|]. intros Hrs rb osn rf [P1 P2 P3 P4 P5 P6].
    apply IH3; [done|]. by split.
  - rewrite IH2. simpl. rewrite <-app_assoc. split; [done|]. split; [done|]. intros Hrs rb osn rf [P1 P2 P3 P4 P5 P6].
    apply IH3; [done|]. by split.
Qed.

(** Dispatches on their way out: in the outbox or waiting for room in it. *)
Definition outgoing (e : Engine) (w : World Q) : list Dispatch := q_items (w_outbox w) ++ eg_overflow e.

(** One step of an engine with a journal, and where its effects went. *)
Record wal_step (ew ew' : Engine * World Q) (f : Effects) : Prop := {
  ws_journal : ∃ j j', eg_journal ew.1 = Some j ∧ eg_journal ew'.1 = Some j' ∧
    journal_run j (ef_records f) (ef_held f) (ef_deferred f) j';
  ws_sent : outgoing ew'.1 ew'.2 ≡ₚ outgoing ew.1 ew.2 ++ ef_sent f;
  ws_answers : w_answers ew'.2 = w_answers ew.2 ++ ef_answered f;
  ws_channel : w_commits ew'.2 = w_commits ew.2;
}.

Lemma wal_trans ew1 ew2 ew3 f g : wal_step ew1 ew2 f → wal_step ew2 ew3 g → wal_step ew1 ew3 (then_effects f g).
Proof.
  intros [(j1 & j2 & E1 & E2 & R1) S1 A1 C1] [(j2' & j3 & E2' & E3 & R2) S2 A2 C2]. rewrite E2 in E2'. injection E2' as <-.
  split; simpl.
  - exists j1, j3. split; [done|]. split; [done|]. by eapply journal_run_app.
  - rewrite S2, S1. by rewrite app_assoc.
  - by rewrite A2, A1, app_assoc.
  - by rewrite C2, C1.
Qed.

(** ** The primitives *)

(** A step that touches neither the journal nor the outgoing queues. *)
Lemma wal_quiet e e' (w : World Q) j :
  eg_journal e = Some j → eg_journal e' = Some j → eg_overflow e' = eg_overflow e → wal_step (e, w) (e', w) no_effects.
Proof.
  intros E E' Ho. split; simpl.
  - exists j, j. split; [done|]. split; [done|]. constructor.
  - unfold outgoing. by rewrite Ho, app_nil_r.
  - by rewrite app_nil_r.
  - done.
Qed.

Lemma wal_record e (w : World Q) r e' j :
  eg_journal e = Some j → record hash e r = Done e' → wal_step (e, w) (e', w) (MkEffects [r] [] [] [] []).
Proof.
  intros E Er. unfold record in Er. rewrite E in Er. apply exec_bind_Done in Er as (j1 & E1 & Er). injection Er as <-.
  split; simpl; [|unfold outgoing; simpl; by rewrite app_nil_r|by rewrite app_nil_r|done].
  exists j, j1. split; [done|]. split; [done|]. eapply jn_record; [done|constructor].
Qed.

Lemma wal_hold e (w : World Q) d j :
  eg_journal e = Some j → wal_step (e, w) (dispatch_durably e w d) (MkEffects [] [d] [] [] []).
Proof.
  intros E. unfold dispatch_durably. rewrite E.
  split; simpl; [|unfold outgoing; simpl; by rewrite app_nil_r|by rewrite app_nil_r|done].
  exists j, (hold j d). split; [done|]. split; [done|]. apply jn_hold. constructor.
Qed.

Lemma wal_defer e (w : World Q) a j :
  eg_journal e = Some j → wal_step (e, w) (answer_durably e w a) (MkEffects [] [] [a] [] []).
Proof.
  intros E. unfold answer_durably. rewrite E.
  split; simpl; [|unfold outgoing; simpl; by rewrite app_nil_r|by rewrite app_nil_r|done].
  exists j, (defer j a). split; [done|]. split; [done|]. apply jn_defer. constructor.
Qed.

Lemma wal_answer e (w : World Q) a j :
  eg_journal e = Some j → wal_step (e, w) (e, answer w a) (MkEffects [] [] [] [] [a]).
Proof.
  intros E. split; simpl; [|unfold outgoing; simpl; by rewrite app_nil_r|done|done].
  exists j, j. split; [done|]. split; [done|]. constructor.
Qed.

Lemma wal_push e (w : World Q) d j :
  eg_journal e = Some j → wal_step (e, w) (push_dispatch e w d) (MkEffects [] [] [] [d] []).
Proof.
  intros E. unfold push_dispatch, outbox_push. destruct (q_push_cases (w_outbox w) d) as [(q' & -> & Hq & _)|[-> _]].
  - split; simpl; [exists j, j; split_and!; [done|done|constructor]| |by rewrite app_nil_r|done].
    unfold outgoing. simpl. rewrite Hq. by solve_Permutation.
  - split; simpl; [exists j, j; split_and!; [done|done|constructor]| |by rewrite app_nil_r|done].
    unfold outgoing. simpl. by rewrite app_assoc.
Qed.

(** ** What write-ahead means *)

Definition is_kill (d : Dispatch) : Prop := match d with Dispatch.Kill _ _ => True | _ => False end.

(** An answer that promises nothing about the log. *)
Definition no_promise (a : Answer) : Prop :=
  match a with
  | Answer.Submit _ (Ok _) | Answer.Cancel _ (Ok _) => False
  | _ => True
  end.

Record write_ahead (f : Effects) : Prop := {
  wa_held : Forall (dispatch_logged (ef_records f)) (ef_held f);
  wa_deferred : Forall (answer_logged (ef_records f)) (ef_deferred f);
  wa_sent : Forall is_kill (ef_sent f);
  wa_answered : Forall no_promise (ef_answered f);
}.

Lemma write_ahead_then f g : write_ahead f → write_ahead g → write_ahead (then_effects f g).
Proof.
  intros [F1 F2 F3 F4] [G1 G2 G3 G4].
  split; simpl; apply Forall_app; (split; [|try done]); try done; try (eapply Forall_impl; [eassumption|]);
    intros ?; first [apply dispatch_logged_mono|apply answer_logged_mono]; set_solver.
Qed.

Lemma write_ahead_none : write_ahead no_effects.
Proof. by split. Qed.

Lemma write_ahead_record r : write_ahead (MkEffects [r] [] [] [] []).
Proof. by split. Qed.

(** A step that keeps to it, if it returns. *)
Definition durable (ew : Engine * World Q) (o : exec (Engine * World Q)) : Prop :=
  is_Some (eg_journal ew.1) → ∀ ew', o = Done ew' → ∃ f, wal_step ew ew' f ∧ write_ahead f.

(** The same for the functions that only return the engine. *)
Definition durable_engine (e : Engine) (o : exec Engine) : Prop :=
  ∀ w : World Q, durable (e, w) (let! e := o in Done (e, w)).

Lemma wal_step_journal ew ew' f : wal_step ew ew' f → is_Some (eg_journal ew'.1).
Proof. intros [(j & j' & _ & E & _) _ _]. rewrite E. eauto. Qed.

Lemma durable_bind ew m k :
  durable ew m → (∀ ew1, durable ew1 (k ew1)) → durable ew (exec_bind m k).
Proof.
  intros Hm Hk Hj ew' E. apply exec_bind_Done in E as (ew1 & E1 & E).
  destruct (Hm Hj _ E1) as (f & Hf & Wf). destruct (Hk ew1 (wal_step_journal _ _ _ Hf) _ E) as (g & Hg & Wg).
  exists (then_effects f g). split; [by eapply wal_trans|by apply write_ahead_then].
Qed.

Lemma durable_engine_bind e (w : World Q) m k :
  durable_engine e m → (∀ e1, durable (e1, w) (k e1)) → durable (e, w) (exec_bind m k).
Proof.
  intros Hm Hk. assert (exec_bind m k = exec_bind (let! e := m in Done (e, w)) (fun ew => k ew.1)) as E by by destruct m.
  intros Hj ew' E'. rewrite E in E'. apply exec_bind_Done in E' as ([e1 w1] & E1 & E').
  assert (w1 = w) as -> by (destruct m; simpl in E1; congruence).
  destruct (Hm w Hj _ E1) as (f & Hf & Wf). destruct (Hk e1 (wal_step_journal _ _ _ Hf) _ E') as (g & Hg & Wg).
  exists (then_effects f g). split; [by eapply wal_trans|by apply write_ahead_then].
Qed.

Lemma durable_fold {A} (f : Engine * World Q → A → exec (Engine * World Q)) l ew :
  (∀ ew x, durable ew (f ew x)) → durable ew (exec_fold f ew l).
Proof.
  intros Hf. revert ew. induction l as [|x l IH]; intros [e w]; cbn [exec_fold].
  - intros [j Hj] ew' [= <-]. exists no_effects. split; [by eapply wal_quiet|apply write_ahead_none].
  - by apply durable_bind.
Qed.

Lemma durable_engine_fold {A} (f : Engine → A → exec Engine) l e :
  (∀ e x, durable_engine e (f e x)) → durable_engine e (exec_fold f e l).
Proof.
  intros Hf. revert e. induction l as [|x l IH]; intros e w; cbn [exec_fold].
  - intros [j Hj] ew' [= <-]. exists no_effects. split; [by eapply wal_quiet|apply write_ahead_none].
  - assert (∀ m : exec Engine, (let! e := exec_bind m (fun b => exec_fold f b l) in Done (e, w))
      = exec_bind m (fun b => let! e := exec_fold f b l in Done (e, w))) as -> by by intros [].
    apply durable_engine_bind; [apply Hf|]. intros e1. apply IH.
Qed.

(** Nothing but other fields of the engine changed. *)
Lemma durable_done e e' (w : World Q) :
  eg_journal e' = eg_journal e → eg_overflow e' = eg_overflow e → durable (e, w) (Done (e', w)).
Proof.
  intros Hj Ho [j Ej] ew' [= <-]. exists no_effects. split; [|apply write_ahead_none]. simpl in Ej.
  eapply wal_quiet; [done|by rewrite Hj|done].
Qed.

(** Taking the other fields back a step. *)
Lemma durable_from e e1 (w : World Q) o :
  eg_journal e1 = eg_journal e → eg_overflow e1 = eg_overflow e → durable (e1, w) o → durable (e, w) o.
Proof.
  intros Hj Ho Hd [j Ej] ew' E. destruct (Hd ltac:(simpl in *; rewrite Hj; eauto) ew' E) as (f & [W1 W2 W3 W4] & Wf).
  exists f. split; [|done]. split; simpl in *; [by rewrite Hj in W1| |done|done]. unfold outgoing in *. simpl in *. by rewrite Ho in W2.
Qed.

Lemma durable_record e r : durable_engine e (record hash e r).
Proof.
  intros w [j Ej] ew' E. apply exec_bind_Done in E as (e1 & E1 & E). injection E as <-.
  exists (MkEffects [r] [] [] [] []). split; [by eapply wal_record|apply write_ahead_record].
Qed.

Lemma durable_push_kill e (w : World Q) slot id : durable (e, w) (Done (push_dispatch e w (Dispatch.Kill slot id))).
Proof.
  intros [j Ej] ew' [= <-]. exists (MkEffects [] [] [] [Dispatch.Kill slot id] []). split; [by eapply wal_push|].
  split; simpl; try constructor; done.
Qed.

Lemma durable_answer e (w : World Q) a : no_promise a → durable (e, w) (Done (e, answer w a)).
Proof.
  intros Ha [j Ej] ew' [= <-]. exists (MkEffects [] [] [] [] [a]). split; [by eapply wal_answer|].
  split; simpl; try constructor; done.
Qed.

(** A record, then the dispatch it makes safe. *)
Lemma durable_logged_dispatch e (w : World Q) r d :
  dispatch_logged [r] d → durable (e, w) (let! e := record hash e r in Done (dispatch_durably e w d)).
Proof.
  intros Hd [j Ej] ew' E. apply exec_bind_Done in E as (e1 & E1 & E). injection E as <-.
  pose proof (wal_record e w r e1 j Ej E1) as W1. destruct (wal_step_journal _ _ _ W1) as [j1 Ej1].
  eexists. split; [eapply wal_trans; [exact W1|by eapply wal_hold]|]. by split; simpl; repeat constructor.
Qed.

(** ** The handlers *)

(** The parts of the engine that touch neither the journal nor the overflow. *)
Lemma release_job_fields e id e1 o :
  release_job e id = Done (e1, o) → eg_journal e1 = eg_journal e ∧ eg_overflow e1 = eg_overflow e.
Proof.
  unfold release_job. destruct (position _ _) as [pos|]; [|by intros [= <- _]]. intros E.
  apply exec_bind_Done in E as ([r running] & _ & E). by injection E as <- _.
Qed.

Lemma unhold_fields e id e1 b :
  unhold e id = Done (e1, b) → eg_journal e1 = eg_journal e ∧ eg_overflow e1 = eg_overflow e.
Proof.
  unfold unhold. destruct (position _ _) as [pos|]; [|by intros [= <- _]]. intros E.
  apply exec_bind_Done in E as ([r l] & _ & E). by injection E as <- _.
Qed.

Lemma take_off_fields e id e1 b :
  take_off e id = Done (e1, b) → eg_journal e1 = eg_journal e ∧ eg_overflow e1 = eg_overflow e.
Proof.
  unfold take_off. intros E. apply exec_bind_Done in E as ([e0 [slot|]] & E0 & E); apply release_job_fields in E0 as [Hj Ho].
  - by injection E as <- _.
  - apply unhold_fields in E as [Hj1 Ho1]. split; congruence.
Qed.

(** [durable] of a computation that starts by changing only such fields. *)
Lemma durable_step {A} e (w : World Q) (m : exec (Engine * A)) k :
  (∀ e1 a, m = Done (e1, a) → eg_journal e1 = eg_journal e ∧ eg_overflow e1 = eg_overflow e) →
  (∀ e1 a, durable (e1, w) (k (e1, a))) → durable (e, w) (exec_bind m k).
Proof.
  intros Hm Hk. destruct m as [[e1 a]| |]; [|by intros _ ew'..]. destruct (Hm e1 a eq_refl) as [Hj Ho].
  cbn [exec_bind]. by eapply durable_from; [..|apply Hk].
Qed.

Lemma lift_call_fields {A} e (o : exec (outcome A)) e1 r :
  lift_call e o = Done (e1, r) → eg_journal e1 = eg_journal e ∧ eg_overflow e1 = eg_overflow e.
Proof. unfold lift_call. intros E. apply exec_bind_Done in E as ([[s jobs] x] & _ & E). by injection E as <- _. Qed.

Ltac to_pairs :=
  match goal with
  | |- durable (?e, ?w) (exec_bind (exec_bind ?m ?k) ?h) =>
      assert (exec_bind (exec_bind m k) h = exec_bind m (fun x => exec_bind (k x) h)) as -> by (by destruct m)
  end.

Lemma requeue_logged_durable e id now : durable_engine e (requeue_logged hash e id now).
Proof.
  intros w. unfold requeue_logged. to_pairs. eapply durable_step; [intros; by eapply lift_call_fields|].
  intros e1 [u|err]; [apply durable_record|]. cbn [exec_bind]. by apply durable_done.
Qed.

Lemma note_all_terminal_durable e (w : World Q) ids at_ : durable (e, w) (Done (note_all_terminal e ids at_, w)).
Proof. rewrite note_all_terminal_eq. by apply durable_done. Qed.

Lemma on_completed_report_durable e id now : durable_engine e (on_completed_report hash e id now).
Proof.
  intros w. unfold on_completed_report. to_pairs. eapply durable_step; [intros; by eapply take_off_fields|].
  intros e1 [|]; cbn [exec_bind]; [|by apply durable_done].
  to_pairs. eapply durable_step; [intros; by eapply lift_call_fields|].
  intros e2 [p|err]; cbn [exec_bind]; [|by apply durable_done]. to_pairs.
  apply durable_engine_bind; [apply durable_record|]. intros e3. by apply durable_done.
Qed.

Lemma on_failed_report_durable e id now : durable_engine e (on_failed_report hash e id now).
Proof.
  intros w. unfold on_failed_report. to_pairs. eapply durable_step; [intros; by eapply take_off_fields|].
  intros e1 [|]; cbn [exec_bind]; [|by apply durable_done].
  to_pairs. eapply durable_step; [intros; by eapply lift_call_fields|].
  intros e2 [p|err]; cbn [exec_bind]; [|by apply durable_done]. to_pairs.
  apply durable_engine_bind; [apply durable_record|]. intros e3. cbn [exec_bind].
  rewrite note_all_terminal_eq. by apply durable_done.
Qed.

Lemma on_preempted_report_durable e id now : durable_engine e (on_preempted_report hash e id now).
Proof.
  intros w. unfold on_preempted_report. to_pairs. eapply durable_step; [intros; by eapply take_off_fields|].
  intros e1 [|]; cbn [exec_bind]; [|by apply durable_done].
  to_pairs. eapply durable_step; [intros; by eapply lift_call_fields|].
  intros e2 [p|err]; cbn [exec_bind]; [|by apply durable_done]. apply durable_record.
Qed.

Lemma evict_slot_durable e slot now : durable_engine e (evict_slot hash e slot now).
Proof.
  intros w. unfold evict_slot. to_pairs. set (R := List.filter _ _). set (e0 := with_running e R).
  apply (durable_from e e0); [done|done|]. apply durable_engine_bind.
  - destruct (eg_quiescing e0); [intros w'; by apply durable_done|]. apply durable_engine_fold. intros. apply requeue_logged_durable.
  - intros e1. by apply durable_done.
Qed.

Lemma on_cancel_durable e (w : World Q) id reply now : durable (e, w) (on_cancel hash e w id reply now).
Proof.
  unfold on_cancel. eapply durable_step; [intros; by eapply release_job_fields|]. intros e1 slot.
  eapply durable_step; [intros; by eapply unhold_fields|]. intros e2 b.
  eapply durable_step; [intros; by eapply lift_call_fields|]. intros e3 [C|err].
  - intros [j Ej] ew' E. apply exec_bind_Done in E as (e4 & E4 & E). apply exec_bind_Done in E4 as (e5 & E5 & E4).
    injection E4 as <-. rewrite note_all_terminal_eq in E. set (e4 := with_terminal _ _) in E.
    pose proof (wal_record e3 w _ e5 j Ej E5) as W1. destruct (wal_step_journal _ _ _ W1) as [j1 Ej1]. simpl in Ej1.
    pose proof (wal_quiet e5 e4 w j1 Ej1 Ej1 eq_refl) as W2. pose proof (wal_trans _ _ _ _ _ W1 W2) as W12.
    assert (∃ e6 w6 g, (match slot with Some slot => push_dispatch e4 w (Dispatch.Kill slot id) | None => (e4, w) end) = (e6, w6) ∧
      wal_step (e4, w) (e6, w6) g ∧ ef_records g = [] ∧ ef_held g = [] ∧ ef_deferred g = [] ∧ Forall is_kill (ef_sent g) ∧ ef_answered g = [])
      as (e6 & w6 & g & E6 & W3 & G1 & G2 & G3 & G4 & G5).
    { destruct slot as [sl|].
      - pose proof (wal_push e4 w (Dispatch.Kill sl id) j1 Ej1) as Wp. destruct (push_dispatch e4 w _) as [e6 w6].
        eexists _, _, _. split; [done|]. split; [exact Wp|]. simpl. split_and!; try done; by repeat constructor.
      - exists e4, w, no_effects. split; [done|]. split; [by eapply wal_quiet|]. split_and!; done. }
    rewrite E6 in E. injection E as <-. destruct (wal_step_journal _ _ _ W3) as [j6 Ej6].
    eexists. split; [eapply wal_trans; [exact W12|]; eapply wal_trans; [exact W3|]; by eapply wal_defer|].
    split; simpl; rewrite ?G1, ?G2, ?G3, ?G5, ?app_nil_r; try done.
    constructor; [|done]. simpl. exists id, now. by left.
  - cbn [exec_bind]. intros [j Ej] ew' E. injection E as <-.
    eexists. split; [by eapply wal_defer|]. split; simpl; try done. by repeat constructor.
Qed.

Lemma record_submitted_eq (j : EngineJournal) id job : record_submitted hash j id job = journal_record hash j (LogRecord.Submitted id job).
Proof. done. Qed.

Lemma on_submit_durable e (w : World Q) job reply now : durable (e, w) (on_submit hash e w job reply now).
Proof.
  intros [j Ej] ew' E. unfold on_submit in E. simpl in Ej. apply exec_bind_Done in E as (id & _ & E).
  destruct (check_submit id job (eg_jobs e)) as [rd|err].
  2:{ injection E as <-. apply (durable_answer e w (Answer.Submit reply (Err err))); [done|by exists j|done]. }
  apply exec_bind_Done in E as ([jobs1 id'] & Ei & E). destruct (Z.eqb_spec id' id) as [->|]; [|done]. cbn [negb] in E.
  apply exec_bind_Done in E as (e1 & E1 & E). simpl in E1. rewrite Ej in E1.
  assert (∃ r j1, eg_journal e1 = Some j1 ∧ eg_overflow e1 = eg_overflow e ∧ journal_run j r [] [] j1 ∧
    (Arena_get jobs1 id = None ∨ ∃ job, LogRecord.Submitted id job ∈ r)) as (rs & j1 & Ej1 & Eo1 & Hrun & Hr).
  { destruct (Arena_get jobs1 id) as [k|] eqn:Ek.
    - apply exec_bind_Done in E1 as (j1 & Er & E1). injection E1 as <-. exists [LogRecord.Submitted id k], j1.
      split; [done|]. split; [done|]. split; [eapply jn_record; [done|constructor]|]. right. exists k. by left.
    - injection E1 as <-. exists [], j. simpl. split_and!; try done; [constructor|by left]. }
  apply exec_bind_Done in E as ([e2 res] & E2 & E). unfold lift_call in E2.
  apply exec_bind_Done in E2 as ([[s2 jobs2] res2] & Es & E2). injection E2 as <- <-.
  set (e3 := match res2 with Ok st => _ | Err _ => _ end) in E. set (a := Answer.Submit _ _) in E. injection E as <-.
  assert (eg_journal e3 = Some j1 ∧ eg_overflow e3 = eg_overflow e) as [Ej3 Eo3].
  { unfold e3. destruct res2 as [st|]; [destruct (is_terminal st)|]; done. }
  exists (MkEffects rs [] [a] [] []). split.
  - unfold answer_durably. rewrite Ej3. split; simpl; [|unfold outgoing; simpl; by rewrite Eo3, app_nil_r|by rewrite app_nil_r|done].
    exists j, (defer j1 a). split; [done|]. split; [done|].
    pose proof (journal_run_app _ _ _ _ _ [] [] [a] (defer j1 a) Hrun) as Ha. rewrite app_nil_r in Ha. apply Ha.
    apply jn_defer. constructor.
  - split; simpl; try done. constructor; [|done]. unfold a. destruct res2 as [st|]; [|done]. simpl.
    destruct Hr as [Hn|Hr]; [|done]. exfalso. unfold submit in Es. simpl in Es.
    assert (eg_jobs e1 = jobs1) as Ej1'. { destruct (Arena_get jobs1 id); [apply exec_bind_Done in E1 as (? & _ & E1)|]; by injection E1 as <-. }
    by rewrite Ej1', Hn in Es.
Qed.

Lemma adopt_running_durable e (w : World Q) id slot now : durable (e, w) (adopt_running hash e w id slot now).
Proof.
  unfold adopt_running. destruct (Arena_get _ _); [|by apply durable_done]. destruct (negb _); [by apply durable_done|].
  destruct (try_allocate _ _ _) as [inv [u|err]]; [by apply durable_done|].
  apply durable_engine_bind; [apply requeue_logged_durable|]. intros e1. apply durable_push_kill.
Qed.

Lemma claim_durable (ew : Engine * World Q) id slot now : durable ew (claim hash ew.1 ew.2 id slot now).
Proof.
  destruct ew as [e w]. unfold claim. cbn [fst snd]. eapply durable_step; [intros; by eapply unhold_fields|].
  intros e1 [|]; [apply adopt_running_durable|]. destruct (position _ _) as [pos|]; [|apply durable_push_kill].
  destruct (nth_at _ _) as [r| |]; [|by intros _ ew'..]. cbn [exec_bind].
  destruct (try_allocate _ _ _) as [inv [u|err]].
  - destruct (nth_put _ _ _); [|by intros _ ew'..]. cbn [exec_bind]. by apply durable_done.
  - destruct (swap_remove _ _) as [[r' running]| |]; [|by intros _ ew'..]. cbn [exec_bind].
    set (e2 := with_running _ _). apply (durable_from e1 e2); [done|done|].
    apply durable_engine_bind; [apply requeue_logged_durable|]. intros e3. apply durable_push_kill.
Qed.

Lemma on_worker_joined_durable e (w : World Q) name cap in_flight reply now :
  durable (e, w) (on_worker_joined hash e w name cap in_flight reply now).
Proof.
  unfold on_worker_joined. destruct (match find_vacant _ _ _ with Some _ => _ | None => _ end) as [[inv slot]| |];
    [|by intros _ ew'..]. cbn [exec_bind]. destruct (vec_put _ _ _) as [names| |]; [|by intros _ ew'..]. cbn [exec_bind].
  set (e1 := with_names _ _). apply (durable_from e e1); [done|done|].
  apply durable_bind; [apply durable_fold; intros; apply claim_durable|]. intros [e2 w2]. by apply durable_answer.
Qed.

Lemma handle_durable e (w : World Q) c now : durable (e, w) (handle hash e w c now).
Proof.
  destruct c; simpl.
  - apply on_submit_durable.
  - apply on_cancel_durable.
  - apply on_completed_report_durable.
  - apply on_failed_report_durable.
  - apply on_preempted_report_durable.
  - apply on_worker_joined_durable.
  - apply evict_slot_durable.
  - by apply durable_done.
  - destruct query; simpl; try (by apply durable_answer). destruct (nodes e); [|by intros _ ew'..]. by apply durable_answer.
Qed.

(** ** The tick *)

Lemma flush_stack_items (o : Q Dispatch) st o' st' :
  flush_stack o st = (o', st') → q_items o' ++ rev st' ≡ₚ q_items o ++ rev st.
Proof.
  revert o. induction st as [|d st IH]; intros o E; simpl in E; [by injection E as <- <-|].
  unfold outbox_push in E. destruct (q_push_cases o d) as [(q1 & Ep & Hq & _)|[Ep _]]; rewrite Ep in E.
  - rewrite (IH _ E), Hq. simpl. by solve_Permutation.
  - by injection E as <- <-.
Qed.

Lemma flush_overflow_durable e (w : World Q) : durable (e, w) (Done (flush_overflow e w)).
Proof.
  intros [j Ej] ew' [= <-]. exists no_effects. split; [|apply write_ahead_none]. unfold flush_overflow.
  destruct (flush_stack _ _) as [o st] eqn:Ef. apply flush_stack_items in Ef. rewrite rev_involutive in Ef.
  split; simpl; [|unfold outgoing; simpl; by rewrite app_nil_r|by rewrite app_nil_r|done].
  exists j, j. split; [done|]. split; [done|]. constructor.
Qed.

Lemma on_dispatched_durable (ew : Engine * World Q) d now : durable ew (on_dispatched hash ew.1 ew.2 d now).
Proof.
  destruct ew as [e w]. unfold on_dispatched. cbn [fst snd]. destruct (Arena_get _ _) as [j|]; [|by apply durable_done].
  set (e1 := with_running _ _). apply (durable_from e e1); [done|done|]. apply durable_logged_dispatch.
  exists now. by left.
Qed.

Lemma evict_one_durable (ew : Engine * World Q) v now : durable ew (evict_one hash ew.1 ew.2 v now).
Proof.
  destruct ew as [e w]. unfold evict_one. cbn [fst snd]. eapply durable_step; [intros; by eapply lift_call_fields|].
  intros e1 [u|err]; [|by apply durable_done].
  intros [j Ej] ew' E. apply exec_bind_Done in E as (e2 & E2 & E). injection E as <-.
  pose proof (wal_record e1 w _ e2 j Ej E2) as W1. destruct (wal_step_journal _ _ _ W1) as [j1 Ej1].
  eexists. split; [eapply wal_trans; [exact W1|by eapply wal_hold]|]. split; simpl; try done.
  constructor; [|done]. exists now. by left.
Qed.

Lemma forget_loop_durable now terminal e : durable_engine e (forget_loop hash now terminal e).
Proof.
  revert e. induction terminal as [|[at_ id] rest IH]; intros e w; cbn [forget_loop]; [by apply durable_done|].
  destruct (_ <? _); [by apply durable_done|]. to_pairs. apply durable_engine_bind; [|intros e1; apply IH].
  destruct (Arena_remove _ _) as [jobs [k|]]; intros w'; [|by apply durable_done].
  apply (durable_from e (with_jobs e jobs)); [done|done|]. apply durable_record.
Qed.

Lemma expire_reconcile_durable e now : durable_engine e (expire_reconcile hash e now).
Proof.
  intros w. unfold expire_reconcile. destruct (eg_reconciling e) eqn:Er; [by apply durable_done|].
  destruct (_ <? _); [by apply durable_done|]. to_pairs.
  set (e1 := with_reconciling _ []). apply (durable_from e e1); [done|done|].
  apply durable_engine_bind; [|intros e2; by apply durable_done]. apply durable_engine_fold.
  intros e2 x w'. unfold requeue_unclaimed. destruct (Arena_get _ _); [|by apply durable_done].
  case_bool_decide; [apply requeue_logged_durable|by apply durable_done].
Qed.

(** The engine and the world of a tick up to its batch. *)
Definition tick_state (r : Engine * World Q * CycleOutcome) : Engine * World Q := r.1.

(** What a tick does from its decisions on, up to its batch. *)
Definition tick_rest (e : Engine) (w : World Q) (ds : list DispatchDecision) (outcome : CycleOutcome) (now : VirtualTime)
  : exec (Engine * World Q * CycleOutcome) :=
  let! '(e, w) := exec_fold (fun ew d => on_dispatched hash ew.1 ew.2 d now) (e, w) ds in
  let! '(e, w) :=
    match co_head outcome with
    | Some head => plan_evictions hash e w head now
    | None => Done (e, w)
    end in
  let! e := refresh_demand (with_cycles e (wrap64 (eg_cycles e + 1))) in
  let! e := forget_expired hash e now in
  let! e := expire_reconcile hash e now in
  Done (e, w, outcome).

Lemma tick_rest_durable e (w : World Q) ds outcome now :
  durable (e, w) (let! r := tick_rest e w ds outcome now in Done (tick_state r)).
Proof.
  unfold tick_rest. to_pairs.
  apply durable_bind; [apply durable_fold; intros; apply on_dispatched_durable|]. intros [e2 w2]. to_pairs.
  apply durable_bind.
  { destruct (co_head _) as [h|]; [|by apply durable_done]. unfold plan_evictions.
    destruct (match Arena_get _ _ with Some _ => _ | None => _ end) as [evs| |]; [|by intros _ ew'..].
    cbn [exec_bind]. apply durable_fold. intros. apply evict_one_durable. }
  intros [e3 w3]. to_pairs. set (e4 := with_cycles _ _). apply (durable_from e3 e4); [done|done|].
  apply durable_engine_bind.
  { intros w'. unfold refresh_demand. destruct (fold_left _ _ _) as [a b]. destruct (div_ceil _ _); [|by intros _ ew'..].
    cbn [exec_bind]. destruct (clamp _ _ _); [|by intros _ ew'..]. by apply durable_done. }
  intros e5. to_pairs. apply durable_engine_bind; [apply forget_loop_durable|]. intros e6. to_pairs.
  apply durable_engine_bind; [apply expire_reconcile_durable|]. intros e7. by apply durable_done.
Qed.

Lemma tick_body_durable e (w : World Q) now :
  durable (e, w) (let! r := tick_body hash e w now in Done (tick_state r)).
Proof.
  unfold tick_body. pose proof (flush_overflow_durable e w) as Hf. destruct (flush_overflow e w) as [e0 w0].
  intros Hj ew' E. destruct (Hf Hj _ eq_refl) as (f & Wf & Pf).
  enough (durable (e0, w0) (let! r := (let! '(e, ds, outcome) := run_engine_cycle e0 now in tick_rest e w0 ds outcome now) in
    Done (tick_state r))) as Hd.
  { destruct (Hd (wal_step_journal _ _ _ Wf) _ E) as (g & Wg & Pg). exists (then_effects f g).
    split; [by eapply wal_trans|by apply write_ahead_then]. }
  clear -H0. unfold run_engine_cycle. destruct (run_cycle _ _ _ _ _ _ _) as [r| |]; [|by intros _ ew'..]. cbn [exec_bind].
  set (e1 := with_inventory _ _). apply (durable_from e0 e1); [done|done|]. apply tick_rest_durable.
Qed.
End Wal.

(** ** Properties *)


