(* ===== verification/EngineLive.v ===== *)
(** * Free capacity is used

    [Engine::tick] of [crates/taskerd/src/engine.rs] on an engine with a journal:
    when there is a ready job and every ready job would fit the free capacity of
    some slot, the tick starts one, on the slot of a worker that is attached, and
    the batch of the tick carries its assignment. *)

From stdpp Require Import base strings list numbers option sets.
From Stdlib Require Import ZArith Lia.
From S2P Require Import Prelude Domain Arena Job Inventory Priority ReadySet Eligibility.
From S2P Require Import Decay FairShare Pack Backfill Preempt Scheduler Cycle Frame.
From S2P Require Import Codec LogRecord Log Snapshot Store Journal Command Engine EngineInv EngineSteps EngineTick EngineRun EngineWal.
Open Scope Z_scope.
Open Scope list_scope.

(** Every ready job fits some slot as it is. *)
Definition room_for_ready (e : Engine) : Prop :=
  ∀ x j, Arena_get (eg_jobs e) x = Some j → state j = JobState.Ready →
    ∃ i s, vec_get (worker_slots (eg_inventory e)) i = Some s ∧ Resources_le (request j) (WorkerSlot_free s).

Section Live.
Context (hash : bytes → Z) {Q : Type → Type} `{ArrayQueueLaws Q}.

Lemma cycle_decides e now e1 ds outcome x :
  Engine_inv e → is_u64 now → can_start (cycle_config e) → room_for_ready e → job_state (eg_jobs e) x = Some JobState.Ready →
  run_engine_cycle e now = Done (e1, ds, outcome) → ds ≠ [].
Proof.
  intros He Hnow Hcs Hroom Hx E. unfold run_engine_cycle in E. apply exec_bind_Done in E as (r & Er & E). injection E as _ <- _.
  assert (inventory_ok (eg_jobs e) (eg_inventory e)) as Hio.
  { apply drained_inventory_ok; [apply He|apply He|by apply jobs_ok_requests, (en_sched _ He)|].
    intros id j Hj. by destruct (en_jobs _ He _ _ Hj). }
  eapply (cycle_progress _ _ _ _ _ _ (en_sched _ He) Hio (engine_running_ok _ He) Hnow (eo_cycle _ (en_config _ He)) Hcs Hroom); eauto.
Qed.

Lemma on_dispatched_jobs e (w : World Q) d now ew' : on_dispatched hash e w d now = Done ew' → eg_jobs ew'.1 = eg_jobs e.
Proof.
  unfold on_dispatched. destruct (Arena_get _ _) as [j|]; [|by intros [= <-]]. intros E. apply exec_bind_Done in E as (e1 & E1 & E).
  injection E as <-. destruct (dispatch_durably_form e1 w (Dispatch.Assign (dd_slot d) (dd_job d) (payload j) (walltime_limit j)))
    as (ov & jr & w' & ->). cbn. unfold record in E1. cbn in E1. destruct (eg_journal e); [|by injection E1 as <-].
  apply exec_bind_Done in E1 as (j1 & _ & E1). by injection E1 as <-.
Qed.

Lemma dispatched_jobs ds now : ∀ ew ew',
  exec_fold (fun ew d => on_dispatched hash ew.1 ew.2 d now) ew ds = Done ew' → eg_jobs ew'.1 = eg_jobs ew.1.
Proof.
  induction ds as [|d ds IH]; intros ew ew' E; cbn [exec_fold] in E; [by injection E as <-|].
  apply exec_bind_Done in E as (ew1 & E1%on_dispatched_jobs & E). rewrite <-E1. by apply IH.
Qed.

(** The first decision of a tick leaves an assignment in the batch. *)
Lemma on_dispatched_holds e (w : World Q) d now job ew' :
  is_Some (eg_journal e) → Arena_get (eg_jobs e) (dd_job d) = Some job → on_dispatched hash e w d now = Done ew' →
  ∃ j, eg_journal ew'.1 = Some j ∧ Dispatch.Assign (dd_slot d) (dd_job d) (payload job) (walltime_limit job) ∈ dispatches (jr_pending j).
Proof.
  intros [j Ej] Hj E. unfold on_dispatched in E. rewrite Hj in E. apply exec_bind_Done in E as (e1 & E1 & E).
  unfold record in E1. cbn in E1. rewrite Ej in E1. apply exec_bind_Done in E1 as (j1 & _ & E1). injection E1 as <-.
  injection E as <-. cbn. eexists. split; [done|]. cbn. set_solver.
Qed.

(** What was held before the end of a tick is in the batch it leaves or sends. *)
Definition batched_dispatch (e : Engine) (w : World Q) (d : Dispatch) : Prop :=
  (∃ j, eg_journal e = Some j ∧ d ∈ dispatches (jr_pending j)) ∨ (∃ c, c ∈ w_commits w ∧ d ∈ dispatches c).

Lemma tick_batches e (w : World Q) now e1 e2 w2 ds d outcome ew1 :
  Engine_inv e → is_u64 now → generations_left e → is_Some (eg_journal e) →
  run_engine_cycle (flush_overflow e w).1 now = Done (e1, d :: ds, outcome) →
  exec_fold (fun ew d => on_dispatched hash ew.1 ew.2 d now) (e1, (flush_overflow e w).2) (d :: ds) = Done (e2, w2) →
  on_dispatched hash e1 (flush_overflow e w).2 d now = Done ew1 →
  ∀ j1 a, eg_journal ew1.1 = Some j1 → a ∈ dispatches (jr_pending j1) →
  ∃ e' w', tick hash e w now = Done (e', w', outcome) ∧ batched_dispatch e' w' a.
Proof.
  intros He Hnow Hg Hj Ec Ed E1 j1 a Ej1 Ha.
  destruct (tick_ok hash e w now He Hnow Hg) as (e3 & w3 & out & Eb & _ & _ & Et & _).
  assert (tick_body hash e w now = tick_rest hash e1 (flush_overflow e w).2 (d :: ds) outcome now) as Er.
  { unfold tick_body. destruct (flush_overflow e w) as [e0 w0]. cbn [fst] in Ec. by rewrite Ec. }
  assert (tick_rest hash ew1.1 ew1.2 ds outcome now = Done (e3, w3, out)) as Er1.
  { rewrite <-Eb, Er. unfold tick_rest. cbn [exec_fold fst snd]. rewrite E1. by destruct ew1. }
  assert (out = outcome) as ->.
  { clear -Er1. unfold tick_rest in Er1. apply exec_bind_Done in Er1 as ([? ?] & _ & Er1).
    do 4 (apply exec_bind_Done in Er1 as (? & _ & Er1); repeat case_match). by injection Er1. }
  destruct (tick_rest_durable hash ew1.1 ew1.2 ds outcome now) with (ew' := (e3, w3)) as (f & [(j & j3 & Ej & Ej3 & Hrun) _ _ _] & _);
    [by exists j1|by rewrite Er1|].
  cbn in Ej, Ej3. rewrite Ej1 in Ej. injection Ej as <-. destruct (journal_run_batch _ _ _ _ _ _ Hrun) as (Hd & _).
  eexists _, _. split; [exact Et|]. unfold commit_journal. rewrite Ej3. cbn.
  assert (a ∈ dispatches (jr_pending (batched hash e3 now j3))) as Ha3.
  { unfold batched. destruct (wants_snapshot j3); cbn; rewrite Hd; set_solver. }
  unfold commit. destruct (commit_is_empty _); [left; by eexists|]. unfold try_send. destruct (_ && _); cbn.
  - right. eexists. split; [apply elem_of_app; right; by left|done].
  - left. by eexists.
Qed.

(** C17: While there is a ready job and every ready job would fit the free
    capacity of some slot, a tick of a daemon that keeps a log does not leave the
    cluster as it is: it starts some ready job on the slot of an attached worker,
    and the assignment is in the batch of the tick, handed to the log writer or kept
    to be sent with the next. *)
Theorem free_capacity_is_used e (w : World Q) now x :
  Engine_inv e → is_u64 now → generations_left e → is_Some (eg_journal e) →
  can_start (cycle_config e) → room_for_ready e → job_state (eg_jobs e) x = Some JobState.Ready →
  ∃ e' w' outcome y job slot name,
    tick hash e w now = Done (e', w', outcome) ∧
    Arena_get (eg_jobs e) y = Some job ∧ state job = JobState.Ready ∧
    vec_get (eg_names e) slot = Some (Some name) ∧
    batched_dispatch e' w' (Dispatch.Assign slot y (payload job) (walltime_limit job)).
Proof.
  intros He Hnow Hg Hj Hcs Hroom Hx. pose proof (flush_overflow_ok hash e w He) as Hf.
  assert (∃ ov, (flush_overflow e w).1 = with_overflow e ov) as [ov E0]
    by (unfold flush_overflow; destruct (flush_stack _ _) as [o st]; by eexists).
  pose proof (so_inv _ _ _ Hf) as He0.
  destruct (cycle_dispatch_ok hash (flush_overflow e w).1 (flush_overflow e w).2 now He0 Hnow)
    as (e1 & ds & out & e2 & w2 & B & Ec & Ed & H2 & _ & Hrd & HB & Hrun & Hnm & Hmv).
  assert (ds ≠ []) as Hne by (eapply cycle_decides; [exact He0|exact Hnow|rewrite E0..|exact Ec]; [exact Hcs|exact Hroom|exact Hx]).
  rewrite E0 in Hrd, Hrun, Hnm, Hmv. destruct ds as [|d ds]; [done|]. inversion HB as [|? b ? B' (job & Hjob & Hb) _]; subst. rewrite E0 in Hjob.
  pose proof (dispatched_jobs _ _ _ _ Ed) as Ejobs. cbn [fst] in Ejobs. pose proof Ed as Ed0. cbn [exec_fold] in Ed0.
  apply exec_bind_Done in Ed0 as (ew1 & E1 & _). cbn [fst snd] in E1.
  assert (Arena_get (eg_jobs e1) (dd_job d) = Some (job_with_state job JobState.Running)) as Hj1.
  { rewrite <-Ejobs, (Hmv (dd_job d)), decide_True by (rewrite fmap_cons; by left). by rewrite Hjob. }
  assert (is_Some (eg_journal e1)) as Hj1s.
  { unfold run_engine_cycle in Ec. apply exec_bind_Done in Ec as (r & _ & Ec). injection Ec as <- _ _. cbn. by rewrite E0. }
  destruct (on_dispatched_holds e1 _ d now _ ew1 Hj1s Hj1 E1) as (j1 & Ej1 & Ha).
  destruct (tick_batches e w now e1 e2 w2 ds d out ew1 He Hnow Hg Hj Ec Ed E1 j1 _ Ej1 Ha) as (e' & w' & Et & Hbd).
  assert (bound_to e2 (dd_slot d) (dd_job d)) as Hbt.
  { eexists. split; [rewrite Hrun; apply elem_of_app; right; by left|done]. }
  destruct (vec_get (eg_names e) (dd_slot d)) as [[name|]|] eqn:En.
  - exists e', w', out, (dd_job d), job, (dd_slot d), name. split; [done|]. split; [done|]. split; [|done].
    specialize (Hrd d ltac:(by left)). unfold job_state in Hrd. cbn in Hrd, Hjob. rewrite Hjob in Hrd. by injection Hrd.
  - destruct (vacant_unbound e2 (dd_slot d) (dd_job d) (so_inv _ _ _ H2)); [by rewrite Hnm|done].
  - destruct Hbt as (r & Hr & _ & Es). destruct (sv_bound _ _ _ (en_slots _ (so_inv _ _ _ H2)) r Hr) as [sl Hsl].
    apply vec_get_range in Hsl. rewrite <-(sv_names _ _ _ (en_slots _ (so_inv _ _ _ H2))), Hnm in Hsl.
    destruct (vec_get_total (eg_names e) (rj_slot r) Hsl) as [n Hn]. rewrite Es in Hn. congruence.
Qed.
End Live.

(** A worker is attached and the first of two jobs is ready. *)
Lemma free_capacity_is_used_witness :
  ∃ e' w' outcome y job slot name,
    tick crc32 demo_loaded.1 demo_loaded.2 20 = Done (e', w', outcome) ∧
    Arena_get (eg_jobs demo_loaded.1) y = Some job ∧ state job = JobState.Ready ∧
    vec_get (eg_names demo_loaded.1) slot = Some (Some name) ∧
    batched_dispatch e' w' (Dispatch.Assign slot y (payload job) (walltime_limit job)).
Proof.
  assert (Engine_inv demo_loaded.1) as He
    by (exact (proj1 (reaches_inv _ _ _ _ _ _ demo_daemon_config_ok demo_loaded_reaches))).
  apply (free_capacity_is_used crc32 (Q := ListQueue) demo_loaded.1 demo_loaded.2 20 0 He).
  - unfold is_u64. lia.
  - intros p Hp. by apply elem_of_nil in Hp.
  - by eexists.
  - unfold can_start. vm_compute. done.
  - assert (Forall (fun p => Resources_le (request p.2) (MkResources 2000 4096 0)) (Arena_iter (eg_jobs demo_loaded.1))) as Hall
      by (apply (bool_decide_eq_true_1 _); vm_compute; reflexivity).
    intros x j Hj _. apply Arena_iter_elem in Hj; [|apply (en_sched _ He)]. rewrite Forall_forall in Hall. specialize (Hall _ Hj).
    exists 0, (MkWorkerSlot (MkResources 2000 4096 0) Resources_ZERO). split; [reflexivity|].
    exact Hall.
  - reflexivity.
Defined.
