(* ===== verification/Replay.v ===== *)
(** * Two schedulers in step

    A live engine and the one rebuilt from its log make the same lifecycle calls
    at different times, with different ledgers and ready sets, and with trackers
    that hold the same edges in other places.  What the calls do to the arena
    depends on none of these: two arenas that agree up to preemption counts, each
    under a tracker that is true to it ([waits]), agree after the same call. *)

From stdpp Require Import base list numbers option sets relations.
From Stdlib Require Import ZArith Lia.
From S2P Require Import Prelude Domain Arena Job Inventory Priority ReadySet Eligibility.
From S2P Require Import Decay FairShare Pack Backfill Preempt Scheduler Frame Order.
Open Scope Z_scope.
Open Scope list_scope.

(** One job as two engines see it. *)
Definition same_job (j j' : Job) : Prop := job_with_preemptions j 0 = job_with_preemptions j' 0.

#[export] Instance same_job_equiv : Equivalence same_job.
Proof. unfold same_job. split; [done|by intros ? ? ->|by intros ? ? ? -> ->]. Qed.

Lemma same_job_state j j' : same_job j j' → state j = state j'.
Proof. destruct j, j'. by intros [=]. Qed.

Lemma same_job_like j j' : same_job j j' → job_like j j'.
Proof. unfold job_like, job_core. by intros ->. Qed.

Lemma same_job_with_state j j' st : same_job j j' → same_job (job_with_state j st) (job_with_state j' st).
Proof. destruct j, j'. unfold same_job. cbn. intros [=]. by subst. Qed.

Lemma same_job_preemptions j j' n : same_job j j' → same_job (job_with_preemptions j n) j'.
Proof. by destruct j, j'. Qed.

Lemma try_transition_same j j' st j1 j1' :
  same_job j j' → try_transition j st = Ok j1 → try_transition j' st = Ok j1' → same_job j1 j1'.
Proof. intros Hj [_ ->]%try_transition_Ok [_ ->]%try_transition_Ok. by apply same_job_with_state. Qed.

#[export] Hint Resolve same_job_with_state try_transition_same arena_rel_set : rt.

Lemma same_job_intro j j' : job_like j j' → state j = state j' → same_job j j'.
Proof. destruct j, j'. unfold job_like, job_core, same_job. cbn. intros [=] ?. by subst. Qed.

(** The two engines. *)
Record in_step (s : Scheduler) (jobs : Arena Job) (s' : Scheduler) (jobs' : Arena Job) : Prop := {
  is_live : waits (sc_deps s) jobs;
  is_replayed : waits (sc_deps s') jobs';
  is_jobs : arena_rel same_job jobs jobs';
}.

Lemma in_step_get jobs jobs' id j :
  arena_rel same_job jobs jobs' → Arena_get jobs id = Some j →
  ∃ j', Arena_get jobs' id = Some j' ∧ same_job j j' ∧ state j' = state j.
Proof.
  intros Hr Hj. destruct (arena_rel_Some_l _ _ _ _ _ Hr Hj) as (j' & ? & Hs). exists j'. split; [done|].
  split; [done|]. by rewrite (same_job_state _ _ Hs).
Qed.

Lemma job_state_same jobs jobs' x : arena_rel same_job jobs jobs' → job_state jobs x = job_state jobs' x.
Proof.
  intros Hr. unfold job_state. destruct (arena_rel_get _ _ _ x Hr) as [j j' Hj|]; [|done]. simpl. by rewrite (same_job_state _ _ Hj).
Qed.

Lemma is_pending_same jobs jobs' d : arena_rel same_job jobs jobs' → is_pending jobs d = is_pending jobs' d.
Proof. intros Hr. rewrite !is_pending_state. by rewrite (job_state_same jobs jobs'). Qed.

Lemma blocks_same jobs jobs' a b : arena_rel same_job jobs jobs' → blocks jobs a b → blocks jobs' a b.
Proof.
  intros Hr (Hp & j & Hj & Hs & Hin). rewrite (is_pending_same _ _ _ Hr) in Hp. split; [done|].
  destruct (in_step_get _ _ _ _ Hr Hj) as (j' & Hj' & Hsame & Hst). exists j'. split; [done|]. split; [congruence|].
  by destruct (job_like_fields _ _ (same_job_like _ _ Hsame)) as (_ & _ & _ & _ & -> & _).
Qed.

(** Calls that change nothing but states agree once the states do. *)
Lemma rel_by_states jobs jobs' jobs1 jobs1' :
  Z.of_nat (length (slots jobs)) <= u32_max →
  arena_rel same_job jobs jobs' → arena_rel job_like jobs jobs1 → arena_rel job_like jobs' jobs1' →
  (∀ x, job_state jobs1 x = job_state jobs1' x) → arena_rel same_job jobs1 jobs1'.
Proof.
  intros Hlen Hr H1 H1' Hst.
  assert (arena_rel job_like jobs1 jobs1') as Hl.
  { etrans; [symmetry; exact H1|]. etrans; [|exact H1']. eapply arena_rel_mono; [|exact Hr]. apply same_job_like. }
  rewrite (arena_rel_length _ _ _ H1) in Hlen. destruct Hl as [Hs Hf Hn]. split; [|done..].
  apply Forall2_same_length_lookup. split; [by eapply Forall2_length|]. intros i x y Hx Hy.
  pose proof (Forall2_lookup_lr _ _ _ _ _ _ Hs Hx Hy) as Hxy. destruct Hxy as [g v w Hvw|]; constructor.
  apply same_job_intro; [done|].
  assert (0 <= Z.of_nat i <= u32_max) as Hi by (apply lookup_lt_Some in Hx; lia).
  specialize (Hst (JobId_new (Z.of_nat i) g)). unfold job_state, Arena_get in Hst.
  rewrite !JobId_index_new, !JobId_generation_new, !vec_get_lookup, !Nat2Z.id, Hx, Hy, Z.eqb_refl in Hst by (done || lia).
  by injection Hst.
Qed.

(** ** The calls *)

Section Calls.
Context (s : Scheduler) (jobs : Arena Job) (s' : Scheduler) (jobs' : Arena Job) (id : JobId).
Context (now now' : VirtualTime) (config config' : CycleConfig).
Hypothesis Hstep : in_step s jobs s' jobs'.

(** Two accepted calls. *)
Definition call_lockstep {A} (o o' : exec (outcome A)) : Prop :=
  ∀ s1 jobs1 a s1' jobs1' a', o = Done (s1, jobs1, Ok a) → o' = Done (s1', jobs1', Ok a') →
    in_step s1 jobs1 s1' jobs1'.

(** Two calls that move one job, and others named by the arena. *)
Lemma state_after_lockstep st l l' st' s1 jobs1 s1' jobs1' :
  waits (sc_deps s1) jobs1 → waits (sc_deps s1') jobs1' →
  arena_rel job_like jobs jobs1 → arena_rel job_like jobs' jobs1' →
  state_after jobs id st l st' jobs1 → state_after jobs' id st l' st' jobs1' → (∀ x, x ∈ l ↔ x ∈ l') →
  in_step s1 jobs1 s1' jobs1'.
Proof.
  intros Hw Hw' Hl Hl' Ha Ha' Hll. split; [done|done|].
  eapply rel_by_states; [apply (wa_slots _ _ (is_live _ _ _ _ Hstep))|apply Hstep|done|done|].
  intros x. rewrite (Ha x), (Ha' x). case_decide; [done|]. rewrite (job_state_same _ _ x (is_jobs _ _ _ _ Hstep)).
  by repeat case_decide; naive_solver.
Qed.

Lemma on_completed_lockstep : call_lockstep (on_completed s id jobs now config) (on_completed s' id jobs' now' config').
Proof.
  intros s1 jobs1 p s1' jobs1' p' E E'. pose proof Hstep as [Hw Hw' Hr].
  destruct (completed_after _ _ _ _ _ _ _ _ E Hw) as (_ & _ & _ & _ & _ & _ & _ & _ & Ha).
  destruct (completed_after _ _ _ _ _ _ _ _ E' Hw') as (_ & _ & _ & _ & _ & _ & _ & _ & Ha').
  eapply state_after_lockstep; [by eapply waits_completed|by eapply waits_completed|by eapply on_completed_frame|
    by eapply on_completed_frame|exact Ha|exact Ha'|].
  intros x. rewrite (completed_wakes _ _ _ _ _ _ _ _ E Hw), (completed_wakes _ _ _ _ _ _ _ _ E' Hw').
  rewrite (job_state_same _ _ x Hr). symmetry in Hr. split; intros [? Hb]; (split; [done|]); intros a Hab; apply Hb;
    [by eapply blocks_same|eapply blocks_same; [by symmetry|done]].
Qed.

(** The common end of a failure and a cancellation. *)
Lemma cascade_lockstep st C C' s1 jobs1 s1' jobs1' :
  cascades s jobs id st C s1 jobs1 → cascades s' jobs' id st C' s1' jobs1' →
  arena_rel job_like jobs jobs1 → arena_rel job_like jobs' jobs1' →
  edges (sc_deps s1) ⊆ edges (sc_deps s) → edges (sc_deps s1') ⊆ edges (sc_deps s') → in_step s1 jobs1 s1' jobs1'.
Proof.
  intros E E' Hl Hl' He He'. pose proof Hstep as [Hw Hw' Hr].
  destruct (cascades_after _ _ _ _ _ _ _ E Hw) as [HC Ha]. destruct (cascades_after _ _ _ _ _ _ _ E' Hw') as [HC' Ha'].
  eapply state_after_lockstep; [by eapply waits_terminated|by eapply waits_terminated|done|done|exact Ha|exact Ha'|].
  intros x. rewrite HC, HC'. split; intros [? Hx]; (split; [done|]); revert Hx; apply (rtc_congruence (fun z => z));
    intros a b; apply blocks_same; [done|by symmetry].
Qed.

Lemma on_failed_lockstep : call_lockstep (on_failed s id jobs now config) (on_failed s' id jobs' now' config').
Proof.
  intros s1 jobs1 p s1' jobs1' p' E E'. destruct (on_failed_frame _ _ _ _ _ _ _ _ E), (on_failed_frame _ _ _ _ _ _ _ _ E').
  eapply cascade_lockstep; [by eapply failed_cascades|by eapply failed_cascades|done..].
Qed.

Lemma cancel_lockstep : call_lockstep (cancel s id jobs now config) (cancel s' id jobs' now' config').
Proof.
  intros s1 jobs1 p s1' jobs1' p' E E'. destruct (cancel_frame _ _ _ _ _ _ _ _ E), (cancel_frame _ _ _ _ _ _ _ _ E').
  eapply cascade_lockstep; [by eapply cancel_cascades|by eapply cancel_cascades|done..].
Qed.

(** ** Moves of one job *)

Lemma preempt_lockstep : call_lockstep (Done (preempt s id jobs)) (Done (preempt s' id jobs')).
Proof.
  intros s1 jobs1 [] s1' jobs1' [] E E'. pose proof Hstep as [Hw Hw' Hr]. injection E as E. injection E' as E'.
  split; [by eapply waits_preempt|by eapply waits_preempt|]. unfold preempt in E, E'.
  destruct (arena_rel_get _ _ _ id Hr) as [j j' Hj|]; [|done].
  destruct (try_transition j _) as [j1|] eqn:Et; [|done]. destruct (try_transition j' _) as [j1'|] eqn:Et'; [|done].
  injection E as <- <-. injection E' as <- <-. eauto with rt.
Qed.

Lemma requeue_lockstep j :
  Arena_get jobs id = Some j → occupies_slot (state j) = true →
  call_lockstep (requeue s id jobs now config) (requeue s' id jobs' now' config').
Proof.
  intros Hj0 Ho s1 jobs1 [] s1' jobs1' [] E E'. pose proof Hstep as [Hw Hw' Hr].
  destruct (in_step_get _ _ _ _ Hr Hj0) as (j0 & Hj0' & _ & Hs0).
  split; [by eapply waits_requeue|eapply waits_requeue; [exact E'|done|by rewrite Hs0|done]|]. unfold requeue in E, E'.
  destruct (arena_rel_get _ _ _ id Hr) as [k k' Hk|]; [|done].
  rewrite (same_job_state _ _ Hk) in E.
  set (ev := if bool_decide _ then try_transition k _ else _) in E.
  set (ev' := if bool_decide _ then try_transition k' _ else _) in E'.
  assert (∀ x x', ev = Ok x → ev' = Ok x' → same_job x x') as Hev.
  { unfold ev, ev'. case_bool_decide; [eauto with rt|]. intros x x' [= <-] [= <-]. done. }
  destruct ev as [x|]; [|done]. destruct ev' as [x'|]; [|done]. specialize (Hev _ _ eq_refl eq_refl).
  destruct (try_transition x _) as [j1|] eqn:Et; [|done]. destruct (try_transition x' _) as [j1'|] eqn:Et'; [|done].
  apply exec_bind_Done in E as (fs & _ & E). apply exec_bind_Done in E as (rs & _ & E). injection E as <- <-.
  apply exec_bind_Done in E' as (fs' & _ & E'). apply exec_bind_Done in E' as (rs' & _ & E'). injection E' as <- <-.
  eauto with rt.
Qed.

(** ** Submission *)

Lemma classify_loop_same ds n : arena_rel same_job jobs jobs' → classify_loop id jobs ds n = classify_loop id jobs' ds n.
Proof.
  intros Hr. revert n. induction ds as [|d ds IH]; intros n; simpl; [done|]. destruct (d =? id); [done|].
  destruct (arena_rel_get _ _ _ d Hr) as [j j' Hj|]; [|done].
  rewrite (same_job_state _ _ Hj). by destruct (state j').
Qed.
End Calls.

Lemma register_result t id job jobs t' r : register t id job jobs = Done (t', r) → r = classify id job jobs.
Proof.
  unfold register. destruct (classify id job jobs) as [[]|e]; [| |by intros [= <- <-]..]; intros E; exec_inv;
    destruct r2 as [t2 n]; exec_inv; by simplify_eq.
Qed.

(** An accepted submission, opened. *)
Lemma submit_accepted s id jobs now config s1 jobs1 st :
  submit s id jobs now config = Done (s1, jobs1, Ok st) →
  ∃ j rd, Arena_get jobs id = Some j ∧ state j = JobState.Submitted ∧ account j < MAX_ACCOUNTS ∧
    classify id j jobs = Ok rd ∧ st = readiness_state rd ∧ jobs1 = Arena_set jobs id (job_with_state j st).
Proof.
  unfold submit. intros E. destruct (Arena_get jobs id) as [j|]; [|done]. case_bool_decide as Hs; [|done]. cbn [negb] in E.
  destruct (ensure (sc_fairshare s) (account j)) as [fs [u|]] eqn:Ee; [|done].
  apply exec_bind_Done in E as ([t rd] & Er%register_result & E). destruct rd as [rd|]; [|done]. cbn [expect exec_bind] in E.
  destruct (try_transition j _) as [j1|] eqn:Et; [|done]. apply try_transition_Ok in Et as [_ ->].
  apply exec_bind_Done in E as (rs & _ & E). injection E as _ <- <-. exists j, rd. do 2 (split; [done|]).
  split; [|done]. unfold ensure in Ee. destruct (Z.leb_spec MAX_ACCOUNTS (account j)); [done|lia].
Qed.

(** The same job submitted to both. *)
Lemma check_submit_same jobs jobs' id j j' :
  arena_rel same_job jobs jobs' → same_job j j' → check_submit id j jobs = check_submit id j' jobs'.
Proof.
  intros Hr Hj. destruct (job_like_fields _ _ (same_job_like _ _ Hj)) as (Ha & _ & _ & _ & Hd & _).
  unfold check_submit, classify. by rewrite Ha, Hd, (classify_loop_same jobs jobs').
Qed.

(** A reported eviction and a replayed requeue differ in the count alone. *)
Lemma on_preempted_lockstep s jobs s' jobs' id now now' config config' :
  in_step s jobs s' jobs' →
  call_lockstep (on_preempted s id jobs now config) (requeue s' id jobs' now' config').
Proof.
  intros [Hw Hw' Hr] s1 jobs1 a s1' jobs1' a' E E'. unfold on_preempted in E.
  destruct (Arena_get jobs id) as [j|] eqn:Hj; [|done]. case_bool_decide as Hs; [|done]. cbn [negb] in E.
  destruct (in_step_get _ _ _ _ Hr Hj) as (j' & Hj' & Hsame & _).
  set (k := job_with_preemptions j _) in E.
  assert (in_step s (Arena_set jobs id k) s' jobs') as Hk.
  { split; [|done|].
    - eapply waits_move; [done|done|apply job_like_preemptions|left; by rewrite Hs|left; cbn; by rewrite Hs].
    - rewrite <-(Arena_set_same jobs' id j' Hj'). apply arena_rel_set; [done|by apply same_job_preemptions]. }
  eapply (requeue_lockstep _ _ _ _ _ _ _ _ _ Hk k); [by rewrite (Arena_set_get _ _ _ _ _ Hj), decide_True|by cbn; rewrite Hs|exact E|exact E'].
Qed.

(** A cycle's dispatch and its replay. *)
Lemma dispatched_lockstep s jobs s' jobs' s1' id j j' :
  in_step s jobs s' jobs' → Arena_get jobs id = Some j → state j = JobState.Ready → Arena_get jobs' id = Some j' →
  sc_deps s1' = sc_deps s' →
  in_step s (Arena_set jobs id (job_with_state j JobState.Running)) s1' (Arena_set jobs' id (job_with_state j' JobState.Running)).
Proof.
  intros [Hw Hw' Hr] Hj Hs Hj' Ed. destruct (in_step_get _ _ _ _ Hr Hj) as (k & Hk & Hsame & Hst).
  rewrite Hj' in Hk. injection Hk as <-. split; [|rewrite Ed|apply arena_rel_set; [done|by apply same_job_with_state]];
    (eapply waits_move; [done|done|apply job_like_state|right; congruence|by left]).
Qed.

Lemma restore_running_deps s id jobs now config s' jobs' r :
  restore_running s id jobs now config = Done (s', jobs', r) → sc_deps s' = sc_deps s.
Proof.
  unfold restore_running. intros E. destruct (Arena_get jobs id) as [j|]; [|by injection E as <- _ _].
  apply exec_bind_Done in E as ([rs b] & _ & E). destruct (try_transition j _); [|by injection E as <- _ _].
  apply exec_bind_Done in E as (fs & _ & E). by injection E as <- _ _.
Qed.
