(* ===== verification/Recovery.v ===== *)
(** * Recovery

    The part of engine.rs that rebuilds an engine from a snapshot and the records
    after it.  Replaying goes through the same scheduler calls as the live
    engine, so the theorem is a simulation: every logged transition of a live
    engine is matched by the replay, which never fails, and the two arenas agree
    slot by slot on everything but the preemption counts. *)

From stdpp Require Import base strings list numbers option sets relations.
From Stdlib Require Import ZArith Lia.
From S2P Require Import Prelude Domain Arena Job Inventory Priority ReadySet Eligibility.
From S2P Require Import Decay FairShare Pack Backfill Preempt Scheduler Cycle Frame.
From S2P Require Import Codec LogRecord Log Snapshot Store Journal Command Engine EngineInv EngineSteps EngineTick EngineRun Order Replay.
Open Scope Z_scope.
Open Scope list_scope.

Module RecoverError.
Inductive RecoverError : Type :=
| Wal (e : WalError)
| Arena (e : ArenaRestoreError)
| Lifecycle (e : LifecycleError)
| IdMismatch (expected found : JobId).
End RecoverError.
Abbreviation RecoverError := RecoverError.RecoverError.

Abbreviation recovering A := (exec (result A RecoverError)) (only parsing).

(** The [?] of recovery on a lifecycle call, whose scheduler and arena the engine
    keeps. *)
Definition replayed {A} (e : Engine) (o : exec (outcome A)) : recovering (Engine * A) :=
  let! '(e, r) := lift_call e o in
  match r with
  | Ok a => Done (Ok (e, a))
  | Err err => Done (Err (RecoverError.Lifecycle err))
  end.

Definition and_then {A B} (m : recovering A) (k : A → recovering B) : recovering B :=
  let! r := m in
  match r with Ok a => k a | Err err => Done (Err err) end.

(** One record; [latest] is the newest time seen. *)
Definition apply (e : Engine) (r : LogRecord) (latest : VirtualTime) : recovering (Engine * VirtualTime) :=
  let s := eg_scheduler e in
  let jobs := eg_jobs e in
  let config := cycle_config e in
  match r with
  | LogRecord.Submitted id job =>
      let! next := Arena_next_id jobs in
      if negb (next =? id) then Done (Err (RecoverError.IdMismatch id next))
      else
        let at_ := submit_time job in
        let! '(jobs, _) := Arena_insert jobs job in
        and_then (replayed (with_jobs e jobs) (submit s id jobs at_ config)) (fun '(e, st) =>
          Done (Ok (if is_terminal st then note_terminal e id at_ else e, Z.max latest at_)))
  | LogRecord.Dispatched id at_ =>
      and_then (replayed e (restore_running s id jobs at_ config)) (fun '(e, _) =>
        Done (Ok (e, Z.max latest at_)))
  | LogRecord.Completed id at_ =>
      and_then (replayed e (on_completed s id jobs at_ config)) (fun '(e, _) =>
        Done (Ok (note_terminal e id at_, Z.max latest at_)))
  | LogRecord.Failed id at_ =>
      and_then (replayed e (on_failed s id jobs at_ config)) (fun '(e, cascade) =>
        Done (Ok (note_all_terminal (note_terminal e id at_) cascade at_, Z.max latest at_)))
  | LogRecord.Cancelled id at_ =>
      and_then (replayed e (cancel s id jobs at_ config)) (fun '(e, cascade) =>
        Done (Ok (note_all_terminal (note_terminal e id at_) cascade at_, Z.max latest at_)))
  | LogRecord.Requeued id at_ =>
      and_then (replayed e (requeue s id jobs at_ config)) (fun '(e, _) =>
        Done (Ok (e, Z.max latest at_)))
  | LogRecord.Preempted id at_ =>
      and_then (replayed e (Done (preempt s id jobs))) (fun '(e, _) =>
        Done (Ok (e, Z.max latest at_)))
  | LogRecord.Forgotten id => Done (Ok (with_jobs e (Arena_remove jobs id).1, latest))
  end.

Fixpoint apply_all (e : Engine) (rs : list LogRecord) (latest : VirtualTime) : recovering (Engine * VirtualTime) :=
  match rs with
  | [] => Done (Ok (e, latest))
  | r :: rs => and_then (apply e r latest) (fun '(e, latest) => apply_all e rs latest)
  end.

(** Non-terminal jobs go back to [Submitted]. *)
Definition reset_slot (s : SlotState Job) : SlotState Job :=
  match s with
  | SlotState.Occupied g j =>
      if negb (is_terminal (state j)) then SlotState.Occupied g (job_with_state j JobState.Submitted) else s
  | SlotState.Vacant _ _ => s
  end.

Definition resubmit (at_ : VirtualTime) (e : Engine) (p : JobId * JobState) : recovering Engine :=
  let '(id, st) := p in
  if is_terminal st then Done (Ok (note_terminal e id at_))
  else
    and_then (replayed e (submit (eg_scheduler e) id (eg_jobs e) at_ (cycle_config e))) (fun '(e, st) =>
      Done (Ok (if is_terminal st then note_terminal e id at_ else e))).

Fixpoint recovering_fold {A B} (f : A → B → recovering A) (a : A) (l : list B) : recovering A :=
  match l with
  | [] => Done (Ok a)
  | x :: l => and_then (f a x) (fun a => recovering_fold f a l)
  end.

Definition rerun (at_ : VirtualTime) (e : Engine) (id : JobId) : recovering Engine :=
  and_then (replayed e (restore_running (eg_scheduler e) id (eg_jobs e) at_ (cycle_config e))) (fun '(e, _) =>
    Done (Ok e)).

Definition restore_snapshot (e : Engine) (snapshot : Snapshot) : recovering (Engine * VirtualTime) :=
  let at_ := taken_at snapshot in
  let slots := map reset_slot (snap_slots snapshot) in
  let! parts := Arena_from_parts slots (snap_free_head snapshot) in
  match parts with
  | Err err => Done (Err (RecoverError.Arena err))
  | Ok jobs =>
      let e := with_jobs e jobs in
      let ids := map (fun p => (p.1, state p.2)) (Arena_iter jobs) in
      and_then (recovering_fold (resubmit at_) e ids) (fun e =>
      and_then (recovering_fold (rerun at_) e (snap_running snapshot)) (fun e =>
        match restore_ledgers (eg_scheduler e) (snap_ledgers snapshot) with
        | (s, Ok _) => Done (Ok (with_sched e s (eg_jobs e), at_))
        | (_, Err err) => Done (Err (RecoverError.Lifecycle err))
        end))
  end.

Section Recover.
Context (hash : bytes → Z).

Definition requeue_evicting (latest : VirtualTime) (e : Engine) (id : JobId) : recovering Engine :=
  and_then (replayed e (requeue (eg_scheduler e) id (eg_jobs e) latest (cycle_config e))) (fun '(e, _) =>
    Done (Ok e)).

(** The engine, and the origin it sets the clock to. *)
Definition recover_engine (config : DaemonConfig) (recovered : Recovered) (journal : EngineJournal)
  : recovering (Engine * VirtualTime) :=
  let! e := build config (Some journal) in
  and_then
    (match rec_snapshot recovered with
     | Some snapshot => restore_snapshot e snapshot
     | None => Done (Ok (e, 0))
     end) (fun '(e, latest) =>
  and_then (apply_all e (rec_records recovered) latest) (fun '(e, latest) =>
  let e := with_reconciling e (jobs_in_state (eg_jobs e) JobState.Running) in
  let evicting := jobs_in_state (eg_jobs e) JobState.Preempted in
  and_then (recovering_fold (requeue_evicting latest) e evicting) (fun e =>
  let origin := time_saturating_add latest 1 in
  let! snapshot := engine_encode_snapshot hash e latest in
  let e :=
    match eg_journal e with
    | Some j => with_journal e (Some (attach_snapshot j snapshot))
    | None => e
    end in
  Done (Ok (e, origin))))).
End Recover.

(** ** Replay *)

(** An engine that is replaying: it runs nothing yet, and its scheduler and arena
    are in step with the live ones. *)
Record replaying (e : Engine) (s : Scheduler) (jobs : Arena Job) : Prop := {
  rp_inv : Engine_inv e;
  rp_running : eg_running e = [];
  rp_held : eg_reconciling e = [];
  rp_step : in_step s jobs (eg_scheduler e) (eg_jobs e);
}.

(** What replaying leaves alone. *)
Definition keeps (e e' : Engine) : Prop := eg_config e' = eg_config e ∧ eg_journal e' = eg_journal e.

Section Replay.
Context (e : Engine) (s : Scheduler) (jobs : Arena Job).
Hypothesis He : replaying e s jobs.

Lemma replay_call {A} (o live : exec (outcome A)) a id st l st' s1 jobs1 a1 :
  call_done (eg_scheduler e) (eg_jobs e) id o a st l st' → ¬ finished (eg_jobs e) id →
  call_lockstep live o → live = Done (s1, jobs1, Ok a1) →
  ∃ e1, replayed e o = Done (Ok (e1, a)) ∧ keeps e e1 ∧ eg_terminal e1 = eg_terminal e ∧
    ∀ at_, replaying (with_terminal e1 (eg_terminal e ++ ((fun x => (at_, x)) <$> finishes st [id] ++ finishes st' l))) s1 jobs1.
Proof.
  intros (s' & jobs' & -> & Hs & Hce & Hnd & Hid & Hed) Hnf Hl ->. unfold replayed, lift_call. cbn [exec_bind].
  pose proof (Hl _ _ _ _ _ _ eq_refl eq_refl) as Hstep. eexists. split; [done|]. do 2 (split; [done|]). intros at_.
  pose proof (rp_running _ _ _ He) as Hr. pose proof (rp_held _ _ _ He) as Hh. split; [|exact Hr|exact Hh|exact Hstep].
  apply call_inv; try done; [apply He|rewrite Hr; intros Hx; by apply elem_of_nil in Hx|rewrite Hh; apply not_elem_of_nil].
Qed.

(** The replayed job is in the state of the live one. *)
Lemma replay_job id j :
  Arena_get jobs id = Some j →
  ∃ j', Arena_get (eg_jobs e) id = Some j' ∧ state j' = state j.
Proof. intros Hj. destruct (in_step_get _ _ _ _ (is_jobs _ _ _ _ (rp_step _ _ _ He)) Hj) as (j' & ? & _ & ?). eauto. Qed.

Hypothesis Hcfg : config_ok (cycle_config e).

(** One record of the live engine, replayed. *)
Definition replays (r : LogRecord) (s1 : Scheduler) (jobs1 : Arena Job) : Prop :=
  ∀ latest, is_u64 latest →
  ∃ e1 latest1, apply e r latest = Done (Ok (e1, latest1)) ∧ replaying e1 s1 jobs1 ∧ keeps e e1 ∧ is_u64 latest1.

Lemma max_u64 a b : is_u64 a → is_u64 b → is_u64 (Z.max a b).
Proof. unfold is_u64. lia. Qed.

Lemma unfinished id j : Arena_get jobs id = Some j → is_terminal (state j) = false → ¬ finished (eg_jobs e) id.
Proof.
  intros Hj Ht (st & Est & Hst). destruct (replay_job id j Hj) as (j' & Hj' & Es). unfold job_state in Est.
  rewrite Hj' in Est. injection Est as <-. congruence.
Qed.

Lemma replay_completed cc id now s1 jobs1 p :
  on_completed s id jobs now cc = Done (s1, jobs1, Ok p) → is_u64 now →
  replays (LogRecord.Completed id now) s1 jobs1.
Proof.
  intros E Hnow latest Hlat. pose proof E as E0. unfold on_completed in E0.
  destruct (Arena_get jobs id) as [j|] eqn:Hj; [|done]. destruct (try_transition j _) as [j1|] eqn:Et; [|done]. clear E0.
  apply try_transition_Ok in Et as [Ht _]. assert (occupies_slot (state j) = true) as Ho by by destruct (state j).
  destruct (replay_job id j Hj) as (j' & Hj' & Es).
  destruct (completed_done (eg_scheduler e) (eg_jobs e) id j' now (cycle_config e)) as (p' & Hd); try done;
    [apply (rp_inv _ _ _ He)|by rewrite Es|].
  destruct (replay_call _ (on_completed s id jobs now cc) _ _ _ _ _ s1 jobs1 p Hd) as (e1 & Er & Hk & Et & Hrep); [| |done|].
  - eapply unfinished; [done|]. by apply occupies_not_blocked.
  - apply on_completed_lockstep, He.
  - simpl. rewrite Er. eexists _, _. split; [done|]. unfold note_terminal. rewrite Et. split; [apply Hrep|].
    split; [done|by apply max_u64].
Qed.

Lemma replay_failed cc id now s1 jobs1 C :
  on_failed s id jobs now cc = Done (s1, jobs1, Ok C) → is_u64 now →
  replays (LogRecord.Failed id now) s1 jobs1.
Proof.
  intros E Hnow latest Hlat. pose proof E as E0. unfold on_failed in E0.
  destruct (Arena_get jobs id) as [j|] eqn:Hj; [|done]. destruct (try_transition j _) as [j1|] eqn:Et; [|done]. clear E0.
  apply try_transition_Ok in Et as [Ht _]. assert (occupies_slot (state j) = true) as Ho by by destruct (state j).
  destruct (replay_job id j Hj) as (j' & Hj' & Es).
  destruct (failed_done (eg_scheduler e) (eg_jobs e) id j' now (cycle_config e)) as (p' & Hd); try done;
    [apply (rp_inv _ _ _ He)|by rewrite Es|].
  destruct (replay_call _ (on_failed s id jobs now cc) _ _ _ _ _ s1 jobs1 C Hd) as (e1 & Er & Hk & Et & Hrep); [| |done|].
  - eapply unfinished; [done|]. by apply occupies_not_blocked.
  - apply on_failed_lockstep, He.
  - simpl. rewrite Er. eexists _, _. split; [done|]. rewrite note_all_terminal_eq. unfold note_terminal. simpl. rewrite Et, <-app_assoc.
    split; [apply Hrep|]. split; [done|by apply max_u64].
Qed.

Lemma replay_cancelled cc id now s1 jobs1 C :
  cancel s id jobs now cc = Done (s1, jobs1, Ok C) → is_u64 now →
  replays (LogRecord.Cancelled id now) s1 jobs1.
Proof.
  intros E Hnow latest Hlat. pose proof E as E0. unfold cancel in E0.
  destruct (Arena_get jobs id) as [j|] eqn:Hj; [|done]. apply exec_bind_Done in E0 as (rs0 & _ & E0).
  destruct (try_transition j _) as [j1|] eqn:Et; [|done]. clear E0.
  apply try_transition_Ok in Et as [Ht _]. assert (is_terminal (state j) = false) as Ho by by destruct (state j).
  destruct (replay_job id j Hj) as (j' & Hj' & Es).
  destruct (cancel_done (eg_scheduler e) (eg_jobs e) id j' now (cycle_config e)) as (p' & Hd); try done;
    [apply (rp_inv _ _ _ He)|by rewrite Es|].
  destruct (replay_call _ (cancel s id jobs now cc) _ _ _ _ _ s1 jobs1 C Hd) as (e1 & Er & Hk & Et & Hrep); [| |done|].
  - by eapply unfinished.
  - apply cancel_lockstep, He.
  - simpl. rewrite Er. eexists _, _. split; [done|]. rewrite note_all_terminal_eq. unfold note_terminal. simpl. rewrite Et, <-app_assoc.
    split; [apply Hrep|]. split; [done|by apply max_u64].
Qed.

(** A call that finishes nothing. *)
Lemma replay_move (o live : exec (outcome unit)) id j st s1 jobs1 :
  Arena_get jobs id = Some j → occupies_slot (state j) = true → is_terminal st = false →
  call_done (eg_scheduler e) (eg_jobs e) id o tt st [] st → call_lockstep live o → live = Done (s1, jobs1, Ok tt) →
  ∃ e1, replayed e o = Done (Ok (e1, tt)) ∧ replaying e1 s1 jobs1 ∧ keeps e e1.
Proof.
  intros Hj Ho Hst Hd Hl E. destruct (replay_call o live tt id st [] st s1 jobs1 tt Hd) as (e1 & Er & Hk & Et & Hrep);
    [|done|done|]. { eapply unfinished; [done|]. by apply occupies_not_blocked. }
  exists e1. split; [done|]. split; [|done]. specialize (Hrep 0). unfold finishes in Hrep. rewrite Hst in Hrep.
  simpl in Hrep. rewrite app_nil_r, <-Et in Hrep. by assert (with_terminal e1 (eg_terminal e1) = e1) as <- by by destruct e1.
Qed.

Lemma replay_requeued (live : exec (outcome unit)) id j now s1 jobs1 :
  Arena_get jobs id = Some j → occupies_slot (state j) = true → is_u64 now →
  call_lockstep live (requeue (eg_scheduler e) id (eg_jobs e) now (cycle_config e)) → live = Done (s1, jobs1, Ok tt) →
  replays (LogRecord.Requeued id now) s1 jobs1.
Proof.
  intros Hj Ho Hnow Hl E latest Hlat. destruct (replay_job id j Hj) as (j' & Hj' & Es).
  destruct (replay_move (requeue (eg_scheduler e) id (eg_jobs e) now (cycle_config e)) live id j JobState.Ready s1 jobs1)
    as (e1 & Er & Hr & Hk); try done.
  - apply (requeue_done _ _ _ j'); try done; [apply (rp_inv _ _ _ He)|by rewrite Es].
  - simpl. rewrite Er. eexists _, _. split; [done|]. do 2 (split; [done|]). by apply max_u64.
Qed.

Lemma replay_preempted id now s1 jobs1 :
  preempt s id jobs = (s1, jobs1, Ok tt) → is_u64 now → replays (LogRecord.Preempted id now) s1 jobs1.
Proof.
  intros E Hnow latest Hlat. pose proof E as E0. unfold preempt in E0.
  destruct (Arena_get jobs id) as [j|] eqn:Hj; [|done]. destruct (try_transition j _) as [j1|] eqn:Et; [|done]. clear E0.
  apply try_transition_Ok in Et as [Ht _]. assert (state j = JobState.Running) as Hr by by destruct (state j).
  destruct (replay_job id j Hj) as (j' & Hj' & Es).
  destruct (replay_move (Done (preempt (eg_scheduler e) id (eg_jobs e))) (Done (preempt s id jobs)) id j JobState.Preempted s1 jobs1)
    as (e1 & Er & Hrep & Hk); try done.
  - by rewrite Hr.
  - apply (preempt_done _ _ _ j'); [apply (rp_inv _ _ _ He)|done|congruence].
  - apply preempt_lockstep, He.
  - by rewrite E.
  - simpl. rewrite Er. eexists _, _. split; [done|]. do 2 (split; [done|]). by apply max_u64.
Qed.

Lemma replay_dispatched id j now :
  Arena_get jobs id = Some j → state j = JobState.Ready → is_u64 now →
  replays (LogRecord.Dispatched id now) s (Arena_set jobs id (job_with_state j JobState.Running)).
Proof.
  intros Hj Hr Hnow latest Hlat. destruct (replay_job id j Hj) as (j' & Hj' & Es).
  destruct (restore_running_spec (eg_scheduler e) (eg_jobs e) id j' now (cycle_config e)) as (s1 & jobs1 & r & E & Hs & Hrr);
    [apply (rp_inv _ _ _ He)|done|done|done|].
  rewrite decide_True in Hrr by congruence. destruct Hrr as [-> ->].
  destruct (restore_running_frame _ _ _ _ _ _ _ _ E) as [Hlike Hed]. pose proof (restore_running_deps _ _ _ _ _ _ _ _ E) as Hdeps.
  destruct (replay_call (restore_running (eg_scheduler e) id (eg_jobs e) now (cycle_config e))
    (Done (s, Arena_set jobs id (job_with_state j JobState.Running), Ok tt)) tt id JobState.Running [] JobState.Running
    s (Arena_set jobs id (job_with_state j JobState.Running)) tt) as (e1 & Er & Hk & Et & Hrep).
  - eexists _, _. split; [done|]. split; [done|]. split; [|by split_and!; [constructor|apply not_elem_of_nil|]].
    eapply single_effect; [done| |intros x; by apply Arena_set_get with (w := j')]. done.
  - eapply unfinished; [done|]. by rewrite Hr.
  - intros ? ? ? ? ? ? [= <- <- <-]. rewrite E. intros [= <- <- <-]. eapply dispatched_lockstep; [apply He|done..].
  - done.
  - simpl. rewrite Er. eexists _, _. split; [done|]. split; [|by split; [|apply max_u64]].
    specialize (Hrep 0). simpl in Hrep. rewrite app_nil_r, <-Et in Hrep.
    by assert (with_terminal e1 (eg_terminal e1) = e1) as <- by by destruct e1.
Qed.

Lemma replay_forgotten id j :
  Arena_get jobs id = Some j → is_terminal (state j) = true → JobId_generation id < u32_max →
  replays (LogRecord.Forgotten id) s (Arena_remove jobs id).1.
Proof.
  intros Hj Ht Hg latest Hlat. destruct (replay_job id j Hj) as (j' & Hj' & Es). eexists _, _. split; [done|].
  split; [|done]. pose proof He as [H1 H2 H3 [H4 H4' H5]]. split; [|done|done|].
  - eapply forgotten_inv; [done|done|by rewrite Es|done].
  - split; [by eapply waits_forget|eapply waits_forget; [done|done|by rewrite Es|done]|]. simpl. by apply arena_rel_remove.
Qed.

Lemma replay_submitted cc id job jobs0 now s1 jobs1 st :
  state job = JobState.Submitted → Arena_insert jobs job = Done (jobs0, id) →
  Z.of_nat (length (slots jobs0)) <= u32_max → accepted job → job_fits job → is_u64 id →
  submit s id jobs0 now cc = Done (s1, jobs1, Ok st) →
  replays (LogRecord.Submitted id job) s1 jobs1.
Proof.
  intros Hst Hins Hsl Hacc [Hwf Hdl _] Hid E latest Hlat. pose proof He as [Hinv Hrun Hheld [Hw Hw' Hj]].
  pose proof (en_sched _ Hinv) as Hs. pose proof (si_jobs _ _ Hs) as [Hawf _ _].
  pose proof (arena_rel_insert _ _ _ job job Hj (reflexivity job)) as Hi. rewrite Hins in Hi.
  destruct (Arena_insert (eg_jobs e) job) as [[jobs0' id']| |] eqn:Hins'; [|done..]. destruct Hi as [<- Hj0].
  destruct (issued_insert _ _ _ _ Hawf Hins') as (Hni & Hi1 & Hiss).
  assert (Z.of_nat (length (slots jobs0')) <= u32_max) as Hsl' by by rewrite <-(arena_rel_length _ _ _ Hj0).
  destruct (submit_fresh (eg_scheduler e) (eg_jobs e) job jobs0' id (submit_time job) (cycle_config e) Hs Hwf Hdl Hst)
    as (Hnext & s2 & jobs2 & r & E' & Hs2 & Hr); [|by eapply handle_not_sentinel|done|done|].
  { intros Hin. by apply Hni, (en_edges _ Hinv). }
  destruct (waits_insert _ _ _ _ _ Hw Hst Hins Hsl) as (Hw0 & Hg0 & _ & Hnt).
  destruct (waits_insert _ _ _ _ _ Hw' Hst Hins' Hsl') as (Hw0' & Hg0' & _ & Hnt').
  destruct (submit_frame _ _ _ _ _ _ _ _ E') as [Hlike Hed].
  destruct (insert_get (eg_scheduler e) (eg_jobs e) job jobs0' id Hs Hins') as (_ & _ & Hnone & Hget0).
  assert (Arena_get jobs0' id = Some job) as Hj0' by (rewrite Hget0; by rewrite decide_True).
  destruct (submit_accepted _ _ _ _ _ _ _ _ E) as (k & rd & Hk & _ & Hmax & Hcl & -> & ->).
  rewrite Hg0 in Hk. injection Hk as <-.
  assert (check_submit id job (eg_jobs e) = Ok rd) as Hchk.
  { unfold check_submit. destruct (Z.leb_spec MAX_ACCOUNTS (account job)); [lia|].
    rewrite <-(insert_classify _ _ _ _ _ Hs Hins'). unfold classify. rewrite <-(classify_loop_same jobs0 jobs0' id _ _ Hj0).
    fold (classify id job jobs0). by rewrite Hcl. }
  rewrite Hchk in Hr. destruct Hr as [-> ->].
  assert (in_step s1 (Arena_set jobs0 id (job_with_state job (readiness_state rd))) s2
    (Arena_set jobs0' id (job_with_state job (readiness_state rd)))) as Hstep.
  { split; [by apply (waits_submit _ _ _ _ _ _ _ _ _ Hw0 Hg0 Hst Hdl Hnt E)|
      by apply (waits_submit _ _ _ _ _ _ _ _ _ Hw0' Hg0' Hst Hdl Hnt' E')|by apply arena_rel_set]. }
  assert (Engine_inv (with_terminal (with_sched e s2 (Arena_set jobs0' id (job_with_state job (readiness_state rd))))
    (eg_terminal e ++ ((fun x => (submit_time job, x)) <$> finishes (readiness_state rd) [id])))) as Hok.
  { pose proof (fresh_inv e s2 _ id (job_with_state job (readiness_state rd)) (eg_journal e) (submit_time job) Hinv Hs2) as Hf.
    apply Hf; try done.
    - intros x Hx. eapply issued_rel; [exact Hlike|]. by apply Hiss.
    - intros x. rewrite (Arena_set_get _ _ _ _ _ Hj0'), Hget0. by repeat case_decide.
    - intros x [->|Hx]%Hed%elem_of_cons; (eapply issued_rel; [exact Hlike|]); [done|]. by apply Hiss, (en_edges _ Hinv). }
  simpl. rewrite Hnext. cbn [exec_bind]. rewrite Z.eqb_refl. cbn [negb]. rewrite Hins'. cbn [exec_bind].
  unfold replayed, lift_call. rewrite E'. cbn [exec_bind and_then]. eexists _, _. split; [done|].
  split; [|split; [by destruct (is_terminal _)|apply max_u64; [done|apply Hwf]]].
  unfold finishes in Hok. destruct (is_terminal (readiness_state rd)); (split; [|done|done|done]).
  - exact Hok.
  - simpl in Hok. rewrite app_nil_r in Hok. exact Hok.
Qed.

End Replay.

(** Whatever the live engine logged, the replay follows. *)
Lemma replay_event e s jobs cc r s1 jobs1 :
  replaying e s jobs → config_ok (cycle_config e) → log_event cc s jobs r s1 jobs1 → record_fits r →
  replays e r s1 jobs1.
Proof.
  intros He Hcfg Hev [[Hid Hwf] _]. destruct Hev as [s jobs job jobs0 id now s1 jobs1 st ? ? ? ? E|s jobs id j now|s jobs id now s1 jobs1 p E
    |s jobs id now s1 jobs1 C E|s jobs id now s1 jobs1 C E|s jobs id j now s1 jobs1 Hj Ho E|s jobs id now s1 jobs1 E|s jobs id now s1 jobs1 E|s jobs id j];
    simpl in Hid, Hwf.
  - by eapply replay_submitted.
  - by eapply replay_dispatched.
  - by eapply replay_completed.
  - by eapply replay_failed.
  - by eapply replay_cancelled.
  - eapply replay_requeued; [done|done|done|done|done|eapply requeue_lockstep; [apply He|done|done]|done].
  - pose proof E as E0. unfold on_preempted in E0.
    destruct (Arena_get jobs id) as [j|] eqn:Hj; [|done]. case_bool_decide as Hp; [|done].
    eapply replay_requeued; [done|done|done|by rewrite Hp|done|apply on_preempted_lockstep, He|done].
  - by eapply replay_preempted.
  - by eapply replay_forgotten.
Qed.

Lemma keeps_trans e1 e2 e3 : keeps e1 e2 → keeps e2 e3 → keeps e1 e3.
Proof. unfold keeps. intros [-> ->] [-> ->]. done. Qed.

(** The whole log. *)
Lemma replay_trace cc s jobs rs s1 jobs1 e latest :
  log_trace cc s jobs rs s1 jobs1 → replaying e s jobs → is_u64 latest →
  ∃ e1 latest1, apply_all e rs latest = Done (Ok (e1, latest1)) ∧ replaying e1 s1 jobs1 ∧ keeps e e1 ∧ is_u64 latest1.
Proof.
  intros Ht. revert e latest. induction Ht as [s jobs|s s1 jobs rs s' jobs' Ed _ IH|s jobs r s1 jobs1 rs s' jobs' Hf Hev _ IH];
    intros e latest He Hlat.
  - exists e, latest. done.
  - apply IH; [|done]. destruct He as [H1 H2 H3 [H4 H5 H6]]. split; try done. split; [by rewrite Ed|done|done].
  - cbn [apply_all]. assert (config_ok (cycle_config e)) as Hcfg by apply (eo_cycle _ (en_config _ (rp_inv _ _ _ He))).
    destruct (replay_event e s jobs cc r s1 jobs1 He Hcfg Hev Hf latest Hlat) as (e1 & l1 & -> & He1 & Hk & Hl1). cbn [and_then exec_bind].
    destruct (IH e1 l1 He1 Hl1) as (e2 & l2 & -> & He2 & Hk2 & Hl2). exists e2, l2. split; [done|].
    split; [done|]. split; [by eapply keeps_trans|done].
Qed.

(** ** The end of recovery *)

(** A job as recovery leaves it: an eviction under way is dropped. *)
Definition recovered_state (st : JobState) : JobState :=
  match st with JobState.Preempted => JobState.Ready | _ => st end.

Definition recovered_job (j j' : Job) : Prop := job_like j j' ∧ state j' = recovered_state (state j).

(** Requeueing the jobs that were being evicted. *)
Lemma requeue_evicting_all e ids latest :
  Engine_inv e → waits (sc_deps (eg_scheduler e)) (eg_jobs e) → eg_running e = [] → is_u64 latest → NoDup ids →
  (∀ x, x ∈ ids → job_state (eg_jobs e) x = Some JobState.Preempted) →
  ∃ e1, waits (sc_deps (eg_scheduler e1)) (eg_jobs e1) ∧ recovering_fold (requeue_evicting latest) e ids = Done (Ok e1) ∧ Engine_inv e1 ∧ keeps e e1 ∧
    eg_running e1 = [] ∧ eg_reconciling e1 = eg_reconciling e ∧ arena_rel job_like (eg_jobs e) (eg_jobs e1) ∧
    ∀ x, job_state (eg_jobs e1) x = if decide (x ∈ ids) then Some JobState.Ready else job_state (eg_jobs e) x.
Proof.
  intros He Hw Hrun Hlat Hnd. revert e He Hw Hrun. induction Hnd as [|id ids Hn _ IH]; intros e He Hw Hrun Hst; cbn [recovering_fold].
  { exists e. do 7 (split; [done|]). intros x. by rewrite decide_False by apply not_elem_of_nil. }
  pose proof (Hst id ltac:(by left)) as Hp. unfold job_state in Hp.
  destruct (Arena_get (eg_jobs e) id) as [j|] eqn:Hj; [|done]. injection Hp as Hp.
  destruct (requeue_done (eg_scheduler e) (eg_jobs e) id j latest (cycle_config e) (en_sched _ He)
    (eo_cycle _ (en_config _ He)) Hlat Hj) as (s' & jobs' & E & Hs & Hce & _ & _ & Hed); [by rewrite Hp|].
  unfold requeue_evicting at 1, replayed, lift_call. rewrite E. cbn [exec_bind and_then].
  set (e1 := with_sched e s' jobs').
  assert (Engine_inv e1) as He1.
  { destruct (call_inv e s' jobs' id JobState.Ready [] JobState.Ready 0) as [H1 H2 H3 H4 H5 H6 H7 H8]; try done.
    - rewrite Hrun. by intros ?%elem_of_nil.
    - intros Hh. pose proof (hv_running _ _ _ (en_held _ He) _ Hh) as Hr. unfold job_state in Hr. rewrite Hj in Hr.
      injection Hr as Hr. congruence.
    - eapply occupied_unfinished; [done|]. by rewrite Hp.
    - constructor.
    - apply not_elem_of_nil.
    - simpl in H8. rewrite app_nil_r in H8. by split. }
  assert (∀ x, job_state jobs' x = if decide (x = id) then Some JobState.Ready else job_state (eg_jobs e) x) as Hst1.
  { intros x. rewrite (ce_after _ _ _ _ _ _ Hce x). case_decide; [done|]. by rewrite decide_False by apply not_elem_of_nil. }
  assert (waits (sc_deps s') jobs') as Hw1 by (eapply waits_requeue; [exact E|done|by rewrite Hp|done]).
  destruct (IH e1 He1 Hw1 Hrun) as (e2 & Hw2 & -> & He2 & Hk & Hr & Hh & Hl & Hst2).
  { intros x Hx. simpl. rewrite Hst1, decide_False by (by intros ->). apply Hst. by right. }
  exists e2. do 6 (split; [done|]).
  split; [etrans; [apply Hce|done]|]. intros x. rewrite Hst2. simpl. rewrite Hst1.
  destruct (decide (x ∈ ids)) as [Hx|Hx]; [by rewrite decide_True by by right|].
  destruct (decide (x = id)) as [->|Hne]; [by rewrite decide_True by by left|]. rewrite decide_False; [done|set_solver].
Qed.

(** What recovery promises of the engine it rebuilds from jobs. *)
Record recovered_from (hash : bytes → Z) (jobs : Arena Job) (latest : VirtualTime) (j : EngineJournal) (e : Engine) : Prop := {
  rf_inv : Engine_inv e;
  rf_jobs : ∀ x, option_Forall2 recovered_job (Arena_get jobs x) (Arena_get (eg_jobs e) x);
  rf_waits : waits (sc_deps (eg_scheduler e)) (eg_jobs e);
  rf_running : eg_running e = [];
  rf_held : ∀ x, x ∈ eg_reconciling e ↔ job_state jobs x = Some JobState.Running;
  rf_journal : eg_journal e = Some (attach_snapshot j (snapshot_bytes hash (engine_snapshot e latest)));
}.

(** The tail of [recover], after the log. *)
Definition settle (hash : bytes → Z) (e : Engine) (latest : VirtualTime) : recovering (Engine * VirtualTime) :=
  let e := with_reconciling e (jobs_in_state (eg_jobs e) JobState.Running) in
  let evicting := jobs_in_state (eg_jobs e) JobState.Preempted in
  and_then (recovering_fold (requeue_evicting latest) e evicting) (fun e =>
  let origin := time_saturating_add latest 1 in
  let! snapshot := engine_encode_snapshot hash e latest in
  let e :=
    match eg_journal e with
    | Some j => with_journal e (Some (attach_snapshot j snapshot))
    | None => e
    end in
  Done (Ok (e, origin))).

Lemma settle_ok hash e s jobs latest j :
  replaying e s jobs → is_u64 latest → eg_journal e = Some j →
  ∃ e1, settle hash e latest = Done (Ok (e1, time_saturating_add latest 1)) ∧ recovered_from hash jobs latest j e1 ∧
    eg_config e1 = eg_config e.
Proof.
  intros [He Hrun Hheld [_ Hw Hj]] Hlat Ej. pose proof (jo_arena _ (si_jobs _ _ (en_sched _ He))) as Hwf. unfold settle.
  set (e1 := with_reconciling e _). simpl (eg_jobs e1).
  assert (Engine_inv e1) as He1.
  { destruct He as [H1 H2 H3 H4 H5 H6 H7 H8]. split; try done. simpl. split.
    - by apply jobs_in_state_NoDup.
    - intros x. by rewrite jobs_in_state_elem.
    - rewrite Hrun. intros x _. apply not_elem_of_nil. }
  destruct (requeue_evicting_all e1 (jobs_in_state (eg_jobs e) JobState.Preempted) latest He1 Hw Hrun Hlat)
    as (e2 & Hw2 & -> & He2 & [Hk1 Hk2] & Hr & Hh & Hl & Hst).
  { by apply jobs_in_state_NoDup. } { intros x. by rewrite jobs_in_state_elem. }
  cbn [and_then exec_bind]. unfold engine_encode_snapshot.
  rewrite (encode_snapshot_writes hash _ (snapshot_fits e2 latest He2 Hlat) []). cbn [exec_bind].
  assert (eg_journal e2 = Some j) as -> by by rewrite Hk2. eexists. split; [done|]. split; [|done]. split; try done.
  - by apply with_journal_inv.
  - intros x. simpl. pose proof (job_state_same _ _ x Hj) as Es. specialize (Hst x). simpl in Hst.
    destruct (Arena_get jobs x) as [k|] eqn:Hk.
    + destruct (arena_rel_Some_l _ _ _ _ _ Hj Hk) as (k1 & Hk1' & Hs1).
      destruct (arena_rel_Some_l _ _ _ _ _ Hl Hk1') as (k2 & Hk2' & Hl2). rewrite Hk2'. constructor. split.
      * etrans; [by apply same_job_like|done].
      * unfold job_state in Hst. rewrite Hk2' in Hst. rewrite (same_job_state _ _ Hs1).
        destruct (decide (x ∈ jobs_in_state (eg_jobs e) JobState.Preempted)) as [Hx|Hx].
        -- apply jobs_in_state_elem in Hx; [|done]. unfold job_state in Hx. rewrite Hk1' in Hx. injection Hx as ->.
           by injection Hst as ->.
        -- rewrite jobs_in_state_elem in Hx by done. unfold job_state in Hx. rewrite Hk1' in Hx, Hst. injection Hst as ->.
           simpl in Hx. by destruct (state k1).
    + rewrite (arena_rel_None _ _ _ _ Hl); [constructor|]. by eapply arena_rel_None.
  - intros x. simpl. rewrite Hh. simpl. rewrite jobs_in_state_elem by done. by rewrite (job_state_same _ _ x Hj).
Qed.

Lemma recover_engine_settle hash config recovered journal :
  recover_engine hash config recovered journal =
  let! e := build config (Some journal) in
  and_then
    (match rec_snapshot recovered with
     | Some snapshot => restore_snapshot e snapshot
     | None => Done (Ok (e, 0))
     end) (fun '(e, latest) =>
  and_then (apply_all e (rec_records recovered) latest) (fun '(e, latest) => settle hash e latest)).
Proof. done. Qed.

(** Cutting a logged run after any number of records. *)
Lemma log_trace_cut cc s jobs rs s' jobs' k :
  log_trace cc s jobs rs s' jobs' →
  ∃ s1 jobs1, log_trace cc s jobs (take k rs) s1 jobs1 ∧ log_trace cc s1 jobs1 (drop k rs) s' jobs'.
Proof.
  intros Ht. revert k. induction Ht as [s jobs|s s1 jobs rs s' jobs' Ed _ IH|s jobs r s1 jobs1 rs s' jobs' Hf Hev Ht IH]; intros k.
  - exists s, jobs. rewrite take_nil, drop_nil. split; constructor.
  - destruct (IH k) as (s2 & jobs2 & H1 & H2). exists s2, jobs2. split; [by eapply lt_silent|done].
  - destruct k as [|k].
    + exists s, jobs. split; [constructor|]. by eapply lt_event.
    + destruct (IH k) as (s2 & jobs2 & H1 & H2). exists s2, jobs2. split; [by eapply lt_event|done].
Qed.

(** A log that holds no snapshot yet. *)
Lemma logged_trace cc s0 jobs0 bs s jobs :
  logged cc s0 jobs0 bs s jobs → log_trace cc s0 jobs0 (concat ((fun b => bt_before b ++ bt_after b) <$> bs)) s jobs.
Proof.
  induction 1 as [|bs s1 jobs1 s2 jobs2 s3 jobs3 b _ IH H2 _ H3]; [constructor|].
  rewrite fmap_app, concat_app. cbn [fmap list_fmap concat]. rewrite app_nil_r.
  eapply log_trace_app; [exact IH|]. by eapply log_trace_app.
Qed.

Lemma build_replaying config jr jr' e0 :
  daemon_config_ok config → build config jr = Done e0 →
  ∃ e, build config (Some jr') = Done e ∧ replaying e (eg_scheduler e0) Arena_new ∧ eg_journal e = Some jr'.
Proof.
  intros Hc E0. destruct (build_ok config (Some jr') Hc) as (e & E & He & Hj & Hjr & _ & Hed).
  destruct (build_ok config jr Hc) as (e1 & E1 & He1 & Hj1 & _ & _ & Hed1). rewrite E0 in E1. injection E1 as <-.
  exists e. split; [done|]. split; [|done]. split; [done| | |].
  - unfold build in E. destruct (set_all_shares _ _) as [sc| |]; [|done..]. by injection E as <-.
  - unfold build in E. destruct (set_all_shares _ _) as [sc| |]; [|done..]. by injection E as <-.
  - rewrite Hj. split; [..|reflexivity]; (apply waits_new; [|done]); [rewrite <-Hj1; apply He1|rewrite <-Hj; apply He].
Qed.

(** A log replayed from an empty engine. *)
Lemma recover_from_log hash config jr jr' e0 rs s jobs g torn :
  daemon_config_ok config → build config jr = Done e0 →
  log_trace (dc_cycle config) (eg_scheduler e0) Arena_new rs s jobs →
  ∃ e latest, recover_engine hash config (MkRecovered g None rs torn) jr' = Done (Ok (e, time_saturating_add latest 1)) ∧
    is_u64 latest ∧ recovered_from hash jobs latest jr' e.
Proof.
  intros Hc E0 Ht. destruct (build_replaying config jr jr' e0 Hc E0) as (e & E & Hr & Hj).
  rewrite recover_engine_settle, E. cbn [exec_bind and_then rec_snapshot rec_records].
  destruct (replay_trace _ _ _ _ _ _ e 0 Ht Hr) as (e1 & l1 & -> & Hr1 & [_ Hk] & Hl1); [unfold is_u64; lia|].
  cbn [exec_bind and_then]. rewrite Hj in Hk.
  destruct (settle_ok hash e1 s jobs l1 jr' Hr1 Hl1 Hk) as (e2 & -> & Hrec & _). eauto.
Qed.

Lemma frames_concat hash sent bs :
  Forall2 (batch_of hash) sent bs → Forall (fun c => cm_snapshot c = None) sent →
  concat (cm_frames <$> sent) = frames hash (concat ((fun b => bt_before b ++ bt_after b) <$> bs)).
Proof.
  induction 1 as [|c b sent bs Hb _ IH]; intros Hs; [done|]. apply Forall_cons in Hs as [Hc Hs].
  rewrite !fmap_cons. cbn [concat]. rewrite frames_app, IH by done. f_equal. destruct Hb as [_ Hf Hsn Ho _ _].
  rewrite Hsn in Hc. destruct (bt_snapshot b); [done|]. rewrite (Ho eq_refl). exact Hf.
Qed.

(** ** Properties *)

(** Recovery reproduces the run.  Take any run of an engine with a journal
    that has not yet rotated its log.  The frames it sent are the encoding of a
    list of records, and from any prefix of that list - whatever a crash left of
    it - recovery succeeds and rebuilds the engine as it was after those records:
    the same jobs under the same handles with the same states and contents, but
    that an eviction under way is dropped and preemption counts may differ; every
    [Running] job is held for its worker and no other; nothing is bound yet; and
    the invariant of the live engine holds again. *)
Theorem recovery_reproduces_the_run hash {Q : Type → Type} `{ArrayQueue Q} config n e (w : World Q) sent :
  daemon_config_ok config → reaches hash config (Some (Journal_new n)) e w sent →
  Forall (fun c => cm_snapshot c = None) sent →
  ∃ e0 rs rest, build config (Some (Journal_new n)) = Done e0 ∧ concat (cm_frames <$> sent) = frames hash rs ∧
    log_trace (dc_cycle config) (eg_scheduler e0) Arena_new (rs ++ rest) (eg_scheduler e) (eg_jobs e) ∧
    ∀ k g torn jr, ∃ s jobs e' latest,
      log_trace (dc_cycle config) (eg_scheduler e0) Arena_new (take k rs) s jobs ∧
      log_trace (dc_cycle config) s jobs (drop k rs ++ rest) (eg_scheduler e) (eg_jobs e) ∧
      recover_engine hash config (MkRecovered g None (take k rs) torn) jr = Done (Ok (e', time_saturating_add latest 1)) ∧
      recovered_from hash jobs latest jr e'.
Proof.
  intros Hcfg Hr Hsn. destruct (reaches_history hash config e w sent n Hcfg Hr)
    as (e0 & E0 & Hj0 & j & bs & rb & osn & rf & _ & Hbs & _ & _ & Hl & _). rewrite Hj0 in Hl. apply logged_trace in Hl.
  rewrite fmap_app, concat_app in Hl. cbn [fmap list_fmap concat bt_before bt_after] in Hl. rewrite app_nil_r in Hl.
  exists e0. eexists _, (rb ++ rf). split; [done|]. split; [by apply frames_concat|]. split; [exact Hl|].
  intros k g torn jr. set (rs := concat _) in *. rewrite <-(take_drop k rs), <-app_assoc in Hl.
  apply (log_trace_cut _ _ _ _ _ _ (length (take k rs))) in Hl as (s & jobs & H1 & H2).
  rewrite take_app_length in H1. rewrite drop_app_length in H2.
  destruct (recover_from_log hash config (Some (Journal_new n)) jr e0 (take k rs) s jobs g torn Hcfg E0 H1)
    as (e' & latest & ? & _ & ?). eauto 10.
Qed.

(** C16: The reconcile window closes.  While jobs are held for their workers the
    first tick arms a deadline that later ticks do not move; until then the held
    jobs are left alone, and the first tick at or after it returns every job still
    held to the queue and holds none. *)
Theorem reconcile_window_closes hash {Q : Type → Type} `{ArrayQueue Q} e (w : World Q) now :
  Engine_inv e → is_u64 now → generations_left e →
  ∃ e' w' outcome, tick hash e w now = Done (e', w', outcome) ∧
    (eg_reconciling e ≠ [] → now < reconcile_deadline e now →
       eg_reconciling e' = eg_reconciling e ∧ ∀ later, reconcile_deadline e' later = reconcile_deadline e now) ∧
    (reconcile_deadline e now <= now → eg_reconciling e' = [] ∧
       ∀ x, x ∈ eg_reconciling e → job_state (eg_jobs e') x = Some JobState.Ready).
Proof.
  intros He Hnow Hg.
  destruct (tick_ok hash e w now He Hnow Hg) as (e3 & w3 & out & _ & [_ Hc _] & [_ Hw Hq] & Et & _).
  destruct (commit_journal_form (with_journal e3 (batched hash e3 now <$> eg_journal e3)) w3) as [jr Ec].
  rewrite Ec in Et. eexists _, _, _. split; [exact Et|]. split.
  - intros Hne Hlt. destruct (Hw Hne Hlt) as [Hr Hu]. split; [done|]. intros later.
    unfold reconcile_deadline at 1. simpl. by rewrite Hu.
  - intros Hle. by destruct (Hq Hle) as (? & _ & ?).
Qed.

Lemma recovery_reproduces_the_run_witness :
  ∃ e0 rs rest, build demo_daemon_config (Some (Journal_new 1000000)) = Done e0 ∧
    concat (cm_frames <$> w_commits demo_ticked.1.2) = frames crc32 rs ∧
    log_trace (dc_cycle demo_daemon_config) (eg_scheduler e0) Arena_new (rs ++ rest)
      (eg_scheduler demo_ticked.1.1) (eg_jobs demo_ticked.1.1) ∧
    ∀ k g torn jr, ∃ s jobs e' latest,
      log_trace (dc_cycle demo_daemon_config) (eg_scheduler e0) Arena_new (take k rs) s jobs ∧
      log_trace (dc_cycle demo_daemon_config) s jobs (drop k rs ++ rest) (eg_scheduler demo_ticked.1.1) (eg_jobs demo_ticked.1.1) ∧
      recover_engine crc32 demo_daemon_config (MkRecovered g None (take k rs) torn) jr =
        Done (Ok (e', time_saturating_add latest 1)) ∧
      recovered_from crc32 jobs latest jr e'.
Proof.
  apply (recovery_reproduces_the_run crc32 demo_daemon_config 1000000 demo_ticked.1.1 demo_ticked.1.2
    (w_commits demo_ticked.1.2)); [apply demo_daemon_config_ok|apply demo_ticked_reaches|].
  repeat constructor.
Defined.

(** The demo daemon crashes with its first job running. *)
Definition demo_crash_records : list LogRecord :=
  [LogRecord.Submitted 0 (demo_submission []); LogRecord.Submitted 1 (demo_submission [0]); LogRecord.Dispatched 0 20].

Definition demo_recovered : Engine :=
  Eval vm_compute in
  match recover_engine crc32 demo_daemon_config (MkRecovered 0 None demo_crash_records None) (Journal_new 1000000) with
  | Done (Ok (e, _)) => e
  | _ => demo_built
  end.

Lemma demo_trace : ∃ s jobs, log_trace (dc_cycle demo_daemon_config) (eg_scheduler demo_built) Arena_new demo_crash_records s jobs.
Proof.
  eexists _, _. pose proof (sk_fits _ (demo_submit_ok [] ltac:(by left))) as F0.
  pose proof (sk_fits _ (demo_submit_ok [0] ltac:(by right))) as F1.
  eapply lt_event; [apply F0; unfold is_u64; lia| |].
  { eapply (ev_submitted _ _ _ _ _ _ 10); [done|vm_compute; reflexivity|vm_compute; discriminate|by split|vm_compute; reflexivity]. }
  eapply lt_event; [apply F1; unfold is_u64; lia| |].
  { eapply (ev_submitted _ _ _ _ _ _ 10); [done|vm_compute; reflexivity|vm_compute; discriminate|by split|vm_compute; reflexivity]. }
  eapply lt_event; [apply event_fits; [set_solver|unfold is_u64; lia..]| |constructor].
  eapply ev_dispatched; [vm_compute; reflexivity|done].
Qed.

Lemma demo_recovered_inv : Engine_inv demo_recovered.
Proof.
  destruct demo_trace as (s & jobs & Ht).
  destruct (recover_from_log crc32 demo_daemon_config (Some (Journal_new 1000000)) (Journal_new 1000000) demo_built demo_crash_records s jobs 0 None)
    as (e & l & E & _ & [Hi _ _ _ _ _]); [apply demo_daemon_config_ok|vm_compute; reflexivity|done|].
  assert (∃ o, recover_engine crc32 demo_daemon_config (MkRecovered 0 None demo_crash_records None) (Journal_new 1000000)
    = Done (Ok (demo_recovered, o))) as [o E'] by (eexists; vm_compute; reflexivity).
  rewrite E in E'. by injection E' as -> _.
Qed.

Example demo_recovery : eg_reconciling demo_recovered = [0] ∧
  job_state (eg_jobs demo_recovered) 0 = Some JobState.Running ∧ job_state (eg_jobs demo_recovered) 1 = Some JobState.Blocked.
Proof. by vm_compute. Qed.

Lemma reconcile_window_closes_witness :
  let e := with_until demo_recovered (Some 40) in
  ∃ e' w' outcome, tick crc32 e demo_world 50 = Done (e', w', outcome) ∧
    (eg_reconciling e ≠ [] → 50 < reconcile_deadline e 50 →
       eg_reconciling e' = eg_reconciling e ∧ ∀ later, reconcile_deadline e' later = reconcile_deadline e 50) ∧
    (reconcile_deadline e 50 <= 50 → eg_reconciling e' = [] ∧
       ∀ x, x ∈ eg_reconciling e → job_state (eg_jobs e') x = Some JobState.Ready).
Proof.
  apply (reconcile_window_closes crc32 (Q := ListQueue)); [by destruct demo_recovered_inv|unfold is_u64; lia|].
  intros p Hp. by apply elem_of_nil in Hp.
Defined.

(** ** Where recovery and the engine fall short *)

(** The overflow is flushed last in, first out. *)
Example overflow_reverses :
  let d1 := Dispatch.Assign 0 1 [] 10 in
  let d2 := Dispatch.Preempt 0 1 5 in
  q_items (w_outbox (flush_overflow (with_overflow demo_built [d1; d2]) demo_world).2) = [d2; d1].
Proof. reflexivity. Qed.

Definition demo_recover_snapshot (slots : list (SlotState Job)) : exec (result (Engine * VirtualTime) RecoverError) :=
  recover_engine crc32 demo_daemon_config (MkRecovered 1 (Some (MkSnapshot 50 slots None [] [])) [] None) (Journal_new 1000000).

(** A job in a reused slot waits for one at a higher index: after a restart from a
    snapshot it is [Blocked] with no edge left to wake it. *)
Example restored_dependent_is_stranded :
  ∃ e o, demo_recover_snapshot
      [SlotState.Occupied 1 (job_with_state (demo_submission [JobId_new 1 0]) JobState.Blocked);
       SlotState.Occupied 0 (job_with_state (demo_submission []) JobState.Ready)] = Done (Ok (e, o)) ∧
    job_state (eg_jobs e) (JobId_new 0 1) = Some JobState.Blocked ∧
    job_state (eg_jobs e) (JobId_new 1 0) = Some JobState.Ready ∧ edges (sc_deps (eg_scheduler e)) = [].
Proof. eexists _, _. split; [vm_compute; reflexivity|]. by vm_compute. Qed.

(** A job whose dependency completed and was forgotten makes recovery fail. *)
Example forgotten_dependency_breaks_recovery :
  demo_recover_snapshot
    [SlotState.Occupied 0 (job_with_state (demo_submission [JobId_new 7 0]) JobState.Running)] =
  Done (Err (RecoverError.Lifecycle (LifecycleError.Dependency (MkDependencyError (JobId_new 0 0) (JobId_new 7 0))))).
Proof. vm_compute. reflexivity. Qed.

(** A job under eviction when the snapshot is taken comes back [Ready]; the
    [Requeued] record its worker's report then wrote cannot be replayed, and
    recovery fails. *)
Example evicted_job_breaks_recovery :
  recover_engine crc32 demo_daemon_config
    (MkRecovered 1 (Some (MkSnapshot 50 [SlotState.Occupied 0 (job_with_state (demo_submission []) JobState.Preempted)] None [] []))
       [LogRecord.Requeued 0 60] None) (Journal_new 1000000) =
  Done (Err (RecoverError.Lifecycle (LifecycleError.Transition (MkTransitionError JobState.Ready JobState.Ready)))).
Proof. vm_compute. reflexivity. Qed.

(** A [Preempted] report for a job that is not being evicted frees its slot and
    forgets its binding before it is refused: the job stays [Running], bound to
    nothing and held for nobody, and its completion is then ignored. *)
Example stray_report_strands_a_job :
  ∃ e e', on_preempted_report crc32 demo_ticked.1.1 0 40 = Done e ∧
    job_state (eg_jobs e) 0 = Some JobState.Running ∧ eg_running e = [] ∧ eg_reconciling e = [] ∧
    on_completed_report crc32 e 0 50 = Done e' ∧ job_state (eg_jobs e') 0 = Some JobState.Running.
Proof. eexists _, _. split; [vm_compute; reflexivity|]. do 3 (split; [vm_compute; reflexivity|]). split; vm_compute; reflexivity. Qed.

(** Replaying an eviction does not count it. *)
Example replay_forgets_evictions :
  ∃ s jobs e l, log_trace (dc_cycle demo_daemon_config) (eg_scheduler demo_built) Arena_new
      (demo_crash_records ++ [LogRecord.Preempted 0 30; LogRecord.Requeued 0 40]) s jobs ∧
    apply_all demo_built (demo_crash_records ++ [LogRecord.Preempted 0 30; LogRecord.Requeued 0 40]) 0 = Done (Ok (e, l)) ∧
    preemptions <$> Arena_get jobs 0 = Some 1 ∧ preemptions <$> Arena_get (eg_jobs e) 0 = Some 0.
Proof.
  eexists _, _, _, _. pose proof (sk_fits _ (demo_submit_ok [] ltac:(by left))) as F0.
  pose proof (sk_fits _ (demo_submit_ok [0] ltac:(by right))) as F1. split; [|split; [vm_compute; reflexivity|]].
  - eapply lt_event; [apply F0; unfold is_u64; lia| |].
    { eapply (ev_submitted _ _ _ _ _ _ 10); [done|vm_compute; reflexivity|vm_compute; discriminate|by split|vm_compute; reflexivity]. }
    eapply lt_event; [apply F1; unfold is_u64; lia| |].
    { eapply (ev_submitted _ _ _ _ _ _ 10); [done|vm_compute; reflexivity|vm_compute; discriminate|by split|vm_compute; reflexivity]. }
    eapply lt_event; [apply event_fits; [set_solver|unfold is_u64; lia..]| |].
    { eapply ev_dispatched; [vm_compute; reflexivity|done]. }
    eapply lt_event; [apply event_fits; [set_solver|unfold is_u64; lia..]|apply ev_preempted; vm_compute; reflexivity|].
    eapply lt_event; [apply event_fits; [set_solver|unfold is_u64; lia..]|apply ev_evicted; vm_compute; reflexivity|constructor].
  - split; vm_compute; reflexivity.
Qed.
