(* ===== verification/Restart.v ===== *)
(** * Restoring a snapshot

    [Engine::restore_snapshot] rebuilds the scheduler from the arena alone: it
    puts every unfinished job back to [Submitted], submits them again in the order
    of their slots, and moves the ones that were running.  The result is in step
    with the engine the snapshot was taken from when every unfinished job's
    dependencies are still in the arena, in earlier slots, and none is being
    evicted ([restorable]); [Recovery] has what happens otherwise.  A log that
    continues a snapshot is then replayed like one that starts from nothing. *)

From stdpp Require Import base strings list numbers option sets sorting relations.
From Stdlib Require Import ZArith Lia.
From S2P Require Import Prelude Domain Arena Job Inventory Priority ReadySet Eligibility.
From S2P Require Import Decay FairShare Pack Backfill Preempt Scheduler Cycle Frame.
From S2P Require Import Codec LogRecord Log Snapshot Store Journal Command Engine EngineInv EngineSteps EngineTick EngineRun Order Replay Recovery.
Open Scope Z_scope.
Open Scope list_scope.

(** ** Which snapshots restore *)

Definition resumable (st : JobState) : bool :=
  match st with JobState.Blocked | JobState.Ready | JobState.Running => true | _ => false end.

(** The job is finished, or waits only for jobs of earlier slots. *)
Definition restorable_job (jobs : Arena Job) (p : JobId * Job) : bool :=
  is_terminal (state p.2) ||
  (resumable (state p.2) &&
   forallb (fun d => (JobId_index d <? JobId_index p.1) && bool_decide (is_Some (Arena_get jobs d))) (deps p.2)).

Definition restorable (jobs : Arena Job) : bool := forallb (restorable_job jobs) (Arena_iter jobs).

Lemma restorable_spec jobs x j :
  Arena_wf jobs → restorable jobs = true → Arena_get jobs x = Some j → is_terminal (state j) = false →
  resumable (state j) = true ∧ ∀ d, d ∈ deps j → JobId_index d < JobId_index x ∧ is_Some (Arena_get jobs d).
Proof.
  intros Hwf Hr Hj Ht. unfold restorable in Hr. rewrite forallb_forall in Hr.
  specialize (Hr (x, j)). unfold restorable_job in Hr. cbn [fst snd] in Hr. rewrite Ht in Hr.
  specialize (Hr ltac:(by apply list_elem_of_In, Arena_iter_elem)). cbn [orb] in Hr.
  apply andb_true_iff in Hr as [? Hd]. split; [done|]. rewrite forallb_forall in Hd.
  intros d Hin%list_elem_of_In%Hd. rewrite andb_true_iff, Z.ltb_lt, bool_decide_eq_true in Hin. done.
Qed.

(** Restoring visits the slots in order. *)
Lemma Arena_iter_sorted {T} (a : Arena T) :
  Z.of_nat (length (slots a)) <= u32_max + 1 →
  StronglySorted (fun x y => JobId_index x < JobId_index y) (Arena_iter a).*1.
Proof.
  intros Hlen. unfold Arena_iter.
  assert (∀ (ss : list (Slot T)) k, Z.of_nat k + Z.of_nat (length ss) <= u32_max + 1 →
    StronglySorted (fun x y => JobId_index x < JobId_index y) (omap id (imap (fun i => slot_entry (k + i)) ss)).*1) as H.
  { induction ss as [|s ss IH]; intros k Hk; cbn [imap omap list_omap]; [constructor|]. cbn [length] in Hk.
    specialize (IH (S k) ltac:(lia)). destruct (slot_entries_NoDup ss (S k) ltac:(lia)) as [_ Hge].
    rewrite (imap_ext _ (fun i => slot_entry (S k + i))) by (intros; cbn; by rewrite Nat.add_succ_r).
    rewrite Nat.add_0_r. destruct s as [g v|g nx]; cbn; [|exact IH]. constructor; [exact IH|].
    apply Forall_forall. intros y Hy%Hge. rewrite JobId_index_new by lia. lia. }
  apply (H (slots a) 0%nat). lia.
Qed.

(** ** The arena restoring starts from *)

Definition reset_job (j : Job) : Job :=
  if is_terminal (state j) then j else job_with_state j JobState.Submitted.

Definition reset_arena (jobs : Arena Job) : Arena Job :=
  MkArena (map (fun s => state_to_slot (reset_slot (slot_to_state s))) (slots jobs)) (free_head jobs) (arena_len jobs).

Lemma reset_arena_rel jobs : arena_rel (fun j j' => j' = reset_job j) jobs (reset_arena jobs).
Proof.
  split; try done. cbn. apply Forall2_same_length_lookup. split; [by rewrite List.length_map|].
  intros i x y Hx Hy. change (map ?f ?l) with (f <$> l) in Hy. rewrite list_lookup_fmap, Hx in Hy. injection Hy as <-.
  destruct x as [g v|g n]; cbn; [|constructor].
  destruct (is_terminal (state v)) eqn:Et; cbn; constructor; unfold reset_job; by rewrite Et.
Qed.

Lemma reset_from_parts jobs :
  Arena_wf jobs → Arena_from_parts (map reset_slot (Arena_slots jobs)) (free_head jobs) = Done (Ok (reset_arena jobs)).
Proof.
  intros Hwf. pose proof (arena_rel_wf _ _ _ (reset_arena_rel jobs) Hwf) as Hwf'.
  rewrite <-(Arena_from_parts_slots (reset_arena jobs) Hwf'). f_equal. unfold Arena_slots, reset_arena. cbn.
  rewrite !List.map_map. apply List.map_ext. intros [g v|g n]; cbn; [|done]. by destruct (is_terminal (state v)).
Qed.

Lemma reset_like jobs : arena_rel job_like jobs (reset_arena jobs).
Proof.
  eapply arena_rel_mono; [|apply reset_arena_rel]. intros v w ->. unfold reset_job.
  destruct (is_terminal (state v)); [done|apply job_like_state].
Qed.

(** ** Submitting again *)

(** Submission tracks the job and those it waits for. *)
Lemma submit_tracked s jobs id j now config s1 jobs1 st y :
  deps_ok (sc_deps s) jobs → Arena_get jobs id = Some j → state j = JobState.Submitted →
  Z.of_nat (length (deps j)) <= u32_max → ¬ tracked (sc_deps s) id →
  submit s id jobs now config = Done (s1, jobs1, Ok st) → tracked (sc_deps s1) y →
  tracked (sc_deps s) y ∨ y = id ∨ y ∈ deps j.
Proof.
  intros Hd Hj Hs Hlen Hnt E. unfold submit in E. rewrite Hj in E. destruct (negb _); [done|].
  destruct (ensure _ _) as [fs [u|]]; [|done].
  assert (is_pending jobs id = true) as Hp by (apply is_pending_live; exists j; by rewrite Hs).
  destruct (register_spec (sc_deps s) jobs id j (do_wf _ _ Hd) (do_arena _ _ Hd) Hp Hnt Hlen) as (t & r & Er & _ & Hreg).
  rewrite Er in E. cbn [exec_bind] in E. destruct r as [rd|]; [|done]. cbn [expect exec_bind] in E.
  destruct (try_transition j _) as [j1|]; [|done]. apply exec_bind_Done in E as (rs & _ & E). injection E as <- _ _. cbn.
  destruct rd; [| |subst t; auto]; intros [?|[?|[? _]]]%(rg_tracked _ _ _ _ _ Hreg); auto.
Qed.

Section Restore.
Context (e0 : Engine) (s : Scheduler) (jobs : Arena Job) (at_ : VirtualTime).
Hypothesis He0 : Engine_inv e0.
Hypothesis Hempty : eg_jobs e0 = Arena_new.
Hypothesis Hnone : edges (sc_deps (eg_scheduler e0)) = [].
Hypothesis Hlive : Sched_inv s jobs.
Hypothesis Hwaits : waits (sc_deps s) jobs.
Hypothesis Haccounts : ∀ x j, Arena_get jobs x = Some j → account j < MAX_ACCOUNTS.
Hypothesis Hrest : restorable jobs = true.
Hypothesis Hat : is_u64 at_.

Definition resubmitted (st : JobState) : JobState :=
  match st with JobState.Blocked => JobState.Blocked | _ => JobState.Ready end.

(** The state of a job once those of [dn] have been visited. *)
Definition restored_state (dn : list JobId) (x : JobId) (st : JobState) : JobState :=
  if is_terminal st then st else if decide (x ∈ dn) then resubmitted st else JobState.Submitted.

(** The engine once the jobs of [dn] have been visited. *)
Record restoring (dn : list JobId) (s' : Scheduler) (jobs' : Arena Job) (term : list (VirtualTime * JobId)) : Prop := {
  rs_sched : Sched_inv s' jobs';
  rs_waits : waits (sc_deps s') jobs';
  rs_like : arena_rel job_like jobs jobs';
  rs_state : ∀ x st, job_state jobs x = Some st → job_state jobs' x = Some (restored_state dn x st);
  rs_tracked : ∀ x, tracked (sc_deps s') x → x ∈ dn;
  rs_nodup : NoDup term.*2;
  rs_term : ∀ x, x ∈ term.*2 ↔ x ∈ dn ∧ finished jobs x;
}.

Definition restored_engine (s' : Scheduler) (jobs' : Arena Job) (term : list (VirtualTime * JobId)) : Engine :=
  with_terminal (with_sched e0 s' jobs') term.

Lemma restoring_start : restoring [] (eg_scheduler e0) (reset_arena jobs) [].
Proof.
  pose proof (reset_like jobs) as Hl. pose proof (arena_rel_wf _ _ _ Hl (jo_arena _ (si_jobs _ _ Hlive))) as Hwf.
  assert (∀ x, job_state (reset_arena jobs) x =
    (fun st => if is_terminal st then st else JobState.Submitted) <$> job_state jobs x) as Hst.
  { intros x. unfold job_state. destruct (arena_rel_get _ _ _ x (reset_arena_rel jobs)) as [j ? ->|]; [|done].
    cbn. unfold reset_job. by destruct (is_terminal (state j)) eqn:E; rewrite ?E. }
  pose proof (en_sched _ He0) as [_ Hd [E Hro] Hfs]. rewrite Hempty in Hd, Hro.
  assert (∀ x, ¬ tracked (sc_deps (eg_scheduler e0)) x) as Hnt.
  { intros x Hx%(ta_live _ _ (do_arena _ _ Hd)). unfold is_pending in Hx. by rewrite Arena_get_new in Hx. }
  assert (∀ x, x ∉ edges (sc_deps (eg_scheduler e0))) as Hne by (intros x; rewrite Hnone; apply not_elem_of_nil).
  assert (deps_ok (sc_deps (eg_scheduler e0)) (reset_arena jobs)) as Hd'.
  { split; [apply Hd| |].
    - split; [by intros x ?%Hnt|by intros x ?%Hne|].
      rewrite is_pending_state, Hst. pose proof (deps_ok_sentinel _ _ (si_deps _ _ Hlive)) as Hs.
      rewrite is_pending_state in Hs. destruct (job_state jobs NO_OWNER) as [st|]; [|done]. cbn in Hs |- *.
      by destruct (is_terminal st) eqn:Et; rewrite ?Et.
    - intros x. split; [|by intros [?%Hnt _]]. rewrite Hst. destruct (job_state jobs x) as [st|]; [|done]. cbn. by destruct st. }
  split; [split| |done| |by intros x ?%Hnt|constructor|].
  - split; [done|by rewrite <-(arena_rel_length _ _ _ Hl); apply Hlive|]. intros x j' Hj'.
    destruct (arena_rel_Some _ _ _ _ _ (reset_arena_rel jobs) Hj') as (j & Hj & ->).
    destruct (jo_jobs _ (si_jobs _ _ Hlive) x j Hj). unfold reset_job. by destruct (is_terminal (state j)).
  - done.
  - exists E. split; [apply Hro|apply Hro| |].
    + intros e He. destruct (ro_sound _ _ _ Hro e He) as (j & Hj & _). by rewrite Arena_get_new in Hj.
    + intros x. rewrite Hst. destruct (job_state jobs x) as [st|]; [|done]. cbn. by destruct st.
  - done.
  - split; [done|rewrite <-(arena_rel_length _ _ _ Hl); apply Hlive|done|by intros x ?%Hne| |].
    + intros x j' d Hj' Hd0. destruct (arena_rel_Some _ _ _ _ _ (reset_arena_rel jobs) Hj') as (j & Hj & ->).
      unfold reset_job in *. destruct (is_terminal (state j)) eqn:Et; [|done].
      pose proof (wa_truth _ _ Hwaits x j d Hj Hd0) as Ht.
      assert (done_or_gone jobs d → done_or_gone (reset_arena jobs) d) as Hk.
      { intros [Hi Hc]. split; [by eapply issued_rel|]. intros st. rewrite Hst.
        destruct (job_state jobs d) as [st0|]; [|done]. rewrite (Hc _ eq_refl). by intros [= <-]. }
      destruct (state j); try done; cbn in *; auto.
    + intros d x j (Hd0 & _). by apply Hnt in Hd0.
  - intros x st Hx. rewrite Hst, Hx. unfold restored_state. rewrite decide_False by apply not_elem_of_nil. done.
  - intros x. cbn. rewrite !elem_of_nil. naive_solver.
Qed.

Lemma restoring_terminal dn s' jobs' term x j :
  restoring dn s' jobs' term → Arena_get jobs x = Some j → is_terminal (state j) = true → x ∉ dn →
  restoring (dn ++ [x]) s' jobs' (term ++ [(at_, x)]).
Proof.
  intros [H1 H2 H3 H4 H5 H6 H7] Hj Ht Hx. split; try done.
  - intros y st Hy. rewrite (H4 y st Hy). unfold restored_state. destruct (is_terminal st) eqn:Est; [done|]. f_equal.
    destruct (decide (y = x)) as [->|Hne]; [unfold job_state in Hy; rewrite Hj in Hy; injection Hy as <-; congruence|].
    destruct (decide (y ∈ dn)); [rewrite decide_True by set_solver; done|]. rewrite decide_False by set_solver. done.
  - intros y ?%H5. set_solver.
  - rewrite fmap_app. apply NoDup_app. split; [done|]. split; [|apply NoDup_singleton].
    intros y Hy%H7 ->%list_elem_of_singleton. by destruct Hy.
  - intros y. rewrite fmap_app. change ([(at_, x)].*2) with [x]. rewrite elem_of_app, H7, elem_of_app, !list_elem_of_singleton. split.
    + intros [[? ?]| ->]; [by auto|]. split; [by right|]. exists (state j). unfold job_state. by rewrite Hj.
    + intros [[?| ->] ?]; auto.
Qed.

(** The dependencies, all visited, classify the job as they did. *)
Lemma restoring_classify dn s' jobs' term x j :
  restoring dn s' jobs' term → Arena_get jobs x = Some j → is_terminal (state j) = false →
  (∀ d, is_Some (Arena_get jobs d) → JobId_index d < JobId_index x → d ∈ dn) →
  ∃ rd, check_submit x j jobs' = Ok rd ∧ readiness_state rd = resubmitted (state j).
Proof.
  intros Hr Hj Ht Hdn. pose proof (jo_arena _ (si_jobs _ _ Hlive)) as Hwf.
  destruct (restorable_spec jobs x j Hwf Hrest Hj Ht) as [Hres Hdeps].
  assert (∀ d, d ∈ deps j → d ≠ x ∧ ∃ st jd, job_state jobs d = Some st ∧ Arena_get jobs' d = Some jd ∧
    state jd = (if is_terminal st then st else resubmitted st) ∧
    (st = JobState.Completed ∨ (state j = JobState.Blocked ∧ is_terminal st = false))) as Hd.
  { intros d Hin. destruct (Hdeps d Hin) as [Hlt [jd0 Hjd0]]. split; [intros ->; lia|].
    assert (job_state jobs d = Some (state jd0)) as Hs0 by (unfold job_state; by rewrite Hjd0).
    pose proof (rs_state _ _ _ _ Hr d _ Hs0) as Hs1. unfold restored_state in Hs1.
    rewrite decide_True in Hs1 by (apply Hdn; [eauto|done]). unfold job_state in Hs1.
    destruct (Arena_get jobs' d) as [jd|]; [|done]. injection Hs1 as Hs1. exists (state jd0), jd. do 3 (split; [done|]).
    pose proof (wa_truth _ _ Hwaits x j d Hj Hin) as Hw. destruct (state j) eqn:Es; try done; cbn in Hw.
    - destruct Hw as [[_ Hc]|(Hd & _)]; [left; by apply Hc|].
      apply (ta_live _ _ (do_arena _ _ (wa_deps _ _ Hwaits))) in Hd. unfold is_pending in Hd. rewrite Hjd0 in Hd.
      right. split; [done|]. by apply negb_true_iff.
    - left. by apply Hw.
    - left. by apply Hw. }
  assert (Z.of_nat (length (deps j)) <= u32_max) as Hlen by apply (jo_jobs _ (si_jobs _ _ Hlive) _ _ Hj).
  unfold check_submit. pose proof (Haccounts x j Hj). destruct (Z.leb_spec MAX_ACCOUNTS (account j)); [lia|].
  pose proof (classify_spec x j jobs' Hlen) as Hc. destruct (classify x j jobs') as [rd|err].
  - exists rd. split; [done|]. destruct rd; cbn in Hc |- *.
    + destruct Hc as [_ Hz]. destruct (state j) eqn:Es; try done.
      assert (job_state jobs x = Some JobState.Blocked) as Hb by (unfold job_state; rewrite Hj; cbn; by rewrite Es).
      destruct (blocked_by _ _ _ Hwaits Hb) as (a & Hpa & ja & Hja & _ & Hin). rewrite Hj in Hja. injection Hja as <-.
      destruct (Hd a Hin) as (_ & st & jd & Hst & Hjd & Hs & _). exfalso. revert Hz. unfold count_pending, count_if.
      assert (a ∈ List.filter (is_pending jobs') (deps j)) as Hf.
      { apply elem_of_List_filter. split; [done|]. unfold is_pending. rewrite Hjd, Hs.
        rewrite is_pending_state, Hst in Hpa. apply negb_true_iff in Hpa. rewrite Hpa. by destruct st. }
      destruct (List.filter _ _); [by apply elem_of_nil in Hf|cbn; lia].
    + destruct Hc as [_ Hz]. destruct (state j) eqn:Es; try done; exfalso; revert Hz; unfold count_pending, count_if;
        (destruct (List.filter (is_pending jobs') (deps j)) as [|a l] eqn:Ef; [cbn; lia|intros _]);
        (assert (a ∈ List.filter (is_pending jobs') (deps j)) as Hf by (rewrite Ef; by left));
        apply elem_of_List_filter in Hf as [Hin Hp]; destruct (Hd a Hin) as (_ & st & jd & _ & Hjd & Hs & [->|[? _]]); try done;
        unfold is_pending in Hp; rewrite Hjd, Hs in Hp; done.
    + destruct Hc as (pre & d & post & jd & E & _ & _ & Hjd & Hdead). destruct (Hd d ltac:(rewrite E; set_solver)) as (_ & st & jd' & _ & Hjd' & Hs & Hor).
      rewrite Hjd in Hjd'. injection Hjd' as <-. rewrite Hs in Hdead. destruct Hor as [->|[_ Hns]]; [done|].
      rewrite Hns in Hdead. by destruct st.
  - exfalso. destruct Hc as (pre & d & post & E & _ & Hbad & _). destruct (Hd d ltac:(rewrite E; set_solver)) as (Hne & st & jd & _ & Hjd & _).
    destruct Hbad as [?|Hb]; [done|]. by rewrite Hjd in Hb.
Qed.

(** An unfinished job is submitted again. *)
Lemma restoring_submit dn s' jobs' term x j now config :
  restoring dn s' jobs' term → Arena_get jobs x = Some j → is_terminal (state j) = false → x ∉ dn →
  (∀ d, is_Some (Arena_get jobs d) → JobId_index d < JobId_index x → d ∈ dn) →
  ∃ s1 jobs1, submit s' x jobs' now config = Done (s1, jobs1, Ok (resubmitted (state j))) ∧
    restoring (dn ++ [x]) s1 jobs1 term.
Proof.
  intros Hr Hj Ht Hx Hdn. pose proof Hr as [H1 H2 H3 H4 H5 H6 H7].
  assert (job_state jobs x = Some (state j)) as Hs0 by (unfold job_state; by rewrite Hj).
  destruct (arena_rel_Some_l _ _ _ _ _ H3 Hj) as (j' & Hj' & Hl).
  pose proof (H4 x _ Hs0) as Hs1. unfold restored_state in Hs1. rewrite Ht, decide_False in Hs1 by done.
  unfold job_state in Hs1. rewrite Hj' in Hs1. injection Hs1 as Hs1.
  assert (¬ tracked (sc_deps s') x) as Hnt by (by intros ?%H5).
  destruct (submit_spec s' jobs' x j' now config H1 Hj' Hs1 Hnt) as (s1 & jobs1 & r & E & Hs & Hc).
  destruct (restoring_classify dn s' jobs' term x j Hr Hj Ht Hdn) as (rd & Erd & Hrd).
  destruct (job_like_fields _ _ Hl) as (Ea & _ & _ & _ & Ed & _).
  assert (check_submit x j' jobs' = Ok rd) as Erd' by (rewrite <-Erd; unfold check_submit, classify; by rewrite Ea, Ed).
  rewrite Erd' in Hc. destruct Hc as [-> ->]. rewrite Hrd in *. exists s1. eexists. split; [exact E|].
  destruct (submit_frame _ _ _ _ _ _ _ _ E) as [Hlike Hed].
  assert (waits (sc_deps s1) (Arena_set jobs' x (job_with_state j' (resubmitted (state j))))) as Hw.
  { eapply waits_submit; [exact H2|done|done|apply (jo_jobs _ (si_jobs _ _ H1) _ _ Hj')|done|exact E]. }
  split; [done|done|by etrans| | |done|].
  - intros y st Hy. rewrite (job_state_set _ _ _ _ _ Hj'). unfold restored_state. destruct (decide (x = y)) as [<-|Hne].
    + rewrite Hs0 in Hy. injection Hy as <-. rewrite Ht, decide_True by set_solver. done.
    + rewrite (H4 y st Hy). unfold restored_state. destruct (is_terminal st); [done|]. f_equal.
      destruct (decide (y ∈ dn)); [rewrite decide_True by set_solver; done|]. rewrite decide_False by set_solver. done.
  - intros y Hy. apply elem_of_app. rewrite list_elem_of_singleton.
    destruct (submit_tracked _ _ _ _ _ _ _ _ _ y (si_deps _ _ H1) Hj' Hs1 (proj2 (jo_jobs _ (si_jobs _ _ H1) _ _ Hj')) Hnt E Hy)
      as [?|[?|Hd]]; [left; by apply H5|by right|left].
    rewrite Ed in Hd. destruct (restorable_spec jobs x j (jo_arena _ (si_jobs _ _ Hlive)) Hrest Hj Ht) as [_ Hdeps].
    destruct (Hdeps y Hd). by apply Hdn.
  - intros y. rewrite H7, elem_of_app, list_elem_of_singleton. split; [by intros [? ?]; auto|].
    intros [[?| ->] Hf]; [done|]. destruct Hf as (st & Hst & Hft). rewrite Hs0 in Hst. injection Hst as <-. congruence.
Qed.

Let L := Arena_iter (reset_arena jobs).

Lemma reset_entry x j' : (x, j') ∈ L → ∃ j, Arena_get jobs x = Some j ∧ is_terminal (state j') = is_terminal (state j).
Proof.
  intros Hx. pose proof (arena_rel_wf _ _ _ (reset_arena_rel jobs) (jo_arena _ (si_jobs _ _ Hlive))) as Hwf.
  apply Arena_iter_elem in Hx; [|done]. destruct (arena_rel_Some _ _ _ _ _ (reset_arena_rel jobs) Hx) as (j & Hj & ->).
  exists j. split; [done|]. unfold reset_job. by destruct (is_terminal (state j)) eqn:E.
Qed.

Lemma reset_listed d : is_Some (Arena_get jobs d) → d ∈ L.*1.
Proof.
  pose proof (arena_rel_wf _ _ _ (reset_arena_rel jobs) (jo_arena _ (si_jobs _ _ Hlive))) as Hwf.
  intros [j Hj]. destruct (arena_rel_Some_l _ _ _ _ _ (reset_arena_rel jobs) Hj) as (j' & Hj' & _).
  apply list_elem_of_fmap. exists (d, j'). split; [done|]. by apply Arena_iter_elem.
Qed.

Lemma resubmit_all pre post s' jobs' term :
  L = pre ++ post → restoring pre.*1 s' jobs' term →
  ∃ s1 jobs1 term1, recovering_fold (resubmit at_) (restored_engine s' jobs' term) (map (fun p => (p.1, state p.2)) post)
      = Done (Ok (restored_engine s1 jobs1 term1)) ∧ restoring L.*1 s1 jobs1 term1.
Proof.
  assert (Z.of_nat (length (slots (reset_arena jobs))) <= u32_max + 1) as Hlen.
  { cbn. rewrite List.length_map. pose proof (jo_slots _ (si_jobs _ _ Hlive)). lia. }
  pose proof (Arena_iter_sorted (reset_arena jobs) Hlen) as Hsort. fold L in Hsort.
  revert pre s' jobs' term. induction post as [|[x j'] post IH]; intros pre s' jobs' term EL Hr; cbn [map recovering_fold fst snd].
  { rewrite app_nil_r in EL. subst pre. by exists s', jobs', term. }
  destruct (reset_entry x j') as (j & Hj & Et); [rewrite EL; set_solver|].
  rewrite EL, fmap_app, fmap_cons in Hsort. apply StronglySorted_app in Hsort as (Hlt & _ & [_ Hpost]%StronglySorted_inv).
  assert (x ∉ pre.*1) as Hx. { intros Hin. specialize (Hlt x x Hin ltac:(by left)). cbn in Hlt. lia. }
  assert (∀ d, is_Some (Arena_get jobs d) → JobId_index d < JobId_index x → d ∈ pre.*1) as Hdn.
  { intros d Hd%reset_listed Hi. rewrite EL, fmap_app, fmap_cons in Hd. apply elem_of_app in Hd as [?|Hd]; [done|].
    apply elem_of_cons in Hd as [->|Hd]; [cbn in Hi; lia|]. rewrite Forall_forall in Hpost. specialize (Hpost _ Hd). cbn in Hpost. lia. }
  assert (L = (pre ++ [(x, j')]) ++ post) as EL' by (by rewrite <-app_assoc).
  assert ((pre ++ [(x, j')]).*1 = pre.*1 ++ [x]) as Ep by (by rewrite fmap_app).
  unfold resubmit at 1. rewrite Et. destruct (is_terminal (state j)) eqn:Etj.
  - cbn [and_then exec_bind]. apply (IH (pre ++ [(x, j')]) s' jobs' (term ++ [(at_, x)]) EL').
    rewrite Ep. by eapply restoring_terminal.
  - destruct (restoring_submit pre.*1 s' jobs' term x j at_ (cycle_config (restored_engine s' jobs' term)) Hr Hj Etj Hx Hdn)
      as (s1 & jobs1 & E & Hr1).
    unfold replayed, lift_call. cbn [eg_scheduler eg_jobs restored_engine with_terminal with_sched] in *. rewrite E.
    cbn [exec_bind and_then]. assert (is_terminal (resubmitted (state j)) = false) as -> by (by destruct (state j)).
    apply (IH (pre ++ [(x, j')]) s1 jobs1 term EL'). by rewrite Ep.
Qed.

(** ** Moving what was running *)

Definition rerun_state (seen : list JobId) (x : JobId) (st : JobState) : JobState :=
  if is_terminal st then st else if decide (x ∈ seen) then JobState.Running else resubmitted st.

Record rerunning (seen : list JobId) (s' : Scheduler) (jobs' : Arena Job) : Prop := {
  rr_sched : Sched_inv s' jobs';
  rr_waits : waits (sc_deps s') jobs';
  rr_like : arena_rel job_like jobs jobs';
  rr_state : ∀ x st, job_state jobs x = Some st → job_state jobs' x = Some (rerun_state seen x st);
}.

Lemma rerunning_start s' jobs' term : restoring L.*1 s' jobs' term → rerunning [] s' jobs'.
Proof.
  intros [H1 H2 H3 H4 _ _ _]. split; try done. intros x st Hx. rewrite (H4 x st Hx). unfold restored_state, rerun_state.
  rewrite (decide_False (P := x ∈ [])) by apply not_elem_of_nil. rewrite decide_True; [done|].
  apply reset_listed. unfold job_state in Hx. destruct (Arena_get jobs x); [eauto|done].
Qed.

Lemma rerun_one seen s' jobs' x now config :
  rerunning seen s' jobs' → job_state jobs x = Some JobState.Running → x ∉ seen → config_ok config → is_u64 now →
  ∃ s1 jobs1, restore_running s' x jobs' now config = Done (s1, jobs1, Ok tt) ∧ rerunning (x :: seen) s1 jobs1.
Proof.
  intros [H1 H2 H3 H4] Hx Hn Hcfg Hnow. pose proof (H4 x _ Hx) as Hs. unfold rerun_state in Hs. cbn [is_terminal] in Hs.
  rewrite decide_False in Hs by done. unfold job_state in Hs. destruct (Arena_get jobs' x) as [j|] eqn:Hj; [|done].
  injection Hs as Hs. destruct (restore_running_spec s' jobs' x j now config H1 Hcfg Hnow Hj) as (s1 & jobs1 & r & E & Hi & Hr).
  rewrite decide_True in Hr by (by rewrite Hs). destruct Hr as [-> ->]. exists s1. eexists. split; [exact E|].
  pose proof (restore_running_deps _ _ _ _ _ _ _ _ E) as Ed.
  split; [done| |etrans; [exact H3|by eapply restore_running_frame]|].
  - rewrite Ed. eapply waits_move; [done|done|apply job_like_state|right; by rewrite Hs|by left].
  - intros y st Hy. rewrite (job_state_set _ _ _ _ _ Hj). unfold rerun_state. destruct (decide (x = y)) as [<-|Hne].
    + rewrite Hx in Hy. injection Hy as <-. cbn. by rewrite decide_True by (by left).
    + rewrite (H4 y st Hy). unfold rerun_state. destruct (is_terminal st); [done|]. f_equal.
      destruct (decide (y ∈ seen)); [rewrite decide_True by (by right); done|]. rewrite decide_False by set_solver. done.
Qed.

Lemma rerun_all ids seen s' jobs' term :
  rerunning seen s' jobs' → NoDup ids → (∀ x, x ∈ ids → job_state jobs x = Some JobState.Running ∧ x ∉ seen) →
  ∃ s1 jobs1, recovering_fold (rerun at_) (restored_engine s' jobs' term) ids = Done (Ok (restored_engine s1 jobs1 term)) ∧
    rerunning (rev ids ++ seen) s1 jobs1.
Proof.
  intros Hr Hnd. revert seen s' jobs' Hr. induction Hnd as [|x ids Hx _ IH]; intros seen s' jobs' Hr Hids; cbn [recovering_fold rev].
  { by exists s', jobs'. }
  destruct (Hids x ltac:(by left)) as [Hs Hn].
  destruct (rerun_one seen s' jobs' x at_ (cycle_config (restored_engine s' jobs' term)) Hr Hs Hn) as (s1 & jobs1 & E & Hr1);
    [apply (eo_cycle _ (en_config _ He0))|done|].
  unfold rerun at 1, replayed, lift_call. cbn [eg_scheduler eg_jobs restored_engine with_terminal with_sched] in *. rewrite E.
  cbn [exec_bind and_then]. destruct (IH (x :: seen) s1 jobs1 Hr1) as (s2 & jobs2 & E2 & Hr2).
  { intros y Hy. destruct (Hids y ltac:(by right)). split; [done|]. set_solver. }
  exists s2, jobs2. split; [exact E2|]. by rewrite <-app_assoc.
Qed.

(** ** The restored engine *)

Hypothesis Hidle : eg_running e0 = [].
Hypothesis Hunheld : eg_reconciling e0 = [].
Hypothesis Hacc : ∀ x j, Arena_get jobs x = Some j → accepted j.

Lemma rerunning_states s' jobs' :
  rerunning (rev (jobs_in_state jobs JobState.Running)) s' jobs' → ∀ x, job_state jobs' x = job_state jobs x.
Proof.
  intros [_ _ Hl Hst] x. pose proof (jo_arena _ (si_jobs _ _ Hlive)) as Hwf. destruct (job_state jobs x) as [st|] eqn:Hs.
  - rewrite (Hst x st Hs). unfold rerun_state. destruct (is_terminal st) eqn:Et; [done|].
    assert (x ∈ rev (jobs_in_state jobs JobState.Running) ↔ st = JobState.Running) as Hin.
    { rewrite list_elem_of_In, <-in_rev, <-list_elem_of_In, jobs_in_state_elem, Hs by done. naive_solver. }
    unfold job_state in Hs. destruct (Arena_get jobs x) as [j|] eqn:Hj; [|done]. injection Hs as <-.
    destruct (restorable_spec jobs x j Hwf Hrest Hj Et) as [Hres _].
    destruct (state j); try done; [rewrite decide_False by (by rewrite Hin)..|rewrite decide_True by (by rewrite Hin)]; done.
  - unfold job_state in *. destruct (Arena_get jobs x) eqn:Hj; [done|]. by rewrite (arena_rel_None _ _ _ _ Hl Hj).
Qed.

Hypothesis Hnoterm : eg_terminal e0 = [].

Lemma restored_engine_inv s' jobs' term :
  rerunning (rev (jobs_in_state jobs JobState.Running)) s' jobs' → NoDup term.*2 → (∀ x, x ∈ term.*2 ↔ finished jobs x) →
  replaying (restored_engine s' jobs' term) s jobs.
Proof.
  intros Hr Hnd Hterm. pose proof (rerunning_states _ _ Hr) as Hst. destruct Hr as [H1 H2 H3 _].
  pose proof He0 as [K1 K2 K3 K4 K5 K6 K7 K8]. rewrite Hidle in *. rewrite Hunheld in *.
  assert (∀ x, finished jobs' x ↔ finished jobs x) as Hfin by (intros x; unfold finished; by rewrite Hst).
  split; [|done|done|].
  - split; cbn; rewrite ?Hidle, ?Hunheld; try done.
    + apply (wa_edges _ _ H2).
    + exact (accepted_like _ _ Hacc H3).
    + split; [constructor|by intros r ?%elem_of_nil].
    + split; [constructor|by intros r ?%elem_of_nil..].
    + split; [done|by intros x ?%Hfin%Hterm|]. intros x ?%Hterm. left. by apply Hfin.
  - split; [done|done|]. cbn. eapply (rel_by_states jobs jobs jobs jobs'); [apply Hlive|reflexivity|reflexivity|done|].
    intros x. by rewrite Hst.
Qed.

Lemma restore_snapshot_section sn :
  snapshot_of s jobs sn → taken_at sn = at_ → FairShare_wf (sc_fairshare s) →
  ∃ e1, restore_snapshot e0 sn = Done (Ok (e1, at_)) ∧ replaying e1 s jobs ∧ keeps e0 e1.
Proof.
  intros (Hsl & Hfh & Hrun & Hled) Hta Hfs. pose proof (jo_arena _ (si_jobs _ _ Hlive)) as Hwf.
  unfold restore_snapshot. rewrite Hsl, Hfh, Hrun, Hled, Hta, (reset_from_parts jobs Hwf). cbn [exec_bind].
  assert (with_jobs e0 (reset_arena jobs) = restored_engine (eg_scheduler e0) (reset_arena jobs) []) as ->
    by (unfold restored_engine, with_terminal, with_jobs, with_sched; cbn; by rewrite Hnoterm).
  fold L. destruct (resubmit_all [] L (eg_scheduler e0) (reset_arena jobs) [] eq_refl restoring_start) as (s1 & jobs1 & term1 & -> & Hr1).
  cbn [and_then exec_bind].
  destruct (rerun_all (jobs_in_state jobs JobState.Running) [] s1 jobs1 term1) as (s2 & jobs2 & -> & Hr2).
  { by eapply rerunning_start. } { by apply jobs_in_state_NoDup. }
  { intros x Hx. apply jobs_in_state_elem in Hx; [|done]. split; [done|apply not_elem_of_nil]. }
  rewrite app_nil_r in Hr2. cbn [and_then exec_bind]. unfold restore_ledgers.
  destruct (fairshare_restore_spec (sc_fairshare s2) (ledgers (sc_fairshare s))) as (fs & r & E & Hfs2 & Hres);
    [apply Hr2|apply Hfs|]. cbn [eg_scheduler restored_engine with_terminal with_sched]. rewrite E.
  rewrite decide_True in Hres by apply (fw_max _ Hfs). destruct Hres as [-> _]. eexists. split; [done|]. split; [|done].
  apply (restored_engine_inv (MkScheduler (sc_ready s2) (sc_deps s2) fs) jobs2 term1).
  - destruct Hr2. split; try done. by apply Sched_inv_fs.
  - apply Hr1.
  - intros x. rewrite (rs_term _ _ _ _ Hr1). split; [by intros [_ ?]|]. intros Hf. split; [|done]. apply reset_listed.
    destruct Hf as (st & Hs & _). unfold job_state in Hs. destruct (Arena_get jobs x); [eauto|done].
Qed.
End Restore.

(** An engine as [build] leaves it. *)
Record fresh_engine (e : Engine) : Prop := {
  fe_inv : Engine_inv e;
  fe_jobs : eg_jobs e = Arena_new;
  fe_edges : edges (sc_deps (eg_scheduler e)) = [];
  fe_running : eg_running e = [];
  fe_held : eg_reconciling e = [];
  fe_terminal : eg_terminal e = [];
}.

(** A state a snapshot may be taken of. *)
Record storable (s : Scheduler) (jobs : Arena Job) : Prop := {
  sb_sched : Sched_inv s jobs;
  sb_waits : waits (sc_deps s) jobs;
  sb_accounts : ∀ x j, Arena_get jobs x = Some j → account j < MAX_ACCOUNTS;
  sb_accepted : ∀ x j, Arena_get jobs x = Some j → accepted j;
}.

Lemma restore_snapshot_ok e0 s jobs sn :
  fresh_engine e0 → storable s jobs → restorable jobs = true → snapshot_of s jobs sn → is_u64 (taken_at sn) →
  ∃ e1, restore_snapshot e0 sn = Done (Ok (e1, taken_at sn)) ∧ replaying e1 s jobs ∧ keeps e0 e1.
Proof.
  intros [H1 H2 H3 H4 H5 H6] [K1 K2 K3 K4] Hr Hsn Ht.
  by apply (restore_snapshot_section e0 s jobs (taken_at sn)); try done; apply K1.
Qed.

(** ** A log that continues a snapshot *)

(** A log replayed from whatever the start of recovery rebuilt. *)
Lemma recover_continues hash config recovered jr eb e1 l1 s0 jobs0 s jobs :
  build config (Some jr) = Done eb → eg_journal eb = Some jr →
  (match rec_snapshot recovered with
   | Some snapshot => restore_snapshot eb snapshot
   | None => Done (Ok (eb, 0))
   end) = Done (Ok (e1, l1)) → replaying e1 s0 jobs0 → keeps eb e1 → is_u64 l1 →
  log_trace (dc_cycle config) s0 jobs0 (rec_records recovered) s jobs →
  ∃ e latest, recover_engine hash config recovered jr = Done (Ok (e, time_saturating_add latest 1)) ∧ is_u64 latest ∧
    recovered_from hash jobs latest jr e ∧ eg_config e = eg_config eb.
Proof.
  intros Eb Ej E1 Hr [Kc Kj] Hl1 Ht. rewrite recover_engine_settle, Eb. cbn [exec_bind]. rewrite E1. cbn [and_then exec_bind].
  destruct (replay_trace _ _ _ _ _ _ e1 l1 Ht Hr Hl1) as (e2 & l2 & -> & Hr2 & [Hkc Hkj] & Hl2). cbn [and_then exec_bind].
  destruct (settle_ok hash e2 s jobs l2 jr Hr2 Hl2) as (e3 & -> & Hrec & Hc3); [by rewrite Hkj, Kj|].
  exists e3, l2. split; [done|]. split; [done|]. split; [done|]. by rewrite Hc3, Hkc, Kc.
Qed.

Lemma build_fresh config jr :
  daemon_config_ok config →
  ∃ e, build config jr = Done e ∧ fresh_engine e ∧ eg_journal e = jr ∧ cycle_config e = dc_cycle config.
Proof.
  intros Hc. destruct (build_ok config jr Hc) as (e & E & He & Hj & Hjr & Hcc & Hed). exists e. split; [done|].
  split; [|done]. pose proof E as E'. unfold build in E'. destruct (set_all_shares _ _) as [sc| |]; [|done..].
  injection E' as <-. by split.
Qed.

(** Every account the arena mentions has a ledger. *)
Definition within_accounts (jobs : Arena Job) : Prop :=
  ∀ x j, Arena_get jobs x = Some j → account j < MAX_ACCOUNTS.

Lemma accounts_like jobs jobs' : arena_rel job_like jobs jobs' → within_accounts jobs → within_accounts jobs'.
Proof.
  intros Hr Ha x j' Hj'. destruct (arena_rel_Some _ _ _ _ _ Hr Hj') as (j & Hj & Hl).
  destruct (job_like_fields _ _ Hl) as (-> & _). by apply (Ha x).
Qed.

Lemma accounts_event cc s jobs r s' jobs' :
  Arena_wf jobs → log_event cc s jobs r s' jobs' → within_accounts jobs → within_accounts jobs'.
Proof.
  intros Hwf Hev Ha. destruct Hev as [s jobs job jobs1 id now s' jobs' st _ Hins _ _ E|s jobs id j now Hj _
    |s jobs id now s' jobs' p E|s jobs id now s' jobs' C E|s jobs id now s' jobs' C E|s jobs id j now s' jobs' _ _ E
    |s jobs id now s' jobs' E|s jobs id now s' jobs' E|s jobs id j _ _ _].
  - destruct (submit_frame _ _ _ _ _ _ _ _ E) as [Hl _]. apply (accounts_like _ _ Hl).
    destruct (submit_accepted _ _ _ _ _ _ _ _ E) as (j & rd & Hj & _ & Hmax & _).
    destruct (Arena_insert_spec jobs job Hwf (Arena_insert_room _ _ _ _ Hins)) as (a' & id' & E' & _ & _ & _ & Hget).
    rewrite Hins in E'. injection E' as <- <-. intros x k. rewrite Hget. case_decide as Hx; [|by apply Ha].
    intros [= <-]. rewrite Hget, decide_True in Hj by done. by injection Hj as <-.
  - eapply accounts_like; [|exact Ha]. eapply job_like_set; [done|apply job_like_state].
  - destruct (on_completed_frame _ _ _ _ _ _ _ _ E). by eapply accounts_like.
  - destruct (on_failed_frame _ _ _ _ _ _ _ _ E). by eapply accounts_like.
  - destruct (cancel_frame _ _ _ _ _ _ _ _ E). by eapply accounts_like.
  - destruct (requeue_frame _ _ _ _ _ _ _ _ E). by eapply accounts_like.
  - destruct (on_preempted_frame _ _ _ _ _ _ _ _ E). by eapply accounts_like.
  - destruct (preempt_frame s jobs id s' jobs' (Ok tt)) as [? _]; [by rewrite E|]. by eapply accounts_like.
  - destruct (Arena_remove_spec jobs id Hwf) as (_ & _ & Hget). intros x k. rewrite Hget. case_decide; [done|]. apply Ha.
Qed.

Lemma accounts_trace cc s jobs rs s' jobs' :
  log_trace cc s jobs rs s' jobs' → waits (sc_deps s) jobs → within_accounts jobs → within_accounts jobs'.
Proof.
  induction 1 as [|s s1 jobs rs s' jobs' Ed _ IH|s jobs r s1 jobs1 rs s' jobs' Hf Hev _ IH]; intros Hw Ha; [done| |].
  - apply IH; [by rewrite Ed|done].
  - apply IH; [by eapply waits_event|]. eapply accounts_event; [apply Hw|done|done].
Qed.

(** ** What a directory stands for *)

Section Represents.
Context (hash : bytes → Z) (config : DaemonConfig).
Hypothesis Hcfg : daemon_config_ok config.

(** Where a generation's log starts: a snapshot that restores, or an empty engine. *)
Definition base (snap : option Snapshot) (s : Scheduler) (jobs : Arena Job) : Prop :=
  match snap with
  | None => jobs = Arena_new ∧ ∃ e0, build config None = Done e0 ∧ s = eg_scheduler e0
  | Some sn => snapshot_point s jobs sn ∧ waits (sc_deps s) jobs ∧ within_accounts jobs ∧ restorable jobs = true
  end.

(** The snapshot and the log together stand for this state of the engine. *)
Definition represents (snap : option Snapshot) (rs : list LogRecord) (s : Scheduler) (jobs : Arena Job) : Prop :=
  ∃ s0 jobs0, base snap s0 jobs0 ∧ log_trace (dc_cycle config) s0 jobs0 rs s jobs.

Lemma base_state snap s jobs : base snap s jobs → waits (sc_deps s) jobs ∧ within_accounts jobs.
Proof.
  destruct snap as [sn|]; [by intros (_ & ? & ? & _)|]. intros (-> & e0 & E0 & ->). split.
  - destruct (build_fresh config None Hcfg) as (e & E & Hf & _). rewrite E0 in E. injection E as <-.
    apply waits_new; [|apply Hf]. rewrite <-(fe_jobs _ Hf). apply (fe_inv _ Hf).
  - intros x j. by rewrite Arena_get_new.
Qed.

Lemma represents_state snap rs s jobs : represents snap rs s jobs → waits (sc_deps s) jobs ∧ within_accounts jobs.
Proof.
  intros (s0 & jobs0 & [Hw Ha]%base_state & Ht). split; [by eapply waits_trace|by eapply accounts_trace].
Qed.

Lemma represents_more snap rs s jobs more s' jobs' :
  represents snap rs s jobs → log_trace (dc_cycle config) s jobs more s' jobs' → represents snap (rs ++ more) s' jobs'.
Proof. intros (s0 & jobs0 & Hb & Ht) Hm. exists s0, jobs0. split; [done|]. by eapply log_trace_app. Qed.

(** A snapshot whose arena restores. *)
Definition snapshot_restorable (sn : Snapshot) : bool :=
  match Arena_from_parts (snap_slots sn) (snap_free_head sn) with Done (Ok jobs) => restorable jobs | _ => false end.

(** The state at a snapshot, once it is on disk. *)
Lemma snapshot_base s jobs rb s' jobs' sn :
  waits (sc_deps s) jobs → within_accounts jobs → log_trace (dc_cycle config) s jobs rb s' jobs' →
  snapshot_point s' jobs' sn → snapshot_restorable sn = true → base (Some sn) s' jobs'.
Proof.
  intros Hw Ha Ht Hp Hr. split; [done|]. split; [by eapply waits_trace|]. split; [by eapply accounts_trace|].
  destruct Hp as [(Hsl & Hfh & _) Hs _]. unfold snapshot_restorable in Hr.
  by rewrite Hsl, Hfh, (Arena_from_parts_slots jobs' (jo_arena _ (si_jobs _ _ Hs))) in Hr.
Qed.

(** Recovery finds the state the directory stands for. *)
Lemma represents_recovers snap rs s jobs g torn jr :
  represents snap rs s jobs → (∀ sn, snap = Some sn → is_u64 (taken_at sn)) →
  ∃ e latest, recover_engine hash config (MkRecovered g snap rs torn) jr = Done (Ok (e, time_saturating_add latest 1)) ∧
    is_u64 latest ∧ recovered_from hash jobs latest jr e ∧ cycle_config e = dc_cycle config.
Proof.
  intros (s0 & jobs0 & Hs & Ht) Htk. destruct (build_fresh config (Some jr) Hcfg) as (eb & Eb & Hf & Hj & Hcc).
  assert (∃ e1 l1, (match snap with Some snapshot => restore_snapshot eb snapshot | None => Done (Ok (eb, 0)) end) = Done (Ok (e1, l1)) ∧
    replaying e1 s0 jobs0 ∧ keeps eb e1 ∧ is_u64 l1) as (e1 & l1 & E1 & Hr & Hk & Hl).
  { destruct snap as [sn|].
    - destruct Hs as ([Hof Hsi Hac] & Hw & Ha & Hres). destruct (restore_snapshot_ok eb s0 jobs0 sn Hf) as (e1 & E1 & Hr & Hk);
        [by split|done|done|by apply Htk|]. exists e1, (taken_at sn). do 3 (split; [done|]). by apply Htk.
    - destruct Hs as (-> & e0 & E0 & ->). destruct (build_replaying config None jr e0 Hcfg E0) as (e & E & Hr & _).
      rewrite Eb in E. injection E as <-. exists eb, 0. do 3 (split; [done|]). unfold is_u64. lia. }
  destruct (recover_continues hash config (MkRecovered g snap rs torn) jr eb e1 l1 s0 jobs0 s jobs) as (e & latest & E & Hlat & Hrec & Ec); try done.
  exists e, latest. do 3 (split; [done|]). unfold cycle_config in *. by rewrite Ec.
Qed.
End Represents.
