(* ===== verification/Daemon.v ===== *)
(** * Start-up and shutdown

    [crates/taskerd/src/daemon.rs]: [serve] rebuilds the engine from the data
    directory (or starts an empty one), runs the scheduler and the log writer on
    threads of their own, and stops them in order.  This file composes the parts:
    what a daemon leaves on disk, whenever it is stopped, is enough for the next
    one to start from the same jobs, any number of times over. *)

From stdpp Require Import base strings list numbers option gmap fin_maps sets relations.
From Stdlib Require Import ZArith Lia.
From S2P Require Import Prelude Domain Arena Job Inventory Priority ReadySet Eligibility.
From S2P Require Import Decay FairShare Pack Backfill Preempt Scheduler Cycle Frame.
From S2P Require Import Codec LogRecord Log Snapshot Store Journal Command Engine EngineInv EngineSteps EngineTick EngineRun Order Replay Recovery Restart.
Open Scope Z_scope.
Open Scope list_scope.

Module DaemonError.
Inductive DaemonError : Type :=
| Transport
| Io
| SchedulerPanic
| Wal (e : WalError)
| Recovery (e : RecoverError)
| WalPanic.
End DaemonError.
Abbreviation DaemonError := DaemonError.DaemonError.

(** What [serve] has once the threads can start: the engine, the origin recovery
    set the clock to, and the store the writer thread owns. *)
Record Started : Type := MkStarted {
  sd_engine : Engine;
  sd_origin : option VirtualTime;
  sd_store : option Store;
}.

Section Start.
Context (hash : bytes → Z).

(** The [match] on [data_dir]; [None] runs in memory.  [rotate_bytes] is
    [config.wal_rotate_bytes]. *)
Definition start (config : DaemonConfig) (rotate_bytes : Z) (data_dir : option Dir)
  : exec (result Started DaemonError) :=
  match data_dir with
  | Some dir =>
      let! '(dir, r) := recover hash dir in
      match r with
      | Err e => Done (Err (DaemonError.Wal e))
      | Ok recovered =>
          match resume dir (rec_generation recovered) with
          | Err e => Done (Err (DaemonError.Wal e))
          | Ok store =>
              let journal := Journal_new rotate_bytes in
              let! r := recover_engine hash config recovered journal in
              match r with
              | Err e => Done (Err (DaemonError.Recovery e))
              | Ok (engine, origin) => Done (Ok (MkStarted engine (Some origin) (Some store)))
              end
          end
      end
  | None =>
      let! engine := build config None in
      Done (Ok (MkStarted engine None None))
  end.

(** The scheduler thread leaves its loop and hands over what is pending. *)
Definition flushed (e : Engine) : list EngineCommit :=
  match eg_journal e with Some j => (flush j true).2 | None => [] end.

(** The end of [serve]: the scheduler thread is joined, then the writer, which
    drains the batches it was [sent] and exits. *)
Definition stop (e : Engine) (store : Store) (sent : list EngineCommit) : Store * list Answer * list Dispatch :=
  run_writer store (sent ++ flushed e).
End Start.

(** ** Batches on their way to the disk *)

Section Writer.
Context (hash : bytes → Z) (config : DaemonConfig).
Hypothesis Hhash : Checksum hash.
Hypothesis Hcfg : daemon_config_ok config.

(** The snapshot of a batch, if it has one, restores. *)
Definition commit_restorable (c : EngineCommit) : bool :=
  match cm_snapshot c with
  | None => true
  | Some bs => match decode_snapshot hash bs with Done (Ok sn) => snapshot_restorable sn | _ => false end
  end.

Definition batches_restorable (sent : list EngineCommit) : Prop := ∀ c, c ∈ sent → commit_restorable c = true.

Lemma batch_restorable sent c b sn :
  batches_restorable sent → c ∈ sent → batch_of hash c b → bt_snapshot b = Some sn → snapshot_restorable sn = true.
Proof.
  intros Hs Hc [_ _ Hb _ _ Hwf] Hsn. specialize (Hs c Hc). unfold commit_restorable in Hs. rewrite Hb, Hsn in Hs.
  cbn [fmap option_fmap option_map] in Hs. destruct (Hwf sn Hsn). by rewrite decode_snapshot_bytes in Hs.
Qed.

Lemma run_writer_app (s : Store) (a b : list EngineCommit) :
  run_writer s (a ++ b) =
  let '(s, acks, ds) := run_writer s a in
  let '(s, acks', ds') := run_writer s b in (s, acks ++ acks', ds ++ ds').
Proof.
  revert s. induction a as [|c a IH]; intros s; cbn [app run_writer]; [by destruct (run_writer s b) as [[? ?] ?]|].
  destruct (writer_step s c) as [[s1 x] y]. rewrite IH. destruct (run_writer s1 a) as [[s2 x2] y2].
  destruct (run_writer s2 b) as [[s3 x3] y3]. by rewrite !app_assoc.
Qed.

(** What one batch does to what the disk stands for. *)
Lemma represents_batch snap rs s1 jobs1 s2 jobs2 s3 jobs3 (c : EngineCommit) b :
  represents config snap rs s1 jobs1 → batch_of hash c b →
  log_trace (dc_cycle config) s1 jobs1 (bt_before b) s2 jobs2 →
  (∀ sn, bt_snapshot b = Some sn → snapshot_point s2 jobs2 sn) →
  (∀ sn, bt_snapshot b = Some sn → snapshot_restorable sn = true) →
  log_trace (dc_cycle config) s2 jobs2 (bt_after b) s3 jobs3 →
  represents config (after_batch snap rs (bt_snapshot b) (bt_after b)).1 (after_batch snap rs (bt_snapshot b) (bt_after b)).2 s3 jobs3.
Proof.
  intros Hr Hb H1 Hp Hres H2. pose proof (represents_more config _ _ _ _ _ _ _ Hr H1) as Hr1.
  destruct (bt_snapshot b) as [sn|] eqn:Es; cbn.
  - destruct (represents_state config Hcfg _ _ _ _ Hr) as [Hw Ha]. exists s2, jobs2. split; [|done].
    by eapply snapshot_base; [| |exact H1|apply Hp|apply Hres].
  - destruct Hb as [_ _ _ Ho _ _]. rewrite (Ho Es), app_nil_r in Hr1. by eapply represents_more.
Qed.

(** The writer on a run's batches: all of them reach the disk. *)
Lemma run_writer_ok st snap rs s0 jobs0 bs s jobs sent :
  store_ok hash st snap rs → represents config snap rs s0 jobs0 →
  logged (dc_cycle config) s0 jobs0 bs s jobs → Forall2 (batch_of hash) sent bs → batches_restorable sent →
  st_generation st + Z.of_nat (length sent) <= u64_max →
  ∃ st' snap' rs', run_writer st sent = (st', concat (acks <$> sent), concat (dispatches <$> sent)) ∧
    store_ok hash st' snap' rs' ∧ represents config snap' rs' s jobs ∧
    st_generation st <= st_generation st' <= st_generation st + Z.of_nat (length sent).
Proof.
  intros Hst Hrep Hl. revert sent. induction Hl as [|bs s1 jobs1 s2 jobs2 s3 jobs3 b Hl IH H2 Hp H3]; intros sent Hbs Hres Hg.
  { apply Forall2_nil_inv_r in Hbs as ->. exists st, snap, rs. cbn. by split_and!; try lia. }
  apply Forall2_app_inv_r in Hbs as (sent1 & sent2 & Hbs & Hb & ->).
  apply Forall2_cons_inv_r in Hb as (c & ? & Hb & ->%Forall2_nil_inv_r & ->). rewrite length_app in Hg. cbn [length] in Hg.
  destruct (IH sent1 Hbs) as (st1 & snap1 & rs1 & E1 & Hst1 & Hrep1 & Hg1); [by intros ? ?; apply Hres; set_solver|lia|].
  destruct (persist_spec hash st1 c (bt_before b) (bt_snapshot b) (bt_after b) snap1 rs1 Hst1 Hb) as (st2 & Ep & Hg2 & Hst2).
  { unfold is_u64. pose proof (so_gen _ _ _ _ Hst1). unfold is_u64 in *. lia. }
  exists st2. eexists _, _. split.
  { rewrite run_writer_app, E1. cbn [run_writer]. unfold writer_step. rewrite Ep.
    by rewrite !app_nil_r, !fmap_app, !concat_app; cbn [fmap list_fmap concat]; rewrite !app_nil_r. }
  split; [exact Hst2|]. split; [|rewrite length_app; cbn [length]; lia].
  eapply represents_batch; [done|done|done|done| |done]. intros sn Hsn.
  eapply (batch_restorable (sent1 ++ [c]) c); [done|set_solver|done|done].
Qed.
End Writer.

(** ** One life after another *)

Lemma take_length_take {A} n (l : list A) : take (length (take n l)) l = take n l.
Proof.
  rewrite length_take. destruct (decide (n <= length l)%nat); [by rewrite Nat.min_l by lia|].
  by rewrite Nat.min_r, !take_ge by lia.
Qed.

Lemma take_more {A} n m (l : list A) x : (n <= m)%nat → x ∈ take n l → x ∈ take m l.
Proof.
  intros Hle (i & Hi)%list_elem_of_lookup. apply list_elem_of_lookup. exists i. apply lookup_take_Some in Hi as [Hi Hlt].
  apply lookup_take_Some. split; [done|lia].
Qed.

(** The history of a run, cut after some of its batches. *)
Lemma logged_split cc s0 jobs0 bs bs' s jobs :
  logged cc s0 jobs0 (bs ++ bs') s jobs →
  ∃ s1 jobs1, logged cc s0 jobs0 bs s1 jobs1 ∧ logged cc s1 jobs1 bs' s jobs.
Proof.
  revert s jobs. induction bs' as [|b bs' IH] using rev_ind; intros s jobs Hl.
  { rewrite app_nil_r in Hl. exists s, jobs. split; [done|constructor]. }
  rewrite app_assoc in Hl. apply logged_snoc_inv in Hl as (s1 & jobs1 & s2 & jobs2 & Hl & H1 & H2 & H3).
  destruct (IH _ _ Hl) as (s' & jobs' & Ha & Hb). exists s', jobs'. split; [done|]. by eapply lg_batch.
Qed.

Lemma logged_cons cc s0 jobs0 b bs s jobs :
  logged cc s0 jobs0 (b :: bs) s jobs →
  ∃ s2 jobs2 s1 jobs1, log_trace cc s0 jobs0 (bt_before b) s2 jobs2 ∧
    (∀ sn, bt_snapshot b = Some sn → snapshot_point s2 jobs2 sn) ∧
    log_trace cc s2 jobs2 (bt_after b) s1 jobs1 ∧ logged cc s1 jobs1 bs s jobs.
Proof.
  intros (s1 & jobs1 & Hb & Hl)%(logged_split _ _ _ [b]).
  apply (logged_snoc_inv _ _ _ []) in Hb as (s1' & jobs1' & s2 & jobs2 & Hn & H1 & H2 & H3).
  inversion Hn as [E|? ? ? ? ? ? ? ? _ _ _ _ E]; [|by destruct bs0]. subst. by exists s2, jobs2, s1, jobs1.
Qed.

Section Lives.
Context (hash : bytes → Z) {Q : Type → Type} `{ArrayQueue Q} (config : DaemonConfig) (rotate_bytes : Z).
Hypothesis Hhash : Checksum hash.
Hypothesis Hcfg : daemon_config_ok config.

(** The process dies when the writer has finished [k] of the batches it was sent,
    between two of them or anywhere inside the next one. *)
Definition interrupted (st : Store) (sent : list EngineCommit) (k : nat) (d' : Dir) : Prop :=
  let '(st', _, _) := run_writer st (take k sent) in
  (k <= length sent)%nat ∧
  (d' = st_dir st' ∨ ∃ c, sent !! k = Some c ∧ crash (persist_ops st' c) (st_dir st') d').

(** The instant of a rotation at which the new log has no magic: recovery refuses
    the directory. *)
Definition stranded (d : Dir) : Prop := recover hash d = Done (d, Err WalError.BadMagic).

(** A run of a daemon that started on a store of generation [g]; the snapshots fit
    their frames and the generations do not run out. *)
Record daemon_run (e : Engine) (g : Z) (e' : Engine) (w : World Q) (sent : list EngineCommit) : Prop := {
  dr_runs : runs hash e e' w sent;
  dr_small : ∀ at_, snapshot_small e at_;
  dr_generations : g + Z.of_nat (length sent) < u64_max;
}.

Lemma start_stranded d : stranded d → start hash config rotate_bytes (Some d) = Done (Err (DaemonError.Wal WalError.BadMagic)).
Proof. unfold stranded, start. by intros ->. Qed.

Lemma start_ok d g snap rs s jobs :
  disk_ok hash d g snap rs → represents config snap rs s jobs →
  ∃ e latest st, start hash config rotate_bytes (Some d) =
      Done (Ok (MkStarted e (Some (time_saturating_add latest 1)) (Some st))) ∧ is_u64 latest ∧
    store_ok hash st snap rs ∧ st_generation st = g ∧ recovered_from hash jobs latest (Journal_new rotate_bytes) e ∧
    cycle_config e = dc_cycle config ∧ within_accounts (eg_jobs e).
Proof.
  intros Hd Hr. destruct (disk_recovers hash Hhash d g snap rs Hd) as (d1 & torn & st & E & Er & Hg & Hst).
  destruct (represents_recovers hash config Hcfg snap rs s jobs g torn (Journal_new rotate_bytes) Hr)
    as (e & latest & Ee & Hlat & Hrec & Hcc). { intros sn ->. by destruct (dk_snap_wf _ _ _ _ _ Hd sn eq_refl) as [[? _] _]. }
  exists e, latest, st. unfold start. rewrite E. cbn [exec_bind rec_generation]. rewrite Er. cbn [exec_bind]. rewrite Ee.
  cbn [exec_bind]. do 6 (split; [done|]). destruct (represents_state config Hcfg _ _ _ _ Hr) as [_ Ha]. intros x j' Hj'.
  pose proof (rf_jobs _ _ _ _ _ Hrec x) as Hx. rewrite Hj' in Hx. inversion Hx as [j k [Hl _] Ej|]; subst.
  destruct (job_like_fields _ _ Hl) as (-> & _). by eapply Ha.
Qed.

(** The state the engine starts with, once its first snapshot is on disk. *)
Lemma started_history jobs latest e :
  recovered_from hash jobs latest (Journal_new rotate_bytes) e → is_u64 latest → snapshot_small e latest →
  cycle_config e = dc_cycle config →
  history_ok hash (dc_cycle config) (Some (engine_snapshot e latest)) (eg_scheduler e) (eg_jobs e) e [].
Proof.
  intros Hrec Hlat Hsm Hcc. pose proof (rf_inv _ _ _ _ _ Hrec) as He.
  exists (attach_snapshot (Journal_new rotate_bytes) (snapshot_bytes hash (engine_snapshot e latest))), [], [], (Some (engine_snapshot e latest)), [].
  split; [apply Hrec|]. split; [constructor|].
  split; [apply pending_attach; [apply pending_new|by apply snapshot_fits|done]|]. split; [by eexists _, _|].
  split; [|by split]. eapply (lg_batch _ _ _ [] _ _ (eg_scheduler e) (eg_jobs e)); [constructor|constructor| |constructor].
  intros sn [= <-]. by apply engine_snapshot_point.
Qed.

(** The writer on batches that open with a snapshot: whatever was on disk before,
    the disk then stands for the run. *)
Lemma run_writer_first st snap rs sn s0 jobs0 bs s jobs sent :
  store_ok hash st snap rs → waits (sc_deps s0) jobs0 → within_accounts jobs0 → opens (Some sn) bs →
  logged (dc_cycle config) s0 jobs0 bs s jobs → Forall2 (batch_of hash) sent bs → batches_restorable hash sent →
  st_generation st + Z.of_nat (length sent) <= u64_max →
  ∃ st' snap' rs', run_writer st sent = (st', concat (acks <$> sent), concat (dispatches <$> sent)) ∧
    store_ok hash st' snap' rs' ∧ represents config snap' rs' s jobs ∧
    st_generation st <= st_generation st' <= st_generation st + Z.of_nat (length sent).
Proof.
  intros Hst Hw Ha (rf & rest & ->) Hl Hbs Hres Hg.
  apply logged_cons in Hl as (s2 & jobs2 & s1 & jobs1 & H1 & Hp & H2 & Hl). cbn [bt_before bt_snapshot bt_after] in *.
  apply Forall2_cons_inv_r in Hbs as (c & sent' & Hb & Hbs & ->). cbn [length] in Hg.
  destruct (persist_spec hash st c [] (Some sn) rf snap rs Hst Hb) as (st1 & Ep & Hg1 & Hst1).
  { unfold is_u64. pose proof (so_gen _ _ _ _ Hst). unfold is_u64 in *. lia. }
  assert (represents config (Some sn) rf s1 jobs1) as Hrep.
  { exists s2, jobs2. split; [|done]. eapply snapshot_base; [exact Hw|done|exact H1|by apply Hp|].
    eapply (batch_restorable hash Hhash (c :: sent') c); [done|set_solver|done|done]. }
  destruct (run_writer_ok hash config Hhash Hcfg st1 (Some sn) rf s1 jobs1 rest s jobs sent') as (st' & snap' & rs' & E & Hst' & Hrep' & Hg');
    [done|done|done|done|by intros ? ?; apply Hres; set_solver|lia|].
  exists st', snap', rs'. split; [|split; [done|split; [done|cbn [length]; lia]]]. cbn [run_writer]. unfold writer_step. by rewrite Ep, E.
Qed.

(** What the next daemon finds of a run: the state this one started from, when
    nothing was durable yet, or the state somewhere between the last batch the
    writer finished and the end of the run. *)
Definition carried (e e' : Engine) (sent : list EngineCommit) (k : nat) (jobs jobs' : Arena Job) : Prop :=
  (k = 0%nat ∧ jobs' = jobs) ∨
  ∃ bs s1 jobs1 r1 s' r2, Forall2 (batch_of hash) sent bs ∧
    logged (dc_cycle config) (eg_scheduler e) (eg_jobs e) (take k bs) s1 jobs1 ∧
    log_trace (dc_cycle config) s1 jobs1 r1 s' jobs' ∧
    log_trace (dc_cycle config) s' jobs' r2 (eg_scheduler e') (eg_jobs e').

(** A crash inside the batch [b], which takes the engine from [s1] to [s3]. *)
Lemma crash_within st snap rs s1 jobs1 s2 jobs2 s3 jobs3 (c : EngineCommit) b d' :
  store_ok hash st snap rs → batch_of hash c b → is_u64 (st_generation st + 1) →
  crash (persist_ops st c) (st_dir st) d' →
  log_trace (dc_cycle config) s1 jobs1 (bt_before b) s2 jobs2 →
  (∀ sn, bt_snapshot b = Some sn → base config (Some sn) s2 jobs2) →
  log_trace (dc_cycle config) s2 jobs2 (bt_after b) s3 jobs3 →
  stranded d' ∨
  (∃ n, disk_ok hash d' (st_generation st) snap (rs ++ take n (bt_before b ++ bt_after b)) ∧
        (bt_snapshot b ≠ None → (n <= length (bt_before b))%nat)) ∨
  (∃ g' sn r1 s' jobs' r2, disk_ok hash d' g' (Some sn) r1 ∧ represents config (Some sn) r1 s' jobs' ∧
     log_trace (dc_cycle config) s1 jobs1 (bt_before b ++ r1) s' jobs' ∧
     log_trace (dc_cycle config) s' jobs' r2 s3 jobs3).
Proof.
  intros Hst Hb Hg Hcr H1 Hbase H2.
  destruct (crash_persist hash Hhash st c _ _ _ snap rs d' Hst Hb Hg Hcr) as [(k & Hd)|[(sn & k & Es & Hd)|[_ Hs]]]; [| |by left].
  - right; left. destruct (bt_snapshot b) as [sn|] eqn:Es.
    + exists (k `min` length (bt_before b))%nat. split; [|lia].
      assert (take (k `min` length (bt_before b)) (bt_before b ++ bt_after b) = take k (bt_before b)) as ->; [|done].
      rewrite take_app_le by lia. by rewrite <-(take_take _ k), (firstn_all (bt_before b)).
    + destruct Hb as [_ _ _ Ho _ _]. specialize (Ho Es). exists k. split; [|done]. by rewrite Ho.
  - right; right. destruct (log_trace_cut _ _ _ _ _ _ k H2) as (s' & jobs' & Ha & Hb').
    eexists _, sn, (take k (bt_after b)), s', jobs', (drop k (bt_after b)). split; [done|].
    split; [exists s2, jobs2; split; [by apply Hbase|done]|]. split; [by eapply log_trace_app|done].
Qed.

(** A batch of the run, and what a crash inside it leaves. *)
Lemma crash_in_run st snap rs s1 jobs1 (c : EngineCommit) b bs s jobs d' :
  store_ok hash st snap rs → batch_of hash c b → is_u64 (st_generation st + 1) →
  (∀ sn, bt_snapshot b = Some sn → snapshot_restorable sn = true) →
  waits (sc_deps s1) jobs1 → within_accounts jobs1 →
  logged (dc_cycle config) s1 jobs1 (b :: bs) s jobs → crash (persist_ops st c) (st_dir st) d' →
  stranded d' ∨
  (∃ n, disk_ok hash d' (st_generation st) snap (rs ++ take n (bt_before b ++ bt_after b)) ∧
        (bt_snapshot b ≠ None → (n <= length (bt_before b))%nat)) ∨
  (∃ g' sn r1 s' jobs' r2, disk_ok hash d' g' (Some sn) r1 ∧ represents config (Some sn) r1 s' jobs' ∧
     log_trace (dc_cycle config) s1 jobs1 (bt_before b ++ r1) s' jobs' ∧ log_trace (dc_cycle config) s' jobs' r2 s jobs).
Proof.
  intros Hst Hb Hg Hres Hw Ha Hl Hcr. apply logged_cons in Hl as (s2 & jobs2 & s3 & jobs3 & H1 & Hp & H2 & Hl).
  destruct (crash_within st snap rs s1 jobs1 s2 jobs2 s3 jobs3 c b d') as [?|[?|(g' & sn & r1 & s' & jobs' & r2 & Hd & Hr & Ht & Ht2)]]; try done.
  - intros sn Hsn. eapply snapshot_base; [exact Hw|done|exact H1|by apply Hp|by apply Hres].
  - by left.
  - by right; left.
  - right; right. eexists g', sn, r1, s', jobs', _. do 3 (split; [done|]). eapply log_trace_app; [exact Ht2|by apply logged_trace].
Qed.

Section Step.
Context (g : Z) (snap : option Snapshot) (rs : list LogRecord) (s : Scheduler) (jobs : Arena Job).
Context (e : Engine) (latest : VirtualTime) (st : Store) (e' : Engine) (w : World Q) (sent : list EngineCommit).
Hypothesis Hrep : represents config snap rs s jobs.
Hypothesis Hlat : is_u64 latest.
Hypothesis Hst : store_ok hash st snap rs.
Hypothesis Hgen : st_generation st = g.
Hypothesis Hrec : recovered_from hash jobs latest (Journal_new rotate_bytes) e.
Hypothesis Hcc : cycle_config e = dc_cycle config.
Hypothesis Haccs : within_accounts (eg_jobs e).
Hypothesis Hrun : daemon_run e g e' w sent.

Lemma step_history : history_ok hash (dc_cycle config) (Some (engine_snapshot e latest)) (eg_scheduler e) (eg_jobs e) e' sent.
Proof.
  eapply runs_history; [apply Hrec|exact Hcc| |apply Hrun]. eapply started_history; [exact Hrec|done|apply Hrun|done].
Qed.

(** The first batch replaces the generation the daemon started from. *)
Lemma step_first d' :
  batches_restorable hash (take 1 sent) → interrupted st sent 0 d' → stranded d' ∨
  ∃ g' snap' rs' s' jobs', disk_ok hash d' g' snap' rs' ∧ represents config snap' rs' s' jobs' ∧ carried e e' sent 0 jobs jobs'.
Proof.
  unfold interrupted. rewrite take_0. cbn [run_writer]. intros Hres [_ [->|(c & Hc & Hcr)]].
  { right. eexists _, snap, rs, s, jobs. split; [by apply store_ok_disk|]. split; [done|]. by left. }
  destruct step_history as (j & bs & rb & osn & rf & _ & Hbs & _ & Hop & Hl & _).
  destruct (Forall2_lookup_l _ _ _ _ _ Hbs Hc) as (b & Hb0 & Hb). destruct bs as [|b' bs']; [done|]. injection Hb0 as ->.
  destruct Hop as (rf0 & rest & [= -> Erest]).
  assert (is_u64 (st_generation st + 1)) as Hg.
  { pose proof (so_gen _ _ _ _ Hst). pose proof (dr_generations _ _ _ _ _ Hrun). apply lookup_lt_Some in Hc. unfold is_u64 in *. lia. }
  destruct (crash_in_run st snap rs _ _ c _ _ _ _ d' Hst Hb Hg
    (fun sn => batch_restorable hash Hhash (take 1 sent) c _ sn Hres (list_elem_of_lookup_2 (take 1 sent) 0 c ltac:(by rewrite lookup_take_lt by lia)) Hb)
    (rf_waits _ _ _ _ _ Hrec) Haccs Hl Hcr) as [?|[(n & Hd & Hn)|(g' & sn & r1 & s' & jobs' & r2 & Hd & Hr & Ht & Ht2)]].
  - by left.
  - right. assert (n = 0%nat) as -> by (specialize (Hn ltac:(done)); cbn in Hn; lia). rewrite take_0, app_nil_r in Hd.
    eexists _, snap, rs, s, jobs. split; [done|]. split; [done|]. by left.
  - right. eexists g', _, _, s', jobs'. split; [done|]. split; [done|]. right.
    exists (MkBatch [] (Some (engine_snapshot e latest)) rf0 :: bs'), (eg_scheduler e), (eg_jobs e), r1, s', r2.
    split; [done|]. split; [constructor|]. done.
Qed.

(** The batches after it extend it. *)
Lemma step_later k d' :
  batches_restorable hash (take (S (S k)) sent) → interrupted st sent (S k) d' → stranded d' ∨
  ∃ g' snap' rs' s' jobs', disk_ok hash d' g' snap' rs' ∧ represents config snap' rs' s' jobs' ∧ carried e e' sent (S k) jobs jobs'.
Proof.
  intros Hres. unfold interrupted. destruct step_history as (j & bs & rb & osn & rf & _ & Hbs & _ & Hop & Hl & _).
  destruct (run_writer st (take (S k) sent)) as [[st1 a1] ds1] eqn:Ew. intros [Hk Hd'].
  pose proof (Forall2_length _ _ _ Hbs) as Hlen.
  rewrite <-(take_drop (S k) bs), <-app_assoc in Hl. apply logged_split in Hl as (s1 & jobs1 & Hl1 & Hl2).
  assert (opens (Some (engine_snapshot e latest)) (take (S k) bs)) as Hop'.
  { destruct Hop as (rf0 & rest & E). destruct bs as [|b bs]; [cbn in *; lia|]. injection E as -> E. by eexists _, _. }
  destruct (run_writer_first st snap rs _ _ _ _ _ _ (take (S k) sent) Hst (rf_waits _ _ _ _ _ Hrec) Haccs Hop' Hl1)
    as (st1' & snap1 & rs1 & Ew' & Hst1 & Hrep1 & Hg1).
  { by apply Forall2_take. }
  { intros c Hc. apply Hres. apply (take_more (S k) (S (S k))); [lia|done]. }
  { pose proof (dr_generations _ _ _ _ _ Hrun). rewrite length_take. lia. }
  rewrite Ew in Ew'. injection Ew' as <- _ _.
  assert (∀ r1 s' jobs' r2, log_trace (dc_cycle config) s1 jobs1 r1 s' jobs' →
    log_trace (dc_cycle config) s' jobs' r2 (eg_scheduler e') (eg_jobs e') → carried e e' sent (S k) jobs jobs') as Hcar.
  { intros r1 s' jobs' r2 Ha Hb. right. by exists bs, s1, jobs1, r1, s', r2. }
  destruct Hd' as [->|(c & Hc & Hcr)].
  { right. eexists _, snap1, rs1, s1, jobs1. split; [by apply store_ok_disk|]. split; [done|].
    eapply Hcar; [constructor|by apply logged_trace]. }
  destruct (Forall2_lookup_l _ _ _ _ _ Hbs Hc) as (b & Hb & Hcb). rewrite (drop_S _ _ _ Hb) in Hl2. cbn [app] in Hl2.
  assert (is_u64 (st_generation st1 + 1)) as Hg.
  { pose proof (so_gen _ _ _ _ Hst1). pose proof (dr_generations _ _ _ _ _ Hrun). rewrite length_take in Hg1. unfold is_u64 in *. lia. }
  destruct (represents_state config Hcfg _ _ _ _ Hrep1) as [Hw1 Ha1].
  destruct (crash_in_run st1 snap1 rs1 s1 jobs1 c b _ _ _ d' Hst1 Hcb Hg
    (fun sn => batch_restorable hash Hhash (take (S (S k)) sent) c b sn Hres (list_elem_of_lookup_2 (take (S (S k)) sent) (S k) c ltac:(by rewrite lookup_take_lt by lia)) Hcb) Hw1 Ha1 Hl2 Hcr)
    as [?|[(n & Hd & _)|(g' & sn & r1 & s' & jobs' & r2 & Hd & Hr & Ht & Ht2)]]; [by left| |].
  - right. apply logged_trace in Hl2. rewrite fmap_cons in Hl2. cbn [concat] in Hl2.
    destruct (log_trace_cut _ _ _ _ _ _ (length (take n (bt_before b ++ bt_after b))) Hl2) as (s' & jobs' & H1 & H2).
    rewrite take_app_le, take_length_take in H1 by (rewrite length_take; lia).
    eexists _, snap1, _, s', jobs'. split; [exact Hd|]. split; [by eapply represents_more|]. by eapply Hcar.
  - right. eexists g', _, _, s', jobs'. split; [done|]. split; [done|]. by eapply Hcar.
Qed.
End Step.

(** What a daemon leaves, from the start of its life to the end. *)
Lemma life_step g snap rs s jobs e latest st e' (w : World Q) sent k d' :
  represents config snap rs s jobs → is_u64 latest → store_ok hash st snap rs → st_generation st = g →
  recovered_from hash jobs latest (Journal_new rotate_bytes) e → cycle_config e = dc_cycle config → within_accounts (eg_jobs e) →
  daemon_run e g e' w sent → batches_restorable hash (take (S k) sent) → interrupted st sent k d' →
  stranded d' ∨
  ∃ g' snap' rs' s' jobs', disk_ok hash d' g' snap' rs' ∧ represents config snap' rs' s' jobs' ∧ carried e e' sent k jobs jobs'.
Proof. intros. destruct k as [|k]; [by eapply step_first|by eapply step_later]. Qed.

(** The directories daemons with this configuration leave behind: the first starts
    on an empty one, and each is stopped at any point of any run in which every
    snapshot that was written can be restored. *)
Inductive lives : Dir → Prop :=
| lives_new : lives ∅
| lives_next d e o st e' w sent k d' :
    lives d → start hash config rotate_bytes (Some d) = Done (Ok (MkStarted e o (Some st))) →
    daemon_run e (st_generation st) e' w sent → batches_restorable hash (take (S k) sent) → interrupted st sent k d' →
    lives d'.

Lemma disk_new : disk_ok hash ∅ 0 None [].
Proof.
  split; [unfold is_u64; lia| |done|done|constructor|by left].
  unfold highest_generation. by rewrite map_to_list_empty.
Qed.

Lemma represents_new : ∃ s, represents config None [] s Arena_new.
Proof.
  destruct (build_fresh config None Hcfg) as (e & E & _). exists (eg_scheduler e), (eg_scheduler e), Arena_new.
  split; [|constructor]. split; [done|]. by exists e.
Qed.

Lemma lives_represents d :
  lives d → stranded d ∨ ∃ g snap rs s jobs, disk_ok hash d g snap rs ∧ represents config snap rs s jobs.
Proof.
  induction 1 as [|d e o st e' w sent k d' _ IH E Hr Hres Hi].
  - right. destruct represents_new as [s Hs]. exists 0, None, [], s, Arena_new. split; [apply disk_new|done].
  - destruct IH as [Hs%start_stranded|(g & snap & rs & s & jobs & Hd & Hrep)]; [by rewrite E in Hs|].
    destruct (start_ok d g snap rs s jobs Hd Hrep) as (e0 & latest & st0 & E0 & Hlat & Hst & Hg & Hrec & Hcc & Ha).
    rewrite E in E0. injection E0 as -> _ ->. rewrite Hg in Hr.
    destruct (life_step g snap rs s jobs e0 latest st0 e' w sent k d') as [?|(g' & snap' & rs' & s' & jobs' & Hd' & Hr' & _)]; try done;
      [by left|right]. eauto 10.
Qed.

(** A directory on which a daemon did start. *)
Lemma lives_started d e o st :
  lives d → start hash config rotate_bytes (Some d) = Done (Ok (MkStarted e o (Some st))) →
  ∃ g snap rs s jobs latest, disk_ok hash d g snap rs ∧ represents config snap rs s jobs ∧
    is_u64 latest ∧ store_ok hash st snap rs ∧ st_generation st = g ∧ recovered_from hash jobs latest (Journal_new rotate_bytes) e ∧
    cycle_config e = dc_cycle config ∧ within_accounts (eg_jobs e).
Proof.
  intros Hl E. destruct (lives_represents d Hl) as [Hs%start_stranded|(g & snap & rs & s & jobs & Hd & Hrep)]; [by rewrite E in Hs|].
  destruct (start_ok d g snap rs s jobs Hd Hrep) as (e0 & latest & st0 & E0 & H1 & H2 & H3 & H4 & H5 & H6).
  rewrite E in E0. injection E0 as -> _ ->. exists g, snap, rs, s, jobs, latest. by split_and!.
Qed.

(** What the next start makes of an interrupted life. *)
Lemma next_start d e o st e' (w : World Q) sent k d' jobs latest :
  lives d → start hash config rotate_bytes (Some d) = Done (Ok (MkStarted e o (Some st))) →
  recovered_from hash jobs latest (Journal_new rotate_bytes) e → (∃ g snap rs s, disk_ok hash d g snap rs ∧ represents config snap rs s jobs ∧
    is_u64 latest ∧ store_ok hash st snap rs ∧ st_generation st = g ∧ cycle_config e = dc_cycle config ∧ within_accounts (eg_jobs e)) →
  daemon_run e (st_generation st) e' w sent → batches_restorable hash (take (S k) sent) → interrupted st sent k d' →
  (stranded d' ∧ start hash config rotate_bytes (Some d') = Done (Err (DaemonError.Wal WalError.BadMagic))) ∨
  ∃ e2 latest2 st2 jobs2, start hash config rotate_bytes (Some d') =
      Done (Ok (MkStarted e2 (Some (time_saturating_add latest2 1)) (Some st2))) ∧
    recovered_from hash jobs2 latest2 (Journal_new rotate_bytes) e2 ∧ carried e e' sent k jobs jobs2.
Proof.
  intros Hl E Hrec (g & snap & rs & s & Hd & Hrep & Hlat & Hst & Hg & Hcc & Ha) Hrun Hres Hi. rewrite Hg in Hrun.
  destruct (life_step g snap rs s jobs e latest st e' w sent k d')
    as [Hs|(g' & snap' & rs' & s' & jobs' & Hd' & Hr' & Hcar)]; try done; [left; split; [done|by apply start_stranded]|right].
  destruct (start_ok d' g' snap' rs' s' jobs' Hd' Hr') as (e2 & latest2 & st2 & E2 & _ & _ & _ & Hrec2 & _).
  by exists e2, latest2, st2, jobs'.
Qed.

(** A daemon that is stopped in order. *)
Lemma stop_ok g snap rs s jobs e latest st e' (w : World Q) sent :
  represents config snap rs s jobs → is_u64 latest → store_ok hash st snap rs → st_generation st = g →
  recovered_from hash jobs latest (Journal_new rotate_bytes) e → cycle_config e = dc_cycle config → within_accounts (eg_jobs e) →
  daemon_run e g e' w sent → batches_restorable hash (sent ++ flushed e') →
  ∃ st' snap' rs', stop e' st sent = (st', concat (acks <$> (sent ++ flushed e')), concat (dispatches <$> (sent ++ flushed e'))) ∧
    store_ok hash st' snap' rs' ∧ represents config snap' rs' (eg_scheduler e') (eg_jobs e').
Proof.
  intros Hrep Hlat Hst Hg Hrec Hcc Ha Hrun Hfl. pose proof (dr_generations _ _ _ _ _ Hrun) as Hgen.
  destruct (step_history g jobs e latest e' w sent Hlat Hrec Hcc Hrun) as (j & bs & rb & osn & rf & Ej & Hbs & Hp & Hop & Hl & _).
  rename Hfl into Hres.
  unfold flushed in *. rewrite Ej in *. unfold stop, flushed, flush in *. rewrite Ej in *.
  destruct (commit_is_empty (jr_pending j)) eqn:Ee; cbn [snd] in *.
  - assert (osn = None ∧ rf = []) as [-> ->].
    { destruct Hp as [_ Hf Hs _ _ _]. unfold commit_is_empty in Ee. destruct (before (jr_pending j)), (cm_frames (jr_pending j)) eqn:Efr,
        (acks (jr_pending j)), (dispatches (jr_pending j)), (cm_snapshot (jr_pending j)) eqn:Esn; try done.
      split; [by destruct osn|]. symmetry in Hf. by apply frames_nil_inv in Hf. }
    destruct Hp as [_ _ _ Ho _ _]. rewrite (Ho eq_refl) in *. rewrite app_nil_r in *.
    apply logged_snoc_inv in Hl as (s1 & jobs1 & s2 & jobs2 & Hl & H1 & _ & H2). cbn [bt_before bt_after] in *.
    destruct Hop as (rf0 & rest & E). destruct bs as [|b bs]; [done|]. injection E as -> E.
    assert (opens (Some (engine_snapshot e latest)) (MkBatch [] (Some (engine_snapshot e latest)) rf0 :: bs)) as Hop by (by eexists _, _).
    destruct (run_writer_first st snap rs _ _ _ _ _ _ sent Hst (rf_waits _ _ _ _ _ Hrec) Ha Hop Hl Hbs)
      as (st' & snap' & rs' & Ew & Hst' & Hrep' & _); [done|lia|].
    exists st', snap', rs'. split; [done|]. split; [done|].
    pose proof (represents_more config _ _ _ _ _ _ _ Hrep' H1) as Hr1. pose proof (represents_more config _ _ _ _ _ _ _ Hr1 H2) as Hr2.
    by rewrite !app_nil_r in Hr2.
  - destruct (run_writer_first st snap rs _ _ _ _ _ _ (sent ++ [jr_pending j]) Hst (rf_waits _ _ _ _ _ Hrec) Ha Hop Hl)
      as (st' & snap' & rs' & Ew & Hst' & Hrep' & _).
    + apply Forall2_app; [done|]. by constructor.
    + done.
    + rewrite length_app. cbn. lia.
    + by exists st', snap', rs'.
Qed.
End Lives.

(** ** Properties *)


(** C11: An orderly shutdown loses nothing.  The engine hands over what is pending
    before its thread ends and the writer drains before it exits: every reply and
    dispatch of the run is released, and, provided every snapshot of the run is
    restorable as in C7, the next start finds the jobs the engine ended with, each
    with the same content and state, the running ones held for their workers; but
    a job that was being evicted is Ready again, and how often a job was evicted
    is not promised. *)
Theorem shutdown_loses_nothing hash {Q : Type → Type} `{ArrayQueue Q} config rotate_bytes d e origin st e' (w : World Q) sent :
  Checksum hash → daemon_config_ok config → lives hash (Q := Q) config rotate_bytes d →
  start hash config rotate_bytes (Some d) = Done (Ok (MkStarted e origin (Some st))) →
  daemon_run hash e (st_generation st) e' w sent → batches_restorable hash (sent ++ flushed e') →
  ∃ st' e2 latest2 st2,
    stop e' st sent = (st', concat (acks <$> (sent ++ flushed e')), concat (dispatches <$> (sent ++ flushed e'))) ∧
    start hash config rotate_bytes (Some (st_dir st')) =
      Done (Ok (MkStarted e2 (Some (time_saturating_add latest2 1)) (Some st2))) ∧
    recovered_from hash (eg_jobs e') latest2 (Journal_new rotate_bytes) e2.
Proof.
  intros Hh Hc Hl E Hrun Hfl.
  destruct (lives_started hash config rotate_bytes Hh Hc d e origin st Hl E) as (g & snap & rs & s & jobs & latest & Hd & Hrep & Hlat & Hst & Hg & Hrec & Hcc & Ha).
  rewrite Hg in Hrun.
  destruct (stop_ok hash config rotate_bytes Hh Hc g snap rs s jobs e latest st e' w sent) as (st' & snap' & rs' & Es & Hst' & Hrep'); try done.
  destruct (start_ok hash config rotate_bytes Hh Hc (st_dir st') (st_generation st') snap' rs' _ _ (store_ok_disk _ _ _ _ Hst') Hrep')
    as (e2 & latest2 & st2 & E2 & _ & _ & _ & Hrec2 & _).
  by exists st', e2, latest2, st2.
Qed.

(** ** The demo daemon, on disk *)

Lemma snapshot_small_any e : snapshot_small e 0 → ∀ at_, snapshot_small e at_.
Proof.
  unfold snapshot_small, body_bytes. cbn [taken_at snap_slots snap_free_head snap_running snap_ledgers engine_snapshot].
  intros Hs at_. rewrite length_app in Hs |- *. rewrite length_to_le in Hs |- *. exact Hs.
Qed.

Definition demo_started : Started :=
  Eval vm_compute in
  match start crc32 demo_daemon_config 1000000 (Some ∅) with
  | Done (Ok s) => s
  | _ => MkStarted demo_built None None
  end.

Definition demo_disk : Store := Eval vm_compute in default (MkStore ∅ 0 (MkLogWriter [] 0)) (sd_store demo_started).

(** The engine and its world after some commands, all at 10. *)
Definition handled (ew : Engine * World ListQueue) (cs : list Command) : Engine * World ListQueue :=
  match exec_fold (fun ew c => handle crc32 ew.1 ew.2 c 10) ew cs with Done ew => ew | _ => ew end.

Definition demo_morning : Engine * World ListQueue := Eval vm_compute in handled (sd_engine demo_started, demo_world) demo_commands.

Definition demo_noon_body : Engine * World ListQueue * CycleOutcome :=
  Eval vm_compute in
  match tick_body crc32 demo_morning.1 demo_morning.2 20 with Done r => r | _ => (demo_morning, demo_ticked.2) end.

Definition demo_noon : Engine * World ListQueue :=
  Eval vm_compute in
  match tick crc32 demo_morning.1 demo_morning.2 20 with Done (e, w, _) => (e, w) | _ => demo_morning end.

Definition demo_evening : Engine * World ListQueue := Eval vm_compute in handled demo_noon [Command.Completed 0].

Example demo_day_works :
  job_state (eg_jobs demo_evening.1) 0 = Some JobState.Completed ∧ job_state (eg_jobs demo_evening.1) 1 = Some JobState.Ready ∧
  length (w_commits demo_noon.2) = 1%nat ∧ length (flushed demo_evening.1) = 1%nat.
Proof. vm_compute. done. Qed.

Definition demo_hour (n : nat) : Engine * World ListQueue := handled (sd_engine demo_started, demo_world) (take n demo_commands).

Lemma demo_morning_runs : runs crc32 (sd_engine demo_started) demo_morning.1 demo_morning.2 [].
Proof.
  assert (is_u64 10) as Hnow by (unfold is_u64; lia).
  eapply (ru_command _ _ (demo_hour 2).1 (demo_hour 2).2 [] (Command.Submit (demo_submission [0]) 2) 10);
    [|split; [apply demo_submit_ok; by right|right; vm_compute; reflexivity]|done|vm_compute; reflexivity].
  eapply (ru_command _ _ (demo_hour 1).1 (demo_hour 1).2 [] (Command.Submit (demo_submission []) 1) 10);
    [|split; [apply demo_submit_ok; by left|right; vm_compute; reflexivity]|done|vm_compute; reflexivity].
  eapply (ru_command _ _ (sd_engine demo_started) demo_world [] (Command.WorkerJoined "w0" (MkResources 2000 4096 0) [] 0) 10);
    [|split; [unfold Resources_wf, is_u32, is_u64, is_u8; cbn; lia|vm_compute; reflexivity]|done|vm_compute; reflexivity].
  apply ru_start.
Qed.

Lemma demo_noon_runs : runs crc32 (sd_engine demo_started) demo_noon.1 demo_noon.2 (w_commits demo_noon.2).
Proof.
  eapply (ru_tick _ _ demo_morning.1 demo_morning.2 [] 20 demo_noon_body.1.1 demo_noon_body.1.2 _ _ demo_noon_body.2).
  - apply demo_morning_runs.
  - unfold is_u64. lia.
  - intros p Hp. by apply elem_of_nil in Hp.
  - vm_compute. reflexivity.
  - vm_compute. discriminate.
  - vm_compute. reflexivity.
  - vm_compute. reflexivity.
Qed.

Lemma demo_evening_runs : runs crc32 (sd_engine demo_started) demo_evening.1 demo_evening.2 (w_commits demo_noon.2).
Proof.
  eapply (ru_command _ _ demo_noon.1 demo_noon.2 _ (Command.Completed 0) 10);
    [apply demo_noon_runs|done|unfold is_u64; lia|vm_compute; reflexivity].
Qed.

Lemma demo_restorable l : forallb (commit_restorable crc32) l = true → batches_restorable crc32 l.
Proof. rewrite forallb_forall. intros Hl c Hc%list_elem_of_In. by apply Hl. Qed.

Lemma demo_daemon_run : daemon_run crc32 (sd_engine demo_started) (st_generation demo_disk) demo_evening.1 demo_evening.2 (w_commits demo_noon.2).
Proof.
  split; [apply demo_evening_runs|apply snapshot_small_any; vm_compute; discriminate|].
  vm_compute. done.
Qed.

Lemma demo_starts : start crc32 demo_daemon_config 1000000 (Some ∅) =
  Done (Ok (MkStarted (sd_engine demo_started) (sd_origin demo_started) (Some demo_disk))).
Proof. vm_compute. reflexivity. Qed.

(** The daemon is killed with its first batch written. *)
Definition demo_written : Store * list Answer * list Dispatch := Eval vm_compute in run_writer demo_disk (w_commits demo_noon.2).
Definition demo_crashed : Dir := st_dir demo_written.1.1.

Lemma demo_writes : run_writer demo_disk (take 1 (w_commits demo_noon.2)) = demo_written.
Proof. vm_compute. reflexivity. Qed.

Lemma demo_interrupted : interrupted demo_disk (w_commits demo_noon.2) 1 demo_crashed.
Proof.
  unfold interrupted. rewrite demo_writes. unfold demo_crashed. destruct demo_written as [[st' acks'] disp].
  split; [vm_compute; lia|]. by left.
Qed.

(** Whether [recover] comes back with the contents of the directory. *)
Definition recovers (d : Dir) : bool := match recover crc32 d with Done (_, Ok _) => true | _ => false end.

Lemma recovers_stranded d : recovers d = true → ¬ stranded crc32 d.
Proof. unfold recovers, stranded. intros Hr Hs. by rewrite Hs in Hr. Qed.

Lemma demo_lives : lives crc32 (Q := ListQueue) demo_daemon_config 1000000 demo_crashed.
Proof.
  eapply lives_next; [apply lives_new|apply demo_starts|apply demo_daemon_run| |apply demo_interrupted].
  apply demo_restorable. vm_compute. reflexivity.
Qed.


Lemma shutdown_loses_nothing_witness :
  ∃ st' e2 latest2 st2,
    stop demo_evening.1 demo_disk (w_commits demo_noon.2) =
      (st', concat (acks <$> (w_commits demo_noon.2 ++ flushed demo_evening.1)),
       concat (dispatches <$> (w_commits demo_noon.2 ++ flushed demo_evening.1))) ∧
    start crc32 demo_daemon_config 1000000 (Some (st_dir st')) =
      Done (Ok (MkStarted e2 (Some (time_saturating_add latest2 1)) (Some st2))) ∧
    recovered_from crc32 (eg_jobs demo_evening.1) latest2 (Journal_new 1000000) e2.
Proof.
  eapply (shutdown_loses_nothing crc32 (Q := ListQueue) demo_daemon_config 1000000 ∅);
    [apply crc32_checksum|apply demo_daemon_config_ok|apply lives_new|apply demo_starts|apply demo_daemon_run|].
  apply demo_restorable. vm_compute. reflexivity.
Defined.
