(* ===== verification/Proto.v ===== *)
(** * The wire types and their conversions

    [crates/tasker-proto]: the messages of [proto/tasker/v1/*.proto] as prost
    generates them (a message field is an [option], an enum field an open [i32],
    a [oneof] an inductive type), and [convert.rs] between them and the types of
    the core. *)

From stdpp Require Import base strings list numbers option.
From Stdlib Require Import ZArith Lia.
From S2P Require Import Prelude Domain Arena Job.
Open Scope Z_scope.
Open Scope list_scope.

(** ** Messages *)

Module Wire.

Record Resources : Type := MkResources {
  cpu_millis : Z;
  mem_bytes : Z;
  gpus : Z;
}.

Inductive PriorityClass : Type := ClassUnspecified | Low | Normal | High | Urgent.

Inductive JobState : Type :=
| StateUnspecified | Submitted | Blocked | Ready | Running | Completed | Failed | Preempted | Cancelled.

Inductive TaskResult : Type :=
| ResultUnspecified | Succeeded | TaskFailed | TimedOut | Panicked | TaskPreempted.

Record SubmitRequest : Type := MkSubmitRequest {
  account : Z;
  priority_class : Z;
  request : option Resources;
  walltime_nanos : Z;
  deps : list Z;
  payload : list Z;
}.

Record SubmitResponse : Type := MkSubmitResponse { sr_job_id : Z; sr_state : Z }.

Record CancelResponse : Type := MkCancelResponse { cr_cascaded : list Z }.

Record StatusResponse : Type := MkStatusResponse { st_job_id : Z; st_state : Z }.

Record QueueResponse : Type := MkQueueResponse {
  qr_ready : Z;
  qr_blocked : Z;
  qr_running : Z;
  qr_cycles : Z;
}.

Record Node : Type := MkNode {
  nd_slot : Z;
  nd_name : string;
  nd_capacity : option Resources;
  nd_allocated : option Resources;
  nd_attached : bool;
}.

Record Account : Type := MkAccount {
  ac_account : Z;
  ac_shares : Z;
  ac_usage : Z;
  ac_running_cpu_millis : Z;
  ac_fairshare : Z;
}.

Record Hello : Type := MkHello {
  hl_name : string;
  hl_capacity : option Resources;
  hl_in_flight : list Z;
}.

Inductive Up : Type :=
| UpHello (h : Hello)
| Heartbeat
| Finished (job_id : Z) (result : Z)
| Draining.

(** [WorkerMessage]: the body of a message may be missing. *)
Abbreviation WorkerMessage := (option Up) (only parsing).

Inductive Down : Type :=
| Welcome (slot : Z)
| Assign (job_id : Z) (payload : list Z) (walltime_nanos : Z)
| Kill (job_id : Z)
| Preempt (job_id : Z) (grace_nanos : Z).

Abbreviation DaemonMessage := (option Down) (only parsing).

(** Enum numbers: [as i32] and [try_from(i32)]. *)
Definition class_number (c : PriorityClass) : Z :=
  match c with ClassUnspecified => 0 | Low => 1 | Normal => 2 | High => 3 | Urgent => 4 end.

Definition class_try_from (n : Z) : option PriorityClass :=
  match n with
  | 0 => Some ClassUnspecified | 1 => Some Low | 2 => Some Normal | 3 => Some High | 4 => Some Urgent
  | _ => None
  end.

Definition state_number (s : JobState) : Z :=
  match s with
  | StateUnspecified => 0 | Submitted => 1 | Blocked => 2 | Ready => 3 | Running => 4
  | Completed => 5 | Failed => 6 | Preempted => 7 | Cancelled => 8
  end.

Definition result_number (r : TaskResult) : Z :=
  match r with
  | ResultUnspecified => 0 | Succeeded => 1 | TaskFailed => 2 | TimedOut => 3 | Panicked => 4
  | TaskPreempted => 5
  end.

Definition result_try_from (n : Z) : option TaskResult :=
  match n with
  | 0 => Some ResultUnspecified | 1 => Some Succeeded | 2 => Some TaskFailed | 3 => Some TimedOut
  | 4 => Some Panicked | 5 => Some TaskPreempted
  | _ => None
  end.

(** The widths the wire format gives the fields. *)
Definition Resources_wf (r : Resources) : Prop :=
  is_u32 (cpu_millis r) ∧ is_u64 (mem_bytes r) ∧ is_u32 (gpus r).

Definition SubmitRequest_wf (r : SubmitRequest) : Prop :=
  is_u32 (account r) ∧ (∀ q, request r = Some q → Resources_wf q) ∧ is_u64 (walltime_nanos r) ∧
  Forall is_u64 (deps r) ∧ Forall is_u8 (payload r).

End Wire.

(** ** [convert.rs] *)

Module ConvertError.
Inductive ConvertError : Type :=
| UnspecifiedPriorityClass
| MissingResources
| GpusOutOfRange (gpus : Z)
| ZeroWalltime.
End ConvertError.
Abbreviation ConvertError := ConvertError.ConvertError.

Definition priority_class_to_proto (class : PriorityClass) : Wire.PriorityClass :=
  match class with
  | PriorityClass.Low => Wire.Low
  | PriorityClass.Normal => Wire.Normal
  | PriorityClass.High => Wire.High
  | PriorityClass.Urgent => Wire.Urgent
  end.

Definition priority_class_from_proto (class : Wire.PriorityClass) : result PriorityClass ConvertError :=
  match class with
  | Wire.Low => Ok PriorityClass.Low
  | Wire.Normal => Ok PriorityClass.Normal
  | Wire.High => Ok PriorityClass.High
  | Wire.Urgent => Ok PriorityClass.Urgent
  | Wire.ClassUnspecified => Err ConvertError.UnspecifiedPriorityClass
  end.

Definition job_state_to_proto (state : JobState) : Wire.JobState :=
  match state with
  | JobState.Submitted => Wire.Submitted
  | JobState.Blocked => Wire.Blocked
  | JobState.Ready => Wire.Ready
  | JobState.Running => Wire.Running
  | JobState.Completed => Wire.Completed
  | JobState.Failed => Wire.Failed
  | JobState.Preempted => Wire.Preempted
  | JobState.Cancelled => Wire.Cancelled
  end.

Definition resources_to_proto (r : Resources) : Wire.Resources :=
  Wire.MkResources (cpu_millis r) (mem_bytes r) (gpus r).

Definition resources_from_proto (r : Wire.Resources) : result Resources ConvertError :=
  if Wire.gpus r <=? u8_max
  then Ok (MkResources (Wire.cpu_millis r) (Wire.mem_bytes r) (Wire.gpus r))
  else Err (ConvertError.GpusOutOfRange (Wire.gpus r)).

(** The [?] operator. *)
Definition res_bind {A B E} (m : result A E) (k : A → result B E) : result B E :=
  match m with
  | Ok a => k a
  | Err e => Err e
  end.

Definition ok_or {A E} (o : option A) (e : E) : result A E :=
  match o with
  | Some a => Ok a
  | None => Err e
  end.

Definition job_from_submit (req : Wire.SubmitRequest) (now : VirtualTime) : result Job ConvertError :=
  let class := default Wire.ClassUnspecified (Wire.class_try_from (Wire.priority_class req)) in
  res_bind (priority_class_from_proto class) (fun class =>
  res_bind (ok_or (Wire.request req) ConvertError.MissingResources) (fun r =>
  res_bind (resources_from_proto r) (fun request =>
  if Wire.walltime_nanos req =? 0 then Err ConvertError.ZeroWalltime
  else
    let job := Job_new (Wire.account req) class now request (Wire.walltime_nanos req) in
    Ok (MkJob (account job) (priority_class job) (submit_time job) (Job.request job) (walltime_limit job)
              (deps job ++ Wire.deps req) (Wire.payload req) (state job) (preemptions job))))).

(** ** Facts *)

Lemma class_try_from_number c : Wire.class_try_from (Wire.class_number c) = Some c.
Proof. by destruct c. Qed.

Lemma class_try_from_Some n c : Wire.class_try_from n = Some c ↔ n = Wire.class_number c.
Proof.
  split; [|intros ->; apply class_try_from_number].
  unfold Wire.class_try_from. intros E. repeat case_match; by simplify_eq.
Qed.

Lemma result_try_from_number r : Wire.result_try_from (Wire.result_number r) = Some r.
Proof. by destruct r. Qed.

Lemma priority_class_roundtrip c : priority_class_from_proto (priority_class_to_proto c) = Ok c.
Proof. by destruct c. Qed.

Lemma priority_class_from_Ok w c : priority_class_from_proto w = Ok c ↔ w = priority_class_to_proto c.
Proof. destruct w, c; simpl; naive_solver. Qed.

Lemma resources_roundtrip r : Resources_wf r → resources_from_proto (resources_to_proto r) = Ok r.
Proof.
  intros (_ & _ & [_ Hg]). unfold resources_from_proto. simpl.
  rewrite (proj2 (Z.leb_le _ _) Hg). by destruct r.
Qed.

Lemma resources_from_Ok w r :
  resources_from_proto w = Ok r ↔ w = resources_to_proto r ∧ gpus r <= u8_max.
Proof.
  unfold resources_from_proto. destruct w as [c m g], r as [c' m' g']. cbn.
  destruct (Z.leb_spec g 255); split.
  - by intros [= -> -> ->].
  - by intros [[= -> -> ->] _].
  - done.
  - intros [[= -> -> ->] ?]. lia.
Qed.

Lemma resources_from_wf w r : Wire.Resources_wf w → resources_from_proto w = Ok r → Resources_wf r.
Proof.
  intros (Hc & Hm & [Hg _]) [-> Hg']%resources_from_Ok. split; [done|]. split; [done|]. by split.
Qed.

(** The request that asks for [job]. *)
Definition submit_request_of (job : Job) : Wire.SubmitRequest :=
  Wire.MkSubmitRequest (account job) (Wire.class_number (priority_class_to_proto (priority_class job)))
    (Some (resources_to_proto (Job.request job))) (walltime_limit job) (deps job) (payload job).

(** A job as a client can ask for it at [now]. *)
Definition fresh_job (job : Job) (now : VirtualTime) : Prop :=
  state job = JobState.Submitted ∧ preemptions job = 0 ∧ submit_time job = now.

Lemma job_from_submit_Ok req now job :
  job_from_submit req now = Ok job ↔
  req = submit_request_of job ∧ fresh_job job now ∧ gpus (Job.request job) <= u8_max ∧ walltime_limit job ≠ 0.
Proof.
  unfold job_from_submit. split.
  - intros E. destruct (Wire.class_try_from (Wire.priority_class req)) as [c|] eqn:Ec; [|done]. cbn in E.
    apply class_try_from_Some in Ec. destruct (priority_class_from_proto c) as [c'|] eqn:Ep; [|done]. cbn in E.
    apply priority_class_from_Ok in Ep as ->. destruct (Wire.request req) as [r|] eqn:Er; [|done]. cbn in E.
    destruct (resources_from_proto r) as [r'|] eqn:Err; [|done]. cbn in E.
    apply resources_from_Ok in Err as [-> Hg]. destruct (Z.eqb_spec (Wire.walltime_nanos req) 0); [done|].
    injection E as <-. split; [|done]. destruct req. simpl in *. by subst.
  - intros (-> & (Hst & Hp & Hs) & Hg & Hw). cbn.
    rewrite class_try_from_number. cbn. rewrite priority_class_roundtrip. cbn.
    rewrite (proj2 (resources_from_Ok (resources_to_proto (Job.request job)) _) (conj eq_refl Hg)). cbn.
    destruct (Z.eqb_spec (walltime_limit job) 0); [done|]. destruct job. simpl in *. by subst.
Qed.

Lemma job_from_submit_wf req now job :
  Wire.SubmitRequest_wf req → is_u64 now → job_from_submit req now = Ok job → Job_wf job.
Proof.
  intros (Ha & Hr & Hw & Hd & Hp) Hnow (-> & (Hst & Hpr & Hs) & Hg & _)%job_from_submit_Ok.
  destruct (Hr _ eq_refl) as (Hc & Hm & [Hg0 _]). cbn in *. unfold Job_wf. rewrite Hs, Hpr.
  split_and!; try done.
Qed.

(** C35: Submissions cross the wire exactly.  [job_from_submit] accepts a request
    precisely when it is the request for some job in range, and then returns that
    very job, fresh and well formed; otherwise it names the first thing wrong
    with it: the class, then the missing resources, then the gpus, then the
    walltime.  No request becomes a job it did not ask for. *)
Theorem submission_crosses_the_wire req now :
  Wire.SubmitRequest_wf req → is_u64 now →
  (∀ job, job_from_submit req now = Ok job ↔
     req = submit_request_of job ∧ fresh_job job now ∧ Job_wf job ∧ walltime_limit job ≠ 0) ∧
  (∀ err, job_from_submit req now = Err err →
     let known := 1 <= Wire.priority_class req <= 4 in
     match err with
     | ConvertError.UnspecifiedPriorityClass => ¬ known
     | ConvertError.MissingResources => known ∧ Wire.request req = None
     | ConvertError.GpusOutOfRange n => known ∧ (∃ r, Wire.request req = Some r ∧ Wire.gpus r = n) ∧ u8_max < n
     | ConvertError.ZeroWalltime =>
         known ∧ (∃ r, Wire.request req = Some r ∧ Wire.gpus r <= u8_max) ∧ Wire.walltime_nanos req = 0
     end).
Proof.
  intros Hwf Hnow. split.
  - intros job. split.
    + intros E. pose proof (job_from_submit_wf _ _ _ Hwf Hnow E). apply job_from_submit_Ok in E. naive_solver.
    + intros (? & ? & Hj & ?). apply job_from_submit_Ok. split; [done|]. split; [done|]. split; [apply Hj|done].
  - intros err E. cbv zeta. unfold job_from_submit in E.
    destruct (Wire.class_try_from (Wire.priority_class req)) as [c|] eqn:Ec; cbn in E.
    2:{ simplify_eq. intros Hk.
        assert (Wire.priority_class req = 1 ∨ Wire.priority_class req = 2 ∨
                Wire.priority_class req = 3 ∨ Wire.priority_class req = 4) as Hn by lia.
        by destruct Hn as [Hn|[Hn|[Hn|Hn]]]; rewrite Hn in Ec. }
    apply class_try_from_Some in Ec. rewrite Ec.
    destruct c; cbn in E |- *; [by simplify_eq; intros [? ?]|..];
      (destruct (Wire.request req) as [r|]; cbn in E; [|by simplify_eq];
       unfold resources_from_proto in E; destruct (Z.leb_spec (Wire.gpus r) 255); cbn in E;
       [destruct (Z.eqb_spec (Wire.walltime_nanos req) 0); simplify_eq; by eauto 6 with lia
       |simplify_eq; by eauto 6 with lia]).
Qed.

Lemma submission_crosses_the_wire_witness :
  let job := MkJob 3 PriorityClass.High 7 (MkResources 500 1024 2) 1000 [5] [1; 2] JobState.Submitted 0 in
  job_from_submit (submit_request_of job) 7 = Ok job.
Proof.
  apply (submission_crosses_the_wire (submit_request_of _) 7).
  - split; [done|]. split; [by intros q [= <-]|]. split; [done|].
    split; by apply (bool_decide_unpack _); vm_compute.
  - done.
  - split; [done|]. split; [done|]. split; [|done].
    split; [done|]. split; [done|]. split; [done|]. split; [done|].
    split; [|split]; by apply (bool_decide_unpack _); vm_compute.
Defined.
