(* ===== verification/Services.v ===== *)
(** * The services around the engine

    [crates/taskerd/src/control.rs], [worker_api.rs], [dispatcher.rs],
    [registry.rs], [scaler.rs], [clock.rs]: how requests and worker streams
    become commands, and how dispatches reach the worker streams.

    A handler that awaits is one function of what it awaited: [rx] is what the
    reply channel delivered ([None] when the engine dropped it), an inbound stream
    is the list of what its reads returned.  An mpsc channel is named by a number
    and [Streams] holds what each one carries; a send waits for room and fails
    once the receiving half is gone.  Status texts and log lines are not
    modelled, the status codes are. *)

From stdpp Require Import base strings list gmap numbers option.
From Stdlib Require Import ZArith Lia.
From S2P Require Import Prelude Domain Arena Job Inventory Priority ReadySet Eligibility FairShare Preempt Scheduler.
From S2P Require Import LogRecord Journal Command Frame Engine EngineInv EngineSteps EngineRun Proto.
Open Scope Z_scope.
Open Scope list_scope.

(** [tonic::Status], by its code. *)
Module Status.
Inductive Status : Type :=
| InvalidArgument | NotFound | FailedPrecondition | ResourceExhausted | Unavailable | Internal
| Unimplemented | Transport.
End Status.
Abbreviation Status := Status.Status.

(** ** The clock ([clock.rs]) *)

(** [origin] is the static [ORIGIN], [elapsed] the nanoseconds since [START]. *)
Definition set_origin (stored origin : VirtualTime) : VirtualTime := Z.max stored origin.

Definition clock_now (origin elapsed : Z) : VirtualTime :=
  let elapsed := if elapsed <=? u64_max then elapsed else u64_max in
  sat_add u64_max origin elapsed.

(** ** The registry ([registry.rs]) *)

Abbreviation Outbound := nat (only parsing).

Abbreviation Registry := (gmap Z nat) (only parsing).

Definition registry_insert (r : Registry) (slot : SlotIndex) (tx : Outbound) : Registry := <[slot := tx]> r.

Definition registry_remove (r : Registry) (slot : SlotIndex) : Registry := delete slot r.

Definition registry_clear (r : Registry) : Registry := ∅.

Definition registry_sender (r : Registry) (slot : SlotIndex) : option Outbound := r !! slot.

Definition registry_len (r : Registry) : nat := size r.

(** What a channel has been given, and whether its receiver is still there. *)
Record Stream : Type := MkStream { sm_sent : list (option Wire.Down); sm_open : bool }.

Abbreviation Streams := (gmap nat Stream) (only parsing).

(** [tx.send(..).await]: an unknown or closed channel refuses. *)
Definition channel_send (streams : Streams) (tx : Outbound) (m : option Wire.Down) : Streams * bool :=
  match streams !! tx with
  | Some s => if sm_open s then (<[tx := MkStream (sm_sent s ++ [m]) true]> streams, true) else (streams, false)
  | None => (streams, false)
  end.

Section Services.
Context {Q : Type → Type} `{ArrayQueue Q}.

(** ** The control service ([control.rs]) *)

Definition control_push (inbox : Q Command) (command : Command) : Q Command * result unit Status :=
  match inbox_push inbox command with
  | (inbox, Ok tt) => (inbox, Ok tt)
  | (inbox, Err _) => (inbox, Err Status.ResourceExhausted)
  end.

Definition lifecycle_status (e : LifecycleError) : Status :=
  match e with
  | LifecycleError.UnknownJob _ => Status.NotFound
  | LifecycleError.Dependency _ | LifecycleError.Account _ => Status.InvalidArgument
  | LifecycleError.NotSubmitted _ _ | LifecycleError.Transition _ => Status.FailedPrecondition
  end.

Definition gone : Status := Status.Unavailable.

(** [rx.await.map_err(gone)?], then the rest of the handler. *)
Definition awaited {A B} (inbox : Q Command) (pushed : result unit Status) (rx : option A)
    (k : A → result B Status) : Q Command * result B Status :=
  (inbox, res_bind pushed (fun _ => res_bind (ok_or rx gone) k)).

Definition rpc_submit (inbox : Q Command) (req : Wire.SubmitRequest) (now : VirtualTime) (reply : Reply)
    (rx : option (result (JobId * JobState) LifecycleError)) : Q Command * result Wire.SubmitResponse Status :=
  match job_from_submit req now with
  | Err _ => (inbox, Err Status.InvalidArgument)
  | Ok job =>
      let '(inbox, pushed) := control_push inbox (Command.Submit job reply) in
      awaited inbox pushed rx (fun r =>
        match r with
        | Err e => Err (lifecycle_status e)
        | Ok (id, state) => Ok (Wire.MkSubmitResponse id (Wire.state_number (job_state_to_proto state)))
        end)
  end.

Definition rpc_cancel (inbox : Q Command) (job_id : Z) (reply : Reply)
    (rx : option (result (list JobId) LifecycleError)) : Q Command * result Wire.CancelResponse Status :=
  let '(inbox, pushed) := control_push inbox (Command.Cancel job_id reply) in
  awaited inbox pushed rx (fun r =>
    match r with
    | Err e => Err (lifecycle_status e)
    | Ok cascaded => Ok (Wire.MkCancelResponse cascaded)
    end).

Definition rpc_status (inbox : Q Command) (job_id : Z) (reply : Reply) (rx : option (option JobState))
  : Q Command * result Wire.StatusResponse Status :=
  let '(inbox, pushed) := control_push inbox (Command.Query (Query.Status job_id reply)) in
  awaited inbox pushed rx (fun r =>
    res_bind (ok_or r Status.NotFound) (fun state =>
      Ok (Wire.MkStatusResponse job_id (Wire.state_number (job_state_to_proto state))))).

(** [u32::try_from(n).unwrap_or(u32::MAX)]. *)
Definition u32_or_max (n : nat) : Z := if Z.of_nat n <=? u32_max then Z.of_nat n else u32_max.

Definition rpc_queue (inbox : Q Command) (reply : Reply) (rx : option QueueSummary)
  : Q Command * result Wire.QueueResponse Status :=
  let '(inbox, pushed) := control_push inbox (Command.Query (Query.Queue reply)) in
  awaited inbox pushed rx (fun s =>
    Ok (Wire.MkQueueResponse (u32_or_max (qs_ready s)) (u32_or_max (qs_blocked s)) (u32_or_max (qs_running s))
          (qs_cycles s))).

Definition node_to_proto (n : NodeSummary) : Wire.Node :=
  Wire.MkNode (ns_slot n) (ns_name n) (Some (resources_to_proto (ns_capacity n)))
    (Some (resources_to_proto (ns_allocated n))) (ns_attached n).

Definition rpc_nodes (inbox : Q Command) (reply : Reply) (rx : option (list NodeSummary))
  : Q Command * result (list Wire.Node) Status :=
  let '(inbox, pushed) := control_push inbox (Command.Query (Query.Nodes reply)) in
  awaited inbox pushed rx (fun nodes => Ok (map node_to_proto nodes)).

Definition account_to_proto (a : AccountSummary) : Wire.Account :=
  Wire.MkAccount (as_account a) (as_shares a) (as_usage a) (as_running_cpu a) (as_fairshare a).

Definition rpc_accounts (inbox : Q Command) (reply : Reply) (rx : option (list AccountSummary))
  : Q Command * result (list Wire.Account) Status :=
  let '(inbox, pushed) := control_push inbox (Command.Query (Query.Accounts reply)) in
  awaited inbox pushed rx (fun accounts => Ok (map account_to_proto accounts)).

(** ** The scaler ([scaler.rs]) *)

Definition scaler_demand (inbox : Q Command) (reply : Reply) (rx : option Demand)
  : Q Command * result Demand Status :=
  let '(inbox, pushed) := control_push inbox (Command.Query (Query.Demand reply)) in
  awaited inbox pushed rx (fun d => Ok d).

Definition METRIC : string := "tasker_desired_workers".

Definition is_active (inbox : Q Command) (reply : Reply) (rx : option Demand) : Q Command * result bool Status :=
  let '(inbox, d) := scaler_demand inbox reply rx in
  (inbox, res_bind d (fun d => Ok (0 <? desired d))).

(** The name and the target of the one metric. *)
Definition get_metric_spec : string * Z := (METRIC, 1).

Definition get_metrics (inbox : Q Command) (reply : Reply) (rx : option Demand)
  : Q Command * result (string * Z) Status :=
  let '(inbox, d) := scaler_demand inbox reply rx in
  (inbox, res_bind d (fun d => Ok (METRIC, desired d))).

(** ** The worker service ([worker_api.rs]) *)

(** What one read of the inbound stream under the heartbeat timeout returns. *)
Inductive Inbound : Type :=
| Message (m : option Wire.Up)
| Closed
| Broken
| Lapse.

(** Up to the push of [WorkerJoined]: [first] is the first read. *)
Definition attach_hello (inbox : Q Command) (first : Inbound) (reply : Reply)
  : Q Command * result unit Status :=
  match first with
  | Broken => (inbox, Err Status.Transport)
  | Message (Some (Wire.UpHello hello)) =>
      match ok_or (Wire.hl_capacity hello) Status.InvalidArgument with
      | Err s => (inbox, Err s)
      | Ok c =>
          match resources_from_proto c with
          | Err _ => (inbox, Err Status.InvalidArgument)
          | Ok capacity =>
              control_push inbox
                (Command.WorkerJoined (Wire.hl_name hello) capacity (Wire.hl_in_flight hello) reply)
          end
      end
  | _ => (inbox, Err Status.InvalidArgument)
  end.

(** From the reply to the Welcome: [rx] is the slot, [tx] the new channel. *)
Definition attach_welcome (registry : Registry) (streams : Streams) (rx : option SlotIndex) (tx : Outbound)
  : Registry * Streams * result SlotIndex Status :=
  match rx with
  | None => (registry, streams, Err Status.Unavailable)
  | Some slot =>
      let registry := registry_insert registry slot tx in
      match channel_send streams tx (Some (Wire.Welcome slot)) with
      | (streams, true) => (registry, streams, Ok slot)
      | (streams, false) => (registry, streams, Err Status.Internal)
      end
  end.

Definition report_command (job_id result : Z) : Command :=
  match Wire.result_try_from result with
  | Some Wire.Succeeded => Command.Completed job_id
  | Some Wire.TaskPreempted => Command.Preempted job_id
  | _ => Command.Failed job_id
  end.

(** What the reader makes of one message. *)
Definition message_command (slot : SlotIndex) (m : option Wire.Up) : option Command :=
  match m with
  | Some (Wire.Finished job_id result) => Some (report_command job_id result)
  | Some Wire.Draining => Some (Command.WorkerDraining slot)
  | Some Wire.Heartbeat | Some (Wire.UpHello _) | None => None
  end.

Definition RETRIES : nat := 1000.

Definition push_report (world : nat → Q Command → Q Command) (inbox : Q Command) (c : Command) : Q Command :=
  (push_with_retry world inbox c RETRIES).1.

(** The reader loop and what follows it. *)
Fixpoint reader_loop (world : nat → Q Command → Q Command) (inbox : Q Command) (registry : Registry)
    (slot : SlotIndex) (inbound : list Inbound) : Q Command * Registry :=
  match inbound with
  | Message m :: inbound =>
      let inbox :=
        match message_command slot m with
        | Some c => push_report world inbox c
        | None => inbox
        end in
      reader_loop world inbox registry slot inbound
  | _ =>
      let registry := registry_remove registry slot in
      (push_report world inbox (Command.WorkerLeft slot), registry)
  end.

(** ** The dispatcher ([dispatcher.rs]) *)

Definition dispatch_body (d : Dispatch) : SlotIndex * Wire.Down :=
  match d with
  | Dispatch.Assign slot id payload walltime => (slot, Wire.Assign id payload walltime)
  | Dispatch.Kill slot id => (slot, Wire.Kill id)
  | Dispatch.Preempt slot id grace => (slot, Wire.Preempt id grace)
  end.

Definition deliver (world : nat → Q Command → Q Command) (d : Dispatch)
    (st : Registry * Streams * Q Command) : Registry * Streams * Q Command :=
  let '(registry, streams, inbox) := st in
  let '(slot, body) := dispatch_body d in
  match registry_sender registry slot with
  | None => (registry, streams, push_report world inbox (Command.WorkerLeft slot))
  | Some tx =>
      match channel_send streams tx (Some body) with
      | (streams, true) => (registry, streams, inbox)
      | (streams, false) =>
          (registry_remove registry slot, streams, push_report world inbox (Command.WorkerLeft slot))
      end
  end.

(** The inner loop of [run]: pop and deliver until the outbox is empty. *)
Fixpoint dispatch_all (fuel : nat) (world : nat → Q Command → Q Command) (outbox : Q Dispatch)
    (st : Registry * Streams * Q Command) : exec (Q Dispatch * (Registry * Streams * Q Command)) :=
  match fuel with
  | O => NoFuel
  | S fuel =>
      match outbox_pop outbox with
      | (outbox, Some d) => dispatch_all fuel world outbox (deliver world d st)
      | (outbox, None) => Done (outbox, st)
      end
  end.
End Services.

(** ** The clock *)

(** Restarting from the last logged instant and letting time pass never moves
    the clock back, and it stays in range. *)
Lemma clock_monotone origin stored t t' :
  is_u64 origin → is_u64 stored → 0 <= t <= t' →
  is_u64 (clock_now (set_origin stored origin) t) ∧ origin <= clock_now (set_origin stored origin) t ∧
  clock_now stored t <= clock_now (set_origin stored origin) t' .
Proof.
  unfold is_u64, clock_now, set_origin, sat_add. intros.
  destruct (Z.leb_spec t u64_max), (Z.leb_spec t' u64_max); lia.
Qed.

(** ** Pushing commands *)

Section Facts.
Context {Q : Type → Type} `{ArrayQueueLaws Q}.

(** Room for [n] more commands. *)
Definition room (inbox : Q Command) (n : nat) : Prop :=
  Z.of_nat (length (q_items inbox)) + Z.of_nat n <= q_capacity inbox.

Lemma control_push_cases (inbox : Q Command) c :
  (∃ inbox', control_push inbox c = (inbox', Ok tt) ∧ q_items inbox' = q_items inbox ++ [c]) ∨
  (control_push inbox c = (inbox, Err Status.ResourceExhausted) ∧ ¬ room inbox 1).
Proof.
  unfold control_push, inbox_push, room. destruct (q_push_cases inbox c) as [(q & -> & ? & _)|[-> ?]].
  - left. by exists q.
  - right. split; [done|lia].
Qed.

Lemma push_with_retry_room world (inbox : Q Command) c m n :
  room inbox (S n) → let r := push_with_retry world inbox c (S m) in
  r.2 = Ok tt ∧ q_items r.1 = q_items inbox ++ [c] ∧ room r.1 n.
Proof.
  unfold room. intros Hr. cbn [push_with_retry].
  unfold inbox_push. destruct (q_push_cases inbox c) as [(q & -> & Hq & Hc)|[_ ?]]; [|lia].
  cbn [fst snd]. rewrite Hc, Hq. split; [done|]. split; [done|]. rewrite length_app. simpl. lia.
Qed.

Lemma push_report_room world (inbox : Q Command) c n :
  room inbox (S n) → q_items (push_report world inbox c) = q_items inbox ++ [c] ∧ room (push_report world inbox c) n.
Proof. intros Hr. unfold push_report, RETRIES. by apply push_with_retry_room. Qed.

(** Commands pushed one after the other, each with its retries: the report of a
    command the inbox has no room for through all of them is given up. *)
Definition push_all (world : nat → Q Command → Q Command) (inbox : Q Command) (cs : list Command) : Q Command :=
  fold_left (push_report world) cs inbox.

Lemma push_all_room world (inbox : Q Command) cs :
  room inbox (length cs) → q_items (push_all world inbox cs) = q_items inbox ++ cs.
Proof.
  unfold push_all. revert inbox. induction cs as [|c cs IH]; intros inbox Hr; cbn [fold_left]; [by rewrite app_nil_r|].
  destruct (push_report_room world inbox c _ Hr) as [Hi Hr']. by rewrite (IH _ Hr'), Hi, <-app_assoc.
Qed.

(** ** Worker sessions *)

(** The commands a session owes the engine: one per report and drain notice up
    to the first read that is not a message, then one [WorkerLeft]. *)
Fixpoint session_commands (slot : SlotIndex) (inbound : list Inbound) : list Command :=
  match inbound with
  | Message m :: inbound => option_list (message_command slot m) ++ session_commands slot inbound
  | _ => [Command.WorkerLeft slot]
  end.

Lemma reader_loop_spec world (inbox : Q Command) registry slot inbound :
  room inbox (length (session_commands slot inbound)) →
  ∃ inbox', reader_loop world inbox registry slot inbound = (inbox', registry_remove registry slot) ∧
    q_items inbox' = q_items inbox ++ session_commands slot inbound.
Proof.
  revert inbox. induction inbound as [|[m| | |] inbound IH]; intros inbox Hr; cbn [reader_loop session_commands] in *;
    try (eexists; split; [done|]; by apply (push_report_room world inbox _ 0)).
  destruct (message_command slot m) as [c|]; cbn [option_list app length] in *; [|by apply IH].
  destruct (push_report_room world inbox c _ Hr) as [Hi Hr'].
  destruct (IH _ Hr') as (inbox' & -> & Hi'). exists inbox'. split; [done|]. by rewrite Hi', Hi, <-app_assoc.
Qed.

(** ** Deliveries *)

(** The worker of [slot] listens on channel [tx]. *)
Definition listens (registry : Registry) (streams : Streams) (slot : SlotIndex) (tx : Outbound) : Prop :=
  registry_sender registry slot = Some tx ∧ ∃ s, streams !! tx = Some s ∧ sm_open s = true.

Definition listening (registry : Registry) (streams : Streams) (slot : SlotIndex) : bool :=
  match registry_sender registry slot ≫= (streams !!.) with
  | Some s => sm_open s
  | None => false
  end.

Lemma listening_true registry streams slot :
  listening registry streams slot = true ↔ ∃ tx, listens registry streams slot tx.
Proof.
  unfold listening, listens. split.
  - destruct (registry_sender registry slot) as [tx|] eqn:E; [|done]. cbn.
    destruct (streams !! tx) as [s|] eqn:Es; [|done]. intros. exists tx. by eauto.
  - intros (tx & -> & s & Es & Ho). cbn. by rewrite Es.
Qed.

(** Every attach opened a channel of its own. *)
Definition own_channels (registry : Registry) : Prop :=
  ∀ s s' tx, registry_sender registry s = Some tx → registry_sender registry s' = Some tx → s = s'.

(** The messages of [ds] for [slot]. *)
Definition bodies (slot : SlotIndex) (ds : list Dispatch) : list (option Wire.Down) :=
  (fun d => Some (dispatch_body d).2) <$> List.filter (fun d => (dispatch_body d).1 =? slot) ds.

(** The dispatches nobody listens for. *)
Definition undeliverable (registry : Registry) (streams : Streams) (ds : list Dispatch) : list Command :=
  (fun d => Command.WorkerLeft (dispatch_body d).1) <$>
  List.filter (fun d => negb (listening registry streams (dispatch_body d).1)) ds.

Definition sent_on (streams : Streams) (tx : Outbound) : list (option Wire.Down) :=
  default [] (sm_sent <$> streams !! tx).

Lemma undeliverable_one registry streams d :
  undeliverable registry streams [d] =
  if listening registry streams (dispatch_body d).1 then [] else [Command.WorkerLeft (dispatch_body d).1].
Proof. unfold undeliverable. cbn [List.filter]. by destruct (listening _ _ _). Qed.

Lemma bodies_one slot d :
  bodies slot [d] = if (dispatch_body d).1 =? slot then [Some (dispatch_body d).2] else [].
Proof. unfold bodies. cbn [List.filter]. by destruct (_ =? _). Qed.

(** Unregistering a channel nobody listens on. *)
Lemma listens_remove registry streams k :
  listening registry streams k = false →
  ∀ slot tx, listens (registry_remove registry k) streams slot tx ↔ listens registry streams slot tx.
Proof.
  intros Hl slot tx. unfold listens, registry_remove, registry_sender.
  destruct (decide (k = slot)) as [<-|]; [|by rewrite lookup_delete_ne].
  rewrite lookup_delete_eq. split; [naive_solver|]. intros Hs. exfalso. apply not_false_iff_true in Hl; [done|].
  apply listening_true. by exists tx.
Qed.

(** One delivery. *)
Lemma deliver_spec world d registry streams (inbox : Q Command) :
  own_channels registry →
  ∃ registry' streams' inbox', deliver world d (registry, streams, inbox) = (registry', streams', inbox') ∧
  own_channels registry' ∧ inbox' = push_all world inbox (undeliverable registry streams [d]) ∧
  (∀ slot tx, listens registry' streams' slot tx ↔ listens registry streams slot tx) ∧
  (∀ slot tx, listens registry streams slot tx → sent_on streams' tx = sent_on streams tx ++ bodies slot [d]).
Proof.
  rewrite undeliverable_one. setoid_rewrite bodies_one. unfold deliver.
  destruct (dispatch_body d) as [k body]. cbn [fst snd]. intros Hown.
  destruct (listening registry streams k) eqn:El.
  - apply listening_true in El as (tx & Ek & s & Es & Eo). rewrite Ek. unfold channel_send. rewrite Es, Eo.
    eexists _, _, _. split; [done|]. split; [done|]. split; [done|]. split.
    + intros slot tx'. unfold listens. destruct (decide (tx = tx')) as [<-|Hn].
      * rewrite lookup_insert_eq, Es. naive_solver.
      * by rewrite lookup_insert_ne.
    + intros slot tx' [Hs' _]. unfold sent_on. destruct (decide (tx = tx')) as [<-|Hn].
      * rewrite (Hown _ _ _ Ek Hs'), Z.eqb_refl, lookup_insert_eq, Es. done.
      * rewrite lookup_insert_ne by done. destruct (Z.eqb_spec k slot) as [->|]; [congruence|]. by rewrite app_nil_r.
  - assert (∀ slot tx, listens registry streams slot tx → k =? slot = false) as Hk.
    { intros slot tx Hs. apply Z.eqb_neq. intros ->. apply not_true_iff_false in El. apply El, listening_true. by exists tx. }
    assert (∀ tx, registry_sender registry k = Some tx → channel_send streams tx (Some body) = (streams, false)) as Hc.
    { intros tx Etx. unfold listening in El. rewrite Etx in El. cbn in El. unfold channel_send.
      destruct (streams !! tx) as [s|]; [by rewrite El|done]. }
    destruct (registry_sender registry k) as [tx|]; [rewrite (Hc tx eq_refl)|]; (eexists _, _, _; split; [done|]).
    + split. { intros s s' t. unfold registry_sender, registry_remove. intros [_ ?]%lookup_delete_Some [_ ?]%lookup_delete_Some.
               by eapply Hown. }
      split; [done|]. split; [by apply listens_remove|].
      intros slot t Hs. by rewrite (Hk _ _ Hs), app_nil_r.
    + split; [done|]. split; [done|]. split; [done|].
      intros slot t Hs. by rewrite (Hk _ _ Hs), app_nil_r.
Qed.

(** What nobody listens for and what each worker is sent, dispatch by dispatch. *)
Lemma undeliverable_cons registry streams registry' streams' d ds :
  (∀ slot tx, listens registry' streams' slot tx ↔ listens registry streams slot tx) →
  undeliverable registry streams (d :: ds) =
  undeliverable registry streams [d] ++ undeliverable registry' streams' ds.
Proof.
  intros Hl. assert (∀ slot, listening registry' streams' slot = listening registry streams slot) as He.
  { intros slot. apply eq_true_iff_eq. rewrite !listening_true. by setoid_rewrite Hl. }
  unfold undeliverable. cbn [List.filter].
  rewrite (List.filter_ext (fun d => negb (listening registry' streams' (dispatch_body d).1))
             (fun d => negb (listening registry streams (dispatch_body d).1)) ltac:(intros x; cbv beta; by rewrite He) ds).
  by destruct (negb _).
Qed.

Lemma bodies_cons slot d ds : bodies slot (d :: ds) = bodies slot [d] ++ bodies slot ds.
Proof. unfold bodies. cbn [List.filter]. by destruct (_ =? _). Qed.

Lemma dispatch_all_spec world fuel (outbox : Q Dispatch) registry streams (inbox : Q Command) :
  let ds := q_items outbox in
  (length ds < fuel)%nat → own_channels registry →
  ∃ outbox' registry' streams' inbox',
    dispatch_all fuel world outbox (registry, streams, inbox) = Done (outbox', (registry', streams', inbox')) ∧
    q_items outbox' = [] ∧ inbox' = push_all world inbox (undeliverable registry streams ds) ∧
    (∀ slot tx, listens registry' streams' slot tx ↔ listens registry streams slot tx) ∧
    (∀ slot tx, listens registry streams slot tx → sent_on streams' tx = sent_on streams tx ++ bodies slot ds).
Proof.
  revert outbox registry streams inbox. induction fuel as [|fuel IH]; intros outbox registry streams inbox; [lia|].
  cbv zeta. unfold dispatch_all, outbox_pop. fold (dispatch_all (Q := Q)). destruct (q_items outbox) as [|d ds] eqn:Eo; intros Hf Hown.
  - rewrite (q_pop_empty _ Eo). eexists _, _, _, _. split; [done|]. split; [done|].
    split; [done|]. split; [done|]. intros. by rewrite app_nil_r.
  - destruct (q_pop_cons _ _ _ Eo) as (outbox' & -> & Eo' & _).
    destruct (deliver_spec world d registry streams inbox Hown) as (reg1 & st1 & in1 & -> & Hown1 & Hi1 & Hl1 & Hs1).
    destruct (IH outbox' reg1 st1 in1) as (out2 & reg2 & st2 & in2 & E2 & Ho2 & Hi2 & Hl2 & Hs2);
      [rewrite Eo'; simpl in Hf; lia|done|].
    rewrite Eo' in *. exists out2, reg2, st2, in2. split; [done|]. split; [done|]. split; [|split].
    + rewrite Hi2, Hi1, (undeliverable_cons registry streams reg1 st1 d ds Hl1). unfold push_all. by rewrite fold_left_app.
    + intros slot tx. by rewrite Hl2, Hl1.
    + intros slot tx Hs. rewrite (Hs2 slot tx) by (by apply Hl1). rewrite (Hs1 slot tx Hs).
      by rewrite (bodies_cons slot d ds), <-app_assoc.
Qed.

(** C21: No dispatch is lost on its way to a worker.  While no two slots share a
    channel, draining the outbox terminates with the outbox empty, whatever the
    inbox; each worker that listens is sent exactly the messages addressed to its
    slot, in the order they were queued; and for each dispatch nobody listens for,
    in that order, the dispatcher pushes the news that the worker of the slot is
    gone, with the retries of every report, and all of these reach the engine when
    the inbox has room for them (one it has no room for through a thousand retries
    is given up). *)
Theorem dispatcher_loses_nothing world (outbox : Q Dispatch) registry streams (inbox : Q Command) :
  let ds := q_items outbox in
  let news := (fun d => Command.WorkerLeft (dispatch_body d).1) <$>
              List.filter (fun d => negb (listening registry streams (dispatch_body d).1)) ds in
  own_channels registry →
  ∃ fuel outbox' registry' streams' inbox',
    dispatch_all fuel world outbox (registry, streams, inbox) = Done (outbox', (registry', streams', inbox')) ∧
    q_items outbox' = [] ∧
    inbox' = fold_left (push_report world) news inbox ∧
    (room inbox (length news) → q_items inbox' = q_items inbox ++ news) ∧
    (∀ slot tx, listens registry streams slot tx →
       listens registry' streams' slot tx ∧ sent_on streams' tx = sent_on streams tx ++ bodies slot ds).
Proof.
  intros ds news Hown. destruct (dispatch_all_spec world (S (length ds)) outbox registry streams inbox)
    as (o' & r' & s' & i' & E & Ho & Hi & Hl & Hs); [apply Nat.lt_succ_diag_r|done|].
  exists (S (length ds)), o', r', s', i'. split; [done|]. split; [done|]. split; [exact Hi|].
  split; [intros Hr; rewrite Hi; by apply push_all_room|]. intros slot tx Hl0. split; [by apply Hl|by apply Hs].
Qed.

(** ** Submissions *)

(** The reply [a] is on its way: sent, or in the batch that must be durable first. *)
Definition replied (ew ew' : Engine * World Q) (a : Answer) : Prop :=
  w_answers ew'.2 = w_answers ew.2 ++ [a] ∨
  (w_answers ew'.2 = w_answers ew.2 ∧ ∃ j, eg_journal ew'.1 = Some j ∧ a ∈ acks (jr_pending j)).

Lemma answer_durably_replied e (w : World Q) a w0 e0 :
  w_answers w = w_answers w0 → replied (e0, w0) (answer_durably e w a) a.
Proof.
  intros Hw. unfold answer_durably, replied. destruct (eg_journal e) as [j|]; cbn.
  - right. split; [done|]. eexists. split; [done|]. unfold defer. cbn. set_solver.
  - left. by rewrite Hw.
Qed.

(** The request is small enough: its dependencies can be counted and its record
    fits the log. *)
Definition request_small (req : Wire.SubmitRequest) (now : VirtualTime) : Prop :=
  ∀ job, job_from_submit req now = Ok job →
    Z.of_nat (length (deps job)) <= u32_max ∧ ∀ id, is_u64 id → record_fits (LogRecord.Submitted id job).

Lemma submittable_of_request req now job :
  Wire.SubmitRequest_wf req → is_u64 now → request_small req now → job_from_submit req now = Ok job → submittable job.
Proof.
  intros Hwf Hnow Hok E. destruct (Hok _ E) as (Hd & Hf).
  split; [by eapply job_from_submit_wf|done| |done]. apply job_from_submit_Ok in E. apply E.
Qed.

Lemma check_submit_status id job jobs err :
  check_submit id job jobs = Err err → lifecycle_status err = Status.InvalidArgument.
Proof. unfold check_submit. repeat case_match; naive_solver. Qed.

(** C22: A submission, end to end.  A request the conversion refuses is answered
    InvalidArgument and reaches nobody, and one that finds the inbox full is
    answered ResourceExhausted and reaches nobody.  Any other is queued as one
    command, and the engine handles it, as long as the arena has an index left and
    the job's record fits the log: the client is told either InvalidArgument, with
    the engine's jobs untouched, or the handle of a new job that is in the arena
    with exactly the content of the request, in the state that was answered, every
    other job as before; Unavailable stands for a reply that never comes.  The
    engine keeps its invariant unless the request asks for no resource at all,
    which is accepted like any other. *)
Theorem submit_rpc_end_to_end hash e (w : World Q) (inbox : Q Command) req sent_at now reply :
  Engine_inv e → is_u64 now → is_u64 sent_at → Wire.SubmitRequest_wf req → request_small req sent_at →
  arena_room (eg_jobs e) →
  match job_from_submit req sent_at with
  | Err _ => ∀ rx, rpc_submit inbox req sent_at reply rx = (inbox, Err Status.InvalidArgument)
  | Ok job =>
      (¬ room inbox 1 ∧ ∀ rx, rpc_submit inbox req sent_at reply rx = (inbox, Err Status.ResourceExhausted)) ∨
      ∃ inbox' e' w' r,
      q_items inbox' = q_items inbox ++ [Command.Submit job reply] ∧
      rpc_submit inbox req sent_at reply None = (inbox', Err Status.Unavailable) ∧
      handle hash e w (Command.Submit job reply) now = Done (e', w') ∧
      (Job.request job ≠ Resources_ZERO → Engine_inv e') ∧
      replied (e, w) (e', w') (Answer.Submit reply r) ∧
      match rpc_submit inbox req sent_at reply (Some r) with
      | (after, Ok resp) => after = inbox' ∧ Arena_get (eg_jobs e) (Wire.sr_job_id resp) = None ∧
          (∃ job', Arena_get (eg_jobs e') (Wire.sr_job_id resp) = Some job' ∧ submit_request_of job' = req ∧
             submit_time job' = sent_at ∧ Wire.sr_state resp = Wire.state_number (job_state_to_proto (state job'))) ∧
          (∀ x, x ≠ Wire.sr_job_id resp → Arena_get (eg_jobs e') x = Arena_get (eg_jobs e) x)
      | (after, Err status) => after = inbox' ∧ status = Status.InvalidArgument ∧ eg_jobs e' = eg_jobs e
      end
  end.
Proof.
  intros He Hnow Hat Hwf Hreq Hroom. destruct (job_from_submit req sent_at) as [job|err] eqn:Ej.
  2:{ intros rx. unfold rpc_submit. by rewrite Ej. }
  pose proof (submittable_of_request _ _ _ Hwf Hat Hreq Ej) as Hk. unfold rpc_submit. rewrite Ej.
  destruct (control_push_cases inbox (Command.Submit job reply)) as [(inbox' & -> & Hi)|[-> Hfull]]; [right|by left].
  destruct (on_submit_form hash e w job reply now He Hnow Hk Hroom) as (id & _ & Hnone & Hr).
  destruct (check_submit id job (eg_jobs e)) as [rd|err] eqn:Ec.
  - destruct Hr as (e1 & Eh & He1 & Hget).
    assert (Job.request job ≠ Resources_ZERO →
      Engine_inv (answer_durably e1 w (Answer.Submit reply (Ok (id, readiness_state rd)))).1) as He2.
    { intros Hz. exact (sf_inv _ _ _ _ _ (answer_durably_of hash e _ e1 w (Answer.Submit reply (Ok (id, readiness_state rd))) (He1 Hz)
        (ex_intro _ job (list_elem_of_here _ _)))). }
    pose proof (answer_durably_replied e1 w (Answer.Submit reply (Ok (id, readiness_state rd))) w e eq_refl) as Hrep.
    assert (eg_jobs (answer_durably e1 w (Answer.Submit reply (Ok (id, readiness_state rd)))).1 = eg_jobs e1) as Hjobs
      by (unfold answer_durably; by destruct (eg_journal e1)).
    destruct (answer_durably e1 w _) as [e2 w2]. exists inbox', e2, w2, (Ok (id, readiness_state rd)).
    do 5 (split; [done|]). cbn in Hjobs |- *. rewrite Hjobs.
    split; [done|]. split; [done|]. apply job_from_submit_Ok in Ej as (-> & (_ & _ & Hs) & _). split.
    + eexists. rewrite Hget, decide_True by done. split; [done|]. done.
    + intros x Hx. by rewrite Hget, decide_False.
  - exists inbox', e, (answer w (Answer.Submit reply (Err err))), (Err err).
    do 4 (split; [done|]). split; [by left|]. cbn. by rewrite (check_submit_status _ _ _ _ Ec).
Qed.
End Facts.

(** ** Witnesses *)

Definition still {Q : Type → Type} : nat → Q Command → Q Command := fun _ q => q.

(** Two workers attached, the second one gone. *)
Definition demo_registry : gmap Z nat := <[0 := 10%nat]> (<[1 := 11%nat]> ∅).
Definition demo_streams : gmap nat Stream :=
  <[10%nat := MkStream [Some (Wire.Welcome 0)] true]> (<[11%nat := MkStream [Some (Wire.Welcome 1)] false]> ∅).
Definition demo_outbox : ListQueue Dispatch :=
  (8, [Dispatch.Assign 0 5 [1] 100; Dispatch.Assign 1 6 [2] 100; Dispatch.Kill 0 5; Dispatch.Kill 1 6]).

Lemma demo_own_channels : own_channels demo_registry.
Proof.
  intros s s' tx. unfold registry_sender, demo_registry. rewrite !lookup_insert_Some, !lookup_empty. naive_solver.
Qed.

Lemma dispatcher_loses_nothing_witness :
  ∃ fuel outbox' registry' streams' (inbox' : ListQueue Command),
    dispatch_all fuel still demo_outbox (demo_registry, demo_streams, (8, [])) =
      Done (outbox', (registry', streams', inbox')) ∧
    q_items inbox' = [Command.WorkerLeft 1; Command.WorkerLeft 1] ∧
    sent_on streams' 10 = [Some (Wire.Welcome 0); Some (Wire.Assign 5 [1] 100); Some (Wire.Kill 5)].
Proof.
  destruct (dispatcher_loses_nothing still demo_outbox demo_registry demo_streams (8, []))
    as (fuel & o & r & s & i & E & _ & _ & Hi & Hs).
  - apply demo_own_channels.
  - exists fuel, o, r, s, i. split; [exact E|]. split; [apply Hi; unfold room; vm_compute; discriminate|].
    apply (Hs 0 10%nat). split; [reflexivity|]. eexists. split; reflexivity.
Defined.

Lemma submit_rpc_end_to_end_witness :
  let req := submit_request_of (demo_submission [0]) in
  ∃ (inbox' : ListQueue Command) e' w' r,
    handle crc32 demo_loaded.1 demo_loaded.2 (Command.Submit (demo_submission [0]) 9) 20 = Done (e', w') ∧
    replied demo_loaded (e', w') (Answer.Submit 9 r) ∧
    rpc_submit (8, []) req 5 9 (Some r) = (inbox', Ok (Wire.MkSubmitResponse 2 2)).
Proof.
  cbv zeta. assert (Engine_inv demo_loaded.1) as He.
  { exact (proj1 (reaches_inv _ _ _ _ _ _ demo_daemon_config_ok demo_loaded_reaches)). }
  pose proof (demo_submit_ok [0] ltac:(by right)) as Hk.
  assert (job_from_submit (submit_request_of (demo_submission [0])) 5 = Ok (demo_submission [0])) as Ej by reflexivity.
  pose proof (submit_rpc_end_to_end crc32 demo_loaded.1 demo_loaded.2 (8, [])
    (submit_request_of (demo_submission [0])) 5 20 9 He) as T.
  rewrite Ej in T. destruct T as [[Hfull _]|(i & e' & w' & r & Hi & _ & Hh & _ & Hr & Hresp)].
  - by vm_compute.
  - by vm_compute.
  - destruct (sk_wf _ Hk) as (H1 & _ & H2 & H3 & H4 & H5 & _). split; [done|]. split; [|done].
    intros q [= <-]. by vm_compute.
  - intros job E. rewrite Ej in E. injection E as <-. split; apply Hk.
  - right. by vm_compute.
  - exfalso. apply Hfull. by vm_compute.
  - revert Hh. vm_compute handle. intros [= <- <-]. eexists _, _, _, r. split; [reflexivity|].
    split; [exact Hr|]. destruct Hr as [Hr|(_ & j & Hj & Ha)]; [discriminate Hr|].
    injection Hj as <-. cbn in Ha. repeat (apply elem_of_cons in Ha as [Ha|Ha]; [try discriminate Ha|]); [|by apply elem_of_nil in Ha].
    injection Ha as ->. reflexivity.
Defined.

(** ** Two races

    A slot number is reused, but the reader of an old session and the dispatcher
    speak of the slot, not of the session. *)

Definition stepped (ew : Engine * World ListQueue) (c : Command) (now : VirtualTime) : Engine * World ListQueue :=
  match handle crc32 ew.1 ew.2 c now with
  | Done ew' => ew'
  | _ => ew
  end.

(** The engine once it was told that worker [w0] of slot 0 left, and once [w1]
    has joined after that. *)
Definition demo_left : Engine * World ListQueue :=
  Eval vm_compute in stepped demo_ticked.1 (Command.WorkerLeft 0) 30.

Definition demo_rejoined : Engine * World ListQueue :=
  Eval vm_compute in stepped demo_left (Command.WorkerJoined "w1" (MkResources 2000 4096 0) [] 7) 31.

(** Worker [w0] of slot 0 lost its stream and the dispatcher noticed first: the
    engine freed the slot and gave it to [w1].  Then the reader of [w0] times out:
    it unregisters [w1], whose stream is open, and has the engine take the slot
    away from it. *)
Example late_detach_drops_the_new_worker :
  let streams := <[0%nat := MkStream [] false]> (<[1%nat := MkStream [] true]> ∅) in
  let told := deliver still (Dispatch.Kill 0 0) (<[0 := 0%nat]> ∅, streams, (8, []) : ListQueue Command) in
  let '(registry, streams, welcomed) := attach_welcome told.1.1 told.1.2 (Some 0) 1 in
  let '(inbox, after) := reader_loop still ((8, []) : ListQueue Command) registry 0 [Lapse] in
  told.2 = (8, [Command.WorkerLeft 0]) ∧
  list.last (w_answers demo_rejoined.2) = Some (Answer.Joined 7 0) ∧
  eg_names demo_rejoined.1 = [Some "w1"%string] ∧ welcomed = Ok 0 ∧ registry_sender registry 0 = Some 1%nat ∧
  registry_sender after 0 = None ∧ inbox = (8, [Command.WorkerLeft 0]) ∧
  sm_open <$> streams !! 1%nat = Some true ∧
  eg_names (stepped demo_rejoined (Command.WorkerLeft 0) 32).1 = [None].
Proof. vm_compute. split_and!; reflexivity. Qed.

(** A worker joins while a job is waiting: the engine answers slot 0 and its next
    tick dispatches to it.  If the dispatcher delivers before the service has
    registered the stream, it reports the worker as gone.  The engine empties the
    slot, and the worker that then registers is attached to a slot without a name
    or capacity. *)
Example early_dispatch_evicts_the_joining_worker :
  let told := deliver still (Dispatch.Assign 0 0 [1; 2] 60000000000)
                (∅, <[0%nat := MkStream [] true]> ∅, (8, []) : ListQueue Command) in
  let '(registry, streams, welcomed) := attach_welcome told.1.1 told.1.2 (Some 0) 0 in
  told.2 = (8, [Command.WorkerLeft 0]) ∧ eg_names demo_left.1 = [None] ∧
  inventory_slot (eg_inventory demo_left.1) 0 = Some drained_slot ∧
  welcomed = Ok 0 ∧ registry_sender registry 0 = Some 0%nat ∧ sm_open <$> streams !! 0%nat = Some true.
Proof. vm_compute. split_and!; reflexivity. Qed.
