(* ===== verification/Process.v ===== *)
(** * The running daemon

    [crates/taskerd/src/daemon.rs] ([serve]), [engine.rs] ([run]),
    [journal.rs] ([run_writer]), [dispatcher.rs] ([run]): the threads and tasks of
    a daemon with a data directory, interleaved.  Each takes the steps its body
    takes between two accesses to what they share: the inbox, the outbox, the
    channel to the log writer, the registry of worker streams and the two flags of
    the shutdown.  Clients, worker streams and the clock are the environment.

    The theorems follow an order from the scheduling cycle to the wire: whatever
    has left the log writer, wherever it is by now, is exactly what the batches on
    disk say, and a daemon killed at that moment starts again knowing all of it. *)

From stdpp Require Import base strings list numbers option gmap fin_maps sets relations.
From Stdlib Require Import ZArith Lia.
From S2P Require Import Prelude Domain Arena Job Inventory Priority ReadySet Eligibility.
From S2P Require Import Decay FairShare Pack Backfill Preempt Scheduler Cycle Frame.
From S2P Require Import Codec LogRecord Log Snapshot Store Journal Command Engine EngineInv EngineSteps EngineTick EngineRun EngineWal.
From S2P Require Import Order Replay Recovery Restart Daemon Proto Services.
Open Scope Z_scope.
Open Scope list_scope.

(** ** State *)

(** Where the scheduler thread is in the loop of [Engine::run]. *)
Inductive Loop : Type :=
| Testing
| Parked
| Draining (budget : nat) (now : VirtualTime)
| Ticking (now : VirtualTime)
| Returned.

(** Where the log writer is in the loop of [run_writer]. *)
Inductive Writer : Type :=
| Receiving
| Persisting (c : EngineCommit)
| Releasing (replies : list Answer) (ds : list Dispatch).

(** Where the dispatcher is: emptying the outbox, in its [select!], or telling the
    engine that the worker of [slot] is gone, with so many attempts left. *)
Inductive Dispatcher : Type :=
| Popping
| Waiting
| Reporting (slot : SlotIndex) (attempts : nat)
| Finished.

(** How far the shutdown at the end of [serve] is. *)
Inductive Stage : Type := Up | Quiesced | Closed | Told | Stopping.

Definition quiesce_flag (s : Stage) : bool := match s with Up => false | _ => true end.
Definition stop_flag (s : Stage) : bool := match s with Stopping => true | _ => false end.
Definition stop_sent (s : Stage) : bool := match s with Told | Stopping => true | _ => false end.

(** The registry, the streams and the dispatcher, with what it has sent on which
    stream and what it could not send. *)
Record Net : Type := MkNet {
  nt_registry : Registry;
  nt_streams : Streams;
  nt_dispatcher : Dispatcher;
  nt_delivered : list (Outbound * Dispatch);
  nt_undelivered : list Dispatch;
}.

Record Process (Q : Type → Type) : Type := MkProcess {
  pr_loop : Loop;
  pr_engine : Engine;
  pr_world : World Q;
  pr_inbox : Q Command;
  pr_writer : Writer;
  pr_store : Store;
  pr_net : Net;
  pr_stage : Stage;
  pr_sent : list EngineCommit;
  pr_written : list EngineCommit;
}.
Arguments MkProcess {Q}.
Arguments pr_loop {Q}.
Arguments pr_engine {Q}.
Arguments pr_world {Q}.
Arguments pr_inbox {Q}.
Arguments pr_writer {Q}.
Arguments pr_store {Q}.
Arguments pr_net {Q}.
Arguments pr_stage {Q}.
Arguments pr_sent {Q}.
Arguments pr_written {Q}.

Section Threads.
Context (hash : bytes → Z) {Q : Type → Type} `{ArrayQueue Q}.

Definition with_loop (p : Process Q) (l : Loop) (e : Engine) (w : World Q) (inbox : Q Command) (new : list EngineCommit) : Process Q :=
  MkProcess l e w inbox (pr_writer p) (pr_store p) (pr_net p) (pr_stage p) (pr_sent p ++ new) (pr_written p).

Definition with_writer (p : Process Q) (w : World Q) (wr : Writer) (st : Store) (new : list EngineCommit) : Process Q :=
  MkProcess (pr_loop p) (pr_engine p) w (pr_inbox p) wr st (pr_net p) (pr_stage p) (pr_sent p) (pr_written p ++ new).

Definition with_net (p : Process Q) (w : World Q) (inbox : Q Command) (n : Net) (s : Stage) : Process Q :=
  MkProcess (pr_loop p) (pr_engine p) w inbox (pr_writer p) (pr_store p) n s (pr_sent p) (pr_written p).

Definition set_commits (w : World Q) (commits : list EngineCommit) : World Q :=
  MkWorld (w_outbox w) (w_answers w) commits (w_writer w).

Definition set_outbox (w : World Q) (outbox : Q Dispatch) : World Q :=
  MkWorld outbox (w_answers w) (w_commits w) (w_writer w).

(** ** The scheduler thread ([Engine::run]) *)

(** The hand-off after the loop: it blocks while the channel is full.  The log
    writer is still there, since it ends when the journal is dropped. *)
Definition hand_over (p : Process Q) : option (Process Q) :=
  let e := pr_engine p in
  let w := pr_world p in
  match eg_journal e with
  | Some j =>
      let '(j, batch) := flush j true in
      if (length (w_commits w ++ batch) <=? COMMIT_QUEUE_DEPTH)%nat
      then Some (with_loop p Returned (with_journal e (Some j)) (set_commits w (w_commits w ++ batch)) (pr_inbox p) batch)
      else None
  | None => Some (with_loop p Returned e w (pr_inbox p) [])
  end.

(** One step; [now] is what the clock says when the thread wakes.  [None]: the
    thread waits or has ended. *)
Definition scheduler_thread (p : Process Q) (now : VirtualTime) : exec (option (Process Q)) :=
  let e := pr_engine p in
  let w := pr_world p in
  match pr_loop p with
  | Testing =>
      if stop_flag (pr_stage p) then Done (hand_over p)
      else Done (Some (with_loop p Parked e w (pr_inbox p) []))
  | Parked =>
      let e := with_quiescing e (quiesce_flag (pr_stage p)) in
      Done (Some (with_loop p (Draining (Z.to_nat (ec_drain_budget (eg_config e))) now) e w (pr_inbox p) []))
  | Draining O now => Done (Some (with_loop p (Ticking now) e w (pr_inbox p) []))
  | Draining (S budget) now =>
      match inbox_pop (pr_inbox p) with
      | (inbox, Some command) =>
          let! '(e, w) := handle hash e w command now in
          Done (Some (with_loop p (Draining budget now) e w inbox []))
      | (inbox, None) => Done (Some (with_loop p (Ticking now) e w inbox []))
      end
  | Ticking now =>
      let! '(e, w', _) := tick hash e w now in
      Done (Some (with_loop p Testing e w' (pr_inbox p) (drop (length (w_commits w)) (w_commits w'))))
  | Returned => Done None
  end.

(** ** The log writer ([run_writer]) *)

Definition writer_thread (p : Process Q) : option (Process Q) :=
  let w := pr_world p in
  match pr_writer p with
  | Receiving =>
      match w_commits w with
      | c :: commits => Some (with_writer p (set_commits w commits) (Persisting c) (pr_store p) [])
      | [] => None
      end
  | Persisting c =>
      match persist (pr_store p) c with
      | (st, Err _) => Some (with_writer p w Receiving st [])
      | (st, Ok _) => Some (with_writer p w (Releasing (acks c) (dispatches c)) st [c])
      end
  | Releasing (a :: replies) ds => Some (with_writer p (answer w a) (Releasing replies ds) (pr_store p) [])
  | Releasing [] (d :: ds) =>
      match outbox_push (w_outbox w) d with
      | (outbox, Ok _) => Some (with_writer p (set_outbox w outbox) (Releasing [] ds) (pr_store p) [])
      | (outbox, Err back) => Some (with_writer p (set_outbox w outbox) (Releasing [] (back :: ds)) (pr_store p) [])
      end
  | Releasing [] [] => Some (with_writer p w Receiving (pr_store p) [])
  end.

(** ** The dispatcher ([dispatcher::run], [deliver]) *)

(** [stopped] is the branch of the [select!] that is taken; a permit of the outbox
    may be there at any time. *)
Definition dispatcher_task (p : Process Q) (stopped : bool) : option (Process Q) :=
  let w := pr_world p in
  let n := pr_net p in
  match nt_dispatcher n with
  | Popping =>
      match outbox_pop (w_outbox w) with
      | (outbox, Some d) =>
          let w := set_outbox w outbox in
          let '(slot, body) := dispatch_body d in
          match registry_sender (nt_registry n) slot with
          | None =>
              Some (with_net p w (pr_inbox p)
                      (MkNet (nt_registry n) (nt_streams n) (Reporting slot RETRIES) (nt_delivered n) (nt_undelivered n ++ [d]))
                      (pr_stage p))
          | Some tx =>
              match channel_send (nt_streams n) tx (Some body) with
              | (streams, true) =>
                  Some (with_net p w (pr_inbox p)
                          (MkNet (nt_registry n) streams Popping (nt_delivered n ++ [(tx, d)]) (nt_undelivered n)) (pr_stage p))
              | (streams, false) =>
                  Some (with_net p w (pr_inbox p)
                          (MkNet (registry_remove (nt_registry n) slot) streams (Reporting slot RETRIES) (nt_delivered n)
                             (nt_undelivered n ++ [d])) (pr_stage p))
              end
          end
      | (outbox, None) =>
          Some (with_net p (set_outbox w outbox) (pr_inbox p)
                  (MkNet (nt_registry n) (nt_streams n) Waiting (nt_delivered n) (nt_undelivered n)) (pr_stage p))
      end
  | Waiting =>
      let next := if stopped then Finished else Popping in
      if stopped && negb (stop_sent (pr_stage p)) then None
      else Some (with_net p w (pr_inbox p) (MkNet (nt_registry n) (nt_streams n) next (nt_delivered n) (nt_undelivered n)) (pr_stage p))
  | Reporting slot (S attempts) =>
      match inbox_push (pr_inbox p) (Command.WorkerLeft slot) with
      | (inbox, Ok _) =>
          Some (with_net p w inbox (MkNet (nt_registry n) (nt_streams n) Popping (nt_delivered n) (nt_undelivered n)) (pr_stage p))
      | (inbox, Err _) =>
          Some (with_net p w inbox
                  (MkNet (nt_registry n) (nt_streams n) (Reporting slot attempts) (nt_delivered n) (nt_undelivered n)) (pr_stage p))
      end
  | Reporting slot O =>
      Some (with_net p w (pr_inbox p) (MkNet (nt_registry n) (nt_streams n) Popping (nt_delivered n) (nt_undelivered n)) (pr_stage p))
  | Finished => None
  end.

(** ** The shutdown, from the signal to the flag the scheduler thread tests *)

Definition shutdown_task (p : Process Q) : option (Process Q) :=
  let n := pr_net p in
  match pr_stage p with
  | Up => Some (with_net p (pr_world p) (pr_inbox p) n Quiesced)
  | Quiesced =>
      Some (with_net p (pr_world p) (pr_inbox p)
              (MkNet (registry_clear (nt_registry n)) (nt_streams n) (nt_dispatcher n) (nt_delivered n) (nt_undelivered n)) Closed)
  | Closed => Some (with_net p (pr_world p) (pr_inbox p) n Told)
  | Told => match nt_dispatcher n with Finished => Some (with_net p (pr_world p) (pr_inbox p) n Stopping) | _ => None end
  | Stopping => None
  end.

(** ** The environment *)

(** A service or the reader of a stream pushes a command. *)
Definition submits (p : Process Q) (c : Command) : Process Q :=
  with_net p (pr_world p) (inbox_push (pr_inbox p) c).1 (pr_net p) (pr_stage p).

(** [attach] once the engine has answered: a new channel [tx]. *)
Definition attaches (p : Process Q) (slot : SlotIndex) (tx : Outbound) : option (Process Q) :=
  let n := pr_net p in
  match nt_streams n !! tx with
  | Some _ => None
  | None =>
      let '(registry, streams, _) := attach_welcome (nt_registry n) (<[tx := MkStream [] true]> (nt_streams n)) (Some slot) tx in
      Some (with_net p (pr_world p) (pr_inbox p) (MkNet registry streams (nt_dispatcher n) (nt_delivered n) (nt_undelivered n)) (pr_stage p))
  end.

(** The worker's end of a stream goes away. *)
Definition hangs_up (p : Process Q) (tx : Outbound) : Process Q :=
  let n := pr_net p in
  with_net p (pr_world p) (pr_inbox p)
    (MkNet (nt_registry n) (alter (fun s => MkStream (sm_sent s) false) tx (nt_streams n)) (nt_dispatcher n) (nt_delivered n)
       (nt_undelivered n)) (pr_stage p).

(** The reader of a stream that ended takes its slot out of the registry. *)
Definition detaches (p : Process Q) (slot : SlotIndex) : Process Q :=
  let n := pr_net p in
  with_net p (pr_world p) (pr_inbox p)
    (MkNet (registry_remove (nt_registry n) slot) (nt_streams n) (nt_dispatcher n) (nt_delivered n) (nt_undelivered n)) (pr_stage p).

(** What the services see to (a submitted job is well formed, a capacity is in
    range) and what the widths allow (handles, slots, the length of a snapshot). *)
Definition admissible (p : Process Q) : Prop :=
  let e := pr_engine p in
  match pr_loop p with
  | Draining (S _) _ => ∀ c, (inbox_pop (pr_inbox p)).2 = Some c → command_ok e c
  | Ticking now =>
      generations_left e ∧
      ∀ e3 w3 outcome, tick_body hash e (pr_world p) now = Done (e3, w3, outcome) → snapshot_small e3 now
  | _ => True
  end.

Inductive pstep : Process Q → Process Q → Prop :=
| ps_scheduler p now p' : is_u64 now → admissible p → scheduler_thread p now = Done (Some p') → pstep p p'
| ps_writer p p' : writer_thread p = Some p' → pstep p p'
| ps_dispatcher p stopped p' : dispatcher_task p stopped = Some p' → pstep p p'
| ps_shutdown p p' : shutdown_task p = Some p' → pstep p p'
| ps_submits p c : pstep p (submits p c)
| ps_attaches p slot tx p' : attaches p slot tx = Some p' → pstep p p'
| ps_hangs_up p tx : pstep p (hangs_up p tx)
| ps_detaches p slot : pstep p (detaches p slot).

(** What [serve] has when the threads start. *)
Definition Process_start (e : Engine) (st : Store) (inbox : Q Command) (outbox : Q Dispatch) : Process Q :=
  MkProcess Testing e (MkWorld outbox [] [] true) inbox Receiving st (MkNet ∅ ∅ Popping [] []) Up [] [].

Definition up (e : Engine) (st : Store) (p : Process Q) : Prop :=
  ∃ inbox outbox, q_items inbox = [] ∧ q_items outbox = [] ∧ rtc pstep (Process_start e st inbox outbox) p.
End Threads.

(** ** The invariant *)

Definition taken (wr : Writer) : list EngineCommit := match wr with Persisting c => [c] | _ => [] end.
Definition releasing (wr : Writer) : list Dispatch := match wr with Releasing _ ds => ds | _ => [] end.
Definition replying (wr : Writer) : list Answer := match wr with Releasing replies _ => replies | _ => [] end.

Definition directives (ds : list Dispatch) : list Directive := omap dispatch_directive ds.

Lemma directives_app a b : directives (a ++ b) = directives a ++ directives b.
Proof. apply omap_app. Qed.

#[export] Instance directives_perm : Proper ((≡ₚ) ==> (≡ₚ)) directives.
Proof. intros a b E. unfold directives. by rewrite E. Qed.

Lemma directives_kills ds : Forall is_kill ds → directives ds = [].
Proof. induction 1 as [|d ds Hd _ IH]; [done|]. unfold directives in *. cbn. by destruct d. Qed.

(** All the dispatches of some batches, and all their answers. *)
Definition all_dispatches (cs : list EngineCommit) : list Dispatch := concat (dispatches <$> cs).
Definition all_acks (cs : list EngineCommit) : list Answer := concat (acks <$> cs).

#[local] Arguments directives : simpl never.
#[local] Arguments all_dispatches : simpl never.
#[local] Arguments all_acks : simpl never.

Lemma all_dispatches_app a b : all_dispatches (a ++ b) = all_dispatches a ++ all_dispatches b.
Proof. unfold all_dispatches. by rewrite fmap_app, concat_app. Qed.
Lemma all_acks_app a b : all_acks (a ++ b) = all_acks a ++ all_acks b.
Proof. unfold all_acks. by rewrite fmap_app, concat_app. Qed.

(** The message of a dispatch on a stream, and the dispatches sent on one. *)
Definition wire (d : Dispatch) : option Wire.Down := Some (dispatch_body d).2.
Definition sent_to (tx : Outbound) (l : list (Outbound * Dispatch)) : list Dispatch :=
  (List.filter (fun x => Nat.eqb x.1 tx) l).*2.

Definition greeting (m : option Wire.Down) : Prop := ∃ slot, m = Some (Wire.Welcome slot).

(** A stream carries a greeting and what was sent on it. *)
Definition carries (streams : Streams) (delivered : list (Outbound * Dispatch)) : Prop :=
  ∀ tx, ∃ g, Forall greeting g ∧ sent_on streams tx = g ++ (wire <$> sent_to tx delivered).

(** The writer on a run's batches persists all of them. *)
Lemma run_writer_store hash st snap rs cs bs :
  Checksum hash → store_ok hash st snap rs → Forall2 (batch_of hash) cs bs → st_generation st + Z.of_nat (length cs) <= u64_max →
  ∃ st' snap' rs', run_writer st cs = (st', all_acks cs, all_dispatches cs) ∧ store_ok hash st' snap' rs' ∧
    st_generation st <= st_generation st' <= st_generation st + Z.of_nat (length cs).
Proof.
  intros Hh Hst Hb. revert st snap rs Hst. induction Hb as [|c b cs bs Hc _ IH]; intros st snap rs Hst Hg.
  { exists st, snap, rs. split; [done|]. split; [done|]. cbn. lia. }
  cbn [length] in Hg. destruct (persist_spec hash st c _ _ _ snap rs Hst Hc) as (st1 & Ep & Hg1 & Hst1).
  { unfold is_u64. pose proof (so_gen _ _ _ _ Hst) as Hgen. unfold is_u64 in Hgen. lia. }
  destruct (IH st1 _ _ Hst1) as (st' & snap' & rs' & E & Hst' & Hg'); [lia|]. exists st', snap', rs'.
  cbn [run_writer]. unfold writer_step. rewrite Ep, E. split; [done|]. split; [done|]. cbn [length]. lia.
Qed.

Section Invariant.
Context (hash : bytes → Z) {Q : Type → Type} `{ArrayQueueLaws Q} (e0 : Engine) (st0 : Store).

(** Everything past the log writer: on its way into the outbox, in it or waiting
    for room in it, sent, or refused because nobody listened. *)
Definition released (p : Process Q) : list Dispatch :=
  releasing (pr_writer p) ++ outgoing (pr_engine p) (pr_world p) ++ (nt_delivered (pr_net p)).*2 ++ nt_undelivered (pr_net p).

Record process_inv (p : Process Q) : Prop := {
  pv_runs : runs hash e0 (pr_engine p) (pr_world p) (pr_sent p);
  pv_journal : is_Some (eg_journal (pr_engine p));
  pv_sent : pr_sent p = pr_written p ++ taken (pr_writer p) ++ w_commits (pr_world p);
  pv_store : run_writer st0 (pr_written p) = (pr_store p, all_acks (pr_written p), all_dispatches (pr_written p));
  pv_flow : directives (released p) ≡ₚ directives (all_dispatches (pr_written p));
  pv_answers : ∀ a, a ∈ w_answers (pr_world p) ++ replying (pr_writer p) → no_promise a ∨ a ∈ all_acks (pr_written p);
  pv_streams : carries (nt_streams (pr_net p)) (nt_delivered (pr_net p));
  pv_now : match pr_loop p with Draining _ now | Ticking now => is_u64 now | _ => True end;
}.

(** A step of the scheduler thread that sends [new] to the log writer. *)
Lemma scheduler_moves p l e w inbox new :
  process_inv p → runs hash e0 e w (pr_sent p ++ new) → is_Some (eg_journal e) →
  w_commits w = w_commits (pr_world p) ++ new →
  directives (outgoing e w) ≡ₚ directives (outgoing (pr_engine p) (pr_world p)) →
  (∀ a, a ∈ w_answers w → no_promise a ∨ a ∈ w_answers (pr_world p)) →
  match l with Draining _ now | Ticking now => is_u64 now | _ => True end →
  process_inv (with_loop p l e w inbox new).
Proof.
  intros [H1 H2 H3 H4 H5 H6 H7 H8] Hr Hj Hc Ho Ha Hn. split; cbn; try done.
  - by rewrite H3, Hc, <-!app_assoc.
  - rewrite <-H5. unfold released. cbn. by rewrite !directives_app, Ho.
  - intros a [[?|Hin]%Ha|Hin]%elem_of_app; [by left|apply H6..]; set_solver.
Qed.

(** The effects of a step of the engine on what this file follows. *)
Lemma wal_step_moves e (w : World Q) e' w' f :
  wal_step hash (e, w) (e', w') f → write_ahead f →
  is_Some (eg_journal e') ∧ w_commits w' = w_commits w ∧ directives (outgoing e' w') ≡ₚ directives (outgoing e w) ∧
  ∀ a, a ∈ w_answers w' → no_promise a ∨ a ∈ w_answers w.
Proof.
  intros Hw [_ _ Hs Ha]. pose proof (wal_step_journal _ _ _ _ Hw) as Hj. destruct Hw as [_ Ho Hans Hc]. cbn in *.
  split; [done|]. split; [done|]. split.
  - by rewrite Ho, directives_app, (directives_kills _ Hs), app_nil_r.
  - rewrite Hans. intros a [?|Hin]%elem_of_app; [by right|left]. by eapply Forall_forall in Ha.
Qed.

Lemma tick_moves e (w : World Q) now e' w' outcome :
  Engine_inv e → is_u64 now → generations_left e → is_Some (eg_journal e) → tick hash e w now = Done (e', w', outcome) →
  ∃ e3 w3 new, tick_body hash e w now = Done (e3, w3, outcome) ∧ w_commits w' = w_commits w ++ new ∧
    is_Some (eg_journal e') ∧ directives (outgoing e' w') ≡ₚ directives (outgoing e w) ∧
    ∀ a, a ∈ w_answers w' → no_promise a ∨ a ∈ w_answers w.
Proof.
  intros He Hnow Hg Hj Et. destruct (tick_ok hash e w now He Hnow Hg) as (e3 & w3 & out & Eb & _ & _ & Et' & _).
  rewrite Et in Et'. injection Et' as -> -> ->.
  destruct (tick_body_durable hash e w now Hj (e3, w3)) as (f & Hf & Pf); [by rewrite Eb|].
  destruct (wal_step_moves _ _ _ _ _ Hf Pf) as ([j3 Ej3] & Hc & Ho & Ha). exists e3, w3.
  unfold commit_journal. rewrite Ej3. cbn [fmap option_fmap option_map with_journal eg_journal]. unfold commit.
  destruct (commit_is_empty _); [|unfold try_send; destruct (_ && _)]; eexists; (split; [done|]); cbn; rewrite <-Hc;
    (split; [first [done|by rewrite app_nil_r]|]); split_and!; eauto.
Qed.

Lemma scheduler_keeps p now p' :
  process_inv p → Engine_inv e0 → is_u64 now → admissible hash p → scheduler_thread hash p now = Done (Some p') → process_inv p'.
Proof.
  intros Hp He0 Hnow Hadm Es. pose proof Hp as [H1 H2 H3 H4 H5 H6 H7 H8]. destruct (runs_inv _ _ _ _ _ He0 H1) as [He _].
  unfold scheduler_thread in Es. unfold admissible in Hadm.
  destruct (pr_loop p) as [| |[|n] now'|now'|]; [|injection Es as <-|injection Es as <-| | |done].
  - destruct (stop_flag (pr_stage p)).
    + unfold hand_over in Es. destruct H2 as [j Ej]. rewrite Ej in Es. destruct (flush j true) as [j' batch] eqn:Ef.
      destruct (_ <=? _)%nat; [|done]. injection Es as <-. apply scheduler_moves; cbn; eauto.
      pose proof (ru_flush _ _ _ _ _ _ H1 Ej) as Hf. rewrite Ef in Hf. by eapply ru_world.
    + injection Es as <-. apply scheduler_moves; rewrite ?app_nil_r; eauto.
  - apply scheduler_moves; rewrite ?app_nil_r; eauto using runs.
  - apply scheduler_moves; rewrite ?app_nil_r; eauto.
  - destruct (inbox_pop (pr_inbox p)) as [inbox [c|]] eqn:Epop; [|injection Es as <-;
      apply scheduler_moves; rewrite ?app_nil_r; eauto].
    apply exec_bind_Done in Es as ([e' w'] & Eh & Es). injection Es as <-.
    destruct (handle_durable hash (pr_engine p) (pr_world p) c now' H2 _ Eh) as (f & Hf & Pf).
    destruct (wal_step_moves _ _ _ _ _ Hf Pf) as (Hj & Hc & Ho & Ha).
    apply scheduler_moves; rewrite ?app_nil_r; try done. eapply ru_command; [done|by apply Hadm|done|exact Eh].
  - destruct Hadm as [Hg Hsm]. apply exec_bind_Done in Es as ([[e' w'] out] & Et & Es). injection Es as <-.
    destruct (tick_moves _ _ _ _ _ _ He H8 Hg H2 Et) as (e3 & w3 & new & Eb & Hc & Hj & Ho & Ha).
    rewrite Hc, drop_app_length. apply scheduler_moves; try done. eapply ru_tick; try done. by eapply Hsm.
Qed.

(** A step of the dispatcher, the shutdown or the environment. *)
Lemma net_moves p outbox inbox n st :
  process_inv p →
  q_items outbox ++ (nt_delivered n).*2 ++ nt_undelivered n ≡ₚ
    q_items (w_outbox (pr_world p)) ++ (nt_delivered (pr_net p)).*2 ++ nt_undelivered (pr_net p) →
  carries (nt_streams n) (nt_delivered n) →
  process_inv (with_net p (set_outbox (pr_world p) outbox) inbox n st).
Proof.
  intros [H1 H2 H3 H4 H5 H6 H7 H8] Hf Hc. split; cbn; try done; [by eapply ru_world|].
  rewrite <-H5. apply directives_perm. unfold released, outgoing. cbn.
  rewrite <-!app_assoc, (Permutation_app_comm (eg_overflow _)), (Permutation_app_comm (eg_overflow _)), <-!app_assoc.
  rewrite (app_assoc (q_items outbox)), (app_assoc (q_items (w_outbox (pr_world p)))), (app_assoc (q_items outbox ++ _)),
    (app_assoc (q_items (w_outbox (pr_world p)) ++ _)), <-(app_assoc (q_items outbox)), <-(app_assoc (q_items (w_outbox _))).
  by rewrite Hf.
Qed.

(** The same with the outbox as it is. *)
Lemma net_quiet p inbox n st :
  process_inv p → nt_delivered n = nt_delivered (pr_net p) → nt_undelivered n = nt_undelivered (pr_net p) →
  carries (nt_streams n) (nt_delivered n) → process_inv (with_net p (pr_world p) inbox n st).
Proof.
  intros Hp Hd Hu Hc. assert (pr_world p = set_outbox (pr_world p) (w_outbox (pr_world p))) as -> by by destruct (pr_world p).
  apply net_moves; [done| |done]. by rewrite Hd, Hu.
Qed.

Lemma carries_send streams streams' delivered tx d :
  carries streams delivered → channel_send streams tx (wire d) = (streams', true) → carries streams' (delivered ++ [(tx, d)]).
Proof.
  unfold channel_send. intros Hc E tx'. destruct (streams !! tx) as [s|] eqn:Es; [|done]. destruct (sm_open s); [|done].
  injection E as <-. destruct (Hc tx') as (g & Hg & Eg). exists g. split; [done|]. unfold sent_to in *. rewrite List.filter_app, fmap_app.
  cbn [List.filter fst]. unfold sent_on in *. destruct (Nat.eqb_spec tx tx') as [<-|Hn].
  - rewrite lookup_insert_eq. rewrite Es in Eg. cbn in Eg |- *. by rewrite Eg, fmap_app, app_assoc.
  - rewrite lookup_insert_ne by done. by rewrite Eg, app_nil_r.
Qed.

Lemma channel_send_refused streams tx m streams' : channel_send streams tx m = (streams', false) → streams' = streams.
Proof. unfold channel_send. destruct (streams !! tx) as [s|]; [destruct (sm_open s)|]; by intros [= <-]. Qed.

(** Nothing was sent on a channel that did not exist. *)
Lemma carries_attach streams delivered tx slot :
  carries streams delivered → streams !! tx = None →
  carries (<[tx := MkStream [Some (Wire.Welcome slot)] true]> streams) delivered.
Proof.
  intros Hc Hn tx'. destruct (Hc tx') as (g & Hg & Eg). unfold sent_on in *. destruct (decide (tx = tx')) as [<-|Ht].
  - rewrite Hn in Eg. cbn in Eg. symmetry in Eg. apply app_nil in Eg as [_ Eg]. exists [Some (Wire.Welcome slot)].
    rewrite lookup_insert_eq, Eg. split; [|done]. repeat constructor. by exists slot.
  - exists g. by rewrite lookup_insert_ne.
Qed.

Lemma carries_hang_up streams delivered tx :
  carries streams delivered → carries (alter (fun s => MkStream (sm_sent s) false) tx streams) delivered.
Proof.
  intros Hc tx'. destruct (Hc tx') as (g & Hg & Eg). exists g. split; [done|]. rewrite <-Eg. unfold sent_on.
  destruct (decide (tx = tx')) as [<-|Ht]; [rewrite lookup_alter_eq; by destruct (streams !! tx)|by rewrite lookup_alter_ne].
Qed.

Lemma dispatcher_keeps p stopped p' : process_inv p → dispatcher_task p stopped = Some p' → process_inv p'.
Proof.
  intros Hp Ed. pose proof (pv_streams _ Hp) as Hc. unfold dispatcher_task in Ed.
  destruct (nt_dispatcher (pr_net p)) as [| |slot [|n]|]; [| | | |done].
  - unfold outbox_pop in Ed. destruct (q_items (w_outbox (pr_world p))) as [|d l] eqn:Eq.
    + rewrite q_pop_empty in Ed by done. injection Ed as <-. apply net_moves; by rewrite ?Eq.
    + destruct (q_pop_cons _ _ _ Eq) as (q & Ep & Hq & _). rewrite Ep in Ed.
      destruct (dispatch_body d) as [slot body] eqn:Eb. destruct (registry_sender _ _) as [tx|].
      2:{ injection Ed as <-. apply net_moves; cbn; rewrite ?Hq, ?Eq; try done. solve_Permutation. }
      assert (Some body = wire d) as Ew by (unfold wire; by rewrite Eb). rewrite Ew in Ed.
      destruct (channel_send _ _ _) as [streams [|]] eqn:Es; injection Ed as <-; apply net_moves; cbn; rewrite ?Hq, ?Eq; try done.
      * rewrite fmap_app. cbn. solve_Permutation.
      * by eapply carries_send.
      * solve_Permutation.
      * by apply channel_send_refused in Es as ->.
  - destruct (stopped && _); [done|]. injection Ed as <-. by apply net_quiet.
  - injection Ed as <-. by apply net_quiet.
  - destruct (inbox_push _ _) as [inbox [u|b]]; injection Ed as <-; by apply net_quiet.
Qed.

(** A step of the log writer that keeps the flow. *)
Lemma writer_moves p w wr st new :
  process_inv p → pr_sent p = pr_written p ++ new ++ taken wr ++ w_commits w →
  run_writer st0 (pr_written p ++ new) = (st, all_acks (pr_written p ++ new), all_dispatches (pr_written p ++ new)) →
  directives (releasing wr ++ q_items (w_outbox w)) ≡ₚ
    directives (releasing (pr_writer p) ++ q_items (w_outbox (pr_world p)) ++ all_dispatches new) →
  (∀ a, a ∈ w_answers w ++ replying wr → a ∈ w_answers (pr_world p) ++ replying (pr_writer p) ++ all_acks new) →
  process_inv (with_writer p w wr st new).
Proof.
  intros [H1 H2 H3 H4 H5 H6 H7 H8] Hs Hst Hf Ha. split; cbn; try done.
  - by eapply ru_world.
  - by rewrite Hs, <-!app_assoc.
  - rewrite all_dispatches_app, directives_app, <-H5. unfold released, outgoing. cbn.
    rewrite !directives_app in Hf. rewrite !directives_app, <-!app_assoc. rewrite (app_assoc (directives (releasing wr))), Hf.
    solve_Permutation.
  - intros a Hin%Ha. rewrite all_acks_app, elem_of_app. rewrite !elem_of_app in Hin.
    destruct Hin as [Hin|[Hin|Hin]]; [| |by right; right]; (destruct (H6 a) as [?|?]; [set_solver|by left|by right; left]).
Qed.

Context (snap : option Snapshot) (rs : list LogRecord) (first : option Snapshot).
Hypothesis Hhash : Checksum hash.
Hypothesis Hst0 : store_ok hash st0 snap rs.
Hypothesis He0 : Engine_inv e0.
Hypothesis Hhist : history_ok hash (cycle_config e0) first (eg_scheduler e0) (eg_jobs e0) e0 [].

Lemma process_history p :
  process_inv p → history_ok hash (cycle_config e0) first (eg_scheduler e0) (eg_jobs e0) (pr_engine p) (pr_sent p).
Proof. intros Hp. by eapply runs_history; [exact He0| |exact Hhist|apply Hp]. Qed.

Lemma writer_keeps p p' :
  process_inv p → st_generation st0 + Z.of_nat (length (pr_sent p)) < u64_max → writer_thread p = Some p' → process_inv p'.
Proof.
  intros Hp Hg Ew. pose proof (pv_sent _ Hp) as Hs. pose proof (pv_store _ Hp) as Hst. unfold writer_thread in Ew.
  destruct (pr_writer p) as [|c|[|a replies] [|d ds]] eqn:Ewr; cbn [taken] in Hs.
  - destruct (w_commits (pr_world p)) as [|c commits] eqn:Ec; [done|]. injection Ew as <-.
    apply writer_moves; rewrite ?app_nil_r; rewrite ?Ewr; try done; try (cbn; set_solver).
  - destruct (process_history p Hp) as (_ & bs & _ & _ & _ & _ & Hb & _). rewrite Hs in Hb, Hg. cbn [app] in Hb, Hg.
    apply Forall2_app_inv_l in Hb as (bs1 & bs2 & Hb1 & Hb2 & _). apply Forall2_cons_inv_l in Hb2 as (b & bs3 & Hc & _ & _).
    rewrite length_app in Hg. cbn [length] in Hg.
    destruct (run_writer_store hash st0 snap rs _ _ Hhash Hst0 Hb1) as (st1 & snap1 & rs1 & E1 & Hst1 & Hg1); [lia|].
    rewrite Hst in E1. injection E1 as <-.
    destruct (persist_spec hash (pr_store p) c _ _ _ snap1 rs1 Hst1 Hc) as (st2 & Ep & _).
    { unfold is_u64. pose proof (so_gen _ _ _ _ Hst1) as Hgen. unfold is_u64 in Hgen. lia. }
    rewrite Ep in Ew. injection Ew as <-. apply writer_moves; rewrite ?Ewr; try done.
    + rewrite run_writer_app, Hst. cbn [run_writer]. unfold writer_step. rewrite Ep.
      rewrite all_acks_app, all_dispatches_app. unfold all_acks, all_dispatches. cbn. by rewrite !app_nil_r.
    + cbn. unfold all_dispatches. cbn. rewrite app_nil_r, !directives_app. solve_Permutation.
    + cbn. unfold all_acks. cbn. rewrite app_nil_r. done.
  - injection Ew as <-. apply writer_moves; rewrite ?app_nil_r; rewrite ?Ewr; try done; try (cbn; set_solver).
  - unfold outbox_push in Ew. destruct (q_push_cases (w_outbox (pr_world p)) d) as [(q & E & Hq & _)|[E _]]; rewrite E in Ew;
      injection Ew as <-; apply writer_moves; rewrite ?app_nil_r; rewrite ?Ewr; try done; try (cbn; set_solver).
    cbn. rewrite Hq. apply directives_perm. unfold all_dispatches. cbn. solve_Permutation.
  - injection Ew as <-. apply writer_moves; rewrite ?app_nil_r; rewrite ?Ewr; try done; try (cbn; set_solver).
  - injection Ew as <-. apply writer_moves; rewrite ?app_nil_r; rewrite ?Ewr; try done; try (cbn; set_solver).
Qed.

(** The scheduler thread returns from every step. *)
Lemma scheduler_thread_returns p now :
  process_inv p → is_u64 now → admissible hash p → ∃ o, scheduler_thread hash p now = Done o.
Proof.
  intros [H1 _ _ _ _ _ _ H8] Hnow Hadm. destruct (runs_inv _ _ _ _ _ He0 H1) as [He _].
  unfold scheduler_thread. unfold admissible in Hadm. destruct (pr_loop p) as [| |[|n] now'|now'|]; eauto.
  - destruct (stop_flag _); eauto.
  - destruct (inbox_pop _) as [inbox [c|]]; [|eauto].
    destruct (handle_ok hash (pr_engine p) (pr_world p) c now' He H8 (Hadm c eq_refl)) as (e' & w' & -> & _). cbn. eauto.
  - destruct (tick_ok hash (pr_engine p) (pr_world p) now' He H8 (proj1 Hadm)) as (e3 & w3 & o & _ & _ & _ & -> & _). cbn. eauto.
Qed.

Lemma pstep_sent p p' : pstep hash p p' → (length (pr_sent p) <= length (pr_sent p'))%nat.
Proof.
  intros Hs. destruct Hs as [p now p' _ _ E|p p' E|p stopped p' E|p p' E|p c|p slot tx p' E|p tx|p slot]; try done.
  - unfold scheduler_thread, hand_over in E.
    assert (∃ l e w inbox new, p' = with_loop p l e w inbox new) as (l & e & w & inbox & new & ->).
    { repeat case_match; simplify_eq; eauto 10;
        (apply exec_bind_Done in E as ([? ?] & _ & E); repeat case_match; simplify_eq; eauto 10). }
    cbn. rewrite length_app. lia.
  - unfold writer_thread in E. repeat case_match; simplify_eq; done.
  - unfold dispatcher_task in E. repeat case_match; simplify_eq; done.
  - unfold shutdown_task in E. repeat case_match; simplify_eq; done.
  - unfold attaches, attach_welcome in E. repeat case_match; simplify_eq; done.
Qed.

Lemma pstep_keeps p p' :
  process_inv p → st_generation st0 + Z.of_nat (length (pr_sent p)) < u64_max → pstep hash p p' → process_inv p'.
Proof.
  intros Hp Hg Hs. pose proof (pv_streams _ Hp) as Hc.
  destruct Hs as [p now p' Hnow Ha E|p p' E|p stopped p' E|p p' E|p c|p slot tx p' E|p tx|p slot].
  - by eapply scheduler_keeps.
  - by eapply writer_keeps.
  - by eapply dispatcher_keeps.
  - unfold shutdown_task in E. destruct (pr_stage p); try (injection E as <-; by apply net_quiet); [|done].
    destruct (nt_dispatcher _); try done. injection E as <-. by apply net_quiet.
  - by apply net_quiet.
  - unfold attaches, attach_welcome, channel_send in E. destruct (nt_streams (pr_net p) !! tx) eqn:Et; [done|].
    rewrite lookup_insert_eq in E. cbn in E. injection E as <-. apply net_quiet; try done. cbn.
    rewrite insert_insert_eq. by apply carries_attach.
  - apply net_quiet; try done. by apply carries_hang_up.
  - by apply net_quiet.
Qed.

Lemma process_start_inv (inbox : Q Command) (outbox : Q Dispatch) :
  is_Some (eg_journal e0) → eg_overflow e0 = [] → q_items outbox = [] → process_inv (Process_start e0 st0 inbox outbox).
Proof.
  intros Hj Ho Hq. split; cbn; try done.
  - apply ru_start.
  - unfold released, outgoing. cbn. by rewrite Hq, Ho.
  - by intros a ?%elem_of_nil.
  - intros tx. exists []. split; [constructor|]. unfold sent_on. by rewrite lookup_empty.
Qed.

Lemma up_inv p :
  is_Some (eg_journal e0) → eg_overflow e0 = [] → st_generation st0 + Z.of_nat (length (pr_sent p)) < u64_max →
  up hash e0 st0 p → process_inv p.
Proof.
  intros Hj Ho Hg (inbox & outbox & _ & Hq & Hs). apply rtc_nsteps in Hs as [n Hs]. revert p Hg Hs.
  induction n as [|n IH]; intros p Hg Hs; [inversion Hs; by apply process_start_inv|].
  apply nsteps_inv_r in Hs as (p1 & Hs & Hstep). pose proof (pstep_sent _ _ Hstep). apply (pstep_keeps p1); [|lia|exact Hstep].
  apply IH; [lia|done].
Qed.
End Invariant.

(** ** A daemon that has just started *)

Lemma and_then_Ok {A B} (m : recovering A) (k : A → recovering B) b :
  and_then m k = Done (Ok b) → ∃ a, m = Done (Ok a) ∧ k a = Done (Ok b).
Proof. unfold and_then. intros E. apply exec_bind_Done in E as ([a|err] & E1 & E2); [|done]. by exists a. Qed.

Lemma recovering_fold_keeps {A B C} (f : A → B → recovering A) (g : A → C) l a a' :
  (∀ a x a', f a x = Done (Ok a') → g a' = g a) → recovering_fold f a l = Done (Ok a') → g a' = g a.
Proof.
  intros Hf. revert a. induction l as [|x l IH]; intros a E; cbn in E; [by injection E as <-|].
  apply and_then_Ok in E as (a1 & E1 & E). rewrite (IH _ E). by eapply Hf.
Qed.

Lemma replayed_overflow {A} e (o : exec (outcome A)) e' a : replayed e o = Done (Ok (e', a)) → eg_overflow e' = eg_overflow e.
Proof.
  unfold replayed, lift_call. intros E. apply exec_bind_Done in E as ([e1 [x|err]] & E1 & E); [|done].
  apply exec_bind_Done in E1 as ([[s jobs] r] & _ & [= <- _]). by injection E as <- _.
Qed.

Lemma apply_overflow e r latest e' l : apply e r latest = Done (Ok (e', l)) → eg_overflow e' = eg_overflow e.
Proof.
  intros E. destruct r; cbn [apply] in E.
  { apply exec_bind_Done in E as (next & _ & E). destruct (negb _); [done|]. apply exec_bind_Done in E as ([jobs x] & _ & E).
    apply and_then_Ok in E as ([e1 st] & E1%replayed_overflow & E). injection E as <- _. by destruct (is_terminal st). }
  all: try (apply and_then_Ok in E as ([e1 x] & E1%replayed_overflow & E); injection E as <- _; rewrite ?note_all_terminal_eq; exact E1).
  by injection E as <- _.
Qed.

Lemma apply_all_overflow rs e latest e' l : apply_all e rs latest = Done (Ok (e', l)) → eg_overflow e' = eg_overflow e.
Proof.
  revert e latest. induction rs as [|r rs IH]; intros e latest E; cbn in E; [by injection E as <- _|].
  apply and_then_Ok in E as ([e1 l1] & E1%apply_overflow & E). by rewrite (IH _ _ E).
Qed.

Lemma restore_snapshot_overflow e sn e' l : restore_snapshot e sn = Done (Ok (e', l)) → eg_overflow e' = eg_overflow e.
Proof.
  unfold restore_snapshot. intros E. apply exec_bind_Done in E as ([jobs|err] & _ & E); [|done].
  apply and_then_Ok in E as (e1 & E1 & E). apply and_then_Ok in E as (e2 & E2 & E).
  apply (recovering_fold_keeps _ eg_overflow) in E1.
  2:{ intros a [id st] a' Ea. cbn in Ea. destruct (is_terminal st); [by injection Ea as <-|].
      apply and_then_Ok in Ea as ([e3 st'] & E3%replayed_overflow & Ea). injection Ea as <-. by destruct (is_terminal st'). }
  apply (recovering_fold_keeps _ eg_overflow) in E2.
  2:{ intros a id a' Ea. apply and_then_Ok in Ea as ([e3 x] & E3%replayed_overflow & Ea). by injection Ea as <-. }
  destruct (restore_ledgers _ _) as [s [u|err]]; [|done]. injection E as <- _. cbn. by rewrite E2, E1.
Qed.

(** Recovery sends nothing. *)
Lemma recover_engine_overflow hash config recovered j e o :
  recover_engine hash config recovered j = Done (Ok (e, o)) → eg_overflow e = [].
Proof.
  unfold recover_engine. intros E. apply exec_bind_Done in E as (b & Eb & E).
  assert (eg_overflow b = []) as Hb by (apply exec_bind_Done in Eb as (s & _ & [= <-]); done).
  apply and_then_Ok in E as ([e1 l1] & E1 & E). apply and_then_Ok in E as ([e2 l2] & E2%apply_all_overflow & E).
  apply and_then_Ok in E as (e3 & E3 & E). apply exec_bind_Done in E as (sn & _ & E). injection E as <- _.
  apply (recovering_fold_keeps _ eg_overflow) in E3.
  2:{ intros a id a' Ea. apply and_then_Ok in Ea as ([e4 x] & E4%replayed_overflow & Ea). by injection Ea as <-. }
  assert (eg_overflow e1 = eg_overflow b) as Ho.
  { destruct (rec_snapshot recovered); [by eapply restore_snapshot_overflow|by injection E1 as <- _]. }
  cbn in E3. destruct (eg_journal e3); cbn; by rewrite E3, E2, Ho.
Qed.

Lemma start_overflow hash config rotate_bytes d e o st :
  start hash config rotate_bytes (Some d) = Done (Ok (MkStarted e o st)) → eg_overflow e = [].
Proof.
  unfold start. intros E. apply exec_bind_Done in E as ([d1 [r|err]] & _ & E); [|done].
  destruct (resume _ _) as [s|err]; [|done]. apply exec_bind_Done in E as ([[e1 o1]|err] & Er & E); [|done].
  injection E as <- _ _. by eapply recover_engine_overflow.
Qed.

(** ** What is on disk *)

(** The records of a batch. *)
Definition batch_records (b : Batch) : list LogRecord := bt_before b ++ bt_after b.

Lemma frames_inj hash rs rs' :
  Checksum hash → Forall record_fits rs → Forall record_fits rs' → frames hash rs = frames hash rs' → rs = rs'.
Proof.
  intros Hh Hr Hr' E. pose proof (parse_image hash rs Hh Hr) as P. pose proof (parse_image hash rs' Hh Hr') as P'.
  unfold log_image in *. rewrite E, P' in P. by injection P.
Qed.

(** The bytes of a batch determine its records. *)
Lemma batch_records_unique hash (c : EngineCommit) b b' :
  Checksum hash → batch_of hash c b → batch_of hash c b' → batch_records b = batch_records b'.
Proof.
  intros Hh [B1 B2 _ _ B5 _] [C1 C2 _ _ C5 _]. apply Forall_app in B5 as [? ?]. apply Forall_app in C5 as [? ?].
  unfold batch_records. f_equal; apply (frames_inj hash); try done; congruence.
Qed.

Lemma batches_records_unique hash (cs : list EngineCommit) bs bs' :
  Checksum hash → Forall2 (batch_of hash) cs bs → Forall2 (batch_of hash) cs bs' → batch_records <$> bs = batch_records <$> bs'.
Proof.
  intros Hh Hb. revert bs'. induction Hb as [|c b cs bs Hc _ IH]; intros bs' Hb'.
  - by apply Forall2_nil_inv_l in Hb' as ->.
  - apply Forall2_cons_inv_l in Hb' as (b' & bs2 & Hc' & Hb' & ->). cbn. rewrite (IH _ Hb'). f_equal.
    by eapply batch_records_unique.
Qed.

Lemma kept_directives (cs : list EngineCommit) bs :
  Forall2 batch_kept cs bs → directives (all_dispatches cs) = omap record_directive (concat (batch_records <$> bs)).
Proof.
  induction 1 as [|c b cs bs [Hk _] _ IH]; [done|]. change (c :: cs) with ([c] ++ cs). rewrite all_dispatches_app, directives_app, IH.
  cbn [fmap list_fmap concat]. rewrite omap_app. f_equal. unfold all_dispatches. cbn. rewrite app_nil_r.
  unfold directed in Hk. cbn [fmap list_fmap] in Hk. rewrite app_nil_r in Hk. unfold directives. fold (batch_records b) in Hk.
  revert Hk. generalize (omap record_directive (batch_records b)) as l. induction (dispatches c) as [|d ds IHd]; intros [|x l] Hk; try done.
  cbn in Hk. injection Hk as E Hk. cbn. rewrite <-E. f_equal. by apply IHd.
Qed.

Lemma kept_answers (cs : list EngineCommit) bs a :
  Forall2 batch_kept cs bs → a ∈ all_acks cs → answer_logged (concat (batch_records <$> bs)) a.
Proof.
  induction 1 as [|c b cs bs [_ Hk] _ IH]; [by intros ?%elem_of_nil|]. change (c :: cs) with ([c] ++ cs). rewrite all_acks_app, elem_of_app.
  cbn [fmap list_fmap concat]. intros [Ha|Ha].
  - apply (answer_logged_mono (batch_records b)); [set_solver|]. unfold all_acks in Ha. cbn in Ha. rewrite app_nil_r in Ha.
    by eapply Forall_forall in Hk.
  - apply (answer_logged_mono (concat (batch_records <$> bs))); [set_solver|by apply IH].
Qed.

Section Started.
Context (hash : bytes → Z) {Q : Type → Type} `{ArrayQueueLaws Q} (config : DaemonConfig) (rotate_bytes : Z).
Context (d : Dir) (e : Engine) (origin : option VirtualTime) (st : Store) (p : Process Q).
Hypothesis Hhash : Checksum hash.
Hypothesis Hcfg : daemon_config_ok config.
Hypothesis Hlives : lives hash (Q := Q) config rotate_bytes d.
Hypothesis Hstart : start hash config rotate_bytes (Some d) = Done (Ok (MkStarted e origin (Some st))).
Hypothesis Hsmall : ∀ at_, snapshot_small e at_.
Hypothesis Hup : up hash e st p.
Hypothesis Hgen : st_generation st + Z.of_nat (length (pr_sent p)) < u64_max.

(** What the start leaves: a store, and an engine whose history has begun. *)
Lemma started_ok :
  ∃ snap rs first, store_ok hash st snap rs ∧ Engine_inv e ∧
    history_ok hash (cycle_config e) first (eg_scheduler e) (eg_jobs e) e [] ∧ is_Some (eg_journal e).
Proof.
  destruct (lives_started hash config rotate_bytes Hhash Hcfg d e origin st Hlives Hstart)
    as (g & snap & rs & s & jobs & latest & _ & _ & Hlat & Hst & _ & Hrec & Hcc & _). exists snap, rs. eexists. split; [done|]. split; [apply Hrec|].
  split; [|rewrite (rf_journal _ _ _ _ _ Hrec); eauto]. rewrite Hcc. by eapply started_history.
Qed.

Lemma up_process_inv : process_inv hash e st p.
Proof.
  destruct started_ok as (snap & rs & first & Hst & He & Hh & Hj).
  eapply up_inv; try done. by eapply start_overflow.
Qed.

Lemma up_batches :
  ∃ bs, Forall2 (batch_of hash) (pr_written p) bs ∧ Forall2 batch_kept (pr_written p) bs.
Proof.
  pose proof up_process_inv as Hp. destruct started_ok as (snap & rs & first & Hst & He & Hh & Hj).
  destruct (process_history hash e st first He Hh p Hp) as (_ & bs & _ & _ & _ & _ & Hb & _ & _ & _ & Hk & _).
  rewrite (pv_sent _ _ _ _ Hp) in Hb, Hk. apply Forall2_app_inv_l in Hb as (b1 & b2 & Hb & _ & ->).
  exists b1. split; [done|]. apply Forall2_app_inv_l in Hk as (k1 & k2 & Hk & _ & E).
  assert (length b1 = length k1) as El by (rewrite <-(Forall2_length _ _ _ Hb), <-(Forall2_length _ _ _ Hk); done).
  by apply app_inj_1 in E as [-> _].
Qed.
End Started.

(** The process dies: between two writes of the log writer, or inside the batch it
    is persisting. *)
Definition dies {Q} (p : Process Q) (d : Dir) : Prop :=
  d = st_dir (pr_store p) ∨
  ∃ c, pr_writer p = Persisting c ∧ crash (persist_ops (pr_store p) c) (st_dir (pr_store p)) d.

(** ** Properties *)

(** C8: What a worker is told, and what a client is promised, is on disk first.
    However the threads of a daemon interleave, with clients and workers coming and
    going and at any stage of a shutdown, the assignments and eviction orders that
    have left the log writer - on their way into the outbox, in it, sent on a
    worker's stream or refused because nobody listens - are exactly, each once,
    those of the [Dispatched] and [Preempted] records in the batches on disk; every
    acceptance that was answered is of a submission or cancellation recorded there;
    and a stream carries its greeting and what was sent on it, in order. *)
Theorem workers_are_told_what_is_logged hash {Q : Type → Type} `{ArrayQueueLaws Q} config rotate_bytes d e origin st (p : Process Q) :
  Checksum hash → daemon_config_ok config → lives hash (Q := Q) config rotate_bytes d →
  start hash config rotate_bytes (Some d) = Done (Ok (MkStarted e origin (Some st))) →
  (∀ at_, snapshot_small e at_) → up hash e st p → st_generation st + Z.of_nat (length (pr_sent p)) < u64_max →
  ∃ bs, Forall2 (batch_of hash) (pr_written p) bs ∧
    run_writer st (pr_written p) = (pr_store p, all_acks (pr_written p), all_dispatches (pr_written p)) ∧
    directives (released p) ≡ₚ omap record_directive (concat (batch_records <$> bs)) ∧
    (∀ a, a ∈ w_answers (pr_world p) → no_promise a ∨ answer_logged (concat (batch_records <$> bs)) a) ∧
    carries (nt_streams (pr_net p)) (nt_delivered (pr_net p)).
Proof.
  intros Hh Hc Hl Hs Hsm Hup Hg. pose proof (up_process_inv hash config rotate_bytes d e origin st p Hh Hc Hl Hs Hsm Hup Hg) as Hp.
  destruct (up_batches hash config rotate_bytes d e origin st p Hh Hc Hl Hs Hsm Hup Hg) as (bs & Hb & Hk). exists bs.
  split; [done|]. split; [apply Hp|]. split; [by rewrite (pv_flow _ _ _ _ Hp), (kept_directives _ _ Hk)|].
  split; [|apply Hp]. intros a Ha. destruct (pv_answers _ _ _ _ Hp a) as [?|?]; [set_solver|by left|right]. by eapply kept_answers.
Qed.


(** ** A morning *)

Definition then_ {A} (o : option A) (a : A) : A := match o with Some a => a | None => a end.

Definition scheduled (p : Process ListQueue) (now : VirtualTime) : Process ListQueue :=
  match scheduler_thread crc32 p now with Done (Some p') => p' | _ => p end.

Fixpoint often {A} (n : nat) (f : A → option A) (a : A) : A :=
  match n with O => a | S n => often n f (then_ (f a) a) end.

(** A worker joins and a job arrives while the scheduler thread sleeps. *)
Definition demo_asleep : Process ListQueue :=
  Eval vm_compute in
  submits (submits (Process_start (sd_engine demo_started) demo_disk (8, []) (8, []))
             (Command.WorkerJoined "w0" (MkResources 2000 4096 0) [] 0)) (Command.Submit (demo_submission []) 1).
Definition demo_parked : Process ListQueue := Eval vm_compute in scheduled demo_asleep 10.
Definition demo_awake : Process ListQueue := Eval vm_compute in scheduled demo_parked 10.
Definition demo_joined : Process ListQueue := Eval vm_compute in scheduled demo_awake 10.
Definition demo_accepted : Process ListQueue := Eval vm_compute in scheduled demo_joined 10.
Definition demo_attached : Process ListQueue :=
  Eval vm_compute in then_ (attaches (scheduled demo_accepted 10) 0 0) demo_accepted.
Definition demo_tick : Process ListQueue := Eval vm_compute in scheduled demo_attached 10.
(** The log writer takes the batch, persists it and releases the reply and the
    assignment, which the dispatcher sends. *)
Definition demo_persisting : Process ListQueue := Eval vm_compute in then_ (writer_thread demo_tick) demo_tick.
Definition demo_persisted : Process ListQueue := Eval vm_compute in often 4 writer_thread demo_persisting.
Definition demo_told : Process ListQueue := Eval vm_compute in then_ (dispatcher_task demo_persisted false) demo_persisted.

Example demo_morning_works :
  sent_on (nt_streams (pr_net demo_told)) 0 = [Some (Wire.Welcome 0); Some (Wire.Assign 0 [1; 2] 60000000000)] ∧
  length (pr_written demo_told) = 1%nat ∧ directives (released demo_told) = [Directive.Start 0].
Proof. vm_compute. done. Qed.

Lemma demo_ten : is_u64 10. Proof. unfold is_u64. lia. Qed.

Lemma demo_tick_admissible : admissible crc32 demo_attached.
Proof.
  split; [intros q Hq; by apply elem_of_nil in Hq|]. intros e3 w3 o E. vm_compute in E. injection E as <- _ _.
  vm_compute. discriminate.
Qed.

Lemma demo_tick_up : up crc32 (sd_engine demo_started) demo_disk demo_tick.
Proof.
  exists (8, []), (8, []). split; [done|]. split; [done|].
  eapply rtc_l; [apply (ps_submits _ _ (Command.WorkerJoined "w0" (MkResources 2000 4096 0) [] 0))|].
  eapply rtc_l; [apply (ps_submits _ _ (Command.Submit (demo_submission []) 1))|].
  apply (rtc_l _ _ demo_parked); [by apply (ps_scheduler _ _ 10 _ demo_ten); [|vm_compute; reflexivity]|].
  apply (rtc_l _ _ demo_awake); [by apply (ps_scheduler _ _ 10 _ demo_ten); [|vm_compute; reflexivity]|].
  apply (rtc_l _ _ demo_joined).
  { apply (ps_scheduler _ _ 10 _ demo_ten); [|vm_compute; reflexivity]. intros c Hc. cbn in Hc. injection Hc as <-.
    split; [unfold Resources_wf, is_u32, is_u64, is_u8; cbn; lia|vm_compute; reflexivity]. }
  apply (rtc_l _ _ demo_accepted).
  { apply (ps_scheduler _ _ 10 _ demo_ten); [|vm_compute; reflexivity]. intros c Hc. cbn in Hc. injection Hc as <-.
    split; [apply demo_submit_ok; by left|right; vm_compute; reflexivity]. }
  eapply rtc_l; [by apply (ps_scheduler _ demo_accepted 10 (scheduled demo_accepted 10) demo_ten); [|vm_compute; reflexivity]|].
  apply (rtc_l _ _ demo_attached); [apply (ps_attaches _ _ 0 0); vm_compute; reflexivity|].
  apply rtc_once, (ps_scheduler _ _ 10 _ demo_ten demo_tick_admissible). vm_compute. reflexivity.
Qed.

Lemma up_more hash {Q} `{ArrayQueue Q} e st (p p' : Process Q) : up hash e st p → rtc (pstep hash) p p' → up hash e st p'.
Proof. intros (i & o & Hi & Ho & Hr) Hs. exists i, o. split; [done|]. split; [done|]. by etrans. Qed.

(** Some steps of the log writer. *)
Lemma often_writer hash n (p p' : Process ListQueue) : often n writer_thread p = p' → rtc (pstep hash) p p'.
Proof.
  revert p. induction n as [|n IH]; intros p E; cbn in E; [by subst|].
  destruct (writer_thread p) as [p1|] eqn:Ew; [|by apply IH in E]. eapply rtc_l; [by apply ps_writer|]. by apply IH.
Qed.

Lemma demo_told_up : up crc32 (sd_engine demo_started) demo_disk demo_told.
Proof.
  eapply up_more; [apply demo_tick_up|]. transitivity demo_persisted.
  - apply (often_writer crc32 5). vm_compute. reflexivity.
  - apply rtc_once, (ps_dispatcher _ _ false). vm_compute. reflexivity.
Qed.

Lemma demo_small at_ : snapshot_small (sd_engine demo_started) at_.
Proof. apply snapshot_small_any. vm_compute. discriminate. Qed.

Lemma workers_are_told_what_is_logged_witness :
  ∃ bs, Forall2 (batch_of crc32) (pr_written demo_told) bs ∧
    run_writer demo_disk (pr_written demo_told) =
      (pr_store demo_told, all_acks (pr_written demo_told), all_dispatches (pr_written demo_told)) ∧
    directives (released demo_told) ≡ₚ omap record_directive (concat (batch_records <$> bs)) ∧
    (∀ a, a ∈ w_answers (pr_world demo_told) → no_promise a ∨ answer_logged (concat (batch_records <$> bs)) a) ∧
    carries (nt_streams (pr_net demo_told)) (nt_delivered (pr_net demo_told)).
Proof.
  apply (workers_are_told_what_is_logged crc32 (Q := ListQueue) demo_daemon_config 1000000 ∅ (sd_engine demo_started)
    (sd_origin demo_started) demo_disk demo_told);
    [apply crc32_checksum|apply demo_daemon_config_ok|apply lives_new|apply demo_starts|apply demo_small|apply demo_told_up|].
  vm_compute. reflexivity.
Defined.


(** ** The shutdown *)

(** Once the engine knows that the daemon is leaving, lost workers move no job. *)
Lemma quiescing_keeps_jobs hash {Q} `{ArrayQueue Q} e (w : World Q) slot now e' w' :
  eg_quiescing e = true → handle hash e w (Command.WorkerLeft slot) now = Done (e', w') →
  eg_jobs e' = eg_jobs e ∧ eg_journal e' = eg_journal e.
Proof.
  intros Hq E. cbn in E. apply exec_bind_Done in E as (e1 & E1 & E). injection E as <- _.
  unfold evict_slot in E1. cbn in E1. rewrite Hq in E1. cbn in E1. by injection E1 as <-.
Qed.

(** The thread reads the flag when it wakes, before it drains: a shutdown that
    begins during the drain closes the streams of workers whose departure is then
    handled as a loss.  The job the worker is running goes back to the queue. *)
Definition demo_drains : Process ListQueue := Eval vm_compute in scheduled (scheduled demo_told 20) 20.
Definition demo_closed : Process ListQueue :=
  Eval vm_compute in submits (often 2 shutdown_task demo_drains) (Command.WorkerLeft 0).
Definition demo_lost : Process ListQueue := Eval vm_compute in scheduled demo_closed 20.

Example shutdown_during_a_drain_requeues :
  job_state (eg_jobs (pr_engine demo_told)) 0 = Some JobState.Running ∧
  quiesce_flag (pr_stage demo_closed) = true ∧ eg_jobs (pr_engine demo_closed) = eg_jobs (pr_engine demo_told) ∧
  job_state (eg_jobs (pr_engine demo_lost)) 0 = Some JobState.Ready.
Proof. vm_compute. done. Qed.

Lemma demo_lost_up : up crc32 (sd_engine demo_started) demo_disk demo_lost.
Proof.
  assert (is_u64 20) as H20 by (unfold is_u64; lia). eapply up_more; [apply demo_told_up|].
  apply (rtc_l _ _ (scheduled demo_told 20)); [by apply (ps_scheduler _ _ 20 _ H20); [|vm_compute; reflexivity]|].
  apply (rtc_l _ _ demo_drains); [by apply (ps_scheduler _ _ 20 _ H20); [|vm_compute; reflexivity]|].
  eapply rtc_l; [by apply ps_shutdown|]. eapply rtc_l; [by apply ps_shutdown|].
  eapply rtc_l; [apply (ps_submits _ _ (Command.WorkerLeft 0))|].
  apply rtc_once, (ps_scheduler _ _ 20 _ H20); [|vm_compute; reflexivity]. intros c Hc. by injection Hc as <-.
Qed.
