(* ===== verification/Worker.v ===== *)
(** * The worker

    [crates/tasker-worker/src/executor.rs] and [worker.rs]: payloads, the
    classification of a task's end, and the attach loop.

    The tasks a worker spawned are kept in [runs], numbered in spawn order; a
    [JoinHandle] is such a number.  Following tokio, aborting a handle stops that
    task only, and dropping a handle detaches its task, which runs on.  Each arm
    of a [select!] is an event, with the outcome of the sends it awaits; timers
    are the events of their firing.  [Worker::run] is the step relation [wstep].
    Connecting, spawning processes and log lines are not modelled. *)

From stdpp Require Import base strings list gmap numbers option.
From Stdlib Require Import ZArith Lia.
From S2P Require Import Prelude Text Domain Arena Job Codec Command Proto Services.
Open Scope Z_scope.
Open Scope list_scope.

(** ** Payloads ([executor.rs]) *)

Definition duration_to_nanos (nanos : Z) : Z := if nanos <=? u64_max then nanos else u64_max.

(** [sleep_payload]: a [Duration] is its nanoseconds, possibly beyond [u64]. *)
Definition sleep_payload (nanos : Z) : bytes := to_le_bytes 8 (duration_to_nanos nanos).

(** The nanoseconds [SleepExecutor] sleeps: the first eight bytes, or nothing. *)
Definition sleep_nanos (payload : bytes) : Z :=
  if (8 <=? length payload)%nat then from_le_bytes (take 8 payload) else 0.

(** [Err] of a task carries no text here. *)
Definition SleepExecutor_run (payload : bytes) (stopped : bool) : result unit unit :=
  if stopped then Err tt else Ok tt.

(** The strings joined by NUL. *)
Definition command_payload (argv : list bytes) : bytes := join_on 0 argv.

(** [lossy] is [String::from_utf8_lossy] on bytes. *)
Definition parse_command_payload (lossy : bytes → bytes) (payload : bytes) : list bytes :=
  match payload with
  | [] => []
  | _ => map lossy (split_on 0 payload)
  end.

(** How a child ended: [wait] itself may fail. *)
Inductive ChildEnd : Type := ExitStatus (success : bool) | WaitFailed.

(** [CommandExecutor::run]: [spawned] says whether the program could be started,
    [child] which arm of the race won ([None]: the stop request). *)
Definition CommandExecutor_run (lossy : bytes → bytes) (payload : bytes) (spawned : bool) (child : option ChildEnd)
  : result unit unit :=
  match parse_command_payload lossy payload with
  | [] => Err tt
  | _ :: _ =>
      if negb spawned then Err tt
      else match child with
           | None => Err tt
           | Some WaitFailed => Err tt
           | Some (ExitStatus success) => if success then Ok tt else Err tt
           end
  end.

(** ** The end of a task *)

(** [Result<Result<(), TaskError>, JoinError>]. *)
Inductive Join : Type := JoinedOk | JoinedErr | JoinedPanic | JoinedCancelled.

(** [classify]: [None] is an elapsed timer; the flag says whether the executor
    was aborted. *)
Definition classify_joined (joined : option Join) (stopped : bool) : option Wire.TaskResult * bool :=
  match joined with
  | Some JoinedOk => (Some Wire.Succeeded, false)
  | Some JoinedErr => (Some (if stopped then Wire.TaskPreempted else Wire.TaskFailed), false)
  | Some JoinedPanic => (Some Wire.Panicked, false)
  | Some JoinedCancelled => (None, false)
  | None => (Some Wire.TimedOut, true)
  end.

(** Who won the race of [run_task], and how the executor ended in that race. *)
Inductive Race : Type :=
| InTime (joined : option Join)
| StopFirst (joined : option Join).

Definition run_task (race : Race) : option Wire.TaskResult * bool :=
  match race with
  | InTime joined => classify_joined joined false
  | StopFirst None => (Some Wire.TaskPreempted, true)
  | StopFirst joined => classify_joined joined true
  end.

Definition report (job_id : Z) (r : Wire.TaskResult) : Wire.Up := Wire.Finished job_id (Wire.result_number r).

(** ** Sessions *)

(** The outer task of an assignment. *)
Inductive Outer : Type := Going | Aborted | Ended (result : option Wire.TaskResult).

Record Run : Type := MkRun {
  rn_job : Z;
  rn_outer : Outer;
  rn_executing : bool;
  rn_stop : option Z;
}.

Definition is_going (r : Run) : bool := match rn_outer r with Going => true | _ => false end.

Definition RESULTS : nat := 1024.

Record Session : Type := MkSession {
  ss_tasks : gmap Z nat;
  ss_runs : list Run;
  ss_results : list Wire.Up;
  ss_draining : bool;
  ss_deadline : bool;
}.

Definition Session_new : Session := MkSession ∅ [] [] false false.

Definition with_tasks (s : Session) (t : gmap Z nat) : Session :=
  MkSession t (ss_runs s) (ss_results s) (ss_draining s) (ss_deadline s).
Definition with_runs (s : Session) (r : list Run) : Session :=
  MkSession (ss_tasks s) r (ss_results s) (ss_draining s) (ss_deadline s).
Definition with_results (s : Session) (r : list Wire.Up) : Session :=
  MkSession (ss_tasks s) (ss_runs s) r (ss_draining s) (ss_deadline s).

(** [handle.is_finished()]: finished tasks and aborted ones. *)
Definition going (s : Session) (n : nat) : bool :=
  match ss_runs s !! n with
  | Some r => is_going r
  | None => false
  end.

(** [TaskSet::prune]. *)
Definition prune (s : Session) : Session :=
  with_tasks s (filter (fun p => going s p.2 = true) (ss_tasks s)).

Definition on_assign (s : Session) (job_id : Z) : Session :=
  let n := length (ss_runs s) in
  with_tasks (with_runs s (ss_runs s ++ [MkRun job_id Going true None])) (<[job_id := n]> (ss_tasks s)).

(** [handle.abort()]: the outer task is dropped, and with it its handle of the
    executor, which is thereby detached. *)
Definition abort_run (r : Run) : Run :=
  if is_going r then MkRun (rn_job r) Aborted (rn_executing r) (rn_stop r) else r.

Definition on_kill (s : Session) (job_id : Z) : Session :=
  match ss_tasks s !! job_id with
  | Some n => with_runs (with_tasks s (delete job_id (ss_tasks s))) (alter abort_run n (ss_runs s))
  | None => s
  end.

Definition on_preempt (s : Session) (job_id grace : Z) : Session :=
  match ss_tasks s !! job_id with
  | Some n =>
      with_runs s (alter (fun r => MkRun (rn_job r) (rn_outer r) (rn_executing r) (Some grace)) n (ss_runs s))
  | None => s
  end.

Inductive SessionEnd : Type := Disconnected | Drained.

(** What an arm of the loop does next. *)
Inductive Flow : Type := Continue | Return (e : SessionEnd) | Failed.

(** The arms; [ok] is the outcome of the send the arm awaits. *)
Inductive Event : Type :=
| Read (m : option Wire.Down)
| ReadEnd
| ReadError
| Result (ok : bool)
| HeartbeatTick (ok : bool)
| Sigterm (ok : bool)
| DrainPoll
| Deadline.

Definition sent_if (ok : bool) (m : Wire.Up) : list Wire.Up := if ok then [m] else [].

(** One turn of the loop of [attach_once]: the session, what was sent, what was
    dropped for lack of room, and how the loop goes on.  A guarded arm that is
    disabled does nothing. *)
Definition serve (s : Session) (ev : Event) : Session * list Wire.Up * list Wire.Up * Flow :=
  match ev with
  | Read (Some (Wire.Assign job_id _ _)) => (on_assign s job_id, [], [], Continue)
  | Read (Some (Wire.Kill job_id)) => (on_kill s job_id, [], [], Continue)
  | Read (Some (Wire.Preempt job_id grace)) => (on_preempt s job_id grace, [], [], Continue)
  | Read _ => (s, [], [], Continue)
  | ReadEnd => (s, [], [], Return Disconnected)
  | ReadError => (s, [], [], Failed)
  | Result ok =>
      match ss_results s with
      | [] => (s, [], [], Continue)
      | m :: rest =>
          if ok then (with_results s rest, [m], [], Continue)
          else if (length rest <? RESULTS)%nat
               then (with_results s (rest ++ [m]), [], [], Return Disconnected)
               else (with_results s rest, [], [m], Return Disconnected)
      end
  | HeartbeatTick ok =>
      (prune s, sent_if ok Wire.Heartbeat, [], if ok then Continue else Return Disconnected)
  | Sigterm ok =>
      if ss_draining s then (s, [], [], Continue)
      else (MkSession (ss_tasks s) (ss_runs s) (ss_results s) true true, sent_if ok Wire.Draining, [], Continue)
  | DrainPoll =>
      if negb (ss_draining s) then (s, [], [], Continue)
      else
        let s := prune s in
        (s, [], [], if bool_decide (ss_tasks s = ∅) && bool_decide (ss_results s = []) then Return Drained else Continue)
  | Deadline => if ss_deadline s then (s, [], [], Return Drained) else (s, [], [], Continue)
  end.

(** The start of [attach_once], up to the loop: what Hello says, and the drain
    notice of a worker that is already draining. *)
Definition tasks_in_flight (s : Session) : list Z := (map_to_list (ss_tasks s)).*1.

Definition hello (name : string) (capacity : Resources) (s : Session) : Wire.Up :=
  Wire.UpHello (Wire.MkHello name (Some (resources_to_proto capacity)) (tasks_in_flight s)).

(** A task ends on its own: its report waits for room in the results channel. *)
Definition task_ends (s : Session) (n : nat) (race : Race) : option Session :=
  match ss_runs s !! n with
  | Some r =>
      if negb (is_going r) then None
      else if match race with StopFirst _ => bool_decide (rn_stop r = None) | InTime _ => false end then None
      else
        let '(result, _) := run_task race in
        let r' := MkRun (rn_job r) (Ended result) false (rn_stop r) in
        let s' := with_runs s (<[n := r']> (ss_runs s)) in
        match result with
        | None => Some s'
        | Some res =>
            if (length (ss_results s) <? RESULTS)%nat
            then Some (with_results s' (ss_results s ++ [report (rn_job r) res]))
            else None
        end
  | None => None
  end.

(** ** [Worker::run] *)

Definition RECONNECT_MIN : Z := 200000000.
Definition RECONNECT_MAX : Z := 5000000000.

Definition next_backoff (backoff : Z) : Z := Z.min (backoff * 2) RECONNECT_MAX.

(** What ends [wait_backoff]. *)
Inductive Pause : Type := Elapsed | PauseSigterm | PauseDeadline.

(** [wait_backoff]: the session and whether to exit.  A disabled arm is no end. *)
Definition wait_backoff (s : Session) (p : Pause) : option (Session * bool) :=
  match p with
  | Elapsed => Some (s, false)
  | PauseSigterm =>
      if ss_draining s then None
      else Some (MkSession (ss_tasks s) (ss_runs s) (ss_results s) true true, bool_decide (ss_tasks s = ∅))
  | PauseDeadline => if ss_deadline s then Some (s, true) else None
  end.

Inductive Phase : Type := Attaching | Serving | Waiting | Exited.

Record WorkerState : Type := MkWorkerState {
  ws_phase : Phase;
  ws_session : Session;
  ws_backoff : Z;
  ws_sent : list Wire.Up;
  ws_dropped : list Wire.Up;
}.

Definition Worker_start : WorkerState := MkWorkerState Attaching Session_new RECONNECT_MIN [] [].

(** What [run] does with the end of a session. *)
Definition after_session (s : Session) (backoff : Z) (f : Flow) : Phase * Z :=
  match f with
  | Continue => (Serving, backoff)
  | Return Drained => (Exited, backoff)
  | Return Disconnected =>
      if ss_draining s && bool_decide (ss_tasks s = ∅) then (Exited, backoff) else (Waiting, RECONNECT_MIN)
  | Failed => (Waiting, backoff)
  end.

(** [Drop for TaskSet]: the worker exits for good and its tasks are aborted. *)
Definition drop_tasks (s : Session) : Session :=
  with_runs s (fold_right (alter abort_run) (ss_runs s) (map_to_list (ss_tasks s)).*2).

Definition leave (ph : Phase) (s : Session) : Session :=
  match ph with Exited => drop_tasks s | _ => s end.

Module WorkerError.
Inductive WorkerError : Type := Transport | Rpc | NoWelcome | Outbound | Io.
End WorkerError.
Abbreviation WorkerError := WorkerError.WorkerError.

(** How far an attempt to attach gets: no connection; a connection on which the
    call fails; an open stream with its first read. *)
Inductive Dial : Type :=
| NoConnection
| CallFails
| FirstRead (m : option (option Wire.Down))
| FirstReadError.

Section Worker.
Context (name : string) (capacity : Resources).

(** The start of [attach_once], up to the loop: the session, what was sent and the
    slot; [ok] is the outcome of sending the drain notice. *)
Definition attach (s : Session) (d : Dial) (ok : bool) : Session * list Wire.Up * result Z WorkerError :=
  match d with
  | NoConnection => (s, [], Err WorkerError.Transport)
  | _ =>
      let s := prune s in
      let sent := [hello name capacity s] in
      match d with
      | FirstRead (Some (Some (Wire.Welcome slot))) =>
          (s, sent ++ (if ss_draining s then sent_if ok Wire.Draining else []), Ok slot)
      | FirstRead _ => (s, sent, Err WorkerError.NoWelcome)
      | _ => (s, sent, Err WorkerError.Rpc)
      end
  end.

Inductive wstep : WorkerState → WorkerState → Prop :=
| ws_attach s backoff sent dropped d ok s' out r :
    attach s d ok = (s', out, r) →
    wstep (MkWorkerState Attaching s backoff sent dropped)
          (MkWorkerState (match r with Ok _ => Serving | Err _ => Waiting end) s' backoff (sent ++ out) dropped)
| ws_serve s backoff sent dropped ev s' out drop f :
    serve s ev = (s', out, drop, f) →
    wstep (MkWorkerState Serving s backoff sent dropped)
          (MkWorkerState (after_session s' backoff f).1 (leave (after_session s' backoff f).1 s') (after_session s' backoff f).2
             (sent ++ out) (dropped ++ drop))
| ws_wait s backoff sent dropped p s' exit :
    wait_backoff s p = Some (s', exit) →
    wstep (MkWorkerState Waiting s backoff sent dropped)
          (MkWorkerState (if exit : bool then Exited else Attaching) (leave (if exit then Exited else Attaching) s')
             (if exit then backoff else next_backoff backoff) sent dropped)
| ws_task ph s backoff sent dropped n race s' :
    ph ≠ Exited → task_ends s n race = Some s' →
    wstep (MkWorkerState ph s backoff sent dropped) (MkWorkerState ph s' backoff sent dropped).

Inductive wreaches : WorkerState → Prop :=
| wr_start : wreaches Worker_start
| wr_step w w' : wreaches w → wstep w w' → wreaches w'.
End Worker.

(** ** Payload round trips *)

Lemma sleep_roundtrip nanos : 0 <= nanos → sleep_nanos (sleep_payload nanos) = Z.min nanos u64_max.
Proof.
  intros Hn. unfold sleep_nanos, sleep_payload, duration_to_nanos. rewrite length_to_le. cbn [Nat.leb].
  rewrite take_ge by (by rewrite length_to_le). rewrite from_to_le by (destruct (Z.leb_spec nanos u64_max); lia).
  destruct (Z.leb_spec nanos u64_max); lia.
Qed.

(** An argument without a NUL byte. *)
(** ** The invariant *)

Definition run_report (r : Run) : option Wire.Up :=
  match rn_outer r with
  | Ended (Some res) => Some (report (rn_job r) res)
  | _ => None
  end.

(** The reports the runs produced, and those among some messages. *)
Definition reports_of (runs : list Run) : list Wire.Up := omap run_report runs.

Definition is_report (m : Wire.Up) : bool := match m with Wire.Finished _ _ => true | _ => false end.

Definition reports_in (ms : list Wire.Up) : list Wire.Up := List.filter is_report ms.

(** A later assignment of the same job took its place in the table. *)
Definition superseded (runs : list Run) (n : nat) (r : Run) : Prop :=
  ∃ m r', (n < m)%nat ∧ runs !! m = Some r' ∧ rn_job r' = rn_job r.

Record session_inv (s : Session) (sent dropped : list Wire.Up) : Prop := {
  si_tasks : ∀ job n, ss_tasks s !! job = Some n → ∃ r, ss_runs s !! n = Some r ∧ rn_job r = job;
  si_going : ∀ n r, ss_runs s !! n = Some r → is_going r = true →
    ss_tasks s !! rn_job r = Some n ∨ superseded (ss_runs s) n r;
  si_ended : ∀ n r res, ss_runs s !! n = Some r → rn_outer r = Ended res → rn_executing r = false;
  si_reports : reports_of (ss_runs s) ≡ₚ ss_results s ++ reports_in sent ++ dropped;
  si_deadline : ss_deadline s = ss_draining s;
}.

Definition winv (w : WorkerState) : Prop :=
  session_inv (ws_session w) (ws_sent w) (ws_dropped w) ∧
  RECONNECT_MIN <= ws_backoff w <= RECONNECT_MAX.

Lemma reports_in_app a b : reports_in (a ++ b) = reports_in a ++ reports_in b.
Proof. apply List.filter_app. Qed.

Lemma reports_of_are_reports runs m : m ∈ reports_of runs → is_report m = true.
Proof.
  intros (r & _ & Hr)%list_elem_of_omap. unfold run_report in Hr. by repeat case_match; simplify_eq.
Qed.

(** A change of a run that reported nothing. *)
Lemma reports_of_insert runs n r r' :
  runs !! n = Some r → run_report r = None →
  reports_of (<[n := r']> runs) ≡ₚ option_list (run_report r') ++ reports_of runs.
Proof.
  revert n. induction runs as [|r0 runs IH]; intros [|n] E Hr; simplify_eq/=.
  - unfold reports_of. cbn. rewrite Hr. by destruct (run_report r').
  - unfold reports_of in *. cbn. destruct (run_report r0); [|by apply IH].
    rewrite (IH n E Hr). by rewrite Permutation_middle.
Qed.

Lemma reports_of_alter f runs n : (∀ r, run_report (f r) = run_report r) → reports_of (alter f n runs) = reports_of runs.
Proof.
  intros Hf. revert n. induction runs as [|r runs IH]; intros [|n]; try done; unfold reports_of in *; cbn.
  - by rewrite Hf.
  - change (alter f n runs) with (alter f n runs) in *. by rewrite IH.
Qed.

Lemma session_inv_alter f s n sent dropped :
  (∀ r, rn_job (f r) = rn_job r ∧ run_report (f r) = run_report r ∧ (is_going (f r) = true → is_going r = true) ∧
        rn_executing (f r) = rn_executing r ∧ (∀ res, rn_outer (f r) = Ended res → rn_outer r = Ended res)) →
  session_inv s sent dropped → session_inv (with_runs s (alter f n (ss_runs s))) sent dropped.
Proof.
  intros Hf [H1 H2 H3 H4 H5].
  assert (∀ k r, alter f n (ss_runs s) !! k = Some r →
    ∃ r0, ss_runs s !! k = Some r0 ∧ (r = r0 ∨ r = f r0)) as Hback.
  { intros k r. destruct (decide (n = k)) as [<-|]; [|rewrite list_lookup_alter_ne by done; eauto].
    rewrite list_lookup_alter_eq. destruct (ss_runs s !! n); naive_solver. }
  assert (∀ k r, ss_runs s !! k = Some r → ∃ r', alter f n (ss_runs s) !! k = Some r' ∧ rn_job r' = rn_job r) as Hfwd.
  { intros k r E. destruct (decide (n = k)) as [<-|]; [|rewrite list_lookup_alter_ne by done; eauto].
    rewrite list_lookup_alter_eq, E. eexists. split; [done|]. apply Hf. }
  split; cbn; try done.
  - intros job k Hk. destruct (H1 _ _ Hk) as (r & Er & <-). destruct (Hfwd _ _ Er) as (r' & ? & ?). eauto.
  - intros k r Hk Hg. destruct (Hback _ _ Hk) as (r0 & E0 & Hr).
    assert (rn_job r = rn_job r0 ∧ is_going r0 = true) as [Hj Hg0] by (destruct Hr as [->| ->]; [done|split; by apply Hf]).
    rewrite Hj. destruct (H2 _ _ E0 Hg0) as [?|(m & r1 & Hm & Em & Ej)]; [by left|right].
    destruct (Hfwd _ _ Em) as (r1' & E1' & Ej'). exists m, r1'. rewrite Hj. split; [done|]. split; [done|]. congruence.
  - intros k r res Hk Ho. destruct (Hback _ _ Hk) as (r0 & E0 & [->| ->]); [by eapply H3|].
    destruct (Hf r0) as (_ & _ & _ & -> & Ho'). eapply H3; [done|]. by apply Ho'.
  - rewrite reports_of_alter; [done|]. intros r. apply Hf.
Qed.

(** Forgetting tasks that are no longer going. *)
Lemma session_inv_tasks s t sent dropped :
  t ⊆ ss_tasks s → (∀ job n, ss_tasks s !! job = Some n → going s n = true → t !! job = Some n) →
  session_inv s sent dropped → session_inv (with_tasks s t) sent dropped.
Proof.
  intros Hsub Hkeep [H1 H2 H3 H4 H5]. split; cbn; try done.
  - intros job n Hn. apply H1. by eapply lookup_weaken.
  - intros n r Hn Hg. destruct (H2 _ _ Hn Hg) as [Ht|?]; [|by right]. left. apply Hkeep; [done|].
    unfold going. by rewrite Hn.
Qed.

Lemma prune_inv s sent dropped : session_inv s sent dropped → session_inv (prune s) sent dropped.
Proof.
  apply session_inv_tasks; [apply map_filter_subseteq|]. intros job n Ht Hg. by apply map_lookup_filter_Some.
Qed.

Lemma abort_run_frame r :
  rn_job (abort_run r) = rn_job r ∧ run_report (abort_run r) = run_report r ∧ is_going (abort_run r) = false ∧
  rn_executing (abort_run r) = rn_executing r ∧ (∀ res, rn_outer (abort_run r) = Ended res → rn_outer r = Ended res).
Proof.
  unfold abort_run, is_going, run_report. destruct (rn_outer r) eqn:E; cbn; rewrite ?E; by split_and!.
Qed.

Lemma on_kill_inv s job sent dropped : session_inv s sent dropped → session_inv (on_kill s job) sent dropped.
Proof.
  intros Hs. unfold on_kill. destruct (ss_tasks s !! job) as [n|] eqn:Et; [|done].
  change (session_inv (with_tasks (with_runs s (alter abort_run n (ss_runs s))) (delete job (ss_tasks s))) sent dropped).
  apply session_inv_tasks; cbn.
  - apply delete_subseteq.
  - intros job' k Hk Hg. rewrite lookup_delete_ne; [done|]. intros <-. rewrite Et in Hk. injection Hk as <-.
    unfold going in Hg. cbn in Hg. rewrite list_lookup_alter_eq in Hg.
    destruct (ss_runs s !! n) as [r|]; [|done]. cbn in Hg. destruct (abort_run_frame r) as (_ & _ & ? & _). congruence.
  - apply session_inv_alter; [|done]. intros r. destruct (abort_run_frame r) as (? & ? & -> & ? & ?). by split_and!.
Qed.

Lemma on_preempt_inv s job grace sent dropped :
  session_inv s sent dropped → session_inv (on_preempt s job grace) sent dropped.
Proof.
  intros Hs. unfold on_preempt. destruct (ss_tasks s !! job) as [n|]; [|done]. by apply session_inv_alter.
Qed.

Lemma on_assign_inv s job sent dropped : session_inv s sent dropped → session_inv (on_assign s job) sent dropped.
Proof.
  intros [H1 H2 H3 H4 H5]. unfold on_assign. split; cbn; try done.
  - intros job' n. rewrite lookup_insert_Some. intros [[<- <-]|[_ Hn]].
    + rewrite lookup_app_r, Nat.sub_diag by done. by eexists.
    + destruct (H1 _ _ Hn) as (r & Er & ?). exists r. by rewrite (lookup_app_l_Some _ _ _ _ Er).
  - intros n r. rewrite lookup_app_Some. intros [Hn|[Hlen Hn]] Hg.
    + destruct (decide (rn_job r = job)) as [<-|Hj].
      * right. exists (length (ss_runs s)), (MkRun (rn_job r) Going true None).
        split; [by eapply lookup_lt_Some|]. rewrite lookup_app_r, Nat.sub_diag by done. done.
      * rewrite lookup_insert_ne by done. destruct (H2 _ _ Hn Hg) as [?|(m & r' & ? & E & ?)]; [by left|right].
        exists m, r'. by rewrite (lookup_app_l_Some _ _ _ _ E).
    + apply list_lookup_singleton_Some in Hn as [? <-]. left. cbn. rewrite lookup_insert_eq. f_equal. lia.
  - intros n r res. rewrite lookup_app_Some. intros [Hn|[_ Hn]]; [by apply H3 with n|].
    by apply list_lookup_singleton_Some in Hn as [_ <-].
  - unfold reports_of in *. rewrite omap_app. cbn. by rewrite app_nil_r.
Qed.

Lemma task_ends_inv s n race s' sent dropped :
  task_ends s n race = Some s' → session_inv s sent dropped → session_inv s' sent dropped.
Proof.
  unfold task_ends. destruct (ss_runs s !! n) as [r|] eqn:Er; [|done].
  destruct (is_going r) eqn:Eg; [|done]. cbn [negb]. case_match; [done|]. destruct (run_task race) as [res ab].
  assert (run_report r = None) as Hnone by (unfold is_going in Eg; unfold run_report; by destruct (rn_outer r)).
  intros E [H1 H2 H3 H4 H5]. set (r' := MkRun (rn_job r) (Ended res) false (rn_stop r)) in *.
  assert (session_inv (with_results (with_runs s (<[n := r']> (ss_runs s)))
            (ss_results s ++ option_list (run_report r'))) sent dropped) as Hinv.
  { split; cbn; try done.
    - intros job k Hk. destruct (H1 _ _ Hk) as (r1 & E1 & Hj). destruct (decide (n = k)) as [<-|].
      + rewrite list_lookup_insert_eq by (by eapply lookup_lt_Some). exists r'. split; [done|]. cbn. congruence.
      + rewrite list_lookup_insert_ne by done. eauto.
    - intros k r1. rewrite list_lookup_insert_Some. intros [(_ & <- & _)|[Hn E1]] Hg; [done|].
      destruct (H2 _ _ E1 Hg) as [?|(m & r2 & ? & E2 & ?)]; [by left|right]. destruct (decide (n = m)) as [<-|].
      + exists n, r'. rewrite list_lookup_insert_eq by (by eapply lookup_lt_Some). split; [done|]. split; [done|]. cbn. congruence.
      + exists m, r2. by rewrite list_lookup_insert_ne.
    - intros k r1 res1. rewrite list_lookup_insert_Some. intros [(_ & <- & _)|[_ E1]] Ho; [done|]. by eapply H3.
    - rewrite (reports_of_insert _ _ _ r' Er Hnone), H4. rewrite <-!app_assoc.
      apply Permutation_app_swap_app. }
  destruct res as [res|].
  - destruct (_ <? _)%nat; [|done]. injection E as <-. exact Hinv.
  - injection E as <-. cbn in Hinv. rewrite app_nil_r in Hinv. exact Hinv.
Qed.

(** Sending the oldest report moves it from the backlog to the stream. *)
Lemma reports_sent (m : Wire.Up) rest sent dropped l :
  l ≡ₚ (m :: rest) ++ reports_in sent ++ dropped → is_report m = true →
  l ≡ₚ rest ++ reports_in (sent ++ [m]) ++ dropped.
Proof.
  intros -> Hm. rewrite reports_in_app. unfold reports_in at 3. cbn. rewrite Hm. cbn [app].
  rewrite <-app_assoc. cbn [app]. solve_Permutation.
Qed.

Lemma serve_inv s ev s' out drop f sent dropped :
  serve s ev = (s', out, drop, f) → session_inv s sent dropped → session_inv s' (sent ++ out) (dropped ++ drop).
Proof.
  intros E Hs.
  assert (∀ s1 m, is_report m = false → session_inv s1 sent dropped → ∀ ok, session_inv s1 (sent ++ sent_if ok m) (dropped ++ [])) as Hquiet.
  { intros s1 m Hm [H1 H2 H3 H4 H5] ok. split; try done. rewrite app_nil_r, reports_in_app.
    assert (reports_in (sent_if ok m) = []) as -> by (destruct ok; cbn; by rewrite ?Hm). by rewrite app_nil_r. }
  assert (∀ s1, session_inv s1 sent dropped → session_inv s1 (sent ++ []) (dropped ++ [])) as Hnil
    by (intros; by rewrite !app_nil_r).
  destruct ev as [m| | |ok|ok|ok| |]; cbn in E.
  - destruct m as [[]|]; simplify_eq; apply Hnil;
      first [done|by apply on_assign_inv|by apply on_kill_inv|by apply on_preempt_inv].
  - simplify_eq. by apply Hnil.
  - simplify_eq. by apply Hnil.
  - destruct (ss_results s) as [|m rest] eqn:Er; [simplify_eq; by apply Hnil|].
    pose proof Hs as [H1 H2 H3 H4 H5]. rewrite Er in H4.
    assert (is_report m = true) as Hm.
    { apply (reports_of_are_reports (ss_runs s)). rewrite H4. cbn. by left. }
    destruct ok; [|destruct (_ <=? _)%nat]; simplify_eq; split; cbn; try done; rewrite ?app_nil_r.
    + by apply reports_sent.
    + rewrite H4, <-app_assoc. cbn. by rewrite Permutation_middle.
    + rewrite H4. cbn. solve_Permutation.
  - simplify_eq. apply Hquiet; [done|]. by apply prune_inv.
  - destruct (ss_draining s) eqn:Ed; simplify_eq; [by apply Hnil|]. apply Hquiet; [done|].
    destruct Hs as [H1 H2 H3 H4 H5]. split; done.
  - destruct (ss_draining s); cbn in E; simplify_eq; apply Hnil; [by apply prune_inv|done].
  - destruct (ss_deadline s); simplify_eq; by apply Hnil.
Qed.

Lemma next_backoff_range b : RECONNECT_MIN <= b <= RECONNECT_MAX → RECONNECT_MIN <= next_backoff b <= RECONNECT_MAX.
Proof. unfold next_backoff, RECONNECT_MIN, RECONNECT_MAX. lia. Qed.

Lemma session_inv_hello s sent dropped msgs :
  session_inv s sent dropped → Forall (fun m => is_report m = false) msgs → session_inv s (sent ++ msgs) dropped.
Proof.
  intros [H1 H2 H3 H4 H5] Hm. split; try done. rewrite reports_in_app.
  assert (reports_in msgs = []) as ->; [|by rewrite app_nil_r].
  unfold reports_in. induction Hm as [|m ms Hx _ IH]; [done|]. cbn. by rewrite Hx.
Qed.

Lemma leave_inv ph s sent dropped : session_inv s sent dropped → session_inv (leave ph s) sent dropped.
Proof.
  intros Hs. destruct ph; try done. cbn. unfold drop_tasks. induction (map_to_list (ss_tasks s)).*2 as [|n l IH]; cbn; [by destruct s|].
  apply (session_inv_alter abort_run _ n) in IH; [exact IH|]. intros r. destruct (abort_run_frame r) as (? & ? & -> & ? & ?). by split_and!.
Qed.

Lemma attach_inv name capacity s d ok s' out r sent dropped :
  attach name capacity s d ok = (s', out, r) → session_inv s sent dropped → session_inv s' (sent ++ out) dropped.
Proof.
  intros E Hs. unfold attach in E. pose proof (prune_inv _ _ _ Hs) as Hp. repeat case_match; simplify_eq;
    first [by rewrite app_nil_r|apply session_inv_hello; [done|destruct ok; by repeat constructor]].
Qed.

Lemma wstep_inv name capacity w w' : wstep name capacity w w' → winv w → winv w'.
Proof.
  intros Hstep [Hs Hb]. destruct Hstep as [s backoff sent dropped d ok s' out r E|s backoff sent dropped ev s' out drop f E
    |s backoff sent dropped p s' exit E|ph s backoff sent dropped n race s' _ E]; cbn in Hs, Hb; split; cbn; try done.
  - by eapply attach_inv.
  - eapply leave_inv, serve_inv; done.
  - destruct f as [|[]|]; cbn; try done. destruct (_ && _); [done|]. unfold RECONNECT_MIN, RECONNECT_MAX. cbn. lia.
  - apply leave_inv. destruct p; cbn in E; simplify_eq; try done.
    + destruct (ss_draining s) eqn:Ed; simplify_eq. destruct Hs. by split.
    + destruct (ss_deadline s); by simplify_eq.
  - destruct exit; [done|]. by apply next_backoff_range.
  - by eapply task_ends_inv.
Qed.

Lemma wreaches_inv name capacity w : wreaches name capacity w → winv w.
Proof.
  induction 1 as [|w w' _ IH Hstep]; [|by eapply wstep_inv].
  split; [|by vm_compute]. split; cbn; try done.
Qed.

(** ** What a worker promises *)

Lemma drop_tasks_stops s job n : ss_tasks (drop_tasks s) !! job = Some n → going (drop_tasks s) n = false.
Proof.
  cbn. intros Ht. assert (n ∈ (map_to_list (ss_tasks s)).*2) as Hn.
  { apply list_elem_of_fmap. exists (job, n). split; [done|]. by apply elem_of_map_to_list. }
  unfold going, drop_tasks. cbn. induction (map_to_list (ss_tasks s)).*2 as [|k l IH]; cbn; [by apply elem_of_nil in Hn|].
  destruct (decide (k = n)) as [->|Hne].
  - rewrite list_lookup_alter_eq. destruct (_ !! n) as [r|]; cbn; [apply abort_run_frame|done].
  - rewrite list_lookup_alter_ne by done. apply IH. set_solver.
Qed.

(** A worker that has exited waits for none of its tasks. *)
Lemma exited_worker_is_done name capacity w :
  wreaches name capacity w → ws_phase w = Exited → ∀ job n, ss_tasks (ws_session w) !! job = Some n → going (ws_session w) n = false.
Proof.
  induction 1 as [|w w' _ _ Hstep]; intros Hph; [done|].
  destruct Hstep as [s backoff sent dropped d ok s' out r E|s backoff sent dropped ev s' out drop f E
    |s backoff sent dropped p s' exit E|ph s backoff sent dropped n race s' Hne E]; cbn in Hph |- *.
  - by destruct r.
  - rewrite Hph. apply drop_tasks_stops.
  - destruct exit; [apply drop_tasks_stops|done].
  - done.
Qed.

Lemma tasks_in_flight_spec s job : job ∈ tasks_in_flight s ↔ is_Some (ss_tasks s !! job).
Proof.
  unfold tasks_in_flight. rewrite list_elem_of_fmap. split.
  - intros ([k n] & -> & Hk%elem_of_map_to_list). by exists n.
  - intros [n Hn]. exists (job, n). split; [done|]. by apply elem_of_map_to_list.
Qed.

(** C20: A worker loses no report.  In every state a worker can reach: the reports
    of the tasks that ended are, each exactly once, waiting in the backlog, sent
    on a stream, or dropped because the backlog was full; a Hello lists, without
    repetition, exactly the jobs whose task is still going, save tasks whose job
    was assigned again; and when it is the drain poll that ends the process, no
    such task is going and every report has been sent or dropped.  A drain that
    ends otherwise, at its deadline, while waiting to reconnect or with its stream
    closed, can leave reports in the backlog, which are then lost
    ([drained_worker_drops_its_last_report]). *)
Theorem worker_loses_no_report name capacity w :
  wreaches name capacity w →
  let s := ws_session w in
  reports_of (ss_runs s) ≡ₚ ss_results s ++ reports_in (ws_sent w) ++ ws_dropped w ∧
  NoDup (tasks_in_flight (prune s)) ∧
  (∀ job, job ∈ tasks_in_flight (prune s) →
     ∃ n r, ss_runs s !! n = Some r ∧ rn_job r = job ∧ is_going r = true) ∧
  (∀ n r, ss_runs s !! n = Some r → is_going r = true →
     rn_job r ∈ tasks_in_flight (prune s) ∨ superseded (ss_runs s) n r) ∧
  (∀ s' out drop, serve s DrainPoll = (s', out, drop, Return Drained) →
     ss_draining s = true ∧ reports_of (ss_runs s) ≡ₚ reports_in (ws_sent w) ++ ws_dropped w ∧
     ∀ n r, ss_runs s !! n = Some r → is_going r = true → superseded (ss_runs s) n r).
Proof.
  intros Hr s. destruct (wreaches_inv _ _ _ Hr) as [[H1 H2 H3 H4 H5] _]. fold s in H1, H2, H3, H4, H5.
  assert (∀ n r, ss_runs s !! n = Some r → is_going r = true →
            ss_tasks (prune s) !! rn_job r = Some n ∨ superseded (ss_runs s) n r) as Hgo.
  { intros n r Hn Hg. destruct (H2 n r Hn Hg) as [Ht|?]; [|by right]. left.
    apply map_lookup_filter_Some. split; [done|]. unfold going. cbn. by rewrite Hn. }
  split; [done|]. split; [apply NoDup_fst_map_to_list|]. split; [|split].
  - intros job [n Hn]%tasks_in_flight_spec. apply map_lookup_filter_Some in Hn as [Ht Hg]. cbn in Hg.
    destruct (H1 _ _ Ht) as (r & Er & Ej). exists n, r. unfold going in Hg. by rewrite Er in Hg.
  - intros n r Hn Hg. destruct (Hgo n r Hn Hg) as [Ht|?]; [|by right]. left. apply tasks_in_flight_spec. by exists n.
  - intros s' out drop E. unfold serve in E. destruct (ss_draining s); [|done]. cbn [negb] in E.
    destruct (bool_decide_reflect (ss_tasks (prune s) = ∅)) as [He|]; [|done].
    destruct (bool_decide_reflect (ss_results (prune s) = [])) as [Hb|]; [|done].
    change (ss_results (prune s)) with (ss_results s) in Hb. split; [done|]. split; [by rewrite H4, Hb|].
    intros n r Hn Hg. destruct (Hgo n r Hn Hg) as [Ht|?]; [|done]. by rewrite He in Ht.
Qed.

(** How the end of a task reaches the engine through the worker service: only a
    normal return completes the job, an error or a killed straggler after a stop
    request counts as an eviction, and a cancelled executor is silent. *)
Lemma task_outcome_command slot job race :
  (run_task race).1 ≫= (fun r => message_command slot (Some (report job r))) =
  match race with
  | InTime (Some JoinedOk) | StopFirst (Some JoinedOk) => Some (Command.Completed job)
  | StopFirst (Some JoinedErr) | StopFirst None => Some (Command.Preempted job)
  | InTime (Some JoinedCancelled) | StopFirst (Some JoinedCancelled) => None
  | _ => Some (Command.Failed job)
  end.
Proof. by destruct race as [[[]|]|[[]|]]. Qed.

(** Command payloads.  Decoding what [command_payload] encoded gives the
    arguments back, whatever the lossy conversion does to invalid text, as long
    as it leaves these arguments alone and none contains a NUL; the one exception
    is a lone empty argument, which becomes an empty command. *)
Theorem command_payload_roundtrip lossy argv :
  Forall (free_of 0) argv → Forall (fun a => lossy a = a) argv →
  parse_command_payload lossy (command_payload argv) = if bool_decide (argv = [[]]) then [] else argv.
Proof.
  intros Hn Hl. unfold parse_command_payload, command_payload. case_bool_decide as He; [by subst|].
  assert (join_on 0 argv = [] → argv = []) as Hj.
  { destruct argv as [|a [|b argv]]; [done|cbn; intros ->; done|]. cbn. intros E. by destruct a. }
  assert (map lossy (split_on 0 (join_on 0 argv)) = argv ∨ argv = []) as [E|E]; [| |by subst].
  { destruct (decide (argv = [])) as [|Ha]; [by right|left]. rewrite split_join by done.
    clear -Hl. induction Hl; [done|]. cbn. congruence. }
  destruct (join_on 0 argv); [by rewrite Hj|done].
Qed.

(** ** Witnesses *)

Lemma command_payload_roundtrip_witness :
  let argv := [[101; 99; 104; 111]; []; [104; 105]] in
  parse_command_payload (fun b => b) (command_payload argv) = argv.
Proof.
  cbv zeta. rewrite command_payload_roundtrip.
  - reflexivity.
  - unfold free_of. repeat constructor; set_solver.
  - repeat constructor.
Defined.

Definition demo_assign : Wire.Down := Wire.Assign 7 [1; 2] 1000.

(** A worker that was assigned job 7, which then succeeded, got SIGTERM and sent its report. *)
Lemma demo_worker_reaches :
  ∃ w, wreaches "w" (MkResources 1 1 0) w ∧ ws_phase w = Serving ∧
    ws_session w = MkSession {[7 := 0%nat]} [MkRun 7 (Ended (Some Wire.Succeeded)) false None] [] true true ∧
    reports_in (ws_sent w) = [report 7 Wire.Succeeded] ∧ ws_dropped w = [].
Proof.
  eexists. split.
  { eapply wr_step; [eapply wr_step; [eapply wr_step; [eapply wr_step; [eapply wr_step; [apply wr_start|]|]|]|]|].
    - by eapply (ws_attach _ _ _ _ _ _ (FirstRead (Some (Some (Wire.Welcome 0)))) true).
    - eapply (ws_serve _ _ _ _ _ _ (Read (Some demo_assign))). reflexivity.
    - eapply (ws_task _ _ _ _ _ _ _ 0%nat (InTime (Some JoinedOk))); [done|]. reflexivity.
    - eapply (ws_serve _ _ _ _ _ _ (Sigterm true)). reflexivity.
    - eapply (ws_serve _ _ _ _ _ _ (Result true)). reflexivity. }
  split; [reflexivity|]. split; [reflexivity|]. split; reflexivity.
Qed.

Lemma worker_loses_no_report_witness :
  ∃ w, ss_draining (ws_session w) = true ∧
    reports_of (ss_runs (ws_session w)) ≡ₚ [report 7 Wire.Succeeded] ∧
    tasks_in_flight (prune (ws_session w)) = [].
Proof.
  destruct demo_worker_reaches as (w & Hr & _ & Es & Hrep & Hd). exists w.
  destruct (worker_loses_no_report _ _ w Hr) as (_ & _ & _ & _ & Hpoll). rewrite Es in *.
  destruct (Hpoll _ _ _ eq_refl) as (Hdr & Hall & _). rewrite Hrep, Hd in Hall.
  split; [done|]. split; [exact Hall|reflexivity].
Defined.

(** ** What the worker gets wrong *)

(** A Kill drops the outer task only: the executor it spawned is detached and
    goes on running, with nobody left to report or stop it. *)
Example kill_leaves_the_executor_running :
  let '(s, _, _, _) := serve (on_assign Session_new 7) (Read (Some (Wire.Kill 7))) in
  ss_tasks s = ∅ ∧ ss_runs s = [MkRun 7 Aborted true None].
Proof. by vm_compute. Qed.

(** A draining worker whose stream breaks while it sends its last report keeps the
    report for the next connection, and then exits instead of reconnecting. *)
Example drained_worker_drops_its_last_report :
  let s := MkSession ∅ [MkRun 7 (Ended (Some Wire.Succeeded)) false None] [report 7 Wire.Succeeded] true true in
  let '(s', _, _, f) := serve s (Result false) in
  ss_results s' = [report 7 Wire.Succeeded] ∧ (after_session s' RECONNECT_MIN f).1 = Exited.
Proof. by vm_compute. Qed.

(** A session that ends with a stream error does not reset the delay that earlier
    failed attempts built up. *)
Example failed_session_keeps_backoff s :
  after_session s RECONNECT_MAX Failed = (Waiting, RECONNECT_MAX) ∧
  after_session s RECONNECT_MAX (Return Disconnected) =
    if ss_draining s && bool_decide (ss_tasks s = ∅) then (Exited, RECONNECT_MAX) else (Waiting, RECONNECT_MIN).
Proof. done. Qed.
