(* ===== verification/Rejoin.v ===== *)
(** * A worker comes back

    [Engine::claim], [adopt_running] and the [WorkerJoined] arm of
    [crates/taskerd/src/engine.rs], with the Hello of
    [crates/tasker-worker/src/worker.rs] that causes them.  A worker whose stream
    broke, or whose daemon was restarted, declares the tasks it still runs.  When
    the engine has answered, the two agree: each declared task is bound to the
    worker's slot or about to be killed, and nothing else is bound to it. *)

From stdpp Require Import base strings list gmap numbers option sets relations.
From Stdlib Require Import ZArith Lia.
From S2P Require Import Prelude Domain Arena Job Inventory Priority ReadySet Eligibility.
From S2P Require Import Decay FairShare Pack Backfill Preempt Scheduler Cycle Frame.
From S2P Require Import Codec LogRecord Log Snapshot Store Journal Command Engine EngineInv EngineSteps EngineTick EngineRun EngineWal.
From S2P Require Import Proto Services Worker.
Open Scope Z_scope.
Open Scope list_scope.

(** Everything about the jobs other than [id] is as it was. *)
Record undisturbed (id : JobId) (e e' : Engine) : Prop := {
  un_bound : ∀ x slot, x ≠ id → (bound_to e' slot x ↔ bound_to e slot x);
  un_state : ∀ x, x ≠ id → job_state (eg_jobs e') x = job_state (eg_jobs e) x;
}.

Section Rejoin.
Context (hash : bytes → Z) {Q : Type → Type} `{ArrayQueueLaws Q}.

(** A kill that was pushed is on its way, and so is all that was before. *)
Lemma push_dispatch_outgoing e (w : World Q) d :
  outgoing (push_dispatch e w d).1 (push_dispatch e w d).2 ≡ₚ outgoing e w ++ [d].
Proof.
  unfold push_dispatch, outbox_push, outgoing. destruct (q_push_cases (w_outbox w) d) as [(q & -> & Hq & _)|[-> _]]; cbn.
  - rewrite Hq. solve_Permutation.
  - by rewrite app_assoc.
Qed.

Lemma push_dispatch_keeps e (w : World Q) d :
  eg_running (push_dispatch e w d).1 = eg_running e ∧ eg_jobs (push_dispatch e w d).1 = eg_jobs e ∧
  w_answers (push_dispatch e w d).2 = w_answers w.
Proof. unfold push_dispatch. by destruct (outbox_push _ _) as [? []]. Qed.

(** What one claim of [id] by the worker of [slot] settles. *)
Record settled (slot : SlotIndex) (id : JobId) (e : Engine) (w : World Q) (e' : Engine) (w' : World Q) : Prop := {
  st_fate : bound_to e' slot id ∨ Dispatch.Kill slot id ∈ outgoing e' w';
  st_others : undisturbed id e e';
  st_only : ∀ other, bound_to e' other id → other = slot;
  st_sent : outgoing e w ⊆ outgoing e' w';
  st_answers : w_answers w' = w_answers w;
  st_own : job_state (eg_jobs e') id = job_state (eg_jobs e) id ∨
    (∃ st, job_state (eg_jobs e) id = Some st ∧ occupies_slot st = true) ∧ job_state (eg_jobs e') id = Some JobState.Ready;
}.

(** The job goes back to the queue and its task is killed. *)
Lemma requeue_and_kill e (w : World Q) id slot now j :
  Engine_inv e → is_u64 now → Arena_get (eg_jobs e) id = Some j → occupies_slot (state j) = true →
  id ∉ (rj_job <$> eg_running e) → id ∉ eg_reconciling e →
  ∃ e' w', (let! e := requeue_logged hash e id now in Done (push_dispatch e w (Dispatch.Kill slot id))) = Done (e', w') ∧
    settled slot id e w e' w'.
Proof.
  intros He Hnow Hj Ho Hr Hh. destruct (requeue_logged_ok hash e id now j He Hnow Hj Ho Hr Hh) as (s' & jobs' & jr & -> & _ & Hce).
  cbn [exec_bind]. set (e1 := with_journal (with_sched e s' jobs') jr).
  pose proof (push_dispatch_outgoing e1 w (Dispatch.Kill slot id)) as Ho1.
  destruct (push_dispatch_keeps e1 w (Dispatch.Kill slot id)) as (Er & Ej & Ea).
  destruct (push_dispatch e1 w _) as [e2 w2]. cbn in *. exists e2, w2. split; [done|]. split.
  - right. rewrite Ho1. set_solver.
  - split; [intros x sl _; unfold bound_to; by rewrite Er|]. intros x Hx. rewrite Ej, (ce_after _ _ _ _ _ _ Hce x).
    rewrite decide_False by done. by rewrite decide_False by apply not_elem_of_nil.
  - intros other (r & Hin & Eid & _). rewrite Er in Hin. destruct Hr. rewrite <-Eid. by apply list_elem_of_fmap_2.
  - rewrite Ho1. set_solver.
  - done.
  - right. split; [exists (state j); unfold job_state; by rewrite Hj|]. by rewrite Ej, (ce_after _ _ _ _ _ _ Hce id), decide_True.
Qed.

(** A held job is adopted, or requeued and its task killed. *)
Lemma adopt_settles e (w : World Q) id slot now j e' w' :
  Engine_inv e → is_u64 now → Arena_get (eg_jobs e) id = Some j → state j = JobState.Running →
  id ∉ (rj_job <$> eg_running e) → id ∉ eg_reconciling e →
  adopt_running hash e w id slot now = Done (e', w') → settled slot id e w e' w'.
Proof.
  intros He Hnow Hj Hs Hn Hh E. unfold adopt_running in E. rewrite Hj, bool_decide_eq_true_2 in E by done. cbn [negb] in E.
  destruct (try_allocate _ slot (request j)) as [inv' [[]|err]].
  - injection E as <- <-. split.
    + left. eexists. split; [apply elem_of_app; right; by left|done].
    + split; [|done]. intros x sl Hx. unfold bound_to. cbn. split.
      * intros (r & [Hin| ->%list_elem_of_singleton]%elem_of_app & Eid & Es); [by exists r|done].
      * intros (r & Hin & ? & ?). exists r. split; [apply elem_of_app; by left|done].
    + intros other (r & [Hin| ->%list_elem_of_singleton]%elem_of_app & Eid & Es); [|done].
      destruct Hn. rewrite <-Eid. by apply list_elem_of_fmap_2.
    + done.
    + done.
    + by left.
  - destruct (requeue_and_kill e w id slot now j He Hnow Hj) as (e2 & w2 & E2 & S2); [by rewrite Hs|done|done|].
    rewrite E in E2. by injection E2 as <- <-.
Qed.

(** A bound job changes its slot. *)
Lemma rebind_settles e (w : World Q) pos r slot inv' :
  NoDup (rj_job <$> eg_running e) → eg_running e !! pos = Some r →
  settled slot (rj_job r) e w (with_running (with_inventory e inv')
    (<[pos := MkRunningJob (rj_job r) slot (rj_resources r) (ends_at r)]> (eg_running e))) w.
Proof.
  intros Hnd Hr. set (r' := MkRunningJob (rj_job r) slot (rj_resources r) (ends_at r)).
  pose proof (lookup_lt_Some _ _ _ Hr) as Hlt.
  assert (∀ q, q ∈ <[pos := r']> (eg_running e) → q = r' ∨ (q ∈ eg_running e ∧ rj_job q ≠ rj_job r)) as Hq.
  { intros q [k Hk]%list_elem_of_lookup. destruct (decide (k = pos)) as [->|Hkp].
    - rewrite list_lookup_insert_eq in Hk by done. injection Hk as <-. by left.
    - rewrite list_lookup_insert_ne in Hk by done. right. split; [by eapply list_elem_of_lookup_2|]. intros Eq.
      apply Hkp. eapply NoDup_lookup; [exact Hnd|rewrite list_lookup_fmap, Hk; reflexivity|]. by rewrite list_lookup_fmap, Hr, Eq. }
  split; [| | |done|done|by left].
  - left. exists r'. split; [|done]. apply (list_elem_of_lookup_2 _ pos). by apply list_lookup_insert_eq.
  - split; [|done]. intros x sl Hx. unfold bound_to. cbn. split.
    + intros (q & [->|[Hqi _]]%Hq & Eid & Es); [by rewrite <-Eid in Hx|by exists q].
    + intros (q & Hqi & Eid & Es). apply list_elem_of_lookup in Hqi as [k Hk]. exists q. split; [|done].
      apply (list_elem_of_lookup_2 _ k). rewrite list_lookup_insert_ne; [done|]. intros ->. rewrite Hr in Hk. congruence.
  - by intros other (q & [->|[_ ?]]%Hq & Eid & Es).
Qed.

(** A bound job that does not fit its new slot. *)
Lemma unbind_settles e (w : World Q) pos r slot now running' e' w' :
  Engine_inv e → is_u64 now → eg_running e !! pos = Some r → eg_running e ≡ₚ r :: running' → rj_job r ∉ eg_reconciling e →
  let inv1 := (release (eg_inventory e) (rj_slot r) (rj_resources r)).1 in
  (let! e := requeue_logged hash (with_running (with_inventory e inv1) running') (rj_job r) now in
   Done (push_dispatch e w (Dispatch.Kill slot (rj_job r)))) = Done (e', w') →
  settled slot (rj_job r) e w e' w'.
Proof.
  intros He Hnow Hr Hp Hh inv1 E. destruct (running_inv_cons _ _ _ _ Hp (en_running _ He)) as [Hrv Hn].
  set (e1 := with_running (with_inventory e inv1) running') in *.
  assert (Engine_inv e1) as He1.
  { apply (with_running_inv e running' inv1 He); [|done|rewrite Hp; set_solver].
    eapply (slots_inv_release _ (r :: running')); [|done]. eapply slots_inv_perm; [apply He|done]. }
  destruct (rv_live _ _ (en_running _ He) r (list_elem_of_lookup_2 _ _ _ Hr)) as (j & Hj & Ho & _).
  destruct (requeue_and_kill e1 w (rj_job r) slot now j He1 Hnow Hj Ho Hn Hh) as (e2 & w2 & E2 & [S1 [S2 S2'] S3 S4 S5 S6]).
  rewrite E in E2. injection E2 as <- <-. split; try done. split; [|done]. intros x sl Hx. rewrite (S2 x sl Hx).
  unfold bound_to. cbn. split.
  - intros (q & Hqi & ? & ?). exists q. split; [rewrite Hp; by right|done].
  - intros (q & Hqi & ? & ?). rewrite Hp in Hqi. apply elem_of_cons in Hqi as [->|?]; [congruence|]. by exists q.
Qed.

(** A task nobody waits for. *)
Lemma stray_settles e (w : World Q) id slot :
  (∀ r, r ∈ eg_running e → rj_job r ≠ id) →
  settled slot id e w (push_dispatch e w (Dispatch.Kill slot id)).1 (push_dispatch e w (Dispatch.Kill slot id)).2.
Proof.
  intros Hn. pose proof (push_dispatch_outgoing e w (Dispatch.Kill slot id)) as Ho.
  destruct (push_dispatch_keeps e w (Dispatch.Kill slot id)) as (Er & Ej & Ea). split.
  - right. rewrite Ho. set_solver.
  - split; [intros x sl _; unfold bound_to; by rewrite Er|]. intros x _. by rewrite Ej.
  - intros other (r & Hin & Eid & _). rewrite Er in Hin. by destruct (Hn r Hin).
  - rewrite Ho. set_solver.
  - done.
  - left. by rewrite Ej.
Qed.

Lemma claim_settles e (w : World Q) id slot now e' w' :
  Engine_inv e → is_u64 now → claim hash e w id slot now = Done (e', w') → settled slot id e w e' w'.
Proof.
  intros He Hnow E. unfold claim in E.
  destruct (unhold_spec e id He) as (held' & b & Eu & He1 & Hh & Hb). rewrite Eu in E. cbn [exec_bind] in E. destruct b.
  - pose proof (hv_unbound _ _ _ (en_held _ He) id Hb) as Hn. pose proof (hv_running _ _ _ (en_held _ He) id Hb) as Hs.
    unfold job_state in Hs. destruct (Arena_get (eg_jobs e) id) as [j|] eqn:Hj; [|done]. injection Hs as Hs.
    by destruct (adopt_settles (with_reconciling e held') w id slot now j e' w' He1 Hnow Hj Hs Hn Hh E) as [? [? ?] ? ? ? ?].
  - subst held'. assert (with_reconciling e (eg_reconciling e) = e) as Ee by by destruct e. rewrite Ee in E. clear Ee He1.
    destruct (position _ _) as [pos|] eqn:Ep.
    + apply position_Some in Ep as (r & Hr & <-%Z.eqb_eq & _). rewrite (nth_at_Done _ _ _ Hr) in E. cbn [exec_bind] in E.
      destruct (try_allocate _ slot (rj_resources r)) as [inv' [[]|err]].
      * rewrite nth_put_Done in E by (by eapply lookup_lt_Some). injection E as <- <-. apply rebind_settles; [apply He|done].
      * destruct (swap_remove_Done _ _ _ Hr) as (running' & Esr & Hp). rewrite Esr in E. by eapply unbind_settles.
    + injection E as E. rewrite position_None in Ep.
      assert (settled slot id e w (push_dispatch e w (Dispatch.Kill slot id)).1 (push_dispatch e w (Dispatch.Kill slot id)).2) as S.
      { apply stray_settles. intros r Hr Eid. specialize (Ep r Hr). apply Z.eqb_neq in Ep. done. }
      by rewrite E in S.
Qed.

(** All the claims of a Hello. *)
Lemma claims_settle ids : ∀ e (w : World Q) slot now e' w',
  Engine_inv e → is_u64 now → vec_get (eg_names e) slot ≠ Some None →
  exec_fold (fun ew id => claim hash ew.1 ew.2 id slot now) (e, w) ids = Done (e', w') →
  (∀ id, id ∈ ids → bound_to e' slot id ∨ Dispatch.Kill slot id ∈ outgoing e' w') ∧
  (∀ id, bound_to e' slot id → id ∈ ids ∨ bound_to e slot id) ∧
  (∀ id, id ∉ ids → (∀ other, bound_to e' other id ↔ bound_to e other id) ∧ job_state (eg_jobs e') id = job_state (eg_jobs e) id) ∧
  outgoing e w ⊆ outgoing e' w' ∧ eg_names e' = eg_names e ∧ w_answers w' = w_answers w.
Proof.
  induction ids as [|id ids IH]; intros e w slot now e' w' He Hnow Hname E; cbn [exec_fold] in E.
  { injection E as <- <-. split_and!; try done; [by intros id ?%elem_of_nil|by right]. }
  apply exec_bind_Done in E as ([e1 w1] & E1 & E). cbn [fst snd] in E1.
  destruct (claim_ok hash e w id slot now He Hnow Hname) as (e2 & w2 & E2 & Hok & Hn). rewrite E1 in E2. injection E2 as <- <-.
  pose proof (claim_settles _ _ _ _ _ _ _ He Hnow E1) as [S1 [S2 S2'] S3 S4 S5 S6].
  destruct (IH e1 w1 slot now e' w' (so_inv _ _ _ Hok) Hnow) as (I1 & I2 & I3 & I4 & I5 & I6); [by rewrite Hn|done|].
  split; [|split; [|split; [|split; [by etrans|split; congruence]]]].
  - intros x [->|Hx]%elem_of_cons; [|by apply I1]. destruct (decide (id ∈ ids)) as [Hin|Hin]; [by apply I1|].
    destruct S1 as [Hb|Hk]; [left; by apply (I3 id Hin)|right; by apply I4].
  - intros x [Hx|Hx]%I2; [left; by right|]. destruct (decide (x = id)) as [->|Hne]; [left; by left|]. right. by apply (S2 x slot Hne).
  - intros x [Hne Hx]%not_elem_of_cons. destruct (I3 x Hx) as [Hb Hs]. split; [|by rewrite Hs; apply S2'].
    intros other. rewrite (Hb other). by apply S2.
Qed.
(** The slot a joining worker is given has nothing on it. *)
Lemma join_slot_unbound e cap inv slot id :
  Engine_inv e →
  (match find_vacant (eg_inventory e) 0 (eg_names e) with
   | Some slot => Done ((set_capacity (eg_inventory e) slot cap).1, slot)
   | None => push_slot (eg_inventory e) cap
   end) = Done (inv, slot) → ¬ bound_to e slot id.
Proof.
  intros He E. destruct (find_vacant _ _ _) as [i|] eqn:Ef.
  - injection E as _ <-. apply find_vacant_spec in Ef as (k & Hk & ->). apply vacant_unbound; [done|].
    rewrite vec_get_lookup by lia. by rewrite Nat2Z.id.
  - unfold push_slot in E. rewrite length_app in E. apply exec_bind_Done in E as (k & Ek & [= _ ->]). unfold u32_from_usize in Ek.
    destruct (_ <=? _); [|done]. injection Ek as <-. intros (r & Hr & _ & Hs).
    destruct (sv_bound _ _ _ (en_slots _ He) r Hr) as [sl Hsl]. apply vec_get_range in Hsl. lia.
Qed.

(** C10: A worker with the tasks of [s] (re)connects and its Hello finds room in
    the inbox.  Once the engine has handled the command it pushed, the worker has
    been told its slot, and the two sides agree about it: every task the worker
    still runs is bound to that slot or a kill for it is on its way there, and a job
    bound to that slot is a task the worker runs.  Jobs it did not mention keep their
    state and their slot, and nothing that was on its way is lost. *)
Theorem reattached_worker_agrees e (w : World Q) (inbox : Q Command) name cap s reply now :
  Engine_inv e → is_u64 now → Resources_wf cap → Z.of_nat (length (worker_slots (eg_inventory e))) < u32_max →
  room inbox 1 →
  ∃ inbox' e' w' slot,
    attach_hello inbox (Message (Some (hello name cap s))) reply = (inbox', Ok tt) ∧
    q_items inbox' = q_items inbox ++ [Command.WorkerJoined name cap (tasks_in_flight s) reply] ∧
    handle hash e w (Command.WorkerJoined name cap (tasks_in_flight s) reply) now = Done (e', w') ∧
    w_answers w' = w_answers w ++ [Answer.Joined reply slot] ∧
    vec_get (eg_names e') slot = Some (Some name) ∧
    (∀ id, is_Some (ss_tasks s !! id) → bound_to e' slot id ∨ Dispatch.Kill slot id ∈ outgoing e' w') ∧
    (∀ id, bound_to e' slot id → is_Some (ss_tasks s !! id)) ∧
    (∀ id, ss_tasks s !! id = None →
       (∀ other, bound_to e' other id ↔ bound_to e other id) ∧ job_state (eg_jobs e') id = job_state (eg_jobs e) id) ∧
    outgoing e w ⊆ outgoing e' w'.
Proof.
  intros He Hnow Hc Hlen Hroom. unfold attach_hello, hello. cbn [Wire.hl_capacity Wire.hl_name Wire.hl_in_flight ok_or].
  rewrite resources_roundtrip by done.
  destruct (control_push_cases inbox (Command.WorkerJoined name cap (tasks_in_flight s) reply)) as [(inbox' & -> & Hi)|[_ ?]]; [|done].
  cbn [handle]. unfold on_worker_joined.
  destruct (join_slot e cap name He Hc Hlen) as (inv & slot & names' & Ej & Ep & Hs & Hn).
  pose proof (fun id => join_slot_unbound e cap inv slot id He Ej) as Hfree. rewrite Ej. cbn [exec_bind].
  simpl (eg_names (with_inventory e inv)). rewrite Ep. cbn [exec_bind]. set (e1 := with_names (with_inventory e inv) names').
  assert (Engine_inv e1) as He1 by (destruct He; by split).
  assert (vec_get (eg_names e1) slot ≠ Some None) as Hn1 by (simpl; by rewrite Hn).
  destruct (claims_ok hash e1 w (tasks_in_flight s) slot now He1 Hnow Hn1) as (e' & w' & E & _).
  destruct (claims_settle _ e1 w slot now e' w' He1 Hnow Hn1 E) as (C1 & C2 & C3 & C4 & C5 & C6).
  rewrite E. cbn [exec_bind]. exists inbox', e', (answer w' (Answer.Joined reply slot)), slot.
  do 3 (split; [done|]). split; [simpl; by rewrite C6|]. split; [by rewrite C5|].
  split; [intros id Hid; by apply C1, tasks_in_flight_spec|]. split; [|split; [|done]].
  - intros id [Hin|Hb]%C2; [by apply tasks_in_flight_spec|]. by destruct (Hfree id).
  - intros id Hid. apply C3. rewrite tasks_in_flight_spec, Hid. by intros [? ?].
Qed.
End Rejoin.

(** A worker that runs job 0 and a task 9 nobody knows reconnects before the
    daemon has noticed that its first stream broke. *)
Definition demo_session : Session :=
  MkSession (<[0 := 0%nat]> {[9 := 1%nat]}) [MkRun 0 Going true None; MkRun 9 Going true None] [] false false.

Lemma reattached_worker_agrees_witness :
  ∃ e' w' slot,
    handle crc32 demo_ticked.1.1 demo_ticked.1.2
      (Command.WorkerJoined "w0" (MkResources 2000 4096 0) (tasks_in_flight demo_session) 7) 30 = Done (e', w') ∧
    list.last (w_answers w') = Some (Answer.Joined 7 slot) ∧ slot = 1 ∧
    eg_running e' = [MkRunningJob 0 1 (MkResources 500 1024 0) 60000000020] ∧ Dispatch.Kill slot 9 ∈ outgoing e' w'.
Proof.
  assert (Engine_inv demo_ticked.1.1) as He
    by (exact (proj1 (reaches_inv _ _ _ _ _ _ demo_daemon_config_ok demo_ticked_reaches))).
  destruct (reattached_worker_agrees crc32 (Q := ListQueue) demo_ticked.1.1 demo_ticked.1.2 (8, []) "w0" (MkResources 2000 4096 0)
    demo_session 7 30 He) as (inbox' & e' & w' & slot & _ & _ & E & Ha & _ & Hall & _).
  { unfold is_u64. lia. }
  { unfold Domain.Resources_wf, is_u32, is_u64, is_u8. cbn. lia. }
  { vm_compute. reflexivity. }
  { unfold room. cbn. lia. }
  exists e', w', slot. split; [exact E|]. vm_compute in E. injection E as <- <-. cbn in Ha. injection Ha as <-.
  split; [reflexivity|]. split; [reflexivity|]. split; [reflexivity|].
  destruct (Hall 9) as [(r & Hr & Eid & _)|?]; [by exists 1%nat| |done].
  apply list_elem_of_singleton in Hr as ->. done.
Defined.
