(* ===== verification/Causes.v ===== *)
(** * Why jobs move

    The command handlers and the tick of [crates/taskerd/src/engine.rs] against an
    abstract life of a job: which command, or which pass of the tick, may take a job
    from which state to which.  A job is finished only by a report that it
    completed or failed, by a cancellation, or by the end of a job it waits for. *)

From stdpp Require Import base strings list gmap numbers option sets.
From Stdlib Require Import ZArith Lia.
From S2P Require Import Prelude Domain Arena Job Inventory Priority ReadySet Eligibility.
From S2P Require Import Decay FairShare Pack Backfill Preempt Scheduler Cycle Frame.
From S2P Require Import Codec LogRecord Log Snapshot Store Journal Command Engine EngineInv EngineSteps EngineTick EngineRun Metrics EngineWal.
From S2P Require Import Proto Services Worker Rejoin.
Open Scope Z_scope.
Open Scope list_scope.

(** ** The abstract life of a job *)

(** [reason e c x a b]: command [c], handled by [e], may take job [x] from [a] to [b]. *)
Inductive reason (e : Engine) : Command → JobId → JobState → JobState → Prop :=
| rs_cancelled id reply st : is_terminal st = false → reason e (Command.Cancel id reply) id st JobState.Cancelled
| rs_cancel_cascades id reply x : reason e (Command.Cancel id reply) x JobState.Blocked JobState.Cancelled
| rs_completed id st : occupies_slot st = true → reason e (Command.Completed id) id st JobState.Completed
| rs_wakes id x : reason e (Command.Completed id) x JobState.Blocked JobState.Ready
| rs_failed id st : occupies_slot st = true → reason e (Command.Failed id) id st JobState.Failed
| rs_fail_cascades id x : reason e (Command.Failed id) x JobState.Blocked JobState.Cancelled
| rs_evicted id : reason e (Command.Preempted id) id JobState.Preempted JobState.Ready
| rs_not_held name cap ids reply x st :
    x ∈ ids → occupies_slot st = true → reason e (Command.WorkerJoined name cap ids reply) x st JobState.Ready
| rs_lost slot x st :
    bound_to e slot x → eg_quiescing e = false → occupies_slot st = true → reason e (Command.WorkerLeft slot) x st JobState.Ready.

(** What a tick at [now] may do to a job. *)
Inductive tick_reason (e : Engine) (now : VirtualTime) : JobId → JobState → JobState → Prop :=
| tr_started x : tick_reason e now x JobState.Ready JobState.Running
| tr_evicted x : tick_reason e now x JobState.Running JobState.Preempted
| tr_started_evicted x : tick_reason e now x JobState.Ready JobState.Preempted
| tr_unclaimed x :
    x ∈ eg_reconciling e → reconcile_deadline e now <= now → tick_reason e now x JobState.Running JobState.Ready.

(** Every job stays, in its state or in one [P] lets it reach. *)
Definition moves (P : JobId → JobState → JobState → Prop) (e e' : Engine) : Prop :=
  ∀ x st, job_state (eg_jobs e) x = Some st → ∃ st', job_state (eg_jobs e') x = Some st' ∧ (st' = st ∨ P x st st').

Definition no_new (e e' : Engine) : Prop := ∀ x, job_state (eg_jobs e) x = None → job_state (eg_jobs e') x = None.

Lemma moves_same P e e' : eg_jobs e' = eg_jobs e → moves P e e' ∧ no_new e e'.
Proof. intros E. unfold moves, no_new. rewrite E. split; [intros x st Hx; exists st; auto|done]. Qed.

Lemma moves_trans P e e1 e2 :
  (∀ x a b c, P x a b → P x b c → P x a c) → moves P e e1 ∧ no_new e e1 → moves P e1 e2 ∧ no_new e1 e2 → moves P e e2 ∧ no_new e e2.
Proof.
  intros HP [M1 N1] [M2 N2]. split; [|intros x Hx; by apply N2, N1]. intros x st Hx. destruct (M1 x st Hx) as (st1 & H1 & C1).
  destruct (M2 x st1 H1) as (st2 & H2 & C2). exists st2. split; [done|]. destruct C1 as [->|C1], C2 as [->|C2]; eauto.
Qed.

Lemma moves_weaken (P P' : JobId → JobState → JobState → Prop) e e' :
  (∀ x a b, job_state (eg_jobs e) x = Some a → P x a b → P' x a b) → moves P e e' → moves P' e e'.
Proof. intros HP Hm x st Hx. destruct (Hm x st Hx) as (st' & H' & C). exists st'. split; [done|]. destruct C; [by left|right; eauto]. Qed.

(** A lifecycle call. *)
Lemma effect_moves e e' id j st l st' :
  Arena_get (eg_jobs e) id = Some j → call_effect (eg_jobs e) id st l st' (eg_jobs e') →
  moves (fun x a b => (x = id ∧ a = state j ∧ b = st) ∨ (x ∈ l ∧ a = JobState.Blocked ∧ b = st')) e e' ∧ no_new e e'.
Proof.
  intros Hj [_ Ha Hb]. split.
  - intros x a Hx. rewrite (Ha x). destruct (decide (x = id)) as [->|Hne].
    + exists st. split; [done|]. right. left. unfold job_state in Hx. rewrite Hj in Hx. by injection Hx as <-.
    + destruct (decide (x ∈ l)) as [Hin|Hin]; [|exists a; by auto]. exists st'. split; [done|]. right. right.
      specialize (Hb x Hin). rewrite Hx in Hb. by injection Hb as ->.
  - intros x Hx. rewrite (Ha x), decide_False, decide_False; [done|intros Hin; specialize (Hb x Hin); congruence|].
    intros ->. unfold job_state in Hx. by rewrite Hj in Hx.
Qed.

Section Causes.
Context (hash : bytes → Z) {Q : Type → Type} `{ArrayQueueLaws Q}.

Lemma record_jobs e r e' : record hash e r = Done e' → eg_jobs e' = eg_jobs e.
Proof.
  unfold record. destruct (eg_journal e); [|by intros [= <-]]. intros E. apply exec_bind_Done in E as (j1 & _ & E). by injection E as <-.
Qed.

Lemma answer_durably_jobs e (w : World Q) a : eg_jobs (answer_durably e w a).1 = eg_jobs e.
Proof. unfold answer_durably. by destruct (eg_journal e). Qed.

(** ** Reports *)

Lemma completed_moves e id now e' :
  Engine_inv e → is_u64 now → on_completed_report hash e id now = Done e' →
  moves (reason e (Command.Completed id)) e e' ∧ no_new e e'.
Proof.
  intros He Hnow E. unfold on_completed_report in E.
  destruct (take_off_spec e id He) as (running' & inv' & held' & b & Et & He1 & Hn & Hh & Hb). rewrite Et in E. cbn [exec_bind] in E.
  set (e1 := with_reconciling (with_inventory (with_running e running') inv') held') in *. destruct b; [|injection E as <-; by apply moves_same].
  destruct Hb as (j & Hj & Ho).
  destruct (completed_done (eg_scheduler e1) (eg_jobs e1) id j now (cycle_config e1) (en_sched _ He1)
    (eo_cycle _ (en_config _ He1)) Hnow Hj Ho) as (p & s' & jobs' & Ec & _ & Hce & _).
  unfold lift_call in E. rewrite Ec in E. cbn [exec_bind] in E. apply exec_bind_Done in E as (e2 & E2%record_jobs & [= <-]).
  destruct (effect_moves e (note_terminal e2 id now) id j JobState.Completed p JobState.Ready Hj) as [M N]; [cbn; by rewrite E2|].
  split; [|done]. eapply moves_weaken; [|exact M]. intros x a c _ [(-> & -> & ->)|(_ & -> & ->)]; by constructor.
Qed.

Lemma failed_moves e id now e' :
  Engine_inv e → is_u64 now → on_failed_report hash e id now = Done e' →
  moves (reason e (Command.Failed id)) e e' ∧ no_new e e'.
Proof.
  intros He Hnow E. unfold on_failed_report in E.
  destruct (take_off_spec e id He) as (running' & inv' & held' & b & Et & He1 & Hn & Hh & Hb). rewrite Et in E. cbn [exec_bind] in E.
  set (e1 := with_reconciling (with_inventory (with_running e running') inv') held') in *. destruct b; [|injection E as <-; by apply moves_same].
  destruct Hb as (j & Hj & Ho).
  destruct (failed_done (eg_scheduler e1) (eg_jobs e1) id j now (cycle_config e1) (en_sched _ He1)
    (eo_cycle _ (en_config _ He1)) Hnow Hj Ho) as (C & s' & jobs' & Ec & _ & Hce & _).
  unfold lift_call in E. rewrite Ec in E. cbn [exec_bind] in E. apply exec_bind_Done in E as (e2 & E2%record_jobs & [= <-]).
  rewrite note_all_terminal_eq.
  edestruct (effect_moves e) as [M N]; [exact Hj|cbn; rewrite E2; exact Hce|].
  split; [|done]. eapply moves_weaken; [|exact M]. intros x a c _ [(-> & -> & ->)|(_ & -> & ->)]; by constructor.
Qed.

Lemma preempted_moves e id now e' :
  Engine_inv e → is_u64 now → on_preempted_report hash e id now = Done e' →
  moves (reason e (Command.Preempted id)) e e' ∧ no_new e e'.
Proof.
  intros He Hnow E. unfold on_preempted_report in E.
  destruct (take_off_spec e id He) as (running' & inv' & held' & b & Et & He1 & Hn & Hh & Hb). rewrite Et in E. cbn [exec_bind] in E.
  set (e1 := with_reconciling (with_inventory (with_running e running') inv') held') in *. destruct b; [|injection E as <-; by apply moves_same].
  destruct Hb as (j & Hj & Ho). change (eg_jobs e) with (eg_jobs e1) in Hj. unfold lift_call in E.
  destruct (decide (state j = JobState.Preempted)) as [Hp|Hp].
  - destruct (on_preempted_done (eg_scheduler e1) (eg_jobs e1) id j now (cycle_config e1) (en_sched _ He1)
      (eo_cycle _ (en_config _ He1)) Hnow Hj Hp) as (s' & jobs' & Ec & _ & Hce & _).
    rewrite Ec in E. cbn [exec_bind] in E. apply record_jobs in E.
    destruct (effect_moves e e' id j JobState.Ready [] JobState.Ready Hj) as [M N]; [by rewrite E|].
    split; [|done]. eapply moves_weaken; [|exact M]. intros x a c _ [(-> & -> & ->)|(?%elem_of_nil & _)]; [|done]. rewrite Hp. constructor.
  - unfold on_preempted in E. rewrite Hj, bool_decide_eq_false_2 in E by done. cbn in E. injection E as <-. by apply moves_same.
Qed.

(** ** Clients *)

Lemma cancel_moves e (w : World Q) id reply now e' w' :
  Engine_inv e → is_u64 now → on_cancel hash e w id reply now = Done (e', w') →
  moves (reason e (Command.Cancel id reply)) e e' ∧ no_new e e'.
Proof.
  intros He Hnow E. unfold on_cancel in E.
  destruct (release_job_spec e id He) as (running' & inv' & o & Er & He1 & Hn & Ho). rewrite Er in E. cbn [exec_bind] in E.
  destruct (unhold_spec _ id He1) as (held' & b & Eu & He2 & Hh & _). rewrite Eu in E. cbn [exec_bind] in E.
  set (e1 := with_reconciling (with_inventory (with_running e running') inv') held') in *. unfold lift_call in E.
  apply exec_bind_Done in E as ([e2 r] & E2 & E). apply exec_bind_Done in E2 as ([[s' jobs'] r'] & Ec & [= <- <-]).
  apply exec_bind_Done in E as (e3 & E3 & E).
  assert (eg_jobs e3 = jobs') as Ej3.
  { destruct r' as [C|err]; [|by injection E3 as <-]. apply exec_bind_Done in E3 as (e4 & E4%record_jobs & [= <-]).
    rewrite note_all_terminal_eq. exact E4. }
  assert (eg_jobs e' = jobs') as Ej.
  { rewrite <-Ej3. destruct r' as [C|err], o as [slot|]; try (injection E as E; apply (f_equal (eg_jobs ∘ fst)) in E; cbn in E;
      by rewrite answer_durably_jobs in E).
    destruct (push_dispatch e3 w (Dispatch.Kill slot id)) as [e5 w5] eqn:E5. injection E as E. apply (f_equal (eg_jobs ∘ fst)) in E. cbn in E.
    rewrite answer_durably_jobs in E. rewrite <-E. apply (f_equal (eg_jobs ∘ fst)) in E5. cbn in E5. rewrite <-E5.
    apply push_dispatch_keeps. }
  destruct (Arena_get (eg_jobs e1) id) as [j|] eqn:Hj; [destruct (is_terminal (state j)) eqn:Ht|].
  - apply moves_same. rewrite Ej. unfold cancel in Ec. rewrite Hj, bool_decide_eq_false_2 in Ec by (by intros Es; rewrite Es in Ht).
    cbn [exec_bind] in Ec. rewrite refused in Ec by (by destruct (state j)). by injection Ec as _ <- _.
  - destruct (cancel_done (eg_scheduler e1) (eg_jobs e1) id j now (cycle_config e1) (en_sched _ He2)
      (eo_cycle _ (en_config _ He2)) Hnow Hj Ht) as (C & s2 & jobs2 & Ec' & _ & Hce & _). rewrite Ec in Ec'. injection Ec' as <- <- ->.
    destruct (effect_moves e e' id j JobState.Cancelled C JobState.Cancelled Hj) as [M N]; [by rewrite Ej|].
    split; [|done]. eapply moves_weaken; [|exact M]. intros x a c _ [(-> & -> & ->)|(_ & -> & ->)]; by constructor.
  - apply moves_same. rewrite Ej. unfold cancel in Ec. rewrite Hj in Ec. by injection Ec as _ <- _.
Qed.

(** A submission moves no job; a new one is waiting, ready or doomed. *)
Lemma submit_moves e (w : World Q) job reply now e' w' :
  Engine_inv e → is_u64 now → submit_ok job → arena_room (eg_jobs e) → on_submit hash e w job reply now = Done (e', w') →
  moves (reason e (Command.Submit job reply)) e e' ∧
  ∀ x st, job_state (eg_jobs e) x = None → job_state (eg_jobs e') x = Some st → st = JobState.Blocked ∨ st = JobState.Ready ∨ st = JobState.Cancelled.
Proof.
  intros He Hnow Hk Hroom E. destruct (on_submit_spec hash e w job reply now He Hnow Hk Hroom) as (id & _ & Hnone & Hr).
  destruct (check_submit id job (eg_jobs e)) as [rd|err].
  - destruct Hr as (e1 & Es & _ & Hget). rewrite Es in E. injection E as E.
    assert (eg_jobs e' = eg_jobs e1) as Ej by (rewrite <-(answer_durably_jobs e1 w (Answer.Submit reply (Ok (id, readiness_state rd)))); by rewrite E).
    split.
    + intros x st Hx. exists st. split; [|by left]. unfold job_state in *. rewrite Ej, Hget, decide_False; [done|]. intros <-. by rewrite Hnone in Hx.
    + intros x st Hx. unfold job_state in *. rewrite Ej, Hget. case_decide; [|congruence]. cbn. intros [= <-]. destruct rd; auto.
  - rewrite Hr in E. injection E as <- <-. split; [by apply moves_same|]. intros x st -> ?. done.
Qed.

(** ** Workers *)

Lemma left_moves e slot now e' :
  Engine_inv e → is_u64 now → evict_slot hash e slot now = Done e' →
  moves (reason e (Command.WorkerLeft slot)) e e' ∧ no_new e e'.
Proof.
  intros He Hnow E. destruct (evict_slot_ok hash e slot now He Hnow) as (e1 & E1 & _ & _ & _ & Hst). rewrite E in E1. injection E1 as <-.
  assert (∀ x, x ∈ rj_job <$> List.filter (fun r => rj_slot r =? slot) (eg_running e) →
    bound_to e slot x ∧ ∃ j, Arena_get (eg_jobs e) x = Some j ∧ occupies_slot (state j) = true) as Hb.
  { intros x (r & -> & [Hr Hs%Z.eqb_eq]%elem_of_List_filter)%list_elem_of_fmap. split; [by exists r|].
    destruct (rv_live _ _ (en_running _ He) r Hr) as (j & ? & ? & _). by exists j. }
  split.
  - intros x st Hx. specialize (Hst x). case_decide as Hc; [|exists st; rewrite Hst; by auto]. destruct Hc as [Hq Hin]. exists JobState.Ready. split; [done|]. right.
    destruct (Hb x Hin) as (? & j & Hj & Ho). unfold job_state in Hx. rewrite Hj in Hx. injection Hx as <-. by constructor.
  - intros x Hx. rewrite Hst. rewrite decide_False; [done|]. intros Hc. destruct (Hb x (proj2 Hc)) as (_ & j & Hj & _). unfold job_state in Hx. by rewrite Hj in Hx.
Qed.

Lemma claims_move ids slot now name cap reply all : ∀ e0 e (w : World Q) e' w',
  (∀ x, x ∈ ids → x ∈ all) → Engine_inv e → is_u64 now → vec_get (eg_names e) slot ≠ Some None →
  exec_fold (fun ew id => claim hash ew.1 ew.2 id slot now) (e, w) ids = Done (e', w') →
  moves (reason e0 (Command.WorkerJoined name cap all reply)) e e' ∧ no_new e e'.
Proof.
  induction ids as [|id ids IH]; intros e0 e w e' w' Hall He Hnow Hname E; cbn [exec_fold] in E.
  { injection E as <- <-. by apply moves_same. }
  apply exec_bind_Done in E as ([e1 w1] & E1 & E). cbn [fst snd] in E1.
  destruct (claim_ok hash e w id slot now He Hnow Hname) as (e2 & w2 & E2 & Hok & Hn). rewrite E1 in E2. injection E2 as <- <-.
  pose proof (claim_settles hash _ _ _ _ _ _ _ He Hnow E1) as [_ [_ S2] _ _ _ S6].
  eapply moves_trans; [|split|eapply IH; [set_solver|apply Hok|done|by rewrite Hn|exact E]].
  - intros x a b c H1 H2. inversion H1; subst. inversion H2; subst. done.
  - intros x st Hx. destruct (decide (x = id)) as [->|Hne]; [|rewrite (S2 x Hne); exists st; by auto].
    destruct S6 as [->|[(st0 & Hst0 & Ho) ->]]; [exists st; by auto|]. eexists. split; [done|]. right. rewrite Hx in Hst0. injection Hst0 as <-.
    constructor; [set_solver|done].
  - intros x Hx. destruct (decide (x = id)) as [->|Hne]; [|by rewrite (S2 x Hne)].
    destruct S6 as [->|[(st0 & Hst0 & Ho) ->]]; [done|congruence].
Qed.

Lemma joined_moves e (w : World Q) name cap ids reply now e' w' :
  Engine_inv e → is_u64 now → Resources_wf cap → Z.of_nat (length (worker_slots (eg_inventory e))) < u32_max →
  on_worker_joined hash e w name cap ids reply now = Done (e', w') →
  moves (reason e (Command.WorkerJoined name cap ids reply)) e e' ∧ no_new e e'.
Proof.
  intros He Hnow Hc Hlen E. unfold on_worker_joined in E.
  destruct (join_slot e cap name He Hc Hlen) as (inv & slot & names' & Ej & Ep & Hs & Hn). rewrite Ej in E. cbn [exec_bind] in E.
  simpl (eg_names (with_inventory e inv)) in E. rewrite Ep in E. cbn [exec_bind] in E. set (e1 := with_names (with_inventory e inv) names') in *.
  assert (Engine_inv e1) as He1 by (destruct He; by split).
  apply exec_bind_Done in E as ([e2 w2] & E2 & E). injection E as <- _.
  exact (claims_move ids slot now name cap reply ids e e1 w e2 w2 (fun _ H => H) He1 Hnow ltac:(cbn; by rewrite Hn) E2).
Qed.

(** ** Commands *)

(** Handling a command moves jobs only as it may. *)
Lemma handle_moves e (w : World Q) c now e' w' :
  Engine_inv e → is_u64 now → command_ok e c → handle hash e w c now = Done (e', w') →
  moves (reason e c) e e' ∧
  ∀ x st, job_state (eg_jobs e) x = None → job_state (eg_jobs e') x = Some st →
    (∃ job reply, c = Command.Submit job reply) ∧ (st = JobState.Blocked ∨ st = JobState.Ready ∨ st = JobState.Cancelled).
Proof.
  intros He Hnow Hc E.
  assert (moves (reason e c) e e' ∧ no_new e e' → moves (reason e c) e e' ∧
    ∀ x st, job_state (eg_jobs e) x = None → job_state (eg_jobs e') x = Some st →
    (∃ job reply, c = Command.Submit job reply) ∧ (st = JobState.Blocked ∨ st = JobState.Ready ∨ st = JobState.Cancelled)) as Hold.
  { intros [M N]. split; [done|]. intros x st Hx%N. congruence. }
  destruct c; cbn in E, Hc; try apply exec_bind_Done in E as (e1 & E1 & [= <- <-]).
  - destruct Hc as [Hk Hroom]. destruct (submit_moves e w job reply now e' w' He Hnow Hk Hroom E) as [M N]. split; [done|].
    intros x st Hx Hx'. split; [by eexists _, _|by eapply N].
  - by eapply Hold, cancel_moves.
  - by eapply Hold, completed_moves.
  - by eapply Hold, failed_moves.
  - by eapply Hold, preempted_moves.
  - destruct Hc. by eapply Hold, joined_moves.
  - by eapply Hold, left_moves.
  - injection E as <- <-. by apply Hold, moves_same.
  - by apply Hold, moves_same.
Qed.

(** ** The tick *)

(** Up to the evictions. *)
Lemma schedule_moves e (w : World Q) now e3 w3 out :
  Engine_inv e → is_u64 now → tick_schedule hash e w now = Done (e3, w3, out) →
  moves (fun _ a b => (a = JobState.Ready ∧ (b = JobState.Running ∨ b = JobState.Preempted)) ∨
                      (a = JobState.Running ∧ b = JobState.Preempted)) e e3 ∧ no_new e e3.
Proof.
  intros He Hnow E. unfold tick_schedule in E. pose proof (flush_overflow_ok hash e w He) as Hf.
  assert (eg_jobs (flush_overflow e w).1 = eg_jobs e) as Ej by (unfold flush_overflow; by destruct (flush_stack _ _)).
  destruct (flush_overflow e w) as [e0 w0]. cbn [fst] in Hf, Ej.
  destruct (cycle_dispatch_ok hash e0 w0 now (so_inv _ _ _ Hf) Hnow)
    as (e1 & ds & out1 & e2 & w2 & B & E1 & E2 & H2 & _ & Hrd & _ & _ & _ & Hmv).
  rewrite E1 in E. cbn [exec_bind] in E. rewrite E2 in E. cbn [exec_bind] in E. apply exec_bind_Done in E as ([e4 w4] & E4 & [= -> -> ->]).
  assert (∃ l, evicts e2 l e3) as [l [_ V2 V3]].
  { destruct (co_head out) as [h|]; [|injection E4 as <- <-; exists []; apply evicts_nil].
    destruct (plan_evictions_counts hash e2 w2 (MkMetrics tt 0 0 0 0 0 ∅ ∅ 0 []) h now e3 w3 (so_inv _ _ _ H2) Hnow E4) as (l & _ & Hl). by exists l. }
  assert (∀ x, job_state (eg_jobs e2) x = if decide (x ∈ dd_job <$> ds) then Some JobState.Running else job_state (eg_jobs e) x) as Hst.
  { intros x. rewrite <-Ej. unfold job_state. rewrite (Hmv x). case_decide as Hx; [|done].
    apply list_elem_of_fmap in Hx as (d & -> & Hd). specialize (Hrd d Hd). unfold job_state in Hrd.
    by destruct (Arena_get (eg_jobs e0) (dd_job d)). }
  assert (∀ x, x ∈ dd_job <$> ds → job_state (eg_jobs e) x = Some JobState.Ready) as Hready.
  { intros x (d & -> & Hd)%list_elem_of_fmap. rewrite <-Ej. by apply Hrd. }
  split.
  - intros x st Hx. rewrite V3, Hst. specialize (V2 x). rewrite Hst in V2. destruct (decide (x ∈ dd_job <$> ds)) as [Hd|Hd].
    + rewrite (Hready x Hd) in Hx. injection Hx as <-. case_decide; eauto 10.
    + case_decide as Hl; [|eauto]. specialize (V2 Hl). rewrite Hx in V2. injection V2 as ->. eauto 10.
  - intros x Hx. rewrite V3, Hst. specialize (V2 x). rewrite Hst in V2. rewrite !decide_False; [done| |];
      [intros Hd; rewrite (Hready x Hd) in Hx; done|]. intros Hl. specialize (V2 Hl). case_decide as Hd; [|congruence].
    rewrite (Hready x Hd) in Hx. done.
Qed.

Lemma expire_waits e now e' : now < reconcile_deadline e now → expire_reconcile hash e now = Done e' → eg_jobs e' = eg_jobs e.
Proof.
  intros Hlt E. unfold expire_reconcile in E. fold (reconcile_deadline e now) in E. destruct (eg_reconciling e); [by injection E as <-|].
  rewrite (proj2 (Z.ltb_lt _ _) Hlt) in E. by injection E as <-.
Qed.

(** The end of a tick forgets finished jobs and gives up waiting for recovered ones. *)
Lemma upkeep_causes e now :
  Engine_inv e → is_u64 now → generations_left e →
  ∃ e6 e7, forget_expired hash e now = Done e6 ∧ expire_reconcile hash e6 now = Done e7 ∧ ∀ x,
    job_state (eg_jobs e7) x = job_state (eg_jobs e) x ∨
    ((∃ st, job_state (eg_jobs e) x = Some st ∧ is_terminal st = true) ∧ job_state (eg_jobs e7) x = None) ∨
    (x ∈ eg_reconciling e ∧ reconcile_deadline e now <= now ∧
     job_state (eg_jobs e) x = Some JobState.Running ∧ job_state (eg_jobs e7) x = Some JobState.Ready).
Proof.
  intros He Hnow Hg. assert (with_terminal e (eg_terminal e) = e) as Ee by by destruct e. unfold forget_expired.
  destruct (forget_loop_ok hash e (eg_terminal e) now) as (jobs6 & jr6 & dropped & rest & Edr & -> & H6 & _ & _ & Hget); [by rewrite Ee|done|].
  rewrite Ee in H6. set (e6 := with_terminal _ rest) in *.
  destruct (expire_reconcile_ok hash e6 now (so_inv _ _ _ H6) Hnow) as (e7 & E7 & _ & _ & X0 & _ & X3).
  exists e6, e7. split; [done|]. split; [done|]. intros x.
  assert (job_state (eg_jobs e6) x = job_state (eg_jobs e) x ∨
    (∃ st, job_state (eg_jobs e) x = Some st ∧ is_terminal st = true) ∧ job_state (eg_jobs e6) x = None) as H06.
  { unfold job_state. cbn. rewrite Hget. case_decide as Hd; [|by left].
    destruct (tv_noted _ _ (en_terminal _ He) x) as [Hf|[Hn _]]; [rewrite Edr, fmap_app; apply elem_of_app; by left|by right|left; by rewrite Hn]. }
  destruct (decide (x ∈ eg_reconciling e)) as [Hx|Hx]; [|by rewrite (X0 x Hx); tauto].
  pose proof (hv_running _ _ _ (en_held _ (so_inv _ _ _ H6)) x Hx) as Hr. pose proof (hv_running _ _ _ (en_held _ He) x Hx) as Hr0.
  destruct (decide (now < reconcile_deadline e now)) as [Hlt|Hge].
  - left. by rewrite (expire_waits e6 now e7 Hlt E7), Hr, Hr0.
  - right. right. split; [done|]. split; [lia|]. split; [done|]. apply X3; [change (reconcile_deadline e now <= now); lia|done].
Qed.

(** A tick forgets finished jobs, starts ready ones, evicts running ones and gives
    up waiting for recovered ones; it does nothing else to a job. *)
Lemma tick_causes e (w : World Q) now e' w' out :
  Engine_inv e → is_u64 now → generations_left e → tick hash e w now = Done (e', w', out) →
  (∀ x st, job_state (eg_jobs e) x = Some st →
     (is_terminal st = true ∧ job_state (eg_jobs e') x = None) ∨
     ∃ st', job_state (eg_jobs e') x = Some st' ∧ (st' = st ∨ tick_reason e now x st st')) ∧
  no_new e e'.
Proof.
  intros He Hnow Hg Et.
  destruct (tick_ok hash e w now He Hnow Hg) as (e7 & w7 & out' & Eb & _ & _ & Et' & _). rewrite Et in Et'. injection Et' as -> -> ->.
  assert (∀ e (w : World Q), eg_jobs (commit_journal e w).1 = eg_jobs e) as Hcj.
  { intros e8 w8. unfold commit_journal. destruct (eg_journal e8); [|done]. by destruct (commit _ _ _) as [[? ?] ?]. }
  unfold no_new. rewrite Hcj. cbn [eg_jobs with_journal]. rewrite tick_body_split in Eb.
  destruct (tick_schedule_ok hash e w now He Hnow) as (e3 & w3 & out3 & Es & H3 & Q1 & Q2 & Q3). rewrite Es in Eb. cbn [exec_bind] in Eb.
  destruct (schedule_moves e w now e3 w3 out3 He Hnow Es) as [M3 N3].
  set (e4 := with_cycles e3 _) in *. assert (Engine_inv e4) as He4 by by destruct H3 as [[] _ _].
  destruct (refresh_demand_spec e4 He4) as [Erd _]. rewrite Erd in Eb. cbn [exec_bind] in Eb. set (e5 := with_demand e4 _) in *.
  assert (reconcile_deadline e5 now = reconcile_deadline e now) as Edl.
  { unfold reconcile_deadline. change (eg_reconcile_until e5) with (eg_reconcile_until e3).
    change (eg_config e5) with (eg_config e3). by rewrite Q3, (so_config _ _ _ H3). }
  destruct (upkeep_causes e5 now) as (e6 & e8 & E6 & E8 & H58); [by destruct He4|done| |].
  { intros p. change (eg_terminal e5) with (eg_terminal e3). rewrite Q1. apply Hg. }
  rewrite E6 in Eb. cbn [exec_bind] in Eb. rewrite E8 in Eb. injection Eb as -> _ _.
  change (eg_jobs e5) with (eg_jobs e3) in H58. change (eg_reconciling e5) with (eg_reconciling e3) in H58. rewrite Q2, Edl in H58.
  split; intros x.
  - intros st Hx. destruct (M3 x st Hx) as (st3 & Hx3 & C3). destruct (H58 x) as [->|[[(st4 & Hx4 & Ht) Hn]|(Hh & Hle & _ & ->)]].
    + right. exists st3. split; [done|]. destruct C3 as [->|[[-> [->| ->]]|[-> ->]]]; [by left|right; constructor..].
    + left. rewrite Hx3 in Hx4. injection Hx4 as <-. destruct C3 as [->|[[-> [->| ->]]|[-> ->]]]; done.
    + right. exists JobState.Ready. split; [done|]. pose proof (hv_running _ _ _ (en_held _ He) x Hh) as Hr. rewrite Hx in Hr. injection Hr as ->.
      right. by constructor.
  - intros Hx%N3. destruct (H58 x) as [->|[[(st4 & Hx4 & Ht) Hn]|(_ & _ & Hr & _)]]; congruence.
Qed.

(** ** Runs *)

(** The engines reached from [e0], with the commands handled on the way. *)
Inductive served (e0 : Engine) : Engine → World Q → list Command → Prop :=
| sd_start w : served e0 e0 w []
| sd_command e w cs c now e' w' :
    served e0 e w cs → command_ok e c → is_u64 now → handle hash e w c now = Done (e', w') → served e0 e' w' (cs ++ [c])
| sd_tick e w cs now e' w' outcome :
    served e0 e w cs → is_u64 now → generations_left e → tick hash e w now = Done (e', w', outcome) → served e0 e' w' cs
| sd_quiesce e w cs b : served e0 e w cs → served e0 (with_quiescing e b) w cs
| sd_world e w cs w' : served e0 e w cs → served e0 e w' cs.

Lemma served_inv e0 e (w : World Q) cs : Engine_inv e0 → served e0 e w cs → Engine_inv e.
Proof.
  intros He0. induction 1 as [w|e w cs c now e' w' _ IH Hc Hnow E|e w cs now e' w' out _ IH Hnow Hg E|e w cs b _ IH|]; try done.
  - destruct (handle_ok hash e w c now IH Hnow Hc) as (e1 & w1 & E1 & Hok). rewrite E in E1. injection E1 as -> ->. apply Hok.
  - destruct (tick_ok hash e w now IH Hnow Hg) as (e3 & w3 & o & _ & _ & _ & E1 & Hi). rewrite E in E1. injection E1 as -> -> ->. exact Hi.
  - by destruct IH.
Qed.

(** The commands that can end job [x]: its own reports, and the failure or the
    cancellation of a job, which may be [x] or one [x] waits for. *)
Definition may_end (x : JobId) (c : Command) : Prop :=
  match c with
  | Command.Completed id => id = x
  | Command.Failed _ | Command.Cancel _ _ => True
  | _ => False
  end.

Lemma reason_ends e c x a b : reason e c x a b → is_terminal b = true → may_end x c.
Proof. by destruct 1. Qed.

Lemma reason_completed e c x a : reason e c x a JobState.Completed → c = Command.Completed x.
Proof. by inversion 1. Qed.

Lemma reason_failed e c x a : reason e c x a JobState.Failed → c = Command.Failed x.
Proof. by inversion 1. Qed.

(** A state that only one command brings about is due to it. *)
Lemma state_has_cause st c e0 e (w : World Q) cs x :
  (∀ e c' a, reason e c' x a st → c' = c) → st = JobState.Completed ∨ st = JobState.Failed →
  Engine_inv e0 → served e0 e w cs → job_state (eg_jobs e) x = Some st → job_state (eg_jobs e0) x = Some st ∨ c ∈ cs.
Proof.
  intros Hr Hst He0. induction 1 as [w|e w cs c' now e' w' Hs IH Hc Hnow E|e w cs now e' w' out Hs IH Hnow Hg E|e w cs b _ IH|]; intros Hx; auto.
  - destruct (handle_moves e w c' now e' w' (served_inv _ _ _ _ He0 Hs) Hnow Hc E) as [M N].
    destruct (job_state (eg_jobs e) x) as [a|] eqn:Ha; [|destruct (N x st Ha Hx); naive_solver].
    destruct (M x a Ha) as (st' & Hx' & C). rewrite Hx in Hx'. injection Hx' as <-. rewrite elem_of_app, list_elem_of_singleton.
    destruct C as [->|C%Hr]; [|auto]. destruct IH; auto.
  - destruct (tick_causes e w now e' w' out (served_inv _ _ _ _ He0 Hs) Hnow Hg E) as [M N].
    destruct (job_state (eg_jobs e) x) as [a|] eqn:Ha; [|by rewrite (N x Ha) in Hx].
    destruct (M x a Ha) as [[_ ?]|(st' & Hx' & C)]; [congruence|]. rewrite Hx in Hx'. injection Hx' as <-.
    destruct C as [->|C]; [by apply IH|]. destruct Hst as [->| ->]; inversion C.
Qed.

(** C13: No job ends without a reason.  Along every run of the engine, from any
    engine with its invariant, over any commands the services let through and any
    ticks: a job that is Completed was reported completed, a job that is Failed was
    reported failed, and a job that had not ended is still there and has not ended,
    unless one of the commands was its report, or the cancellation or the failure of
    a job.  Eviction, the loss of workers, their return and restarts of the window
    move jobs between the states before the end, and lose none. *)
Theorem no_job_ends_without_a_reason e0 e (w : World Q) cs x :
  Engine_inv e0 → served e0 e w cs →
  (job_state (eg_jobs e) x = Some JobState.Completed →
     job_state (eg_jobs e0) x = Some JobState.Completed ∨ Command.Completed x ∈ cs) ∧
  (job_state (eg_jobs e) x = Some JobState.Failed →
     job_state (eg_jobs e0) x = Some JobState.Failed ∨ Command.Failed x ∈ cs) ∧
  (∀ st, job_state (eg_jobs e0) x = Some st → is_terminal st = false →
     (∃ st', job_state (eg_jobs e) x = Some st' ∧ is_terminal st' = false) ∨ ∃ c, c ∈ cs ∧ may_end x c).
Proof.
  intros He0 Hs. split; [|split].
  - eapply (state_has_cause JobState.Completed); [|by left|done|done]. intros e1 c' a. apply reason_completed.
  - eapply (state_has_cause JobState.Failed); [|by right|done|done]. intros e1 c' a. apply reason_failed.
  - intros st0 Hx0 Ht0. induction Hs as [w|e w cs c now e' w' Hs IH Hc Hnow E|e w cs now e' w' out Hs IH Hnow Hg E|e w cs b _ IH|]; eauto.
    + destruct IH as [(st & Hx & Ht)|(c' & Hc' & Hm)]; [|right; exists c'; split; [apply elem_of_app; by left|done]].
      destruct (handle_moves e w c now e' w' (served_inv _ _ _ _ He0 Hs) Hnow Hc E) as [M _].
      destruct (M x st Hx) as (st' & Hx' & C). destruct (is_terminal st') eqn:Ht'; [|by eauto]. right. exists c.
      split; [apply elem_of_app; right; by left|]. destruct C as [->|C]; [congruence|by eapply reason_ends].
    + destruct IH as [(st & Hx & Ht)|?]; [|by auto].
      destruct (tick_causes e w now e' w' out (served_inv _ _ _ _ He0 Hs) Hnow Hg E) as [M _].
      destruct (M x st Hx) as [[? _]|(st' & Hx' & C)]; [congruence|]. left. exists st'. split; [done|].
      destruct C as [->|C]; [done|by inversion C].
Qed.
End Causes.

(** Job 0 was running and was reported completed. *)
Definition demo_done : Engine * World ListQueue :=
  Eval vm_compute in stepped demo_ticked.1 (Command.Completed 0) 30.

Lemma no_job_ends_without_a_reason_witness :
  job_state (eg_jobs demo_done.1) 0 = Some JobState.Completed ∧
  (job_state (eg_jobs demo_ticked.1.1) 0 = Some JobState.Completed ∨ Command.Completed 0 ∈ [Command.Completed 0]).
Proof.
  assert (Engine_inv demo_ticked.1.1) as He
    by (exact (proj1 (reaches_inv _ _ _ _ _ _ demo_daemon_config_ok demo_ticked_reaches))).
  assert (served crc32 demo_ticked.1.1 demo_done.1 demo_done.2 ([] ++ [Command.Completed 0])) as Hs.
  { eapply (sd_command _ _ _ demo_ticked.1.2 _ _ 30); [apply sd_start|done|unfold is_u64; lia|vm_compute; reflexivity]. }
  split; [vm_compute; reflexivity|].
  apply (proj1 (no_job_ends_without_a_reason crc32 (Q := ListQueue) demo_ticked.1.1 demo_done.1 demo_done.2 _ 0 He Hs)).
  vm_compute. reflexivity.
Defined.
