(* ===== verification/Args.v ===== *)
(** * The command lines

    [crates/taskerd/src/main.rs], [crates/tasker-cli/src/main.rs] and
    [crates/tasker-worker/src/main.rs]: what the binaries make of their
    arguments.  An [Args] holds the values as the argument parser hands them
    over, each at the width of its type; the sources' own parsers of classes,
    policies and weights, the daemon's configuration, and the requests and lines
    of the client are translated from the text on. *)

From stdpp Require Import base list numbers option strings gmap fin_maps sets.
From Stdlib Require Import ZArith Lia.
From S2P Require Import Prelude Text Domain Arena Job Inventory Priority ReadySet Eligibility.
From S2P Require Import Decay FairShare Pack Backfill Preempt Scheduler Cycle Frame.
From S2P Require Import Codec LogRecord Log Snapshot Store Journal Command Engine EngineInv EngineSteps EngineTick EngineRun Order Replay Recovery Restart Daemon.
From S2P Require Import Proto Services Worker Metrics.
From Stdlib Require Import Floats.SpecFloat.
Open Scope Z_scope.
Open Scope list_scope.

Module Taskerd.

(** ** [taskerd] *)

(** An unknown name is quoted in the error. *)
Definition parse_class (s : list Z) : result (option PriorityClass) (list Z) :=
  if bool_decide (s = str "off") then Ok None
  else if bool_decide (s = str "low") then Ok (Some PriorityClass.Low)
  else if bool_decide (s = str "normal") then Ok (Some PriorityClass.Normal)
  else if bool_decide (s = str "high") then Ok (Some PriorityClass.High)
  else if bool_decide (s = str "urgent") then Ok (Some PriorityClass.Urgent)
  else Err s.

Definition parse_sync (s : list Z) : result SyncPolicy (list Z) :=
  if bool_decide (s = str "full") then Ok SyncPolicy.Full
  else if bool_decide (s = str "data") then Ok SyncPolicy.Data
  else if bool_decide (s = str "none") then Ok SyncPolicy.NoSync
  else Err s.

Inductive SharesError : Type :=
| ExpectedPair (pair : list Z)
| ParseInt (kind : IntErrorKind).

Definition parse_u32 (s : list Z) : result Z SharesError :=
  match from_str u32_max s with Ok n => Ok n | Err k => Err (ParseInt k) end.

(** One trimmed entry; the account is read first. *)
Definition parse_pair (pair : list Z) : result (Z * Z) SharesError :=
  res_bind (ok_or (split_once 61 pair) (ExpectedPair pair)) (fun '(account, shares) =>
  res_bind (parse_u32 (trim account)) (fun account =>
  res_bind (parse_u32 (trim shares)) (fun shares => Ok (account, shares)))).

(** [collect] into a [Result]: the first error ends it. *)
Fixpoint collect {A B E} (f : A → result B E) (l : list A) : result (list B) E :=
  match l with
  | [] => Ok []
  | a :: l => res_bind (f a) (fun b => res_bind (collect f l) (fun bs => Ok (b :: bs)))
  end.

Definition parse_shares (s : list Z) : result (list (Z * Z)) SharesError :=
  collect parse_pair (List.filter (fun pair => negb (bool_decide (pair = []))) (map trim (split_on 44 s))).

(** The addresses are the transport's alone. *)
Record Args : Type := MkArgs {
  worker_cpu_millis : Z;
  min_workers : Z;
  max_workers : Z;
  half_life_secs : Z;
  ar_shares : option (list Z);
  data_dir : option (list Z);
  wal_sync : SyncPolicy;
  wal_rotate_bytes : Z;
  retain_secs : Z;
  preempt_min_class : option PriorityClass;
  preempt_max : Z;
  preempt_grace_secs : Z;
}.

Record Args_wf (a : Args) : Prop := {
  aw_cpu : is_u32 (worker_cpu_millis a);
  aw_min : is_u32 (min_workers a);
  aw_max : is_u32 (max_workers a);
  aw_half : is_u64 (half_life_secs a);
  aw_rotate : is_u64 (wal_rotate_bytes a);
  aw_retain : is_u64 (retain_secs a);
  aw_preempt : is_u8 (preempt_max a);
  aw_grace : is_u64 (preempt_grace_secs a);
}.

Definition Args_default : Args :=
  MkArgs 4000 1 8 3600 None None SyncPolicy.Data (64 * 2 ^ 20) 300 (Some PriorityClass.Urgent) 3 5.

(** The configuration [main] builds; a [Duration] is not bounded by [u64]. *)
Definition config_of (a : Args) : result DaemonConfig SharesError :=
  res_bind (match ar_shares a with Some s => parse_shares s | None => Ok [] end) (fun shares =>
  let defaults := DaemonConfig_default in
  let cycle := dc_cycle defaults in
  Ok (MkDaemonConfig (dc_drain_budget defaults) (dc_heartbeat_timeout defaults) (worker_cpu_millis a)
        (min_workers a) (max_workers a) shares (retain_secs a * 1000000000)
        (MkCycleConfig (cc_priority cycle) (MkFairShareConfig (duration_from_secs (half_life_secs a)))
           (MkPreemptConfig (preempt_min_class a) (preempt_max a) (duration_from_secs (preempt_grace_secs a)))
           (cc_budget cycle) (max_candidates cycle)))).

Inductive MainError : Type := BadShares (e : SharesError) | BadDaemon (e : DaemonError).

(** [main], up to the threads: [disk] is what each path holds. *)
Definition main (hash : bytes → Z) (disk : list Z → Dir) (a : Args) : exec (result Started MainError) :=
  match config_of a with
  | Err e => Done (Err (BadShares e))
  | Ok config =>
      let! r := start hash config (wal_rotate_bytes a) (disk <$> data_dir a) in
      Done (match r with Ok s => Ok s | Err e => Err (BadDaemon e) end)
  end.

Example default_config : config_of Args_default = Ok DaemonConfig_default.
Proof. vm_compute. reflexivity. Qed.

(** ** The grammar of [--shares] *)

(** [account=shares], blanks allowed around both numbers. *)
Definition entry (s : list Z) (p : Z * Z) : Prop :=
  ∃ w1 w2 w3 w4 a n, blank w1 ∧ blank w2 ∧ blank w3 ∧ blank w4 ∧ numeral a p.1 ∧ numeral n p.2 ∧
    s = w1 ++ a ++ w2 ++ [61] ++ w3 ++ n ++ w4.

(** The entries between the commas; blank ones mean nothing. *)
Inductive entries : list (list Z) → list (Z * Z) → Prop :=
| entries_nil : entries [] []
| entries_blank p parts l : blank p → entries parts l → entries (p :: parts) l
| entries_pair p parts a n l :
    entry p (a, n) → a <= u32_max → n <= u32_max → entries parts l → entries (p :: parts) ((a, n) :: l).

Lemma numeral_tidy s n : numeral s n → tidy s ∧ free_of 61 s ∧ free_of 44 s.
Proof.
  intros [Hc Hne]%numeral_chars. rewrite Forall_forall in Hc.
  assert (∀ c, c ∈ s → is_whitespace c = false ∧ c ≠ 61 ∧ c ≠ 44) as Hs.
  { intros c [->|Hd]%Hc; [done|]. unfold digit, is_whitespace in *. split; [|lia].
    rewrite !orb_false_iff, !andb_false_iff, !Z.leb_gt, !Z.eqb_neq. lia. }
  split; [split|].
  - intros c s' ->. apply Hs. by left.
  - intros c s' ->. apply Hs, elem_of_app. right. by left.
  - unfold free_of. split; intros Hin; by destruct (Hs _ Hin) as (_ & ? & ?).
Qed.

Lemma blank_free s : blank s → free_of 61 s ∧ free_of 44 s.
Proof. intros Hs. unfold blank in Hs. rewrite Forall_forall in Hs. split; intros ?%Hs; done. Qed.

Lemma free_of_app c s t : free_of c (s ++ t) ↔ free_of c s ∧ free_of c t.
Proof. unfold free_of. rewrite elem_of_app. naive_solver. Qed.

(** A text that starts and ends with numerals needs no trimming. *)
Lemma tidy_between a x s n y : numeral a x → numeral n y → tidy (a ++ s ++ n).
Proof.
  intros Ha Hn. destruct (numeral_tidy _ _ Ha) as [[H1 _] _], (numeral_tidy _ _ Hn) as [[_ H2] _].
  apply numeral_chars in Ha as [_ Ha], Hn as [_ Hn]. split; intros c s' E.
  - destruct a as [|c' a]; [done|]. injection E as <- _. by eapply H1.
  - destruct n as [|c' n _] using rev_ind; [done|]. rewrite !app_assoc in E. apply app_inj_tail in E as [_ <-]. by eapply H2.
Qed.

Lemma parse_u32_Ok s n : parse_u32 s = Ok n ↔ numeral s n ∧ n <= u32_max.
Proof.
  rewrite <-(from_str_Ok u32_max s n) by done. unfold parse_u32. destruct (from_str u32_max s); naive_solver.
Qed.

Lemma res_bind_Ok {A B E} (m : result A E) (k : A → result B E) b :
  res_bind m k = Ok b ↔ ∃ a, m = Ok a ∧ k a = Ok b.
Proof. destruct m; cbn; naive_solver. Qed.

Lemma parse_pair_Ok s p : parse_pair s = Ok p ↔
  ∃ a n, s = a ++ 61 :: n ∧ free_of 61 a ∧ numeral (trim a) p.1 ∧ numeral (trim n) p.2 ∧ p.1 <= u32_max ∧ p.2 <= u32_max.
Proof.
  unfold parse_pair. rewrite res_bind_Ok. split.
  - intros ([a n] & E & Ek). destruct (split_once 61 s) as [[a' n']|] eqn:Es; [|done]. injection E as <- <-.
    apply split_once_Some in Es as [-> Hf]. apply res_bind_Ok in Ek as (x & [? ?]%parse_u32_Ok & Ek).
    apply res_bind_Ok in Ek as (y & [? ?]%parse_u32_Ok & [= <-]). by exists a', n'.
  - intros (a & n & -> & Hf & Ha & Hn & Hx & Hy). exists (a, n). split.
    + by rewrite (proj2 (split_once_Some 61 _ a n)).
    + rewrite (proj2 (parse_u32_Ok _ _) (conj Ha Hx)). cbn. rewrite (proj2 (parse_u32_Ok _ _) (conj Hn Hy)). by destruct p.
Qed.

Lemma trim_padded w s n v : blank w → blank v → numeral s n → trim (w ++ s ++ v) = s.
Proof. intros Hw Hv Hs. apply trim_tidy; [done..|]. by apply (numeral_tidy _ n). Qed.

Lemma blank_nil : blank [].
Proof. constructor. Qed.

Lemma parse_entry s p : parse_pair (trim s) = Ok p ↔ entry s p ∧ p.1 <= u32_max ∧ p.2 <= u32_max.
Proof.
  rewrite parse_pair_Ok. split.
  - intros (a & n & E & Hf & Ha & Hn & Hx & Hy). split; [|done]. destruct (trim_spec s) as (w & v & Hw & Hv & Es & _).
    destruct (trim_spec a) as (w1 & w2 & Hw1 & Hw2 & Ea & _), (trim_spec n) as (w3 & w4 & Hw3 & Hw4 & En & _).
    exists (w ++ w1), w2, w3, (w4 ++ v), (trim a), (trim n). split_and!; try done; try (by apply Forall_app).
    rewrite Es, E. rewrite Ea at 1. rewrite En at 1.
    repeat (rewrite <-!app_assoc; cbn [app]). done.
  - intros [(w1 & w2 & w3 & w4 & a & n & H1 & H2 & H3 & H4 & Ha & Hn & ->) [Hx Hy]].
    assert (trim (w1 ++ a ++ w2 ++ [61] ++ w3 ++ n ++ w4) = (a ++ w2) ++ 61 :: (w3 ++ n)) as ->.
    { pose proof (trim_tidy w1 (a ++ (w2 ++ [61] ++ w3) ++ n) w4 H1 H4 (tidy_between _ _ _ _ _ Ha Hn)) as E.
      rewrite <-!app_assoc in E. cbn [app] in E |- *. rewrite E. by rewrite <-!app_assoc. }
    exists (a ++ w2), (w3 ++ n). split; [done|].
    split; [apply free_of_app; split; [by apply (numeral_tidy _ p.1)|by apply blank_free]|].
    assert (trim (a ++ w2) = a) as -> by apply (trim_padded [] a p.1 w2 blank_nil H2 Ha).
    assert (trim (w3 ++ n) = n) as ->. { pose proof (trim_padded w3 n p.2 [] H3 blank_nil Hn) as E. by rewrite app_nil_r in E. }
    done.
Qed.

Lemma entry_not_blank s p : entry s p → trim s ≠ [].
Proof.
  intros (w1 & w2 & w3 & w4 & a & n & _ & _ & _ & _ & _ & _ & ->) E. apply trim_blank in E. unfold blank in E.
  rewrite !Forall_app in E. destruct E as (_ & _ & _ & E & _). by apply Forall_cons in E as [? _].
Qed.

Lemma collect_entries parts l :
  collect parse_pair (List.filter (fun pair => negb (bool_decide (pair = []))) (map trim parts)) = Ok l ↔ entries parts l.
Proof.
  revert l. induction parts as [|p parts IH]; intros l; cbn [map List.filter].
  { split; [intros [= <-]; constructor|by inversion 1]. }
  case_bool_decide as Hp; cbn [negb collect].
  - rewrite IH. split; [intros Hl; constructor; [by apply trim_blank|done]|]. inversion 1; subst; [done|].
    by exfalso; eapply entry_not_blank.
  - rewrite res_bind_Ok. split.
    + intros ([a n] & [He [Ha Hn]]%parse_entry & E). apply res_bind_Ok in E as (l' & E & [= <-]). apply entries_pair; try done. by apply IH.
    + inversion 1 as [|? ? ? Hb|? ? a n l' He Ha Hn Hl]; subst; [by apply trim_blank in Hb|].
      exists (a, n). split; [by apply parse_entry|]. by rewrite (proj2 (IH l') Hl).
Qed.

Lemma entry_no_comma p x : entry p x → free_of 44 p.
Proof.
  intros (w1 & w2 & w3 & w4 & a & n & H1 & H2 & H3 & H4 & Ha & Hn & ->). rewrite !free_of_app.
  split_and!; try (by apply blank_free); try (by eapply numeral_tidy). intros ?%list_elem_of_singleton. done.
Qed.

Lemma entries_no_comma parts l : entries parts l → Forall (free_of 44) parts.
Proof.
  induction 1 as [|p parts l Hp _ IH|p parts a n l Hp _ _ _ IH]; constructor; try done; [by apply blank_free|by eapply entry_no_comma].
Qed.

Lemma parse_shares_Ok s l : parse_shares s = Ok l ↔ ∃ parts, parts ≠ [] ∧ s = join_on 44 parts ∧ entries parts l.
Proof.
  unfold parse_shares. rewrite collect_entries. split.
  - intros He. exists (split_on 44 s). split; [by destruct (split_on_cons 44 s) as (? & ? & ->)|].
    split; [|done]. symmetry. apply join_split.
  - intros (parts & Hne & -> & He). rewrite split_join; [done..|]. by eapply entries_no_comma.
Qed.

(** ** From the arguments to the scheduler *)

(** What [set_shares] makes account [b] weigh; an account without a ledger weighs 1. *)
Definition weight (fs : FairShare) (b : AccountId) : Z :=
  match vec_get (ledgers fs) b with Some l => shares l | None => 1 end.

(** The last entry for the account counts. *)
Definition listed_weight (l : list (Z * Z)) (b : AccountId) : Z :=
  fold_left (fun w p => if p.1 =? b then p.2 else w) l 1.

Definition engine_weight (e : Engine) : AccountId → Z := weight (sc_fairshare (eg_scheduler e)).

Lemma entries_range parts l : entries parts l → Forall (fun p => 0 <= p.1 ∧ is_u32 p.2) l.
Proof.
  induction 1 as [|p parts l Hp _ IH|p parts a n l (w1 & w2 & w3 & w4 & ta & tn & _ & _ & _ & _ & Ha & Hn & _) Hla Hln _ IH]; [constructor|done|].
  apply numeral_range in Ha, Hn. constructor; [|done]. unfold is_u32. cbn in *. lia.
Qed.

Lemma config_of_Ok a config :
  Args_wf a → config_of a = Ok config →
  daemon_config_ok config ∧ Forall (fun p => 0 <= p.1 ∧ is_u32 p.2) (dc_shares config) ∧
  ∀ l, dc_shares config = l ↔ match ar_shares a with Some s => parse_shares s = Ok l | None => l = [] end.
Proof.
  intros [H1 H2 H3 H4 H5 H6 H7 H8] E. unfold config_of in E. apply res_bind_Ok in E as (l & El & [= <-]). cbn [dc_shares].
  assert (Forall (fun p => 0 <= p.1 ∧ is_u32 p.2) l) as Hl.
  { destruct (ar_shares a); [|injection El as <-; constructor]. apply parse_shares_Ok in El as (parts & _ & _ & He).
    by eapply entries_range. }
  split; [|split; [done|]].
  - unfold is_u32, is_u64, duration_from_secs in *. split; cbn; try done; try lia. unfold config_ok, is_u64, sat_mul. cbn. lia.
  - intros l'. destruct (ar_shares a); [rewrite El; naive_solver|]. injection El as <-. naive_solver.
Qed.

Lemma set_shares_weight fs a n fs' r b :
  FairShare_wf fs → 0 <= a → is_u32 n → set_shares fs a n = Done (fs', r) → b < MAX_ACCOUNTS →
  weight fs' b = if a =? b then n else weight fs b.
Proof.
  intros Hwf Ha Hn E Hb. destruct (set_shares_spec fs a n Hwf Ha Hn) as (fs2 & r2 & E2 & _ & Hr).
  rewrite E in E2. injection E2 as <- <-. destruct (decide (MAX_ACCOUNTS <= a)).
  { destruct Hr as [-> _]. destruct (Z.eqb_spec a b); [lia|done]. }
  destruct Hr as (-> & l & Hl & Hs). destruct (Z.eqb_spec a b) as [<-|Hab]; [unfold weight; by rewrite Hl|].
  destruct (ensure_spec fs a Hwf Ha) as (fs1 & r1 & E1 & _ & Hr1). unfold set_shares in E. rewrite E1 in E.
  rewrite decide_False in Hr1 by done. destruct Hr1 as (-> & _ & _ & Hb1). unfold weight.
  destruct (vec_at (ledgers fs1) a) as [l1| |]; [|done..]. cbn [exec_bind] in E.
  destruct (vec_put (ledgers fs1) a _) as [ls| |] eqn:Ep; [|done..]. injection E as <-. cbn [ledgers].
  assert (vec_get ls b = vec_get (ledgers fs1) b) as ->.
  { unfold vec_put in Ep. destruct (in_range (ledgers fs1) a) eqn:Er; [|done]. injection Ep as <-. apply in_range_spec in Er.
    by rewrite vec_get_insert, decide_False. }
  by destruct (Hb1 b) as [->|[-> ->]].
Qed.

Lemma set_all_shares_weights l s jobs s' b :
  Sched_inv s jobs → Forall (fun p => 0 <= p.1 ∧ is_u32 p.2) l → set_all_shares s l = Done s' → b < MAX_ACCOUNTS →
  weight (sc_fairshare s') b = fold_left (fun w p => if p.1 =? b then p.2 else w) l (weight (sc_fairshare s) b).
Proof.
  intros Hs Hl E Hb. revert s Hs E. induction Hl as [|[a n] l [Ha Hn] _ IH]; intros s Hs E; [cbn in E; by simplify_eq|].
  unfold set_all_shares in E. cbn [exec_fold fst snd] in E. unfold scheduler_set_shares in E at 1.
  destruct (set_shares_spec (sc_fairshare s) a n (si_fs _ _ Hs) Ha Hn) as (fs & r & E1 & Hf & _).
  rewrite E1 in E. cbn [exec_bind] in E. cbn [fold_left fst snd].
  rewrite <-(set_shares_weight _ a n fs r b (si_fs _ _ Hs) Ha Hn E1 Hb).
  apply (IH (MkScheduler (sc_ready s) (sc_deps s) fs)); [by apply Sched_inv_fs|]. by destruct r.
Qed.

Lemma build_weights config jr e b :
  Forall (fun p => 0 <= p.1 ∧ is_u32 p.2) (dc_shares config) → build config jr = Done e → b < MAX_ACCOUNTS →
  engine_weight e b = listed_weight (dc_shares config) b.
Proof.
  intros Hl E Hb. unfold build in E. apply exec_bind_Done in E as (s & Es & [= <-]). unfold engine_weight. cbn [eg_scheduler].
  destruct (Scheduler_with_slots_inv (max_candidates (dc_cycle config))) as [Hs _].
  rewrite (set_all_shares_weights _ _ _ _ _ Hs Hl Es Hb). unfold weight, listed_weight. cbn [sc_fairshare Scheduler_with_slots FairShare_new ledgers].
  by rewrite vec_get_nil.
Qed.

(** With nothing on disk the engine is the one [build] makes. *)
Lemma start_new hash config rotate_bytes (s : Started) :
  Checksum hash → daemon_config_ok config → start hash config rotate_bytes (Some ∅) = Done (Ok s) →
  ∃ e, build config (Some (Journal_new rotate_bytes)) = Done e ∧ eg_scheduler (sd_engine s) = eg_scheduler e.
Proof.
  intros Hh Hc E. destruct (disk_recovers hash Hh ∅ 0 None [] (disk_new hash)) as (d1 & torn & st & Er & Es & _ & _).
  unfold start in E. rewrite Er in E. cbn [exec_bind rec_generation] in E. rewrite Es in E.
  destruct (build_fresh config (Some (Journal_new rotate_bytes)) Hc) as (e & Eb & Hf & _ & _). exists e. split; [done|].
  rewrite recover_engine_settle, Eb in E. cbn [exec_bind and_then rec_snapshot rec_records apply_all] in E.
  unfold settle in E. cbn [eg_jobs with_reconciling] in E. rewrite (fe_jobs _ Hf) in E. cbn [and_then exec_bind recovering_fold] in E.
  change (recovering_fold (requeue_evicting 0) ?x _) with (Done (Ok x) : recovering Engine) in E. cbn [and_then exec_bind] in E.
  destruct (engine_encode_snapshot hash (with_reconciling e _) 0) as [bs| |]; [|done..]. cbn [exec_bind] in E.
  injection E as <-. cbn [sd_engine eg_journal with_reconciling]. by destruct (eg_journal e).
Qed.

(** The text denotes this list of weights. *)
Definition shares_text (s : list Z) (l : list (Z * Z)) : Prop := ∃ parts, parts ≠ [] ∧ s = join_on 44 parts ∧ entries parts l.

Lemma main_Ok hash disk a config s :
  config_of a = Ok config → start hash config (wal_rotate_bytes a) (disk <$> data_dir a) = Done (Ok s) →
  main hash disk a = Done (Ok s).
Proof. intros E Es. unfold main. rewrite E, Es. done. Qed.


(** [--shares ' 3 = 7, ,+3=02 '] on a new directory. *)
Definition demo_args : Args :=
  MkArgs 4000 1 8 3600 (Some (str " 3 = 7, ,+3=02 ")) (Some (str "/var/tasker")) SyncPolicy.Data (64 * 2 ^ 20) 300 None 3 5.

Lemma demo_args_wf : Args_wf demo_args.
Proof. split; vm_compute; by split. Qed.

Definition demo_config : DaemonConfig :=
  Eval vm_compute in match config_of demo_args with Ok c => c | Err _ => DaemonConfig_default end.


Example bad_shares :
  parse_shares (str "1=2,3") = Err (ExpectedPair (str "3")) ∧ parse_shares (str "1=-2") = Err (ParseInt InvalidDigit) ∧
  parse_shares (str "4294967296=1") = Err (ParseInt PosOverflow) ∧ parse_shares (str "=1") = Err (ParseInt Empty).
Proof. vm_compute. done. Qed.

(** A daemon that starts from a snapshot takes the weights of the snapshot: a
    changed [--shares] has no effect. *)
Definition reweighted : option Z :=
  match start crc32 demo_config 1000000 (Some ∅) with
  | Done (Ok s) =>
      match recover_engine crc32 (MkDaemonConfig 4096 10000000000 4000 1 8 [(3, 50)] 300000000000 (dc_cycle demo_config))
              (MkRecovered 1 (Some (engine_snapshot (sd_engine s) 0)) [] None) (Journal_new 1000000) with
      | Done (Ok (e, _)) => Some (engine_weight e 3)
      | _ => None
      end
  | _ => None
  end.

Example restart_ignores_shares : reweighted = Some 2.
Proof. vm_compute. reflexivity. Qed.
End Taskerd.

Module Cli.

(** ** [tasker] *)

(** [Cmd::Submit]; the words of a command are their UTF-8 bytes. *)
Record SubmitArgs : Type := MkSubmitArgs {
  cpu_millis : Z;
  mem_bytes : Z;
  gpus : Z;
  walltime : Z;
  class_name : list Z;
  account : Z;
  deps : list Z;
  sleep : option Z;
  cmd : option (list bytes);
}.

Record SubmitArgs_wf (c : SubmitArgs) : Prop := {
  cw_cpu : is_u32 (cpu_millis c);
  cw_mem : is_u64 (mem_bytes c);
  cw_gpus : is_u32 (gpus c);
  cw_walltime : is_u64 (walltime c);
  cw_account : is_u32 (account c);
  cw_deps : Forall is_u64 (deps c);
  cw_sleep : ∀ ms, sleep c = Some ms → is_u64 ms;
  cw_cmd : ∀ argv, cmd c = Some argv → Forall (Forall is_u8) argv;
}.

(** [Cmd]. *)
Inductive Cmd : Type :=
| Submit (args : SubmitArgs)
| Status (job_id : Z)
| Cancel (job_id : Z)
| Queue
| Nodes
| Accounts.

Inductive CliError : Type :=
| Connecting
| ExactlyOne
| UnknownClass (other : list Z)
| Rpc (status : Services.Status).

Definition class (s : list Z) : result Wire.PriorityClass CliError :=
  let s := to_ascii_lowercase s in
  if bool_decide (s = str "low") then Ok Wire.Low
  else if bool_decide (s = str "normal") then Ok Wire.Normal
  else if bool_decide (s = str "high") then Ok Wire.High
  else if bool_decide (s = str "urgent") then Ok Wire.Urgent
  else Err (UnknownClass s).

(** The request [submit] sends; [Duration::from_millis] is exact. *)
Definition submit_request (c : SubmitArgs) : result Wire.SubmitRequest CliError :=
  res_bind
    (match sleep c, cmd c with
     | Some ms, None => Ok (sleep_payload (ms * 1000000))
     | None, Some command_args => Ok (command_payload command_args)
     | _, _ => Err ExactlyOne
     end) (fun payload =>
  res_bind (class (class_name c)) (fun priority_class =>
  Ok (Wire.MkSubmitRequest (account c) (Wire.class_number priority_class)
        (Some (Wire.MkResources (cpu_millis c) (mem_bytes c) (gpus c)))
        (sat_mul u64_max (walltime c) 1000000000) (deps c) payload))).

Definition state_try_from (n : Z) : option Wire.JobState :=
  match n with
  | 0 => Some Wire.StateUnspecified | 1 => Some Wire.Submitted | 2 => Some Wire.Blocked | 3 => Some Wire.Ready
  | 4 => Some Wire.Running | 5 => Some Wire.Completed | 6 => Some Wire.Failed | 7 => Some Wire.Preempted
  | 8 => Some Wire.Cancelled
  | _ => None
  end.

(** [Debug] of the variants. *)
Definition state_debug (s : Wire.JobState) : list Z :=
  match s with
  | Wire.StateUnspecified => str "Unspecified" | Wire.Submitted => str "Submitted" | Wire.Blocked => str "Blocked"
  | Wire.Ready => str "Ready" | Wire.Running => str "Running" | Wire.Completed => str "Completed"
  | Wire.Failed => str "Failed" | Wire.Preempted => str "Preempted" | Wire.Cancelled => str "Cancelled"
  end.

(** [Display] of an [i32]. *)
Definition dec_signed (n : Z) : list Z := if n <? 0 then 45 :: dec (- n) else dec n.

Definition state_name (n : Z) : list Z :=
  match state_try_from n with
  | Some s => state_debug s
  | None => str "unknown(" ++ dec_signed n ++ str ")"
  end.

(** The lines each command prints. *)
Definition print_state (job_id state : Z) : list (list Z) := [dec job_id ++ str " " ++ state_name state].

Definition print_cancelled (job_id : Z) (cascaded : list Z) : list (list Z) :=
  (str "cancelled " ++ dec job_id ++ str "; cascaded " ++ dec (Z.of_nat (length cascaded))) ::
  map (fun id => str "  " ++ dec id) cascaded.

Definition print_queue (q : Wire.QueueResponse) : list (list Z) :=
  [str "ready " ++ dec (Wire.qr_ready q) ++ str "  blocked " ++ dec (Wire.qr_blocked q) ++
   str "  running " ++ dec (Wire.qr_running q) ++ str "  cycles " ++ dec (Wire.qr_cycles q)].

(** [{:<w}] and [{:>w}]. *)
Definition pad_right (w : nat) (s : list Z) : list Z := s ++ replicate (w - length s) 32.
Definition pad_left (w : nat) (s : list Z) : list Z := replicate (w - length s) 32 ++ s.

Definition node_row (slot name attached free cap : list Z) : list Z :=
  pad_right 5 slot ++ str " " ++ pad_right 12 name ++ str " " ++ pad_right 9 attached ++ str " " ++
  pad_left 10 free ++ str " " ++ pad_left 10 cap.

(** Missing messages count as their defaults. *)
Definition print_node (n : Wire.Node) : list Z :=
  let cap := default (Wire.MkResources 0 0 0) (Wire.nd_capacity n) in
  let used := default (Wire.MkResources 0 0 0) (Wire.nd_allocated n) in
  node_row (dec (Wire.nd_slot n))
    (match Wire.nd_name n with EmptyString => str "-" | name => str name end)
    (if Wire.nd_attached n then str "true" else str "false")
    (dec (Z.max 0 (Wire.cpu_millis cap - Wire.cpu_millis used))) (dec (Wire.cpu_millis cap)).

Definition print_nodes (nodes : list Wire.Node) : list (list Z) :=
  node_row (str "slot") (str "name") (str "attached") (str "cpu_free") (str "cpu_cap") :: map print_node nodes.

(** A finite float is a sign, a mantissa and an exponent; [{:.d}] rounds its exact
    value to [d] decimals, ties to even. *)
Definition div_half_even (a b : Z) : Z :=
  let q := a / b in
  let r := a mod b in
  if 2 * r <? b then q else if b <? 2 * r then q + 1 else if Z.even q then q else q + 1.

Definition scaled (d m e : Z) : Z :=
  if 0 <=? e then m * 2 ^ e * 10 ^ d else div_half_even (m * 10 ^ d) (2 ^ (- e)).

Definition decimals (d n : Z) : list Z :=
  let fraction := dec (n mod 10 ^ d) in
  dec (n / 10 ^ d) ++ str "." ++ replicate (Z.to_nat d - length fraction) 48 ++ fraction.

Definition fixed (d : Z) (x : f64) : list Z :=
  match x with
  | S754_finite neg m e => (if neg then [45] else []) ++ decimals d (scaled d (Z.pos m) e)
  | S754_zero neg => (if neg then [45] else []) ++ decimals d 0
  | S754_infinity neg => (if neg then [45] else []) ++ str "inf"
  | S754_nan => str "NaN"
  end.

Definition account_row (account shares core_seconds running_mc fairshare : list Z) : list Z :=
  pad_right 8 account ++ str " " ++ pad_left 7 shares ++ str " " ++ pad_left 14 core_seconds ++ str " " ++
  pad_left 12 running_mc ++ str " " ++ pad_left 10 fairshare.

(** The literal [1e6] is a whole number. *)
Definition print_account (a : Wire.Account) : list Z :=
  account_row (dec (Wire.ac_account a)) (dec (Wire.ac_shares a))
    (fixed 1 (f64_div (as_f64 (Wire.ac_usage a)) (as_f64 1000000)))
    (dec (Wire.ac_running_cpu_millis a))
    (fixed 3 (f64_div (as_f64 (Wire.ac_fairshare a)) (as_f64 1000000))).

Definition print_accounts (accounts : list Wire.Account) : list (list Z) :=
  account_row (str "account") (str "shares") (str "core_seconds") (str "running_mc") (str "fairshare") ::
  map print_account accounts.

(** The connected client: what each call comes back with. *)
Record Client : Type := MkClient {
  call_submit : Wire.SubmitRequest → result Wire.SubmitResponse Services.Status;
  call_status : Z → result Wire.StatusResponse Services.Status;
  call_cancel : Z → result Wire.CancelResponse Services.Status;
  call_queue : result Wire.QueueResponse Services.Status;
  call_nodes : result (list Wire.Node) Services.Status;
  call_accounts : result (list Wire.Account) Services.Status;
}.

Definition rpc {A} (r : result A Services.Status) : result A CliError :=
  match r with Ok a => Ok a | Err s => Err (Rpc s) end.

(** [main] from the parsed command on: the lines printed, or the error it exits
    with; no client is a daemon that cannot be reached. *)
Definition main (client : option Client) (c : Cmd) : result (list (list Z)) CliError :=
  match client with
  | None => Err Connecting
  | Some client =>
      match c with
      | Submit args =>
          res_bind (submit_request args) (fun req =>
          res_bind (rpc (call_submit client req)) (fun resp =>
          Ok (print_state (Wire.sr_job_id resp) (Wire.sr_state resp))))
      | Status job_id =>
          res_bind (rpc (call_status client job_id)) (fun resp =>
          Ok (print_state (Wire.st_job_id resp) (Wire.st_state resp)))
      | Cancel job_id =>
          res_bind (rpc (call_cancel client job_id)) (fun resp =>
          Ok (print_cancelled job_id (Wire.cr_cascaded resp)))
      | Queue => res_bind (rpc (call_queue client)) (fun q => Ok (print_queue q))
      | Nodes => res_bind (rpc (call_nodes client)) (fun nodes => Ok (print_nodes nodes))
      | Accounts => res_bind (rpc (call_accounts client)) (fun accounts => Ok (print_accounts accounts))
      end
  end.

(** ** Facts *)

Definition class_word (c : PriorityClass) : list Z :=
  match c with
  | PriorityClass.Low => str "low" | PriorityClass.Normal => str "normal"
  | PriorityClass.High => str "high" | PriorityClass.Urgent => str "urgent"
  end.

Lemma class_spec s :
  match class s with
  | Ok w => ∃ c, w = priority_class_to_proto c ∧ to_ascii_lowercase s = class_word c
  | Err e => e = UnknownClass (to_ascii_lowercase s) ∧ ∀ c, to_ascii_lowercase s ≠ class_word c
  end.
Proof.
  unfold class. repeat case_bool_decide;
    [by exists PriorityClass.Low|by exists PriorityClass.Normal|by exists PriorityClass.High|by exists PriorityClass.Urgent|].
  split; [done|]. by intros [].
Qed.

Lemma join_bytes sep parts : is_u8 sep → Forall (Forall is_u8) parts → Forall is_u8 (join_on sep parts).
Proof.
  intros Hs. induction 1 as [|p parts Hp _ IH]; [constructor|]. destruct parts as [|q parts]; [done|].
  change (join_on sep (p :: q :: parts)) with (p ++ sep :: join_on sep (q :: parts)). apply Forall_app. split; [done|]. by constructor.
Qed.

(** What a worker with the executor for this kind of job makes of the payload. *)
Definition runs_as_typed (lossy : bytes → bytes) (c : SubmitArgs) (payload : bytes) : Prop :=
  match sleep c, cmd c with
  | Some ms, None => sleep_nanos payload = Z.min (ms * 1000000) u64_max
  | None, Some argv =>
      argv ≠ [[]] → Forall (free_of 0) argv → Forall (fun a => lossy a = a) argv →
      parse_command_payload lossy payload = argv
  | _, _ => False
  end.

(** The payload of a submission: what [submit_request] puts there, or the refusal. *)
Lemma payload_spec lossy c :
  SubmitArgs_wf c →
  match (match sleep c, cmd c with
         | Some ms, None => Ok (sleep_payload (ms * 1000000))
         | None, Some command_args => Ok (command_payload command_args)
         | _, _ => Err ExactlyOne
         end) with
  | Ok p => Forall is_u8 p ∧ runs_as_typed lossy c p
  | Err e => e = ExactlyOne ∧ (sleep c = None ↔ cmd c = None)
  end.
Proof.
  intros Hc. unfold runs_as_typed. pose proof (cw_sleep _ Hc) as Hms. pose proof (cw_cmd _ Hc) as Hcmd.
  destruct (sleep c) as [ms|], (cmd c) as [argv|]; [by split| | |by split].
  - destruct (Hms ms eq_refl) as [Hm _]. split; [apply to_le_bytes_u8|]. apply sleep_roundtrip. lia.
  - split; [apply join_bytes; [done|by apply Hcmd]|]. intros Hne Hf Hl. rewrite command_payload_roundtrip by done.
    by rewrite bool_decide_eq_false_2.
Qed.

(** C23: What is typed is what runs.  [tasker submit] refuses a command line
    without exactly one of [--sleep] and [--cmd], or with a class that is none of
    the four words in any case, and sends nothing.  Any other becomes a
    well-formed request, which the daemon turns into a job with exactly the
    account, class, resources, dependencies and walltime typed (in seconds, capped
    at the largest number of nanoseconds), unless it asks for more than 255 gpus
    or no walltime; and the executor decodes its payload to the milliseconds or the
    words typed. *)
Theorem what_is_typed_is_what_runs lossy c now :
  SubmitArgs_wf c → is_u64 now →
  match submit_request c with
  | Err ExactlyOne => sleep c = None ↔ cmd c = None
  | Err (UnknownClass s) => s = to_ascii_lowercase (class_name c) ∧ ∀ cls, s ≠ class_word cls
  | Err _ => False
  | Ok req =>
      Wire.SubmitRequest_wf req ∧
      match job_from_submit req now with
      | Ok job =>
          to_ascii_lowercase (class_name c) = class_word (priority_class job) ∧ Job_wf job ∧
          Job.account job = account c ∧ Job.request job = MkResources (cpu_millis c) (mem_bytes c) (gpus c) ∧
          walltime_limit job = Z.min u64_max (walltime c * 1000000000) ∧ Job.deps job = deps c ∧
          state job = JobState.Submitted ∧ submit_time job = now ∧ runs_as_typed lossy c (payload job)
      | Err (ConvertError.GpusOutOfRange n) => n = gpus c ∧ u8_max < gpus c
      | Err ConvertError.ZeroWalltime => walltime c = 0
      | Err _ => False
      end
  end.
Proof.
  intros Hc Hnow. unfold submit_request. pose proof (payload_spec lossy c Hc) as Hp.
  destruct (match sleep c, cmd c with Some _, None => _ | _, _ => _ end) as [p|e]; [|by destruct Hp as [-> ?]].
  destruct Hp as [Hp Hrun]. cbn [res_bind]. pose proof (class_spec (class_name c)) as Hcl.
  destruct (class (class_name c)) as [w|e]; [|by destruct Hcl as [-> ?]]. destruct Hcl as (cls & -> & Hw). cbn [res_bind].
  set (req := Wire.MkSubmitRequest _ _ _ _ _ _).
  assert (Wire.SubmitRequest_wf req) as Hwf.
  { destruct Hc. split; [done|]. split; [by intros q [= <-]|]. split; [|done]. unfold is_u64, req, sat_mul in *. cbn. lia. }
  split; [done|]. destruct (job_from_submit req now) as [job|e] eqn:E.
  - pose proof (job_from_submit_wf _ _ _ Hwf Hnow E) as Hj. apply job_from_submit_Ok in E as (Er & (Hs & _ & Ht) & _).
    injection Er as Ea Ec Eq1 Eq2 Eq3 Ew Ed Ep. assert (cls = priority_class job) as <- by (by destruct cls, (priority_class job)).
    split_and!; try done; [by rewrite Eq1, Eq2, Eq3; destruct (Job.request job)|by rewrite <-Ep].
  - unfold job_from_submit in E. cbn in E. rewrite class_try_from_number in E. cbn in E. rewrite priority_class_roundtrip in E.
    cbn in E. unfold resources_from_proto in E. cbn in E. destruct (Z.leb_spec (gpus c) 255); cbn in E; [|by injection E as <-].
    unfold sat_mul in E. destruct (Z.eqb_spec (Z.min u64_max (walltime c * 1000000000)) 0); [|done]. injection E as <-.
    destruct Hc. unfold is_u64 in *. lia.
Qed.

(** [tasker submit --class URGENT --cmd echo hi]. *)
Definition demo_typed : SubmitArgs :=
  MkSubmitArgs 1000 0 0 60 (str "URGENT") 0 [] None (Some [str "echo"; str "hi"]).

Lemma demo_typed_wf : SubmitArgs_wf demo_typed.
Proof.
  split; try done. intros argv [= <-]. apply (bool_decide_unpack _). by vm_compute.
Qed.

Definition demo_sent : Wire.SubmitRequest :=
  Eval vm_compute in match submit_request demo_typed with Ok r => r | Err _ => Wire.MkSubmitRequest 0 0 None 0 [] [] end.

Definition demo_job : Job := Eval vm_compute in match job_from_submit demo_sent 7 with Ok j => j | Err _ => demo_submission [] end.

Lemma what_is_typed_is_what_runs_witness :
  submit_request demo_typed = Ok demo_sent ∧ job_from_submit demo_sent 7 = Ok demo_job ∧
  str "urgent" = class_word (priority_class demo_job) ∧
  parse_command_payload (fun b => b) (payload demo_job) = [str "echo"; str "hi"].
Proof.
  assert (is_u64 7) as Hnow by (unfold is_u64; lia).
  pose proof (what_is_typed_is_what_runs (fun b => b) demo_typed 7 demo_typed_wf Hnow) as Ht.
  assert (submit_request demo_typed = Ok demo_sent) as E by (vm_compute; reflexivity).
  assert (job_from_submit demo_sent 7 = Ok demo_job) as E' by (vm_compute; reflexivity).
  rewrite E, E' in Ht. destruct Ht as (_ & Hc & _ & _ & _ & _ & _ & _ & _ & Hr).
  split; [exact E|]. split; [exact E'|]. split; [exact Hc|]. apply Hr; [done|repeat constructor; by apply (bool_decide_unpack _)|repeat constructor].
Defined.

(** The handle in a printed line reads back, whatever the state says. *)
Lemma printed_handle id st :
  is_u64 id → ∃ rest, split_once 32 (dec id ++ str " " ++ state_name st) = Some (dec id, rest) ∧ from_str u64_max (dec id) = Ok id.
Proof.
  intros Hid. exists (state_name st). split.
  - apply split_once_Some. split; [done|]. destruct (dec_spec id Hid) as (_ & Hd & _). rewrite Forall_forall in Hd.
    intros Hin%Hd. unfold digit in Hin. lia.
  - apply from_str_Ok; [done|]. split; [by apply dec_numeral|apply Hid].
Qed.

(** Rounding is to the nearest: the decimal shown is within half a unit of its
    last place of the number divided. *)
Lemma div_half_even_nearest a b : 0 < b → 2 * Z.abs (div_half_even a b * b - a) <= b.
Proof.
  intros Hb. unfold div_half_even. pose proof (Z.div_mod a b ltac:(lia)) as Ha. pose proof (Z.mod_pos_bound a b Hb) as Hr.
  set (q := a / b) in *. set (r := a mod b) in *. repeat case_match; nia.
Qed.

Lemma length_dec_digits fuel n acc d :
  (0 < d)%nat → 0 <= n < 10 ^ Z.of_nat d → (length (dec_digits fuel n acc) <= d + length acc)%nat.
Proof.
  revert n acc d. induction fuel as [|fuel IH]; intros n acc d Hd Hn; cbn [dec_digits]; [lia|].
  destruct (Z.eqb_spec (n / 10) 0) as [E|E]; cbn [length]; [lia|].
  destruct d as [|d]; [lia|]. rewrite Nat2Z.inj_succ, Z.pow_succ_r in Hn by lia.
  destruct d as [|d]; [rewrite Z.div_small in E by (cbn in Hn; lia); done|].
  etransitivity; [apply (IH _ _ (S d)); [lia|split; [apply Z.div_pos; lia|apply Z.div_lt_upper_bound; lia]]|cbn [length]; lia].
Qed.

(** The table's decimals read back: the whole part, the point, and exactly [d]
    digits that stand for the fraction. *)
Lemma decimals_read_back d n :
  (0 < d) → 10 ^ d <= u64_max → is_u64 n →
  ∃ whole fraction, decimals d n = whole ++ str "." ++ fraction ∧ length fraction = Z.to_nat d ∧
    numeral whole (n / 10 ^ d) ∧ numeral fraction (n mod 10 ^ d).
Proof.
  intros Hd Hmax [Hn Hn']. pose proof (Z.pow_pos_nonneg 10 d ltac:(lia) ltac:(lia)) as Hp.
  pose proof (Z.mod_pos_bound n _ Hp) as Hr. pose proof (Z.mod_le n _ Hn Hp) as Hle.
  unfold decimals. eexists _, _. split; [reflexivity|]. split_and!.
  - rewrite length_app, length_replicate. pose proof (length_dec_digits 20 (n mod 10 ^ d) [] (Z.to_nat d)) as Hl. rewrite Z2Nat.id in Hl by lia.
    specialize (Hl ltac:(lia) Hr). unfold dec in *. cbn [length] in Hl. lia.
  - apply dec_numeral. split; [by apply Z.div_pos|]. etransitivity; [by apply Z.div_le_upper_bound with (q := n); nia|done].
  - apply padded_numeral. unfold is_u64. lia.
Qed.

(** Asked through the daemon's handler, [tasker status] prints the handle typed
    and the name of the state the engine answered; a full inbox, a daemon that is
    gone and an unknown handle are errors, with nothing printed. *)
Lemma status_command_prints {Q : Type → Type} `{ArrayQueue Q} (inbox : Q Command) job_id reply rx client :
  call_status client job_id = (rpc_status inbox job_id reply rx).2 →
  main (Some client) (Status job_id) =
    match (control_push inbox (Command.Query (Query.Status job_id reply))).2, rx with
    | Err s, _ => Err (Rpc s)
    | Ok _, None => Err (Rpc gone)
    | Ok _, Some None => Err (Rpc Services.Status.NotFound)
    | Ok _, Some (Some st) => Ok [dec job_id ++ str " " ++ state_debug (job_state_to_proto st)]
    end.
Proof.
  intros E. unfold main. rewrite E. unfold rpc_status. destruct (control_push inbox _) as [inbox' [[]|s]]; cbn; [|done].
  destruct rx as [[st|]|]; cbn; [|done|done]. by destruct st.
Qed.

Example printed_lines :
  print_state 7 4 = [str "7 Running"] ∧ print_state 7 (-3) = [str "7 unknown(-3)"] ∧
  print_cancelled 3 [5] = [str "cancelled 3; cascaded 1"; str "  5"] ∧
  print_nodes [Wire.MkNode 0 "" (Some (Wire.MkResources 4000 0 0)) (Some (Wire.MkResources 1500 0 0)) true] =
    [str "slot  name         attached    cpu_free    cpu_cap"; str "0     -            true            2500       4000"].
Proof. vm_compute. done. Qed.

Example printed_accounts :
  print_accounts [Wire.MkAccount 3 10 2500000 1500 666667; Wire.MkAccount 4 1 250000 0 1000000] =
    [str "account   shares   core_seconds   running_mc  fairshare";
     str "3             10            2.5         1500      0.667";
     str "4              1            0.2            0      1.000"].
Proof. vm_compute. done. Qed.
End Cli.

Module WorkerMain.

(** ** [tasker-worker] *)

Record WorkerArgs : Type := MkWorkerArgs {
  name : string;
  cpu_millis : Z;
  mem_bytes : Z;
  gpus : Z;
  executor : list Z;
  drain_timeout : Z;
}.

(** [WorkerConfig], durations in nanoseconds; the address is the transport's. *)
Record WorkerConfig : Type := MkWorkerConfig {
  wc_name : string;
  wc_capacity : Resources;
  wc_heartbeat : Z;
  wc_drain_timeout : Z;
}.

Inductive Executor : Type := Sleeps | Commands.

Definition worker_main (a : WorkerArgs) : result (WorkerConfig * Executor) (list Z) :=
  let config :=
    MkWorkerConfig (name a) (MkResources (cpu_millis a) (mem_bytes a) (gpus a)) (2 * 1000000000) (drain_timeout a * 1000000000) in
  if bool_decide (executor a = str "sleep") then Ok (config, Sleeps)
  else if bool_decide (executor a = str "command") then Ok (config, Commands)
  else Err (executor a).

(** The capacity of any worker's command line survives Hello: the daemon reads
    back the resources that were typed. *)
Lemma capacity_crosses_the_wire a config x :
  is_u32 (cpu_millis a) → is_u64 (mem_bytes a) → is_u8 (gpus a) → worker_main a = Ok (config, x) →
  resources_from_proto (resources_to_proto (wc_capacity config)) = Ok (MkResources (cpu_millis a) (mem_bytes a) (gpus a)).
Proof.
  intros Hc Hm Hg E. unfold worker_main in E. repeat case_bool_decide; simplify_eq; by apply resources_roundtrip.
Qed.
End WorkerMain.
