(* ===== verification/Sim.v ===== *)
(** * The simulator

    [crates/tasker-sim/src]: the event queue, the virtual clock, the trace, the
    driver and the invariants it checks after every event and every cycle.  The standard library's binary heap, used as a priority queue
    with distinct keys, is the list of its entries in key order. *)

From stdpp Require Import base strings list numbers option sets relations.
From Stdlib Require Import ZArith Lia.
From S2P Require Import Prelude Domain Arena Job Inventory Priority ReadySet Eligibility.
From S2P Require Import Decay FairShare Pack Backfill Preempt Scheduler Cycle Frame.
Open Scope Z_scope.
Open Scope list_scope.

(** ** Events ([event.rs], [outcome.rs]) *)

Module Outcome.
Inductive Outcome : Type :=
| Completes (after : VirtualDuration)
| Fails (after : VirtualDuration).
End Outcome.
Abbreviation Outcome := Outcome.Outcome.

Module Event.
Inductive Event : Type :=
| Submit (job : Job) (deps : list nat) (outcome : Outcome)
| Cancel (submit_index : nat)
| Complete (job : JobId) (run : Z)
| Fail (job : JobId) (run : Z)
| Preempted (job : JobId) (run : Z).
End Event.
Abbreviation Event := Event.Event.

Record Entry : Type := MkEntry { en_at : VirtualTime; en_seq : Z; en_event : Event }.

(** [Ord for Entry]: time first, then insertion order. *)
Definition Entry_cmp (a b : Entry) : comparison :=
  match en_at a ?= en_at b with
  | Eq => en_seq a ?= en_seq b
  | c => c
  end.

Definition Entry_lt (a b : Entry) : bool := match Entry_cmp a b with Lt => true | _ => false end.

Record EventQueue : Type := MkEventQueue { eq_heap : list Entry; eq_next_seq : Z }.

Definition EventQueue_new : EventQueue := MkEventQueue [] 0.

Definition queue_len (q : EventQueue) : nat := length (eq_heap q).

Definition queue_is_empty (q : EventQueue) : bool := (queue_len q =? 0)%nat.

Fixpoint entry_insert (e : Entry) (l : list Entry) : list Entry :=
  match l with
  | [] => [e]
  | x :: l => if Entry_lt e x then e :: x :: l else x :: entry_insert e l
  end.

Definition queue_push (q : EventQueue) (at_ : VirtualTime) (event : Event) : EventQueue :=
  MkEventQueue (entry_insert (MkEntry at_ (eq_next_seq q) event) (eq_heap q)) (wrap64 (eq_next_seq q + 1)).

Definition queue_next_at (q : EventQueue) : option VirtualTime := en_at <$> hd_error (eq_heap q).

Definition pop_due (q : EventQueue) (until : VirtualTime) : EventQueue * option (VirtualTime * Event) :=
  if match queue_next_at q with None => true | Some at_ => until <? at_ end then (q, None)
  else
    match eq_heap q with
    | [] => (q, None)
    | e :: l => (MkEventQueue l (eq_next_seq q), Some (en_at e, en_event e))
    end.

(** ** The clock ([clock.rs]) *)

Definition advance_to (now t : VirtualTime) : exec VirtualTime := if now <=? t then Done t else Panic.

Definition advance_by (now : VirtualTime) (d : VirtualDuration) : VirtualTime := time_saturating_add now d.

(** ** The trace ([trace.rs]) *)

Module Action.
Inductive Action : Type :=
| Submitted (state : JobState)
| Dispatched (slot : SlotIndex)
| Completed
| Failed
| Cancelled
| Promoted
| Preempted
| Requeued
| Cycle (dispatched backfilled : Z).
End Action.
Abbreviation Action := Action.Action.

Record TraceRecord : Type := MkTraceRecord { tr_at : VirtualTime; tr_job : option JobId; tr_action : Action }.

(** ** The driver ([sim.rs]) *)

Record Simulation : Type := MkSimulation {
  sm_now : VirtualTime;
  sm_queue : EventQueue;
  sm_jobs : Arena Job;
  sm_inventory : SlotInventory;
  sm_running : list RunningJob;
  sm_scheduler : Scheduler;
  sm_config : CycleConfig;
  sm_tick : VirtualDuration;
  sm_handles : list JobId;
  sm_outcomes : list (option Outcome);
  sm_trace : list TraceRecord;
  sm_runs : list Z;
  sm_check : bool;
}.

Definition Simulation_new (inventory : SlotInventory) (config : CycleConfig) (tick : VirtualDuration) : Simulation :=
  MkSimulation 0 EventQueue_new Arena_new inventory [] Scheduler_new config tick [] [] [] [] false.

Definition with_now (s : Simulation) (t : VirtualTime) : Simulation :=
  MkSimulation t (sm_queue s) (sm_jobs s) (sm_inventory s) (sm_running s) (sm_scheduler s) (sm_config s)
    (sm_tick s) (sm_handles s) (sm_outcomes s) (sm_trace s) (sm_runs s) (sm_check s).
Definition with_queue (s : Simulation) (q : EventQueue) : Simulation :=
  MkSimulation (sm_now s) q (sm_jobs s) (sm_inventory s) (sm_running s) (sm_scheduler s) (sm_config s)
    (sm_tick s) (sm_handles s) (sm_outcomes s) (sm_trace s) (sm_runs s) (sm_check s).
Definition with_core (s : Simulation) (sched : Scheduler) (jobs : Arena Job) : Simulation :=
  MkSimulation (sm_now s) (sm_queue s) jobs (sm_inventory s) (sm_running s) sched (sm_config s)
    (sm_tick s) (sm_handles s) (sm_outcomes s) (sm_trace s) (sm_runs s) (sm_check s).
Definition with_binding (s : Simulation) (inv : SlotInventory) (running : list RunningJob) : Simulation :=
  MkSimulation (sm_now s) (sm_queue s) (sm_jobs s) inv running (sm_scheduler s) (sm_config s)
    (sm_tick s) (sm_handles s) (sm_outcomes s) (sm_trace s) (sm_runs s) (sm_check s).
Definition with_submission (s : Simulation) (handles : list JobId) (outcomes : list (option Outcome)) : Simulation :=
  MkSimulation (sm_now s) (sm_queue s) (sm_jobs s) (sm_inventory s) (sm_running s) (sm_scheduler s) (sm_config s)
    (sm_tick s) handles outcomes (sm_trace s) (sm_runs s) (sm_check s).
Definition with_trace (s : Simulation) (t : list TraceRecord) : Simulation :=
  MkSimulation (sm_now s) (sm_queue s) (sm_jobs s) (sm_inventory s) (sm_running s) (sm_scheduler s) (sm_config s)
    (sm_tick s) (sm_handles s) (sm_outcomes s) t (sm_runs s) (sm_check s).
Definition with_run_counts (s : Simulation) (r : list Z) : Simulation :=
  MkSimulation (sm_now s) (sm_queue s) (sm_jobs s) (sm_inventory s) (sm_running s) (sm_scheduler s) (sm_config s)
    (sm_tick s) (sm_handles s) (sm_outcomes s) (sm_trace s) r (sm_check s).

Definition sim_schedule (s : Simulation) (at_ : VirtualTime) (event : Event) : Simulation :=
  with_queue s (queue_push (sm_queue s) at_ event).

Definition is_quiescent (s : Simulation) : bool :=
  queue_is_empty (sm_queue s) && (pending (sm_scheduler s) =? 0)%nat && (length (sm_running s) =? 0)%nat.

Definition sim_record (s : Simulation) (at_ : VirtualTime) (job : option JobId) (action : Action) : Simulation :=
  with_trace s (sm_trace s ++ [MkTraceRecord at_ job action]).

Definition record_all (s : Simulation) (at_ : VirtualTime) (jobs : list JobId) (action : Action) : Simulation :=
  fold_left (fun s j => sim_record s at_ (Some j) action) jobs s.

Definition current_run (s : Simulation) (id : JobId) (run : Z) : bool :=
  let on_slot := match Arena_get (sm_jobs s) id with Some j => occupies_slot (state j) | None => false end in
  on_slot && bool_decide (vec_get (sm_runs s) (JobId_index id) = Some run).

Definition sim_release (s : Simulation) (id : JobId) : exec Simulation :=
  match position (fun r => rj_job r =? id) (sm_running s) with
  | None => Done s
  | Some pos =>
      let! '(r, running) := swap_remove (sm_running s) pos in
      match release (sm_inventory s) (rj_slot r) (rj_resources r) with
      | (inv, Ok _) => Done (with_binding s inv running)
      | (_, Err _) => Panic
      end
  end.

Definition sim_on_dispatched (s : Simulation) (d : DispatchDecision) (at_ : VirtualTime) : exec Simulation :=
  match Arena_get (sm_jobs s) (dd_job d) with
  | None => Done s
  | Some job =>
      let walltime := walltime_limit job in
      let r := MkRunningJob (dd_job d) (dd_slot d) (request job) (time_saturating_add at_ walltime) in
      let s := with_binding s (sm_inventory s) (sm_running s ++ [r]) in
      let s := sim_record s at_ (Some (dd_job d)) (Action.Dispatched (dd_slot d)) in
      let outcome :=
        default (Outcome.Completes walltime) (default None (vec_get (sm_outcomes s) (JobId_index (dd_job d)))) in
      let index := JobId_index (dd_job d) in
      let runs := vec_grow (sm_runs s) (Z.to_nat (index + 1)) 0 in
      let! n := vec_at runs index in
      let run := wrap32 (n + 1) in
      let! runs := vec_put runs index run in
      let s := with_run_counts s runs in
      let job := dd_job d in
      let '(event, after) :=
        match outcome with
        | Outcome.Completes after =>
            if after <=? walltime then (Event.Complete job run, after) else (Event.Fail job run, walltime)
        | Outcome.Fails after => (Event.Fail job run, Z.min after walltime)
        end in
      Done (sim_schedule s (time_saturating_add at_ after) event)
  end.

(** ** The invariants it checks ([invariants.rs]) *)

Module Violation.
Inductive Violation : Type :=
| RunningWithUnsatisfiedDependency (job dependency : JobId)
| OverCapacity (slot : SlotIndex)
| StuckBlocked (job : JobId)
| RunningSetMismatch (running_set running_jobs : nat)
| ReadySetMismatch (ready_set ready_jobs : nat).
End Violation.
Abbreviation Violation := Violation.Violation.

(** The first dependency that has not completed. *)
Definition unsatisfied_dep (jobs : Arena Job) (ds : list JobId) : option JobId :=
  find (fun d => negb match Arena_get jobs d with
                      | Some j => bool_decide (state j = JobState.Completed)
                      | None => false
                      end) ds.

(** The first loop: the counts of jobs on a slot and of ready jobs. *)
Fixpoint check_jobs (jobs : Arena Job) (l : list (JobId * Job)) (running_jobs ready_jobs : nat)
  : result (nat * nat) Violation :=
  match l with
  | [] => Ok (running_jobs, ready_jobs)
  | (id, job) :: l =>
      match state job with
      | JobState.Running | JobState.Preempted =>
          match unsatisfied_dep jobs (deps job) with
          | Some d => Err (Violation.RunningWithUnsatisfiedDependency id d)
          | None => check_jobs jobs l (S running_jobs) ready_jobs
          end
      | JobState.Ready => check_jobs jobs l running_jobs (S ready_jobs)
      | JobState.Blocked =>
          if forallb (fun d => match Arena_get jobs d with Some j => is_terminal (state j) | None => true end) (deps job)
          then Err (Violation.StuckBlocked id)
          else check_jobs jobs l running_jobs ready_jobs
      | _ => check_jobs jobs l running_jobs ready_jobs
      end
  end.

Fixpoint check_slots (inv : SlotInventory) (slots : list SlotIndex) : exec (result unit Violation) :=
  match slots with
  | [] => Done (Ok tt)
  | slot :: slots =>
      let! s := expect (inventory_slot inv slot) in
      if negb (fits_within (allocated s) (capacity s)) then Done (Err (Violation.OverCapacity slot))
      else check_slots inv slots
  end.

Definition check (s : Simulation) : exec (result unit Violation) :=
  match check_jobs (sm_jobs s) (Arena_iter (sm_jobs s)) 0 0 with
  | Err v => Done (Err v)
  | Ok (running_jobs, ready_jobs) =>
      let! len := inventory_len (sm_inventory s) in
      let! slots := check_slots (sm_inventory s) (Z.of_nat <$> seq 0 (Z.to_nat len)) in
      match slots with
      | Err v => Done (Err v)
      | Ok _ =>
          let running_set := length (sm_running s) in
          let consistent :=
            forallb (fun r => match Arena_get (sm_jobs s) (rj_job r) with
                              | Some j => occupies_slot (state j)
                              | None => false
                              end) (sm_running s) in
          if negb (running_set =? running_jobs)%nat || negb consistent
          then Done (Err (Violation.RunningSetMismatch running_set running_jobs))
          else
            let ready_set := pending (sm_scheduler s) in
            if negb (ready_set =? ready_jobs)%nat then Done (Err (Violation.ReadySetMismatch ready_set ready_jobs))
            else Done (Ok tt)
      end
  end.

(** ** Events and steps *)

Module SimError.
Inductive SimError : Type :=
| ForwardDependency (index : nat)
| Lifecycle (e : LifecycleError)
| Invariant (v : Violation).
End SimError.
Abbreviation SimError := SimError.SimError.

(** The handles of the dependencies, or the first index that has none. *)
Fixpoint resolve (handles : list JobId) (ds : list nat) : result (list JobId) nat :=
  match ds with
  | [] => Ok []
  | index :: ds =>
      match handles !! index with
      | None => Err index
      | Some h =>
          match resolve handles ds with
          | Ok hs => Ok (h :: hs)
          | Err i => Err i
          end
      end
  end.

Definition job_with_deps (j : Job) (ds : list JobId) : Job :=
  MkJob (account j) (priority_class j) (submit_time j) (request j) (walltime_limit j) ds (payload j)
        (state j) (preemptions j).

Definition sim_apply (s : Simulation) (event : Event) : exec (result Simulation SimError) :=
  let now := sm_now s in
  match event with
  | Event.Submit job ds outcome =>
      match resolve (sm_handles s) ds with
      | Err index => Done (Err (SimError.ForwardDependency index))
      | Ok hs =>
          let! '(jobs, id) := Arena_insert (sm_jobs s) (job_with_deps job hs) in
          let slot := JobId_index id in
          let outcomes := vec_grow (sm_outcomes s) (Z.to_nat (slot + 1)) None in
          let! outcomes := vec_put outcomes slot (Some outcome) in
          let s := with_submission s (sm_handles s ++ [id]) outcomes in
          let! '(sched, jobs, r) := submit (sm_scheduler s) id jobs now (sm_config s) in
          match r with
          | Err e => Done (Err (SimError.Lifecycle e))
          | Ok st => Done (Ok (sim_record (with_core s sched jobs) now (Some id) (Action.Submitted st)))
          end
      end
  | Event.Complete id run =>
      if negb (current_run s id run) then Done (Ok s)
      else
        let! s := sim_release s id in
        let! '(sched, jobs, r) := on_completed (sm_scheduler s) id (sm_jobs s) now (sm_config s) in
        match r with
        | Err e => Done (Err (SimError.Lifecycle e))
        | Ok promoted =>
            let s := sim_record (with_core s sched jobs) now (Some id) Action.Completed in
            Done (Ok (record_all s now promoted Action.Promoted))
        end
  | Event.Fail id run =>
      if negb (current_run s id run) then Done (Ok s)
      else
        let! s := sim_release s id in
        let! '(sched, jobs, r) := on_failed (sm_scheduler s) id (sm_jobs s) now (sm_config s) in
        match r with
        | Err e => Done (Err (SimError.Lifecycle e))
        | Ok cascade =>
            let s := sim_record (with_core s sched jobs) now (Some id) Action.Failed in
            Done (Ok (record_all s now cascade Action.Cancelled))
        end
  | Event.Preempted id run =>
      let evicting :=
        match Arena_get (sm_jobs s) id with
        | Some j => bool_decide (state j = JobState.Preempted)
        | None => false
        end in
      if negb evicting || negb (current_run s id run) then Done (Ok s)
      else
        let! s := sim_release s id in
        let! '(sched, jobs, r) := on_preempted (sm_scheduler s) id (sm_jobs s) now (sm_config s) in
        match r with
        | Err e => Done (Err (SimError.Lifecycle e))
        | Ok _ => Done (Ok (sim_record (with_core s sched jobs) now (Some id) Action.Requeued))
        end
  | Event.Cancel submit_index =>
      match sm_handles s !! submit_index with
      | None => Done (Err (SimError.ForwardDependency submit_index))
      | Some id =>
          match Arena_get (sm_jobs s) id with
          | None => Done (Ok s)
          | Some j =>
              if is_terminal (state j) then Done (Ok s)
              else
                let! s := if bool_decide (state j = JobState.Running) then sim_release s id else Done s in
                let! '(sched, jobs, r) := cancel (sm_scheduler s) id (sm_jobs s) now (sm_config s) in
                match r with
                | Err e => Done (Err (SimError.Lifecycle e))
                | Ok cascade =>
                    let s := sim_record (with_core s sched jobs) now (Some id) Action.Cancelled in
                    Done (Ok (record_all s now cascade Action.Cancelled))
                end
          end
      end
  end.

Record StepReport : Type := MkStepReport {
  sp_at : VirtualTime;
  sp_events_applied : nat;
  sp_dispatched : Z;
  sp_backfilled : Z;
  sp_preempted : nat;
}.

(** [invariants::check(self)?] when the flag is set. *)
Definition checked (s : Simulation) : exec (result unit SimError) :=
  if sm_check s then
    let! r := check s in
    match r with
    | Ok _ => Done (Ok tt)
    | Err v => Done (Err (SimError.Invariant v))
    end
  else Done (Ok tt).

(** The loop that delivers due events. *)
Fixpoint deliver_due (fuel : nat) (s : Simulation) (at_ : VirtualTime) (applied : nat)
  : exec (result (Simulation * nat) SimError) :=
  match fuel with
  | O => NoFuel
  | S fuel =>
      match pop_due (sm_queue s) at_ with
      | (_, None) => Done (Ok (s, applied))
      | (q, Some (_, event)) =>
          let! r := sim_apply (with_queue s q) event in
          match r with
          | Err e => Done (Err e)
          | Ok s =>
              let! c := checked s in
              match c with
              | Err e => Done (Err e)
              | Ok _ => deliver_due fuel s at_ (S applied)
              end
          end
      end
  end.

Definition evict_victim (at_ : VirtualTime) (acc : Simulation * nat) (e : Eviction) : Simulation * nat :=
  let '(s, n) := acc in
  match preempt (sm_scheduler s) (ev_job e) (sm_jobs s) with
  | (sched, jobs, Ok _) =>
      let s := with_core s sched jobs in
      let run := default 0 (vec_get (sm_runs s) (JobId_index (ev_job e))) in
      let s := sim_record s at_ (Some (ev_job e)) Action.Preempted in
      let s := sim_schedule s (time_saturating_add at_ (grace (cc_preempt (sm_config s)))) (Event.Preempted (ev_job e) run) in
      (s, S n)
  | (sched, jobs, Err _) => (with_core s sched jobs, n)
  end.

(** The preemption pass of [step], when the cycle left a head job unplaced. *)
Definition preempt_for (s : Simulation) (head : option JobId) (at_ : VirtualTime) : exec (Simulation * nat) :=
  match head with
  | None => Done (s, 0%nat)
  | Some head =>
      let! evictions :=
        match Arena_get (sm_jobs s) head with
        | Some job =>
            let! '(evictions, _) :=
              plan_preemption job (sm_running s) (sm_jobs s) (sm_inventory s) at_ (cc_preempt (sm_config s)) [] in
            Done evictions
        | None => Done []
        end in
      Done (fold_left (evict_victim at_) evictions (s, 0%nat))
  end.

(** The cycle and everything it leads to. *)
Definition sim_cycle (s : Simulation) (at_ : VirtualTime) : exec (Simulation * CycleOutcome * nat) :=
  let! r := run_cycle (sm_scheduler s) (sm_jobs s) (sm_inventory s) (sm_running s) at_ (sm_config s) [] in
  let s := with_binding (with_core s (cy_scheduler r) (cy_jobs r)) (cy_inventory r) (sm_running s) in
  let outcome := cy_outcome r in
  let s := sim_record s at_ None (Action.Cycle (co_dispatched outcome) (co_backfilled outcome)) in
  let! s := exec_fold (fun s d => sim_on_dispatched s d at_) s (cy_decisions r) in
  let! '(s, preempted) := preempt_for s (co_head outcome) at_ in
  Done (s, outcome, preempted).

Definition step (s : Simulation) : exec (result (Simulation * StepReport) SimError) :=
  let at_ := time_saturating_add (sm_now s) (sm_tick s) in
  let! now := advance_to (sm_now s) at_ in
  let s := with_now s now in
  let! r := deliver_due (S (queue_len (sm_queue s))) s at_ 0 in
  match r with
  | Err e => Done (Err e)
  | Ok (s, applied) =>
      let! '(s, outcome, preempted) := sim_cycle s at_ in
      let! c := checked s in
      match c with
      | Err e => Done (Err e)
      | Ok _ => Done (Ok (s, MkStepReport at_ applied (co_dispatched outcome) (co_backfilled outcome) preempted))
      end
  end.

(** [run_until]: [fuel] bounds the number of steps. *)
Fixpoint run_until (fuel : nat) (s : Simulation) (end_ : VirtualTime) : exec (result Simulation SimError) :=
  match fuel with
  | O => if sm_now s <? end_ then NoFuel else Done (Ok s)
  | S fuel =>
      if sm_now s <? end_ then
        let! r := step s in
        match r with
        | Err e => Done (Err e)
        | Ok (s, _) => run_until fuel s end_
        end
      else Done (Ok s)
  end.

Fixpoint run_to_quiescence (max_ticks : nat) (s : Simulation) : exec (result (Simulation * bool) SimError) :=
  match max_ticks with
  | O => Done (Ok (s, is_quiescent s))
  | S max_ticks =>
      if is_quiescent s then Done (Ok (s, true))
      else
        let! r := step s in
        match r with
        | Err e => Done (Err e)
        | Ok (s, _) => run_to_quiescence max_ticks s
        end
  end.
