(* ===== verification/SimInv.v ===== *)
(** * The simulator keeps its invariants

    The invariant of a simulation, that it implies each of the five conditions
    [invariants::check] tests, and that every event and every cycle keep it. *)

From stdpp Require Import base strings list numbers option sets relations.
From Stdlib Require Import ZArith Lia.
From S2P Require Import Prelude Domain Arena Job Inventory Priority ReadySet Eligibility.
From S2P Require Import Decay FairShare Pack Backfill Preempt Scheduler Cycle Frame.
From S2P Require Import EngineInv EngineSteps EngineTick EngineRun Order Sim.
Open Scope Z_scope.
Open Scope list_scope.

Definition present (jobs : Arena Job) (x : JobId) : Prop := is_Some (Arena_get jobs x).

(** No slot of a simulation is ever vacated. *)
Definition attached_names (inv : SlotInventory) : list (option string) :=
  (fun _ => Some ""%string) <$> worker_slots inv.

(** What no transition of a job changes: dependencies are jobs of the arena that
    came before, and no slot of the arena is ever vacated. *)
Record submitted_once (jobs : Arena Job) : Prop := {
  so_deps : ∀ x j, Arena_get jobs x = Some j → Forall (present jobs) (deps j);
  so_older : ∀ x j, Arena_get jobs x = Some j → Forall (fun d => JobId_index d < JobId_index x) (deps j);
  so_accepted : ∀ x j, Arena_get jobs x = Some j → accepted j;
  so_full : free_head jobs = None;
}.

Record sim_inv (s : Simulation) : Prop := {
  mi_config : config_ok (sm_config s);
  mi_now : is_u64 (sm_now s);
  mi_sched : Sched_inv (sm_scheduler s) (sm_jobs s);
  mi_waits : waits (sc_deps (sm_scheduler s)) (sm_jobs s);
  mi_jobs : submitted_once (sm_jobs s);
  mi_admitted : ∀ x, job_state (sm_jobs s) x ≠ Some JobState.Submitted;
  mi_slots : slots_inv (sm_inventory s) (sm_running s) (attached_names (sm_inventory s));
  mi_within : within_capacity (sm_inventory s);
  mi_running : running_inv (sm_jobs s) (sm_running s);
  mi_bound : ∀ x j, Arena_get (sm_jobs s) x = Some j → occupies_slot (state j) = true → x ∈ rj_job <$> sm_running s;
  mi_handles : Forall (present (sm_jobs s)) (sm_handles s);
}.

(** ** The checks pass *)

Definition on_slot (p : JobId * Job) : bool := occupies_slot (state p.2).
Definition is_ready (p : JobId * Job) : bool := bool_decide (state p.2 = JobState.Ready).

Lemma count_if_cons {A} (f : A → bool) x l : count_if f (x :: l) = ((if f x then 1 else 0) + count_if f l)%nat.
Proof. unfold count_if. cbn. by destruct (f x). Qed.

Lemma check_jobs_counts jobs l a b :
  (∀ x j, (x, j) ∈ l → occupies_slot (state j) = true → unsatisfied_dep jobs (deps j) = None) →
  (∀ x j, (x, j) ∈ l → state j = JobState.Blocked →
     ∃ d jd, d ∈ deps j ∧ Arena_get jobs d = Some jd ∧ is_terminal (state jd) = false) →
  check_jobs jobs l a b = Ok (a + count_if on_slot l, b + count_if is_ready l)%nat.
Proof.
  revert a b. induction l as [|[x j] l IH]; intros a b Hr Hb; cbn [check_jobs].
  { unfold count_if. cbn. by rewrite !Nat.add_0_r. }
  rewrite !count_if_cons. unfold on_slot at 1, is_ready at 1. cbn [snd].
  assert (∀ a b, check_jobs jobs l a b = Ok (a + count_if on_slot l, b + count_if is_ready l)%nat) as IH'.
  { intros. apply IH; intros y k Hy; [apply (Hr y)|apply (Hb y)]; by right. }
  destruct (state j) eqn:Es; cbn -[unsatisfied_dep bool_decide];
    rewrite ?bool_decide_eq_true_2, ?bool_decide_eq_false_2 by done; try (by rewrite IH'; do 2 f_equal; lia).
  - destruct (Hb x j ltac:(by left) Es) as (d & jd & Hd & Hjd & Ht).
    destruct (forallb _ _) eqn:Ef; [|by rewrite IH'; do 2 f_equal; lia].
    rewrite forallb_forall in Ef. apply list_elem_of_In in Hd. specialize (Ef _ Hd). rewrite Hjd in Ef. congruence.
  - rewrite (Hr x j) by (by left || by rewrite Es). rewrite IH'. do 2 f_equal; lia.
  - rewrite (Hr x j) by (by left || by rewrite Es). rewrite IH'. do 2 f_equal; lia.
Qed.

Lemma check_slots_ok inv l :
  within_capacity inv → (∀ i, i ∈ l → is_Some (inventory_slot inv i)) → check_slots inv l = Done (Ok tt).
Proof.
  intros Hw. induction l as [|i l IH]; intros Hl; cbn [check_slots]; [done|].
  destruct (Hl i ltac:(by left)) as [s Hs]. rewrite Hs. cbn [expect exec_bind].
  rewrite (proj2 (fits_within_spec _ _) (Hw _ _ Hs)). cbn [negb]. apply IH. intros k Hk. apply Hl. by right.
Qed.

(** Two listings of the same jobs without repetition have the same length. *)
Lemma same_length (l l' : list JobId) : NoDup l → NoDup l' → (∀ x, x ∈ l ↔ x ∈ l') → length l = length l'.
Proof. intros Hn Hn' He. by apply Permutation_length, NoDup_Permutation. Qed.

Lemma iter_filter_elem jobs (f : JobId * Job → bool) x :
  Arena_wf jobs → x ∈ (List.filter f (Arena_iter jobs)).*1 ↔ ∃ j, Arena_get jobs x = Some j ∧ f (x, j) = true.
Proof.
  intros Hwf. rewrite list_elem_of_fmap. split.
  - intros ([y j] & -> & [Hin Hf]%elem_of_List_filter). exists j. split; [by apply Arena_iter_elem|done].
  - intros (j & Hj & Hf). exists (x, j). split; [done|]. apply elem_of_List_filter. split; [by apply Arena_iter_elem|done].
Qed.

Lemma unsatisfied_dep_None jobs ds :
  (∀ d, d ∈ ds → job_state jobs d = Some JobState.Completed) → unsatisfied_dep jobs ds = None.
Proof.
  unfold unsatisfied_dep. induction ds as [|d ds IH]; intros Hd; cbn [find]; [done|].
  specialize (Hd d ltac:(by left)) as Hs. unfold job_state in Hs.
  destruct (Arena_get jobs d) as [j|]; [|done]. injection Hs as Hs.
  rewrite bool_decide_eq_true_2 by done. cbn. apply IH. intros x Hx. apply Hd. by right.
Qed.

Lemma inv_deps_completed s x j d :
  sim_inv s → Arena_get (sm_jobs s) x = Some j → occupies_slot (state j) = true → d ∈ deps j →
  job_state (sm_jobs s) d = Some JobState.Completed.
Proof.
  intros Hs Hj Ho Hd. destruct (waits_past _ _ _ _ _ (mi_waits _ Hs) Hj Hd ltac:(by left)) as [_ Hc].
  pose proof (so_deps _ (mi_jobs _ Hs) x j Hj) as Hl. rewrite Forall_forall in Hl. destruct (Hl d Hd) as [jd Hjd].
  unfold job_state in *. rewrite Hjd in *. cbn in *. by rewrite (Hc _ eq_refl).
Qed.

(** A blocked job has an unfinished dependency of its own. *)
Lemma inv_blocked_waits s x j :
  sim_inv s → Arena_get (sm_jobs s) x = Some j → state j = JobState.Blocked →
  ∃ d jd, d ∈ deps j ∧ Arena_get (sm_jobs s) d = Some jd ∧ is_terminal (state jd) = false.
Proof.
  intros Hs Hj Hb. pose proof (mi_waits _ Hs) as Hw. destruct (wa_deps _ _ Hw) as [Hwf Ha Hblk].
  destruct (proj1 (Hblk x)) as [Hx Hc]; [unfold job_state; rewrite Hj; cbn; by rewrite Hb|].
  destruct (blocked_edge _ x Hwf) as (a & He); [by apply count_id_elem|done|].
  pose proof (ta_live _ _ Ha a (proj1 He)) as (ja & Hja & Hn)%is_pending_live.
  exists a, ja. split; [|done]. by eapply (wa_sound _ _ Hw).
Qed.

Lemma inv_running_count s : sim_inv s → length (sm_running s) = count_if on_slot (Arena_iter (sm_jobs s)).
Proof.
  intros Hs. pose proof (wa_arena _ _ (mi_waits _ Hs)) as Hwf. unfold count_if.
  rewrite <-(length_fmap rj_job), <-(length_fmap fst (List.filter _ _)). apply same_length.
  - apply Hs.
  - apply NoDup_fmap_filter. apply (slot_entries_NoDup (slots (sm_jobs s)) 0). pose proof (wf_bound _ Hwf). lia.
  - intros x. rewrite iter_filter_elem by done. unfold on_slot. cbn. split.
    + intros (r & -> & Hr)%list_elem_of_fmap. destruct (rv_live _ _ (mi_running _ Hs) r Hr) as (j & ? & ? & _). eauto.
    + intros (j & Hj & Ho). by eapply mi_bound.
Qed.

Lemma inv_ready_count s : sim_inv s → pending (sm_scheduler s) = count_if is_ready (Arena_iter (sm_jobs s)).
Proof.
  intros Hs. pose proof (wa_arena _ _ (mi_waits _ Hs)) as Hwf.
  destruct (si_ready _ _ (mi_sched _ Hs)) as [E [(A & Hrep & HA) Hnd Hsound Hcomp]].
  unfold pending. rewrite (ready_len_rep _ _ Hrep), (Permutation_length HA). unfold count_if.
  rewrite <-(length_fmap re_job), <-(length_fmap fst (List.filter _ _)). apply same_length.
  - done.
  - apply NoDup_fmap_filter. apply (slot_entries_NoDup (slots (sm_jobs s)) 0). pose proof (wf_bound _ Hwf). lia.
  - intros x. rewrite iter_filter_elem by done. unfold is_ready. cbn. split.
    + intros (e & -> & He)%list_elem_of_fmap. destruct (Hsound e He) as (j & ? & ? & _). exists j.
      by rewrite bool_decide_eq_true.
    + intros (j & Hj & Hr%bool_decide_eq_true). apply Hcomp. unfold job_state. rewrite Hj. cbn. by rewrite Hr.
Qed.

Lemma check_passes s : sim_inv s → check s = Done (Ok tt).
Proof.
  intros Hs. pose proof (wa_arena _ _ (mi_waits _ Hs)) as Hwf. unfold check.
  rewrite (check_jobs_counts (sm_jobs s)).
  2:{ intros x j Hx%Arena_iter_elem Ho; [|done]. apply unsatisfied_dep_None. intros d Hd. by eapply inv_deps_completed. }
  2:{ intros x j Hx%Arena_iter_elem Hb; [|done]. by eapply inv_blocked_waits. }
  cbn [Nat.add]. pose proof (sv_wf _ _ _ (mi_slots _ Hs)) as Hiw.
  unfold inventory_len. rewrite u32_from_usize_Done by apply Hiw. cbn [exec_bind].
  rewrite check_slots_ok; [|apply Hs|].
  2:{ intros i (k & -> & Hk%elem_of_seq)%list_elem_of_fmap. unfold inventory_slot.
      destruct (vec_get_total (worker_slots (sm_inventory s)) (Z.of_nat k)) as [sl ?]; [lia|by exists sl]. }
  cbn [exec_bind]. rewrite (inv_running_count s Hs), Nat.eqb_refl, (inv_ready_count s Hs), Nat.eqb_refl. cbn [negb].
  assert (forallb (fun r => match Arena_get (sm_jobs s) (rj_job r) with Some j => occupies_slot (state j) | None => false end)
            (sm_running s) = true) as ->; [|done].
  apply forallb_forall. intros r Hr%list_elem_of_In. destruct (rv_live _ _ (mi_running _ Hs) r Hr) as (j & -> & ? & _). done.
Qed.

(** ** Events *)

(** What the invariant does not speak of. *)
Lemma sim_inv_trace s t : sim_inv s → sim_inv (with_trace s t).
Proof. by intros []. Qed.

Lemma sim_inv_queue s q : sim_inv s → sim_inv (with_queue s q).
Proof. by intros []. Qed.

Lemma sim_inv_runs s r : sim_inv s → sim_inv (with_run_counts s r).
Proof. by intros []. Qed.

#[local] Hint Resolve sim_inv_trace sim_inv_queue sim_inv_runs : core.

Lemma record_all_eq s at_ l a : ∃ t, record_all s at_ l a = with_trace s t.
Proof.
  unfold record_all. revert s. induction l as [|x l IH]; intros s; cbn [fold_left]; [exists (sm_trace s); by destruct s|].
  destruct (IH (sim_record s at_ (Some x) a)) as [t ->]. by exists t.
Qed.

Lemma attached_names_length inv inv' :
  length (worker_slots inv') = length (worker_slots inv) → attached_names inv' = attached_names inv.
Proof.
  unfold attached_names. intros E. apply list_eq. intros i. rewrite !list_lookup_fmap.
  destruct (worker_slots inv' !! i) eqn:E1, (worker_slots inv !! i) eqn:E2; try done.
  - apply lookup_lt_Some in E1. apply lookup_ge_None in E2. lia.
  - apply lookup_lt_Some in E2. apply lookup_ge_None in E1. lia.
Qed.

Definition capacities (inv : SlotInventory) : list Resources := capacity <$> worker_slots inv.

Lemma capacities_set inv i w w' :
  vec_get (worker_slots inv) i = Some w → capacity w' = capacity w → capacities (set_slot inv i w') = capacities inv.
Proof.
  intros [Hi Hw]%vec_get_Some Hc. unfold capacities, set_slot. cbn. rewrite list_fmap_insert, Hc. apply list_insert_id.
  by rewrite list_lookup_fmap, Hw.
Qed.

(** The job is off its slot; everything else is where it was. *)
Record freed (s : Simulation) (id : JobId) (inv : SlotInventory) (running : list RunningJob) : Prop := {
  fr_slots : slots_inv inv running (attached_names inv);
  fr_within : within_capacity inv;
  fr_running : running_inv (sm_jobs s) running;
  fr_off : id ∉ rj_job <$> running;
  fr_rest : ∀ x, x ≠ id → x ∈ rj_job <$> sm_running s → x ∈ rj_job <$> running;
  fr_kept : ∀ r, r ∈ running → r ∈ sm_running s;
  fr_caps : capacities inv = capacities (sm_inventory s);
}.

Lemma unbound_freed s id : sim_inv s → id ∉ rj_job <$> sm_running s → freed s id (sm_inventory s) (sm_running s).
Proof. intros Hs Hn. by split; [apply Hs..|done|done|done|done]. Qed.

Lemma sim_release_spec s id :
  sim_inv s → ∃ inv running, sim_release s id = Done (with_binding s inv running) ∧ freed s id inv running.
Proof.
  intros Hs. unfold sim_release. destruct (position _ _) as [pos|] eqn:Ep.
  - apply position_Some in Ep as (r & Hr & Hid%Z.eqb_eq & _). subst id.
    destruct (swap_remove_Done _ _ _ Hr) as (running & -> & Hp). cbn [exec_bind].
    destruct (running_inv_cons _ _ _ _ Hp (mi_running _ Hs)) as [Hrv Hn]. pose proof (mi_slots _ Hs) as Hsl.
    pose proof (list_elem_of_lookup_2 _ _ _ Hr) as Hin. destruct (sv_bound _ _ _ Hsl r Hin) as [w Hw].
    pose proof (slots_inv_release _ (r :: running) _ (slots_inv_perm _ _ _ Hsl _ Hp) r running eq_refl) as Hrel.
    destruct (release (sm_inventory s) (rj_slot r) (rj_resources r)) as [inv [u|e]] eqn:Er.
    2:{ unfold release in Er. by rewrite Hw in Er. }
    exists inv, running. split; [done|]. cbn [fst] in Hrel.
    destruct (release_preserves _ _ _ _ _ (sv_wf _ _ _ Hsl) (sv_wf_running _ _ _ Hsl r Hin) Er) as [_ Hwi].
    split; [|by apply Hwi, Hs|done|done| | |].
    + rewrite (attached_names_length (sm_inventory s)); [done|]. pose proof (sv_names _ _ _ Hrel) as Hl.
      unfold attached_names in Hl. by rewrite length_fmap in Hl.
    + intros x Hx. rewrite Hp, fmap_cons, elem_of_cons. by intros [?|?].
    + intros x Hx. rewrite Hp. by right.
    + unfold release in Er. rewrite Hw in Er. injection Er as <- _. by eapply capacities_set.
  - exists (sm_inventory s), (sm_running s). split; [by destruct s|]. apply unbound_freed; [done|].
    rewrite position_None in Ep. intros (r & -> & Hr)%list_elem_of_fmap. specialize (Ep r Hr). by rewrite Z.eqb_refl in Ep.
Qed.

Lemma present_rel R jobs jobs' x : arena_rel R jobs jobs' → present jobs x → present jobs' x.
Proof. intros Hr [j Hj]. destruct (arena_rel_Some_l _ _ _ _ _ Hr Hj) as (j' & ? & _). by exists j'. Qed.

Lemma submitted_once_like jobs jobs' : arena_rel job_like jobs jobs' → submitted_once jobs → submitted_once jobs'.
Proof.
  intros Hr [H1 H2 H3 H4]. split; [| |by eapply accepted_like|by rewrite <-(ar_free _ _ _ Hr)];
    intros x j' Hj'; destruct (arena_rel_Some _ _ _ _ _ Hr Hj') as (j & Hj & Hl);
    destruct (job_like_fields _ _ Hl) as (_ & _ & _ & _ & -> & _); [|by eapply H2].
  eapply Forall_impl; [by eapply H1|]. intros d. by eapply present_rel.
Qed.

(** Nobody is left waiting for admission. *)
Lemma admitted_after jobs id st l st' jobs' :
  call_effect jobs id st l st' jobs' → st ≠ JobState.Submitted → st' ≠ JobState.Submitted →
  (∀ x, job_state jobs x ≠ Some JobState.Submitted) → ∀ x, job_state jobs' x ≠ Some JobState.Submitted.
Proof. intros Hce H1 H2 H x. rewrite (ce_after _ _ _ _ _ _ Hce x). repeat case_decide; congruence || done. Qed.

(** A lifecycle call that takes a job which is off its slot to a state that
    needs none. *)
Lemma sim_called s id inv running sched jobs st l st' :
  sim_inv s → freed s id inv running → Sched_inv sched jobs → waits (sc_deps sched) jobs →
  call_effect (sm_jobs s) id st l st' jobs → occupies_slot st = false → occupies_slot st' = false →
  st ≠ JobState.Submitted → st' ≠ JobState.Submitted → sim_inv (with_core (with_binding s inv running) sched jobs).
Proof.
  intros Hs [F1 F2 F3 F4 F5] Hsched Hw Hce Hst Hst' Ha1 Ha2. pose proof (ce_like _ _ _ _ _ _ Hce) as Hl. split; cbn; try apply Hs; try done.
  - eapply submitted_once_like; [done|apply Hs].
  - eapply admitted_after; [done..|apply Hs].
  - by eapply running_inv_effect.
  - intros x j Hj Ho. pose proof (ce_after _ _ _ _ _ _ Hce x) as Ha. unfold job_state in Ha at 1. rewrite Hj in Ha. cbn in Ha.
    destruct (decide (x = id)); [congruence|]. destruct (decide (x ∈ l)); [congruence|]. apply F5; [done|].
    unfold job_state in Ha. destruct (Arena_get (sm_jobs s) x) as [j0|] eqn:Hj0; [|done]. injection Ha as Ha.
    eapply (mi_bound _ Hs); [done|]. congruence.
  - eapply Forall_impl; [apply Hs|]. intros x. by eapply present_rel.
Qed.

(** What an event leaves alone; [n] jobs may be new. *)
Record carries (n : nat) (s s' : Simulation) : Prop := {
  ca_queue : sm_queue s' = sm_queue s;
  ca_config : sm_config s' = sm_config s;
  ca_now : sm_now s' = sm_now s;
  ca_tick : sm_tick s' = sm_tick s;
  ca_slots : Z.of_nat (length (slots (sm_jobs s'))) <= Z.of_nat (length (slots (sm_jobs s))) + Z.of_nat n;
  ca_handles : length (sm_handles s') = (length (sm_handles s) + n)%nat;
  ca_evicted : ∀ x, job_state (sm_jobs s') x = Some JobState.Preempted → job_state (sm_jobs s) x = Some JobState.Preempted;
}.

(** Started at some point, and not about to start again. *)
Definition past (st : JobState) : bool :=
  match st with JobState.Running | JobState.Completed | JobState.Failed | JobState.Cancelled => true | _ => false end.

Definition is_past (jobs : Arena Job) (x : JobId) : Prop := ∃ st, job_state jobs x = Some st ∧ past st = true.

Definition same_demand (j j' : Job) : Prop := request j' = request j ∧ walltime_limit j' = walltime_limit j.

(** The event says how this run of the job ends. *)
Definition fate (event : Event) (id : JobId) (run : Z) : Prop := event = Event.Complete id run ∨ event = Event.Fail id run.

(** What an event does to the cluster and its jobs: nothing starts, nothing that
    started is queued again, and a run whose end was due is off its slot. *)
Record settles (event : Event) (s s' : Simulation) : Prop := {
  se_runs : sm_runs s' = sm_runs s;
  se_running : ∀ r, r ∈ sm_running s' → r ∈ sm_running s;
  se_caps : capacities (sm_inventory s') = capacities (sm_inventory s);
  se_past : ∀ x, is_past (sm_jobs s) x → is_past (sm_jobs s') x;
  se_demand : ∀ x j', Arena_get (sm_jobs s') x = Some j' →
    (∃ j, Arena_get (sm_jobs s) x = Some j ∧ same_demand j j') ∨
    (∃ job ds o, event = Event.Submit job ds o ∧ same_demand job j');
  se_ended : ∀ id run, fate event id run → current_run s id run = true → id ∉ rj_job <$> sm_running s';
}.

Lemma carries_refl s : carries 0 s s.
Proof. split; [done..|lia|lia|done]. Qed.

(** The earlier submissions an event names. *)
Definition asked (event : Event) : list nat :=
  match event with
  | Event.Submit _ ds _ => ds
  | Event.Cancel index => [index]
  | _ => []
  end.

(** The errors a simulation may stop with: the event names a job that was not
    submitted yet, or an account beyond the limit. *)
Definition bad_input (s : Simulation) (event : Event) (e : SimError) : Prop :=
  match e with
  | SimError.ForwardDependency i => i ∈ asked event ∧ sm_handles s !! i = None
  | SimError.Lifecycle (LifecycleError.Account _) =>
      ∃ job ds o, event = Event.Submit job ds o ∧ MAX_ACCOUNTS <= account job
  | _ => False
  end.

Definition applies (n : nat) (s : Simulation) (event : Event) (o : exec (result Simulation SimError)) : Prop :=
  ∃ r, o = Done r ∧ match r with
                    | Ok s' => sim_inv s' ∧ carries n s s' ∧ settles event s s'
                    | Err e => bad_input s event e
                    end.

Lemma applies_same s event :
  sim_inv s → (∀ id run, fate event id run → current_run s id run = false) → applies 0 s event (Done (Ok s)).
Proof.
  intros Hs Hf. eexists. split; [done|]. split; [done|]. split; [apply carries_refl|]. split; try done.
  - intros x j Hj. left. by exists j.
  - intros id run Hfate%Hf. by rewrite Hfate.
Qed.

Lemma job_like_demand j j' : job_like j j' → same_demand j j'.
Proof. by intros (_ & _ & ? & ? & _)%job_like_fields. Qed.

Lemma applies_call s event id inv running sched jobs st l st' t :
  sim_inv s → freed s id inv running → Sched_inv sched jobs → waits (sc_deps sched) jobs →
  call_effect (sm_jobs s) id st l st' jobs → occupies_slot st = false → occupies_slot st' = false →
  st ≠ JobState.Submitted → st' ≠ JobState.Submitted →
  past st = true ∨ job_state (sm_jobs s) id = Some JobState.Preempted → (∀ x run, fate event x run → x = id) →
  applies 0 s event (Done (Ok (with_trace (with_core (with_binding s inv running) sched jobs) t))).
Proof.
  intros Hs Hf Hsched Hw Hce Hst Hst' Ha1 Ha2 Hpast Hfate. eexists. split; [done|]. split; [by eapply sim_inv_trace, sim_called|].
  split; [|split; cbn; [done|apply Hf|apply Hf| | |by intros x run ->%Hfate _; apply Hf]]; [split; cbn; try done| |].
  - rewrite (arena_rel_length _ _ _ (ce_like _ _ _ _ _ _ Hce)). lia.
  - intros x. rewrite (ce_after _ _ _ _ _ _ Hce x). repeat case_decide; [by intros [= ->]..|done].
  - intros x (st0 & Hx & Hp0). unfold is_past. rewrite (ce_after _ _ _ _ _ _ Hce x). case_decide as Ex; [|case_decide as El].
    + subst x. destruct Hpast as [?|Hpre]; [by exists st|]. rewrite Hx in Hpre. by simplify_eq.
    + apply (ce_blocked _ _ _ _ _ _ Hce) in El. rewrite Hx in El. by simplify_eq.
    + eauto.
  - intros x j' Hj'. left. destruct (arena_rel_Some _ _ _ _ _ (ce_like _ _ _ _ _ _ Hce) Hj') as (j & Hj & Hl).
    exists j. split; [done|]. by apply job_like_demand.
Qed.

(** The job an event names is on its slot. *)
Lemma current_run_live s id run :
  current_run s id run = true → ∃ j, Arena_get (sm_jobs s) id = Some j ∧ occupies_slot (state j) = true.
Proof. unfold current_run. destruct (Arena_get _ _) as [j|]; [|done]. intros [? _]%andb_prop. eauto. Qed.

Lemma apply_complete s id run : sim_inv s → applies 0 s (Event.Complete id run) (sim_apply s (Event.Complete id run)).
Proof.
  intros Hs. cbn [sim_apply]. destruct (current_run s id run) eqn:Ec; cbn [negb]; [|by apply applies_same; [|intros x k [[= <- <-]|[= <- <-]]]].
  apply current_run_live in Ec as (j & Hj & Ho).
  destruct (sim_release_spec s id Hs) as (inv & running & -> & Hf). cbn [exec_bind].
  destruct (completed_done _ _ _ _ (sm_now s) (sm_config s) (mi_sched _ Hs) (mi_config _ Hs) (mi_now _ Hs) Hj Ho)
    as (p & sched & jobs & E & Hi & Hce & _). cbn. rewrite E. cbn [exec_bind].
  destruct (record_all_eq (sim_record (with_core (with_binding s inv running) sched jobs) (sm_now s) (Some id) Action.Completed)
    (sm_now s) p Action.Promoted) as [t ->].
  eapply (applies_call s _ id _ _ _ _ JobState.Completed p JobState.Ready); try done; [|by left|by intros x k [[= <- _]|?]].
  eapply waits_completed; [exact E|apply Hs].
Qed.

Lemma apply_fail s id run : sim_inv s → applies 0 s (Event.Fail id run) (sim_apply s (Event.Fail id run)).
Proof.
  intros Hs. cbn [sim_apply]. destruct (current_run s id run) eqn:Ec; cbn [negb]; [|by apply applies_same; [|intros x k [[= <- <-]|[= <- <-]]]].
  apply current_run_live in Ec as (j & Hj & Ho).
  destruct (sim_release_spec s id Hs) as (inv & running & -> & Hf). cbn [exec_bind].
  destruct (failed_done _ _ _ _ (sm_now s) (sm_config s) (mi_sched _ Hs) (mi_config _ Hs) (mi_now _ Hs) Hj Ho)
    as (C & sched & jobs & E & Hi & Hce & _). cbn. rewrite E. cbn [exec_bind].
  destruct (record_all_eq (sim_record (with_core (with_binding s inv running) sched jobs) (sm_now s) (Some id) Action.Failed)
    (sm_now s) C Action.Cancelled) as [t ->].
  eapply (applies_call s _ id _ _ _ _ JobState.Failed C JobState.Cancelled); try done; [|by left|by intros x k [?|[= <- _]]].
  eapply waits_failed; [exact E|apply Hs].
Qed.

Lemma apply_preempted s id run : sim_inv s → applies 0 s (Event.Preempted id run) (sim_apply s (Event.Preempted id run)).
Proof.
  intros Hs. assert (∀ x k, ¬ fate (Event.Preempted id run) x k) as Hnf by (by intros x k []). cbn [sim_apply].
  destruct (Arena_get (sm_jobs s) id) as [j|] eqn:Hj; [|by apply applies_same; [|intros x k []%Hnf]].
  case_bool_decide as Hp; [|by apply applies_same; [|intros x k []%Hnf]]. cbn [negb orb].
  destruct (current_run s id run) eqn:Ec; cbn [negb]; [|by apply applies_same; [|intros x k []%Hnf]].
  destruct (sim_release_spec s id Hs) as (inv & running & -> & Hf). cbn [exec_bind].
  destruct (on_preempted_done _ _ _ _ (sm_now s) (sm_config s) (mi_sched _ Hs) (mi_config _ Hs) (mi_now _ Hs) Hj Hp)
    as (sched & jobs & E & Hi & Hce & _). cbn. rewrite E. cbn [exec_bind].
  eapply (applies_call s _ id _ _ _ _ JobState.Ready [] JobState.Ready); try done; [| |by intros x k []%Hnf].
  2:{ right. unfold job_state. rewrite Hj. cbn. by rewrite Hp. }
  eapply waits_evicted; [exact E|apply Hs].
Qed.

(** A job that is [Preempted] is not cancelled (see [cancelled_eviction_leaks]). *)
Lemma apply_cancel s index :
  sim_inv s → (∀ id, sm_handles s !! index = Some id → job_state (sm_jobs s) id ≠ Some JobState.Preempted) →
  applies 0 s (Event.Cancel index) (sim_apply s (Event.Cancel index)).
Proof.
  intros Hs Hnp. assert (∀ x k, ¬ fate (Event.Cancel index) x k) as Hnf by (by intros x k []). cbn [sim_apply].
  destruct (sm_handles s !! index) as [id|] eqn:Eh; [|eexists; split; [done|]; by split; [left|]].
  specialize (Hnp id eq_refl). destruct (Arena_get (sm_jobs s) id) as [j|] eqn:Hj; [|by apply applies_same; [|intros x k []%Hnf]].
  destruct (is_terminal (state j)) eqn:Ht; [by apply applies_same; [|intros x k []%Hnf]|].
  assert (∃ inv running, (if bool_decide (state j = JobState.Running) then sim_release s id else Done s) =
    Done (with_binding s inv running) ∧ freed s id inv running) as (inv & running & -> & Hf).
  { case_bool_decide as Hr; [by apply sim_release_spec|]. exists (sm_inventory s), (sm_running s).
    split; [by destruct s|]. apply unbound_freed; [done|]. intros (r & -> & Hin)%list_elem_of_fmap.
    destruct (rv_live _ _ (mi_running _ Hs) r Hin) as (j' & Hj' & Ho & _). rewrite Hj in Hj'. injection Hj' as <-.
    apply Hnp. unfold job_state. rewrite Hj. cbn. by destruct (state j). }
  cbn [exec_bind].
  destruct (cancel_done _ _ _ _ (sm_now s) (sm_config s) (mi_sched _ Hs) (mi_config _ Hs) (mi_now _ Hs) Hj Ht)
    as (C & sched & jobs & E & Hi & Hce & _). cbn. rewrite E. cbn [exec_bind].
  destruct (record_all_eq (sim_record (with_core (with_binding s inv running) sched jobs) (sm_now s) (Some id) Action.Cancelled)
    (sm_now s) C Action.Cancelled) as [t ->].
  eapply (applies_call s _ id _ _ _ _ JobState.Cancelled C JobState.Cancelled); try done; [|by left|by intros x k []%Hnf].
  eapply waits_cancelled; [exact E|apply Hs].
Qed.

(** ** Submission *)

(** What a scenario may submit. *)
Record submission_ok (job : Job) (ds : list nat) : Prop := {
  sb_wf : Job_wf job;
  sb_accepted : accepted job;
  sb_state : state job = JobState.Submitted;
  sb_deps : Z.of_nat (length ds) <= u32_max;
}.

Lemma resolve_spec handles ds :
  match resolve handles ds with
  | Ok hs => length hs = length ds ∧ Forall (fun h => h ∈ handles) hs
  | Err i => i ∈ ds ∧ handles !! i = None
  end.
Proof.
  induction ds as [|i ds IH]; cbn [resolve]; [done|].
  destruct (handles !! i) as [h|] eqn:Eh; [|by split; [left|]].
  destruct (resolve handles ds) as [hs|k].
  - destruct IH as [Hl Hf]. split; [cbn; by rewrite Hl|]. constructor; [by eapply list_elem_of_lookup_2|done].
  - destruct IH as [? ?]. split; [by right|done].
Qed.

Lemma classify_present id jobs ds p :
  Forall (fun d => d ≠ id ∧ present jobs d) ds → ∃ r, classify_loop id jobs ds p = Ok r.
Proof.
  intros Hf. revert p. induction Hf as [|d ds [Hd [j Hj]] _ IH]; intros p; cbn [classify_loop]; [eauto|].
  rewrite (proj2 (Z.eqb_neq d id)) by done. rewrite Hj. destruct (state j); eauto.
Qed.

Lemma check_submit_present id job jobs :
  Forall (fun d => d ≠ id ∧ present jobs d) (deps job) →
  match check_submit id job jobs with
  | Ok _ => True
  | Err e => e = LifecycleError.Account (MkAccountError (account job)) ∧ MAX_ACCOUNTS <= account job
  end.
Proof.
  intros Hf. unfold check_submit. destruct (Z.leb_spec MAX_ACCOUNTS (account job)); [done|].
  unfold classify. by destruct (classify_present id jobs (deps job) 0 Hf) as [r ->].
Qed.

Lemma job_with_deps_wf job hs : Job_wf job → Forall is_u64 hs → Job_wf (job_with_deps job hs).
Proof. unfold Job_wf. cbn. tauto. Qed.

Lemma Arena_insert_length {T} (a : Arena T) v a' id :
  Arena_insert a v = Done (a', id) → Z.of_nat (length (slots a')) <= Z.of_nat (length (slots a)) + 1.
Proof.
  unfold Arena_insert. intros E. destruct (free_head a).
  - apply exec_bind_Done in E as ([|g n] & _ & E); [done|]. apply exec_bind_Done in E as (sl & Ep & E).
    apply vec_put_inv in Ep as (? & _ & ->). injection E as <- _. cbn. rewrite length_insert. lia.
  - apply exec_bind_Done in E as (i & _ & E). injection E as <- _. cbn. rewrite length_app. cbn. lia.
Qed.

(** With no vacant slot a new job goes to the end. *)
Lemma Arena_insert_last {T} (a : Arena T) v a' id :
  free_head a = None → Arena_insert a v = Done (a', id) →
  free_head a' = None ∧ JobId_index id = Z.of_nat (length (slots a)).
Proof.
  unfold Arena_insert. intros ->. unfold u32_from_usize. destruct (Z.leb_spec (Z.of_nat (length (slots a))) u32_max); [|done].
  intros [= <- <-]. split; [done|]. apply JobId_index_new. lia.
Qed.

Lemma present_index jobs x : present jobs x → JobId_index x < Z.of_nat (length (slots jobs)).
Proof. intros [j H%Arena_get_Some%vec_get_range]. lia. Qed.

(** A new job, in a state that needs no slot. *)
Lemma sim_fresh s sched jobs id j' outcomes t :
  sim_inv s → Sched_inv sched jobs → waits (sc_deps sched) jobs → Arena_get (sm_jobs s) id = None →
  (∀ x, Arena_get jobs x = if decide (id = x) then Some j' else Arena_get (sm_jobs s) x) →
  accepted j' → Forall (fun d => present (sm_jobs s) d ∧ JobId_index d < JobId_index id) (deps j') →
  free_head jobs = None → occupies_slot (state j') = false → state j' ≠ JobState.Submitted →
  sim_inv (with_trace (with_core (with_submission s (sm_handles s ++ [id]) outcomes) sched jobs) t).
Proof.
  intros Hs Hsched Hw Hn Hget Hacc Hd Hfree Ho Hadm. apply Forall_and in Hd as [Hd Hold]. destruct (mi_jobs _ Hs) as [J1 J2 J3 J4].
  assert (∀ x, present (sm_jobs s) x → present jobs x) as Hp.
  { intros x [j Hj]. unfold present. rewrite Hget. case_decide; [eauto|by rewrite Hj]. }
  assert (∀ l, Forall (present (sm_jobs s)) l → Forall (present jobs) l) as Hpl.
  { intros l Hl. by eapply Forall_impl. }
  split; cbn; try apply Hs; try done.
  - split; [| | |done]; intros x j; rewrite Hget; (case_decide as Hx; [intros [= <-]|intros Hj]).
    + by apply Hpl.
    + by eapply Hpl, J1.
    + by rewrite <-Hx.
    + by eapply J2.
    + done.
    + by eapply J3.
  - intros x. unfold job_state. rewrite Hget. case_decide; [cbn; congruence|apply Hs].
  - destruct (mi_running _ Hs) as [R1 R2]. split; [done|]. intros r Hr. destruct (R2 r Hr) as (j & Hj & Hrest).
    exists j. rewrite Hget, decide_False; [done|]. intros E. rewrite E in Hn. congruence.
  - intros x j. rewrite Hget. case_decide; [intros [= <-]; congruence|apply Hs].
  - apply Forall_app. split; [apply Hpl, Hs|]. constructor; [|done]. exists j'. rewrite Hget. by rewrite decide_True.
Qed.

Lemma apply_submit s job ds outcome :
  sim_inv s → submission_ok job ds → Z.of_nat (length (slots (sm_jobs s))) < u32_max →
  applies 1 s (Event.Submit job ds outcome) (sim_apply s (Event.Submit job ds outcome)).
Proof.
  intros Hs [Hwf Hacc Hst Hlen] Hroom. cbn [sim_apply]. pose proof (resolve_spec (sm_handles s) ds) as Hr.
  destruct (resolve (sm_handles s) ds) as [hs|i]; [|by eexists]. destruct Hr as [Hl Hh].
  assert (Forall (present (sm_jobs s)) hs) as Hp.
  { pose proof (mi_handles _ Hs) as Hm. rewrite Forall_forall in Hh, Hm |- *. auto. }
  set (job' := job_with_deps job hs). pose proof (mi_sched _ Hs) as Hsc. pose proof (mi_waits _ Hs) as Hw.
  assert (Job_wf job') as Hwf'.
  { apply job_with_deps_wf; [done|]. eapply Forall_impl; [exact Hp|]. intros x [j Hj]. eapply Arena_get_u64; [apply Hw|done]. }
  destruct (arena_room_insert (sm_jobs s) job' (si_jobs _ _ Hsc) (or_intror Hroom)) as (jobs1 & id & Hins & _ & Hsl & Hid).
  rewrite Hins. cbn [exec_bind]. fold job'.
  pose proof (JobId_index_range id) as Hix.
  rewrite vec_put_Done by (rewrite length_vec_grow; lia). cbn [exec_bind].
  destruct (issued_insert _ _ _ _ (wa_arena _ _ Hw) Hins) as (Hni & Hi1 & _).
  destruct (insert_get _ _ _ _ _ Hsc Hins) as (_ & _ & Hnone & Hget1).
  assert (Z.of_nat (length (deps job')) <= u32_max) as Hlen' by (cbn; lia).
  destruct (submit_fresh (sm_scheduler s) (sm_jobs s) job' jobs1 id (sm_now s) (sm_config s) Hsc Hwf' Hlen' Hst)
    as (_ & sched & jobs & r & E & Hsched & Hr); [|by eapply handle_not_sentinel|done|done|].
  { intros Hin. by apply Hni, (wa_edges _ _ Hw). }
  cbn. rewrite E. cbn [exec_bind].
  pose proof (check_submit_present id job' (sm_jobs s)) as Hc.
  destruct (check_submit id job' (sm_jobs s)) as [rd|e].
  2:{ destruct Hr as [-> ->]. eexists. split; [done|]. destruct Hc as [-> ?]; [|by exists job, ds, outcome].
      eapply Forall_impl; [exact Hp|]. intros x Hx. split; [|done]. intros ->. destruct Hx. congruence. }
  destruct Hr as [-> ->]. eexists. split; [done|].
  assert (Arena_get jobs1 id = Some job') as Hj1 by (rewrite Hget1; by rewrite decide_True).
  assert (∀ x, Arena_get (Arena_set jobs1 id (job_with_state job' (readiness_state rd))) x =
    if decide (id = x) then Some (job_with_state job' (readiness_state rd)) else Arena_get (sm_jobs s) x) as Hget.
  { intros x. rewrite (Arena_set_get _ _ _ _ _ Hj1), Hget1. by repeat case_decide. }
  destruct (submit_frame _ _ _ _ _ _ _ _ E) as [Hlike _].
  destruct (Arena_insert_last _ _ _ _ (so_full _ (mi_jobs _ Hs)) Hins) as [Hfull Hlast]. split.
  - destruct (waits_insert _ _ job' jobs1 id Hw) as (Hw1 & _ & _ & Hnt); [done..|].
    eapply sim_fresh; try done; [by eapply waits_submit| | |by destruct rd|by destruct rd].
    + eapply Forall_impl; [exact Hp|]. intros d Hd. split; [done|]. rewrite Hlast. by apply present_index.
    + by rewrite <-(ar_free _ _ _ Hlike).
  - split; [split|split]; cbn; try done.
    + rewrite <-(arena_rel_length _ _ _ Hlike). by eapply Arena_insert_length.
    + by rewrite length_app.
    + intros x. unfold job_state. rewrite Hget. case_decide; [|done]. by destruct rd.
    + intros x (st & Hx & Hpa). exists st. split; [|done]. unfold job_state in *. rewrite Hget. case_decide; [|done]. subst x. by rewrite Hnone in Hx.
    + intros x j'. rewrite Hget. case_decide; [intros [= <-]; right; by eexists _, _, _|]. intros Hj'. left. by exists j'.
    + by intros x k [].
Qed.

(** ** The cycle *)

(** The events that come from outside: the driver itself schedules neither. *)
Definition external (e : Entry) : bool :=
  match en_event e with
  | Event.Submit _ _ _ | Event.Cancel _ => true
  | _ => false
  end.

Definition asks (q : EventQueue) : list Entry := List.filter external (eq_heap q).

Lemma asks_internal q at_ event :
  external (MkEntry at_ (eq_next_seq q) event) = false → asks (queue_push q at_ event) = asks q.
Proof.
  intros He. unfold asks. cbn. induction (eq_heap q) as [|x l IH]; cbn; [by rewrite He|].
  destruct (Entry_lt _ x); cbn; [by rewrite He|]. by rewrite IH.
Qed.

(** The state with what dispatching adds to it. *)
Definition with_dispatches (s : Simulation) (B : list RunningJob) (q : EventQueue) (t : list TraceRecord) (runs : list Z)
  : Simulation :=
  with_run_counts (with_trace (with_queue (with_binding s (sm_inventory s) (sm_running s ++ B)) q) t) runs.

Lemma sim_on_dispatched_spec s d b at_ :
  started (sm_jobs s) at_ d b →
  ∃ q t runs, sim_on_dispatched s d at_ = Done (with_dispatches s [b] q t runs) ∧ asks q = asks (sm_queue s).
Proof.
  intros (j & Hj & ->). unfold sim_on_dispatched. rewrite Hj. cbn -[vec_grow].
  pose proof (JobId_index_range (dd_job d)) as Hix. set (runs := vec_grow _ _ 0).
  assert (0 <= JobId_index (dd_job d) < Z.of_nat (length runs)) as Hr by (unfold runs; rewrite length_vec_grow; lia).
  destruct (vec_get_total runs _ Hr) as [n Hn]. unfold vec_at. rewrite Hn. cbn [expect exec_bind].
  rewrite vec_put_Done by done. cbn [exec_bind].
  destruct (default _ _) as [after|after]; [destruct (after <=? _)|]; eexists _, _, _; (split; [done|]); by apply asks_internal.
Qed.

Lemma sim_dispatch_fold s ds B at_ :
  Forall2 (started (sm_jobs s) at_) ds B →
  ∃ q t runs, exec_fold (fun s d => sim_on_dispatched s d at_) s ds = Done (with_dispatches s B q t runs) ∧
    asks q = asks (sm_queue s).
Proof.
  intros HB. revert s B HB. induction ds as [|d ds IH]; intros s B HB; inversion HB as [|? b ? B' Hd HB']; subst; cbn [exec_fold].
  { exists (sm_queue s), (sm_trace s), (sm_runs s). split; [|done]. unfold with_dispatches. rewrite app_nil_r. by destruct s. }
  destruct (sim_on_dispatched_spec s d b at_ Hd) as (q1 & t1 & r1 & -> & Hq1). cbn [exec_bind].
  destruct (IH (with_dispatches s [b] q1 t1 r1) B' HB') as (q & t & runs & -> & Hq).
  exists q, t, runs. split; [|by rewrite Hq]. unfold with_dispatches. cbn. by rewrite <-app_assoc.
Qed.

(** What a cycle leaves alone. *)
Record goes_on (s s' : Simulation) : Prop := {
  go_asks : asks (sm_queue s') = asks (sm_queue s);
  go_config : sm_config s' = sm_config s;
  go_now : sm_now s' = sm_now s;
  go_tick : sm_tick s' = sm_tick s;
  go_handles : sm_handles s' = sm_handles s;
  go_slots : length (slots (sm_jobs s')) = length (slots (sm_jobs s));
}.

#[local] Instance goes_on_refl : Reflexive goes_on.
Proof. by split. Qed.
#[local] Instance goes_on_trans : Transitive goes_on.
Proof. intros a b c [] []. split; congruence. Qed.

Lemma started_inv s r ds B q t runs at_ :
  sim_inv s →
  cycle_started (sm_scheduler s) (sm_jobs s) (sm_inventory s) (sm_running s) (attached_names (sm_inventory s)) at_
    (sm_config s) r ds B →
  sim_inv (with_dispatches (with_binding (with_core s (cy_scheduler r) (cy_jobs r)) (cy_inventory r) (sm_running s)) B q t runs).
Proof.
  intros Hs [[C1 C2 C3 C4 C5 C6 C7 C8 C9] Hlike _ HB _ Hst _ Hsl Hrun Htr]. split; cbn; try apply Hs; try done.
  - by eapply waits_trace, Hs.
  - eapply submitted_once_like; [done|apply Hs].
  - intros x. rewrite Hst. case_decide; [done|apply Hs].
  - rewrite (attached_names_length (sm_inventory s)); [done|]. pose proof (sv_names _ _ _ Hsl) as Hl.
    unfold attached_names in Hl. by rewrite length_fmap in Hl.
  - eapply slots_kept_within; [exact C3|apply Hs].
  - intros x j Hj Ho. rewrite fmap_app, (started_jobs _ _ _ _ HB), elem_of_app. pose proof (Hst x) as Hx.
    unfold job_state in Hx at 1. rewrite Hj in Hx. cbn in Hx. case_decide as Hin; [by right|left].
    unfold job_state in Hx. destruct (Arena_get (sm_jobs s) x) as [j0|] eqn:Hj0; [|done]. injection Hx as Hx.
    eapply (mi_bound _ Hs); [done|]. congruence.
  - eapply Forall_impl; [apply Hs|]. intros x. by eapply present_rel.
Qed.

(** ** Evictions *)

Lemma sim_preempted s id sched jobs j :
  sim_inv s → Arena_get (sm_jobs s) id = Some j → state j = JobState.Running →
  Sched_inv sched jobs → waits (sc_deps sched) jobs →
  call_effect (sm_jobs s) id JobState.Preempted [] JobState.Preempted jobs → sim_inv (with_core s sched jobs).
Proof.
  intros Hs Hj Hr Hsched Hw Hce. pose proof (ce_like _ _ _ _ _ _ Hce) as Hl. split; cbn; try apply Hs; try done.
  - eapply submitted_once_like; [done|apply Hs].
  - eapply admitted_after; [done..|apply Hs].
  - eapply running_inv_effect; [apply Hs|done|done].
  - intros x j' Hj' Ho. pose proof (ce_after _ _ _ _ _ _ Hce x) as Ha. unfold job_state in Ha at 1. rewrite Hj' in Ha. cbn in Ha.
    destruct (decide (x = id)) as [->|]; [eapply (mi_bound _ Hs); [done|by rewrite Hr]|].
    rewrite decide_False in Ha by apply not_elem_of_nil.
    unfold job_state in Ha. destruct (Arena_get (sm_jobs s) x) as [j0|] eqn:Hj0; [|done]. injection Ha as Ha.
    eapply (mi_bound _ Hs); [done|]. congruence.
  - eapply Forall_impl; [apply Hs|]. intros x. by eapply present_rel.
Qed.

Lemma evict_victim_ok s n e at_ :
  sim_inv s → sim_inv (evict_victim at_ (s, n) e).1 ∧ goes_on s (evict_victim at_ (s, n) e).1.
Proof.
  intros Hs. cbn [evict_victim].
  assert (with_core s (sm_scheduler s) (sm_jobs s) = s) as Hsame by by destruct s.
  destruct (Arena_get (sm_jobs s) (ev_job e)) as [j|] eqn:Hj.
  2:{ unfold preempt. rewrite Hj. cbn [fst]. by rewrite Hsame. }
  destruct (decide (state j = JobState.Running)) as [Hr|Hr].
  - destruct (preempt_done _ _ _ _ (mi_sched _ Hs) Hj Hr) as (sched & jobs & E & Hi & Hce & _).
    injection E as E. rewrite E. cbn [fst]. split.
    + apply sim_inv_queue, sim_inv_trace. eapply sim_preempted; try done. eapply waits_preempt; [exact E|apply Hs].
    + split; cbn; try done; [by apply asks_internal|]. symmetry. eapply arena_rel_length, Hce.
  - unfold preempt. rewrite Hj. unfold try_transition. destruct (state j); try done; cbn -[with_core]; by rewrite Hsame.
Qed.

Lemma evict_victims_ok s n es at_ :
  sim_inv s → sim_inv (fold_left (evict_victim at_) es (s, n)).1 ∧ goes_on s (fold_left (evict_victim at_) es (s, n)).1.
Proof.
  revert s n. induction es as [|e es IH]; intros s n Hs; cbn [fold_left]; [by split|].
  destruct (evict_victim_ok s n e at_ Hs) as [H1 G1]. destruct (evict_victim at_ (s, n) e) as [s1 n1].
  destruct (IH s1 n1 H1) as [H2 G2]. split; [done|by etrans].
Qed.

Lemma sim_running_ok s : sim_inv s → running_ok (sm_running s).
Proof.
  intros Hs. apply Forall_forall. intros r Hr. by apply Resources_wf_nonneg, (sv_wf_running _ _ _ (mi_slots _ Hs)).
Qed.

Lemma preempt_for_ok s head at_ :
  sim_inv s →
  ∃ s' n, preempt_for s head at_ = Done (s', n) ∧ sim_inv s' ∧ goes_on s s' ∧
    (min_class (cc_preempt (sm_config s)) = None → s' = s).
Proof.
  intros Hs. unfold preempt_for. destruct head as [head|]; [|by exists s, 0%nat].
  destruct (Arena_get (sm_jobs s) head) as [j|] eqn:Hj; cbn [exec_bind]; [|by exists s, 0%nat].
  destruct (plan_preemption_spec j (sm_running s) (sm_jobs s) (sm_inventory s) at_ (cc_preempt (sm_config s)) [])
    as (evs & o & E & Ho).
  { by eapply jobs_ok_requests; [apply Hs|]. } { by apply sim_running_ok. } { apply Hs. }
  rewrite E. cbn [exec_bind]. destruct (evict_victims_ok s 0 ([] ++ evs) at_ Hs) as [H1 G1].
  destruct (fold_left _ _ _) as [s' n] eqn:Ef. exists s', n. split_and!; try done.
  intros Hm. unfold plan_preemption in E. rewrite Hm in E. injection E as E _. rewrite <-E in Ef. by injection Ef as -> _.
Qed.

(** A cycle and what follows from it. *)
Lemma sim_cycle_ok s at_ :
  sim_inv s → is_u64 at_ →
  ∃ s' out n, sim_cycle s at_ = Done (s', out, n) ∧ sim_inv s' ∧ goes_on s s' ∧
    (min_class (cc_preempt (sm_config s)) = None →
     ∀ x, job_state (sm_jobs s') x = Some JobState.Preempted → job_state (sm_jobs s) x = Some JobState.Preempted).
Proof.
  intros Hs Hat. unfold sim_cycle.
  destruct (cycle_starts _ _ _ _ _ at_ _ (mi_sched _ Hs) (mi_config _ Hs) Hat (so_accepted _ (mi_jobs _ Hs)) (mi_slots _ Hs) (mi_running _ Hs))
    as (r & ds & B & -> & Hc). cbn [exec_bind].
  rewrite (cp_decisions _ _ _ _ _ _ (cs_post _ _ _ _ _ _ _ _ _ _ Hc)). cbn [app].
  set (s0 := sim_record _ at_ None _).
  destruct (sim_dispatch_fold s0 ds B at_ (cs_after _ _ _ _ _ _ _ _ _ _ Hc)) as (q & t & runs & -> & Hq). cbn [exec_bind].
  assert (sim_inv (with_dispatches s0 B q t runs)) as H1.
  { apply (started_inv s r ds B q t runs at_ Hs Hc). }
  destruct (preempt_for_ok _ (co_head (cy_outcome r)) at_ H1) as (s' & n & -> & H2 & G2 & Hoff). cbn [exec_bind].
  exists s', (cy_outcome r), n. split; [done|]. split; [done|]. split.
  - etrans; [|exact G2]. split; cbn; try done. symmetry. eapply arena_rel_length, Hc.
  - intros Hm x. rewrite (Hoff Hm). cbn. rewrite (cs_states _ _ _ _ _ _ _ _ _ _ Hc). by case_decide.
Qed.
