(* ===== verification/SimRun.v ===== *)
(** * Whole simulations

    A simulation whose queue asks for things in an order that can be served
    steps without an error and without a violation, as long as it runs; and the
    queues that hold a generated scenario are such. *)

From stdpp Require Import base strings list numbers option sets relations sorting.
From Stdlib Require Import ZArith Lia.
From S2P Require Import Prelude Domain Arena Job Inventory Priority ReadySet Eligibility.
From S2P Require Import Decay FairShare Pack Backfill Preempt Scheduler Cycle Frame.
From S2P Require Import EngineInv EngineSteps EngineTick EngineRun Order Sim SimInv.
Open Scope Z_scope.
Open Scope list_scope.

(** ** What a queue asks for *)

Definition is_submit (e : Entry) : bool := match en_event e with Event.Submit _ _ _ => true | _ => false end.
Definition is_cancel (e : Entry) : bool := match en_event e with Event.Cancel _ => true | _ => false end.

(** Every job named was submitted by an earlier event; [n] were before. *)
Fixpoint well_ordered (n : nat) (l : list Entry) : Prop :=
  match l with
  | [] => True
  | e :: l => Forall (fun i => i < n)%nat (asked (en_event e)) ∧ well_ordered (if is_submit e then S n else n) l
  end.

Definition event_ok (e : Entry) : Prop :=
  match en_event e with
  | Event.Submit job ds _ => submission_ok job ds ∧ account job < MAX_ACCOUNTS
  | _ => True
  end.

(** A simulation that can go on: the invariant, and a queue that asks for what
    can be had.  Cancelling is asked for only while eviction is off. *)
Record plan_ok (s : Simulation) : Prop := {
  pl_inv : sim_inv s;
  pl_tick : is_u64 (sm_tick s);
  pl_order : well_ordered (length (sm_handles s)) (asks (sm_queue s));
  pl_events : Forall event_ok (asks (sm_queue s));
  pl_room : Z.of_nat (length (slots (sm_jobs s))) + Z.of_nat (count_if is_submit (asks (sm_queue s))) <= u32_max;
  pl_quiet : min_class (cc_preempt (sm_config s)) = None → ∀ x, job_state (sm_jobs s) x ≠ Some JobState.Preempted;
  pl_cancels : min_class (cc_preempt (sm_config s)) ≠ None → Forall (fun e => is_cancel e = false) (asks (sm_queue s));
}.

(** The jobs submitted and still to be submitted. *)
Definition planned (s : Simulation) : nat := (length (sm_handles s) + count_if is_submit (asks (sm_queue s)))%nat.

(** ** Delivery *)

Definition new_jobs (e : Entry) : nat := if is_submit e then 1 else 0.

Lemma apply_event s e :
  sim_inv s → event_ok e → (is_submit e = true → Z.of_nat (length (slots (sm_jobs s))) < u32_max) →
  (is_cancel e = true → ∀ x, job_state (sm_jobs s) x ≠ Some JobState.Preempted) →
  applies (new_jobs e) s (en_event e) (sim_apply s (en_event e)).
Proof.
  intros Hs He Hroom Hc. unfold event_ok, new_jobs, is_submit, is_cancel in *. destruct (en_event e).
  - apply apply_submit; [done|apply He|auto].
  - apply apply_cancel; auto.
  - by apply apply_complete.
  - by apply apply_fail.
  - by apply apply_preempted.
Qed.

(** The next event, whatever it is, is served. *)
Lemma deliver_one s e l seq :
  plan_ok s → eq_heap (sm_queue s) = e :: l →
  let s1 := with_queue s (MkEventQueue l seq) in
  ∃ s', sim_apply s1 (en_event e) = Done (Ok s') ∧ plan_ok s' ∧ carries (new_jobs e) s1 s' ∧
    settles (en_event e) s1 s' ∧ planned s' = planned s.
Proof.
  intros [H1 H2 H3 H4 H5 H6 H7] Eq s1. unfold planned, asks in *. rewrite Eq in *. cbn [List.filter] in *.
  assert (∀ x, external x = false → is_submit x = false ∧ is_cancel x = false ∧ asked (en_event x) = []) as Hint.
  { intros x. unfold external, is_submit, is_cancel. by destruct (en_event x). }
  destruct (apply_event s1 e) as (r & Er & Hr).
  { by apply sim_inv_queue. }
  { destruct (external e) eqn:Ex; [by inversion H4|]. unfold external, event_ok in *. by destruct (en_event e). }
  { intros Hsub. destruct (external e) eqn:Ex; [|destruct (Hint e Ex) as [? _]; congruence].
    rewrite count_if_cons, Hsub in H5. cbn. lia. }
  { intros Hca. destruct (external e) eqn:Ex; [|destruct (Hint e Ex) as (_ & ? & _); congruence].
    destruct (min_class (cc_preempt (sm_config s))) eqn:Em; [|by apply H6].
    specialize (H7 ltac:(done)). inversion H7; congruence. }
  destruct r as [s'|err].
  - destruct Hr as (Hs' & Hca & Hse). exists s'. split; [done|]. pose proof Hca as [K1 K2 K3 K4 K5 K6 K7].
    cbn in K1, K2, K3, K4, K5, K6, K7. unfold new_jobs in K5, K6. split; [|split; [done|split; [done|]]].
    2:{ rewrite K6, K1. cbn -[count_if]. destruct (external e) eqn:Ex; [rewrite count_if_cons; lia|].
        destruct (Hint e Ex) as (-> & _). lia. }
    split; rewrite ?K1, ?K2, ?K4; try done; unfold asks; cbn -[count_if].
    + rewrite K6. destruct (external e) eqn:Ex.
      * destruct H3 as [_ H3]. destruct (is_submit e); [by rewrite Nat.add_1_r|by rewrite Nat.add_0_r].
      * destruct (Hint e Ex) as (-> & _). by rewrite Nat.add_0_r.
    + destruct (external e); [by inversion H4|done].
    + destruct (external e) eqn:Ex.
      * rewrite count_if_cons in H5. destruct (is_submit e); lia.
      * destruct (Hint e Ex) as (Es & _). rewrite Es in K5. lia.
    + intros Hm x Hx%K7. by eapply H6.
    + intros Hm. specialize (H7 Hm). destruct (external e); [by inversion H7|done].
  - exfalso. destruct err as [i|le|v]; cbn in Hr; [| |done].
    + destruct Hr as [Hi Hn]. apply lookup_ge_None in Hn. cbn in Hn. destruct (external e) eqn:Ex.
      * destruct H3 as [H3 _]. rewrite Forall_forall in H3. specialize (H3 i Hi). lia.
      * destruct (Hint e Ex) as (_ & _ & Ea). rewrite Ea in Hi. by apply elem_of_nil in Hi.
    + destruct le; try done. destruct Hr as (job & ds & o & Ee & Hacc).
      assert (external e = true) as Ex by (unfold external; by rewrite Ee). rewrite Ex in H4. inversion H4 as [|? ? He _]; subst.
      unfold event_ok in He. rewrite Ee in He. lia.
Qed.

Lemma checked_ok s : sim_inv s → checked s = Done (Ok tt).
Proof. intros Hs. unfold checked. destruct (sm_check s); [|done]. by rewrite check_passes. Qed.

(** Every due event is delivered, each was served, and no due one is left. *)
Lemma deliver_due_ok fuel s at_ n :
  plan_ok s → (length (eq_heap (sm_queue s)) < fuel)%nat →
  ∃ s' n', deliver_due fuel s at_ n = Done (Ok (s', n')) ∧ plan_ok s' ∧
    sm_now s' = sm_now s ∧ sm_config s' = sm_config s ∧ sm_tick s' = sm_tick s ∧
    (∀ t, queue_next_at (sm_queue s') = Some t → at_ < t) ∧ planned s' = planned s ∧
    (n + length (eq_heap (sm_queue s)) = n' + length (eq_heap (sm_queue s')))%nat.
Proof.
  revert s n. induction fuel as [|fuel IH]; intros s n Hp Hf; [lia|]. cbn [deliver_due].
  unfold pop_due, queue_next_at. destruct (eq_heap (sm_queue s)) as [|e l] eqn:Eq; cbn.
  { exists s, n. rewrite Eq. split_and!; try done. }
  destruct (Z.ltb_spec at_ (en_at e)) as [Hlt|Hge].
  { exists s, n. rewrite Eq. split_and!; try done. cbn. by intros t [= <-]. }
  destruct (deliver_one s e l (eq_next_seq (sm_queue s)) Hp Eq) as (s1 & -> & H1 & Hc & _ & Hpl). cbn [exec_bind].
  rewrite (checked_ok s1) by apply H1. cbn [exec_bind].
  pose proof (ca_queue _ _ _ Hc) as Hq. cbn in Hq, Hf.
  destruct (IH s1 (S n) H1) as (s' & n' & -> & H2 & E1 & E2 & E3 & Hd & Hpl' & Hl); [rewrite Hq; cbn; lia|].
  exists s', n'. split_and!; try done.
  - by rewrite E1, (ca_now _ _ _ Hc).
  - by rewrite E2, (ca_config _ _ _ Hc).
  - by rewrite E3, (ca_tick _ _ _ Hc).
  - by rewrite Hpl'.
  - rewrite Hq in Hl. cbn in Hl. lia.
Qed.

Lemma time_add_spec t d : is_u64 t → is_u64 d → t <= time_saturating_add t d ∧ is_u64 (time_saturating_add t d).
Proof. unfold time_saturating_add, is_u64, sat_add. lia. Qed.

(** The cycle asks for nothing new. *)
Lemma sim_cycle_plan s at_ :
  plan_ok s → is_u64 at_ →
  ∃ s' out n, sim_cycle s at_ = Done (s', out, n) ∧ plan_ok s' ∧ goes_on s s'.
Proof.
  intros [K1 K2 K3 K4 K5 K6 K7] H64. destruct (sim_cycle_ok s at_ K1 H64) as (s2 & out & k & -> & H2 & G & Hq).
  exists s2, out, k. split; [done|]. split; [|done]. pose proof G as [G1 G2 G3 G4 G5 G6].
  split; rewrite ?G1, ?G2, ?G4, ?G5, ?G6; try done. intros Hm x Hx%Hq; [|done]. by eapply K6.
Qed.

Lemma goes_on_planned s s' : goes_on s s' → planned s' = planned s.
Proof. intros [G1 _ _ _ G5 _]. unfold planned. by rewrite G1, G5. Qed.

(** One tick. *)
Lemma sim_step_ok s :
  plan_ok s →
  ∃ s' rep, step s = Done (Ok (s', rep)) ∧ plan_ok s' ∧ sm_now s' = time_saturating_add (sm_now s) (sm_tick s) ∧
    sp_at rep = sm_now s' ∧ sm_config s' = sm_config s ∧ sm_tick s' = sm_tick s ∧ check s' = Done (Ok tt) ∧ planned s' = planned s.
Proof.
  intros Hp. unfold step. destruct (time_add_spec (sm_now s) (sm_tick s)) as [Hle H64]; [apply Hp..|].
  set (at_ := time_saturating_add _ _) in *. unfold advance_to. rewrite (proj2 (Z.leb_le _ _) Hle). cbn [exec_bind].
  assert (plan_ok (with_now s at_)) as Hp0.
  { destruct Hp as [[] ? ? ? ? ? ?]. split; try done. }
  destruct (deliver_due_ok (S (queue_len (sm_queue (with_now s at_)))) _ at_ 0 Hp0)
    as (s1 & n & -> & H1 & E1 & E2 & E3 & _ & Hpl & _); [unfold queue_len; lia|]. cbn [exec_bind].
  destruct (sim_cycle_plan s1 at_ H1 H64) as (s2 & out & k & -> & H2 & G). cbn [exec_bind].
  rewrite (checked_ok s2) by apply H2. cbn [exec_bind]. eexists s2, _. split; [done|]. cbn in E1, E2, E3.
  rewrite (goes_on_planned _ _ G). destruct G as [G1 G2 G3 G4 G5 G6]. split_and!; try congruence; try done; [by rewrite G3|by apply check_passes, H2].
Qed.

Lemma run_to_quiescence_ok n s :
  plan_ok s → ∃ s' b, run_to_quiescence n s = Done (Ok (s', b)) ∧ plan_ok s' ∧ b = is_quiescent s' ∧ planned s' = planned s.
Proof.
  revert s. induction n as [|n IH]; intros s Hp; cbn [run_to_quiescence]; [by exists s, (is_quiescent s)|].
  destruct (is_quiescent s) eqn:Eq; [by exists s, true|].
  destruct (sim_step_ok s Hp) as (s1 & rep & -> & H1 & _ & _ & _ & _ & _ & Hpl). cbn [exec_bind]. rewrite <-Hpl. by apply IH.
Qed.

(** A tick that is not zero gets the clock to any instant. *)
Lemma run_until_ok s end_ :
  plan_ok s → is_u64 end_ → 0 < sm_tick s →
  ∃ fuel s', run_until fuel s end_ = Done (Ok s') ∧ plan_ok s' ∧ end_ <= sm_now s'.
Proof.
  intros Hp He Ht.
  assert (∀ fuel s, plan_ok s → 0 < sm_tick s → (Z.to_nat (end_ - sm_now s) <= fuel)%nat →
    ∃ s', run_until fuel s end_ = Done (Ok s') ∧ plan_ok s' ∧ end_ <= sm_now s') as Hrun.
  { clear s Hp Ht. induction fuel as [|fuel IH]; intros s Hp Ht Hf; cbn [run_until]; (destruct (Z.ltb_spec (sm_now s) end_); [|by exists s]); [lia|].
    destruct (sim_step_ok s Hp) as (s1 & rep & -> & H1 & En & _ & _ & Et & _). cbn [exec_bind]. apply IH; [done|by rewrite Et|].
    rewrite En. unfold time_saturating_add, sat_add. pose proof (mi_now _ (pl_inv _ Hp)). unfold is_u64 in *. lia. }
  exists (Z.to_nat (end_ - sm_now s)). by apply Hrun.
Qed.

(** ** Quiescence *)

Lemma inv_ready_queued s x j :
  sim_inv s → Arena_get (sm_jobs s) x = Some j → state j = JobState.Ready → pending (sm_scheduler s) ≠ 0%nat.
Proof.
  intros Hs Hj Hr. rewrite (inv_ready_count s Hs). unfold count_if.
  assert (x ∈ (List.filter is_ready (Arena_iter (sm_jobs s))).*1) as Hx.
  { apply iter_filter_elem; [apply Hs|]. exists j. split; [done|]. by apply bool_decide_eq_true. }
  destruct (List.filter _ _); [by apply elem_of_nil in Hx|done].
Qed.

(** Nothing queued, ready or running means that every job has finished: a
    blocked job would wait for an older one. *)
Lemma quiescent_finished s x j :
  sim_inv s → is_quiescent s = true → Arena_get (sm_jobs s) x = Some j → is_terminal (state j) = true.
Proof.
  intros Hs [[_ Hr%Nat.eqb_eq]%andb_prop Hl%Nat.eqb_eq]%andb_prop.
  pose proof (JobId_index_range x) as [Hx _]. revert Hx j. remember (JobId_index x) as i eqn:Ei. intros Hx. revert x Ei.
  induction i as [i IH] using (well_founded_induction (Z.lt_wf 0)). intros x -> j Hj. destruct (state j) eqn:Es; try done; exfalso.
  - apply (mi_admitted _ Hs x). unfold job_state. rewrite Hj. cbn. by rewrite Es.
  - destruct (inv_blocked_waits s x j Hs Hj Es) as (d & jd & Hd & Hjd & Hn).
    pose proof (so_older _ (mi_jobs _ Hs) x j Hj) as Ho. rewrite Forall_forall in Ho. specialize (Ho d Hd). cbn in Ho.
    pose proof (JobId_index_range d). rewrite (IH (JobId_index d) ltac:(lia) ltac:(lia) d eq_refl jd Hjd) in Hn. done.
  - by eapply inv_ready_queued.
  - pose proof (mi_bound _ Hs x j Hj ltac:(by rewrite Es)) as Hin. apply nil_length_inv in Hl. rewrite Hl in Hin.
    by apply elem_of_nil in Hin.
  - pose proof (mi_bound _ Hs x j Hj ltac:(by rewrite Es)) as Hin. apply nil_length_inv in Hl. rewrite Hl in Hin.
    by apply elem_of_nil in Hin.
Qed.

(** ** Loading a queue *)

Lemma Entry_lt_spec a b : Entry_lt a b = true ↔ en_at a < en_at b ∨ (en_at a = en_at b ∧ en_seq a < en_seq b).
Proof.
  unfold Entry_lt, Entry_cmp. destruct (Z.compare_spec (en_at a) (en_at b)) as [E|E|E].
  - destruct (Z.compare_spec (en_seq a) (en_seq b)); split; try done; lia.
  - split; [by left|done].
  - split; [done|lia].
Qed.

Definition entry_lt (a b : Entry) : Prop := Entry_lt a b = true.

Lemma entry_insert_elem e l x : x ∈ entry_insert e l ↔ x = e ∨ x ∈ l.
Proof.
  induction l as [|y l IH]; cbn [entry_insert]; [set_solver|]. destruct (Entry_lt e y); [set_solver|].
  rewrite !elem_of_cons, IH. tauto.
Qed.

(** The queue stays in delivery order: by time, then by insertion. *)
Lemma entry_insert_sorted e l :
  StronglySorted entry_lt l → Forall (fun x => en_seq x < en_seq e) l → StronglySorted entry_lt (entry_insert e l).
Proof.
  induction 1 as [|x l Hl IH Hx]; intros Hs; cbn [entry_insert]; [by repeat constructor|].
  inversion Hs as [|? ? Hxe Hs']; subst. destruct (Entry_lt e x) eqn:Elt.
  - constructor; [by constructor|]. constructor; [done|]. eapply Forall_impl; [exact Hx|]. intros y Hy.
    unfold entry_lt in *. rewrite Entry_lt_spec in *. lia.
  - constructor; [by apply IH|]. apply Forall_forall. intros y [->|Hy]%entry_insert_elem.
    + unfold entry_lt. rewrite Entry_lt_spec. apply not_true_iff_false in Elt. rewrite Entry_lt_spec in Elt. lia.
    + rewrite Forall_forall in Hx. by apply Hx.
Qed.

Lemma well_ordered_mono n m l : (n <= m)%nat → well_ordered n l → well_ordered m l.
Proof.
  revert n m. induction l as [|e l IH]; intros n m Hle; cbn; [done|]. intros [Ha Hl]. split.
  - eapply Forall_impl; [exact Ha|]. cbn. lia.
  - eapply IH; [|exact Hl]. destruct (is_submit e); lia.
Qed.

Lemma count_if_zero {A} (f : A → bool) l : (∀ x, x ∈ l → f x = false) → count_if f l = 0%nat.
Proof.
  intros Hf. induction l as [|x l IH]; [done|]. rewrite count_if_cons, (Hf x) by by left. apply IH. intros y Hy. apply Hf. by right.
Qed.

(** A new event that comes after every submission it names. *)
Lemma well_ordered_insert n e l :
  StronglySorted entry_lt l → Forall (fun x => en_seq x < en_seq e) l →
  Forall (fun x => is_submit x = true → en_at x <= en_at e) l →
  well_ordered n l → Forall (fun i => i < n + count_if is_submit l)%nat (asked (en_event e)) →
  well_ordered n (entry_insert e l).
Proof.
  intros Hl. revert n. induction Hl as [|x l Hl IH Hx]; intros n Hs Ht Hw Ha.
  { cbn. split; [|done]. eapply Forall_impl; [exact Ha|]. cbn. lia. }
  inversion Hs as [|? ? Hsx Hs']; subst. inversion Ht as [|? ? Htx Ht']; subst. cbn [entry_insert].
  destruct (Entry_lt e x) eqn:Elt.
  - assert (∀ y, y ∈ x :: l → is_submit y = false) as Hno.
    { intros y Hy. apply not_true_is_false. intros Hsub. rewrite Entry_lt_spec in Elt. rewrite Forall_forall in Hs, Ht, Hx.
      pose proof (Hs y Hy). pose proof (Ht y Hy Hsub). cbn in *.
      apply elem_of_cons in Hy as [->|Hy]; [lia|]. specialize (Hx y Hy). unfold entry_lt in Hx. rewrite Entry_lt_spec in Hx. lia. }
    rewrite (count_if_zero is_submit (x :: l) Hno) in Ha. split.
    + eapply Forall_impl; [exact Ha|]. cbn. lia.
    + eapply well_ordered_mono; [|exact Hw]. destruct (is_submit e); lia.
  - destruct Hw as [Hw1 Hw2]. split; [done|]. rewrite count_if_cons in Ha. apply IH; try done.
    eapply Forall_impl; [exact Ha|]. cbn. destruct (is_submit x); lia.
Qed.

(** Every event names earlier submissions and comes no earlier than they do. *)
Fixpoint in_order (n : nat) (t : VirtualTime) (events : list (VirtualTime * Event)) : Prop :=
  match events with
  | [] => True
  | (at_, e) :: events =>
      t <= at_ ∧ Forall (fun i => i < n)%nat (asked e) ∧
      match e with
      | Event.Submit _ _ _ => in_order (S n) at_ events
      | _ => in_order n t events
      end
  end.

(** The events of a list, scheduled in order. *)
Definition load (s : Simulation) (events : list (VirtualTime * Event)) : Simulation :=
  fold_left (fun s p => sim_schedule s p.1 p.2) events s.

Definition submits (events : list (VirtualTime * Event)) : nat :=
  count_if (fun p => match p.2 with Event.Submit _ _ _ => true | _ => false end) events.

(** What may be scheduled from outside. *)
Definition plannable (config : CycleConfig) (p : VirtualTime * Event) : Prop :=
  match p.2 with
  | Event.Submit job ds _ => submission_ok job ds ∧ account job < MAX_ACCOUNTS
  | Event.Cancel _ => min_class (cc_preempt config) = None
  | _ => False
  end.

Lemma count_entry_insert f e l : count_if f (entry_insert e l) = ((if f e then 1 else 0) + count_if f l)%nat.
Proof.
  induction l as [|x l IH]; cbn [entry_insert]; [by rewrite count_if_cons|].
  destruct (Entry_lt e x); rewrite !count_if_cons; [done|]. rewrite IH. lia.
Qed.

(** A simulation whose queue holds only what was scheduled from outside; [n]
    submissions so far, the last at [t], and [k] more events can be numbered. *)
Record loading (n : nat) (t : VirtualTime) (k : nat) (s : Simulation) : Prop := {
  ld_plan : plan_ok s;
  ld_external : Forall (fun e => external e = true) (eq_heap (sm_queue s));
  ld_sorted : StronglySorted entry_lt (eq_heap (sm_queue s));
  ld_seq : Forall (fun e => en_seq e < eq_next_seq (sm_queue s)) (eq_heap (sm_queue s));
  ld_next : 0 <= eq_next_seq (sm_queue s) ∧ eq_next_seq (sm_queue s) + Z.of_nat k <= u64_max;
  ld_count : n = (length (sm_handles s) + count_if is_submit (eq_heap (sm_queue s)))%nat;
  ld_times : Forall (fun e => is_submit e = true → en_at e <= t) (eq_heap (sm_queue s));
}.

Lemma asks_all q : Forall (fun e => external e = true) (eq_heap q) → asks q = eq_heap q.
Proof. unfold asks. induction 1 as [|e l He _ IH]; [done|]. cbn. by rewrite He, IH. Qed.

Lemma Forall_insert (P : Entry → Prop) e l : P e → Forall P l → Forall P (entry_insert e l).
Proof. rewrite !Forall_forall. intros He Hl x [->|?]%entry_insert_elem; auto. Qed.

Lemma schedule_loading n t k s at_ event :
  loading n t (S k) s → t <= at_ → Forall (fun i => i < n)%nat (asked event) → plannable (sm_config s) (at_, event) →
  Z.of_nat (length (slots (sm_jobs s))) + Z.of_nat (count_if is_submit (eq_heap (sm_queue s))) + Z.of_nat (submits [(at_, event)]) <= u32_max →
  let sub := match event with Event.Submit _ _ _ => true | _ => false end in
  loading (if sub then S n else n) (if sub then at_ else t) k (sim_schedule s at_ event).
Proof.
  intros [[P1 P2 P3 P4 P5 P6 P7] L2 L3 L4 L5 L6 L7] Ht Ha Hp Hroom sub. rewrite (asks_all _ L2) in P3, P4, P5, P7.
  set (e := MkEntry at_ (eq_next_seq (sm_queue s)) event).
  assert (external e = true) as Hext by (unfold external, plannable in *; cbn in *; by destruct event).
  assert (eq_heap (queue_push (sm_queue s) at_ event) = entry_insert e (eq_heap (sm_queue s))) as Hh by done.
  assert (eq_next_seq (queue_push (sm_queue s) at_ event) = eq_next_seq (sm_queue s) + 1) as Hn.
  { cbn. unfold wrap64. rewrite Z.mod_small; lia. }
  assert (asks (queue_push (sm_queue s) at_ event) = entry_insert e (eq_heap (sm_queue s))) as Hask.
  { by rewrite asks_all; [|rewrite Hh; apply Forall_insert]. }
  assert (Forall (fun x => is_submit x = true → en_at x <= en_at e) (eq_heap (sm_queue s))) as Hle.
  { eapply Forall_impl; [exact L7|]. intros x Hx Hs. specialize (Hx Hs). cbn. lia. }
  assert (is_submit e = sub) as Hsub by (by destruct event).
  assert (submits [(at_, event)] = if sub then 1 else 0)%nat as Hsubs by (by destruct event).
  split; cbn [sim_schedule with_queue sm_queue]; rewrite ?Hh.
  - split; cbn [sim_schedule with_queue sm_queue sm_handles sm_jobs sm_config sm_tick]; rewrite ?Hask; try done.
    + by apply sim_inv_queue.
    + apply well_ordered_insert; try done. by rewrite <-L6.
    + apply Forall_insert; [|done]. unfold event_ok. cbn. unfold plannable in Hp. cbn in Hp. by destruct event.
    + rewrite count_entry_insert, Hsub. destruct sub; lia.
    + intros Hm. apply Forall_insert; [|by apply P7]. unfold is_cancel, plannable in *. cbn in *. by destruct event.
  - by apply Forall_insert.
  - by apply entry_insert_sorted.
  - rewrite Hn. apply Forall_insert; [cbn; lia|]. eapply Forall_impl; [exact L4|]. cbn. lia.
  - rewrite Hn. lia.
  - rewrite count_entry_insert, Hsub. cbn. destruct sub; lia.
  - apply Forall_insert; [cbn; rewrite Hsub; by destruct sub|]. eapply Forall_impl; [exact L7|].
    intros x Hx Hs. specialize (Hx Hs). destruct sub; lia.
Qed.

Lemma load_ok n t s events :
  loading n t (length events) s → in_order n t events → Forall (plannable (sm_config s)) events →
  Z.of_nat (length (slots (sm_jobs s))) + Z.of_nat (count_if is_submit (eq_heap (sm_queue s))) + Z.of_nat (submits events) <= u32_max →
  plan_ok (load s events).
Proof.
  revert n t s. induction events as [|[at_ e] events IH]; intros n t s Hl Ho Hp Hroom; cbn [load fold_left]; [apply Hl|].
  destruct Ho as (Ht & Ha & Ho). inversion Hp as [|? ? Hpe Hp']; subst. unfold submits in Hroom. rewrite count_if_cons in Hroom.
  fold (submits events) in Hroom. cbn [snd] in Hroom.
  pose proof (schedule_loading n t (length events) s at_ e Hl Ht Ha Hpe) as Hs. cbn zeta in Hs. eapply IH.
  - apply Hs. unfold submits. rewrite count_if_cons. cbn. destruct e; lia.
  - by destruct e.
  - done.
  - cbn -[count_if submits]. rewrite count_entry_insert. unfold is_submit at 1. cbn -[count_if submits]. destruct e; lia.
Qed.

(** ** A new simulation *)

(** A cluster with nothing on it. *)
Definition idle (inv : SlotInventory) : Prop :=
  Inventory_wf inv ∧ ∀ i s, vec_get (worker_slots inv) i = Some s → allocated s = Resources_ZERO.

Lemma Sched_inv_new : Sched_inv Scheduler_new Arena_new.
Proof. exact (proj1 (Scheduler_with_slots_inv 0)). Qed.

Lemma new_sim_inv inv config tick : idle inv → config_ok config → sim_inv (Simulation_new inv config tick).
Proof.
  intros [Hwf Hidle] Hc. pose proof Sched_inv_new as Hs.
  assert (within_capacity inv) as Hwi.
  { intros i s Hi. rewrite (Hidle i s Hi). destruct (inv_widths _ Hwf _ _ Hi) as [Hcap _]. clear -Hcap. destruct (capacity s). res_crush. }
  split; cbn.
  - done.
  - unfold is_u64. lia.
  - done.
  - apply waits_new; [apply Hs|done].
  - split; try done; intros x j; by rewrite Arena_get_new.
  - intros x. unfold job_state. by rewrite Arena_get_new.
  - split; try done; cbn.
    + intros i s Hi. left. by eapply Hwi.
    + by intros r ?%elem_of_nil.
    + by intros r ?%elem_of_nil.
    + unfold attached_names. by rewrite length_fmap.
    + intros i Hi. apply vec_get_Some in Hi as [_ Hi]. unfold attached_names in Hi. rewrite list_lookup_fmap in Hi.
      by destruct (worker_slots inv !! Z.to_nat i).
  - done.
  - split; [constructor|]. by intros r ?%elem_of_nil.
  - intros x j. by rewrite Arena_get_new.
  - constructor.
Qed.

Lemma new_loading inv config tick k :
  idle inv → config_ok config → is_u64 tick → Z.of_nat k <= u64_max → loading 0 0 k (Simulation_new inv config tick).
Proof.
  intros Hi Hc Ht Hk. assert (plan_ok (Simulation_new inv config tick)) as Hp.
  { split; [by apply new_sim_inv|done|done|by constructor|cbn; lia| |by constructor].
    intros _ x. unfold job_state. by rewrite Arena_get_new. }
  split; [done|by constructor..|cbn; lia|done|by constructor].
Qed.

(** The driver's [check_invariants] switch. *)
Definition with_check (s : Simulation) (b : bool) : Simulation :=
  MkSimulation (sm_now s) (sm_queue s) (sm_jobs s) (sm_inventory s) (sm_running s) (sm_scheduler s) (sm_config s)
    (sm_tick s) (sm_handles s) (sm_outcomes s) (sm_trace s) (sm_runs s) b.

Lemma plan_ok_check s b : plan_ok s → plan_ok (with_check s b).
Proof. by intros [[] ? ? ? ? ? ?]. Qed.

Lemma planned_check s b : planned (with_check s b) = planned s.
Proof. done. Qed.

Lemma planned_quiescent s : is_quiescent s = true → planned s = length (sm_handles s).
Proof.
  intros [[Hq%Nat.eqb_eq _]%andb_prop _]%andb_prop. unfold planned, asks. unfold queue_len in Hq.
  apply nil_length_inv in Hq. rewrite Hq. cbn. lia.
Qed.

Lemma planned_load s events config :
  Forall (plannable config) events → planned (load s events) = (planned s + submits events)%nat.
Proof.
  intros Hp. revert s. induction Hp as [|[at_ e] events He _ IH]; intros s; cbn [load fold_left fst snd]; [unfold submits, count_if; cbn; lia|].
  unfold load in IH. rewrite IH. unfold submits at 2. rewrite count_if_cons. fold (submits events). cbn [snd].
  assert (planned (sim_schedule s at_ e) = planned s + (match e with Event.Submit _ _ _ => 1 | _ => 0 end))%nat as ->; [|destruct e; lia].
  unfold planned, asks. cbn -[count_if]. set (x := MkEntry _ _ e).
  assert (∀ l, count_if is_submit (List.filter external (entry_insert x l)) =
    ((match e with Event.Submit _ _ _ => 1 | _ => 0 end) + count_if is_submit (List.filter external l))%nat) as ->; [|lia].
  assert (external x = true) as Hx by (unfold external; cbn; unfold plannable in He; cbn in He; by destruct e).
  assert (is_submit x = match e with Event.Submit _ _ _ => true | _ => false end) as Hs by done.
  induction l as [|y l IHl]; cbn [entry_insert List.filter].
  { rewrite Hx, count_if_cons, Hs. by destruct e. }
  destruct (Entry_lt x y); cbn [List.filter]; rewrite ?Hx; [rewrite count_if_cons, Hs; by destruct e|].
  destruct (external y); [|done]. rewrite !count_if_cons, IHl. lia.
Qed.
