(* ===== verification/Scenario.v ===== *)
(** * Generated scenarios

    [crates/tasker-sim/src/rng.rs] and [scenario.rs]: the generator, the
    dependency shapes and the event list of a scenario.  A generated list asks
    for every job after its dependencies, so that a simulation of it never stops
    with an error and never violates an invariant. *)

From stdpp Require Import base strings list numbers option sets relations sorting.
From Stdlib Require Import ZArith Lia.
From S2P Require Import Prelude Domain Arena Job Inventory Priority ReadySet Eligibility.
From S2P Require Import Decay FairShare Pack Backfill Preempt Scheduler Cycle Frame.
From S2P Require Import EngineInv EngineSteps EngineTick EngineRun Order Sim SimInv SimRun.
Open Scope Z_scope.
Open Scope list_scope.

(** ** The generator ([rng.rs]) *)

(** [SplitMix64]: one word of state. *)
Record SplitMix64 : Type := MkSplitMix64 { sm64 : Z }.

Definition SplitMix64_new (seed : Z) : SplitMix64 := MkSplitMix64 seed.

Definition next_u64 (r : SplitMix64) : SplitMix64 * Z :=
  let s := wrap64 (sm64 r + 0x9E3779B97F4A7C15) in
  let z := s in
  let z := wrap64 (Z.lxor z (Z.shiftr z 30) * 0xBF58476D1CE4E5B9) in
  let z := wrap64 (Z.lxor z (Z.shiftr z 27) * 0x94D049BB133111EB) in
  (MkSplitMix64 s, Z.lxor z (Z.shiftr z 31)).

(** An empty range divides by zero. *)
Definition rng_range (r : SplitMix64) (low high : Z) : exec (SplitMix64 * Z) :=
  let '(r, x) := next_u64 r in
  let width := wrap64 (high - low) in
  if width =? 0 then Panic else Done (r, wrap64 (low + x mod width)).

Definition chance (r : SplitMix64) (permille : Z) : exec (SplitMix64 * bool) :=
  let! '(r, x) := rng_range r 0 1000 in
  Done (r, x <? permille).

(** ** Shapes ([scenario.rs]) *)

Module Shape.
Inductive Shape : Type :=
| Independent
| Chain
| Tree (fan_out : nat)
| Layered (width : nat).
End Shape.
Abbreviation Shape := Shape.Shape.

Record ScenarioParams : Type := MkScenarioParams {
  p_jobs : nat;
  p_shape : Shape;
  arrival_span : VirtualDuration;
  cpu_range : Z * Z;
  walltime_secs : Z * Z;
  fail_permille : Z;
  cancel_permille : Z;
}.

Definition ScenarioParams_default : ScenarioParams :=
  MkScenarioParams 32 (Shape.Layered 4) (duration_from_secs 60) (250, 4000) (5, 120) 50 20.

Definition deps_for (index : nat) (shape : Shape) : list nat :=
  if (index =? 0)%nat then []
  else
    match shape with
    | Shape.Independent => []
    | Shape.Chain => [(index - 1)%nat]
    | Shape.Tree fan_out => [((index - 1) / (fan_out `max` 1))%nat]
    | Shape.Layered width =>
        let width := (width `max` 1)%nat in
        let layer := (index / width)%nat in
        if (layer =? 0)%nat then [] else seq ((layer - 1) * width) (layer * width - (layer - 1) * width)
    end.

(** ** The event list *)

(** [u32::try_from(..).expect(..)]. *)
Definition u32_try (x : Z) : exec Z := if x <=? u32_max then Done x else Panic.

(** The events of one index: its submission and, sometimes, a cancel. *)
Definition generate_one (p : ScenarioParams) (jobs : Z) (r : SplitMix64) (index : nat)
  : exec (SplitMix64 * list (VirtualTime * Event)) :=
  let at_ := wrap64 (arrival_span p * Z.of_nat index) / jobs in
  let! '(r, c) := rng_range r (cpu_range p).1 (cpu_range p).2 in
  let! cpu := u32_try c in
  let! '(r, walltime) := rng_range r (walltime_secs p).1 (wrap64 ((walltime_secs p).2 + 1)) in
  let! '(r, class_index) := rng_range r 0 4 in
  let! '(r, a) := rng_range r 0 8 in
  let! account := u32_try a in
  let! class := vec_at PriorityClass_ALL class_index in
  let job := Job_new account class at_ (MkResources cpu 0 0) (duration_from_secs walltime) in
  let! '(r, fails) := chance r (fail_permille p) in
  let! '(r, outcome) :=
    if fails then
      let! '(r, after) := rng_range r 1 (wrap64 (walltime + 1)) in
      Done (r, Outcome.Fails (duration_from_secs after))
    else
      let! '(r, after) := rng_range r 1 (wrap64 (wrap64 (walltime + walltime / 4) + 2)) in
      Done (r, Outcome.Completes (duration_from_secs after)) in
  let submit := (at_, Event.Submit job (deps_for index (p_shape p)) outcome) in
  let! '(r, cancels) := chance r (cancel_permille p) in
  if cancels then
    let! '(r, secs) := rng_range r 1 (wrap64 (walltime + 10)) in
    Done (r, [submit; (time_saturating_add at_ (duration_from_secs secs), Event.Cancel index)])
  else Done (r, [submit]).

(** One turn of the loop. *)
Definition generate_push (p : ScenarioParams) (jobs : Z) (acc : SplitMix64 * list (VirtualTime * Event)) (index : nat)
  : exec (SplitMix64 * list (VirtualTime * Event)) :=
  let '(r, events) := acc in
  let! '(r, new) := generate_one p jobs r index in
  Done (r, events ++ new).

Definition generate (seed : Z) (p : ScenarioParams) : exec (list (VirtualTime * Event)) :=
  let jobs := Z.of_nat (p_jobs p `max` 1) in
  let! '(_, events) :=
    exec_fold (generate_push p jobs) (SplitMix64_new seed, []) (seq 0 (p_jobs p)) in
  Done events.

(** The first outputs of the published generator for the seed 1234567. *)
Example splitmix_reference :
  let r := SplitMix64_new 1234567 in
  let '(r, a) := next_u64 r in
  let '(r, b) := next_u64 r in
  (a, b) = (6457827717110365317, 3203168211198807973).
Proof. vm_compute. reflexivity. Qed.

(** ** The generator stays in range *)

Lemma rng_range_spec r low high :
  0 <= low → low < high → high <= u64_max → ∃ r' x, rng_range r low high = Done (r', x) ∧ low <= x < high.
Proof.
  intros Hl Hh Hu. unfold rng_range. destruct (next_u64 r) as [r' y]. unfold wrap64.
  rewrite (Z.mod_small (high - low)) by lia. rewrite (proj2 (Z.eqb_neq (high - low) 0)) by lia.
  pose proof (Z.mod_pos_bound y (high - low) ltac:(lia)). eexists _, _. split; [done|]. rewrite Z.mod_small; lia.
Qed.

Lemma chance_spec r p : ∃ r' b, chance r p = Done (r', b) ∧ (p <= 0 → b = false).
Proof.
  unfold chance. destruct (rng_range_spec r 0 1000) as (r' & x & -> & Hx); [lia..|]. cbn [exec_bind].
  eexists _, _. split; [done|]. intros Hp. apply Z.ltb_ge. lia.
Qed.

(** Every edge points to a lower index. *)
Lemma deps_for_lower index shape : Forall (fun d => d < index)%nat (deps_for index shape).
Proof.
  unfold deps_for. destruct (Nat.eqb_spec index 0); [done|]. destruct shape as [| |k|k]; [done|..].
  - constructor; [lia|done].
  - constructor; [|done]. pose proof (Nat.Div0.div_le_upper_bound (index - 1) (k `max` 1) (index - 1)). nia.
  - destruct (Nat.eqb_spec (index / (k `max` 1)) 0); [done|]. apply Forall_forall. intros d [_ Hd]%elem_of_seq.
    pose proof (Nat.Div0.mul_div_le index (k `max` 1)). nia.
Qed.

Lemma deps_for_length index shape : (length (deps_for index shape) <= index)%nat.
Proof.
  unfold deps_for. destruct (Nat.eqb_spec index 0) as [|]; [cbn; lia|]. destruct shape as [| |k|k]; cbn; try lia.
  destruct (Nat.eqb_spec (index / (k `max` 1)) 0); cbn; [lia|]. rewrite length_seq.
  pose proof (Nat.Div0.mul_div_le index (k `max` 1)). nia.
Qed.

(** ** The parameters that generate a scenario *)

Record params_ok (p : ScenarioParams) : Prop := {
  pk_jobs : Z.of_nat (p_jobs p) <= u32_max;
  pk_span : 0 <= arrival_span p ∧ arrival_span p * Z.of_nat (p_jobs p) <= u64_max;
  pk_cpu : 1 <= (cpu_range p).1 < (cpu_range p).2 ∧ (cpu_range p).2 <= u32_max;
  pk_walltime : 1 <= (walltime_secs p).1 <= (walltime_secs p).2;
  pk_limit : (walltime_secs p).2 + (walltime_secs p).2 / 4 + 10 <= u64_max;
}.

Definition arrival (p : ScenarioParams) (index : nat) : VirtualTime :=
  arrival_span p * Z.of_nat index / Z.of_nat (p_jobs p `max` 1).

Lemma arrival_mono p i j : params_ok p → (i <= j)%nat → 0 <= arrival p i <= arrival p j.
Proof.
  intros Hp Hij. destruct (pk_span _ Hp) as [Hs _]. unfold arrival. split.
  - apply Z.div_pos; nia.
  - apply Z.div_le_mono; nia.
Qed.

(** No job of the scenario asks for more, no run takes longer, and no event comes
    later. *)
Definition largest_job (p : ScenarioParams) : Resources := MkResources ((cpu_range p).2 - 1) 0 0.
Definition longest_run (p : ScenarioParams) : Z := duration_from_secs (walltime_secs p).2.
Definition last_event (p : ScenarioParams) : Z := arrival_span p + duration_from_secs ((walltime_secs p).2 + 10).

Definition job_sized (p : ScenarioParams) (job : Job) : Prop :=
  Resources_le (request job) (largest_job p) ∧ walltime_limit job <= longest_run p.

Definition event_sized (p : ScenarioParams) (e : VirtualTime * Event) : Prop :=
  e.1 <= Z.min u64_max (last_event p) ∧ match e.2 with Event.Submit job _ _ => job_sized p job | _ => True end.

(** What one index contributes. *)
Definition one_ok (p : ScenarioParams) (index : nat) (new : list (VirtualTime * Event)) : Prop :=
  ∃ job o rest, new = (arrival p index, Event.Submit job (deps_for index (p_shape p)) o) :: rest ∧
    submission_ok job (deps_for index (p_shape p)) ∧ account job < MAX_ACCOUNTS ∧
    (rest = [] ∨ (∃ t, rest = [(t, Event.Cancel index)] ∧ arrival p index <= t ∧ 0 < cancel_permille p)) ∧
    Forall (event_sized p) new.

Lemma duration_from_secs_u64 x : 0 <= x → is_u64 (duration_from_secs x).
Proof. intros Hx. unfold duration_from_secs, sat_mul, is_u64. lia. Qed.

Lemma generate_one_ok p r index :
  params_ok p → (index < p_jobs p)%nat →
  ∃ r' new, generate_one p (Z.of_nat (p_jobs p `max` 1)) r index = Done (r', new) ∧ one_ok p index new.
Proof.
  intros Hp Hi. destruct (pk_cpu _ Hp) as [Hc1 Hc2], (pk_span _ Hp) as [Hs1 Hs2].
  pose proof (pk_walltime _ Hp) as Hw. pose proof (pk_limit _ Hp) as Hlim. pose proof (pk_jobs _ Hp) as Hjobs.
  unfold generate_one.
  assert (wrap64 (arrival_span p * Z.of_nat index) / Z.of_nat (p_jobs p `max` 1) = arrival p index) as ->.
  { unfold arrival, wrap64. rewrite Z.mod_small by nia. done. }
  destruct (arrival_mono p index index Hp ltac:(lia)) as [Ha0 _].
  assert (arrival p index <= u64_max) as Ha1.
  { unfold arrival. apply Z.div_le_upper_bound; nia. }
  destruct (rng_range_spec r (cpu_range p).1 (cpu_range p).2) as (r1 & cpu & -> & Hcpu); [lia..|]. cbn [exec_bind].
  unfold u32_try at 1. rewrite (proj2 (Z.leb_le cpu u32_max)) by lia. cbn [exec_bind].
  set (wt1 := (walltime_secs p).1) in *. set (wt2 := (walltime_secs p).2) in *.
  assert (0 <= wt2 / 4) as Hq by (apply Z.div_pos; lia).
  assert (wrap64 (wt2 + 1) = wt2 + 1) as -> by (unfold wrap64; rewrite Z.mod_small; lia).
  destruct (rng_range_spec r1 wt1 (wt2 + 1)) as (r2 & wt & -> & Hwt); [lia..|]. cbn [exec_bind].
  destruct (rng_range_spec r2 0 4) as (r3 & ci & -> & Hci); [lia..|]. cbn [exec_bind].
  destruct (rng_range_spec r3 0 8) as (r4 & ac & -> & Hac); [lia..|]. cbn [exec_bind].
  unfold u32_try. rewrite (proj2 (Z.leb_le ac u32_max)) by lia. cbn [exec_bind].
  destruct (vec_get_total PriorityClass_ALL ci ltac:(cbn; lia)) as [class Hcl]. unfold vec_at. rewrite Hcl. cbn [expect exec_bind].
  destruct (chance_spec r4 (fail_permille p)) as (r5 & fails & -> & _). cbn [exec_bind].
  assert (wt / 4 <= wt2 / 4) as Hq2 by (apply Z.div_le_mono; lia). assert (0 <= wt / 4) as Hq0 by (apply Z.div_pos; lia).
  assert (∃ r6 o, (if fails
     then let! '(r, after) := rng_range r5 1 (wrap64 (wt + 1)) in Done (r, Outcome.Fails (duration_from_secs after))
     else let! '(r, after) := rng_range r5 1 (wrap64 (wrap64 (wt + wt / 4) + 2)) in
          Done (r, Outcome.Completes (duration_from_secs after))) = Done (r6, o)) as (r6 & o & ->).
  { unfold wrap64. rewrite !Z.mod_small by (rewrite ?Z.mod_small; lia).
    destruct fails; [destruct (rng_range_spec r5 1 (wt + 1)) as (r6 & x & -> & _)|
      destruct (rng_range_spec r5 1 (wt + wt / 4 + 2)) as (r6 & x & -> & _)]; try lia; cbn [exec_bind]; eauto. }
  cbn [exec_bind]. destruct (chance_spec r6 (cancel_permille p)) as (r7 & cancels & -> & Hcan). cbn [exec_bind].
  set (job := Job_new _ _ _ _ _).
  assert (submission_ok job (deps_for index (p_shape p)) ∧ account job < MAX_ACCOUNTS) as [Hj Hacc].
  { split; [|cbn; unfold MAX_ACCOUNTS; lia]. pose proof (deps_for_length index (p_shape p)). pose proof (duration_from_secs_u64 wt ltac:(lia)).
    split; [|split; [cbn; intros [= ?]; lia|cbn; lia]|done|lia].
    unfold job, Job_new, Job_wf, Resources_wf, is_u32, is_u64, is_u8 in *. cbn. split_and!; try done; lia. }
  assert (arrival p index <= arrival_span p) as Has.
  { unfold arrival. apply Z.div_le_upper_bound; nia. }
  assert (event_sized p (arrival p index, Event.Submit job (deps_for index (p_shape p)) o)) as Hsize.
  { unfold event_sized, last_event, job_sized, longest_run, largest_job, duration_from_secs, sat_mul. cbn.
    split; [lia|]. split; [unfold Resources_le; cbn; lia|unfold duration_from_secs, sat_mul; lia]. }
  destruct cancels.
  - assert (wrap64 (wt + 10) = wt + 10) as -> by (unfold wrap64; rewrite Z.mod_small; lia).
    destruct (rng_range_spec r7 1 (wt + 10)) as (r8 & secs & -> & Hsecs); [lia..|]. cbn [exec_bind].
    eexists _, _. split; [done|]. eexists job, o, _. split; [done|]. split; [done|]. split; [done|]. split; [right; eexists; split; [done|]; split|].
    + pose proof (duration_from_secs_u64 secs ltac:(lia)). unfold is_u64 in *. apply time_add_spec; unfold is_u64; lia.
    + destruct (Z.ltb_spec 0 (cancel_permille p)); [done|]. specialize (Hcan ltac:(lia)). done.
    + constructor; [done|]. constructor; [|constructor]. unfold event_sized, last_event, time_saturating_add, sat_add, duration_from_secs, sat_mul. cbn. lia.
  - eexists _, _. split; [done|]. eexists job, o, []. split; [done|]. split; [done|]. split; [done|]. split; [by left|]. by constructor.
Qed.

(** ** The whole list *)

Lemma in_order_app n t es fs :
  in_order n t es → in_order (n + submits es) (fold_left (fun t p => match p.2 with Event.Submit _ _ _ => p.1 | _ => t end) es t) fs →
  in_order n t (es ++ fs).
Proof.
  revert n t. induction es as [|[at_ e] es IH]; intros n t; cbn [app in_order fold_left fst snd].
  { by rewrite Nat.add_0_r. }
  unfold submits. rewrite count_if_cons. fold (submits es). cbn [snd]. intros (Ht & Ha & Ho) Hf. split_and!; try done.
  destruct e; (apply IH; [done|]); cbn in Hf; rewrite ?Nat.add_succ_r in Hf; done.
Qed.

(** The list built for the first [n] indices. *)
Record generated (p : ScenarioParams) (n : nat) (events : list (VirtualTime * Event)) : Prop := {
  gn_order : in_order 0 0 events;
  gn_submits : submits events = n;
  gn_last : ∀ t, fold_left (fun t p => match p.2 with Event.Submit _ _ _ => p.1 | _ => t end) events t =
    if (n =? 0)%nat then t else arrival p (n - 1);
  gn_length : (length events <= 2 * n)%nat;
  gn_plannable : ∀ config, cancel_permille p <= 0 ∨ min_class (cc_preempt config) = None → Forall (plannable config) events;
  gn_sized : Forall (event_sized p) events;
}.

Lemma generated_snoc p n events new :
  params_ok p → generated p n events → one_ok p n new → generated p (S n) (events ++ new).
Proof.
  intros Hp [G1 G2 G3 G4 G5 G6] (job & o & rest & -> & Hj & Ha & Hrest & Hsz).
  assert (in_order n (if (n =? 0)%nat then 0 else arrival p (n - 1))
    ((arrival p n, Event.Submit job (deps_for n (p_shape p)) o) :: rest)) as Hnew.
  { cbn [in_order asked]. split; [|split; [apply deps_for_lower|]].
    - destruct (Nat.eqb_spec n 0); [apply (arrival_mono p n n Hp); lia|]. apply (arrival_mono p (n - 1) n Hp). lia.
    - destruct Hrest as [->|(t & -> & Ht & _)]; cbn; [done|]. split_and!; try done. by repeat constructor. }
  split.
  - apply in_order_app; [done|]. by rewrite G2, G3.
  - unfold submits, count_if in *. rewrite List.filter_app, length_app, G2. destruct Hrest as [->|(t & -> & _)]; cbn; lia.
  - intros t0. rewrite fold_left_app, G3. cbn [fold_left fst snd]. rewrite Nat.sub_succ, Nat.sub_0_r. cbn.
    by destruct Hrest as [->|(t & -> & _)].
  - rewrite length_app. destruct Hrest as [->|(t & -> & _)]; cbn; lia.
  - intros config Hc. apply Forall_app. split; [by apply G5|]. constructor; [done|].
    destruct Hrest as [->|(t & -> & _ & Hpos)]; [done|]. constructor; [|done]. unfold plannable. cbn. destruct Hc; [lia|done].
  - by apply Forall_app.
Qed.

Lemma generate_ok seed p : params_ok p → ∃ events, generate seed p = Done events ∧ generated p (p_jobs p) events.
Proof.
  intros Hp. unfold generate. set (f := generate_push p _).
  assert (∀ k n r events, (n + k <= p_jobs p)%nat → generated p n events →
    ∃ r' events', exec_fold f (r, events) (seq n k) = Done (r', events') ∧ generated p (n + k) events') as Hloop.
  { induction k as [|k IH]; intros n r events Hk Hg; cbn [seq exec_fold].
    { exists r, events. by rewrite Nat.add_0_r. }
    destruct (generate_one_ok p r n Hp ltac:(lia)) as (r1 & new & E & Ho). unfold f at 1, generate_push. rewrite E. cbn [exec_bind].
    destruct (IH (S n) r1 (events ++ new) ltac:(lia)) as (r' & events' & -> & Hg'); [by apply generated_snoc|].
    exists r', events'. split; [done|]. by rewrite Nat.add_succ_r. }
  destruct (Hloop (p_jobs p) 0%nat (SplitMix64_new seed) []) as (r & events & -> & Hg); [lia|by split|].
  cbn [exec_bind]. by exists events.
Qed.

(** What the generator made can be simulated. *)
Lemma generated_plan p inv config tick events :
  params_ok p → generated p (p_jobs p) events → idle inv → config_ok config → is_u64 tick →
  cancel_permille p <= 0 ∨ min_class (cc_preempt config) = None →
  plan_ok (load (Simulation_new inv config tick) events) ∧ planned (load (Simulation_new inv config tick) events) = p_jobs p.
Proof.
  intros Hp [G1 G2 G3 G4 G5 _] Hi Hc Ht Hcan. pose proof (pk_jobs _ Hp) as Hj. split.
  - eapply (load_ok 0 0); [apply new_loading; try done; lia|done|by apply G5|cbn; lia].
  - rewrite (planned_load _ _ config) by (by apply G5). by rewrite G2.
Qed.

(** C18: A generated scenario without cancels, or with eviction off, runs clean.  For
    every seed and every such set of sensible parameters [generate] returns, and
    the simulation of its events on an idle cluster, with the invariants checked
    after every event and every cycle, never panics, never stops with an error and
    never reports a violation, however many ticks it is given; the answer is
    whether it is quiescent, and once it is, every submitted job has finished.
    With cancels and eviction both on the simulator can report a violation
    ([cancelled_eviction_leaks]). *)
Theorem generated_scenarios_run_clean seed p inv config tick n :
  params_ok p → idle inv → config_ok config → is_u64 tick →
  cancel_permille p <= 0 ∨ min_class (cc_preempt config) = None →
  ∃ events s b, generate seed p = Done events ∧
    run_to_quiescence n (with_check (load (Simulation_new inv config tick) events) true) = Done (Ok (s, b)) ∧
    check s = Done (Ok tt) ∧ b = is_quiescent s ∧
    (b = true → length (sm_handles s) = p_jobs p ∧
                ∀ x j, Arena_get (sm_jobs s) x = Some j → is_terminal (state j) = true).
Proof.
  intros Hp Hi Hc Ht Hcan. destruct (generate_ok seed p Hp) as (events & Eg & Hg).
  destruct (generated_plan p inv config tick events Hp Hg Hi Hc Ht Hcan) as [Hl Hpl].
  destruct (run_to_quiescence_ok n _ (plan_ok_check _ true Hl)) as (s & b & E & Hs & -> & Hn).
  exists events, s, (is_quiescent s). split_and!; try done; [apply check_passes, Hs|].
  intros Hq. split; [|intros x j; by apply quiescent_finished; [apply Hs|]].
  by rewrite <-(planned_quiescent s Hq), Hn, planned_check.
Qed.

(** A small tree of jobs, on two slots. *)
Definition demo_params : ScenarioParams := MkScenarioParams 6 (Shape.Tree 2) 0 (250, 1000) (1, 2) 100 0.
Definition demo_cluster : SlotInventory := from_uniform 2 (MkResources 2000 0 0).

Lemma generated_scenarios_run_clean_witness :
  ∃ events s b, generate 3 demo_params = Done events ∧
    run_to_quiescence 40 (with_check (load (Simulation_new demo_cluster demo_config 1000000000) events) true) = Done (Ok (s, b)) ∧
    check s = Done (Ok tt) ∧ b = is_quiescent s ∧
    (b = true → length (sm_handles s) = 6%nat ∧
                ∀ x j, Arena_get (sm_jobs s) x = Some j → is_terminal (state j) = true).
Proof.
  apply (generated_scenarios_run_clean 3 demo_params demo_cluster demo_config 1000000000 40).
  - by split; vm_compute; split_and?.
  - split; [|intros i s (_ & Hi)%vec_get_Some; cbn in Hi; destruct (Z.to_nat i) as [|[|]]; by simplify_eq/=].
    apply from_uniform_wf; [lia|]. unfold Resources_wf, is_u32, is_u64, is_u8. cbn. lia.
  - by vm_compute.
  - by vm_compute.
  - by left.
Defined.

(** It does come to rest, with one job failed and its dependent cancelled. *)
Example demo_scenario_ends :
  match generate 3 demo_params with
  | Done events =>
      match run_to_quiescence 40 (with_check (load (Simulation_new demo_cluster demo_config 1000000000) events) true) with
      | Done (Ok (s, b)) => (b, (fun p => state p.2) <$> Arena_iter (sm_jobs s)) 
      | _ => (false, [])
      end
  | _ => (false, [])
  end = (true, [JobState.Completed; JobState.Completed; JobState.Failed; JobState.Completed; JobState.Completed; JobState.Cancelled]).
Proof. vm_compute. reflexivity. Qed.

(** Cancelling a job while its eviction is under way leaves it in the running
    set: the next check reports the mismatch.  An urgent job arrives while a low
    one fills the only slot; the low one is told to leave, and is then cancelled
    before it has. *)
Definition evicting_config : CycleConfig :=
  MkCycleConfig (cc_priority demo_config) (cc_fairshare demo_config)
    (MkPreemptConfig (Some PriorityClass.High) 3 (duration_from_secs 5)) (cc_budget demo_config) 100.

Definition filling_job (class : PriorityClass) : Job :=
  Job_new 0 class 0 (MkResources 1000 0 0) (duration_from_secs 60).

Definition eviction_events : list (VirtualTime * Event) :=
  [(0, Event.Submit (filling_job PriorityClass.Low) [] (Outcome.Completes (duration_from_secs 50)));
   (1500000000, Event.Submit (filling_job PriorityClass.Urgent) [] (Outcome.Completes (duration_from_secs 5)));
   (3000000000, Event.Cancel 0)].

Example cancelled_eviction_leaks :
  let s := with_check (load (Simulation_new (from_uniform 1 (MkResources 1000 0 0)) evicting_config 1000000000) eviction_events) true in
  match run_until 2 s 2000000000, run_until 3 s 3000000000 with
  | Done (Ok s2), Done (Err e) => ((fun p => state p.2) <$> Arena_iter (sm_jobs s2), Some e)
  | _, _ => ([], None)
  end = ([JobState.Preempted; JobState.Ready], Some (SimError.Invariant (Violation.RunningSetMismatch 1 0))).
Proof. vm_compute. reflexivity. Qed.
