(* ===== verification/SimLive.v ===== *)
(** * Simulations come to rest

    [run_to_quiescence] of [crates/tasker-sim/src/sim.rs] returns [true] when it
    is given enough ticks: on a cluster that can hold every job, with eviction
    off, the scheduler starves nobody.  A cycle on an empty cluster starts its
    first candidate, a job that runs has its end in the queue, and the clock
    passes every queued instant; so the number of jobs that never started falls
    after at most a fixed number of ticks, until nothing is left to do. *)

From stdpp Require Import base strings list numbers option sets relations sorting.
From Stdlib Require Import ZArith Lia.
From S2P Require Import Prelude Domain Arena Job Inventory Priority ReadySet Eligibility.
From S2P Require Import Decay FairShare Pack Backfill Preempt Scheduler Cycle Frame.
From S2P Require Import EngineInv EngineSteps EngineTick EngineRun Order Sim SimInv SimRun Scenario.
Open Scope Z_scope.
Open Scope list_scope.

(** ** Jobs that can run *)

(** Some slot, when empty, holds the job; and the job ends within [W]. *)
Definition holds (caps : list Resources) (W : Z) (j : Job) : Prop :=
  (∃ c, c ∈ caps ∧ Resources_le (request j) c) ∧ walltime_limit j <= W.

(** ** What dispatching puts in the queue *)

(** The run of job [x] that is under way ends by an event of the queue. *)
Definition fated (q : EventQueue) (runs : list Z) (x : JobId) : Prop :=
  ∃ e run, e ∈ eq_heap q ∧ fate (en_event e) x run ∧ vec_get runs (JobId_index x) = Some run.

(** An event the driver scheduled at [at_], for a run of at most [W]. *)
Definition scheduled_by (at_ W : Z) (e : Entry) : Prop :=
  external e = false ∧ en_at e <= Z.min u64_max (at_ + W).

Record dispatches_queued (at_ W : Z) (xs : list JobId) (q q' : EventQueue) (runs runs' : list Z) : Prop := {
  dq_kept : ∀ e, e ∈ eq_heap q → e ∈ eq_heap q';
  dq_new : ∀ e, e ∈ eq_heap q' → e ∈ eq_heap q ∨ scheduled_by at_ W e;
  dq_runs : ∀ i v, (∀ x, x ∈ xs → JobId_index x ≠ i) → vec_get runs i = Some v → vec_get runs' i = Some v;
  dq_fated : ∀ x, x ∈ xs → fated q' runs' x;
}.

Lemma vec_grow_get {A} (v : list A) n x i y : vec_get v i = Some y → vec_get (vec_grow v n x) i = Some y.
Proof.
  intros [Hi Hy]%vec_get_Some. apply vec_get_Some. split; [done|].
  rewrite lookup_vec_grow_l; [done|]. by apply lookup_lt_Some in Hy.
Qed.

Lemma fated_kept q q' runs runs' x :
  (∀ e, e ∈ eq_heap q → e ∈ eq_heap q') → (∀ v, vec_get runs (JobId_index x) = Some v → vec_get runs' (JobId_index x) = Some v) →
  fated q runs x → fated q' runs' x.
Proof. intros Hq Hr (e & run & He & Hf & Hrun). exists e, run. auto. Qed.

Lemma dispatch_one caps W s d b at_ :
  (∀ x j, Arena_get (sm_jobs s) x = Some j → holds caps W j) → started (sm_jobs s) at_ d b →
  ∃ q t runs, sim_on_dispatched s d at_ = Done (with_dispatches s [b] q t runs) ∧
    dispatches_queued at_ W [dd_job d] (sm_queue s) q (sm_runs s) runs.
Proof.
  intros Hh (j & Hj & ->). destruct (Hh _ _ Hj) as [_ HW]. unfold sim_on_dispatched. rewrite Hj. cbn -[vec_grow].
  pose proof (JobId_index_range (dd_job d)) as Hix. set (runs := vec_grow _ _ 0).
  assert (0 <= JobId_index (dd_job d) < Z.of_nat (length runs)) as Hr by (unfold runs; rewrite length_vec_grow; lia).
  destruct (vec_get_total runs _ Hr) as [n Hn]. unfold vec_at. rewrite Hn. cbn [expect exec_bind].
  rewrite vec_put_Done by done. cbn [exec_bind]. set (run := wrap32 (n + 1)).
  assert (∀ after event, fate event (dd_job d) run → after <= walltime_limit j →
    dispatches_queued at_ W [dd_job d] (sm_queue s) (queue_push (sm_queue s) (time_saturating_add at_ after) event)
      (sm_runs s) (<[Z.to_nat (JobId_index (dd_job d)) := run]> runs)) as Hq.
  { intros after event Hf Ha. split; cbn [eq_heap queue_push].
    - intros e He. apply entry_insert_elem. by right.
    - intros e [->|He]%entry_insert_elem; [right|by left]. split; [by destruct Hf as [-> | ->]|].
      cbn. unfold time_saturating_add, sat_add. lia.
    - intros i v Hi Hv. rewrite vec_get_insert by done. rewrite decide_False by (apply Hi; by left). by apply vec_grow_get.
    - intros x ->%list_elem_of_singleton. eexists _, run. split; [apply entry_insert_elem; by left|]. split; [done|].
      by rewrite vec_get_insert, decide_True by done. }
  destruct (default _ _) as [after|after]; [destruct (Z.leb_spec after (walltime_limit j))|];
    (eexists _, _, _; split; [done|]; apply Hq; [by left + by right|lia]).
Qed.

Lemma dispatches_queued_cons at_ W x xs q q1 q2 runs runs1 runs2 :
  dispatches_queued at_ W [x] q q1 runs runs1 → dispatches_queued at_ W xs q1 q2 runs1 runs2 →
  JobId_index x ∉ JobId_index <$> xs → dispatches_queued at_ W (x :: xs) q q2 runs runs2.
Proof.
  intros [A1 A2 A3 A4] [B1 B2 B3 B4] Hn. split.
  - auto.
  - intros e [He|?]%B2; [by apply A2|by right].
  - intros i v Hi Hv. apply B3; [intros y Hy; apply Hi; by right|]. apply A3; [|done]. intros y ->%list_elem_of_singleton. apply Hi. by left.
  - intros y [->|Hy]%elem_of_cons; [|by apply B4]. eapply fated_kept; [exact B1| |by apply A4, list_elem_of_singleton].
    intros v. apply B3. intros y Hy E. apply Hn. rewrite <-E. by apply list_elem_of_fmap_2.
Qed.

Lemma dispatch_all caps W s ds B at_ :
  (∀ x j, Arena_get (sm_jobs s) x = Some j → holds caps W j) → Forall2 (started (sm_jobs s) at_) ds B →
  NoDup (JobId_index <$> (dd_job <$> ds)) →
  ∃ q t runs, exec_fold (fun s d => sim_on_dispatched s d at_) s ds = Done (with_dispatches s B q t runs) ∧
    dispatches_queued at_ W (dd_job <$> ds) (sm_queue s) q (sm_runs s) runs.
Proof.
  intros Hh HB. revert s B Hh HB.
  induction ds as [|d ds IH]; intros s B Hh HB Hnd; inversion HB as [|? b ? B' Hd HB']; subst; cbn [exec_fold].
  { exists (sm_queue s), (sm_trace s), (sm_runs s). split; [unfold with_dispatches; rewrite app_nil_r; by destruct s|].
    split; [done|by left|done|by intros x ?%elem_of_nil]. }
  rewrite !fmap_cons in Hnd. apply NoDup_cons in Hnd as [Hn Hnd].
  destruct (dispatch_one caps W s d b at_ Hh Hd) as (q1 & t1 & r1 & -> & Hq1). cbn [exec_bind].
  destruct (IH (with_dispatches s [b] q1 t1 r1) B' Hh HB' Hnd) as (q & t & runs & -> & Hq).
  exists q, t, runs. split; [unfold with_dispatches; cbn; by rewrite <-app_assoc|].
  rewrite fmap_cons. by eapply dispatches_queued_cons.
Qed.

(** ** Simulations that cannot get stuck *)

Definition past_ids (jobs : Arena Job) : list JobId := (List.filter (fun p => past (state p.2)) (Arena_iter jobs)).*1.

(** Every job fits the empty cluster, eviction is off, and what runs has an end;
    [L] bounds the events from outside, [W] the length of a run. *)
Record lively (caps : list Resources) (W L : Z) (s : Simulation) : Prop := {
  lv_plan : plan_ok s;
  lv_off : min_class (cc_preempt (sm_config s)) = None;
  lv_start : can_start (sm_config s);
  lv_tick : 0 < sm_tick s;
  lv_caps : capacities (sm_inventory s) = caps;
  lv_jobs : ∀ x j, Arena_get (sm_jobs s) x = Some j → holds caps W j;
  lv_asks : ∀ e job ds o, e ∈ eq_heap (sm_queue s) → en_event e = Event.Submit job ds o → holds caps W job;
  lv_fated : ∀ r, r ∈ sm_running s → fated (sm_queue s) (sm_runs s) (rj_job r);
  lv_handles : (length (slots (sm_jobs s)) <= length (sm_handles s))%nat;
  lv_due : ∀ e, e ∈ eq_heap (sm_queue s) → en_at e <= Z.min u64_max (Z.max L (sm_now s + W));
}.

(** A step of the simulation keeps its plan and never takes a start back. *)
Record moves_on (s s' : Simulation) : Prop := {
  mo_config : sm_config s' = sm_config s;
  mo_tick : sm_tick s' = sm_tick s;
  mo_planned : planned s' = planned s;
  mo_past : ∀ x, is_past (sm_jobs s) x → is_past (sm_jobs s') x;
}.

#[local] Instance moves_on_refl : Reflexive moves_on.
Proof. by split. Qed.
#[local] Instance moves_on_trans : Transitive moves_on.
Proof. intros a b c [] []. split; try congruence. auto. Qed.

Section Lively.
Context (caps : list Resources) (W L : Z).
Abbreviation lively := (lively caps W L).

Lemma lively_now s t : lively s → sm_now s <= t → is_u64 t → lively (with_now s t).
Proof.
  intros [[[] ? ? ? ? ? ?] H2 H3 H4 H5 H6 H7 H8 H9 H10] Ht Hu. split; try done. intros e He. specialize (H10 e He). cbn. lia.
Qed.

(** The job of a fate that is due is on its slot. *)
Lemma running_current s r run :
  sim_inv s → r ∈ sm_running s → vec_get (sm_runs s) (JobId_index (rj_job r)) = Some run → current_run s (rj_job r) run = true.
Proof.
  intros Hs Hr Hrun. destruct (rv_live _ _ (mi_running _ Hs) r Hr) as (j & Hj & Ho & _). unfold current_run.
  by rewrite Hj, Ho, Hrun, bool_decide_eq_true_2.
Qed.

Lemma deliver_one_lively s e l seq :
  lively s → eq_heap (sm_queue s) = e :: l →
  ∃ s', sim_apply (with_queue s (MkEventQueue l seq)) (en_event e) = Done (Ok s') ∧ lively s' ∧ moves_on s s' ∧
    sm_now s' = sm_now s ∧ eq_heap (sm_queue s') = l.
Proof.
  intros [H1 H2 H3 H4 H5 H6 H7 H8 H9 H10] Eq. destruct (deliver_one s e l seq H1 Eq) as (s' & E & Hp & Hc & Hse & Hpl).
  exists s'. split; [done|]. pose proof Hc as [K1 K2 K3 K4 K5 K6 K7]. pose proof Hse as [S1 S2 S3 S4 S5 S6].
  cbn in K1, K2, K3, K4, K5, K6, S1, S2, S3, S4, S5. rewrite Eq in *. split; [|split; [by split|by rewrite K1]].
  split; rewrite ?K1, ?K2, ?K3, ?K4; cbn [eq_heap]; try done.
  - by rewrite S3.
  - intros x j' [(j & Hj & Hr & Hw)|(job & ds & o & Ee & Hr & Hw)]%S5; unfold holds; rewrite Hr, Hw; [by eapply H6|].
    by eapply (H7 e); [left|].
  - intros e' job ds o He'. apply H7. by right.
  - intros r Hr. destruct (H8 r (S2 r Hr)) as (e' & run & He' & Hf & Hrun). rewrite Eq in He'.
    apply elem_of_cons in He' as [->|He']; [|exists e', run; by rewrite S1].
    destruct (S6 (rj_job r) run Hf); [|by apply list_elem_of_fmap_2].
    eapply (running_current (with_queue s (MkEventQueue l seq)) r run); [apply sim_inv_queue, H1|by apply S2|done].
  - lia.
  - intros e' He'. apply H10. by right.
Qed.

(** All the due events. *)
Lemma deliver_lively fuel s at_ n :
  lively s → (length (eq_heap (sm_queue s)) < fuel)%nat →
  ∃ s' n', deliver_due fuel s at_ n = Done (Ok (s', n')) ∧ lively s' ∧ moves_on s s' ∧ sm_now s' = sm_now s ∧
    (∀ e, e ∈ eq_heap (sm_queue s') → e ∈ eq_heap (sm_queue s)) ∧
    (∀ t, queue_next_at (sm_queue s') = Some t → at_ < t).
Proof.
  revert s n. induction fuel as [|fuel IH]; intros s n Hl Hf; [lia|]. cbn [deliver_due].
  unfold pop_due, queue_next_at. destruct (eq_heap (sm_queue s)) as [|e l] eqn:Eq; cbn.
  { exists s, n. rewrite Eq. by split_and!. }
  destruct (Z.ltb_spec at_ (en_at e)) as [Hlt|Hge].
  { exists s, n. rewrite Eq. split_and!; try done. cbn. by intros t [= <-]. }
  destruct (deliver_one_lively s e l (eq_next_seq (sm_queue s)) Hl Eq) as (s1 & -> & H1 & M1 & N1 & Hq). cbn [exec_bind].
  rewrite (checked_ok s1) by apply H1. cbn [exec_bind]. cbn in Hf.
  destruct (IH s1 (S n) H1) as (s' & n' & -> & H2 & M2 & N2 & Hk & Hd); [rewrite Hq; lia|].
  exists s', n'. split; [done|]. split; [done|]. split; [by etrans|]. split; [congruence|]. split; [|done].
  intros x Hx%Hk. rewrite Hq in Hx. by right.
Qed.

(** An empty cluster. *)
Lemma empty_free inv names i w :
  slots_inv inv [] names → vec_get (worker_slots inv) i = Some w → Resources_wf (capacity w) → Resources_le (capacity w) (WorkerSlot_free w).
Proof.
  intros Hs Hw Hc. unfold WorkerSlot_free. rewrite (sv_used _ _ _ Hs i w Hw). unfold used. cbn. destruct (capacity w). res_crush.
Qed.

Lemma capacities_get inv c : c ∈ capacities inv ↔ ∃ i w, vec_get (worker_slots inv) i = Some w ∧ capacity w = c.
Proof.
  unfold capacities. rewrite list_elem_of_fmap. split.
  - intros (w & -> & [i Hi]%list_elem_of_lookup). exists (Z.of_nat i), w. split; [|done]. apply vec_get_Some. split; [lia|]. by rewrite Nat2Z.id.
  - intros (i & w & [_ Hw]%vec_get_Some & <-). exists w. split; [done|]. by eapply list_elem_of_lookup_2.
Qed.

Lemma capacities_kept inv inv' :
  slots_kept inv inv' → length (worker_slots inv') = length (worker_slots inv) → capacities inv' = capacities inv.
Proof.
  intros Hk Hl. unfold capacities. apply list_eq. intros i. rewrite !list_lookup_fmap.
  destruct (worker_slots inv' !! i) as [w'|] eqn:E'.
  - destruct (Hk (Z.of_nat i) w') as (w & [_ Hw]%vec_get_Some & Hc & _); [apply vec_get_Some; split; [lia|by rewrite Nat2Z.id]|].
    rewrite Nat2Z.id in Hw. rewrite Hw. cbn. by rewrite Hc.
  - apply lookup_ge_None in E'. rewrite (proj2 (lookup_ge_None (worker_slots inv) i)) by lia. done.
Qed.

(** On an empty cluster every job has a slot to start on. *)
Lemma lively_free s x j :
  lively s → sm_running s = [] → Arena_get (sm_jobs s) x = Some j →
  ∃ i w, vec_get (worker_slots (sm_inventory s)) i = Some w ∧ Resources_le (request j) (WorkerSlot_free w).
Proof.
  intros Hl Hr Hj. destruct (lv_jobs _ _ _ _ Hl x j Hj) as [(c & Hc & Hle) _]. rewrite <-(lv_caps _ _ _ _ Hl) in Hc.
  apply capacities_get in Hc as (i & w & Hw & <-). exists i, w. split; [done|].
  pose proof (mi_slots _ (pl_inv _ (lv_plan _ _ _ _ Hl))) as Hs. rewrite Hr in Hs.
  etrans; [exact Hle|]. eapply empty_free; [exact Hs|done|]. apply (inv_widths _ (sv_wf _ _ _ Hs) i w Hw).
Qed.

Lemma index_distinct (jobs : Arena Job) (xs : list JobId) :
  (∀ x, x ∈ xs → is_Some (Arena_get jobs x)) → NoDup xs → NoDup (JobId_index <$> xs).
Proof.
  intros Hl Hn. apply NoDup_fmap_2_strong; [|done]. intros x y Hx Hy E.
  destruct (Hl x Hx) as [j Hj], (Hl y Hy) as [k Hk]. by eapply Arena_index_inj.
Qed.

(** The cycle: a job starts for the first time, or nothing changes; and on an
    empty cluster a ready job starts. *)
Lemma cycle_lively s :
  lively s →
  ∃ s' out n, sim_cycle s (sm_now s) = Done (s', out, n) ∧ lively s' ∧ moves_on s s' ∧ sm_now s' = sm_now s ∧
    ((∃ x, ¬ is_past (sm_jobs s) x ∧ is_past (sm_jobs s') x) ∨
     (sm_queue s' = sm_queue s ∧ sm_running s' = sm_running s ∧
      (sm_running s = [] → ∀ x, job_state (sm_jobs s') x ≠ Some JobState.Ready))).
Proof.
  intros Hl. pose proof Hl as [H1 H2 H3 H4 H5 H6 H7 H8 H9 H10]. pose proof (pl_inv _ H1) as Hs.
  destruct (sim_cycle_plan s (sm_now s) H1 (mi_now _ Hs)) as (s' & out & n & E & Hp' & G).
  exists s', out, n. split; [done|]. unfold sim_cycle in E.
  destruct (cycle_starts _ _ _ _ _ (sm_now s) _ (mi_sched _ Hs) (mi_config _ Hs) (mi_now _ Hs) (so_accepted _ (mi_jobs _ Hs)) (mi_slots _ Hs) (mi_running _ Hs))
    as (r & ds & B & Er & Hc). rewrite Er in E. cbn [exec_bind] in E.
  pose proof Hc as [Hpost Hlike _ HB _ Hst Hoth Hsl Hrun _]. pose proof (cp_decisions _ _ _ _ _ _ Hpost) as Ed. rewrite Ed in E. cbn [app] in E.
  set (s0 := sim_record _ (sm_now s) None _) in E.
  assert (∀ x j, Arena_get (cy_jobs r) x = Some j → holds caps W j) as Hh.
  { intros x j Hj. destruct (arena_rel_Some _ _ _ _ _ Hlike Hj) as (j0 & Hj0 & (_ & _ & Hq & Hw & _)%job_like_fields).
    unfold holds. rewrite Hq, Hw. by eapply H6. }
  assert (∀ d, d ∈ ds → job_state (sm_jobs s) (dd_job d) = Some JobState.Ready) as Hready by apply Hpost.
  destruct (dispatch_all caps W s0 ds B (sm_now s) Hh HB) as (q & t & runs & Ef & Hq).
  { apply (index_distinct (sm_jobs s)); [|apply Hpost]. intros x (d & -> & Hd%Hready)%list_elem_of_fmap. unfold job_state in Hd.
    by destruct (Arena_get (sm_jobs s) (dd_job d)). }
  rewrite Ef in E. cbn [exec_bind] in E.
  assert (sim_inv (with_dispatches s0 B q t runs)) as Hs1 by (apply (started_inv s r ds B q t runs (sm_now s) Hs Hc)).
  destruct (preempt_for_ok _ (co_head (cy_outcome r)) (sm_now s) Hs1) as (s2 & n2 & Ep & _ & _ & Hoff).
  rewrite (Hoff H2) in Ep. rewrite Ep in E. cbn [exec_bind] in E. injection E as <- _ _.
  pose proof (goes_on_planned _ _ G) as Hpl. cbn in Hq. pose proof Hq as [Q1 Q2 Q3 Q4].
  assert (∀ x, is_past (sm_jobs s) x → is_past (cy_jobs r) x) as Hpast.
  { intros x (st & Hx & Hps). unfold is_past. rewrite Hst. case_decide; [by exists JobState.Running|eauto]. }
  split; [|split; [by split|split; [done|]]].
  - split; cbn; try done.
    + rewrite (capacities_kept (sm_inventory s)); [done|apply Hpost|]. pose proof (sv_names _ _ _ Hsl) as Hn.
      unfold attached_names in Hn. by rewrite length_fmap in Hn.
    + intros e job dss o [He|[Hx _]]%Q2 Ee; [by eapply H7|]. unfold external in Hx. by rewrite Ee in Hx.
    + intros x [Hx|Hx]%elem_of_app.
      * eapply fated_kept; [exact Q1| |by apply H8]. intros v. apply Q3. intros y (d & -> & Hd)%list_elem_of_fmap Ei.
        destruct (rv_live _ _ (mi_running _ Hs) x Hx) as (j & Hj & Ho & _). specialize (Hready d Hd). unfold job_state in Hready.
        destruct (Arena_get (sm_jobs s) (dd_job d)) as [jd|] eqn:Hjd; [|done]. injection Hready as Hrd.
        assert (dd_job d = rj_job x) as Ex by (by eapply Arena_index_inj). rewrite Ex in Hjd. rewrite Hj in Hjd. injection Hjd as <-. by rewrite Hrd in Ho.
      * apply Q4. rewrite <-(started_jobs _ _ _ _ HB). by apply list_elem_of_fmap_2.
    + by rewrite <-(arena_rel_length _ _ _ Hlike).
    + intros e [He|[_ He]]%Q2; [by apply H10|]. lia.
  - destruct ds as [|d ds].
    + right. cbn. inversion HB; subst B. cbn in Ef. injection Ef as Eq _ _. split; [by rewrite <-Eq|].
      split; [apply app_nil_r|]. intros Hrn x Hx. rewrite Hst in Hx. rewrite decide_False in Hx by apply not_elem_of_nil.
      eapply (cycle_progress _ _ _ (sm_running s) _ _ (mi_sched _ Hs)); [by apply within_inventory_ok; [apply (sv_wf _ _ _ (mi_slots _ Hs))|apply Hs]
        |by apply sim_running_ok|apply (mi_now _ Hs)|apply (mi_config _ Hs)|done|intros y j Hy _; by eapply lively_free|exact Er|exact Hx|done].
    + left. exists (dd_job d). specialize (Hready d ltac:(by left)). split.
      * intros (st & Hx & Hps). rewrite Hready in Hx. by injection Hx as <-.
      * exists JobState.Running. cbn. rewrite Hst, decide_True; [done|]. rewrite fmap_cons. by left.
Qed.

(** One tick: a job starts for the first time, or only due events left the queue
    and an empty cluster has nothing ready. *)
Lemma step_lively s :
  lively s →
  ∃ s' rep, step s = Done (Ok (s', rep)) ∧ lively s' ∧ moves_on s s' ∧ sm_now s' = Z.min u64_max (sm_now s + sm_tick s) ∧
    ((∃ x, ¬ is_past (sm_jobs s) x ∧ is_past (sm_jobs s') x) ∨
     ((∀ e, e ∈ eq_heap (sm_queue s') → e ∈ eq_heap (sm_queue s)) ∧
      (∀ t, queue_next_at (sm_queue s') = Some t → sm_now s' < t) ∧
      (sm_running s' = [] → ∀ x, job_state (sm_jobs s') x ≠ Some JobState.Ready))).
Proof.
  intros Hl. pose proof (lv_plan _ _ _ _ Hl) as Hp. unfold step.
  destruct (time_add_spec (sm_now s) (sm_tick s)) as [Hle H64]; [apply Hp..|].
  assert (time_saturating_add (sm_now s) (sm_tick s) = Z.min u64_max (sm_now s + sm_tick s)) as Et.
  { unfold time_saturating_add, sat_add. lia. }
  set (at_ := time_saturating_add _ _) in *. unfold advance_to. rewrite (proj2 (Z.leb_le _ _) Hle). cbn [exec_bind].
  pose proof (lively_now s at_ Hl Hle H64) as Hl0.
  destruct (deliver_lively (S (queue_len (sm_queue (with_now s at_)))) _ at_ 0 Hl0) as (s1 & n & -> & H1 & M1 & N1 & Hk & Hd);
    [unfold queue_len; lia|]. cbn [exec_bind]. cbn in N1, Hk.
  destruct (cycle_lively s1 H1) as (s2 & out & k & E & H2 & M2 & N2 & Hcase). rewrite N1 in E. rewrite E. cbn [exec_bind].
  rewrite (checked_ok s2) by apply H2. cbn [exec_bind]. eexists s2, _. split; [done|]. split; [done|].
  assert (moves_on s s1) as M1' by (destruct M1; by split). split; [by etrans|]. split; [congruence|].
  destruct Hcase as [(x & Hx & Hx')|(Eq & Erun & Hready)].
  - left. exists x. split; [|done]. by intros ?%(mo_past _ _ M1').
  - right. rewrite Eq, N2, N1, Erun. done.
Qed.

(** Nothing in the queue, nothing to start. *)
Lemma drained_quiescent s :
  lively s → eq_heap (sm_queue s) = [] → (sm_running s = [] → ∀ x, job_state (sm_jobs s) x ≠ Some JobState.Ready) →
  is_quiescent s = true.
Proof.
  intros Hl Eq Hready. pose proof (pl_inv _ (lv_plan _ _ _ _ Hl)) as Hs. assert (sm_running s = []) as Hr.
  { destruct (sm_running s) as [|r l] eqn:Er; [done|]. destruct (lv_fated _ _ _ _ Hl r) as (e & run & He & _); [rewrite Er; by left|].
    rewrite Eq in He. by apply elem_of_nil in He. }
  unfold is_quiescent, queue_is_empty, queue_len. rewrite Eq, Hr, (inv_ready_count s Hs). cbn.
  unfold count_if. destruct (List.filter is_ready (Arena_iter (sm_jobs s))) as [|[x j] l] eqn:Ef; [done|].
  destruct (Hready Hr x). assert (x ∈ (List.filter is_ready (Arena_iter (sm_jobs s))).*1) as Hx by (rewrite Ef; by left).
  apply iter_filter_elem in Hx as (j' & Hj & Hrd%bool_decide_eq_true); [|apply Hs]. unfold job_state. rewrite Hj. cbn in Hrd. cbn. by rewrite Hrd.
Qed.

(** ** Counting the jobs that have not started *)

Lemma past_ids_elem s x : sim_inv s → x ∈ past_ids (sm_jobs s) ↔ is_past (sm_jobs s) x.
Proof.
  intros Hs. unfold past_ids, is_past, job_state. rewrite iter_filter_elem by apply Hs. cbn. split.
  - intros (j & -> & Hj). by exists (state j).
  - intros (st & Hx & Hp). destruct (Arena_get (sm_jobs s) x) as [j|]; [|done]. injection Hx as <-. by exists j.
Qed.

Lemma past_ids_NoDup s : sim_inv s → NoDup (past_ids (sm_jobs s)).
Proof.
  intros Hs. apply NoDup_fmap_filter. apply (slot_entries_NoDup (slots (sm_jobs s)) 0).
  pose proof (wf_bound _ (wa_arena _ _ (mi_waits _ Hs))). lia.
Qed.

Lemma past_ids_bound s : lively s → (length (past_ids (sm_jobs s)) <= planned s)%nat.
Proof.
  intros Hl. unfold past_ids, planned. rewrite length_fmap.
  pose proof (List.filter_length_le (fun p => past (state p.2)) (Arena_iter (sm_jobs s))) as H1. rewrite Arena_iter_length in H1.
  pose proof (List.filter_length_le is_occupied (slots (sm_jobs s))) as H2. unfold count_if in *.
  pose proof (lv_handles _ _ _ _ Hl). lia.
Qed.

Definition unstarted (s : Simulation) : nat := (planned s - length (past_ids (sm_jobs s)))%nat.

Lemma unstarted_mono s s' : lively s → lively s' → moves_on s s' → (unstarted s' <= unstarted s)%nat.
Proof.
  intros Hl Hl' [_ _ Hp Hm]. unfold unstarted. rewrite Hp.
  assert (past_ids (sm_jobs s) ⊆+ past_ids (sm_jobs s')) as Hs%submseteq_length; [|lia].
  apply NoDup_submseteq; [apply past_ids_NoDup, Hl|]. intros x. rewrite !past_ids_elem by (apply Hl || apply Hl'). apply Hm.
Qed.

Lemma unstarted_less s s' x :
  lively s → lively s' → moves_on s s' → ¬ is_past (sm_jobs s) x → is_past (sm_jobs s') x → (unstarted s' < unstarted s)%nat.
Proof.
  intros Hl Hl' [_ _ Hp Hm] Hx Hx'. pose proof (past_ids_bound s' Hl') as Hb. unfold unstarted. rewrite Hp in *.
  assert (x :: past_ids (sm_jobs s) ⊆+ past_ids (sm_jobs s')) as Hs%submseteq_length; [|cbn in Hs; lia].
  apply NoDup_submseteq.
  - constructor; [|apply past_ids_NoDup, Hl]. by rewrite past_ids_elem by apply Hl.
  - intros y [->|Hy]%elem_of_cons; rewrite past_ids_elem in * by (apply Hl || apply Hl'); auto.
Qed.

(** ** Rest *)

(** The ticks one start may take. *)
Definition window (tick : Z) : nat := S (Z.to_nat (Z.max L W / tick)).

Lemma window_enough s : lively s → 0 <= L → 0 <= W →
  Z.min u64_max (Z.max L (sm_now s + W)) <= sm_now s + Z.of_nat (window (sm_tick s)) * sm_tick s.
Proof.
  intros Hl HL HW. pose proof (mi_now _ (pl_inv _ (lv_plan _ _ _ _ Hl))) as [Hn _]. pose proof (lv_tick _ _ _ _ Hl) as Ht.
  unfold window. pose proof (Z.mul_succ_div_gt (Z.max L W) (sm_tick s) Ht). pose proof (Z.div_pos (Z.max L W) (sm_tick s)).
  rewrite Nat2Z.inj_succ, Z2Nat.id by lia. lia.
Qed.

Lemma drains m k T s n :
  lively s → 0 <= L → 0 <= W → (unstarted s <= m)%nat → (∀ e, e ∈ eq_heap (sm_queue s) → en_at e <= T) → T <= u64_max →
  T <= sm_now s + Z.of_nat (S k) * sm_tick s → (m * window (sm_tick s) + S k <= n)%nat →
  ∃ s', run_to_quiescence n s = Done (Ok (s', true)) ∧ lively s' ∧ moves_on s s' ∧ is_quiescent s' = true.
Proof.
  revert k T s n. induction m as [m IHm] using (well_founded_induction lt_wf). induction k as [|k IHk]; intros T s n Hl HL HW Hu HT HTu Hk Hn.
  all: destruct n as [|n]; [lia|]; cbn [run_to_quiescence]; (destruct (is_quiescent s) eqn:Eq; [by exists s|]);
    destruct (step_lively s Hl) as (s' & rep & -> & Hl' & Hm & Hnow & Hcase); cbn [exec_bind];
    pose proof (mo_tick _ _ Hm) as Htick.
  all: assert ((∃ x, ¬ is_past (sm_jobs s) x ∧ is_past (sm_jobs s') x) →
    ∃ s2, run_to_quiescence n s' = Done (Ok (s2, true)) ∧ lively s2 ∧ moves_on s s2 ∧ is_quiescent s2 = true) as Hprog
    by (intros (x & Hx & Hx'); pose proof (unstarted_less _ _ _ Hl Hl' Hm Hx Hx') as Hlt;
        destruct (IHm (pred m) ltac:(lia) (pred (window (sm_tick s'))) (Z.min u64_max (Z.max L (sm_now s' + W))) s' n Hl' HL HW)
          as (s2 & E2 & Hl2 & Hm2 & Hq2);
        [lia|apply Hl'|lia|pose proof (window_enough s' Hl' HL HW); unfold window in *; lia
        |rewrite Htick in *; unfold window in *; nia|exists s2; split; [done|]; split; [done|]; split; [by etrans|done]]).
  all: destruct Hcase as [Hc|(Hsub & Hhead & Hidle)]; [by apply Hprog|].
  all: assert (T <= sm_now s' → is_quiescent s' = true) as Hrest
    by (intros HTn; apply drained_quiescent; [done| |done]; unfold queue_next_at in Hhead;
        destruct (eq_heap (sm_queue s')) as [|e l]; [done|]; specialize (Hhead _ eq_refl); specialize (HT e (Hsub e ltac:(by left))); cbn in Hhead; lia).
  - assert (is_quiescent s' = true) as Hq by (apply Hrest; lia). exists s'. split; [|done].
    destruct n; cbn [run_to_quiescence]; by rewrite Hq.
  - destruct (Z.le_gt_cases T (sm_now s')) as [HTn|HTn].
    + specialize (Hrest HTn). exists s'. split; [|done]. destruct n; cbn [run_to_quiescence]; by rewrite Hrest.
    + destruct (IHk T s' n Hl' HL HW) as (s2 & E2 & Hl2 & Hm2 & Hq2);
        [pose proof (unstarted_mono _ _ Hl Hl' Hm); lia|auto|done|rewrite Htick, Hnow; lia|rewrite Htick; lia|].
      exists s2. split; [done|]. split; [done|]. split; [by etrans|done].
Qed.

Lemma comes_to_rest s n :
  lively s → 0 <= L → 0 <= W → (S (planned s) * window (sm_tick s) <= n)%nat →
  ∃ s', run_to_quiescence n s = Done (Ok (s', true)) ∧ lively s' ∧ moves_on s s' ∧ is_quiescent s' = true.
Proof.
  intros Hl HL HW Hn. eapply (drains (unstarted s) (pred (window (sm_tick s))) (Z.min u64_max (Z.max L (sm_now s + W)))); try done.
  - apply Hl.
  - lia.
  - pose proof (window_enough s Hl HL HW). unfold window in *. lia.
  - unfold unstarted, window in *. nia.
Qed.
End Lively.

(** ** Generated scenarios *)

Lemma load_heap s events e :
  e ∈ eq_heap (sm_queue (load s events)) →
  e ∈ eq_heap (sm_queue s) ∨ ∃ p, p ∈ events ∧ en_at e = p.1 ∧ en_event e = p.2.
Proof.
  revert s. induction events as [|p events IH]; intros s; cbn [load fold_left]; [by left|]. intros [He|(p' & ? & ?)]%IH.
  - cbn in He. apply entry_insert_elem in He as [->|He]; [right; exists p; split; [by left|done]|by left].
  - right. exists p'. split; [by right|done].
Qed.

Lemma load_rest s events :
  sm_config (load s events) = sm_config s ∧ sm_tick (load s events) = sm_tick s ∧ sm_inventory (load s events) = sm_inventory s ∧
  sm_jobs (load s events) = sm_jobs s ∧ sm_running (load s events) = sm_running s ∧ sm_handles (load s events) = sm_handles s ∧
  sm_now (load s events) = sm_now s.
Proof. revert s. induction events as [|p events IH]; intros s; [done|]. apply (IH (sim_schedule s p.1 p.2)). Qed.

Lemma generated_lively p inv config tick events :
  params_ok p → generated p (p_jobs p) events → idle inv → config_ok config → is_u64 tick → 0 < tick → can_start config →
  min_class (cc_preempt config) = None → (∃ c, c ∈ capacities inv ∧ Resources_le (largest_job p) c) →
  lively (capacities inv) (longest_run p) (last_event p) (with_check (load (Simulation_new inv config tick) events) true).
Proof.
  intros Hp Hg Hi Hc Ht Ht0 Hst Hoff (c & Hcap & Hle).
  destruct (generated_plan p inv config tick events Hp Hg Hi Hc Ht (or_intror Hoff)) as [Hl _].
  destruct (load_rest (Simulation_new inv config tick) events) as (E1 & E2 & E3 & E4 & E5 & E6 & E7).
  pose proof (gn_sized _ _ _ Hg) as Hz. rewrite Forall_forall in Hz.
  assert (∀ e, e ∈ eq_heap (sm_queue (load (Simulation_new inv config tick) events)) →
    ∃ q, q ∈ events ∧ en_at e = q.1 ∧ en_event e = q.2) as Hq.
  { intros e [He|?]%load_heap; [by apply elem_of_nil in He|done]. }
  split; cbn [with_check sm_config sm_tick sm_inventory sm_jobs sm_running sm_handles sm_now sm_queue sm_runs];
    rewrite ?E1, ?E2, ?E3, ?E4, ?E5, ?E6, ?E7; try done.
  - by apply plan_ok_check.
  - intros x j. cbn. by rewrite Arena_get_new.
  - intros e job ds o (q & Hin & _ & Ee)%Hq Es. destruct (Hz q Hin) as [_ Hs]. rewrite <-Ee, Es in Hs. destruct Hs as [Hr Hw].
    split; [|done]. exists c. split; [done|]. by etrans.
  - by intros r ?%elem_of_nil.
  - intros e (q & Hin & -> & _)%Hq. destruct (Hz q Hin) as [Hs _]. lia.
Qed.

(** C19: A generated scenario comes to rest.  With eviction off, a tick that is not
    zero, a budget of at least one job and a cluster with one slot that can hold
    the largest job, the simulation of a generated scenario is quiescent after at
    most [window] ticks per job and one window more, a window being the ticks the
    clock needs to pass the last event or the longest run; by then every job has
    been submitted and has finished.  No job is starved, whatever the seed, the
    priorities and the dependencies. *)
Theorem generated_scenarios_come_to_rest seed p inv config tick n :
  params_ok p → idle inv → config_ok config → is_u64 tick → 0 < tick → can_start config →
  min_class (cc_preempt config) = None → (∃ c, c ∈ capacities inv ∧ Resources_le (largest_job p) c) →
  (S (p_jobs p) * window (longest_run p) (last_event p) tick <= n)%nat →
  ∃ events s, generate seed p = Done events ∧
    run_to_quiescence n (with_check (load (Simulation_new inv config tick) events) true) = Done (Ok (s, true)) ∧
    length (sm_handles s) = p_jobs p ∧ ∀ x j, Arena_get (sm_jobs s) x = Some j → is_terminal (state j) = true.
Proof.
  intros Hp Hi Hc Ht Ht0 Hst Hoff Hcap Hn. destruct (generate_ok seed p Hp) as (events & Eg & Hg).
  pose proof (generated_lively p inv config tick events Hp Hg Hi Hc Ht Ht0 Hst Hoff Hcap) as Hl.
  destruct (generated_plan p inv config tick events Hp Hg Hi Hc Ht (or_intror Hoff)) as [_ Hpl].
  destruct (load_rest (Simulation_new inv config tick) events) as (_ & E2 & _).
  pose proof (pk_span _ Hp) as [Hsp _]. pose proof (pk_walltime _ Hp) as Hw.
  destruct (comes_to_rest _ _ _ _ n Hl) as (s & E & Hl' & Hm & Hq).
  { unfold last_event, duration_from_secs, sat_mul. lia. } { unfold longest_run, duration_from_secs, sat_mul. lia. }
  { rewrite planned_check, Hpl. cbn [with_check sm_tick]. by rewrite E2. }
  exists events, s. split; [done|]. split; [done|]. split.
  - rewrite <-(planned_quiescent s Hq), (mo_planned _ _ Hm), planned_check. done.
  - intros x j. by apply quiescent_finished; [apply Hl'|].
Qed.

Lemma generated_scenarios_come_to_rest_witness :
  ∃ events s, generate 3 demo_params = Done events ∧
    run_to_quiescence 91 (with_check (load (Simulation_new demo_cluster demo_config 1000000000) events) true) = Done (Ok (s, true)) ∧
    length (sm_handles s) = 6%nat ∧ ∀ x j, Arena_get (sm_jobs s) x = Some j → is_terminal (state j) = true.
Proof.
  apply (generated_scenarios_come_to_rest 3 demo_params demo_cluster demo_config 1000000000 91).
  - by split; vm_compute; split_and?.
  - split; [|intros i s (_ & Hi)%vec_get_Some; cbn in Hi; destruct (Z.to_nat i) as [|[|]]; by simplify_eq/=].
    apply from_uniform_wf; [lia|]. unfold Resources_wf, is_u32, is_u64, is_u8. cbn. lia.
  - by vm_compute.
  - by vm_compute.
  - done.
  - vm_compute. split_and!; discriminate.
  - by vm_compute.
  - exists (MkResources 2000 0 0). split; [by left|]. unfold Resources_le. cbn. lia.
  - vm_compute. lia.
Defined.
