(* ===== verification/Bench.v ===== *)
(** * Synthetic workloads

    [crates/tasker-bench/src/lib.rs]: the generated cluster the benchmarks
    measure, with what [benches/scheduling_cycle.rs] does with it before the
    clock starts.  The measured cycle starts from a state in which it cannot
    panic, whatever the sizes and the seed. *)

From stdpp Require Import base strings list numbers option sets relations sorting.
From Stdlib Require Import ZArith Lia.
From S2P Require Import Prelude Domain Arena Job Inventory Priority ReadySet Eligibility.
From S2P Require Import Decay FairShare Pack Backfill Preempt Scheduler Cycle Frame.
From S2P Require Import Codec EngineInv EngineSteps EngineTick EngineRun Order Restart Proto Worker Sim SimInv SimRun Scenario.
Open Scope Z_scope.
Open Scope list_scope.

Record Workload : Type := MkWorkload {
  wl_jobs : Arena Job;
  wl_inventory : SlotInventory;
  wl_running : list RunningJob;
  wl_admitted : list JobId;
}.

Definition SLOT_CPU : Z := 8000.
Definition SLOT_MEM : Z := 32 * 2 ^ 30.
Definition SECOND : Z := 1000000000.

(** [Result::expect]. *)
Definition expect_ok {A E} (r : result A E) : exec A := match r with Ok a => Done a | Err _ => Panic end.

(** The two transitions of a job that is already running. *)
Definition launched (job : Job) : exec Job :=
  let! job := expect_ok (try_transition job JobState.Ready) in
  expect_ok (try_transition job JobState.Running).

(** One turn of the first loop; a full slot skips the rest of the turn. *)
Definition place_running (slots : Z) (acc : SplitMix64 * (Arena Job * SlotInventory * list RunningJob)) (_ : nat)
  : exec (SplitMix64 * (Arena Job * SlotInventory * list RunningJob)) :=
  let '(r, (jobs, inventory, running)) := acc in
  let! '(r, c) := rng_range r 500 4000 in
  let! cpu := u32_try c in
  let! '(r, mem) := rng_range r (2 ^ 28) (4 * 2 ^ 30) in
  let resources := MkResources cpu mem 0 in
  let! '(r, sl) := rng_range r 0 slots in
  let! slot := u32_try sl in
  match try_allocate inventory slot resources with
  | (inventory, Err _) => Done (r, (jobs, inventory, running))
  | (inventory, Ok _) =>
      let! '(r, walltime) := rng_range r 30 3600 in
      let! '(r, a) := rng_range r 0 16 in
      let! account := u32_try a in
      let! '(r, class_index) := rng_range r 0 4 in
      let! class := vec_at PriorityClass_ALL class_index in
      let! job := launched (Job_new account class 0 (MkResources cpu mem 0) (duration_from_secs walltime)) in
      let! '(jobs, id) := Arena_insert jobs job in
      Done (r, (jobs, inventory, running ++ [MkRunningJob id slot resources (wrap64 (walltime * SECOND))]))
  end.

(** One turn of the second loop. *)
Definition place_pending (acc : SplitMix64 * (Arena Job * list JobId)) (_ : nat) : exec (SplitMix64 * (Arena Job * list JobId)) :=
  let '(r, (jobs, admitted)) := acc in
  let! '(r, c) := rng_range r 250 SLOT_CPU in
  let! cpu := u32_try c in
  let! '(r, mem) := rng_range r (2 ^ 27) (8 * 2 ^ 30) in
  let! '(r, a) := rng_range r 0 16 in
  let! account := u32_try a in
  let! '(r, class_index) := rng_range r 0 4 in
  let! class := vec_at PriorityClass_ALL class_index in
  let! '(r, at_) := rng_range r 0 (3600 * SECOND) in
  let! '(r, walltime) := rng_range r 30 7200 in
  let! '(jobs, id) := Arena_insert jobs (Job_new account class at_ (MkResources cpu mem 0) (duration_from_secs walltime)) in
  Done (r, (jobs, admitted ++ [id])).

Definition synthetic (pending running : nat) (slots seed : Z) : exec Workload :=
  let! '(r, (jobs, inventory, running_jobs)) :=
    exec_fold (place_running slots)
      (SplitMix64_new seed, (Arena_new, from_uniform slots (MkResources SLOT_CPU SLOT_MEM 4), [])) (seq 0 running) in
  let! '(_, (jobs, admitted)) := exec_fold place_pending (r, (jobs, [])) (seq 0 pending) in
  Done (MkWorkload jobs inventory running_jobs admitted).

Definition bench_config : CycleConfig :=
  MkCycleConfig (MkPriorityConfig (MkPriorityWeights 1000 1000 1000 100) (duration_from_secs 3600) (MkResources SLOT_CPU SLOT_MEM 4))
    FairShareConfig_default PreemptConfig_default PackBudget_default 10000.

(** One submission of the set-up, which expects it to be accepted. *)
Definition enroll (acc : Scheduler * Arena Job) (id : JobId) : exec (Scheduler * Arena Job) :=
  let! '(s, jobs, r) := submit acc.1 id acc.2 0 bench_config in
  let! _ := expect_ok r in
  Done (s, jobs).

Definition enroll_all (w : Workload) : exec (Scheduler * Arena Job) :=
  exec_fold enroll (Scheduler_with_slots (Z.of_nat (length (slots (wl_jobs w)))), wl_jobs w) (wl_admitted w).

Example small_workload :
  match synthetic 3 2 1 7 with
  | Done w => match enroll_all w with
              | Done (s, jobs) => (length (wl_running w), length (wl_admitted w), job_state jobs <$> wl_admitted w)
                  = (2%nat, 3%nat, replicate 3 (Some JobState.Ready))
              | _ => False
              end
  | _ => False
  end.
Proof. vm_compute. reflexivity. Qed.

(** ** The workload is sound *)

(** After [k] insertions. *)
Record placed (k : nat) (jobs : Arena Job) : Prop := {
  pl_arena : Arena_wf jobs;
  pl_length : Z.of_nat (length (slots jobs)) <= Z.of_nat k;
  pl_jobs : ∀ x j, Arena_get jobs x = Some j →
    Job_wf j ∧ deps j = [] ∧ account j < MAX_ACCOUNTS ∧ (state j = JobState.Running ∨ state j = JobState.Submitted);
}.

Lemma placed_new : placed 0 Arena_new.
Proof. split; [apply Arena_wf_new|done|]. intros x j. by rewrite Arena_get_new. Qed.

Lemma placed_more k k' jobs : placed k jobs → (k <= k')%nat → placed k' jobs.
Proof. intros [H1 H2 H3] Hk. split; [done|lia|done]. Qed.

Lemma placed_ok k jobs : placed k jobs → Z.of_nat k <= u32_max → jobs_ok jobs.
Proof. intros [H1 H2 H3] Hk. split; [done|lia|]. intros x j (? & -> & _)%H3. split; [done|cbn; lia]. Qed.

Lemma placed_insert k jobs job :
  placed k jobs → Z.of_nat k < u32_max → Job_wf job → deps job = [] → account job < MAX_ACCOUNTS →
  state job = JobState.Running ∨ state job = JobState.Submitted →
  ∃ jobs' id, Arena_insert jobs job = Done (jobs', id) ∧ placed (S k) jobs' ∧ Arena_get jobs id = None ∧
    ∀ x, Arena_get jobs' x = if decide (id = x) then Some job else Arena_get jobs x.
Proof.
  intros Hp Hk Hwf Hd Ha Hs. pose proof Hp as [H1 H2 H3].
  destruct (Arena_insert_spec jobs job H1 ltac:(right; lia)) as (jobs' & id & E & _ & Hwf' & Hn & Hg).
  exists jobs', id. split; [done|]. split; [|done]. split; [done|apply Arena_insert_length in E; lia|].
  intros x j. rewrite Hg. case_decide; [by intros [= <-]|apply H3].
Qed.

Ltac draw :=
  match goal with
  | |- context [rng_range ?r ?a ?b] => destruct (rng_range_spec r a b) as (? & ? & -> & ?); [lia..|]; cbn [exec_bind]
  end.

Ltac in_u32 := match goal with |- context [u32_try ?x] => unfold u32_try at 1; rewrite (proj2 (Z.leb_le x u32_max)) by lia; cbn [exec_bind] end.

(** The drawn numbers make a job of the workload. *)
Lemma drawn_job cpu mem a class at_ secs :
  0 <= cpu <= SLOT_CPU → 0 <= mem <= SLOT_MEM → 0 <= a < 16 → 0 <= at_ <= 3600 * SECOND → 0 <= secs →
  Job_wf (Job_new a class at_ (MkResources cpu mem 0) (duration_from_secs secs)).
Proof.
  unfold SLOT_CPU, SLOT_MEM, SECOND. intros Hc Hm Ha Ht Hs. pose proof (duration_from_secs_u64 secs Hs) as Hd.
  unfold Job_new, Job_wf, Resources_wf, is_u32, is_u64, is_u8 in *. cbn. split_and!; try done; lia.
Qed.

Lemma launched_new a c t r d : launched (Job_new a c t r d) = Done (job_with_state (Job_new a c t r d) JobState.Running).
Proof. reflexivity. Qed.

(** What the running list says of the arena. *)
Definition runs_in (jobs : Arena Job) (r : RunningJob) : Prop :=
  ∃ j, Arena_get jobs (rj_job r) = Some j ∧ state j = JobState.Running ∧ request j = rj_resources r.

Definition place_inv (k : nat) (acc : Arena Job * SlotInventory * list RunningJob) : Prop :=
  placed k acc.1.1 ∧ Inventory_wf acc.1.2 ∧ within_capacity acc.1.2 ∧ Forall (runs_in acc.1.1) acc.2.

Lemma runs_in_insert jobs jobs' id job r :
  Arena_get jobs id = None → (∀ x, Arena_get jobs' x = if decide (id = x) then Some job else Arena_get jobs x) →
  runs_in jobs r → runs_in jobs' r.
Proof. intros Hn Hg (j & Hj & ?). exists j. rewrite Hg, decide_False; [done|]. intros ->. congruence. Qed.

Lemma place_running_step slots k r acc i :
  1 <= slots <= u32_max → Z.of_nat k < u32_max → place_inv k acc →
  ∃ r' acc', place_running slots (r, acc) i = Done (r', acc') ∧ place_inv (S k) acc'.
Proof.
  destruct acc as [[jobs inv] running]. intros Hs Hk (Hp & Hi & Hw & Hr). cbn [fst snd] in *. unfold place_running.
  draw. in_u32. draw. draw. in_u32. destruct (try_allocate inv _ _) as [inv' res] eqn:E.
  apply try_allocate_preserves in E as [Hi' Hw']; [|done|unfold Resources_wf, is_u32, is_u64, is_u8; cbn; lia].
  destruct res as [u|]; [|eexists _, _; split; [done|]; split; [by eapply placed_more; [done|lia]|by split_and!; auto]].
  draw. draw. in_u32. draw. destruct (vec_get_total PriorityClass_ALL _ ltac:(cbn; eassumption)) as [class Hcl].
  unfold vec_at. rewrite Hcl. cbn [expect exec_bind]. rewrite launched_new. cbn [exec_bind].
  match goal with |- context [Arena_insert _ ?j] => destruct (placed_insert k jobs j) as (jobs' & id & -> & Hp' & Hn & Hg); try done end.
  { by apply drawn_job; unfold SLOT_CPU, SLOT_MEM, SECOND; try lia. } { cbn. unfold MAX_ACCOUNTS. lia. } { by left. }
  cbn [exec_bind]. eexists _, _. split; [done|]. split_and!; cbn [fst snd]; try by auto. apply Forall_app. split.
  - eapply Forall_impl; [exact Hr|]. intros ?. by eapply runs_in_insert.
  - constructor; [|constructor]. eexists. cbn. rewrite Hg, decide_True by done. done.
Qed.

(** The second loop: the new handles, in order, are of waiting jobs. *)
Definition pend_inv (k : nat) (n : nat) (running : list RunningJob) (acc : Arena Job * list JobId) : Prop :=
  placed k acc.1 ∧ length acc.2 = n ∧ NoDup acc.2 ∧ (∀ x, x ∈ acc.2 → job_state acc.1 x = Some JobState.Submitted) ∧
  Forall (runs_in acc.1) running.

Lemma place_pending_step k n running r acc i :
  Z.of_nat k < u32_max → pend_inv k n running acc →
  ∃ r' acc', place_pending (r, acc) i = Done (r', acc') ∧ pend_inv (S k) (S n) running acc'.
Proof.
  destruct acc as [jobs admitted]. intros Hk (Hp & Hl & Hnd & Ha & Hr). cbn [fst snd] in *. unfold place_pending, SLOT_CPU, SECOND.
  draw. in_u32. draw. draw. in_u32. draw. destruct (vec_get_total PriorityClass_ALL _ ltac:(cbn; eassumption)) as [class Hcl].
  unfold vec_at. rewrite Hcl. cbn [expect exec_bind]. draw. draw.
  match goal with |- context [Arena_insert _ ?j] => destruct (placed_insert k jobs j) as (jobs' & id & -> & Hp' & Hn & Hg); try done end.
  { by apply drawn_job; unfold SLOT_CPU, SLOT_MEM, SECOND; try lia. } { cbn. unfold MAX_ACCOUNTS. lia. } { by right. }
  cbn [exec_bind]. eexists _, _. split; [done|]. split_and!; cbn [fst snd]; [done|rewrite length_app; cbn; lia| | |].
  - apply NoDup_app. split; [done|]. split; [|apply NoDup_singleton]. intros y Hx ->%list_elem_of_singleton.
    apply Ha in Hx. unfold job_state in Hx. by rewrite Hn in Hx.
  - intros y [Hx| ->%list_elem_of_singleton]%elem_of_app; unfold job_state; rewrite Hg; [|by rewrite decide_True].
    case_decide; [done|]. by apply Ha.
  - eapply Forall_impl; [exact Hr|]. intros ?. by eapply runs_in_insert.
Qed.

(** Iterating a total step. *)
Lemma fold_steps {A S} (f : SplitMix64 * S → A → exec (SplitMix64 * S)) (I : nat → S → Prop) l k r s :
  (∀ k' r s a, (k' < k + length l)%nat → I k' s → ∃ r' s', f (r, s) a = Done (r', s') ∧ I (Datatypes.S k') s') →
  I k s → ∃ r' s', exec_fold f (r, s) l = Done (r', s') ∧ I (k + length l)%nat s'.
Proof.
  revert k r s. induction l as [|a l IH]; intros k r s Hf Hs; cbn [exec_fold length]; [rewrite Nat.add_0_r; eauto|].
  destruct (Hf k r s a ltac:(cbn; lia) Hs) as (r1 & s1 & -> & H1). cbn [exec_bind].
  destruct (IH (Datatypes.S k) r1 s1) as (r2 & s2 & E & H2); [|done|].
  - intros k' r' s' b Hk'. apply Hf. cbn. lia.
  - exists r2, s2. split; [done|]. by rewrite Nat.add_succ_r.
Qed.

(** A workload the benchmarks can use. *)
Record workload_ok (pending running : nat) (w : Workload) : Prop := {
  wk_placed : placed (running + pending) (wl_jobs w);
  wk_inventory : Inventory_wf (wl_inventory w) ∧ within_capacity (wl_inventory w);
  wk_running : Forall (runs_in (wl_jobs w)) (wl_running w);
  wk_admitted : length (wl_admitted w) = pending ∧ NoDup (wl_admitted w);
  wk_waiting : ∀ x, x ∈ wl_admitted w → job_state (wl_jobs w) x = Some JobState.Submitted;
}.

Lemma synthetic_ok pending running slots seed :
  1 <= slots <= u32_max → Z.of_nat (running + pending) <= u32_max →
  ∃ w, synthetic pending running slots seed = Done w ∧ workload_ok pending running w.
Proof.
  intros Hs Hn. unfold synthetic.
  destruct (from_uniform_wf slots (MkResources SLOT_CPU SLOT_MEM 4)) as [Hi Hw]; [lia|unfold SLOT_CPU, SLOT_MEM; res_crush|].
  destruct (fold_steps (place_running slots) place_inv (seq 0 running) 0 (SplitMix64_new seed)
    (Arena_new, from_uniform slots (MkResources SLOT_CPU SLOT_MEM 4), [])) as (r1 & [[jobs inv] rj] & -> & Hp & Hi1 & Hw1 & Hr1).
  { intros k r s a Hk Hs0. rewrite length_seq in Hk. apply place_running_step; [done|lia|done]. }
  { split; [apply placed_new|]. by split_and!. }
  rewrite length_seq in Hp. cbn [exec_bind fst snd Nat.add] in *.
  destruct (fold_steps place_pending (fun k acc => pend_inv (running + k) k rj acc) (seq 0 pending) 0 r1 (jobs, []))
    as (r2 & [jobs2 adm] & -> & Hp2 & Hl & Hnd & Ha & Hr2).
  { intros k r s a Hk Hs0. rewrite length_seq in Hk. rewrite Nat.add_succ_r. apply place_pending_step; [lia|done]. }
  { rewrite Nat.add_0_r. split; [done|]. split; [done|]. split; [constructor|]. split; [by intros x ?%elem_of_nil|done]. }
  rewrite length_seq in *. eexists. split; [done|]. by split.
Qed.

(** ** Admission and the measured cycle *)

(** [dn] of the admitted jobs are submitted. *)
Record admitting (w : Workload) (dn : list JobId) (s : Scheduler) (jobs : Arena Job) : Prop := {
  ad_sched : Sched_inv s jobs;
  ad_like : arena_rel job_like (wl_jobs w) jobs;
  ad_state : ∀ x, job_state jobs x = if decide (x ∈ dn) then Some JobState.Ready else job_state (wl_jobs w) x;
  ad_tracked : ∀ x, tracked (sc_deps s) x → x ∈ dn;
}.

Lemma enroll_step w k dn s jobs x :
  placed k (wl_jobs w) → admitting w dn s jobs → job_state (wl_jobs w) x = Some JobState.Submitted → x ∉ dn →
  ∃ s' jobs', enroll (s, jobs) x = Done (s', jobs') ∧ admitting w (dn ++ [x]) s' jobs'.
Proof.
  intros Hp [H1 H2 H3 H4] Hx Hdn. unfold job_state in Hx. destruct (Arena_get (wl_jobs w) x) as [j0|] eqn:Hj0; [|done].
  destruct (pl_jobs _ _ Hp x j0 Hj0) as (_ & Hd & Ha & _). destruct (arena_rel_Some_l _ _ _ _ _ H2 Hj0) as (j & Hj & Hl).
  destruct (job_like_fields _ _ Hl) as (Ea & _ & _ & _ & Ed & _).
  assert (state j = JobState.Submitted) as Hs.
  { specialize (H3 x). unfold job_state in H3. rewrite Hj, decide_False in H3 by done. rewrite Hj0 in H3. cbn in H3, Hx. congruence. }
  assert (¬ tracked (sc_deps s) x) as Hnt by (by intros ?%H4).
  destruct (submit_spec s jobs x j 0 bench_config H1 Hj Hs Hnt) as (s' & jobs' & r & E & Hs' & Hc).
  assert (check_submit x j jobs = Ok Readiness.Ready) as Ec.
  { unfold check_submit, classify. rewrite Ea, Ed, Hd. destruct (Z.leb_spec MAX_ACCOUNTS (account j0)); [lia|done]. }
  rewrite Ec in Hc. destruct Hc as [-> ->]. unfold enroll. cbn [fst snd]. rewrite E. cbn [exec_bind expect_ok].
  eexists _, _. split; [done|]. destruct (submit_frame _ _ _ _ _ _ _ _ E) as [Hlike _]. split; [done|by etrans| |].
  - intros y. rewrite (job_state_set _ _ _ _ _ Hj), H3. destruct (decide (x = y)) as [<-|Hne].
    + rewrite decide_True by set_solver. done.
    + destruct (decide (y ∈ dn)); [rewrite decide_True by set_solver; done|rewrite decide_False by set_solver; done].
  - intros y Hy. apply elem_of_app. rewrite list_elem_of_singleton.
    destruct (submit_tracked _ _ _ _ _ _ _ _ _ y (si_deps _ _ H1) Hj Hs (proj2 (jo_jobs _ (si_jobs _ _ H1) _ _ Hj)) Hnt E Hy)
      as [?|[?|Hy']]; [left; auto|by right|]. rewrite Ed, Hd in Hy'. by apply elem_of_nil in Hy'.
Qed.

Lemma enroll_rest w k todo dn s jobs :
  placed k (wl_jobs w) → admitting w dn s jobs → (∀ x, x ∈ todo → job_state (wl_jobs w) x = Some JobState.Submitted) →
  NoDup (dn ++ todo) → ∃ s' jobs', exec_fold enroll (s, jobs) todo = Done (s', jobs') ∧ admitting w (dn ++ todo) s' jobs'.
Proof.
  intros Hp. revert dn s jobs. induction todo as [|x todo IH]; intros dn s jobs Ha Hs Hnd; cbn [exec_fold].
  { rewrite app_nil_r. eauto. }
  destruct (enroll_step w k dn s jobs x Hp Ha) as (s1 & jobs1 & -> & Ha1).
  { apply Hs. by left. } { apply NoDup_app in Hnd as (_ & Hnd & _). intros Hx. apply (Hnd x Hx). by left. }
  cbn [exec_bind]. destruct (IH (dn ++ [x]) s1 jobs1 Ha1) as (s2 & jobs2 & E & Ha2).
  { intros y Hy. apply Hs. by right. } { by rewrite <-app_assoc. }
  exists s2, jobs2. split; [done|]. by rewrite <-app_assoc in Ha2.
Qed.

(** The benchmark of the whole cycle.  For any sizes that fit the arena, any
    positive number of slots and any seed, the workload is generated without a
    panic, its cluster is not overcommitted, every pending job is accepted as
    [Ready] and every running one is in the arena; the cycle that is then measured
    returns, at any time, and starts no job that is not one of the pending. *)
Theorem measured_cycle_runs pending running slots seed now :
  1 <= slots <= u32_max → Z.of_nat (running + pending) <= u32_max → is_u64 now →
  ∃ w s jobs r, synthetic pending running slots seed = Done w ∧ workload_ok pending running w ∧
    enroll_all w = Done (s, jobs) ∧ (∀ x, job_state jobs x = Some JobState.Ready ↔ x ∈ wl_admitted w) ∧
    run_cycle s jobs (wl_inventory w) (wl_running w) now bench_config [] = Done r ∧
    ∀ d, d ∈ cy_decisions r → dd_job d ∈ wl_admitted w.
Proof.
  intros Hs Hn Hnow. destruct (synthetic_ok pending running slots seed Hs Hn) as (w & E & Hw).
  pose proof Hw as [Hp [Hi Hwc] Hr [Hl Hnd] Hwt].
  assert (∀ x st, job_state (wl_jobs w) x = Some st → st = JobState.Running ∨ st = JobState.Submitted) as Hst.
  { intros x st. unfold job_state. destruct (Arena_get (wl_jobs w) x) as [j|] eqn:Hj; [|done]. intros [= <-]. by apply (pl_jobs _ _ Hp x j Hj). }
  destruct (enroll_rest w _ (wl_admitted w) [] (Scheduler_with_slots (Z.of_nat (length (Arena.slots (wl_jobs w))))) (wl_jobs w) Hp)
    as (s & jobs & Ea & Ha); [|done|done|].
  { split; [apply Scheduler_fresh_inv; [by eapply placed_ok|]|reflexivity| |].
    - intros x st Hx%Hst. by destruct Hx as [-> | ->].
    - intros x. case_decide as Hx; [by apply elem_of_nil in Hx|done].
    - intros x Hx. by destruct (tracker_empty (Z.of_nat (length (Arena.slots (wl_jobs w))))) as (_ & _ & Ht); destruct (Ht x). }
  assert (∀ x, job_state jobs x = Some JobState.Ready ↔ x ∈ wl_admitted w) as Hready.
  { intros x. rewrite (ad_state _ _ _ _ Ha). cbn [app]. case_decide; [done|]. split; [|done]. intros [? | ?]%Hst; done. }
  assert (running_ok (wl_running w)) as Hrun.
  { eapply Forall_impl; [exact Hr|]. intros x (j & Hj & _ & <-). destruct (pl_jobs _ _ Hp _ _ Hj) as ((_ & _ & Hq & _) & _).
    by apply Resources_wf_nonneg. }
  destruct (si_ready _ _ (ad_sched _ _ _ _ Ha)) as [es Hes].
  destruct (run_cycle_spec s jobs es (wl_inventory w) (wl_running w) now bench_config [] (ad_sched _ _ _ _ Ha) Hes
    (within_inventory_ok _ _ Hi Hwc) Hrun Hnow) as (r & packed & back & fs & cs & Er & Hpost & _); [done|].
  exists w, s, jobs, r. split_and!; try done. intros d. rewrite (cp_decisions _ _ _ _ _ _ Hpost). intros Hd%(cp_ready _ _ _ _ _ _ Hpost).
  by apply Hready.
Qed.
