(* ===== verification/LoadGen.v ===== *)
(** * Open-loop load

    [crates/tasker-bench/src/bin/loadgen.rs]: the command line, the daemon and the
    workers it starts in its own process, the stamped payloads, the submission
    loop, the polls before and after it, and the report.  The histogram is a
    library, taken as a class of operations; the clock, the network and the
    daemon's answers are arguments.  The schedule does not depend on how the
    daemon keeps up: every submission leaves with the time it was meant for. *)

From stdpp Require Import base strings list numbers option sets.
From Stdlib Require Import ZArith Lia Floats.SpecFloat.
From S2P Require Import Prelude Text Domain Arena Job Codec LogRecord Log Engine Metrics Proto Services Worker Args.
Open Scope Z_scope.
Open Scope list_scope.

(** [Args]; the data directory is where the daemon keeps its log. *)
Record LoadArgs : Type := MkLoadArgs {
  la_rate : Z;
  la_seconds : Z;
  la_workers : Z;
  la_worker_cpu : Z;
  la_job_cpu : Z;
  la_task_ms : Z;
  la_tick_ms : Z;
  la_data_dir : option (list Z);
  la_wal_sync : SyncPolicy;
}.

Definition LoadArgs_default : LoadArgs := MkLoadArgs 2000 10 4 64000 100 10 5 None SyncPolicy.Data.

(** [parse_sync] of the load generator. *)
Definition load_parse_sync (s : list Z) : result SyncPolicy (list Z) :=
  if bool_decide (s = str "full") then Ok SyncPolicy.Full
  else if bool_decide (s = str "data") then Ok SyncPolicy.Data
  else if bool_decide (s = str "none") then Ok SyncPolicy.NoSync
  else Err s.

(** What the daemon in the process runs with: its tick, its data directory, its
    sync policy, and the engine's defaults. *)
Definition load_daemon (a : LoadArgs) : Z * option (list Z) * SyncPolicy * DaemonConfig :=
  (la_tick_ms a * 1000000, la_data_dir a, la_wal_sync a, DaemonConfig_default).

(** Worker [i]: its name is the text [lg-i]. *)
Definition load_worker (a : LoadArgs) (i : nat) : list Z * Resources * Z * Z :=
  (str "lg-" ++ dec (Z.of_nat i), MkResources (la_worker_cpu a) 0 0, 1000000000, 5 * 1000000000).

Definition load_workers (a : LoadArgs) : list (list Z * Resources * Z * Z) :=
  map (load_worker a) (seq 0 (Z.to_nat (la_workers a))).

(** Polling: the answers in the order they come; an error ends it, [None] is a
    loop that has not come to an end yet. *)
Fixpoint poll {A} (until : A → bool) (answers : list (result A Status)) : option (result unit Status) :=
  match answers with
  | [] => None
  | Err s :: _ => Some (Err s)
  | Ok a :: answers => if until a then Some (Ok tt) else poll until answers
  end.

Definition wait_attached (n : nat) : list (result (list Wire.Node) Status) → option (result unit Status) :=
  poll (fun nodes => Nat.eqb (length (List.filter Wire.nd_attached nodes)) n).

Definition wait_drained : list (result Wire.QueueResponse Status) → option (result unit Status) :=
  poll (fun q => (Wire.qr_ready q =? 0) && (Wire.qr_running q =? 0)).

(** ** The payloads *)

(** Bytes 8 to 16 of the payload carry the intended send time. *)
Definition stamped (sleep intended : Z) : bytes := sleep_payload sleep ++ to_le_bytes 8 intended.

(** The sample [LatencyExecutor] records when the task starts, in microseconds. *)
Definition latency_sample (started : Z) (payload : bytes) : option Z :=
  if (16 <=? length payload)%nat
  then Some (Z.max (Z.max 0 (started - from_le_bytes (take 8 (drop 8 payload))) / 1000) 1)
  else None.

(** ** The submission loop *)

Definition period (rate : Z) : Z := 1000000000 / Z.max rate 1.

(** The time submission [i] is meant to leave. *)
Definition intended (start rate i : Z) : Z := wrap64 (start + wrap64 (i * period rate)).

(** Release builds wrap. *)
Definition total (a : LoadArgs) : Z := wrap64 (la_rate a * la_seconds a).

Definition load_request (job_cpu task start rate i : Z) : Wire.SubmitRequest :=
  Wire.MkSubmitRequest 0 (Wire.class_number Wire.Normal) (Some (Wire.MkResources job_cpu 0 0)) 60000000000 []
    (stamped task (intended start rate i)).

(** From submission [i] on, [n] of them left; every thousandth is followed by a
    query whose failure ends the run.  The replies to the submissions themselves
    are not waited for. *)
Fixpoint submit_from (a : LoadArgs) (start : Z) (queue : Z → result Wire.QueueResponse Status) (n : nat) (i : Z)
  : list Wire.SubmitRequest * result unit Status :=
  match n with
  | O => ([], Ok tt)
  | S n =>
      let req := load_request (la_job_cpu a) (la_task_ms a * 1000000) start (la_rate a) i in
      let next := submit_from a start queue n (i + 1) in
      if i mod 1000 =? 0 then
        match queue i with
        | Err s => ([req], Err s)
        | Ok _ => (req :: next.1, next.2)
        end
      else (req :: next.1, next.2)
  end.

(** [tokio::time::interval] panics on a period of zero. *)
Definition submit_all (a : LoadArgs) (start : Z) (queue : Z → result Wire.QueueResponse Status)
  : exec (list Wire.SubmitRequest * result unit Status) :=
  if period (la_rate a) =? 0 then Panic else Done (submit_from a start queue (Z.to_nat (total a)) 0).

(** The counter of failed submissions, over the replies that have come. *)
Definition rejected (replies : list (result Wire.SubmitResponse Status)) : nat :=
  length (List.filter (fun r => match r with Ok _ => false | Err _ => true end) replies).

(** ** The histogram and the report *)

(** [hdrhistogram::Histogram]: a value out of its bounds is not recorded. *)
Class Histogram (H : Type) : Type := {
  record : H → Z → option H;
  samples : H → Z;
  value_at_quantile : H → f64 → Z;
  mean : H → f64;
}.

Section Report.
Context {H : Type} `{Histogram H}.

(** [LatencyExecutor::run]: the sample is taken when the task starts, then the
    task sleeps. *)
Definition LatencyExecutor_run (hist : H) (started : Z) (payload : bytes) (stopped : bool) : H * result unit unit :=
  (match latency_sample started payload with
   | Some micros => default hist (record hist micros)
   | None => hist
   end, SleepExecutor_run payload stopped).

(** The quantiles as they are shown and as they are asked for. *)
Definition QUANTILES : list (list Z * f64) :=
  [(str "50", as_f64 50); (str "90", as_f64 90); (str "99", as_f64 99);
   (str "99.9", f64_div (as_f64 999) (as_f64 10)); (str "99.99", f64_div (as_f64 9999) (as_f64 100)); (str "100", as_f64 100)].

(** [{:.0}]. *)
Definition whole (x : f64) : list Z :=
  match x with
  | S754_finite neg m e => (if neg then [45] else []) ++ dec (Cli.scaled 0 (Z.pos m) e)
  | S754_zero neg => (if neg then [45] else []) ++ dec 0
  | S754_infinity neg => (if neg then [45] else []) ++ str "inf"
  | S754_nan => str "NaN"
  end.

(** The arrow and the micro sign are characters 8594 and 181. *)
Definition print_report (hist : H) (a : LoadArgs) (rejected : Z) : list (list Z) :=
  [str "submit" ++ [8594] ++ str "start latency, open loop @ " ++ dec (la_rate a) ++ str " /s for " ++ dec (la_seconds a) ++
     str " s, " ++ dec (la_workers a) ++ str " workers, tick " ++ dec (la_tick_ms a) ++ str " ms, task " ++ dec (la_task_ms a) ++
     str " ms";
   str "samples " ++ dec (samples hist) ++ str "  rejected " ++ dec rejected] ++
  map (fun '(name, q) => str "p" ++ Cli.pad_right 6 name ++ str " " ++
         Cli.pad_left 10 (dec (value_at_quantile hist (f64_div q (as_f64 100)))) ++ str " " ++ [181] ++ str "s") QUANTILES ++
  [str "mean   " ++ Cli.pad_left 10 (whole (mean hist)) ++ str " " ++ [181] ++ str "s"].
End Report.

(** ** Facts *)

(** A poll ends well at the first answer that satisfies it, provided the calls
    before it succeeded. *)
Lemma poll_Ok {A} (until : A → bool) answers :
  poll until answers = Some (Ok tt) ↔
  ∃ k a, answers !! k = Some (Ok a) ∧ until a = true ∧
    ∀ i, (i < k)%nat → ∃ b, answers !! i = Some (Ok b) ∧ until b = false.
Proof.
  induction answers as [|r answers IH]; cbn [poll]; [split; [done|intros (k & a & Hk & _); by rewrite lookup_nil in Hk]|].
  destruct r as [a|s].
  - destruct (until a) eqn:Ea.
    + split; [|done]. intros _. exists 0%nat, a. split_and!; [done|done|lia].
    + rewrite IH. split.
      * intros (k & b & Hk & Hb & Hi). exists (S k), b. split_and!; [done|done|]. intros [|i] Hlt; [by exists a|]. apply Hi. lia.
      * intros (k & b & Hk & Hb & Hi). destruct k as [|k]; [injection Hk as <-; congruence|]. exists k, b.
        split_and!; [done|done|]. intros i Hlt. apply (Hi (S i)). lia.
  - split; [done|]. intros (k & a & Hk & _ & Hi). destruct k as [|k]; [done|]. by destruct (Hi 0%nat ltac:(lia)) as (? & ? & _).
Qed.

(** The queue the load waits for is one with no work: nothing ready, nothing
    running. *)
Lemma drained_means_idle answers :
  wait_drained answers = Some (Ok tt) → ∃ q, Ok q ∈ answers ∧ Wire.qr_ready q = 0 ∧ Wire.qr_running q = 0.
Proof.
  intros (k & q & Hk & Hq & _)%poll_Ok. exists q. split; [by eapply list_elem_of_lookup_2|].
  apply andb_true_iff in Hq as [? ?]. lia.
Qed.

(** The workers have different names, so none takes another's slot. *)
Lemma worker_names_differ a i j :
  Z.of_nat i <= u32_max → Z.of_nat j <= u32_max → (load_worker a i).1.1.1 = (load_worker a j).1.1.1 → i = j.
Proof.
  intros Hi Hj E%app_inv_head. destruct (dec_spec (Z.of_nat i)) as (_ & _ & Ei); [unfold is_u64; lia|].
  destruct (dec_spec (Z.of_nat j)) as (_ & _ & Ej); [unfold is_u64; lia|]. rewrite E in Ei. lia.
Qed.

(** Both command lines read the policy the same way. *)
Lemma parse_sync_agrees s : load_parse_sync s = Taskerd.parse_sync s.
Proof. reflexivity. Qed.

(** The stamp changes neither what the task sleeps nor what the sample measures:
    the time from the intended send to the start, at least one microsecond. *)
Lemma stamp_roundtrip sleep at_ started :
  0 <= sleep → is_u64 at_ →
  sleep_nanos (stamped sleep at_) = Z.min sleep u64_max ∧
  latency_sample started (stamped sleep at_) = Some (Z.max (Z.max 0 (started - at_) / 1000) 1).
Proof.
  intros Hs Ha. assert (length (sleep_payload sleep) = 8%nat) as Hl by apply length_to_le. unfold stamped. split.
  - rewrite <-(sleep_roundtrip sleep Hs). unfold sleep_nanos. rewrite length_app, Hl, length_to_le. cbn [Nat.leb Nat.add].
    rewrite take_app_le by lia. done.
  - unfold latency_sample. rewrite length_app, Hl, length_to_le. cbn [Nat.leb Nat.add].
    rewrite drop_app_length' by done. rewrite firstn_all2 by (by rewrite length_to_le). by rewrite from_to_le_u64.
Qed.

(** A run that cannot overflow the clock: the sends are one period apart, all
    within the seconds asked for, and every request becomes a job. *)
Lemma load_schedule job_cpu task start rate seconds i now :
  is_u32 job_cpu → 0 <= task → 1 <= rate → 0 <= i < rate * seconds → 0 <= start → start + seconds * 1000000000 <= u64_max → is_u64 now →
  start <= intended start rate i < start + seconds * 1000000000 ∧
  intended start rate (i + 1) = intended start rate i + period rate ∧
  ∃ job, job_from_submit (load_request job_cpu task start rate i) now = Ok job ∧ sleep_nanos (payload job) = Z.min task u64_max.
Proof.
  intros Hc Ht Hr Hi Hs Hu Hn.
  assert (0 <= period rate ∧ rate * period rate <= 1000000000) as [Hp0 Hp].
  { unfold period. rewrite Z.max_l by lia. split; [apply Z.div_pos; lia|apply Z.mul_div_le; lia]. }
  assert (i * period rate + period rate <= seconds * 1000000000) as Hip by nia.
  assert (∀ k, i <= k <= i + 1 → intended start rate k = start + k * period rate) as Hk.
  { intros k Hk. unfold intended, wrap64. rewrite (Z.mod_small (k * _)) by nia. rewrite Z.mod_small; nia. }
  rewrite !Hk by lia. split; [|split; [lia|]].
  - split; [nia|]. destruct (decide (period rate = 0)) as [E|]; [|lia]. rewrite E. assert (0 < seconds) by nia. lia.
  - eexists. split; [reflexivity|]. cbn [payload]. apply (stamp_roundtrip task _ 0); [done|]. rewrite Hk by lia. unfold is_u64. nia.
Qed.

(** Above a billion submissions a second nothing is left of the period. *)
Example period_vanishes : period 1000000001 = 0.
Proof. reflexivity. Qed.

Lemma submit_from_spec a start queue n i :
  (∀ k, i <= k < i + Z.of_nat n → ∃ q, queue k = Ok q) →
  submit_from a start queue n i =
    (map (fun k => load_request (la_job_cpu a) (la_task_ms a * 1000000) start (la_rate a) (i + Z.of_nat k)) (seq 0 n), Ok tt).
Proof.
  revert i. induction n as [|n IH]; intros i Hq; [done|]. cbn [submit_from]. rewrite IH by (intros k Hk; apply Hq; lia).
  destruct (Hq i ltac:(lia)) as [q ->]. cbn [seq map fst snd]. rewrite <-seq_shift, map_map, Z.add_0_r.
  assert (∀ A (x : A), (if i mod 1000 =? 0 then x else x) = x) as Hif by (intros; by case_match).
  rewrite Hif. do 2 f_equal. apply map_ext. intros k. f_equal. lia.
Qed.

(** A query that fails stops the submissions there; the later ones are not sent. *)
Lemma submit_from_stops a start queue n i s :
  (submit_from a start queue n i).2 = Err s →
  ∃ k, i <= k < i + Z.of_nat n ∧ k mod 1000 = 0 ∧ queue k = Err s ∧
    length (submit_from a start queue n i).1 = Z.to_nat (k - i + 1).
Proof.
  revert i. induction n as [|n IH]; intros i; cbn [submit_from]; [done|].
  assert ((submit_from a start queue n (i + 1)).2 = Err s → ∃ k, i <= k < i + Z.of_nat (S n) ∧ k mod 1000 = 0 ∧ queue k = Err s ∧
    S (length (submit_from a start queue n (i + 1)).1) = Z.to_nat (k - i + 1)) as Hlater.
  { intros (k & Hk & Hm & Hq & Hl)%IH. exists k. split_and!; [lia|lia|done|done|lia]. }
  destruct (Z.eqb_spec (i mod 1000) 0) as [E|E]; [|exact Hlater].
  destruct (queue i) as [q|s'] eqn:Hq; [exact Hlater|]. cbn. intros [= ->]. exists i. split_and!; [lia|lia|done|done|].
  replace (i - i + 1) with 1 by lia. done.
Qed.

(** The open loop: at a rate of at most a billion a second, and while the queries
    are answered, every submission of the run leaves, in order, each becoming a
    job that carries its own intended time, one period after the one before it,
    whatever becomes of the others. *)
Theorem open_loop_skips_nothing a start queue :
  is_u32 (la_job_cpu a) → 0 <= la_task_ms a → 1 <= la_rate a <= 1000000000 → 0 <= la_seconds a → 0 <= start →
  la_rate a * la_seconds a <= u64_max → start + la_seconds a * 1000000000 <= u64_max → (∀ k, ∃ q, queue k = Ok q) →
  ∃ reqs, submit_all a start queue = Done (reqs, Ok tt) ∧ Z.of_nat (length reqs) = la_rate a * la_seconds a ∧
    ∀ i req now started, reqs !! i = Some req → is_u64 now →
      ∃ job, job_from_submit req now = Ok job ∧ sleep_nanos (payload job) = Z.min (la_task_ms a * 1000000) u64_max ∧
        latency_sample started (payload job) = Some (Z.max (Z.max 0 (started - (start + Z.of_nat i * period (la_rate a))) / 1000) 1).
Proof.
  intros Hc Ht Hr Hs Hst Htot Hend Hq.
  assert (0 < period (la_rate a)) as Hp by (unfold period; rewrite Z.max_l by lia; apply Z.div_str_pos; lia).
  assert (total a = la_rate a * la_seconds a) as Et by (unfold total, wrap64; rewrite Z.mod_small; nia).
  unfold submit_all. destruct (Z.eqb_spec (period (la_rate a)) 0); [lia|]. rewrite submit_from_spec by auto.
  eexists. split; [done|]. rewrite length_map, length_seq, Et. split; [nia|].
  intros i req now started Hi Hn. rewrite list_lookup_fmap in Hi. apply fmap_Some in Hi as (k & [-> Hlt]%lookup_seq & ->). cbn [Nat.add].
  assert (0 <= Z.of_nat i < la_rate a * la_seconds a) as Hin by nia.
  destruct (load_schedule (la_job_cpu a) (la_task_ms a * 1000000) start (la_rate a) (la_seconds a) (Z.of_nat i) now)
    as ([H1 H2] & _ & job & E & Hsl); try done; [nia|lia|]. rewrite Z.add_0_l. exists job. split; [done|]. split; [done|].
  assert (intended start (la_rate a) (Z.of_nat i) = start + Z.of_nat i * period (la_rate a)) as Ei.
  { assert (la_rate a * period (la_rate a) <= 1000000000) by (unfold period; rewrite Z.max_l by lia; apply Z.mul_div_le; lia).
    unfold intended, wrap64. rewrite (Z.mod_small (_ * _)) by nia. rewrite Z.mod_small; nia. }
  rewrite <-Ei. cbn in E. injection E as <-. apply stamp_roundtrip; [nia|unfold is_u64; lia].
Qed.
